(* ===== verification/_CoqProject ===== *)
-Q . S2P
Prelude.v
RustStr.v
Path.v
Auth.v
Crypto.v
Etag.v
Types.v
Db.v
AuditVerify.v
AuditGates.v
AuditAppend.v
Cas.v
WorldWrite.v
SchemaSql.v
StorageClass.v
WorldSchema.v
DataLock.v
Timeline.v
EventId.v
Store.v
Quota.v
WorldLocks.v
ChainSpec.v
ChainValid.v
GateProofs.v
CasProofs.v
WriteProofs.v
WriteTheorems.v
Reachable.v
Demo.v
ChainTheorems.v
TimelineProofs.v
TimelineTheorems.v
Core.v
WorldOps.v
DeleteOps.v
Estimate.v
Usage.v
CoreInv.v
WorldOpsProofs.v
DeleteOpsProofs.v
CoreTheorems.v
EngineDemo.v
Conc.v
ReadCache.v
ReadCacheLocks.v
ReadCacheSafe.v
ReadCacheReads.v
ReadCacheTheorems.v
ReadCacheSeq.v
Frames.v
Startup.v
StartupTheorems.v
EngineOps.v
Introspection.v
FacadeSpec.v
EngineTheorems.v
IntrospectionTheorems.v
Announce.v
Subscription.v
SubscriptionTheorems.v
SubscriptionRace.v
HttpQuery.v
HttpResponse.v
HttpSemantics.v
HttpPipeline.v
HttpTheorems.v
HttpWrites.v
HttpDemo.v
HttpProc.v
ProcPath.v
HttpConfig.v
HttpListen.v
CleanEvents.v
HttpProcTheorems.v
FfiTypes.v
Ffi.v
FfiTheorems.v
FfiSubscription.v
AdapterDemo.v
