(* ===== verification/Prelude.v ===== *)
(** * AuditeDB: a verification development (root file)

    AuditeDB keeps named "worlds".  A durable world is one SQLite file that holds
    a current body, its metadata and an append-only chain of events, each signed
    with an HMAC over its fields and the previous event's HMAC; the bodies of the
    latest events are kept by content hash, older ones are pruned.  Worlds below
    [tmp/], [dev/] and [sys/] live in memory only.  An engine owns one data
    directory and offers replace, append, delete, reads, timeline reads and
    subscriptions, under access tiers, byte quotas and HTTP-style preconditions.
    Deletes are signed into the ledger world [var/log/deletes] before and after
    the file goes.

    ** How the parts fit together, and where they are modelled

    - Names: [RustStr] (bytes, UTF-8, decimal numbers), [Path] ([path.rs], the
      path types of [engine_types.rs], the disk encoder of [world.rs] and decoder
      of [world/files.rs], [bin/src/server/path.rs]).
    - Access: [Auth] ([auth.rs] and the [authorize_] functions of
      [world_read_ops.rs], [world_ops.rs], [delete_ops.rs]); [Etag] ([etag.rs]).
    - Signatures: [Crypto] (the preimage encoders of [audit.rs], ETags), with
      SHA-256 and HMAC as the class [Crypto].  [CryptoLaws] states only that they
      print 64 hexadecimal digits; a theorem that needs collision resistance ends
      in an explicit collision instead.
    - A world file: [Types] (value types), [Db] (the tables as the record
      [world_db], SQL statements as functions, a transaction as a function that
      returns the new record or an error), [AuditVerify] and [AuditGates]
      ([audit/verifier.rs], [audit/retention.rs], [audit/live_body.rs],
      [audit.rs]), [AuditAppend] ([audit/append.rs]), [Cas] ([world/cas.rs]),
      [WorldWrite] (the write transactions of [world.rs]), [SchemaSql] and
      [WorldSchema] ([world_schema.rs] and the functions of [world.rs] and
      [world/files.rs] that open, create and delete a file, on a file of untyped
      SQLite values, one level below [Db]; [Core] creates its files through them),
      [Timeline]
      ([audit/timeline_row.rs], [audit/timeline_address.rs],
      [audit/timeline_dereference.rs]), [EventId]
      ([subscription_event_id.rs], [event.rs]).
    - Shared resources: [DataLock] ([data_lock.rs]), [Store] ([store.rs]), [Quota] ([state.rs] counters and
      file-operation gate, [state/storage_reservation.rs]), [WorldLocks]
      ([state.rs] lock table, and how [world_ops.rs] and [delete_ops.rs] lock).
    - The engine: [StorageClass] ([storage_class.rs]), [Core] (the state and
      methods of [state.rs]), [WorldOps] ([world_ops.rs]), [DeleteOps]
      ([delete_ops.rs], [ledger.rs]).  An operation is a function from the state
      to a result and the state it leaves; a Rust guard dropped on an early
      return is [on_drop].  [files] holds the files with a complete schema,
      [broken] those a failed creation left with a part of it; [lost] is a ghost,
      the files that went in a removal which then failed.
    - Concurrency: [Conc] (threads as finite trees of atomic actions, run in any
      order), [ReadCache] ([read_cache.rs], [read_cache/state_machine.rs]: slots,
      guards, eviction, tombstones, drains).
    - The public engine: [Startup] ([EngineBuilder] and [build] of [engine.rs],
      the directory scans of [world/files.rs]), [EngineOps] ([engine_ops.rs],
      [world_read_ops.rs], the conversion of every error to [EngineError]),
      [Subscription] ([engine_subscription.rs], [subscription_cursor.rs], the
      subscription half of [engine_ops.rs]), [SubscriptionRace] (announcing and
      subscribing as interleaved atomic steps), [Introspection]
      ([engine_introspection.rs]: proc paths, listings, usage, audit reads).
    - The HTTP server ([bin/src/server]): [HttpResponse] ([response.rs]),
      [HttpSemantics] ([http/range.rs], [http/semantics.rs]), [HttpQuery]
      ([pipeline/query.rs]), [HttpPipeline] (the phases and verbs of
      [pipeline.rs], [handler.rs] and their submodules, and [middleware.rs]),
      [HttpProc] ([proc.rs]),
      [HttpListen] ([listen.rs]), [HttpConfig] ([config.rs], the startup of
      [mod.rs]).  A request is a method, a path, a query, headers and a body; an
      answer is a status, headers and a body, or a stream of events.
    - The foreign-function interface ([ffi]): [FfiTypes] ([types.rs]), [Ffi] (the
      handle and its verbs), [FfiSubscription] (the pump between the engine's
      subscription and a bounded channel, [next], [close] and drop, as steps that
      interleave).

    The other files hold specifications and proofs over these definitions.

    ** What the theorems show

    - [ChainSpec], [ChainValid]: a declarative specification [chain_valid] of an
      intact file (signed links, retention, live body).  The verifier of the code
      accepts exactly the files that satisfy it ([WriteTheorems]).
    - [WriteProofs], [CasProofs], [WriteTheorems], [Reachable]: genesis, replace
      and append lead from intact files to intact files, read back what was
      written, and only extend history; also along every run.
    - [GateProofs], [ChainTheorems]: the cheap gates agree with the full one on
      intact files; two files that answer with one chain stamp have one history
      below it, or the signatures collide; a rolled-back file is detected.
    - [TimelineProofs], [TimelineTheorems]: historical reads have a closed form
      and are total, returned addresses stay readable or provably expired, replay
      is complete and in order.
    - [Path], [Auth], [Crypto], [Etag], [EventId]: injective and confined disk
      names, exact authorization, If-Match and If-None-Match as lists of tags with
      every precondition error, unambiguous preimages, codec
      round trips.
    - [SchemaSql], [WorldSchema]: the schema check accepts exactly the files whose
      statements have the expected tokens, by an independent lexer, and whose
      rows are well formed; a file whose creation is interrupted is refused for
      ever unless its last table exists; the delete loop is bounded.
    - [DataLock]: one process at a time holds a data directory; a refused one
      reports the recorded holder, or none when the query for it fails too.
    - [Store], [Quota]: byte budgets are exact; with the writes and deletes of
      different worlds interleaved, the counter is what is stored, what was lost
      and what each operation between its reservation and its last settlement
      still owes; shutdown drains the gate with no lost wake-up.
    - [WorldLocks]: one operation at a time on a world, no deadlock, and no entry
      of the lock table lost while it is in use.
    - [Estimate], [Usage], [CoreInv], [WorldOpsProofs], [DeleteOpsProofs],
      [CoreTheorems]: for the whole operations, on every path and with any fault
      of SQLite, the clock or the file system: replace and append store the
      whole request or leave the body and history that were there, and a failed
      one tells what a creation left; delete leaves a signed trace; and in every
      run each file is intact, or fresh, or refused by every open, and the counters
      are the exact sums over the files and what failed removals took away.
    - [ReadCacheLocks], [ReadCacheSafe], [ReadCacheReads], [ReadCacheTheorems],
      [ReadCacheSeq]: under every interleaving of reads and deletes no connection
      is open when a file is removed; clients always return; run one after
      another, operations through the cache are those on plain files.  A write in
      between breaks the first promise, which a schedule shows.
    - [StartupTheorems]: a restart gives back the same engine, or refuses for what
      a failed first write left: an empty schema, or a part of one; the other files
      an engine left pass the schema check and open again; every builder gives a configuration the
      engine can run with.
    - [FacadeSpec], [EngineTheorems]: the public engine refines an abstract store
      of worlds, access control, faults and shutdown included.
    - [Announce], [SubscriptionTheorems], [SubscriptionRace]: the live stream
      announces exactly the rows the chains gained, those of failed operations
      included; receiving always returns; a resumed subscription to one world gets every later row
      exactly once.  For wildcard patterns two schedules show a lost and a
      repeated event, and a dropped [recv] closes its subscription.
    - [IntrospectionTheorems]: listings hold every world once and in order; the
      usage rows add up to the counters, unless a broken file stops them.
    - [HttpTheorems], [HttpWrites]: the pipeline returns, its answers say what
      happened to the abstract store, a PUT is read back by GET, HEAD is GET
      without its body, ranges are exact, every
      header of an answer is one the server wrote with that value or an allowed one
      of the stored world, and the middleware stamps every response once.
    - [ProcPath], [HttpProcTheorems]: no route of the server tells a caller without
      read access anything about the engine or changes it, and the audit routes
      tell a reader what the files hold.
    - [HttpListen], [CleanEvents]: no event the engine delivers holds a line break,
      so its data is read back field by field; a client that reconnects with its
      last id is sent every later row once.
    - [HttpConfig]: the server runs with what its environment names; which zeros
      stand for a default, and what becomes of a token that is not Unicode.
    - [Frames]: relations every operation of the engine keeps.
    - [FfiTheorems]: the interface refines the same abstract store, and the
      summary of a handle tells what its engine runs with;
      [FfiSubscription]: a foreign subscriber gets the rows in order.
    - [HttpDemo], [AdapterDemo]: these theorems on concrete requests.
    - [Demo], [EngineDemo]: concrete worlds and engines; the theorems applied to
      them; runs that show what a failed first write leaves behind.

    ** Bounds, fuel and assumptions

    Loops of the code run over rows, path segments or characters, and are
    structural recursion here.  The retry loops of the read cache recurse on the
    retry budget the code has; [recv_live] has fuel, one more than the length of
    the stream, which is enough because each turn consumes an event
    ([recv_returns]).  The driver of the HTTP pipeline has fuel six: each turn
    lowers the rank of its phase, so six turns are enough ([http_answers_true]).
    Integers are [Z] with
    the checks of the code ([checked_add], saturation, [i64] conversions) written
    out at 64 bits.  The operation theorems assume that a data directory holds
    less than [2^63] bytes ([disk_bounded]), that the retained-body count fits
    the [i64] column it is bound to ([config_ok]) and that minted generations
    have the shape the code mints ([env_ok]).  A fault may strike wherever the
    code calls SQLite, between the statements that create a file too; a failed
    commit leaves the file as it was, which is what SQLite documents.  Theorems
    that classify the error of an incomplete file assume that rusqlite prints a
    failure with a message as that message ([RusqliteLaws]).  A removal that fails leaves the database in
    place or takes it along ([removal_outcome]); the connections of the world are
    closed and its log is checkpointed before, so unlinking [-wal] and [-shm] takes
    nothing from the database.  A checkpoint that fails before a removal that fails
    is not modelled.
    An operation holds its world's lock for its whole run and is one step, which
    [WorldLocks] justifies; what
    operations on different worlds share is studied under interleaving in
    [Quota], [ReadCache] and [SubscriptionRace].  In [Core] the read cache is
    abstracted to the file behind it and the tombstone that hides it, which
    [ReadCacheSeq] justifies for one client at a time.  A subscription opens in
    two moments (its receiver starts, its replay is read) with any operations in
    between; between the commit and the announcement of a row a reader of that
    world sees what it sees after the operation.  The broadcast channel is the
    class [Broadcast] with the laws tokio documents; the header types of the [http]
    crate are the classes [HttpCrate] and [HttpGetAll] with [HttpLaws], and
    base64 is the class [Base64]; tokio's bounded channel is the class [Mpsc] with
    [MpscLaws].  A scan of the data directory sees it as the
    list of its entries, with the faults the file system may raise.

    ** What is not modelled

    SQLite itself (pragmas, WAL files, its query engine), the thread pool, log
    lines, trace hooks, test-only process cursors, process start, the path
    matching of axum's router and the texts of the errors of the foreign-function
    interface: calls into libraries, or text nothing reads back. *)

From stdpp Require Export base gmap strings list sorting pretty fin_maps.
From Stdlib Require Export ZArith Lia.

Set Default Proof Using "Type".

(** ** Results: Rust's [Result<T, E>], error type first so that it is a monad *)

Inductive result (E A : Type) : Type :=
| Ok (a : A)
| Err (e : E).
Arguments Ok {E A} a.
Arguments Err {E A} e.

Section ResultMonad.
Context {E : Type}.

#[global] Instance result_ret : MRet (result E) := fun A a => Ok a.
#[global] Instance result_bind : MBind (result E) := fun A B f r =>
  match r with Ok a => f a | Err e => Err e end.
#[global] Instance result_fmap : FMap (result E) := fun A B f r =>
  match r with Ok a => Ok (f a) | Err e => Err e end.
End ResultMonad.

#[global] Instance result_eq_dec {E A} `{EqDecision E} `{EqDecision A} :
  EqDecision (result E A).
Proof. solve_decision. Defined.

(** [Result::map_err], [Option::ok_or], [Result::ok], [Result::is_ok]. *)
Definition map_err {E E' A} (f : E -> E') (r : result E A) : result E' A :=
  match r with Ok a => Ok a | Err e => Err (f e) end.

Definition ok_or {E A} (e : E) (o : option A) : result E A :=
  match o with Some a => Ok a | None => Err e end.

Definition result_ok {E A} (r : result E A) : option A :=
  match r with Ok a => Some a | Err _ => None end.

Definition is_ok {E A} (r : result E A) : bool :=
  match r with Ok _ => true | Err _ => false end.

(** [if c { return Err(e) }]: a guard that fails with [e] unless [b] holds. *)
Definition ensure {E} (b : bool) (e : E) : result E unit :=
  if b then Ok tt else Err e.

Lemma result_bind_Ok {E A B} (r : result E A) (f : A -> result E B) b :
  (a ← r; f a) = Ok b <-> exists a, r = Ok a /\ f a = Ok b.
Proof.
  destruct r as [a|e]; simpl; split.
  - intros H. by exists a.
  - intros (a' & [= ->] & H). done.
  - done.
  - intros (a' & H & _). done.
Qed.

Lemma map_err_Ok {E E' A} (f : E -> E') (r : result E A) a :
  map_err f r = Ok a <-> r = Ok a.
Proof. destruct r; simpl; split; congruence. Qed.

Lemma ok_or_Ok {E A} (e : E) (o : option A) a :
  ok_or e o = Ok a <-> o = Some a.
Proof. destruct o; simpl; split; congruence. Qed.

Lemma ensure_Ok {E} (b : bool) (e : E) u : ensure b e = Ok u <-> b = true.
Proof. destruct b, u; simpl; split; congruence. Qed.

(** ** Machine integers

    [usize] and [u64] are 64 bits wide, [i64] is a signed 64-bit integer; all
    three are integers of [Z] with their bounds written out. *)

Definition usize_max : Z := 2 ^ 64 - 1.
Definition u64_max : Z := 2 ^ 64 - 1.
Definition i64_max : Z := 2 ^ 63 - 1.
Definition i64_min : Z := - 2 ^ 63.

Definition usize_ok (n : Z) : Prop := (0 <= n <= usize_max)%Z.

Definition checked_add (a b : Z) : option Z :=
  if (a + b <=? usize_max)%Z then Some (a + b)%Z else None.
Definition checked_sub (a b : Z) : option Z :=
  if (b <=? a)%Z then Some (a - b)%Z else None.
Definition saturating_add (a b : Z) : Z := Z.min (a + b) usize_max.
Definition saturating_sub (a b : Z) : Z := Z.max (a - b) 0.

(** [i64::try_from(usize)] and [usize::try_from(i64)]. *)
Definition i64_try_from (n : Z) : option Z :=
  if (n <=? i64_max)%Z then Some n else None.
Definition usize_try_from (n : Z) : option Z :=
  if (0 <=? n)%Z then Some n else None.

Lemma checked_add_Some a b c :
  checked_add a b = Some c <-> c = (a + b)%Z /\ (a + b <= usize_max)%Z.
Proof. unfold checked_add. destruct (Z.leb_spec (a + b) usize_max); split; intros; simplify_eq; naive_solver lia. Qed.

Lemma checked_sub_Some a b c :
  checked_sub a b = Some c <-> c = (a - b)%Z /\ (b <= a)%Z.
Proof. unfold checked_sub. destruct (Z.leb_spec b a); split; intros; simplify_eq; naive_solver lia. Qed.

Lemma i64_try_from_Some n m :
  i64_try_from n = Some m <-> m = n /\ (n <= i64_max)%Z.
Proof. unfold i64_try_from. destruct (Z.leb_spec n i64_max); split; intros; simplify_eq; naive_solver lia. Qed.

(** ** Lengths of byte strings

    Rust's [str], [String], [Vec<u8>] and [Bytes] are all byte sequences; they
    are modelled by [string], whose characters are the 256 bytes. *)

Definition slen (s : string) : Z := Z.of_nat (String.length s).

Lemma slen_nonneg s : (0 <= slen s)%Z.
Proof. unfold slen. lia. Qed.

Lemma sapp_cons c s t : String c s +:+ t = String c (s +:+ t).
Proof. reflexivity. Qed.

Lemma sapp_nil_l s : "" +:+ s = s.
Proof. reflexivity. Qed.

Lemma length_sapp s1 s2 :
  String.length (s1 +:+ s2) = (String.length s1 + String.length s2)%nat.
Proof. induction s1 as [|c s1 IH]; [done|]. rewrite sapp_cons. cbn. by rewrite IH. Qed.

Lemma slen_app s1 s2 : slen (s1 +:+ s2) = (slen s1 + slen s2)%Z.
Proof. unfold slen. rewrite length_sapp. lia. Qed.

Lemma sapp_assoc s1 s2 s3 : (s1 +:+ s2) +:+ s3 = s1 +:+ s2 +:+ s3.
Proof. induction s1 as [|c s1 IH]; [done|]. rewrite ?sapp_cons. by rewrite IH. Qed.

Lemma sapp_nil_r s : s +:+ "" = s.
Proof. induction s as [|c s IH]; [done|]. rewrite ?sapp_cons. by rewrite IH. Qed.

Lemma sapp_inj_len s1 s2 t1 t2 :
  String.length s1 = String.length s2 ->
  s1 +:+ t1 = s2 +:+ t2 -> s1 = s2 /\ t1 = t2.
Proof.
  revert s2. induction s1 as [|c s1 IH]; intros [|c2 s2] Hl; try done.
  rewrite !sapp_cons. intros [= -> H]. injection Hl as Hl. by destruct (IH s2 Hl H) as [-> ->].
Qed.

(** ** Tactics and hint databases *)

Create HintDb auditedb discriminated.
#[export] Hint Resolve slen_nonneg : auditedb.

(** Split every successful bind of the context into its successful parts. *)
Ltac inv_ok :=
  repeat match goal with
  | H : mbind _ _ = Ok _ |- _ =>
      apply result_bind_Ok in H; destruct H as (? & ? & ?)
  | H : map_err _ _ = Ok _ |- _ => apply map_err_Ok in H
  | H : ok_or _ _ = Ok _ |- _ => apply ok_or_Ok in H
  | H : ensure _ _ = Ok _ |- _ => apply ensure_Ok in H
  | H : Ok _ = Ok _ |- _ => injection H as H; try subst
  | H : Err _ = Ok _ |- _ => discriminate H
  | H : mret _ = Ok _ |- _ => unfold mret, result_ret in H
  end.

(** Case analysis on the first [match]/[if] of a hypothesis or the goal. *)
Ltac case_match_in H :=
  match type of H with
  | context [match ?x with _ => _ end] => destruct x eqn:?
  end.

(** Evaluate a closed goal (an equation, an order on [Z], conjunctions of them)
    without looking at the hypotheses. *)
Ltac evaluate := vm_compute; repeat split; first [reflexivity | discriminate].
