(* ===== verification/RustStr.v ===== *)
(** * Byte strings: the part of Rust's [str], [char] and integer formatting the
    sources use

    A Rust string is its UTF-8 byte sequence.  Functions the sources call on
    bytes ([starts_with], [split('/')], [strip_prefix], [eq_ignore_ascii_case])
    work on the characters of [string]; functions they call on [char]s
    ([trim], [chars().any(char::is_control)]) go through the UTF-8 decoder
    [utf8_chunks].  [to_string] and [parse] of integers are decimal. *)

From S2P Require Import Prelude.
From Stdlib Require Import Ascii.

(** ** Bytes *)

Definition bv (c : ascii) : Z := Z.of_N (N_of_ascii c).

Definition in_range (lo hi : Z) (c : ascii) : bool :=
  (lo <=? bv c)%Z && (bv c <=? hi)%Z.

(** [u8::is_ascii_digit], [is_ascii_lowercase], [is_ascii_uppercase], ... *)
Definition is_ascii_digit (c : ascii) : bool := in_range 48 57 c.
Definition is_ascii_lowercase (c : ascii) : bool := in_range 97 122 c.
Definition is_ascii_uppercase (c : ascii) : bool := in_range 65 90 c.
Definition is_ascii_alphanumeric (c : ascii) : bool :=
  is_ascii_digit c || is_ascii_lowercase c || is_ascii_uppercase c.
Definition is_ascii_hexdigit (c : ascii) : bool :=
  is_ascii_digit c || in_range 97 102 c || in_range 65 70 c.

Definition to_ascii_lower (c : ascii) : ascii :=
  if is_ascii_uppercase c then ascii_of_N (N_of_ascii c + 32) else c.

Definition ascii_eqb (a b : ascii) : bool := Ascii.eqb a b.

(** ** Whole-string predicates *)

Fixpoint sall (f : ascii -> bool) (s : string) : bool :=
  match s with
  | "" => true
  | String c s => f c && sall f s
  end.

Definition sany (f : ascii -> bool) (s : string) : bool :=
  negb (sall (fun c => negb (f c)) s).

Definition contains_char (c : ascii) (s : string) : bool := sany (ascii_eqb c) s.

Fixpoint to_ascii_lowercase (s : string) : string :=
  match s with
  | "" => ""
  | String c s => String (to_ascii_lower c) (to_ascii_lowercase s)
  end.

Definition eq_ignore_ascii_case (a b : string) : bool :=
  bool_decide (to_ascii_lowercase a = to_ascii_lowercase b).

(** ** Prefixes, suffixes, splitting *)

Fixpoint strip_prefix (p s : string) : option string :=
  match p, s with
  | "", _ => Some s
  | String a p, String b s => if ascii_eqb a b then strip_prefix p s else None
  | _, _ => None
  end.

Definition starts_with (p s : string) : bool :=
  bool_decide (is_Some (strip_prefix p s)).

(** [str::strip_suffix(c)] for one ASCII character. *)
Fixpoint strip_suffix_char (c : ascii) (s : string) : option string :=
  match s with
  | "" => None
  | String a s' =>
      match s' with
      | "" => if ascii_eqb a c then Some "" else None
      | _ => String a <$> strip_suffix_char c s'
      end
  end.

Definition ends_with_char (c : ascii) (s : string) : bool :=
  bool_decide (is_Some (strip_suffix_char c s)).

(** [str::split(c)]: always at least one piece. *)
Fixpoint split (c : ascii) (s : string) : list string :=
  match s with
  | "" => [""]
  | String a s =>
      if ascii_eqb a c then "" :: split c s
      else match split c s with
           | [] => [String a ""]
           | p :: ps => String a p :: ps
           end
  end.

(** [split(c).next().unwrap_or("")]. *)
Definition split_first (c : ascii) (s : string) : string :=
  default "" (head (split c s)).

(** [str::split_once(c)]: around the first occurrence. *)
Fixpoint split_once (c : ascii) (s : string) : option (string * string) :=
  match s with
  | "" => None
  | String a s =>
      if ascii_eqb a c then Some ("", s)
      else '(l, r) ← split_once c s; Some (String a l, r)
  end.

(** [str::rsplit_once(c)]: around the last occurrence. *)
Fixpoint rsplit_once (c : ascii) (s : string) : option (string * string) :=
  match s with
  | "" => None
  | String a s =>
      match rsplit_once c s with
      | Some (l, r) => Some (String a l, r)
      | None => if ascii_eqb a c then Some ("", s) else None
      end
  end.

(** [str::trim_start_matches(c)]. *)
Fixpoint trim_start_matches (c : ascii) (s : string) : string :=
  match s with
  | "" => ""
  | String a s' => if ascii_eqb a c then trim_start_matches c s' else s
  end.

(** ** UTF-8 *)

Definition is_cont (c : ascii) : bool := in_range 128 191 c.

Definition utf8_2 (b0 b1 : ascii) : bool := in_range 194 223 b0 && is_cont b1.

Definition utf8_3 (b0 b1 b2 : ascii) : bool :=
  ((in_range 224 224 b0 && in_range 160 191 b1)
   || (in_range 225 236 b0 && is_cont b1)
   || (in_range 237 237 b0 && in_range 128 159 b1)
   || (in_range 238 239 b0 && is_cont b1)) && is_cont b2.

Definition utf8_4 (b0 b1 b2 b3 : ascii) : bool :=
  ((in_range 240 240 b0 && in_range 144 191 b1)
   || (in_range 241 243 b0 && is_cont b1)
   || (in_range 244 244 b0 && in_range 128 143 b1)) && is_cont b2 && is_cont b3.

Definition cont_bits (c : ascii) : Z := Z.land (bv c) 63.

(** The scalar values of a byte string with the bytes of each, or [None] when
    the bytes are not UTF-8 ([std::str::from_utf8] fails). *)
Fixpoint utf8_chunks (s : string) : option (list (Z * string)) :=
  match s with
  | "" => Some []
  | String b0 s1 =>
      if in_range 0 127 b0 then cons (bv b0, String b0 "") <$> utf8_chunks s1
      else match s1 with
      | "" => None
      | String b1 s2 =>
          if utf8_2 b0 b1 then
            cons (Z.land (bv b0) 31 * 64 + cont_bits b1,
                  String b0 (String b1 ""))%Z <$> utf8_chunks s2
          else match s2 with
          | "" => None
          | String b2 s3 =>
              if utf8_3 b0 b1 b2 then
                cons (Z.land (bv b0) 15 * 4096 + cont_bits b1 * 64 + cont_bits b2,
                      String b0 (String b1 (String b2 "")))%Z <$> utf8_chunks s3
              else match s3 with
              | "" => None
              | String b3 s4 =>
                  if utf8_4 b0 b1 b2 b3 then
                    cons (Z.land (bv b0) 7 * 262144 + cont_bits b1 * 4096
                          + cont_bits b2 * 64 + cont_bits b3,
                          String b0 (String b1 (String b2 (String b3 ""))))%Z
                      <$> utf8_chunks s4
                  else None
              end
          end
      end
  end.

Definition is_utf8 (s : string) : bool := bool_decide (is_Some (utf8_chunks s)).

(** [char::is_control]: the general category Cc. *)
Definition char_is_control (n : Z) : bool :=
  ((0 <=? n) && (n <=? 31) || (127 <=? n) && (n <=? 159))%Z.

(** [char::is_whitespace]: the Unicode property White_Space. *)
Definition char_is_whitespace (n : Z) : bool :=
  ((9 <=? n) && (n <=? 13) || (n =? 32) || (n =? 133) || (n =? 160)
   || (n =? 5760) || (8192 <=? n) && (n <=? 8202) || (n =? 8232) || (n =? 8233)
   || (n =? 8239) || (n =? 8287) || (n =? 12288))%Z.

(** [s.chars()]; a Rust [str] is UTF-8 by its type. *)
Definition chars (s : string) : list Z := fst <$> default [] (utf8_chunks s).

Fixpoint drop_space (l : list (Z * string)) : list (Z * string) :=
  match l with
  | [] => []
  | (n, b) :: l' => if char_is_whitespace n then drop_space l' else l
  end.

Definition concat_chunks (l : list (Z * string)) : string :=
  foldr (fun p acc => snd p +:+ acc) "" l.

(** [str::trim]. *)
Definition trim (s : string) : string :=
  match utf8_chunks s with
  | Some l => concat_chunks (reverse (drop_space (reverse (drop_space l))))
  | None => s
  end.

(** ** Decimal integers *)

(** [to_string] of an [i64] or [usize]. *)
Definition to_string (n : Z) : string := pretty n.

Fixpoint digits_value (acc : N) (s : string) : option N :=
  match s with
  | "" => Some acc
  | String c s =>
      if is_ascii_digit c then digits_value (acc * 10 + (N_of_ascii c - 48)) s
      else None
  end%N.

(** Digits with at least one of them. *)
Definition parse_digits (s : string) : option N :=
  match s with "" => None | _ => digits_value 0 s end.

(** [str::parse::<i64>()] and [str::parse::<usize>()]. *)
Definition parse_signed (s : string) : option Z :=
  match s with
  | "" => None
  | String c r =>
      if ascii_eqb c "-" then Z.opp <$> (Z.of_N <$> parse_digits r)
      else if ascii_eqb c "+" then Z.of_N <$> parse_digits r
      else Z.of_N <$> parse_digits s
  end.

Definition parse_i64 (s : string) : option Z :=
  n ← parse_signed s;
  if ((i64_min <=? n) && (n <=? i64_max))%Z then Some n else None.

Definition parse_usize (s : string) : option Z :=
  n ← (match s with
       | "" => None
       | String c r =>
           if ascii_eqb c "+" then Z.of_N <$> parse_digits r
           else Z.of_N <$> parse_digits s
       end);
  if (n <=? usize_max)%Z then Some n else None.

(** ** Lemmas *)

Lemma ascii_eqb_spec a b : ascii_eqb a b = true <-> a = b.
Proof. apply Ascii.eqb_eq. Qed.

Lemma ascii_eqb_refl a : ascii_eqb a a = true.
Proof. by apply ascii_eqb_spec. Qed.

Lemma sall_app f s t : sall f (s +:+ t) = sall f s && sall f t.
Proof.
  induction s as [|c s IH]; [done|]. rewrite sapp_cons. cbn. rewrite IH.
  by rewrite andb_assoc.
Qed.

Lemma sall_impl (f g : ascii -> bool) s :
  (forall c, f c = true -> g c = true) -> sall f s = true -> sall g s = true.
Proof.
  intros Hfg. induction s as [|c s IH]; cbn; [done|].
  rewrite !andb_true_iff. intros [H1 H2]. auto.
Qed.

Lemma sany_false f s : sany f s = false <-> sall (fun c => negb (f c)) s = true.
Proof. unfold sany. by rewrite negb_false_iff. Qed.

Lemma strip_prefix_Some p s t : strip_prefix p s = Some t <-> s = p +:+ t.
Proof.
  revert s. induction p as [|a p IH]; intros s.
  - destruct s; cbn; rewrite sapp_nil_l; split; congruence.
  - rewrite sapp_cons. destruct s as [|b s]; cbn; [done|].
    destruct (ascii_eqb a b) eqn:E.
    + apply ascii_eqb_spec in E as ->. rewrite IH. split; congruence.
    + split; [done|]. intros [= -> ->]. by rewrite ascii_eqb_refl in E.
Qed.

Lemma strip_prefix_app p t : strip_prefix p (p +:+ t) = Some t.
Proof. by apply strip_prefix_Some. Qed.

Lemma starts_with_spec p s : starts_with p s = true <-> exists t, s = p +:+ t.
Proof.
  unfold starts_with. rewrite bool_decide_eq_true. split.
  - intros [t Ht]. exists t. by apply strip_prefix_Some.
  - intros [t ->]. exists t. apply strip_prefix_app.
Qed.

(** Two strings with a separator neither left part contains split alike. *)
Lemma separator_inj c a a' r r' :
  sall (fun d => negb (ascii_eqb d c)) a = true ->
  sall (fun d => negb (ascii_eqb d c)) a' = true ->
  a +:+ String c r = a' +:+ String c r' -> a = a' /\ r = r'.
Proof.
  revert a'. induction a as [|x a IH]; intros [|y a']; cbn;
    rewrite ?sapp_cons, ?sapp_nil_l, ?andb_true_iff.
  - intros _ _ [= ->]. done.
  - intros _ [Hy _] [= <- _]. by rewrite ascii_eqb_refl in Hy.
  - intros [Hx _] _ [= -> _]. by rewrite ascii_eqb_refl in Hx.
  - intros [_ H1] [_ H2] [= -> H]. by destruct (IH _ H1 H2 H) as [-> ->].
Qed.

Lemma split_ne_nil c s : split c s <> [].
Proof.
  induction s as [|a s IH]; cbn; [done|].
  destruct (ascii_eqb a c); [done|]. by destruct (split c s).
Qed.

Lemma split_no_sep c s :
  sall (fun d => negb (ascii_eqb d c)) s = true -> split c s = [s].
Proof.
  induction s as [|a s IH]; cbn; [done|]. rewrite andb_true_iff, negb_true_iff.
  intros [-> H]. by rewrite (IH H).
Qed.

(** *** Decimal round trip *)

Lemma pretty_N_char_digit x :
  (x < 10)%N -> is_ascii_digit (pretty_N_char x) = true
                /\ (N_of_ascii (pretty_N_char x) - 48)%N = x.
Proof.
  intros H.
  assert (x = 0 \/ x = 1 \/ x = 2 \/ x = 3 \/ x = 4 \/ x = 5 \/ x = 6 \/ x = 7
          \/ x = 8 \/ x = 9)%N as Hx by lia.
  repeat destruct Hx as [->|Hx]; try (split; reflexivity).
  rewrite Hx. split; reflexivity.
Qed.

Lemma digits_value_go x s : digits_value 0 (pretty_N_go x s) = digits_value x s.
Proof.
  revert s. induction (N.lt_wf_0 x) as [x _ IH]; intros s.
  destruct (decide (x = 0)%N) as [->|Hx]; [by rewrite pretty_N_go_0|].
  rewrite pretty_N_go_step by lia.
  rewrite IH by (apply N.div_lt; lia).
  assert (x `mod` 10 < 10)%N as Hm by (apply N.mod_lt; lia).
  destruct (pretty_N_char_digit _ Hm) as [Hd Hv].
  cbn [digits_value]. rewrite Hd, Hv. f_equal.
  pose proof (N.div_mod x 10). lia.
Qed.

Lemma sall_digit_go x s :
  sall is_ascii_digit s = true -> sall is_ascii_digit (pretty_N_go x s) = true.
Proof.
  revert s. induction (N.lt_wf_0 x) as [x _ IH]; intros s Hs.
  destruct (decide (x = 0)%N) as [->|Hx]; [by rewrite pretty_N_go_0|].
  rewrite pretty_N_go_step by lia.
  apply IH; [apply N.div_lt; lia|]. cbn.
  destruct (pretty_N_char_digit (x `mod` 10)) as [-> _]; [apply N.mod_lt; lia|done].
Qed.

Lemma pretty_N_digits (n : N) : sall is_ascii_digit (pretty n) = true.
Proof.
  unfold pretty, pretty_N. case_decide; [done|]. by apply sall_digit_go.
Qed.

Lemma pretty_N_go_nonempty x s : s <> "" -> pretty_N_go x s <> "".
Proof.
  revert s. induction (N.lt_wf_0 x) as [x _ IH]; intros s Hs.
  destruct (decide (x = 0)%N) as [->|Hx]; [by rewrite pretty_N_go_0|].
  rewrite pretty_N_go_step by lia. apply IH; [apply N.div_lt; lia|done].
Qed.

Lemma pretty_N_nonempty (n : N) : (pretty n : string) <> "".
Proof.
  unfold pretty, pretty_N. case_decide; [done|].
  rewrite pretty_N_go_step by lia. by apply pretty_N_go_nonempty.
Qed.

Lemma parse_digits_pretty (n : N) : parse_digits (pretty n) = Some n.
Proof.
  unfold parse_digits. pose proof (pretty_N_nonempty n) as Hne.
  destruct (pretty n) eqn:E; [done|]. rewrite <- E.
  unfold pretty, pretty_N. case_decide; [by subst|].
  by rewrite digits_value_go.
Qed.

Lemma digit_not_sign c s :
  sall is_ascii_digit (String c s) = true ->
  ascii_eqb c "-" = false /\ ascii_eqb c "+" = false.
Proof.
  cbn. rewrite andb_true_iff. intros [Hc _].
  split; apply not_true_iff_false; rewrite ascii_eqb_spec; intros ->; done.
Qed.

Lemma parse_signed_pretty (n : N) : parse_signed (pretty n) = Some (Z.of_N n).
Proof.
  pose proof (parse_digits_pretty n) as Hp. pose proof (pretty_N_digits n) as Hd.
  destruct (pretty n : string) as [|c s] eqn:E; [done|].
  destruct (digit_not_sign _ _ Hd) as [H1 H2].
  unfold parse_signed. by rewrite H1, H2, Hp.
Qed.

Lemma parse_signed_to_string z : parse_signed (to_string z) = Some z.
Proof.
  destruct z as [|p|p]; [done|apply (parse_signed_pretty (N.pos p))|].
  change (to_string (Z.neg p)) with (String "-" (pretty (N.pos p))).
  unfold parse_signed. by rewrite ascii_eqb_refl, parse_digits_pretty.
Qed.

Lemma parse_i64_to_string z :
  (i64_min <= z <= i64_max)%Z -> parse_i64 (to_string z) = Some z.
Proof.
  intros [Hlo Hhi]. unfold parse_i64. rewrite parse_signed_to_string.
  cbn [mbind option_bind].
  by rewrite (proj2 (Z.leb_le _ _) Hlo), (proj2 (Z.leb_le _ _) Hhi).
Qed.

Lemma to_string_inj z1 z2 : to_string z1 = to_string z2 -> z1 = z2.
Proof. apply (inj pretty). Qed.

(** The decimal form of a length has no NUL byte. *)
Lemma to_string_digits z : (0 <= z)%Z -> sall is_ascii_digit (to_string z) = true.
Proof.
  intros Hz. unfold to_string, pretty, pretty_Z. destruct z as [|p|p]; [done| |lia].
  apply (pretty_N_digits (N.pos p)).
Qed.

#[export] Hint Resolve strip_prefix_app pretty_N_digits to_string_digits : auditedb.
