(* ===== verification/Path.v ===== *)
(** * World paths: validation, canonical namespaces, on-disk names

    Models [core/src/path.rs], the path types of [core/src/engine_types.rs],
    the disk encoder of [core/src/world.rs], the disk-name decoder of
    [core/src/world/files.rs] and the adapter canonicaliser of
    [bin/src/server/path.rs].  The crate [percent_encoding] is a parameter: the
    class [PercentEncoding] with the documented behaviour as [PercentLaws]. *)

From S2P Require Import Prelude.
From S2P Require Import RustStr.
From Stdlib Require Import Ascii.

Definition quote_char : ascii := "034"%char.
Definition slash : ascii := "/"%char.
Definition backslash : ascii := "\"%char.

(** ** [path.rs] *)

Definition NAMESPACE_PREFIXES : list string :=
  ["home"; "tmp"; "dev"; "sys"; "etc"; "lib"; "boot"; "usr"; "var"].

Definition MAX_DISK_WORLD_NAME_BYTES : Z := 200.

Definition disk_special : list ascii :=
  ["%"; "."; "/"; "\"; ":"; "*"; "?"; "034"; "<"; ">"; "|"; " "]%char.

Definition should_disk_encode (byte : ascii) : bool :=
  (bv byte <=? 31)%Z || (127 <=? bv byte)%Z || bool_decide (byte ∈ disk_special).

Fixpoint disk_world_name_len (world_name : string) : Z :=
  match world_name with
  | "" => 0
  | String byte rest =>
      (if should_disk_encode byte then 3 else 1) + disk_world_name_len rest
  end.

(** Strip a leading [.] or case-insensitive [%2e]. *)
Definition strip_dot_token (segment : string) : option string :=
  match strip_prefix "." segment with
  | Some rest => Some rest
  | None =>
      match segment with
      | String a (String b (String c rest)) =>
          if eq_ignore_ascii_case (String a (String b (String c ""))) "%2e"
          then Some rest else None
      | _ => None
      end
  end.

Definition is_dot_segment (segment : string) : bool :=
  match strip_dot_token segment with
  | None => false
  | Some rest =>
      bool_decide (rest = "")
      || match strip_dot_token rest with
         | Some tail => bool_decide (tail = "")
         | None => false
         end
  end.

Definition is_reserved_world_name (world_name : string) : bool :=
  bool_decide (world_name ∈ NAMESPACE_PREFIXES)
  || bool_decide (world_name = "proc") || bool_decide (world_name = "var/log")
  || starts_with "proc/" world_name.

Fixpoint validate_segments (segments : list string) : result string unit :=
  match segments with
  | [] => Ok tt
  | segment :: rest =>
      if bool_decide (segment = "") then Err "world path has empty segment"
      else if is_dot_segment segment
      then Err "world path contains dot or encoded-dot segment"
      else validate_segments rest
  end.

Definition validate_world_name (world_name : string) : result string unit :=
  if bool_decide (world_name = "") then Err "world path is empty"
  else if (MAX_DISK_WORLD_NAME_BYTES <? disk_world_name_len world_name)%Z
  then Err "world path is too long"
  else if is_reserved_world_name world_name
  then Err "world path is a reserved namespace root"
  else if contains_char backslash world_name
  then Err "world path contains backslash"
  else if existsb char_is_control (chars world_name)
  then Err "world path contains control bytes"
  else validate_segments (split slash world_name).

(** ** [engine_types.rs]: [ValidatedWorldPath], [ValidatedWorldPrefix] *)

Definition has_canonical_namespace (world : string) : bool :=
  bool_decide (split_first slash world ∈ NAMESPACE_PREFIXES).

(** The only constructor of [ValidatedWorldPath]; the newtype is its string. *)
Definition from_canonical (world : string) : result string string :=
  _ ← validate_world_name world;
  if has_canonical_namespace world then Ok world
  else Err "world path missing canonical namespace prefix".

Definition valid_world (world : string) : Prop := from_canonical world = Ok world.

#[global] Instance valid_world_dec world : Decision (valid_world world).
Proof. unfold valid_world. apply _. Defined.

Definition is_prefix_dot_like (segment : string) : bool :=
  starts_with "." segment
  || match segment with
     | String a (String b (String c _)) =>
         eq_ignore_ascii_case (String a (String b (String c ""))) "%2e"
     | _ => false
     end.

Inductive InvalidWorldPath := invalid_world_path.

(** The segment loop of [validate_world_prefix]; an empty last segment is the
    trailing slash of the prefix. *)
Fixpoint validate_prefix_segments (prefix : string) (segments : list string)
  : result InvalidWorldPath unit :=
  match segments with
  | [] => Ok tt
  | segment :: rest =>
      if bool_decide (segment = "") then
        if bool_decide (rest = []) && ends_with_char slash prefix
        then validate_prefix_segments prefix rest
        else Err invalid_world_path
      else if is_prefix_dot_like segment then Err invalid_world_path
      else validate_prefix_segments prefix rest
  end.

Definition validate_world_prefix (prefix : string) : result InvalidWorldPath unit :=
  if bool_decide (prefix = "") then Ok tt
  else if contains_char backslash prefix || existsb char_is_control (chars prefix)
  then Err invalid_world_path
  else if negb (bool_decide (split_first slash prefix ∈ NAMESPACE_PREFIXES))
  then Err invalid_world_path
  else validate_prefix_segments prefix (split slash prefix).

Definition ValidatedWorldPrefix_new (prefix : string)
  : result InvalidWorldPath string :=
  _ ← validate_world_prefix prefix;
  let candidate :=
    if bool_decide (prefix = "") then "home/_"
    else if bool_decide (prefix ∈ NAMESPACE_PREFIXES) then prefix +:+ "/_"
    else prefix +:+ "_" in
  _ ← map_err (fun _ => invalid_world_path) (from_canonical candidate);
  Ok prefix.

(** ** [bin/src/server/path.rs] *)

Definition canonicalize_path (p : string) : string :=
  let stripped := trim_start_matches slash p in
  let first := split_first slash stripped in
  if bool_decide (first ∈ NAMESPACE_PREFIXES) || bool_decide (first = "proc")
  then stripped else "home/" +:+ stripped.

(** ** The [percent_encoding] crate *)

Definition hex_upper_digit (n : Z) : ascii :=
  ascii_of_N (Z.to_N (if (n <? 10)%Z then n + 48 else n + 55)).

(** [%XX] with upper-case digits. *)
Definition percent_byte (c : ascii) : string :=
  String "%" (String (hex_upper_digit (Z.shiftr (bv c) 4))
             (String (hex_upper_digit (Z.land (bv c) 15)) "")).

Definition hex_digit_value (c : ascii) : option Z :=
  if is_ascii_digit c then Some (bv c - 48)%Z
  else if in_range 97 102 c then Some (bv c - 87)%Z
  else if in_range 65 70 c then Some (bv c - 55)%Z
  else None.

(** Two hexadecimal digits and what follows them. *)
Definition percent_escape (s : string) : option (ascii * string) :=
  match s with
  | String a (String b r) =>
      hi ← hex_digit_value a;
      lo ← hex_digit_value b;
      Some (ascii_of_N (Z.to_N (hi * 16 + lo)), r)
  | _ => None
  end.

Class PercentEncoding := {
  utf8_percent_encode : (ascii -> bool) -> string -> string;
  percent_decode_str : string -> string;
}.

(** Documented: the encoder replaces every byte of the set, and every non-ASCII
    byte, by [%XX]; the decoder replaces every [%] followed by two hexadecimal
    digits by the byte and copies everything else. *)
Class PercentLaws `{PercentEncoding} := {
  percent_encode_nil set : utf8_percent_encode set "" = "";
  percent_encode_cons set c s :
    utf8_percent_encode set (String c s) =
    (if set c || (128 <=? bv c)%Z then percent_byte c else String c "")
      +:+ utf8_percent_encode set s;
  percent_decode_nil : percent_decode_str "" = "";
  percent_decode_plain c s :
    c <> "%"%char -> percent_decode_str (String c s) = String c (percent_decode_str s);
  percent_decode_percent s :
    percent_decode_str (String "%" s) =
    match percent_escape s with
    | Some (c, r) => String c (percent_decode_str r)
    | None => String "%" (percent_decode_str s)
    end;
}.

(** ** [world.rs] and [world/files.rs]: on-disk directory names *)

(** The set [CONTROLS] with the added characters. *)
Definition DISK_ENCODE (c : ascii) : bool :=
  (bv c <=? 31)%Z || (bv c =? 127)%Z || bool_decide (c ∈ disk_special).

Inductive disk_name_error :=
| DiskNameUtf8
| DiskNameInvalid
| DiskNameNonCanonical (world : string).

Section DiskNames.
Context `{PercentEncoding}.

Definition disk_name (world : string) : string :=
  utf8_percent_encode DISK_ENCODE world.

Definition decode_disk_world_name (name : string) : result disk_name_error string :=
  let decoded := percent_decode_str name in
  _ ← ensure (is_utf8 decoded) DiskNameUtf8;
  world ← map_err (fun _ => DiskNameInvalid) (from_canonical decoded);
  let canonical := disk_name world in
  if bool_decide (canonical = name) then Ok world
  else Err (DiskNameNonCanonical world).
End DiskNames.

(** ** Lemmas: validation *)

Lemma from_canonical_Ok w v :
  from_canonical w = Ok v <->
  v = w /\ validate_world_name w = Ok tt /\ has_canonical_namespace w = true.
Proof.
  unfold from_canonical. rewrite result_bind_Ok. split.
  - intros ([] & Hv & H). destruct (has_canonical_namespace w); naive_solver.
  - intros (-> & Hv & Hns). exists tt. by rewrite Hns.
Qed.

Lemma valid_world_iff w :
  valid_world w <-> validate_world_name w = Ok tt /\ has_canonical_namespace w = true.
Proof. unfold valid_world. rewrite from_canonical_Ok. naive_solver. Qed.

Lemma from_canonical_valid w v : from_canonical w = Ok v -> v = w /\ valid_world w.
Proof. rewrite from_canonical_Ok, valid_world_iff. naive_solver. Qed.

Lemma validate_world_name_Ok w :
  validate_world_name w = Ok tt ->
  w <> "" /\ (disk_world_name_len w <= MAX_DISK_WORLD_NAME_BYTES)%Z
  /\ is_reserved_world_name w = false /\ contains_char backslash w = false
  /\ existsb char_is_control (chars w) = false
  /\ validate_segments (split slash w) = Ok tt.
Proof.
  unfold validate_world_name. case_bool_decide; [done|].
  destruct (Z.ltb_spec MAX_DISK_WORLD_NAME_BYTES (disk_world_name_len w)); [done|].
  destruct (is_reserved_world_name w); [done|].
  destruct (contains_char backslash w); [done|].
  destruct (existsb _ _); [done|]. done.
Qed.

Lemma validate_segments_Ok l :
  validate_segments l = Ok tt <->
  Forall (fun s => s <> "" /\ is_dot_segment s = false) l.
Proof.
  induction l as [|s l IH]; cbn; [split; [constructor|done]|].
  rewrite Forall_cons, <- IH. case_bool_decide; [naive_solver|].
  destruct (is_dot_segment s); naive_solver.
Qed.

(** *** Disk names *)

Lemma should_disk_encode_spec c :
  should_disk_encode c = DISK_ENCODE c || (128 <=? bv c)%Z.
Proof. destruct c as [[] [] [] [] [] [] [] []]; reflexivity. Qed.

Lemma percent_byte_escape c s :
  percent_escape (String (hex_upper_digit (Z.shiftr (bv c) 4))
    (String (hex_upper_digit (Z.land (bv c) 15)) s)) = Some (c, s).
Proof. by destruct c as [[] [] [] [] [] [] [] []]. Qed.

Section DiskLemmas.
Context `{PercentLaws}.

Lemma percent_byte_decode c s :
  percent_decode_str (percent_byte c +:+ s) = String c (percent_decode_str s).
Proof.
  unfold percent_byte. rewrite !sapp_cons, sapp_nil_l.
  by rewrite percent_decode_percent, percent_byte_escape.
Qed.

Lemma disk_name_nil : disk_name "" = "".
Proof. apply percent_encode_nil. Qed.

Lemma disk_name_cons c s :
  disk_name (String c s) =
  (if should_disk_encode c then percent_byte c else String c "") +:+ disk_name s.
Proof.
  unfold disk_name. rewrite percent_encode_cons.
  by rewrite should_disk_encode_spec.
Qed.

Lemma decode_disk_name s : percent_decode_str (disk_name s) = s.
Proof.
  induction s as [|c s IH]; [rewrite disk_name_nil; apply percent_decode_nil|].
  rewrite disk_name_cons. destruct (should_disk_encode c) eqn:E.
  - rewrite percent_byte_decode. by rewrite IH.
  - rewrite sapp_cons, sapp_nil_l, percent_decode_plain; [by rewrite IH|].
    intros ->. done.
Qed.

Lemma disk_name_len s : slen (disk_name s) = disk_world_name_len s.
Proof.
  induction s as [|c s IH]; [by rewrite disk_name_nil|].
  rewrite disk_name_cons, slen_app, IH. cbn [disk_world_name_len].
  by destruct (should_disk_encode c).
Qed.

(** Characters that can occur in a disk name. *)
Definition disk_safe (c : ascii) : bool :=
  ascii_eqb c "%" || negb (should_disk_encode c).

Lemma disk_name_safe s : sall disk_safe (disk_name s) = true.
Proof.
  induction s as [|c s IH]; [by rewrite disk_name_nil|].
  rewrite disk_name_cons, sall_app, IH, andb_true_r.
  destruct (should_disk_encode c) eqn:E.
  - clear E. by destruct c as [[] [] [] [] [] [] [] []].
  - cbn. unfold disk_safe. by rewrite E, orb_true_r.
Qed.
End DiskLemmas.

(** *** Dot segments *)

Lemma dot_escape a b :
  percent_escape (String a (String b "")) = Some ("."%char, "") <->
  eq_ignore_ascii_case (String "%" (String a (String b ""))) "%2e" = true.
Proof.
  unfold eq_ignore_ascii_case. rewrite bool_decide_eq_true.
  split; intros H.
  - destruct a as [[] [] [] [] [] [] [] []]; try discriminate H;
      destruct b as [[] [] [] [] [] [] [] []]; first [discriminate H|reflexivity].
  - injection H as Ha Hb.
    destruct a as [[] [] [] [] [] [] [] []]; try discriminate Ha;
      destruct b as [[] [] [] [] [] [] [] []]; first [discriminate Hb|reflexivity].
Qed.

Lemma percent_escape_tail a b s :
  percent_escape (String a (String b s)) =
  '(c, t) ← percent_escape (String a (String b "")); Some (c, t +:+ s).
Proof. cbn. by destruct (hex_digit_value a), (hex_digit_value b). Qed.

Section DotLemmas.
Context `{PercentLaws}.

Lemma percent_decode_empty s : percent_decode_str s = "" -> s = "".
Proof.
  destruct s as [|c s]; [done|]. destruct (decide (c = "%"%char)) as [->|Hc].
  - rewrite percent_decode_percent. by destruct (percent_escape s) as [[]|].
  - by rewrite percent_decode_plain.
Qed.

(** A dot token is exactly an initial piece that decodes to a dot. *)
Lemma strip_dot_token_decode s t :
  percent_decode_str s = String "." t <->
  exists r, strip_dot_token s = Some r /\ percent_decode_str r = t.
Proof.
  destruct s as [|c s]; [rewrite percent_decode_nil; cbn; naive_solver|].
  destruct (decide (c = "%"%char)) as [->|Hc].
  - rewrite percent_decode_percent. unfold strip_dot_token.
    change (strip_prefix "." (String "%" s)) with (@None string). cbn iota.
    destruct s as [|a [|b s]]; [cbn; naive_solver..|].
    pose proof (dot_escape a b) as Hd. rewrite percent_escape_tail.
    destruct (percent_escape (String a (String b ""))) as [[d u]|] eqn:E; cbn [mbind option_bind].
    + assert (u = "") as ->.
      { cbn in E. destruct (hex_digit_value a), (hex_digit_value b); cbn in E; congruence. }
      rewrite sapp_nil_l.
      destruct (eq_ignore_ascii_case _ _); [naive_solver|].
      split; [|naive_solver]. intros [= -> _]. destruct Hd as [Hd _]. by discriminate Hd.
    + destruct (eq_ignore_ascii_case _ _); naive_solver.
  - rewrite percent_decode_plain by done. unfold strip_dot_token. cbn [strip_prefix].
    destruct (ascii_eqb "." c) eqn:E.
    + apply ascii_eqb_spec in E as <-. cbn. destruct s; naive_solver.
    + assert (c <> "."%char) by (intros ->; done).
      split; [congruence|]. intros (r & Hr & _).
      destruct s as [|a [|b s]]; try done.
      destruct (eq_ignore_ascii_case _ _) eqn:E2; [|done].
      unfold eq_ignore_ascii_case in E2. rewrite bool_decide_eq_true in E2.
      injection E2 as E2 _ _. exfalso.
      destruct c as [[] [] [] [] [] [] [] []]; done.
Qed.

Lemma is_dot_segment_decode s :
  is_dot_segment s = true <->
  percent_decode_str s = "." \/ percent_decode_str s = "..".
Proof.
  unfold is_dot_segment. rewrite !strip_dot_token_decode. split.
  - destruct (strip_dot_token s) as [r|]; [|done]. rewrite orb_true_iff, bool_decide_eq_true.
    intros [->|Hr]; [left; eauto using percent_decode_nil|right].
    exists r. split; [done|]. rewrite strip_dot_token_decode.
    destruct (strip_dot_token r) as [t|]; [|done]. rewrite bool_decide_eq_true in Hr.
    subst t. eauto using percent_decode_nil.
  - intros [(r & -> & ->%percent_decode_empty)|(r & -> & Hr)]; [done|].
    apply strip_dot_token_decode in Hr as (t & -> & ->%percent_decode_empty).
    by rewrite orb_true_r.
Qed.
End DotLemmas.

(** ** A concrete percent codec, for the witnesses *)

Fixpoint percent_encode_impl (set : ascii -> bool) (s : string) : string :=
  match s with
  | "" => ""
  | String c s =>
      (if set c || (128 <=? bv c)%Z then percent_byte c else String c "")
        +:+ percent_encode_impl set s
  end.

Fixpoint percent_decode_fuel (fuel : nat) (s : string) : string :=
  match fuel, s with
  | S fuel, String c r =>
      if ascii_eqb c "%" then
        match percent_escape r with
        | Some (d, t) => String d (percent_decode_fuel fuel t)
        | None => String c (percent_decode_fuel fuel r)
        end
      else String c (percent_decode_fuel fuel r)
  | _, _ => ""
  end.

Lemma percent_escape_shorter s c r :
  percent_escape s = Some (c, r) -> (String.length r <= String.length s)%nat.
Proof.
  destruct s as [|a [|b s]]; try done. cbn.
  destruct (hex_digit_value a), (hex_digit_value b); cbn; try done.
  intros [= _ ->]. lia.
Qed.

Lemma percent_decode_fuel_enough n m s :
  (String.length s <= n)%nat -> (n <= m)%nat ->
  percent_decode_fuel m s = percent_decode_fuel n s.
Proof.
  revert m s. induction n as [|n IH]; intros m s Hs Hm.
  - destruct s; [by destruct m|]. cbn in Hs. lia.
  - destruct m as [|m]; [lia|]. destruct s as [|c s]; [done|]. cbn in Hs |- *.
    destruct (percent_escape s) as [[d t]|] eqn:E;
      [pose proof (percent_escape_shorter _ _ _ E)|]; rewrite !(IH m) by lia; done.
Qed.

#[global] Instance percent_impl : PercentEncoding := {|
  utf8_percent_encode := percent_encode_impl;
  percent_decode_str s := percent_decode_fuel (String.length s) s;
|}.

#[global] Instance percent_impl_laws : PercentLaws.
Proof.
  split; try done; cbn.
  - intros c s Hc. destruct (ascii_eqb c "%") eqn:E; [|done].
    by apply ascii_eqb_spec in E.
  - intros s. destruct (percent_escape s) as [[d t]|] eqn:E; [|done].
    pose proof (percent_escape_shorter _ _ _ E).
    by rewrite (percent_decode_fuel_enough (String.length t)) by lia.
Qed.

(** ** Theorems *)

Section PathTheorems.
Context `{PercentLaws}.

(** The startup scan maps a directory name to a world exactly when the
    name is the canonical disk name of that valid UTF-8 world: decoding after
    encoding gives every storable world back, every decoded world is valid,
    and a directory that is not some world's canonical name is rejected. *)
Theorem decode_disk_world_name_iff name w :
  decode_disk_world_name name = Ok w <->
  valid_world w /\ is_utf8 w = true /\ disk_name w = name.
Proof.
  unfold decode_disk_world_name. split.
  - intros Hd. inv_ok. case_bool_decide; [|done]. simplify_eq.
    match goal with H : from_canonical _ = Ok _ |- _ =>
      apply from_canonical_valid in H as [_ Hv] end.
    by rewrite decode_disk_name in *.
  - intros (Hv & Hu & <-). rewrite decode_disk_name, Hu. cbn.
    rewrite Hv. cbn. by rewrite bool_decide_true.
Qed.

(** The disk name of a valid world is one file-name component below the
    file-system limit: between 1 and 200 bytes long, exactly as long as
    [disk_world_name_len] predicts, and without separators, dots, control,
    non-ASCII or shell-special bytes; distinct worlds have distinct names. *)
Theorem disk_name_confined w :
  valid_world w ->
  (1 <= slen (disk_name w) <= MAX_DISK_WORLD_NAME_BYTES)%Z
  /\ slen (disk_name w) = disk_world_name_len w
  /\ sall (fun c => ascii_eqb c "%" || negb (should_disk_encode c)) (disk_name w) = true
  /\ forall v, disk_name v = disk_name w -> v = w.
Proof.
  intros [Hv _]%valid_world_iff. apply validate_world_name_Ok in Hv as (Hne & Hlen & _).
  rewrite disk_name_len. repeat split; [|done|apply disk_name_safe|].
  - destruct w as [|c w]; [done|]. rewrite <- disk_name_len, disk_name_cons, slen_app.
    pose proof (slen_nonneg (disk_name w)).
    destruct (should_disk_encode c);
      [change (slen (percent_byte c)) with 3%Z|change (slen (String c "")) with 1%Z]; lia.
  - intros v Hvw. by rewrite <- (decode_disk_name v), Hvw, decode_disk_name.
Qed.

(** No segment of a valid world path is empty or percent-decodes to [.]
    or [..], whatever mixture of literal and encoded dots is used; the dot
    test is exact. *)
Theorem valid_world_no_traversal w :
  valid_world w ->
  Forall (fun seg => seg <> "" /\ percent_decode_str seg <> "."
                     /\ percent_decode_str seg <> "..") (split slash w).
Proof.
  intros [Hv _]%valid_world_iff.
  apply validate_world_name_Ok in Hv as (_ & _ & _ & _ & _ & Hs).
  apply validate_segments_Ok in Hs. eapply Forall_impl; [exact Hs|].
  intros seg [Hne Hd]. pose proof (is_dot_segment_decode seg) as Hi.
  rewrite Hd in Hi. naive_solver.
Qed.
End PathTheorems.

Lemma decode_disk_world_name_iff_witness :
  decode_disk_world_name "home%2Fa%20b" = Ok "home/a b"
  /\ decode_disk_world_name "home%2fa" <> Ok "home/a".
Proof.
  split; [apply (decode_disk_world_name_iff "home%2Fa%20b" "home/a b"); by vm_compute|].
  intros Hd. apply (decode_disk_world_name_iff "home%2fa" "home/a") in Hd as (_ & _ & Hd).
  by vm_compute in Hd.
Defined.

Lemma disk_name_confined_witness :
  valid_world "home/a b"
  /\ (1 <= slen (disk_name "home/a b") <= MAX_DISK_WORLD_NAME_BYTES)%Z.
Proof.
  split; [by vm_compute|].
  destruct (disk_name_confined "home/a b") as [Hl _]; [by vm_compute|exact Hl].
Defined.

Lemma valid_world_no_traversal_witness :
  valid_world "home/.a/b%2e"
  /\ Forall (fun seg => seg <> "" /\ percent_decode_str seg <> "."
                        /\ percent_decode_str seg <> "..") ["home"; ".a"; "b%2e"].
Proof.
  split; [by vm_compute|].
  apply (valid_world_no_traversal "home/.a/b%2e"). by vm_compute.
Defined.
