(* ===== verification/Auth.v ===== *)
(** * Credentials, access tiers and authorization gates

    Models [core/src/auth.rs] (token validity, constant-time comparison, token
    classification), the key and metadata constructors of
    [core/src/engine_types.rs] and the authorization gates [authorize_read]
    ([world_read_ops.rs]), [authorize_write] ([world_ops.rs]) and
    [authorize_delete] ([delete_ops.rs]).  The wipe-on-drop of credentials is a
    memory effect and is not modelled. *)

From S2P Require Import Prelude.
From S2P Require Import RustStr.
From S2P Require Import Path.
From Stdlib Require Import Ascii.

(** ** [auth.rs] *)

Inductive Tier := Anon | Read | Write | Approve.

Inductive AuthGate := GateRead | GateWrite | GateWriteApprove | GateDelete.

#[global] Instance Tier_eq_dec : EqDecision Tier.
Proof. solve_decision. Defined.
#[global] Instance AuthGate_eq_dec : EqDecision AuthGate.
Proof. solve_decision. Defined.

Definition is_valid (bytes : string) : bool :=
  negb (bool_decide (bytes = ""))
  && (if is_utf8 bytes then negb (bool_decide (trim bytes = "")) else true).

(** [NonEmptyBytes] is its byte vector; [new] is the only constructor. *)
Definition NonEmptyBytes_new (bytes : string) : option string :=
  if is_valid bytes then Some bytes else None.

Record Tokens := {
  tok_read : option string;
  tok_write : option string;
  tok_approve : option string;
}.

Definition read_required (t : Tokens) : bool := bool_decide (is_Some (tok_read t)).

(** The accumulator loop of [ct_eq] over the zipped byte slices. *)
Fixpoint ct_diff (diff : Z) (a b : string) : Z :=
  match a, b with
  | String x a, String y b => ct_diff (Z.lor diff (Z.lxor (bv x) (bv y))) a b
  | _, _ => diff
  end.

Definition ct_eq (a b : string) : bool :=
  if negb (slen a =? slen b)%Z then false else (ct_diff 0 a b =? 0)%Z.

Definition token_matches (candidate : string) (t : option string) : bool :=
  match t with Some t => ct_eq candidate t | None => false end.

Definition check_token_bytes (t : Tokens) (candidate : string) : Tier :=
  if negb (is_valid candidate) then Anon
  else if token_matches candidate (tok_approve t) then Approve
  else if token_matches candidate (tok_write t) then Write
  else if token_matches candidate (tok_read t) then Read
  else Anon.

(** ** [engine_types.rs]: the audit key and representation metadata *)

Definition MIN_HMAC_KEY_BYTES : Z := 32.

Inductive InvalidHmacKey := KeyEmpty | KeyTooShort (min actual : Z).

Definition AuditHmacKey_new (bytes : string) : result InvalidHmacKey string :=
  secret ← ok_or KeyEmpty (NonEmptyBytes_new bytes);
  let actual := slen secret in
  if (actual <? MIN_HMAC_KEY_BYTES)%Z then Err (KeyTooShort MIN_HMAC_KEY_BYTES actual)
  else Ok secret.

Definition INVALID_METADATA_CONTROL_CHAR : string := "metadata-control-character".

Definition contains_metadata_control_char (value : string) : bool :=
  sany (fun c => bool_decide (c ∈ ["000"; "013"; "010"]%char)) value.

Fixpoint validate_metadata_headers (headers : list (string * string)) : result string unit :=
  match headers with
  | [] => Ok tt
  | (name, value) :: rest =>
      if contains_metadata_control_char name || contains_metadata_control_char value
      then Err INVALID_METADATA_CONTROL_CHAR
      else validate_metadata_headers rest
  end.

Definition validate_representation_metadata
    (content_type : string) (headers : list (string * string)) : result string unit :=
  if contains_metadata_control_char content_type then Err INVALID_METADATA_CONTROL_CHAR
  else validate_metadata_headers headers.

(** ** The gates *)

(** [lib.rs]: [can_delete] and [can_read]; the core enters only through its
    configured tokens. *)
Definition can_delete (tier : Tier) : bool :=
  match tier with Approve => true | _ => false end.

Definition can_read (tokens : Tokens) (tier : Tier) : bool :=
  negb (read_required tokens)
  || match tier with Read | Write | Approve => true | Anon => false end.

(** [ledger.rs]: the delete ledger's world. *)
Definition DELETE_LEDGER_WORLD : string := "var/log/deletes".
Definition is_delete_ledger_world (world : string) : bool :=
  bool_decide (world = DELETE_LEDGER_WORLD).

Definition exact_or_child (world prefix : string) : bool :=
  bool_decide (world = prefix)
  || match strip_prefix prefix world with
     | Some rest => starts_with "/" rest
     | None => false
     end.

Definition needs_write_approve (world : string) : bool :=
  exact_or_child world "lib" || exact_or_child world "etc"
  || exact_or_child world "boot" || exact_or_child world "usr"
  || exact_or_child world "var/log".

Definition can_write (world : string) (tier : Tier) : bool :=
  match tier with
  | Anon => false
  | Read => false
  | Write => negb (needs_write_approve world)
  | Approve => true
  end.

Definition is_append_only_world (world : string) : bool := is_delete_ledger_world world.

(** The gate denied, or the world is append-only: the two ways authorization
    fails. *)
Inductive AuthError := Denied (gate : AuthGate) | AppendOnly.

Record WritePermit := { wp_world : string; wp_gate : AuthGate }.

Definition write_gate (world : string) : AuthGate :=
  if needs_write_approve world then GateWriteApprove else GateWrite.

Definition authorize_write (world : string) (tier : Tier) : result AuthError WritePermit :=
  let gate := write_gate world in
  if can_write world tier then
    if is_append_only_world world then Err AppendOnly
    else Ok {| wp_world := world; wp_gate := gate |}
  else Err (Denied gate).

(** [ensure_write_permit]: the permit's gate is the one its world needs. *)
Definition ensure_write_permit (permit : WritePermit) : result string unit :=
  if bool_decide (wp_gate permit = write_gate (wp_world permit)) then Ok tt
  else Err "write permit gate mismatch".

(** A read permit and a delete permit carry their world. *)
Definition authorize_read (tokens : Tokens) (world : string) (tier : Tier)
  : result AuthError string :=
  if can_read tokens tier then Ok world else Err (Denied GateRead).

Definition authorize_delete (world : string) (tier : Tier) : result AuthError string :=
  if negb (can_delete tier) then Err (Denied GateDelete)
  else if is_delete_ledger_world world then Err AppendOnly
  else Ok world.

(** ** Lemmas *)

Lemma bv_nonneg c : (0 <= bv c)%Z.
Proof. unfold bv. lia. Qed.

Lemma bv_inj c d : bv c = bv d -> c = d.
Proof.
  unfold bv. intros H. apply N2Z.inj in H.
  by rewrite <- (ascii_N_embedding c), <- (ascii_N_embedding d), H.
Qed.

Lemma ct_diff_zero diff a b :
  String.length a = String.length b ->
  ct_diff diff a b = 0%Z <-> diff = 0%Z /\ a = b.
Proof.
  revert diff b. induction a as [|x a IH]; intros diff [|y b]; cbn; try done; [naive_solver|].
  intros [= Hl]. rewrite (IH _ _ Hl), Z.lor_eq_0_iff, Z.lxor_eq_0_iff.
  split; [intros [[-> ->%bv_inj] ->]; done|naive_solver].
Qed.

Lemma ct_eq_true a b : ct_eq a b = true <-> a = b.
Proof.
  unfold ct_eq. destruct (Z.eqb_spec (slen a) (slen b)) as [Hl|Hl]; cbn.
  - rewrite Z.eqb_eq, ct_diff_zero; [naive_solver|]. unfold slen in Hl. lia.
  - split; [done|]. by intros ->.
Qed.

Lemma token_matches_true c t : token_matches c t = true <-> t = Some c.
Proof.
  destruct t as [t|]; cbn; [|done]. rewrite ct_eq_true. naive_solver.
Qed.

Lemma token_matches_false c t : token_matches c t = false <-> t <> Some c.
Proof. rewrite <- token_matches_true. symmetry. apply not_true_iff_false. Qed.

(** [exact_or_child] against a prefix without slash looks at the first segment
    only. *)
Lemma split_prefix c p r :
  sall (fun d => negb (ascii_eqb d c)) p = true ->
  split c (p +:+ String c r) = p :: split c r.
Proof.
  induction p as [|a p IH]; cbn.
  - intros _. rewrite sapp_nil_l. cbn. by rewrite ascii_eqb_refl.
  - rewrite andb_true_iff, negb_true_iff. intros [Ha Hp].
    rewrite sapp_cons. cbn. by rewrite Ha, (IH Hp).
Qed.

Lemma split_head_inv c s p ps :
  split c s = p :: ps ->
  sall (fun d => negb (ascii_eqb d c)) p = true
  /\ (ps = [] /\ s = p \/ exists r, s = p +:+ String c r /\ ps = split c r).
Proof.
  revert p ps. induction s as [|a s IH]; cbn; intros p ps.
  - intros [= <- <-]. auto.
  - destruct (ascii_eqb a c) eqn:E.
    + apply ascii_eqb_spec in E as ->. intros [= <- <-]. split; [done|]. right. by exists s.
    + destruct (split c s) as [|q qs] eqn:Es; [by apply split_ne_nil in Es|].
      intros [= <- <-]. destruct (IH _ _ eq_refl) as [Hq Hs]. cbn. rewrite E. split; [done|].
      destruct Hs as [[-> ->]|(r & -> & ->)]; [by left|right]. exists r. by rewrite sapp_cons.
Qed.

Lemma exact_or_child_segment w p :
  sall (fun d => negb (ascii_eqb d slash)) p = true ->
  exact_or_child w p = true <-> head (split slash w) = Some p.
Proof.
  intros Hp. unfold exact_or_child. rewrite orb_true_iff, bool_decide_eq_true. split.
  - intros [->|Hc]; [by rewrite split_no_sep|].
    destruct (strip_prefix p w) as [r|] eqn:E; [|done].
    apply strip_prefix_Some in E as ->. apply starts_with_spec in Hc as [t ->].
    rewrite sapp_cons, sapp_nil_l. by rewrite split_prefix.
  - destruct (split slash w) as [|q qs] eqn:E; [done|]. intros [= ->].
    apply split_head_inv in E as [_ [[_ ->]|(r & -> & _)]]; [by left|right].
    rewrite strip_prefix_app. apply starts_with_spec. by exists r.
Qed.

Lemma exact_or_child_var_log w :
  exact_or_child w "var/log" = true <-> exists rest, split slash w = "var" :: "log" :: rest.
Proof.
  unfold exact_or_child. rewrite orb_true_iff, bool_decide_eq_true. split.
  - intros [->|Hc]; [by exists []|].
    destruct (strip_prefix _ w) as [r|] eqn:E; [|done].
    apply strip_prefix_Some in E as ->. apply starts_with_spec in Hc as [t ->].
    exists (split slash t). rewrite (sapp_cons "/"), sapp_nil_l.
    change ("var/log" +:+ String "/" t)
      with ("var" +:+ String slash ("log" +:+ String slash t)).
    rewrite split_prefix by done. by rewrite split_prefix.
  - intros [rest Hs]. apply split_head_inv in Hs as [_ [[? _]|(r & -> & Hs)]]; [done|].
    symmetry in Hs. apply split_head_inv in Hs as [_ [[_ ->]|(t & -> & _)]]; [by left|right].
    change ("var" +:+ String slash ("log" +:+ String slash t))
      with ("var/log" +:+ String slash t).
    rewrite strip_prefix_app. apply starts_with_spec. by exists t.
Qed.

Lemma needs_write_approve_segments w :
  needs_write_approve w = true <->
  (exists ns, head (split slash w) = Some ns /\ ns ∈ ["lib"; "etc"; "boot"; "usr"])
  \/ (exists rest, split slash w = "var" :: "log" :: rest).
Proof.
  unfold needs_write_approve.
  rewrite !orb_true_iff, !exact_or_child_segment, exact_or_child_var_log by done.
  set_solver.
Qed.

(** Tiers are linearly ordered: each includes the ones below it. *)
Definition tier_rank (t : Tier) : Z :=
  match t with Anon => 0 | Read => 1 | Write => 2 | Approve => 3 end.

(** ** Theorems *)

(** A token is classified by exact byte equality with a configured token,
    the widest tier first, and an empty or whitespace-only candidate is always
    anonymous even if such a token were configured. *)
Theorem check_token_bytes_spec t c :
  (check_token_bytes t c = Approve <-> is_valid c = true /\ tok_approve t = Some c)
  /\ (check_token_bytes t c = Write <->
       is_valid c = true /\ tok_write t = Some c /\ tok_approve t <> Some c)
  /\ (check_token_bytes t c = Read <->
       is_valid c = true /\ tok_read t = Some c /\ tok_write t <> Some c
       /\ tok_approve t <> Some c).
Proof.
  unfold check_token_bytes. destruct (is_valid c); cbn; [|naive_solver].
  destruct (token_matches c (tok_approve t)) eqn:Ea;
    [apply token_matches_true in Ea|apply token_matches_false in Ea]; [naive_solver|].
  destruct (token_matches c (tok_write t)) eqn:Ew;
    [apply token_matches_true in Ew|apply token_matches_false in Ew]; [naive_solver|].
  destruct (token_matches c (tok_read t)) eqn:Er;
    [apply token_matches_true in Er|apply token_matches_false in Er]; naive_solver.
Qed.

(** A write is authorized exactly for the write tier outside the protected
    namespaces ([lib], [etc], [boot], [usr] as first segment, or first segments
    [var], [log]) and for the approve tier everywhere but the delete ledger,
    and the permit names the gate the writer re-checks. *)
Theorem authorize_write_spec w tier p :
  authorize_write w tier = Ok p <->
  p = {| wp_world := w; wp_gate := write_gate w |}
  /\ w <> DELETE_LEDGER_WORLD
  /\ (tier = Approve \/
      tier = Write
      /\ (forall ns, head (split slash w) = Some ns -> ns ∉ ["lib"; "etc"; "boot"; "usr"])
      /\ (forall rest, split slash w <> "var" :: "log" :: rest)).
Proof.
  pose proof (needs_write_approve_segments w) as Hn.
  unfold authorize_write, can_write, is_append_only_world, is_delete_ledger_world.
  destruct tier;
    try (split; [by destruct (needs_write_approve w)|intros (_ & _ & [Ht|[Ht _]]); discriminate Ht]).
  - destruct (needs_write_approve w) eqn:E; cbn.
    + destruct Hn as [Hn _]. specialize (Hn eq_refl). naive_solver.
    + destruct Hn as [_ Hn]. case_bool_decide; naive_solver.
  - case_bool_decide; naive_solver.
Qed.

(** Authorization is monotone in the tier: whatever a tier may read, write
    or delete, every wider tier may too; and a permit of [authorize_write]
    passes the writer's own gate check. *)
Theorem authorization_monotone tokens w t t' :
  (tier_rank t <= tier_rank t')%Z ->
  (forall p, authorize_write w t = Ok p ->
     authorize_write w t' = Ok p /\ ensure_write_permit p = Ok tt)
  /\ (forall p, authorize_read tokens w t = Ok p -> authorize_read tokens w t' = Ok p)
  /\ (forall p, authorize_delete w t = Ok p -> authorize_delete w t' = Ok p).
Proof.
  unfold authorize_write, authorize_read, authorize_delete, can_write, can_read, can_delete.
  intros Ht. split_and!; intros p.
  - destruct (is_append_only_world w); [by destruct t; destruct (needs_write_approve w)|].
    unfold ensure_write_permit.
    destruct t, t'; cbn in Ht |- *; try lia; try done;
      destruct (needs_write_approve w); cbn; try done;
      intros [= <-]; cbn; by rewrite bool_decide_true.
  - destruct (read_required tokens), t, t'; cbn in *; try lia; done.
  - destruct t, t'; cbn in *; try lia; done.
Qed.

Lemma authorization_monotone_witness :
  authorize_write "home/a" Approve = Ok {| wp_world := "home/a"; wp_gate := GateWrite |}.
Proof.
  destruct (authorization_monotone (Build_Tokens None None None) "home/a" Write Approve)
    as (H & _ & _); [vm_compute; discriminate|].
  destruct (H {| wp_world := "home/a"; wp_gate := GateWrite |}) as [Hw _];
    [by vm_compute|exact Hw].
Defined.
