(* ===== verification/Crypto.v ===== *)
(** * Hashing: length-prefixed fields, event HMAC, metadata digest, ETags

    Models the encoders of [core/src/audit.rs] ([hmac_field], [sha256_field],
    [event_hmac], [meta_sha256_canonical], [canonical_headers], [hmac_label],
    the timestamp shape), [sha256_hex] of [core/src/world.rs] and the ETag
    constructors of [core/src/etag.rs].  The crates [sha2], [hmac] and [hex] are
    parameters: the class [Crypto]; [CryptoLaws] states the documented shape of
    their output (64 lower-case hexadecimal characters), nothing about
    collisions.  The hash state is the byte string fed to it, which is what
    [update] accumulates. *)

From S2P Require Import Prelude.
From S2P Require Import RustStr.
From S2P Require Import Auth.
From Stdlib Require Import Ascii.

Class Crypto := {
  (** [hex::encode(Sha256::digest(m))] *)
  Sha256_hex : string -> string;
  (** [hex::encode] of HMAC-SHA256 of a message under a key. *)
  Hmac_Sha256_hex : string -> string -> string;
}.

Definition is_lower_hex_char (byte : ascii) : bool :=
  is_ascii_digit byte || in_range 97 102 byte.

Definition is_lower_hex (value : string) : bool := sall is_lower_hex_char value.

Class CryptoLaws `{Crypto} := {
  Sha256_shape m : slen (Sha256_hex m) = 64%Z /\ is_lower_hex (Sha256_hex m) = true;
  Hmac_shape k m :
    slen (Hmac_Sha256_hex k m) = 64%Z /\ is_lower_hex (Hmac_Sha256_hex k m) = true;
}.

(** The NUL byte the fields are delimited with. *)
Definition nul : ascii := "000"%char.

(** [sha256_field] and [hmac_field] feed the same bytes to their state. *)
Definition field (label value : string) : string :=
  label +:+ String nul (to_string (slen value) +:+ String nul (value +:+ String nul "")).

Definition sha256_field (h label value : string) : string := h +:+ field label value.
Definition hmac_field (mac label value : string) : string := mac +:+ field label value.

(** ** Timestamps *)

Definition timestamp_char_ok (idx : Z) (byte : ascii) : bool :=
  match idx with
  | 4 | 7 => ascii_eqb byte "-"
  | 10 => ascii_eqb byte "T"
  | 13 | 16 => ascii_eqb byte ":"
  | 19 => ascii_eqb byte "."
  | 23 => ascii_eqb byte "Z"
  | _ => is_ascii_digit byte
  end%Z.

Fixpoint timestamp_shape (idx : Z) (s : string) : bool :=
  match s with
  | "" => true
  | String c s => timestamp_char_ok idx c && timestamp_shape (idx + 1) s
  end.

Definition is_canonical_sqlite_utc_timestamp (value : string) : bool :=
  (slen value =? 24)%Z && timestamp_shape 0 value.

(** ** The event HMAC *)

Record EventHmacInput := {
  hi_prev : string;
  hi_world : string;
  hi_timestamp : string;
  hi_event_type : string;
  hi_target : string;
  hi_generation : string;
  hi_body_sha256 : string;
  hi_size : Z;
  hi_content_type : string;
  hi_meta_sha256 : string;
}.

#[global] Instance EventHmacInput_eq_dec : EqDecision EventHmacInput.
Proof. solve_decision. Defined.

(** The labelled fields in the order [event_hmac] feeds them. *)
Definition event_hmac_fields (i : EventHmacInput) : list (string * string) :=
  [("prev", hi_prev i); ("world", hi_world i); ("timestamp", hi_timestamp i);
   ("type", hi_event_type i); ("target", hi_target i); ("gen", hi_generation i);
   ("body-sha256", hi_body_sha256 i); ("size", to_string (hi_size i));
   ("content-type", hi_content_type i); ("meta-sha256", hi_meta_sha256 i)].

Definition event_hmac_message (i : EventHmacInput) : string :=
  foldl (fun mac f => hmac_field mac (fst f) (snd f)) "" (event_hmac_fields i).

Definition event_hmac `{Crypto} (key : string) (i : EventHmacInput) : string :=
  Hmac_Sha256_hex key (event_hmac_message i).

Definition hmac_label (raw : string) : string :=
  if bool_decide (raw = "") then "hmac-"
  else if starts_with "hmac-" raw then raw
  else "hmac-" +:+ raw.

(** ** Header metadata *)

(** Rust's [Ord] on strings is the byte order; pairs compare lexicographically. *)
Fixpoint str_cmp (a b : string) : comparison :=
  match a, b with
  | "", "" => Eq
  | "", _ => Lt
  | _, "" => Gt
  | String x a, String y b =>
      match Z.compare (bv x) (bv y) with Eq => str_cmp a b | c => c end
  end.

Definition pair_cmp (a b : string * string) : comparison :=
  match str_cmp (fst a) (fst b) with Eq => str_cmp (snd a) (snd b) | c => c end.

Definition pair_le (a b : string * string) : Prop := pair_cmp a b <> Gt.

#[global] Instance pair_le_dec a b : Decision (pair_le a b).
Proof. unfold pair_le. apply _. Defined.

(** [sort()], and SQLite's [ORDER BY name, value] with the binary collation. *)
Definition sort_headers (l : list (string * string)) : list (string * string) :=
  merge_sort pair_le l.

Definition canonical_headers (headers : list (string * string)) : list (string * string) :=
  sort_headers ((fun p => (to_ascii_lowercase (fst p), snd p)) <$> headers).

Definition meta_fields (content_type : string) (headers : list (string * string))
  : list (string * string) :=
  ("content-type", content_type)
    :: (p ← headers; [("header-name", fst p); ("header-value", snd p)]).

Definition meta_message (content_type : string) (headers : list (string * string)) : string :=
  foldl (fun h f => sha256_field h (fst f) (snd f)) "" (meta_fields content_type headers).

Definition meta_sha256_canonical `{Crypto} (content_type : string)
    (headers : list (string * string)) : string :=
  Sha256_hex (meta_message content_type headers).

(** ** ETags *)

Definition sha256_hex `{Crypto} (body : string) : string := Sha256_hex body.
Definition hmac_etag (hmac : string) : string := "hmac-" +:+ hmac.
Definition body_etag `{Crypto} (body : string) : string := "sha256-" +:+ sha256_hex body.

(** ** Lemmas: the encoding is injective *)

Lemma foldl_field_app acc l :
  foldl (fun mac f => hmac_field mac (fst f) (snd f)) acc l
  = acc +:+ foldr (fun f s => field (fst f) (snd f) +:+ s) "" l.
Proof.
  revert acc. induction l as [|f l IH]; intros acc; cbn; [by rewrite sapp_nil_r|].
  rewrite IH. unfold hmac_field. by rewrite sapp_assoc.
Qed.

Definition no_nul (s : string) : Prop :=
  sall (fun d => negb (ascii_eqb d nul)) s = true.

Lemma slen_string_no_nul v : no_nul (to_string (slen v)).
Proof.
  unfold no_nul. eapply sall_impl; [|apply to_string_digits, slen_nonneg].
  intros c Hc. rewrite negb_true_iff, <- not_true_iff_false, ascii_eqb_spec.
  intros ->. done.
Qed.

Lemma field_app l v s :
  field l v +:+ s = l +:+ String nul (to_string (slen v) +:+ String nul (v +:+ String nul s)).
Proof.
  unfold field. rewrite !sapp_assoc, !sapp_cons, !sapp_assoc, !sapp_cons, !sapp_assoc.
  by rewrite sapp_cons, sapp_nil_l.
Qed.

(** One length-prefixed field can be read back from the front of a message. *)
Lemma field_inj l l' v v' s s' :
  no_nul l -> no_nul l' ->
  field l v +:+ s = field l' v' +:+ s' -> l = l' /\ v = v' /\ s = s'.
Proof.
  rewrite !field_app. intros Hl Hl' E.
  apply (separator_inj _ _ _ _ _ Hl Hl') in E as [-> E].
  apply separator_inj in E as [El E]; [|apply slen_string_no_nul..].
  apply to_string_inj in El. apply sapp_inj_len in E as [-> [= ->]]; [done|].
  unfold slen in El. lia.
Qed.

Definition fields_no_nul (l : list (string * string)) : Prop :=
  Forall (fun f => no_nul (fst f)) l.

Lemma field_nonempty l v s : field l v +:+ s <> "".
Proof. rewrite field_app. by destruct l. Qed.

(** A whole message determines its list of labelled fields. *)
Lemma fields_inj l l' :
  fields_no_nul l -> fields_no_nul l' ->
  foldr (fun f s => field (fst f) (snd f) +:+ s) "" l
  = foldr (fun f s => field (fst f) (snd f) +:+ s) "" l' -> l = l'.
Proof.
  unfold fields_no_nul. intros Hl. revert l'.
  induction Hl as [|[a v] l Ha Hl IH]; intros l' Hl'; cbn; intros E.
  - destruct l' as [|f l']; [done|]. cbn in E. symmetry in E. by apply field_nonempty in E.
  - destruct Hl' as [|[b v'] l' Hb Hl']; cbn in E; [by apply field_nonempty in E|].
    apply field_inj in E as (-> & -> & E); [|done..]. by rewrite (IH l').
Qed.

Lemma event_hmac_fields_no_nul i : fields_no_nul (event_hmac_fields i).
Proof. repeat constructor. Qed.

Lemma event_hmac_message_inj i j :
  event_hmac_message i = event_hmac_message j -> i = j.
Proof.
  unfold event_hmac_message. rewrite !foldl_field_app, !sapp_nil_l. intros E.
  apply fields_inj in E; [|apply event_hmac_fields_no_nul..].
  destruct i, j. unfold event_hmac_fields in E. cbn in E. by simplify_eq.
Qed.

Lemma meta_fields_no_nul ct hs : fields_no_nul (meta_fields ct hs).
Proof.
  unfold fields_no_nul, meta_fields. constructor; [done|].
  induction hs as [|h hs IH]; [constructor|]. cbn. repeat constructor; apply IH.
Qed.

Lemma header_fields_inj (hs hs' : list (string * string)) :
  (p ← hs; [("header-name", fst p); ("header-value", snd p)])
  = (p ← hs'; [("header-name", fst p); ("header-value", snd p)]) -> hs = hs'.
Proof.
  revert hs'. induction hs as [|[n v] hs IH]; intros [|[n' v'] hs']; cbn; try done.
  intros [= -> -> E]. by rewrite (IH hs').
Qed.

Lemma meta_message_inj ct ct' hs hs' :
  meta_message ct hs = meta_message ct' hs' -> ct = ct' /\ hs = hs'.
Proof.
  unfold meta_message. intros E.
  change (foldl (fun h f => sha256_field h (fst f) (snd f)))
    with (foldl (fun h f => hmac_field h (fst f) (snd f))) in E.
  rewrite !foldl_field_app, !sapp_nil_l in E.
  apply fields_inj in E; [|apply meta_fields_no_nul..].
  unfold meta_fields in E. injection E as -> E. split; [done|]. by apply header_fields_inj.
Qed.

(** ** Lemmas: the byte order is total, so sorting is canonical *)

Lemma str_cmp_eq a b : str_cmp a b = Eq <-> a = b.
Proof.
  revert b. induction a as [|x a IH]; intros [|y b]; cbn; try done.
  destruct (Z.compare_spec (bv x) (bv y)) as [E|E|E].
  - rewrite IH. apply bv_inj in E as ->. naive_solver.
  - split; [done|]. intros [= -> _]. lia.
  - split; [done|]. intros [= -> _]. lia.
Qed.

Lemma str_cmp_antisym a b : str_cmp b a = CompOpp (str_cmp a b).
Proof.
  revert b. induction a as [|x a IH]; intros [|y b]; cbn; try done.
  rewrite (Z.compare_antisym (bv x) (bv y)).
  destruct (Z.compare (bv x) (bv y)); cbn; auto.
Qed.

Lemma str_cmp_trans a b c o : str_cmp a b = o -> str_cmp b c = o -> str_cmp a c = o.
Proof.
  revert b c. induction a as [|x a IH]; intros [|y b] [|z c]; cbn; try congruence.
  destruct (Z.compare_spec (bv x) (bv y)), (Z.compare_spec (bv y) (bv z)),
    (Z.compare_spec (bv x) (bv z)); try lia; try congruence; eauto.
Qed.

Lemma pair_cmp_eq a b : pair_cmp a b = Eq <-> a = b.
Proof.
  unfold pair_cmp. destruct a as [a1 a2], b as [b1 b2]; cbn.
  destruct (str_cmp a1 b1) eqn:E.
  - apply str_cmp_eq in E as ->. rewrite str_cmp_eq. naive_solver.
  - split; [done|]. intros [= -> _]. by rewrite (proj2 (str_cmp_eq b1 b1) eq_refl) in E.
  - split; [done|]. intros [= -> _]. by rewrite (proj2 (str_cmp_eq b1 b1) eq_refl) in E.
Qed.

Lemma pair_cmp_antisym a b : pair_cmp b a = CompOpp (pair_cmp a b).
Proof.
  unfold pair_cmp. rewrite (str_cmp_antisym (fst a) (fst b)).
  destruct (str_cmp (fst a) (fst b)); cbn; auto using str_cmp_antisym.
Qed.

Lemma pair_cmp_lt_trans a b c : pair_cmp a b = Lt -> pair_cmp b c = Lt -> pair_cmp a c = Lt.
Proof.
  unfold pair_cmp. destruct a as [a1 a2], b as [b1 b2], c as [c1 c2]; cbn.
  destruct (str_cmp a1 b1) eqn:E1, (str_cmp b1 c1) eqn:E2; try done.
  - apply str_cmp_eq in E1 as ->, E2 as ->. rewrite (proj2 (str_cmp_eq c1 c1) eq_refl).
    apply str_cmp_trans.
  - apply str_cmp_eq in E1 as ->. by rewrite E2.
  - apply str_cmp_eq in E2 as ->. by rewrite E1.
  - by rewrite (str_cmp_trans _ _ _ _ E1 E2).
Qed.

#[global] Instance pair_le_trans : Transitive pair_le.
Proof.
  intros a b c. unfold pair_le.
  destruct (pair_cmp a b) eqn:E1; [apply pair_cmp_eq in E1 as ->; done| |done].
  destruct (pair_cmp b c) eqn:E2; [apply pair_cmp_eq in E2 as ->; by rewrite E1| |done].
  by rewrite (pair_cmp_lt_trans _ _ _ E1 E2).
Qed.

#[global] Instance pair_le_total : Total pair_le.
Proof.
  intros a b. unfold pair_le. rewrite (pair_cmp_antisym a b).
  destruct (pair_cmp a b); cbn; auto.
Qed.

#[global] Instance pair_le_antisymm : AntiSymm eq pair_le.
Proof.
  intros a b. unfold pair_le. rewrite (pair_cmp_antisym a b).
  destruct (pair_cmp a b) eqn:E; cbn; try done. by apply pair_cmp_eq in E.
Qed.

Lemma sort_headers_perm l : sort_headers l ≡ₚ l.
Proof. apply merge_sort_Permutation. Qed.

Lemma sort_headers_unique l l' : l ≡ₚ l' -> sort_headers l = sort_headers l'.
Proof.
  intros Hp. apply (StronglySorted_unique pair_le).
  - apply (StronglySorted_merge_sort pair_le).
  - apply (StronglySorted_merge_sort pair_le).
  - by rewrite !sort_headers_perm.
Qed.

Lemma sort_headers_idemp l : sort_headers (sort_headers l) = sort_headers l.
Proof. apply sort_headers_unique, sort_headers_perm. Qed.

(** ** Theorems *)

(** The bytes an event HMAC signs determine every signed field: previous
    HMAC, world, timestamp, event type, target, generation, body hash, size,
    content type and metadata digest cannot be exchanged for others with the
    same preimage. *)
Theorem event_hmac_preimage_unambiguous i j :
  event_hmac_message i = event_hmac_message j <-> i = j.
Proof. split; [apply event_hmac_message_inj|by intros ->]. Qed.

(** The bytes a metadata digest covers determine the content type and the
    header set: the digests of two representations have equal preimages exactly
    when the content types are equal and the headers are equal up to order and
    ASCII case of their names. *)
Theorem meta_preimage_unambiguous ct ct' hs hs' :
  meta_message ct (canonical_headers hs) = meta_message ct' (canonical_headers hs') <->
  ct = ct'
  /\ ((fun p => (to_ascii_lowercase (fst p), snd p)) <$> hs)
     ≡ₚ ((fun p => (to_ascii_lowercase (fst p), snd p)) <$> hs').
Proof.
  split.
  - intros [-> E]%meta_message_inj. split; [done|]. unfold canonical_headers in E.
    by rewrite <- sort_headers_perm, E, sort_headers_perm.
  - intros [-> Hp]. unfold canonical_headers. by rewrite (sort_headers_unique _ _ Hp).
Qed.

(** ** A concrete hash, for the witnesses

    Not a cryptographic function: a digest of the right shape that the kernel
    can evaluate. *)

Definition toy_step (acc : Z) (c : ascii) : Z :=
  ((acc * 257 + bv c + 1) mod (2 ^ 61 - 1))%Z.

Fixpoint toy_fold (acc : Z) (s : string) : Z :=
  match s with "" => acc | String c s => toy_fold (toy_step acc c) s end.

Definition hex_lower_digit (n : Z) : ascii :=
  ascii_of_N (Z.to_N (if (n <? 10)%Z then n + 48 else n + 87)).

Fixpoint toy_digits (n : nat) (z : Z) : string :=
  match n with
  | O => ""
  | S n => String (hex_lower_digit (Z.land z 15)) (toy_digits n (Z.shiftr z 4))
  end.

#[global] Instance toy_crypto : Crypto := {|
  Sha256_hex m := toy_digits 64 (toy_fold 0 m);
  Hmac_Sha256_hex k m := toy_digits 64 (toy_fold (toy_fold 7 k) m);
|}.

Lemma hex_lower_digit_ok z : is_lower_hex_char (hex_lower_digit (Z.land z 15)) = true.
Proof.
  assert (0 <= Z.land z 15 < 16)%Z as Hz.
  { change 15%Z with (Z.ones 4). rewrite Z.land_ones by lia. apply Z.mod_pos_bound. lia. }
  revert Hz. generalize (Z.land z 15). intros n Hn.
  assert (n ∈ seqZ 0 16) as Hin by (apply elem_of_seqZ; lia).
  clear Hn. revert n Hin.
  apply (Forall_forall (fun n => is_lower_hex_char (hex_lower_digit n) = true)).
  by repeat constructor.
Qed.

Lemma toy_digits_shape n z :
  String.length (toy_digits n z) = n /\ is_lower_hex (toy_digits n z) = true.
Proof.
  revert z. induction n as [|n IH]; intros z; [done|]. destruct (IH (Z.shiftr z 4)) as [Hl Hh].
  cbn [toy_digits String.length]. rewrite Hl. split; [done|].
  unfold is_lower_hex in *. cbn [sall]. by rewrite hex_lower_digit_ok, Hh.
Qed.

#[global] Instance toy_crypto_laws : CryptoLaws.
Proof.
  assert (forall z, slen (toy_digits 64 z) = 64%Z /\ is_lower_hex (toy_digits 64 z) = true) as H.
  { intros z. destruct (toy_digits_shape 64 z) as [Hl Hh]. split; [|done].
    unfold slen. by rewrite Hl. }
  split; intros; apply H.
Qed.
