(* ===== verification/Etag.v ===== *)
(** * Preconditions and ETag matching

    Models [core/src/etag.rs]: the matcher type, its parser and
    [check_preconditions], the gate every conditional write and delete passes. *)

From S2P Require Import Prelude.
From S2P Require Import RustStr.
From S2P Require Import Path.
From Stdlib Require Import Ascii.

Inductive EtagMatcher :=
| Any
| Strong (value : string)
| Weak (value : string)
| Invalid.

#[global] Instance EtagMatcher_eq_dec : EqDecision EtagMatcher.
Proof. solve_decision. Defined.

Record Preconditions := {
  if_match : list EtagMatcher;
  if_none_match : list EtagMatcher;
}.

Definition no_preconditions : Preconditions := {| if_match := []; if_none_match := [] |}.

Definition is_empty (p : Preconditions) : bool :=
  bool_decide (if_match p = []) && bool_decide (if_none_match p = []).

Definition strong_matches (m : EtagMatcher) (current : string) : bool :=
  match m with
  | Any => true
  | Strong value => bool_decide (value = current)
  | Weak _ | Invalid => false
  end.

Definition weak_matches (m : EtagMatcher) (current : string) : bool :=
  match m with
  | Any => true
  | Strong value | Weak value => bool_decide (value = current)
  | Invalid => false
  end.

Definition check_preconditions (p : Preconditions) (current_tag : option string)
  : result string unit :=
  _ ← (if bool_decide (if_match p = []) then Ok tt
       else match current_tag with
            | None => Err "If-Match requires an existing world"
            | Some tag =>
                if negb (existsb (fun m => strong_matches m tag) (if_match p))
                then Err "If-Match did not match current ETag"
                else Ok tt
            end);
  match current_tag with
  | Some tag =>
      if existsb (fun m => weak_matches m tag) (if_none_match p)
      then Err "If-None-Match matched current ETag" else Ok tt
  | None => Ok tt
  end.

Definition quoted_etag (candidate : string) : option string :=
  v ← strip_prefix (String quote_char "") (trim candidate);
  value ← strip_suffix_char quote_char v;
  if contains_char quote_char value then None else Some value.

Definition parse_etag_matcher (candidate : string) : EtagMatcher :=
  if bool_decide (candidate = "*") then Any
  else match (match strip_prefix "W/" candidate with
              | Some rest => Some rest
              | None => strip_prefix "w/" candidate
              end) with
       | Some rest =>
           match quoted_etag rest with Some value => Weak value | None => Invalid end
       | None =>
           match quoted_etag candidate with Some value => Strong value | None => Invalid end
       end.

Definition parse_etag_matchers (raw : string) : list EtagMatcher :=
  parse_etag_matcher <$>
    filter (fun part => part <> "") (trim <$> split "," raw).

(** ** Theorems *)

Lemma some_strong l t : existsb (fun m => strong_matches m t) l = true <-> Any ∈ l \/ Strong t ∈ l.
Proof.
  rewrite existsb_exists. setoid_rewrite <- list_elem_of_In. split.
  - intros (m & Hm & Hs). destruct m; cbn in Hs; try done; [by left|].
    apply bool_decide_eq_true in Hs as ->. by right.
  - intros [Hm|Hm]; eexists; (split; [exact Hm|]); [done|by apply bool_decide_eq_true].
Qed.

Lemma some_weak l t :
  existsb (fun m => weak_matches m t) l = true <-> Any ∈ l \/ Strong t ∈ l \/ Weak t ∈ l.
Proof.
  rewrite existsb_exists. setoid_rewrite <- list_elem_of_In. split.
  - intros (m & Hm & Hs). destruct m; cbn in Hs; try done; [by left|..];
      apply bool_decide_eq_true in Hs as ->; auto.
  - intros [Hm|[Hm|Hm]]; eexists; (split; [exact Hm|]); [done|by apply bool_decide_eq_true..].
Qed.

(** What the two conditional headers ask of the current tag. *)
Definition if_match_holds (p : Preconditions) (tag : option string) : Prop :=
  if_match p <> [] -> exists t, tag = Some t /\ (Any ∈ if_match p \/ Strong t ∈ if_match p).

Definition if_none_match_holds (p : Preconditions) (tag : option string) : Prop :=
  forall t, tag = Some t -> ~ (Any ∈ if_none_match p \/ Strong t ∈ if_none_match p \/ Weak t ∈ if_none_match p).


(** A quoted tag without quotes inside is parsed as that strong matcher, and
    with the prefix W/ as that weak matcher, so a client that echoes the ETag
    it received gets exactly that matcher. *)
Theorem parse_etag_matcher_quoted v :
  trim (String quote_char v +:+ String quote_char "") = String quote_char v +:+ String quote_char "" ->
  contains_char quote_char v = false ->
  parse_etag_matcher (String quote_char v +:+ String quote_char "") = Strong v
  /\ parse_etag_matcher ("W/" +:+ String quote_char v +:+ String quote_char "") = Weak v.
Proof.
  intros Ht Hc.
  assert (quoted_etag (String quote_char v +:+ String quote_char "") = Some v) as Hq.
  { unfold quoted_etag. rewrite Ht, sapp_cons. cbn [strip_prefix]. rewrite ascii_eqb_refl.
    cbn [mbind option_bind].
    assert (strip_suffix_char quote_char (v +:+ String quote_char "") = Some v) as ->.
    { clear. induction v as [|c v IH]; [done|]. rewrite sapp_cons. cbn [strip_suffix_char].
      rewrite IH. destruct (v +:+ String quote_char "") eqn:E; [|done].
      by destruct v; rewrite ?sapp_cons, ?sapp_nil_l in E. }
    cbn. by rewrite Hc. }
  unfold parse_etag_matcher. rewrite strip_prefix_app, Hq. split; [|done].
  rewrite sapp_cons in *. rewrite bool_decide_false by done. cbn [strip_prefix].
  change (ascii_eqb "W" quote_char) with false. change (ascii_eqb "w" quote_char) with false.
  done.
Qed.

Lemma parse_etag_matcher_quoted_witness :
  parse_etag_matcher (String quote_char "hmac-1" +:+ String quote_char "") = Strong "hmac-1".
Proof. apply (parse_etag_matcher_quoted "hmac-1"); by vm_compute. Defined.
