(* ===== verification/Types.v ===== *)
(** * Event kinds, timeline coordinates, generations and signed delete subjects

    Models the value types of [core/src/event.rs], [core/src/timeline.rs],
    [core/src/world_generation.rs], [core/src/chain_stamp.rs], the header codec
    of [core/src/audit/headers.rs] and the namespace predicate of
    [core/src/store.rs].  A newtype with a private field is its carrier; its
    checked constructor is the only definition that builds one. *)

From S2P Require Import Prelude.
From S2P Require Import RustStr.
From S2P Require Import Path.
From S2P Require Import Auth.
From S2P Require Import Crypto.
From Stdlib Require Import Ascii.

(** ** [event.rs] *)

Inductive AuditEventKind :=
| Put | Append | DeleteIntent | DeleteCommit | DeleteCommitFailed | Format.

#[global] Instance AuditEventKind_eq_dec : EqDecision AuditEventKind.
Proof. solve_decision. Defined.

Definition as_str (k : AuditEventKind) : string :=
  match k with
  | Put => "put"
  | Append => "append"
  | DeleteIntent => "delete_intent"
  | DeleteCommit => "delete_commit"
  | DeleteCommitFailed => "delete_commit_failed"
  | Format => "format"
  end.

Definition from_storage (raw : string) : option AuditEventKind :=
  if bool_decide (raw = "put") then Some Put
  else if bool_decide (raw = "append") then Some Append
  else if bool_decide (raw = "delete_intent") then Some DeleteIntent
  else if bool_decide (raw = "delete_commit") then Some DeleteCommit
  else if bool_decide (raw = "delete_commit_failed") then Some DeleteCommitFailed
  else if bool_decide (raw = "format") then Some Format
  else None.

Inductive AuditPayloadHome := HomeCas | EventMetadata.

Record AuditEventClass := {
  body_bearing : bool;
  retention_slot : bool;
  notifies : bool;
  payload_home : AuditPayloadHome;
}.

Definition class (k : AuditEventKind) : AuditEventClass :=
  match k with
  | Put | Append =>
      {| body_bearing := true; retention_slot := true; notifies := true;
         payload_home := HomeCas |}
  | DeleteIntent | DeleteCommit | DeleteCommitFailed | Format =>
      {| body_bearing := false; retention_slot := false; notifies := true;
         payload_home := EventMetadata |}
  end.

(** ** [store.rs]: the memory namespaces *)

Definition has_memory_prefix (world : string) : bool :=
  starts_with "tmp/" world || starts_with "dev/" world || starts_with "sys/" world.

Definition is_memory_world (world : string) : bool := has_memory_prefix world.
Definition is_persistent (world : string) : bool := negb (is_memory_world world).

(** ** [timeline.rs], [world_generation.rs], [chain_stamp.rs] *)

Definition BODY_SHA256_HEX_LEN : Z := 64.
Definition WORLD_GEN_HEX_LEN : Z := 32.

Inductive InvalidHex := WrongLength | NotLowerHex.

#[global] Instance InvalidHex_eq_dec : EqDecision InvalidHex.
Proof. solve_decision. Defined.

Definition BodySha256_new (raw : string) : result InvalidHex string :=
  if negb (slen raw =? BODY_SHA256_HEX_LEN)%Z then Err WrongLength
  else if negb (is_lower_hex raw) then Err NotLowerHex
  else Ok raw.

Definition WorldGeneration_new (raw : string) : result InvalidHex string :=
  if negb (slen raw =? WORLD_GEN_HEX_LEN)%Z then Err WrongLength
  else if negb (is_lower_hex raw) then Err NotLowerHex
  else Ok raw.

Inductive InvalidSeq := NonPositive.

(** [NonZeroI64::new(raw)] filtered by positivity. *)
Definition TimelineSeq_new (raw : Z) : result InvalidSeq Z :=
  if (0 <? raw)%Z then Ok raw else Err NonPositive.

Definition ChainSeq_new (raw : Z) : result InvalidSeq Z :=
  if (raw <=? 0)%Z then Err NonPositive else Ok raw.

(** [ChainSeq::from_verified_count]: [i64::try_from] and then [new]. *)
Definition ChainSeq_from_verified_count (count : Z) : option Z :=
  raw ← i64_try_from count;
  result_ok (ChainSeq_new raw).

Record TimelineAddress := {
  ta_world : string;
  ta_gen : string;
  ta_seq : Z;
  ta_body_sha256 : string;
}.

#[global] Instance TimelineAddress_eq_dec : EqDecision TimelineAddress.
Proof. solve_decision. Defined.

Inductive InvalidTimelineCoordinate :=
| CoordWorldPath (reason : string)
| CoordMemoryWorld
| CoordGenerationWrongLength
| CoordGenerationNotLowerHex
| CoordSeqNonPositive
| CoordBodySha256WrongLength
| CoordBodySha256NotLowerHex.

(** A coordinate has the fields of an address, as untrusted syntax. *)
Record TimelineCoordinate := {
  tc_world : string;
  tc_gen : string;
  tc_seq : Z;
  tc_body_sha256 : string;
}.

Definition from_wire_parts (world generation : string) (seq : Z) (body_sha256 : string)
  : result InvalidTimelineCoordinate TimelineCoordinate :=
  world ← map_err CoordWorldPath (from_canonical world);
  _ ← ensure (negb (is_memory_world world)) CoordMemoryWorld;
  gen ← map_err (fun err => match err with
                            | WrongLength => CoordGenerationWrongLength
                            | NotLowerHex => CoordGenerationNotLowerHex
                            end) (WorldGeneration_new generation);
  seq ← map_err (fun _ => CoordSeqNonPositive) (TimelineSeq_new seq);
  body_sha256 ← map_err (fun err => match err with
                                    | WrongLength => CoordBodySha256WrongLength
                                    | NotLowerHex => CoordBodySha256NotLowerHex
                                    end) (BodySha256_new body_sha256);
  Ok {| tc_world := world; tc_gen := gen; tc_seq := seq; tc_body_sha256 := body_sha256 |}.

Record DeleteSubjectProof := { ds_address : TimelineAddress; ds_hmac : string }.

#[global] Instance DeleteSubjectProof_eq_dec : EqDecision DeleteSubjectProof.
Proof. solve_decision. Defined.

(** ** [audit/headers.rs] *)

Definition DELETE_SUBJECT_WORLD : string := "auditedb-delete-subject-world".
Definition DELETE_SUBJECT_GENERATION : string := "auditedb-delete-subject-generation".
Definition DELETE_SUBJECT_SEQ : string := "auditedb-delete-subject-seq".
Definition DELETE_SUBJECT_BODY_SHA256 : string := "auditedb-delete-subject-body-sha256".
Definition DELETE_SUBJECT_HMAC : string := "auditedb-delete-subject-hmac".
Definition DELETE_SUBJECT_RESERVED_PREFIX : string := "auditedb-delete-subject-".

Definition is_reserved_audit_header (name : string) : bool :=
  starts_with DELETE_SUBJECT_RESERVED_PREFIX (to_ascii_lowercase name).

Definition subject_headers (p : DeleteSubjectProof) : list (string * string) :=
  [(DELETE_SUBJECT_WORLD, ta_world (ds_address p));
   (DELETE_SUBJECT_GENERATION, ta_gen (ds_address p));
   (DELETE_SUBJECT_SEQ, to_string (ta_seq (ds_address p)));
   (DELETE_SUBJECT_BODY_SHA256, ta_body_sha256 (ds_address p));
   (DELETE_SUBJECT_HMAC, ds_hmac p)].

Inductive DeleteSubjectProofError :=
| Missing (name : string)
| Duplicated (name : string)
| InvalidSubject (name : string)
| WorldMismatch
| BodyHashMismatch.

Definition one_header (headers : list (string * string)) (name : string)
  : result DeleteSubjectProofError string :=
  match snd <$> filter (fun p => fst p = name) headers with
  | [] => Err (Missing name)
  | [first] => Ok first
  | _ => Err (Duplicated name)
  end.

Definition is_lower_hex_len (value : string) (len : Z) : bool :=
  (slen value =? len)%Z
  && sall (fun byte => is_ascii_hexdigit byte && negb (is_ascii_uppercase byte)) value.

Definition is_hmac_label (value : string) : bool :=
  match strip_prefix "hmac-" value with
  | Some raw => is_lower_hex_len raw 64
  | None => false
  end.

Definition delete_subject_proof_from_headers
    (target expected_body_sha256 : string) (headers : list (string * string))
  : result DeleteSubjectProofError (option DeleteSubjectProof) :=
  let has_any := existsb (fun p => is_reserved_audit_header (fst p)) headers in
  if negb has_any && is_memory_world target then Ok None
  else
    raw_world ← one_header headers DELETE_SUBJECT_WORLD;
    world ← map_err (fun _ => InvalidSubject DELETE_SUBJECT_WORLD) (from_canonical raw_world);
    _ ← ensure (bool_decide (world = target)) WorldMismatch;
    raw_gen ← one_header headers DELETE_SUBJECT_GENERATION;
    generation ← map_err (fun _ => InvalidSubject DELETE_SUBJECT_GENERATION)
                         (WorldGeneration_new raw_gen);
    raw_seq ← one_header headers DELETE_SUBJECT_SEQ;
    parsed_seq ← ok_or (InvalidSubject DELETE_SUBJECT_SEQ) (parse_i64 raw_seq);
    _ ← ensure (bool_decide (to_string parsed_seq = raw_seq)) (InvalidSubject DELETE_SUBJECT_SEQ);
    seq ← map_err (fun _ => InvalidSubject DELETE_SUBJECT_SEQ) (TimelineSeq_new parsed_seq);
    raw_sha ← one_header headers DELETE_SUBJECT_BODY_SHA256;
    body_sha256 ← map_err (fun _ => InvalidSubject DELETE_SUBJECT_BODY_SHA256)
                          (BodySha256_new raw_sha);
    hmac ← one_header headers DELETE_SUBJECT_HMAC;
    _ ← ensure (is_hmac_label hmac) (InvalidSubject DELETE_SUBJECT_HMAC);
    let proof :=
      {| ds_address := {| ta_world := world; ta_gen := generation; ta_seq := seq;
                          ta_body_sha256 := body_sha256 |};
         ds_hmac := hmac |} in
    _ ← ensure (ct_eq (ta_body_sha256 (ds_address proof)) expected_body_sha256)
               BodyHashMismatch;
    Ok (Some proof).

Record AuditHeaders := {
  ah_user : list (string * string);
  ah_delete_subject : option DeleteSubjectProof;
}.

Inductive ReservedAuditHeader := reserved_audit_header.

Definition AuditHeaders_from_user (headers : list (string * string))
  : result ReservedAuditHeader AuditHeaders :=
  if existsb (fun p => is_reserved_audit_header (fst p)) headers
  then Err reserved_audit_header
  else Ok {| ah_user := headers; ah_delete_subject := None |}.

Definition with_delete_subject (h : AuditHeaders) (s : DeleteSubjectProof) : AuditHeaders :=
  {| ah_user := ah_user h; ah_delete_subject := Some s |}.

Definition to_storage_pairs (h : AuditHeaders) : list (string * string) :=
  match ah_delete_subject h with
  | Some s => ah_user h ++ subject_headers s
  | None => ah_user h
  end.

(** ** Lemmas *)

Lemma from_storage_iff raw k : from_storage raw = Some k <-> raw = as_str k.
Proof.
  unfold from_storage. repeat case_bool_decide; subst; destruct k; cbn; naive_solver.
Qed.

Lemma from_storage_as_str k : from_storage (as_str k) = Some k.
Proof. by apply from_storage_iff. Qed.

#[export] Hint Rewrite from_storage_as_str : auditedb.

Lemma BodySha256_new_Ok raw v :
  BodySha256_new raw = Ok v <->
  v = raw /\ slen raw = BODY_SHA256_HEX_LEN /\ is_lower_hex raw = true.
Proof.
  unfold BodySha256_new. destruct (Z.eqb_spec (slen raw) BODY_SHA256_HEX_LEN); cbn;
    destruct (is_lower_hex raw); cbn; naive_solver.
Qed.

Lemma WorldGeneration_new_Ok raw v :
  WorldGeneration_new raw = Ok v <->
  v = raw /\ slen raw = WORLD_GEN_HEX_LEN /\ is_lower_hex raw = true.
Proof.
  unfold WorldGeneration_new. destruct (Z.eqb_spec (slen raw) WORLD_GEN_HEX_LEN); cbn;
    destruct (is_lower_hex raw); cbn; naive_solver.
Qed.

Lemma TimelineSeq_new_Ok raw v : TimelineSeq_new raw = Ok v <-> v = raw /\ (0 < raw)%Z.
Proof. unfold TimelineSeq_new. destruct (Z.ltb_spec 0 raw); naive_solver lia. Qed.

Lemma BodySha256_sha `{CryptoLaws} m : BodySha256_new (Sha256_hex m) = Ok (Sha256_hex m).
Proof. apply BodySha256_new_Ok. by destruct (Sha256_shape m). Qed.

Lemma ct_eq_refl s : ct_eq s s = true.
Proof. by apply ct_eq_true. Qed.

(** *** The delete-subject codec *)

(** What a subject captured from a verified body head satisfies. *)
Definition subject_wf (s : DeleteSubjectProof) : Prop :=
  valid_world (ta_world (ds_address s))
  /\ WorldGeneration_new (ta_gen (ds_address s)) = Ok (ta_gen (ds_address s))
  /\ (0 < ta_seq (ds_address s) <= i64_max)%Z
  /\ BodySha256_new (ta_body_sha256 (ds_address s)) = Ok (ta_body_sha256 (ds_address s))
  /\ is_hmac_label (ds_hmac s) = true.

#[global] Instance subject_wf_dec s : Decision (subject_wf s).
Proof.
  unfold subject_wf, valid_world. repeat apply and_dec; apply _.
Defined.

Lemma to_ascii_lower_idem c : to_ascii_lower (to_ascii_lower c) = to_ascii_lower c.
Proof. by destruct c as [[] [] [] [] [] [] [] []]. Qed.

Lemma to_ascii_lowercase_idem s :
  to_ascii_lowercase (to_ascii_lowercase s) = to_ascii_lowercase s.
Proof. induction s as [|c s IH]; [done|]. cbn. by rewrite to_ascii_lower_idem, IH. Qed.

Lemma one_header_perm hs hs' n :
  hs ≡ₚ hs' -> (forall v, one_header hs n = Ok v -> one_header hs' n = Ok v).
Proof.
  intros Hp v. unfold one_header.
  assert (snd <$> filter (fun p => fst p = n) hs ≡ₚ snd <$> filter (fun p => fst p = n) hs')
    as Hf by (by rewrite Hp).
  destruct (snd <$> filter (fun p => fst p = n) hs) as [|a [|b l]]; try done.
  intros [= ->]. by apply Permutation_singleton_l in Hf as <-.
Qed.

(** User headers of an accepted request carry no reserved name. *)
Lemma from_user_filter hs h n :
  AuditHeaders_from_user hs = Ok h ->
  is_reserved_audit_header n = true ->
  h = {| ah_user := hs; ah_delete_subject := None |}
  /\ filter (fun p => fst p = n)
       ((fun p => (to_ascii_lowercase (fst p), snd p)) <$> hs) = [].
Proof.
  unfold AuditHeaders_from_user. destruct (existsb _ hs) eqn:E; [done|].
  intros [= <-] Hn. split; [done|].
  induction hs as [|[a v] hs IH]; [done|]. cbn in E. apply orb_false_iff in E as [Ea E].
  rewrite fmap_cons, filter_cons_False; [by apply IH|]. cbn. intros <-.
  unfold is_reserved_audit_header in *. by rewrite to_ascii_lowercase_idem, Ea in Hn.
Qed.

Lemma one_header_subject hs h s n v :
  AuditHeaders_from_user hs = Ok h ->
  (n, v) ∈ subject_headers s ->
  one_header (canonical_headers (to_storage_pairs (with_delete_subject h s))) n = Ok v.
Proof.
  intros Hu Hin.
  eapply one_header_perm; [symmetry; apply sort_headers_perm|].
  unfold to_storage_pairs, one_header. cbn [ah_delete_subject with_delete_subject ah_user].
  assert (is_reserved_audit_header n = true) as Hr.
  { unfold subject_headers in Hin. rewrite list_elem_of_In in Hin.
    by destruct Hin as [Hin|[Hin|[Hin|[Hin|[Hin|[]]]]]]; simplify_eq. }
  destruct (from_user_filter _ _ _ Hu Hr) as [-> Hf]. cbn [ah_user].
  rewrite fmap_app, filter_app, Hf. cbn [app].
  unfold subject_headers in *. rewrite list_elem_of_In in Hin.
  by destruct Hin as [Hin|[Hin|[Hin|[Hin|[Hin|[]]]]]]; simplify_eq.
Qed.

Lemma subject_has_reserved hs h s :
  AuditHeaders_from_user hs = Ok h ->
  existsb (fun p => is_reserved_audit_header (fst p))
    (canonical_headers (to_storage_pairs (with_delete_subject h s))) = true.
Proof.
  intros Hu. apply existsb_exists. exists (DELETE_SUBJECT_WORLD, ta_world (ds_address s)).
  split; [|done]. rewrite <- list_elem_of_In. unfold canonical_headers.
  rewrite sort_headers_perm. unfold to_storage_pairs. cbn [ah_delete_subject with_delete_subject].
  rewrite fmap_app, elem_of_app. right. unfold subject_headers. cbn. left.
Qed.

Lemma delete_subject_roundtrip_aux hs h s :
  subject_wf s ->
  AuditHeaders_from_user hs = Ok h ->
  delete_subject_proof_from_headers (ta_world (ds_address s)) (ta_body_sha256 (ds_address s))
    (canonical_headers (to_storage_pairs (with_delete_subject h s))) = Ok (Some s).
Proof.
  intros (Hw & Hg & Hs & Hb & Hh) Hu. unfold delete_subject_proof_from_headers.
  rewrite (subject_has_reserved _ _ _ Hu). cbn [negb andb].
  rewrite (one_header_subject _ _ s DELETE_SUBJECT_WORLD (ta_world (ds_address s)) Hu)
    by (unfold subject_headers; set_solver). cbn [mbind result_bind].
  rewrite Hw. cbn [map_err mbind result_bind]. rewrite bool_decide_true by done.
  cbn [ensure mbind result_bind].
  rewrite (one_header_subject _ _ s DELETE_SUBJECT_GENERATION (ta_gen (ds_address s)) Hu)
    by (unfold subject_headers; set_solver). cbn [mbind result_bind].
  rewrite Hg. cbn [map_err mbind result_bind].
  rewrite (one_header_subject _ _ s DELETE_SUBJECT_SEQ (to_string (ta_seq (ds_address s))) Hu)
    by (unfold subject_headers; set_solver). cbn [mbind result_bind].
  rewrite parse_i64_to_string by (unfold i64_min; lia). cbn [ok_or mbind result_bind].
  rewrite bool_decide_true by done. cbn [ensure mbind result_bind].
  rewrite (proj2 (TimelineSeq_new_Ok _ _)) by (split; [reflexivity|lia]).
  cbn [map_err mbind result_bind].
  rewrite (one_header_subject _ _ s DELETE_SUBJECT_BODY_SHA256 (ta_body_sha256 (ds_address s)) Hu)
    by (unfold subject_headers; set_solver). cbn [mbind result_bind].
  rewrite Hb. cbn [map_err mbind result_bind].
  rewrite (one_header_subject _ _ s DELETE_SUBJECT_HMAC (ds_hmac s) Hu)
    by (unfold subject_headers; set_solver). cbn [mbind result_bind].
  rewrite Hh. cbn [ensure mbind result_bind ds_address ta_body_sha256].
  rewrite ct_eq_refl. cbn. by destruct s as [[]].
Qed.
