(* ===== verification/Db.v ===== *)
(** * One world's SQLite file

    The tables [world_schema.rs] creates, as a record: the singleton rows of
    [stage_meta] and [cas_state], the keyed tables [cas_bodies] and
    [meta_headers], the AUTOINCREMENT table [events] in increasing [id] order
    with its sequence counter, and [event_headers] in insertion order.  SQL
    statements the sources prepare are functions of the record; a transaction is
    a function that returns the new record or an error, and an error discards
    the record (rollback).  The record is a database whose schema shape has been
    verified ([verify_open_shape]); columns declared without NOT NULL hold
    values of their declared type. *)

From S2P Require Import Prelude.
From S2P Require Import RustStr.
From S2P Require Import Crypto.
From S2P Require Import Types.
From Stdlib Require Import Ascii.

(** ** Errors of the SQLite binding *)

Inductive sqlite_code :=
| DatabaseCorrupt | ConstraintViolation | DiskFull | DatabaseBusy | DatabaseLocked
| InternalMalfunction | CannotOpen | OtherCode (n : Z).

#[global] Instance sqlite_code_eq_dec : EqDecision sqlite_code.
Proof. solve_decision. Defined.

Inductive sqlite_error :=
| SqliteFailure (code : sqlite_code) (msg : option string)
| QueryReturnedNoRows
| InvalidQuery
| InvalidParameterName (msg : string)
| IntegralValueOutOfRange (column : Z) (value : Z)
| FromSqlConversionFailure (column : Z)
| InvalidColumnType (column : Z).

#[global] Instance sqlite_error_eq_dec : EqDecision sqlite_error.
Proof. solve_decision. Defined.

(** [corrupt_error], [corrupt] and [schema_error] of the sources. *)
Definition corrupt_error (reason : string) : sqlite_error :=
  SqliteFailure DatabaseCorrupt (Some reason).

(** ** Rows *)

Record EventRow := {
  ev_id : Z;
  ev_timestamp : string;
  ev_event_type : string;
  ev_target : string;
  ev_body_sha256 : string;
  ev_size : Z;
  ev_content_type : string;
  ev_meta_sha256 : string;
  ev_hmac : string;
  ev_prev_hmac : string;
}.

#[global] Instance EventRow_eq_dec : EqDecision EventRow.
Proof. solve_decision. Defined.

Record world_db := {
  db_generation : string;
  db_body : string;
  db_content_type : string;
  db_meta_headers : list (string * string);
  db_cas : gmap string string;
  db_floor : option Z;
  db_events : list EventRow;
  db_event_headers : list (Z * (string * string));
  db_seq : Z;
}.

(** The file [create] leaves: the columns' defaults, no events. *)
Definition create (generation : string) : world_db := {|
  db_generation := generation;
  db_body := "";
  db_content_type := "application/octet-stream";
  db_meta_headers := [];
  db_cas := ∅;
  db_floor := None;
  db_events := [];
  db_event_headers := [];
  db_seq := 0;
|}.

(** ** Queries *)

(** [world_schema::generation]. *)
Definition generation (db : world_db) : result sqlite_error string :=
  map_err (fun _ => corrupt_error "invalid stage_meta.generation")
          (WorldGeneration_new (db_generation db)).

(** [SELECT COUNT( * ) FROM events]. *)
Definition event_count (db : world_db) : Z := Z.of_nat (length (db_events db)).

Definition is_body_type (t : string) : bool :=
  bool_decide (t = as_str Put) || bool_decide (t = as_str Append).

(** [... FROM events WHERE event_type IN ('put', 'append') ORDER BY id]. *)
Definition body_events (db : world_db) : list EventRow :=
  filter (fun e => is_body_type (ev_event_type e) = true) (db_events db).

(** [event_headers] of one event, [ORDER BY h.name, h.value]. *)
Definition headers_of (db : world_db) (id : Z) : list (string * string) :=
  sort_headers (snd <$> filter (fun h => fst h = id) (db_event_headers db)).

(** The rows of [AUDIT_SELECT]: the left join, one row per header, one row with
    NULLs for an event without headers. *)
Definition audit_select (db : world_db) : list (EventRow * option (string * string)) :=
  e ← db_events db;
  match headers_of db (ev_id e) with
  | [] => [(e, None)]
  | hs => (fun h => (e, Some h)) <$> hs
  end.

(** [SELECT hmac FROM events ORDER BY id DESC LIMIT 1]. *)
Definition latest_hmac (db : world_db) : option string :=
  ev_hmac <$> last (db_events db).

(** [SELECT hmac FROM events WHERE id < ?1 ORDER BY id DESC LIMIT 1], with
    [unwrap_or_default]. *)
Definition previous_hmac_tx (db : world_db) (tail_id : Z) : string :=
  default "" (ev_hmac <$> last (filter (fun e => (ev_id e < tail_id)%Z) (db_events db))).

(** ** Statements that change the file *)

Definition set_events evs hdrs seq (db : world_db) : world_db := {|
  db_generation := db_generation db; db_body := db_body db;
  db_content_type := db_content_type db; db_meta_headers := db_meta_headers db;
  db_cas := db_cas db; db_floor := db_floor db;
  db_events := evs; db_event_headers := hdrs; db_seq := seq |}.

Definition set_cas cas floor (db : world_db) : world_db := {|
  db_generation := db_generation db; db_body := db_body db;
  db_content_type := db_content_type db; db_meta_headers := db_meta_headers db;
  db_cas := cas; db_floor := floor;
  db_events := db_events db; db_event_headers := db_event_headers db; db_seq := db_seq db |}.

Definition set_stage body content_type headers (db : world_db) : world_db := {|
  db_generation := db_generation db; db_body := body;
  db_content_type := content_type; db_meta_headers := headers;
  db_cas := db_cas db; db_floor := db_floor db;
  db_events := db_events db; db_event_headers := db_event_headers db; db_seq := db_seq db |}.

(** The AUTOINCREMENT choice of rowid: one above the largest ever used. *)
Definition next_rowid (db : world_db) : Z :=
  Z.max (db_seq db) (foldr (fun e m => Z.max (ev_id e) m) 0%Z (db_events db)) + 1.

(** [INSERT INTO events(...)] followed by the headers of the new row. *)
Definition insert_event (db : world_db) (row : EventRow) (hs : list (string * string))
  : world_db :=
  set_events (db_events db ++ [row])
             (db_event_headers db ++ ((fun h => (ev_id row, h)) <$> hs))
             (ev_id row) db.

(** [DELETE FROM meta_headers] and the inserts that follow it: [name] is the
    primary key, so a repeated name is a constraint violation. *)
Fixpoint insert_meta_headers (acc headers : list (string * string))
  : result sqlite_error (list (string * string)) :=
  match headers with
  | [] => Ok acc
  | (name, value) :: rest =>
      if bool_decide (name ∈ acc.*1) then
        Err (SqliteFailure ConstraintViolation
               (Some "UNIQUE constraint failed: meta_headers.name"))
      else insert_meta_headers (acc ++ [(name, value)]) rest
  end.

(** [SELECT name, value FROM meta_headers ORDER BY name]. *)
Definition select_meta_headers (db : world_db) : list (string * string) :=
  sort_headers (db_meta_headers db).

(** ** Well-formedness of a file the program wrote *)

Record db_wf (db : world_db) : Prop := {
  wf_ids : StronglySorted Z.lt (ev_id <$> db_events db);
  wf_ids_pos : Forall (fun e => (0 < ev_id e <= db_seq db)%Z) (db_events db);
  wf_headers : Forall (fun h => (0 < fst h <= db_seq db)%Z) (db_event_headers db);
  wf_meta : NoDup (db_meta_headers db).*1;
  wf_seq : (0 <= db_seq db <= i64_max)%Z;
}.

Lemma create_wf g : db_wf (create g).
Proof. split; cbn; [constructor..|]. by vm_compute. Qed.

Lemma max_id_le l m :
  (0 <= m)%Z -> Forall (fun e => (0 < ev_id e <= m)%Z) l ->
  (0 <= foldr (fun e m => Z.max (ev_id e) m) 0 l <= m)%Z.
Proof. induction 2; cbn; lia. Qed.

Lemma next_rowid_wf db : db_wf db -> next_rowid db = (db_seq db + 1)%Z.
Proof.
  intros Hwf. unfold next_rowid.
  pose proof (max_id_le _ _ (proj1 (wf_seq _ Hwf)) (wf_ids_pos _ Hwf)). lia.
Qed.

Lemma StronglySorted_snoc {A} (R : A -> A -> Prop) l x :
  StronglySorted R l -> Forall (fun y => R y x) l -> StronglySorted R (l ++ [x]).
Proof.
  intros Hl Hx. induction Hl as [|y l Hl IH Hy]; cbn; [repeat constructor|].
  apply Forall_cons in Hx as [Hyx Hx]. constructor; [by apply IH|].
  rewrite Forall_app. auto.
Qed.

Lemma insert_event_wf db row hs :
  db_wf db -> (db_seq db < ev_id row <= i64_max)%Z -> db_wf (insert_event db row hs).
Proof.
  intros [Hi Hp Hh Hm Hs] Hid. split; cbn.
  - rewrite fmap_app. cbn. apply StronglySorted_snoc; [done|].
    rewrite Forall_fmap. eapply Forall_impl; [exact Hp|]. cbn. lia.
  - rewrite Forall_app. split; [|repeat constructor; lia].
    eapply Forall_impl; [exact Hp|]. cbn. lia.
  - rewrite Forall_app. split; [eapply Forall_impl; [exact Hh|]; cbn; lia|].
    rewrite Forall_fmap. apply Forall_true. cbn. lia.
  - done.
  - lia.
Qed.

(** Headers of old events are unchanged by an insert; the new event has its own. *)
Lemma headers_of_insert_old db row hs id :
  id <> ev_id row -> headers_of (insert_event db row hs) id = headers_of db id.
Proof.
  intros Hne. unfold headers_of. cbn. rewrite filter_app.
  assert (filter (fun h : Z * (string * string) => fst h = id)
            ((fun h => (ev_id row, h)) <$> hs) = []) as ->; [|by rewrite app_nil_r].
  induction hs as [|h hs IH]; [done|]. rewrite fmap_cons, filter_cons_False; [done|]. cbn. done.
Qed.

Lemma headers_of_insert_new db row hs :
  db_wf db -> (db_seq db < ev_id row)%Z ->
  headers_of (insert_event db row hs) (ev_id row) = sort_headers hs.
Proof.
  intros Hwf Hid. unfold headers_of. cbn. rewrite filter_app.
  assert (filter (fun h => fst h = ev_id row) (db_event_headers db) = []) as ->.
  { pose proof (wf_headers _ Hwf) as Hh.
    induction Hh as [|h l Hh _ IH]; [done|]. rewrite filter_cons_False; [done|]. lia. }
  cbn [app]. f_equal.
  induction hs as [|h hs IH]; [done|]. rewrite fmap_cons, filter_cons_True by done.
  rewrite fmap_cons. cbn. by rewrite IH.
Qed.

(** The events with their headers, in order: what [AUDIT_SELECT] groups to. *)
Definition events_with_headers (db : world_db) : list (EventRow * list (string * string)) :=
  (fun e => (e, headers_of db (ev_id e))) <$> db_events db.

Lemma events_with_headers_insert db row hs :
  db_wf db -> (db_seq db < ev_id row)%Z ->
  events_with_headers (insert_event db row hs)
  = events_with_headers db ++ [(row, sort_headers hs)].
Proof.
  intros Hwf Hid. unfold events_with_headers.
  change (db_events (insert_event db row hs)) with (db_events db ++ [row]).
  rewrite fmap_app. cbn [fmap list_fmap]. rewrite headers_of_insert_new by done. f_equal.
  apply list_fmap_ext. intros i e He. f_equal. apply headers_of_insert_old.
  pose proof (wf_ids_pos _ Hwf) as Hp. rewrite Forall_lookup in Hp. specialize (Hp _ _ He).
  cbn in Hp. lia.
Qed.

Lemma insert_meta_headers_Ok acc hs r :
  insert_meta_headers acc hs = Ok r -> r = acc ++ hs /\ (NoDup acc.*1 -> NoDup r.*1).
Proof.
  revert acc. induction hs as [|[n v] hs IH]; intros acc; cbn.
  - intros [= <-]. by rewrite app_nil_r.
  - case_bool_decide as Hn; [done|]. intros [-> H]%IH. rewrite <- app_assoc. split; [done|].
    intros Hd. rewrite <- app_assoc in H. apply H. rewrite fmap_app. apply NoDup_app.
    split; [done|]. split; [set_solver|]. apply NoDup_singleton.
Qed.

Lemma insert_meta_headers_NoDup acc hs :
  NoDup (acc ++ hs).*1 -> insert_meta_headers acc hs = Ok (acc ++ hs).
Proof.
  revert acc. induction hs as [|[n v] hs IH]; intros acc Hd; cbn; [by rewrite app_nil_r|].
  rewrite fmap_app, fmap_cons in Hd. rewrite bool_decide_false.
  - rewrite IH; [by rewrite <- app_assoc|]. by rewrite <- app_assoc, fmap_app.
  - intros Hn. apply NoDup_app in Hd as (_ & Hd & _). apply (Hd _ Hn). left.
Qed.

(** Positive, strictly increasing ids bound the number of events. *)
Lemma sorted_ids_length l lo hi :
  StronglySorted Z.lt l -> Forall (fun x => (lo < x <= hi)%Z) l ->
  (lo <= hi)%Z -> (Z.of_nat (length l) <= hi - lo)%Z.
Proof.
  intros Hl. revert lo. induction Hl as [|x l Hl IH Hx]; intros lo Hb Hlo; cbn; [lia|].
  apply Forall_cons in Hb as [Hxb Hb].
  assert (Z.of_nat (length l) <= hi - x)%Z; [|lia]. apply IH; [|lia].
  rewrite Forall_forall in *. intros y Hy. specialize (Hx y Hy). specialize (Hb y Hy). lia.
Qed.

Lemma event_count_le db : db_wf db -> (0 <= event_count db <= db_seq db)%Z.
Proof.
  intros [Hi Hp _ _ Hs]. unfold event_count.
  pose proof (sorted_ids_length (ev_id <$> db_events db) 0 (db_seq db)) as H.
  rewrite length_fmap in H. split; [lia|].
  assert (Z.of_nat (length (db_events db)) <= db_seq db - 0)%Z; [|lia].
  apply H; [done| |lia]. by rewrite Forall_fmap.
Qed.
