(* ===== verification/AuditVerify.v ===== *)
(** * The audit-chain verifier

    Models [core/src/audit/verifier.rs] (the row loop, [verify_event], the head
    and stamp captures), [core/src/audit/retention.rs] (CAS retention checks),
    [core/src/audit/live_body.rs] and the gates of [core/src/audit.rs] built on
    them.  A Rust function that returns [Option<VerifyBreak>] while it mutates
    the accumulator is a function to [result VerifyBreak VerifyAccumulator]. *)

From S2P Require Import Prelude.
From S2P Require Import RustStr.
From S2P Require Import Path.
From S2P Require Import Auth.
From S2P Require Import Crypto.
From S2P Require Import Types.
From S2P Require Import Db.
From Stdlib Require Import Ascii.

Record VerifyBreak := { break_at : Z; expected : string; actual : string }.

#[global] Instance VerifyBreak_eq_dec : EqDecision VerifyBreak.
Proof. solve_decision. Defined.

Definition brk (at_ : Z) (expected actual : string) : VerifyBreak :=
  {| break_at := at_; expected := expected; actual := actual |}.

Inductive AuditError :=
| ChainBroken (b : VerifyBreak)
| Storage (e : sqlite_error).

Record VerifyOk := { ok_events : Z; ok_genesis : string; ok_latest : string }.

Inductive VerifyReport := ReportValid (ok : VerifyOk) | ReportBroken (b : VerifyBreak).

Definition WORLD_FORMAT_VERSION_HEADER : string := "auditedb-world-format-version".
Definition CURRENT_WORLD_FORMAT_VERSION : Z := 2.

(** ** Retention state *)

Record CasRetentionState := {
  first_retained_seq : option Z;
  bodies : gmap string Z;
}.

Definition floor_is_unset (r : CasRetentionState) : bool :=
  bool_decide (first_retained_seq r = None).

Definition tail_unchecked : CasRetentionState :=
  {| first_retained_seq := None; bodies := ∅ |}.

Record CapturedStampCandidate := { cs_generation : string; cs_seq : Z; cs_hmac : string }.

Record VerifyAccumulator := {
  va_prev : string;
  va_genesis : string;
  va_events : Z;
  va_first_body_event : option Z;
  va_saw_floor : bool;
  va_referenced : gset string;
  va_capture_at : option Z;
  va_captured : option CapturedStampCandidate;
}.

Record ChainStamp := { st_generation : string; st_seq : Z; st_hmac : string }.

Inductive ChainStampRead :=
| StampFound (s : ChainStamp)
| StampMissing (generation : string) (requested observed : Z).

Inductive VerifyCapturedReport :=
| CapturedValid (ok : VerifyOk) (head : option ChainStamp) (stamp : option ChainStampRead)
| CapturedBroken (b : VerifyBreak).

Section Verifier.
Context `{Crypto}.

(** *** [load_hashed_bodies], [load_body_index], [load_inner] *)

Fixpoint load_hashed_bodies (rows : list (string * string)) (acc : gmap string Z)
  : result sqlite_error (gmap string Z) :=
  match rows with
  | [] => Ok acc
  | (body_sha256, body) :: rest =>
      let computed := sha256_hex body in
      _ ← ensure (ct_eq computed body_sha256)
                 (corrupt_error "cas_bodies.body does not match body_sha256");
      len ← ok_or (corrupt_error "cas_bodies.body length does not fit i64")
                  (i64_try_from (slen body));
      load_hashed_bodies rest (<[computed := len]> acc)
  end.

Fixpoint load_body_index (rows : list (string * string)) (acc : gmap string Z)
  : result sqlite_error (gmap string Z) :=
  match rows with
  | [] => Ok acc
  | (body_sha256, body) :: rest =>
      let len := slen body in
      _ ← ensure (negb (len <? 0)%Z) (corrupt_error "cas_bodies.body length is negative");
      body_sha256 ← map_err (fun _ => corrupt_error "invalid cas_bodies.body_sha256")
                            (BodySha256_new body_sha256);
      load_body_index rest (<[body_sha256 := len]> acc)
  end.

Inductive RetainedCasLoad := HashBodies | IndexShape.

(** [SELECT first_retained_seq FROM cas_state], checked by [TimelineSeq::new]. *)
Definition load_floor (db : world_db) : result sqlite_error (option Z) :=
  match db_floor db with
  | None => Ok None
  | Some seq =>
      seq ← map_err (fun _ => corrupt_error "invalid first_retained_seq")
                    (TimelineSeq_new seq);
      Ok (Some seq)
  end.

Definition load_inner (db : world_db) (mode : RetainedCasLoad)
  : result sqlite_error CasRetentionState :=
  floor ← load_floor db;
  bodies ← (match mode with
            | HashBodies => load_hashed_bodies (map_to_list (db_cas db)) ∅
            | IndexShape => load_body_index (map_to_list (db_cas db)) ∅
            end);
  _ ← ensure (negb (bool_decide (floor = None) && negb (bool_decide (bodies = ∅))))
             (corrupt_error "cas_bodies rows exist before first_retained_seq is set");
  _ ← ensure (negb (bool_decide (floor = None) && negb (bool_decide (body_events db = []))))
             (corrupt_error "body-bearing events exist before first_retained_seq is set");
  Ok {| first_retained_seq := floor; bodies := bodies |}.

Definition load (db : world_db) := load_inner db HashBodies.
Definition load_for_append (db : world_db) := load_inner db IndexShape.

(** *** [verify_retained_body] *)

Definition retained_first_body (row : EventRow) (is_body_event : bool) (idx : Z)
    (st : VerifyAccumulator) : result VerifyBreak VerifyAccumulator :=
  if is_body_event && bool_decide (va_first_body_event st = None) then
    match TimelineSeq_new (ev_id row) with
    | Ok seq =>
        Ok {| va_prev := va_prev st; va_genesis := va_genesis st;
              va_events := va_events st; va_first_body_event := Some seq;
              va_saw_floor := va_saw_floor st; va_referenced := va_referenced st;
              va_capture_at := va_capture_at st; va_captured := va_captured st |}
    | Err _ => Err (brk idx "positive body-bearing event id"
                        ("event-id-" +:+ to_string (ev_id row)))
    end
  else Ok st.

Definition note_retained (row : EventRow) (floor : Z) (body_sha256 : string)
    (st : VerifyAccumulator) : VerifyAccumulator :=
  {| va_prev := va_prev st; va_genesis := va_genesis st;
     va_events := va_events st; va_first_body_event := va_first_body_event st;
     va_saw_floor := bool_decide (ev_id row = floor) || va_saw_floor st;
     va_referenced := {[body_sha256]} ∪ va_referenced st;
     va_capture_at := va_capture_at st; va_captured := va_captured st |}.

Definition verify_retained_body (row : EventRow) (event_type : AuditEventKind) (idx : Z)
    (ret : CasRetentionState) (st : VerifyAccumulator)
  : result VerifyBreak VerifyAccumulator :=
  match first_retained_seq ret with
  | None => Ok st
  | Some floor =>
      let is_body_event := body_bearing (class event_type) in
      st ← retained_first_body row is_body_event idx st;
      if bool_decide (ev_id row = floor) && negb is_body_event then
        Err (brk idx ("body-bearing event at first_retained_seq " +:+ to_string floor)
                 (ev_event_type row))
      else if (ev_id row <? floor)%Z || negb is_body_event then Ok st
      else
        match BodySha256_new (ev_body_sha256 row) with
        | Err _ => Err (brk idx "valid body_sha256" ("body-sha256-" +:+ ev_body_sha256 row))
        | Ok body_sha256 =>
            match bodies ret !! body_sha256 with
            | None => Err (brk idx ("cas-body-" +:+ ev_body_sha256 row) "missing-cas-body")
            | Some len =>
                if negb (len =? ev_size row)%Z then
                  Err (brk idx ("cas-body-size-" +:+ to_string (ev_size row))
                           ("cas-body-size-" +:+ to_string len))
                else Ok (note_retained row floor body_sha256 st)
            end
        end
  end.

Definition verify_completion (st : VerifyAccumulator) (ret : CasRetentionState)
  : result VerifyBreak unit :=
  if negb (va_saw_floor st) then
    match first_retained_seq ret with
    | None => Err (brk (va_events st) "retention floor" "unset-retention-floor")
    | Some f =>
        Err (brk (va_events st)
               ("body-bearing event at first_retained_seq " +:+ to_string f)
               "missing-retention-floor-event")
    end
  else if negb (bool_decide (size (va_referenced st) = size (bodies ret))) then
    Err (brk (va_events st) "all CAS bodies referenced by retained events"
             "unreferenced-cas-body")
  else Ok tt.

(** *** [verify_delete_subject_proof] *)

Definition delete_subject_proof_break (idx : Z) (err : DeleteSubjectProofError) : VerifyBreak :=
  match err with
  | Missing name =>
      brk idx ("delete-subject-" +:+ name) ("missing-delete-subject-" +:+ name)
  | Duplicated name =>
      brk idx ("one-delete-subject-" +:+ name) ("duplicated-delete-subject-" +:+ name)
  | InvalidSubject name =>
      brk idx ("valid-delete-subject-" +:+ name) ("invalid-delete-subject-" +:+ name)
  | WorldMismatch =>
      brk idx "delete-subject-world-matches-target" "delete-subject-world-mismatch"
  | BodyHashMismatch =>
      brk idx "delete-subject-body-sha256-matches-row" "delete-subject-body-sha256-mismatch"
  end.

Definition verify_delete_subject_proof (row : EventRow) (headers : list (string * string))
    (event_type : AuditEventKind) (idx : Z) : result VerifyBreak unit :=
  match event_type with
  | DeleteIntent | DeleteCommit | DeleteCommitFailed =>
      target ← map_err (fun _ => brk idx "delete-target-canonical-world"
                                     ("target-" +:+ ev_target row))
                       (from_canonical (ev_target row));
      body_sha256 ← map_err (fun _ => brk idx "delete-row-body-sha256"
                                          "invalid-delete-row-body-sha256")
                            (BodySha256_new (ev_body_sha256 row));
      _ ← map_err (delete_subject_proof_break idx)
                  (delete_subject_proof_from_headers target body_sha256 headers);
      Ok tt
  | _ => Ok tt
  end.

(** *** [verify_event] *)

(** What [verify_event] signs again: the fields of the row with the chain's
    previous HMAC, world and generation. *)
Definition row_hmac_input (chain_world gen prev : string) (row : EventRow) : EventHmacInput :=
  {| hi_prev := prev; hi_world := chain_world; hi_timestamp := ev_timestamp row;
     hi_event_type := ev_event_type row; hi_target := ev_target row;
     hi_generation := gen; hi_body_sha256 := ev_body_sha256 row; hi_size := ev_size row;
     hi_content_type := ev_content_type row; hi_meta_sha256 := ev_meta_sha256 row |}.

Definition has_format_version (headers : list (string * string)) : bool :=
  existsb (fun p => bool_decide (fst p = WORLD_FORMAT_VERSION_HEADER)
                    && bool_decide (snd p = to_string CURRENT_WORLD_FORMAT_VERSION)) headers.

(** The updates at the end of [verify_event]: capture, genesis, link, count. *)
Definition note_event (row : EventRow) (gen : string) (st : VerifyAccumulator)
  : VerifyAccumulator :=
  let next_ordinal := (va_events st + 1)%Z in
  {| va_prev := ev_hmac row;
     va_genesis := if bool_decide (va_events st = 0%Z) then ev_hmac row else va_genesis st;
     va_events := next_ordinal;
     va_first_body_event := va_first_body_event st;
     va_saw_floor := va_saw_floor st;
     va_referenced := va_referenced st;
     va_capture_at := va_capture_at st;
     va_captured :=
       match va_capture_at st with
       | Some seq =>
           if bool_decide (usize_try_from seq = Some next_ordinal)
           then Some {| cs_generation := gen; cs_seq := seq; cs_hmac := hmac_label (ev_hmac row) |}
           else va_captured st
       | None => va_captured st
       end |}.

(** The checks of one row that do not look at the retention state. *)
Definition verify_row (key chain_world gen : string) (prev : string) (idx : Z)
    (row : EventRow) (headers : list (string * string)) : result VerifyBreak AuditEventKind :=
  event_type ← ok_or (brk idx "known-event-type" ("event-type-" +:+ ev_event_type row))
                     (from_storage (ev_event_type row));
  let target_bound := body_bearing (class event_type) || bool_decide (event_type = Format) in
  _ ← ensure (negb (target_bound && negb (bool_decide (chain_world = ev_target row))))
             (brk idx ("target-" +:+ chain_world) ("target-" +:+ ev_target row));
  _ ← ensure (ct_eq (ev_prev_hmac row) prev)
             (brk idx (hmac_label prev) (hmac_label (ev_prev_hmac row)));
  _ ← ensure (negb (bool_decide (event_type = Format) && negb (has_format_version headers)))
             (brk idx (WORLD_FORMAT_VERSION_HEADER +:+ "-"
                       +:+ to_string CURRENT_WORLD_FORMAT_VERSION)
                  "missing-world-format-version");
  _ ← verify_delete_subject_proof row headers event_type idx;
  let expected_meta := meta_sha256_canonical (ev_content_type row) headers in
  _ ← ensure (ct_eq expected_meta (ev_meta_sha256 row))
             (brk idx ("meta-sha256-" +:+ expected_meta)
                  ("meta-sha256-" +:+ ev_meta_sha256 row));
  _ ← ensure (is_canonical_sqlite_utc_timestamp (ev_timestamp row))
             (brk idx "timestamp-sqlite-utc-ms" ("timestamp-" +:+ ev_timestamp row));
  let expected_hmac := event_hmac key (row_hmac_input chain_world gen prev row) in
  _ ← ensure (ct_eq expected_hmac (ev_hmac row))
             (brk idx (hmac_label expected_hmac) (hmac_label (ev_hmac row)));
  Ok event_type.

Definition verify_event (key chain_world gen : string) (ret : CasRetentionState)
    (row : EventRow) (headers : list (string * string)) (st : VerifyAccumulator)
  : result VerifyBreak VerifyAccumulator :=
  let idx := va_events st in
  event_type ← verify_row key chain_world gen (va_prev st) idx row headers;
  st ← verify_retained_body row event_type idx ret st;
  Ok (note_event row gen st).

(** *** The row loop of [verify_statement_capture] *)

Record loop_state := {
  lp_state : VerifyAccumulator;
  lp_current : option EventRow;
  lp_headers : list (string * string);
}.

Definition loop_row (key chain_world gen : string) (ret : CasRetentionState)
    (r : EventRow * option (string * string)) (lp : loop_state)
  : result VerifyBreak loop_state :=
  let '(row, header) := r in
  lp ← (match lp_current lp with
        | Some event =>
            if bool_decide (ev_id event <> ev_id row) then
              st ← verify_event key chain_world gen ret event (lp_headers lp) (lp_state lp);
              Ok {| lp_state := st; lp_current := None; lp_headers := [] |}
            else Ok lp
        | None => Ok lp
        end);
  Ok {| lp_state := lp_state lp;
        lp_current := match lp_current lp with Some e => Some e | None => Some row end;
        lp_headers := match header with
                      | Some h => lp_headers lp ++ [h]
                      | None => lp_headers lp
                      end |}.

Fixpoint loop_rows (key chain_world gen : string) (ret : CasRetentionState)
    (rows : list (EventRow * option (string * string))) (lp : loop_state)
  : result VerifyBreak loop_state :=
  match rows with
  | [] => Ok lp
  | r :: rows =>
      lp ← loop_row key chain_world gen ret r lp;
      loop_rows key chain_world gen ret rows lp
  end.

Definition init_state (ret : CasRetentionState) (capture : option Z) : VerifyAccumulator :=
  {| va_prev := ""; va_genesis := ""; va_events := 0; va_first_body_event := None;
     va_saw_floor := floor_is_unset ret; va_referenced := ∅;
     va_capture_at := capture; va_captured := None |}.

Definition verified_head_from_ok (gen : string) (ok : VerifyOk)
  : result sqlite_error (option ChainStamp) :=
  if bool_decide (ok_events ok = 0%Z) then Ok None
  else
    seq ← ok_or (InvalidParameterName
                   "verified audit chain event count exceeds supported range")
                (ChainSeq_from_verified_count (ok_events ok));
    Ok (Some {| st_generation := gen; st_seq := seq; st_hmac := ok_latest ok |}).

Definition verified_stamp_from_completed_walk (gen : string) (requested : option Z)
    (st : VerifyAccumulator) : option ChainStampRead :=
  (fun seq =>
     match va_captured st with
     | Some c => StampFound {| st_generation := cs_generation c; st_seq := cs_seq c;
                               st_hmac := cs_hmac c |}
     | None => StampMissing gen seq (va_events st)
     end) <$> requested.

(** The loop, the last event, the completion checks. *)
Definition walk (key chain_world gen : string) (ret : CasRetentionState)
    (capture : option Z) (rows : list (EventRow * option (string * string)))
  : result VerifyBreak VerifyAccumulator :=
  lp ← loop_rows key chain_world gen ret rows
         {| lp_state := init_state ret capture; lp_current := None; lp_headers := [] |};
  st ← (match lp_current lp with
        | Some event => verify_event key chain_world gen ret event (lp_headers lp) (lp_state lp)
        | None => Ok (lp_state lp)
        end);
  _ ← verify_completion st ret;
  Ok st.

Definition verify_statement_capture (db : world_db) (key : string) (allow_empty : bool)
    (ret : CasRetentionState) (chain_world gen : string) (capture : option Z)
  : result sqlite_error VerifyCapturedReport :=
  match walk key chain_world gen ret capture (audit_select db) with
  | Err b => Ok (CapturedBroken b)
  | Ok st =>
      if bool_decide (va_events st = 0%Z) && negb allow_empty then
        Ok (CapturedBroken (brk 0 "at-least-one-event" "no-events"))
      else
        let ok :=
          if bool_decide (va_events st = 0%Z) then
            {| ok_events := 0; ok_genesis := hmac_label ""; ok_latest := hmac_label "" |}
          else {| ok_events := va_events st; ok_genesis := hmac_label (va_genesis st);
                  ok_latest := hmac_label (va_prev st) |} in
        head ← verified_head_from_ok gen ok;
        Ok (CapturedValid ok head (verified_stamp_from_completed_walk gen capture st))
  end.

Definition verify_statement (db : world_db) (key : string) (allow_empty : bool)
    (ret : CasRetentionState) (chain_world gen : string) : result sqlite_error VerifyReport :=
  r ← verify_statement_capture db key allow_empty ret chain_world gen None;
  Ok (match r with
      | CapturedValid ok _ _ => ReportValid ok
      | CapturedBroken b => ReportBroken b
      end).
End Verifier.
