(* ===== verification/AuditGates.v ===== *)
(** * Gates built on the verifier

    Models the functions of [core/src/audit.rs] that open a transaction and run
    the verifier (full verification, append authority, the O(1) tail check of
    ordinary reads, chain head and chain stamp), [core/src/audit/live_body.rs],
    [verify_tail_body_tx] of [core/src/audit/retention.rs] and the read
    transaction [read_with_hmac_via_conn] of [core/src/world.rs]. *)

From S2P Require Import Prelude.
From S2P Require Import RustStr.
From S2P Require Import Path.
From S2P Require Import Auth.
From S2P Require Import Crypto.
From S2P Require Import Types.
From S2P Require Import Db.
From S2P Require Import AuditVerify.
From Stdlib Require Import Ascii.

Inductive EmptyChain := Allow | Reject.

(** The authority to append: the world, its generation and the key the
    transaction was verified under. *)
Record VerifiedAuditTx := { atx_key : string; atx_world : string; atx_generation : string }.

(** The proof a process caches after a full verification. *)
Record VerifiedAuditPrefix := { vp_world : string }.

Record Stage := {
  stage_body : string;
  stage_content_type : string;
  stage_headers : list (string * string);
}.

Section Gates.
Context `{Crypto}.

Definition storage {A} (r : result sqlite_error A) : result AuditError A := map_err Storage r.

Definition require_intact (report : VerifyReport) : result AuditError unit :=
  match report with
  | ReportValid _ => Ok tt
  | ReportBroken b => Err (ChainBroken b)
  end.

(** [Option<VerifyBreak>] results turned into errors by the callers. *)
Definition require_none (r : result sqlite_error (option VerifyBreak))
  : result AuditError unit :=
  o ← storage r;
  match o with Some b => Err (ChainBroken b) | None => Ok tt end.

(** *** [live_body.rs] *)

Definition latest_body_event_tx (db : world_db) : option (Z * string * Z) :=
  (fun e => (ev_id e, ev_body_sha256 e, ev_size e)) <$> last (body_events db).

Definition live_body_head_break (live_body : string) (latest : option (Z * string * Z))
    (count : Z) : option VerifyBreak :=
  let live_hash := sha256_hex live_body in
  let live_size := default i64_max (i64_try_from (slen live_body)) in
  let at_ := saturating_sub count 1 in
  match latest with
  | None =>
      if bool_decide (live_body = "") then None
      else Some (brk at_ "latest body-bearing event" ("live-body-sha256-" +:+ live_hash))
  | Some (_, body_sha256, sz) =>
      if negb (ct_eq live_hash body_sha256) then
        Some (brk at_ ("live-body-sha256-" +:+ body_sha256) ("live-body-sha256-" +:+ live_hash))
      else if negb (sz =? live_size)%Z then
        Some (brk at_ ("live-body-size-" +:+ to_string sz)
                      ("live-body-size-" +:+ to_string live_size))
      else None
  end.

(** [live_body::verify_tx]; [stage_meta] exists in a database of the verified
    shape. *)
Definition live_body_verify_tx (db : world_db) : result sqlite_error (option VerifyBreak) :=
  Ok (live_body_head_break (db_body db) (latest_body_event_tx db) (event_count db)).

(** *** The latest event and its checks *)

(** [AUDIT_TAIL_SELECT]; every row of it has the same event id. *)
Definition latest_event_with_headers_tx (db : world_db)
  : option (EventRow * list (string * string)) :=
  e ← last (db_events db);
  Some (e, headers_of db (ev_id e)).

Definition verify_tail_event (row : EventRow) (headers : list (string * string))
    (key chain_world gen prev_hmac : string) (count : Z) : option VerifyBreak :=
  let ret := tail_unchecked in
  let st := {| va_prev := prev_hmac; va_genesis := "";
               va_events := saturating_sub count 1; va_first_body_event := None;
               va_saw_floor := floor_is_unset ret; va_referenced := ∅;
               va_capture_at := None; va_captured := None |} in
  match verify_event key chain_world gen ret row headers st with
  | Ok _ => None
  | Err b => Some b
  end.

Definition verify_tail_body_tx (db : world_db) (row : EventRow) (idx : Z)
  : result sqlite_error (option VerifyBreak) :=
  match from_storage (ev_event_type row) with
  | None => Ok None
  | Some event_type =>
      let is_body_event := body_bearing (class event_type) in
      floor ← load_floor db;
      match floor with
      | None =>
          if is_body_event then Ok (Some (brk idx "retention floor" "unset-retention-floor"))
          else Ok None
      | Some floor =>
          if bool_decide (ev_id row = floor) && negb is_body_event then
            Ok (Some (brk idx ("body-bearing event at first_retained_seq " +:+ to_string floor)
                          (ev_event_type row)))
          else if (ev_id row <? floor)%Z || negb is_body_event then Ok None
          else
            match BodySha256_new (ev_body_sha256 row) with
            | Err _ =>
                Ok (Some (brk idx "valid body_sha256" ("body-sha256-" +:+ ev_body_sha256 row)))
            | Ok body_sha256 =>
                match db_cas db !! body_sha256 with
                | None =>
                    Ok (Some (brk idx ("cas-body-" +:+ ev_body_sha256 row) "missing-cas-body"))
                | Some body =>
                    let computed := sha256_hex body in
                    _ ← ensure (ct_eq computed body_sha256)
                          (corrupt_error "cas_bodies.body does not match body_sha256");
                    len ← ok_or (corrupt_error "cas_bodies.body length does not fit i64")
                                (i64_try_from (slen body));
                    if negb (len =? ev_size row)%Z then
                      Ok (Some (brk idx ("cas-body-size-" +:+ to_string (ev_size row))
                                    ("cas-body-size-" +:+ to_string len)))
                    else Ok None
                end
            end
      end
  end.

Definition verify_current_tail_body_tx (db : world_db)
  : result sqlite_error (option VerifyBreak) :=
  match latest_event_with_headers_tx db with
  | None => Ok None
  | Some (tail, _) => verify_tail_body_tx db tail (saturating_sub (event_count db) 1)
  end.

Definition require_current_tail_intact_tx (db : world_db) (world_name key : string)
  : result AuditError unit :=
  gen ← storage (generation db);
  let count := event_count db in
  match latest_event_with_headers_tx db with
  | None => Err (ChainBroken (brk 0 "at-least-one-event" "no-events"))
  | Some (tail, headers) =>
      let prev := previous_hmac_tx db (ev_id tail) in
      _ ← (match verify_tail_event tail headers key world_name gen prev count with
           | Some b => Err (ChainBroken b)
           | None => Ok tt
           end);
      _ ← require_none (verify_tail_body_tx db tail (saturating_sub count 1));
      require_none (live_body_verify_tx db)
  end.

(** *** Full verification *)

Definition verify_world_tx (db : world_db) (world_name key : string)
  : result sqlite_error VerifyReport :=
  gen ← generation db;
  ret ← load db;
  verify_statement db key false ret world_name gen.

Definition require_world_intact_tx (db : world_db) (world key : string)
  : result AuditError unit :=
  report ← storage (verify_world_tx db world key);
  _ ← require_intact report;
  require_none (live_body_verify_tx db).

(** [verify_chain_via_conn]: a broken live body is reported, not an error. *)
Definition verify_chain_via_conn (db : world_db) (world key : string)
  : result sqlite_error VerifyReport :=
  report ← verify_world_tx db world key;
  match report with
  | ReportBroken b => Ok (ReportBroken b)
  | ReportValid ok =>
      o ← live_body_verify_tx db;
      Ok (match o with Some b => ReportBroken b | None => ReportValid ok end)
  end.

(** *** Append authority *)

Definition verify_appendable_tx_full (db : world_db) (world_name key : string)
    (empty_chain : EmptyChain) : result AuditError (VerifiedAuditTx * VerifiedAuditPrefix) :=
  gen ← storage (generation db);
  ret ← storage (load_for_append db);
  let allow_empty := match empty_chain with Allow => true | Reject => false end in
  report ← storage (verify_statement db key allow_empty ret world_name gen);
  _ ← require_intact report;
  _ ← require_none (verify_current_tail_body_tx db);
  _ ← require_none (live_body_verify_tx db);
  Ok ({| atx_key := key; atx_world := world_name; atx_generation := gen |},
      {| vp_world := world_name |}).

Definition verify_appendable_tx_existing_tail_checked (db : world_db)
    (prefix : VerifiedAuditPrefix) (key : string) : result AuditError VerifiedAuditTx :=
  let world_name := vp_world prefix in
  gen ← storage (generation db);
  _ ← storage (load_for_append db);
  _ ← require_current_tail_intact_tx db world_name key;
  Ok {| atx_key := key; atx_world := world_name; atx_generation := gen |}.

(** *** Chain head and stamp *)

Definition chain_head_via_conn (db : world_db) (world key : string)
  : result AuditError (option ChainStamp) :=
  gen ← storage (generation db);
  ret ← storage (load db);
  report ← storage (verify_statement_capture db key true ret world gen None);
  match report with
  | CapturedValid _ head _ => Ok head
  | CapturedBroken b => Err (ChainBroken b)
  end.

Definition chain_stamp_via_conn (db : world_db) (world : string) (seq : Z) (key : string)
  : result AuditError ChainStampRead :=
  gen ← storage (generation db);
  ret ← storage (load db);
  report ← storage (verify_statement_capture db key true ret world gen (Some seq));
  match report with
  | CapturedValid _ _ (Some stamp) => Ok stamp
  | CapturedValid _ _ None =>
      Err (Storage (InvalidParameterName "audit stamp verifier did not return a stamp result"))
  | CapturedBroken b => Err (ChainBroken b)
  end.

(** *** Ordinary reads *)

Definition read_with_hmac_via_conn (db : world_db) (world key : string)
  : result AuditError (Stage * option string) :=
  _ ← require_current_tail_intact_tx db world key;
  Ok ({| stage_body := db_body db; stage_content_type := db_content_type db;
         stage_headers := select_meta_headers db |},
      latest_hmac db).
End Gates.
