(* ===== verification/AuditAppend.v ===== *)
(** * Appending signed rows

    Models [core/src/audit/append.rs].  The clock of [AuditTimestamp::now_tx]
    ([strftime('now')] of SQLite) is the argument [now] of each append. *)

From S2P Require Import Prelude.
From S2P Require Import RustStr.
From S2P Require Import Path.
From S2P Require Import Auth.
From S2P Require Import Crypto.
From S2P Require Import Types.
From S2P Require Import Db.
From S2P Require Import AuditVerify.
From S2P Require Import AuditGates.
From Stdlib Require Import Ascii.

Record AppendedAuditRow := {
  ar_world : string;
  ar_id : Z;
  ar_hmac : string;
  ar_generation : string;
  ar_event_type : AuditEventKind;
  ar_target : string;
  ar_body_sha256 : string;
  ar_size : Z;
  ar_content_type : string;
}.

Record AppendedBodyAuditRow := {
  br_row : AppendedAuditRow;
  br_timeline_address : TimelineAddress;
}.

(** The proof that this transaction retained a body in CAS storage. *)
Record RetainedCasBody := {
  rc_target : string;
  rc_body_sha256 : string;
  rc_size : Z;
  rc_inserted : bool;
}.

Section Append.
Context `{Crypto}.

Definition AuditTimestamp_now (now : string) : result sqlite_error string :=
  if is_canonical_sqlite_utc_timestamp now then Ok now
  else Err (InvalidParameterName ("invalid audit timestamp: " +:+ now)).

(** An AUTOINCREMENT table refuses an insert above the largest rowid. *)
Definition rowid_exhausted : string := "database or disk is full".

(** The row [append_tx_inner] inserts. *)
Definition signed_row (atx : VerifiedAuditTx) (id : Z) (now prev : string)
    (event_type : AuditEventKind) (target body_sha256 : string) (size : Z)
    (content_type : string) (canonical : list (string * string)) : EventRow :=
  let meta_sha256 := meta_sha256_canonical content_type canonical in
  {| ev_id := id;
     ev_timestamp := now;
     ev_event_type := as_str event_type;
     ev_target := target;
     ev_body_sha256 := body_sha256;
     ev_size := size;
     ev_content_type := content_type;
     ev_meta_sha256 := meta_sha256;
     ev_hmac := event_hmac (atx_key atx)
       {| hi_prev := prev; hi_world := atx_world atx; hi_timestamp := now;
          hi_event_type := as_str event_type; hi_target := target;
          hi_generation := atx_generation atx; hi_body_sha256 := body_sha256;
          hi_size := size; hi_content_type := content_type; hi_meta_sha256 := meta_sha256 |};
     ev_prev_hmac := prev |}.

Definition append_tx_inner (atx : VerifiedAuditTx) (now : string) (event_type : AuditEventKind)
    (target body_sha256 : string) (size : Z) (content_type : string)
    (headers : list (string * string)) (db : world_db)
  : result sqlite_error (AppendedAuditRow * world_db) :=
  let canonical := canonical_headers headers in
  timestamp ← AuditTimestamp_now now;
  let prev := default "" (latest_hmac db) in
  let event_id := next_rowid db in
  _ ← ensure (event_id <=? i64_max)%Z (SqliteFailure DiskFull (Some rowid_exhausted));
  let row := signed_row atx event_id timestamp prev event_type target body_sha256 size
               content_type canonical in
  let db := insert_event db row canonical in
  id ← map_err (fun _ => InvalidQuery) (TimelineSeq_new event_id);
  Ok ({| ar_world := atx_world atx; ar_id := id; ar_hmac := ev_hmac row;
         ar_generation := atx_generation atx; ar_event_type := event_type;
         ar_target := target; ar_body_sha256 := body_sha256; ar_size := size;
         ar_content_type := content_type |}, db).

Definition format_headers : list (string * string) :=
  [(WORLD_FORMAT_VERSION_HEADER, to_string CURRENT_WORLD_FORMAT_VERSION)].

Definition append_format_tx_row (atx : VerifiedAuditTx) (now : string) (db : world_db)
  : result sqlite_error (AppendedAuditRow * world_db) :=
  append_tx_inner atx now Format (atx_world atx) (sha256_hex "") 0 "" format_headers db.

(** The retained-body proof carries its transaction, which the model has one
    of at a time; the target check is the one the caller can fail. *)
Definition append_retained_body_tx_row (atx : VerifiedAuditTx) (now : string)
    (event_type : AuditEventKind) (retained : RetainedCasBody) (content_type : string)
    (headers : list (string * string)) (db : world_db)
  : result sqlite_error (AppendedBodyAuditRow * world_db) :=
  _ ← ensure (bool_decide (rc_target retained = atx_world atx)) InvalidQuery;
  '(row, db) ← append_tx_inner atx now event_type (rc_target retained)
                 (rc_body_sha256 retained) (rc_size retained) content_type headers db;
  Ok ({| br_row := row;
         br_timeline_address :=
           {| ta_world := rc_target retained; ta_gen := ar_generation row;
              ta_seq := ar_id row; ta_body_sha256 := rc_body_sha256 retained |} |}, db).

(** [append_with_conn_existing_row] and [append_with_conn_genesis_row]: one
    transaction each; an error leaves the caller with the old file. *)
Definition append_with_conn_existing_row (now : string) (event_type : AuditEventKind)
    (ledger_world target body_sha256 : string) (size : Z) (content_type : string)
    (headers : AuditHeaders) (key : string) (db : world_db)
  : result AuditError (AppendedAuditRow * world_db) :=
  '(atx, _) ← verify_appendable_tx_full db ledger_world key Reject;
  storage (append_tx_inner atx now event_type target body_sha256 size content_type
             (to_storage_pairs headers) db).

Definition append_with_conn_genesis_row (now_format now : string) (event_type : AuditEventKind)
    (ledger_world target body_sha256 : string) (size : Z) (content_type : string)
    (headers : AuditHeaders) (key : string) (db : world_db)
  : result AuditError (AppendedAuditRow * AppendedAuditRow * world_db) :=
  '(atx, _) ← verify_appendable_tx_full db ledger_world key Allow;
  '(format_row, db) ← storage (append_format_tx_row atx now_format db);
  '(row, db) ← storage (append_tx_inner atx now event_type target body_sha256 size
                          content_type (to_storage_pairs headers) db);
  Ok (format_row, row, db).
End Append.
