(* ===== verification/Cas.v ===== *)
(** * Content-addressed body retention

    Models [core/src/world/cas.rs]: retaining a body, starting retention,
    pruning to the retained count, and the estimates of the quota preflight. *)

From S2P Require Import Prelude.
From S2P Require Import RustStr.
From S2P Require Import Path.
From S2P Require Import Auth.
From S2P Require Import Crypto.
From S2P Require Import Types.
From S2P Require Import Db.
From S2P Require Import AuditVerify.
From S2P Require Import AuditGates.
From S2P Require Import AuditAppend.
From Stdlib Require Import Ascii.

Inductive WriteAuditError :=
| Audit (e : AuditError)
| Sqlite (e : sqlite_error)
| CasBodyMismatch (body_sha256 : string)
| StorageInvariant (reason : string).

Definition sqlite {A} (r : result sqlite_error A) : result WriteAuditError A := map_err Sqlite r.

(** [defaults.rs]. *)
Definition DEFAULT_RETAINED_BODY_COUNT : Z := 1024.
Definition MAX_RETAINED_BODY_COUNT : Z := 65536.

Definition RetainedBodyCount_new (value : Z) : option Z :=
  if (0 <? value)%Z && (value <=? MAX_RETAINED_BODY_COUNT)%Z && (value <=? i64_max)%Z
  then Some value else None.

Record PrunedCas := { pruned_bytes : Z }.
Definition PrunedCas_default : PrunedCas := {| pruned_bytes := 0 |}.

Record ReplaceQuotaSnapshot := {
  previous_body_len : Z;
  candidate_cas_len : Z;
  prunable_cas_len : Z;
}.

Definition nonnegative_usize (value : Z) (column : Z) : result sqlite_error Z :=
  ok_or (FromSqlConversionFailure column) (usize_try_from (Z.max value 0)).

(** ** Queries of the pruning statements *)

(** The id of the [n]-th body event counted from the end, or of the first one
    when there are fewer: [... ORDER BY id DESC LIMIT n], then the smallest. *)
Definition floor_of_last (n : Z) (evs : list EventRow) : option Z :=
  ev_id <$> last (take (Z.to_nat n) (reverse evs)).

(** Body hashes of body events below and from a floor. *)
Definition hashes_below (floor : Z) (evs : list EventRow) : gset string :=
  list_to_set (ev_body_sha256 <$> filter (fun e => (ev_id e < floor)%Z) evs).
Definition hashes_from (floor : Z) (evs : list EventRow) : gset string :=
  list_to_set (ev_body_sha256 <$> filter (fun e => (floor <= ev_id e)%Z) evs).

(** [SUM(length(body))] over a part of [cas_bodies]. *)
Definition sum_len (m : gmap string string) : Z :=
  map_fold (fun _ b acc => slen b + acc)%Z 0%Z m.

(** The rows of [cas_prune_candidates]: bodies of old events no retained event
    names. *)
Definition prune_candidates (floor : Z) (evs : list EventRow) (cas : gmap string string)
  : gmap string string :=
  filter (fun p => fst p ∈ hashes_below floor evs /\ fst p ∉ hashes_from floor evs) cas.

Section Cas.
Context `{Crypto}.

Definition retain_body_tx (target body : string) (db : world_db)
  : result WriteAuditError (RetainedCasBody * world_db) :=
  let body_sha256 := sha256_hex body in
  size ← ok_or (StorageInvariant "body length does not fit i64") (i64_try_from (slen body));
  let '(inserted, db) :=
    match db_cas db !! body_sha256 with
    | Some _ => (false, db)
    | None => (true, set_cas (<[body_sha256 := body]> (db_cas db)) (db_floor db) db)
    end in
  let stored_len := slen <$> db_cas db !! body_sha256 in
  _ ← ensure (bool_decide (stored_len = Some size)) (CasBodyMismatch body_sha256);
  Ok ({| rc_target := target; rc_body_sha256 := body_sha256; rc_size := size;
         rc_inserted := inserted |}, db).

(** [SELECT id ... WHERE event_type IN ('put','append') ORDER BY id ASC LIMIT 1]. *)
Definition first_body_event_seq_tx (db : world_db) : result WriteAuditError Z :=
  e ← sqlite (ok_or QueryReturnedNoRows (head (body_events db)));
  map_err (fun _ => StorageInvariant "body event id invalid") (TimelineSeq_new (ev_id e)).

Definition body_event_exists_tx (db : world_db) (seq : Z) : bool :=
  existsb (fun e => bool_decide (ev_id e = seq)) (body_events db).

Definition mark_retention_started_tx (event_id : Z) (db : world_db)
  : result WriteAuditError world_db :=
  match db_floor db with
  | Some floor =>
      floor ← map_err (fun _ => StorageInvariant "cas_state first_retained_seq invalid")
                      (TimelineSeq_new floor);
      _ ← ensure (body_event_exists_tx db floor)
            (StorageInvariant "cas_state first_retained_seq does not point at a body event");
      _ ← ensure (negb (event_id <? floor)%Z)
            (StorageInvariant "cas_state first_retained_seq is ahead of event row");
      Ok db
  | None =>
      first ← first_body_event_seq_tx db;
      _ ← ensure (bool_decide (first = event_id))
            (StorageInvariant "cas retention cannot start after existing body events");
      Ok (set_cas (db_cas db) (Some event_id) db)
  end.

Definition retained_floor_for_count_tx (retained : Z) (db : world_db)
  : result WriteAuditError (option Z) :=
  limit ← ok_or (StorageInvariant "retained body count exceeds i64") (i64_try_from retained);
  match floor_of_last limit (body_events db) with
  | None => Ok None
  | Some seq =>
      seq ← map_err (fun _ => StorageInvariant "body event id invalid") (TimelineSeq_new seq);
      Ok (Some seq)
  end.

Definition prune_to_count_tx (retained : Z) (db : world_db)
  : result WriteAuditError (PrunedCas * world_db) :=
  new_floor ← retained_floor_for_count_tx retained db;
  match new_floor with
  | None => Ok (PrunedCas_default, db)
  | Some new_floor =>
      current ← (match db_floor db with
                 | None => Ok None
                 | Some seq =>
                     seq ← map_err (fun _ =>
                              StorageInvariant "cas_state first_retained_seq invalid")
                            (TimelineSeq_new seq);
                     Ok (Some seq)
                 end);
      if match current with Some floor => (new_floor <=? floor)%Z | None => false end
      then Ok (PrunedCas_default, db)
      else
        let candidates := prune_candidates new_floor (body_events db) (db_cas db) in
        let pruned := sum_len candidates in
        let cas := db_cas db ∖ candidates in
        _ ← ensure (bool_decide (filter (fun p => is_Some (candidates !! fst p)) cas = ∅))
              (StorageInvariant "old CAS bodies remain after retention prune");
        let db := set_cas cas (Some new_floor) db in
        bytes ← sqlite (nonnegative_usize pruned 0);
        Ok ({| pruned_bytes := bytes |}, db)
  end.

(** ** The quota preflight *)

Definition missing_body_len (db : world_db) (body : string) : Z :=
  if bool_decide (is_Some (db_cas db !! sha256_hex body)) then 0 else slen body.

Definition EstimatedRetentionFloor_new (seq : Z) : result sqlite_error Z :=
  map_err (fun _ => corrupt_error "estimated retention floor is not a positive event id")
          (TimelineSeq_new seq).

Definition retained_floor_after_next_body (db : world_db) (retained : Z)
  : result sqlite_error (option Z) :=
  match i64_try_from retained with
  | None => Ok None
  | Some retained_limit =>
      let existing_body_rows := Z.of_nat (length (body_events db)) in
      if (Z.min (existing_body_rows + 1) i64_max <? retained_limit)%Z then Ok None
      else if (retained_limit =? 1)%Z then
        let next_event_id :=
          (foldr (fun e m => Z.max (ev_id e) m) 0%Z (db_events db) + 1)%Z in
        floor ← EstimatedRetentionFloor_new next_event_id;
        Ok (Some floor)
      else
        match floor_of_last (retained_limit - 1) (body_events db) with
        | None => Ok None
        | Some seq => floor ← EstimatedRetentionFloor_new seq; Ok (Some floor)
        end
  end.

Definition prunable_body_len_after_next_body (db : world_db) (body : string) (retained : Z)
  : result sqlite_error Z :=
  new_floor ← retained_floor_after_next_body db retained;
  match new_floor with
  | None => Ok 0%Z
  | Some new_floor =>
      current ← (match db_floor db with
                 | None => Ok None
                 | Some seq =>
                     seq ← map_err (fun _ =>
                              corrupt_error "cas_state first_retained_seq invalid")
                            (TimelineSeq_new seq);
                     Ok (Some seq)
                 end);
      if match current with Some floor => (new_floor <=? floor)%Z | None => false end
      then Ok 0%Z
      else
        let candidate := sha256_hex body in
        let pruned :=
          sum_len (filter (fun p => fst p <> candidate)
                     (prune_candidates new_floor (body_events db) (db_cas db))) in
        nonnegative_usize pruned 0
  end.

(** [replace_quota_snapshot]: [None] is a world whose file does not exist. *)
Definition replace_quota_snapshot (odb : option world_db) (body : string) (retained : Z)
  : result sqlite_error ReplaceQuotaSnapshot :=
  match odb with
  | None => Ok {| previous_body_len := 0; candidate_cas_len := slen body;
                  prunable_cas_len := 0 |}
  | Some db =>
      prev ← nonnegative_usize (slen (db_body db)) 0;
      prunable ← prunable_body_len_after_next_body db body retained;
      Ok {| previous_body_len := prev; candidate_cas_len := missing_body_len db body;
            prunable_cas_len := prunable |}
  end.

Definition append_body_len_if_missing (odb : option world_db) (append_body : string)
  : result sqlite_error (option Z) :=
  Ok ((fun db => missing_body_len db (db_body db +:+ append_body)) <$> odb).

Definition append_prunable_body_len_after_next_write (odb : option world_db)
    (append_body : string) (retained : Z) : result sqlite_error (option Z) :=
  match odb with
  | None => Ok None
  | Some db =>
      n ← prunable_body_len_after_next_body db (db_body db +:+ append_body) retained;
      Ok (Some n)
  end.

(** [storage_usage_inner]. *)
Record StorageUsageSnapshot := {
  current_body_bytes : Z;
  retained_cas_body_bytes : Z;
  audit_chain_events : Z;
}.

Definition total_body_bytes (u : StorageUsageSnapshot) : Z :=
  saturating_add (current_body_bytes u) (retained_cas_body_bytes u).

Definition storage_usage_inner (odb : option world_db)
  : result sqlite_error (option StorageUsageSnapshot) :=
  match odb with
  | None => Ok None
  | Some db =>
      current_len ← nonnegative_usize (slen (db_body db)) 0;
      retained_len ← nonnegative_usize (sum_len (db_cas db)) 0;
      _ ← ok_or (IntegralValueOutOfRange 0 i64_max) (checked_add current_len retained_len);
      events ← nonnegative_usize (event_count db) 0;
      Ok (Some {| current_body_bytes := current_len;
                  retained_cas_body_bytes := retained_len;
                  audit_chain_events := events |})
  end.
End Cas.
