(* ===== verification/WorldWrite.v ===== *)
(** * Audited writes to one world file

    Models the write transactions of [core/src/world.rs]:
    [write_with_audit_checked_retaining_on_conn],
    [append_with_audit_retaining_on_conn] and the choice of the append gate.
    The per-process cache of verified worlds ([AuditVerificationCache] of
    [core/src/state.rs]) is a set of world names threaded through. *)

From S2P Require Import Prelude.
From S2P Require Import RustStr.
From S2P Require Import Path.
From S2P Require Import Auth.
From S2P Require Import Crypto.
From S2P Require Import Types.
From S2P Require Import Db.
From S2P Require Import AuditVerify.
From S2P Require Import AuditGates.
From S2P Require Import AuditAppend.
From S2P Require Import Cas.
From Stdlib Require Import Ascii.

Inductive OpenedWorldKind := Created | Existing.

Definition AuditVerificationCache := gset string.

Definition mark_verified (p : VerifiedAuditPrefix) (c : AuditVerificationCache)
  : AuditVerificationCache := {[vp_world p]} ∪ c.
Definition unmark (world : string) (c : AuditVerificationCache) : AuditVerificationCache :=
  c ∖ {[world]}.
Definition verified_prefix (c : AuditVerificationCache) (world : string)
  : option VerifiedAuditPrefix :=
  if bool_decide (world ∈ c) then Some {| vp_world := world |} else None.

Inductive AuditChainOpening := OpenGenesis | OpenExisting.

Record WriteAuditResult := {
  wr_hmac : string;
  wr_cas_body_inserted : bool;
  wr_pruned_cas : PrunedCas;
  wr_format_event : option AppendedAuditRow;
  wr_body_event : AppendedBodyAuditRow;
  wr_existed : bool;
}.

Record AppendAuditResult := {
  ap_cas_body_inserted : bool;
  ap_pruned_cas : PrunedCas;
  ap_format_event : option AppendedAuditRow;
  ap_body_event : AppendedBodyAuditRow;
}.

Section Write.
Context `{Crypto}.

Definition is_empty_bootstrap_tx (db : world_db) : bool :=
  (event_count db =? 0)%Z && bool_decide (db_event_headers db = [])
  && bool_decide (db_meta_headers db = []) && (slen (db_body db) =? 0)%Z.

Definition audit_chain_opening (db : world_db) (opened : OpenedWorldKind) : AuditChainOpening :=
  match opened with
  | Created => OpenGenesis
  | Existing => if is_empty_bootstrap_tx db then OpenGenesis else OpenExisting
  end.

(** The append authority, whether it is the genesis of the chain, and the
    prefix proof a full verification earned. *)
Definition verify_appendable_world_tx (db : world_db) (cache : AuditVerificationCache)
    (world key : string) (opened : OpenedWorldKind)
  : result WriteAuditError (VerifiedAuditTx * bool * option VerifiedAuditPrefix) :=
  match audit_chain_opening db opened with
  | OpenGenesis =>
      '(atx, prefix) ← map_err Audit (verify_appendable_tx_full db world key Allow);
      Ok (atx, true, Some prefix)
  | OpenExisting =>
      match verified_prefix cache world with
      | Some prefix =>
          atx ← map_err Audit (verify_appendable_tx_existing_tail_checked db prefix key);
          Ok (atx, false, None)
      | None =>
          '(atx, prefix) ← map_err Audit (verify_appendable_tx_full db world key Reject);
          Ok (atx, false, Some prefix)
      end
  end.

Definition append_format_if (is_genesis : bool) (atx : VerifiedAuditTx) (now : string)
    (db : world_db) : result WriteAuditError (option AppendedAuditRow * world_db) :=
  if is_genesis then
    '(row, db) ← sqlite (append_format_tx_row atx now db);
    Ok (Some row, db)
  else Ok (None, db).

Definition cache_prefix (prefix : option VerifiedAuditPrefix) (cache : AuditVerificationCache)
  : AuditVerificationCache :=
  match prefix with Some p => mark_verified p cache | None => cache end.

(** The whole transaction of a replace; the file and the cache are returned
    only when it commits. *)
Definition write_with_audit_checked_retaining_on_conn
    (opened : OpenedWorldKind) (cache : AuditVerificationCache) (world body content_type : string)
    (headers : list (string * string)) (key : string) (retained_body_count : Z)
    (now_format now : string) (db : world_db)
  : result WriteAuditError (WriteAuditResult * AuditVerificationCache * world_db) :=
  '(atx, is_genesis, prefix) ← verify_appendable_world_tx db cache world key opened;
  '(format_event, db) ← append_format_if is_genesis atx now_format db;
  '(retained, db) ← retain_body_tx world body db;
  meta ← sqlite (insert_meta_headers [] headers);
  let db := set_stage body content_type meta db in
  '(row, db) ← sqlite (append_retained_body_tx_row atx now Put retained content_type headers db);
  db ← mark_retention_started_tx (ar_id (br_row row)) db;
  '(pruned, db) ← prune_to_count_tx retained_body_count db;
  Ok ({| wr_hmac := ar_hmac (br_row row); wr_cas_body_inserted := rc_inserted retained;
         wr_pruned_cas := pruned; wr_format_event := format_event; wr_body_event := row;
         wr_existed := match opened with Existing => true | Created => false end |},
      cache_prefix prefix cache, db).

Definition append_with_audit_retaining_on_conn
    (cache : AuditVerificationCache) (world body content_type : string)
    (headers : list (string * string)) (key : string) (retained_body_count : Z)
    (now_format now : string) (db : world_db)
  : result WriteAuditError (AppendAuditResult * string * AuditVerificationCache * world_db) :=
  '(atx, is_genesis, prefix) ← verify_appendable_world_tx db cache world key Existing;
  '(format_event, db) ← append_format_if is_genesis atx now_format db;
  let new_body := db_body db +:+ body in
  '(retained, db) ← retain_body_tx world new_body db;
  let db := set_stage new_body (db_content_type db) (db_meta_headers db) db in
  '(row, db) ← sqlite (append_retained_body_tx_row atx now Append retained content_type
                         headers db);
  db ← mark_retention_started_tx (ar_id (br_row row)) db;
  '(pruned, db) ← prune_to_count_tx retained_body_count db;
  Ok ({| ap_cas_body_inserted := rc_inserted retained; ap_pruned_cas := pruned;
         ap_format_event := format_event; ap_body_event := row |},
      ar_hmac (br_row row), cache_prefix prefix cache, db).

(** [metadata]: what an append reads before it writes. *)
Definition metadata (odb : option world_db)
  : option (Z * string * list (string * string)) :=
  (fun db => (slen (db_body db), db_content_type db, select_meta_headers db)) <$> odb.
End Write.
