(* ===== verification/SchemaSql.v ===== *)
(** * The schema text of a world file

    Models [normalized_schema_sql] of [core/src/world_schema.rs], which compares
    the text SQLite stores for a table with the text the code expects, and the
    reference it is proved against: the tokens of the text.  Two texts have the
    same normal form exactly when they have the same tokens, trailing semicolons
    apart.  Text is UTF-8; every byte of a character above 127 is neither white
    space, a quote nor a word character, so bytes are as good as characters. *)

From S2P Require Import Prelude.
From S2P Require Import RustStr.
From Stdlib Require Import Ascii.

Definition quote_char : ascii := "'"%char.

(** [char::is_ascii_whitespace]. *)
Definition is_ascii_whitespace (c : ascii) : bool :=
  (bv c =? 32)%Z || (bv c =? 9)%Z || (bv c =? 10)%Z || (bv c =? 12)%Z || (bv c =? 13)%Z.

Definition is_sql_word_char (c : ascii) : bool := is_ascii_alphanumeric c || ascii_eqb c "_"%char.

(** ** The normal form *)

(** Where the loop is: outside a string, in the inner loop that skips white
    space, or inside a string. *)
Inductive scan_state := InCode | InSpace | InString.

Definition is_word (prev : option ascii) : bool :=
  match prev with Some c => is_sql_word_char c | None => false end.

(** The space pushed when the inner loop ends between two words. *)
Definition pushed_space (st : scan_state) (prev : option ascii) (ch : ascii) (out : string) : string :=
  match st with
  | InSpace => if is_word prev && is_sql_word_char ch then String " " out else out
  | _ => out
  end.

(** The main loop; [prev] is the last character of the output so far. *)
Fixpoint scan (st : scan_state) (prev : option ascii) (s : string) : string :=
  match s with
  | "" => ""
  | String ch rest =>
      match st with
      | InString =>
          if ascii_eqb ch quote_char then
            match rest with
            | String c rest' =>
                if ascii_eqb c quote_char then String ch (String c (scan InString (Some c) rest'))
                else String ch (scan InCode (Some ch) rest)
            | "" => String ch ""
            end
          else String ch (scan InString (Some ch) rest)
      | _ =>
          if ascii_eqb ch quote_char then String ch (scan InString (Some ch) rest)
          else if is_ascii_whitespace ch then scan InSpace prev rest
          else pushed_space st prev ch (String ch (scan InCode (Some ch) rest))
      end
  end.

(** [trim_end_matches]. *)
Fixpoint trim_end_matches (c : ascii) (s : string) : string :=
  match s with
  | "" => ""
  | String x rest =>
      match trim_end_matches c rest with
      | "" => if ascii_eqb x c then "" else String x ""
      | rest' => String x rest'
      end
  end.

Definition normalized_schema_sql (sql : string) : string :=
  trim_end_matches ";" (scan InCode None sql).

(** ** The reference: tokens *)

(** A word is a maximal run of word characters; a quoted string is kept as it is
    written, its doubled quotes included. *)
Inductive sql_token :=
| Word (w : string)
| Symbol (c : ascii)
| Quoted (text : string)
| Unterminated (text : string).

#[global] Instance sql_token_eq_dec : EqDecision sql_token.
Proof. solve_decision. Defined.

Inductive lex_state := Between | InWord (w : string) | InQuote (text : string).

Fixpoint lex (st : lex_state) (s : string) : list sql_token :=
  match s with
  | "" => match st with Between => [] | InWord w => [Word w] | InQuote q => [Unterminated q] end
  | String c rest =>
      match st with
      | InQuote q =>
          if ascii_eqb c quote_char then
            match rest with
            | String d rest' =>
                if ascii_eqb d quote_char then lex (InQuote (q +:+ "''")) rest'
                else Quoted q :: lex Between rest
            | "" => [Quoted q]
            end
          else lex (InQuote (q +:+ String c "")) rest
      | InWord w =>
          if is_sql_word_char c then lex (InWord (w +:+ String c "")) rest
          else Word w :: (if ascii_eqb c quote_char then lex (InQuote "") rest
                          else if is_ascii_whitespace c then lex Between rest
                          else Symbol c :: lex Between rest)
      | Between =>
          if is_sql_word_char c then lex (InWord (String c "")) rest
          else if ascii_eqb c quote_char then lex (InQuote "") rest
          else if is_ascii_whitespace c then lex Between rest
          else Symbol c :: lex Between rest
      end
  end.

Definition sql_tokens (s : string) : list sql_token := lex Between s.

(** The text of tokens, with a space only between two words. *)
Fixpoint render (after_word : bool) (l : list sql_token) : string :=
  match l with
  | [] => ""
  | Word w :: l => (if after_word then " " else "") +:+ w +:+ render true l
  | Symbol c :: l => String c (render false l)
  | Quoted q :: l => "'" +:+ q +:+ "'" +:+ render false l
  | Unterminated q :: l => "'" +:+ q +:+ render false l
  end.

(** White space between two quoted strings is dropped like any other, which
    turns them into one string with a doubled quote. *)
Definition glue_quote (q : string) (l : list sql_token) : list sql_token :=
  match l with
  | Quoted b :: l => Quoted (q +:+ "''" +:+ b) :: l
  | Unterminated b :: l => Unterminated (q +:+ "''" +:+ b) :: l
  | _ => Quoted q :: l
  end.

Fixpoint glue (l : list sql_token) : list sql_token :=
  match l with
  | [] => []
  | Quoted q :: l => glue_quote q (glue l)
  | t :: l => t :: glue l
  end.

(** ** The normal form is the text of the tokens *)

Lemma word_not_special c :
  is_sql_word_char c = true -> ascii_eqb c quote_char = false /\ is_ascii_whitespace c = false.
Proof.
  destruct c as [[] [] [] [] [] [] [] []]; vm_compute; intros; try done.
Qed.

Lemma word_quote c : is_sql_word_char c = true -> ascii_eqb c quote_char = false.
Proof. intros Hw. by apply word_not_special. Qed.

Lemma word_space c : is_sql_word_char c = true -> is_ascii_whitespace c = false.
Proof. intros Hw. by apply word_not_special. Qed.

Lemma space_word c : is_ascii_whitespace c = true -> is_sql_word_char c = false.
Proof. intros Hs. destruct (is_sql_word_char c) eqn:Hw; [|done]. by rewrite word_space in Hs. Qed.

Lemma quote_word c : ascii_eqb c quote_char = true -> is_sql_word_char c = false.
Proof. intros Hs. destruct (is_sql_word_char c) eqn:Hw; [|done]. by rewrite word_quote in Hs. Qed.

(** Both automata look at most two characters ahead. *)
Lemma string_two_ind (P : string -> Prop) :
  P "" -> (forall c s, P s -> (forall d t, s = String d t -> P t) -> P (String c s)) -> forall s, P s.
Proof.
  intros H0 HS s. enough (P s /\ forall d t, s = String d t -> P t) by naive_solver.
  induction s as [|c s [IH IH2]]; [done|]. split; [by apply HS|]. by intros d t [= <- <-].
Qed.

(** Decide what kind of character [c] is and rewrite with it. *)
Ltac char_kind c :=
  let Hw := fresh "Hw" in let Hq := fresh "Hq" in let Hs := fresh "Hs" in
  destruct (ascii_eqb c quote_char) eqn:Hq;
  [ pose proof (quote_word c Hq) as Hw
  | destruct (is_ascii_whitespace c) eqn:Hs;
    [ pose proof (space_word c Hs) as Hw | destruct (is_sql_word_char c) eqn:Hw ] ];
  cbn; rewrite ?Hw, ?Hq, ?Hs; cbn; rewrite ?Hw, ?Hq, ?Hs; cbn.

Lemma lex_word_head w c s :
  exists v l, lex (InWord w) (String c s) = Word v :: l.
Proof.
  revert w c. induction s as [|d s IH]; intros w c; cbn [lex]; destruct (is_sql_word_char c); eauto.
Qed.

(** What has been read of a quoted string is a prefix of its token. *)
Definition prepend (a : string) (l : list sql_token) : list sql_token :=
  match l with
  | Quoted b :: l => Quoted (a +:+ b) :: l
  | Unterminated b :: l => Unterminated (a +:+ b) :: l
  | l => l
  end.

Lemma lex_prepend s : forall a b, lex (InQuote (a +:+ b)) s = prepend a (lex (InQuote b) s).
Proof.
  induction s as [|c s IH IH2] using string_two_ind; intros a b; [done|]. cbn [lex].
  destruct (ascii_eqb c quote_char) eqn:Hq; [|by rewrite <- IH, sapp_assoc].
  destruct s as [|d t]; [done|]. destruct (ascii_eqb d quote_char); [|done].
  by rewrite <- (IH2 d t), sapp_assoc.
Qed.

Definition quoted_head (l : list sql_token) : Prop :=
  exists b l', l = Quoted b :: l' \/ l = Unterminated b :: l'.

Lemma lex_quote_head s : forall q, quoted_head (lex (InQuote q) s).
Proof.
  induction s as [|c s IH IH2] using string_two_ind; intros q; [by exists q, []; right|]. cbn [lex].
  destruct (ascii_eqb c quote_char); [|apply IH].
  destruct s as [|d t]; [by exists q, []; left|]. destruct (ascii_eqb d quote_char); [by apply (IH2 d t)|].
  by eexists _, _; left.
Qed.

Lemma glue_quoted l a : quoted_head l -> glue (prepend a l) = prepend a (glue l) /\ quoted_head (glue l).
Proof.
  intros (b & l' & [-> | ->]); cbn.
  - destruct (glue l') as [|[] r]; cbn; rewrite ?sapp_assoc; (split; [done|]); eexists _, _; eauto.
  - split; [done|]. eexists _, _; eauto.
Qed.

Lemma glue_quote_quoted q l : quoted_head l -> glue_quote q l = prepend (q +:+ "''") l.
Proof. intros (b & l' & [-> | ->]); cbn; by rewrite sapp_assoc. Qed.

Lemma lex_word_cons w s : exists v l, lex (InWord w) s = Word v :: l.
Proof. destruct s; [by exists w, []|apply lex_word_head]. Qed.

(** After a character that is no quote, a quoted string is closed. *)
Lemma lex_close q c s :
  ascii_eqb c quote_char = false ->
  lex (InQuote q) (String quote_char (String c s)) = Quoted q :: lex Between (String c s).
Proof. intros Hq. cbn. by rewrite Hq. Qed.

Lemma glue_quote_plain q c s :
  ascii_eqb c quote_char = false -> is_ascii_whitespace c = false ->
  glue_quote q (glue (lex Between (String c s))) = Quoted q :: glue (lex Between (String c s)).
Proof.
  intros Hq Hs. cbn [lex]. rewrite Hq, Hs. destruct (is_sql_word_char c); [|done].
  by destruct (lex_word_cons (String c "") s) as (v & l & ->).
Qed.

(** The tokens of the normal form are those of the text. *)
Lemma lex_scan s :
  (forall p, is_word p = false -> lex Between (scan InCode p s) = glue (lex Between s)) /\
  (forall w c, is_sql_word_char c = true ->
     lex (InWord w) (scan InCode (Some c) s) = glue (lex (InWord w) s)) /\
  (forall p, is_word p = false -> lex Between (scan InSpace p s) = glue (lex Between s)) /\
  (forall w c, is_sql_word_char c = true ->
     lex (InWord w) (scan InSpace (Some c) s) = Word w :: glue (lex Between s)) /\
  (forall q p, lex (InQuote q) (scan InString p s) = glue (lex (InQuote q) s)) /\
  (forall q p, is_word p = false ->
     lex (InQuote q) (String quote_char (scan InSpace p s)) = glue_quote q (glue (lex Between s))).
Proof.
  induction s as [|c s (IHA & IHB & IHC & IHD & IHE & IHF) IH2] using string_two_ind; [done|].
  split; [|split; [|split; [|split; [|split]]]].
  - intros p Hp. char_kind c; auto. f_equal. auto.
  - intros w d Hd. char_kind c; rewrite ?IHE, ?IHD by done; auto.
    f_equal. f_equal. auto.
  - intros p Hp. char_kind c; rewrite ?Hp; cbn; rewrite ?Hw, ?Hq, ?Hs; auto. f_equal. auto.
  - intros w d Hd. char_kind c; rewrite ?Hd; cbn; rewrite ?Hw, ?Hq, ?Hs; rewrite ?IHE; auto.
    + change (is_sql_word_char " ") with false. change (is_ascii_whitespace " ") with true. cbn.
      f_equal. auto.
    + do 2 f_equal. auto.
  - intros q p. destruct (ascii_eqb c quote_char) eqn:Hq.
    2: { cbn [scan lex]. rewrite Hq. cbn [lex]. rewrite Hq. apply IHE. }
    apply ascii_eqb_spec in Hq as ->. destruct s as [|d t]; [done|].
    destruct (ascii_eqb d quote_char) eqn:Hd.
    + apply ascii_eqb_spec in Hd as ->. by apply (IH2 _ t eq_refl).
    + transitivity (glue_quote q (glue (lex Between (String d t)))).
      2: { change (lex (InQuote q) (String quote_char (String d t)))
             with (if ascii_eqb d quote_char then lex (InQuote (q +:+ "''")) t
                   else Quoted q :: lex Between (String d t)). by rewrite Hd. }
      change (scan InString p (String quote_char (String d t)))
        with (if ascii_eqb d quote_char then String quote_char (String d (scan InString (Some d) t))
              else String quote_char (scan InCode (Some quote_char) (String d t))).
      rewrite Hd. destruct (is_ascii_whitespace d) eqn:Hs.
      * cbn [scan lex]. rewrite (space_word d) by done. rewrite Hd, Hs. by apply (IH2 d t).
      * rewrite glue_quote_plain by done. rewrite <- (IHA (Some quote_char)) by done.
        cbn [scan]. rewrite Hd, Hs. cbn [pushed_space]. by rewrite lex_close.
  - intros q p Hp. destruct (ascii_eqb c quote_char) eqn:Hq.
    + cbn [scan]. rewrite Hq. cbn [lex]. rewrite Hq, (quote_word c) by done. rewrite ascii_eqb_refl.
      rewrite IHE. destruct (glue_quoted _ (q +:+ "''") (lex_quote_head s "")) as [Hg Hh].
      rewrite glue_quote_quoted by done. rewrite <- Hg, <- lex_prepend. by rewrite sapp_nil_r.
    + destruct (is_ascii_whitespace c) eqn:Hs.
      * cbn [scan lex]. rewrite (space_word c) by done. rewrite Hq, Hs. by apply IHF.
      * rewrite glue_quote_plain by done. cbn [scan]. rewrite Hq, Hs. cbn [pushed_space]. rewrite Hp. cbn [andb].
        rewrite lex_close by done. cbn [lex]. rewrite Hq, Hs.
        destruct (is_sql_word_char c) eqn:Hw; [by rewrite IHB|]. by rewrite IHA.
Qed.

(** The normal form is the text of the tokens. *)
Lemma scan_render s :
  (forall p, is_word p = false -> scan InCode p s = render false (lex Between s)) /\
  (forall (b : bool) w c, is_sql_word_char c = true ->
     (if b then " " else "" : string) +:+ w +:+ scan InCode (Some c) s = render b (lex (InWord w) s)) /\
  (forall p, scan InSpace p s = render (is_word p) (lex Between s)) /\
  (forall b q p, "'" +:+ q +:+ scan InString p s = render b (lex (InQuote q) s)).
Proof.
  induction s as [|c s (IHA & IHB & IHC & IHE) IH2] using string_two_ind.
  { split_and!; try done; intros; by cbn; rewrite ?sapp_nil_r. }
  split; [|split; [|split]].
  - intros p Hp. char_kind c.
    + apply ascii_eqb_spec in Hq as ->. apply (IHE false "").
    + rewrite IHC. by rewrite Hp.
    + apply (IHB false (String c "") c Hw).
    + f_equal. by apply IHA.
  - intros b w d Hd. char_kind c.
    + apply ascii_eqb_spec in Hq as ->. by rewrite <- (IHE true "" (Some quote_char)).
    + rewrite IHC. cbn. by rewrite Hd.
    + rewrite <- IHB with (c := c) by done. by rewrite !sapp_assoc.
    + by rewrite IHA.
  - intros p. char_kind c.
    + apply ascii_eqb_spec in Hq as ->. apply (IHE _ "").
    + apply IHC.
    + rewrite <- (IHB (is_word p) (String c "") c Hw). by destruct (is_word p).
    + destruct (is_word p); cbn; f_equal; by apply IHA.
  - intros b q p. cbn [scan lex]. destruct (ascii_eqb c quote_char) eqn:Hq.
    + apply ascii_eqb_spec in Hq as ->. destruct s as [|d t]; [done|].
      destruct (ascii_eqb d quote_char) eqn:Hd.
      * apply ascii_eqb_spec in Hd as ->. rewrite <- (proj2 (proj2 (proj2 (IH2 _ t eq_refl))) b _ (Some quote_char)).
        by rewrite !sapp_assoc.
      * cbn [render]. by rewrite <- (IHA (Some quote_char)).
    + rewrite <- (IHE b (q +:+ String c "") (Some c)). by rewrite !sapp_assoc.
Qed.

Lemma render_glue l : forall b, render b (glue l) = render b l.
Proof.
  induction l as [|t l IH]; intros b; [done|]. destruct t; cbn [glue render]; rewrite <- ?IH; try done.
  destruct (glue l) as [|[] r]; cbn; by rewrite ?sapp_assoc.
Qed.

(** Two texts have the same normal form, trailing semicolons apart, exactly when
    they have the same tokens, quoted strings glued. *)
Lemma scan_exact a b :
  scan InCode None a = scan InCode None b <-> glue (sql_tokens a) = glue (sql_tokens b).
Proof.
  pose proof (lex_scan a) as (Ha & _). pose proof (lex_scan b) as (Hb & _).
  pose proof (scan_render a) as (Ra & _). pose proof (scan_render b) as (Rb & _). split; intros He.
  - unfold sql_tokens. by rewrite <- (Ha None), <- (Hb None), He.
  - rewrite (Ra None), (Rb None), <- (render_glue (lex Between a)) by done. unfold sql_tokens in He.
    by rewrite He, render_glue.
Qed.

(** ** Trailing semicolons *)

Fixpoint repeat_char (k : nat) (c : ascii) : string :=
  match k with 0%nat => "" | S k => String c (repeat_char k c) end.

Lemma trim_split c s : exists k, s = trim_end_matches c s +:+ repeat_char k c.
Proof.
  induction s as [|x s (k & IH)]; [by exists 0%nat|]. cbn.
  destruct (trim_end_matches c s) as [|y t]; cbn in IH; [|by exists k; cbn; rewrite IH at 1].
  subst s. destruct (ascii_eqb x c) eqn:Hx; [|by exists k].
  apply ascii_eqb_spec in Hx as ->. by exists (S k).
Qed.

Lemma trim_repeat c k : trim_end_matches c (repeat_char k c) = "".
Proof. induction k as [|k IH]; [done|]. cbn. by rewrite IH, ascii_eqb_refl. Qed.

Lemma trim_app_repeat c s k : trim_end_matches c (s +:+ repeat_char k c) = trim_end_matches c s.
Proof.
  induction s as [|x s IH]; [by rewrite sapp_nil_l, trim_repeat|].
  rewrite sapp_cons. cbn [trim_end_matches]. by rewrite IH.
Qed.

Lemma lex_semicolons k : lex Between (repeat_char k ";") = replicate k (Symbol ";").
Proof. induction k as [|k IH]; [done|]. cbn. by rewrite IH. Qed.

Lemma render_semicolons b l k :
  render b (l ++ replicate k (Symbol ";")) = render b l +:+ repeat_char k ";".
Proof.
  revert b. induction l as [|t l IH]; intros b.
  - cbn [render app]. rewrite sapp_nil_l. induction k as [|k IHk] in b |- *; [done|]. cbn. f_equal. apply IHk.
  - destruct t; cbn; rewrite IH; by rewrite ?sapp_assoc.
Qed.

(** A token that no glueing produces. *)
Fixpoint has_quote (s : string) : bool :=
  match s with "" => false | String c s => ascii_eqb c quote_char || has_quote s end.

Definition plain_token (t : sql_token) : bool :=
  match t with Quoted q => negb (has_quote q) | Unterminated _ => false | _ => true end.

Lemma has_quote_app a b : has_quote (a +:+ b) = has_quote a || has_quote b.
Proof.
  induction a as [|c a IH]; [done|]. rewrite sapp_cons. cbn [has_quote]. by rewrite IH, orb_assoc.
Qed.

Lemma plain_glue l : Forall (fun t => plain_token t = true) (glue l) -> glue l = l.
Proof.
  induction l as [|t l IH]; [done|]. destruct t as [w|c|q|q]; cbn [glue]; intros Hp.
  - apply Forall_cons in Hp as [_ Hp]. by rewrite IH.
  - apply Forall_cons in Hp as [_ Hp]. by rewrite IH.
  - destruct (glue l) as [|[] r]; cbn in Hp; apply Forall_cons in Hp as [Hq Hp];
      cbn in Hq; rewrite ?has_quote_app in Hq; cbn in Hq; rewrite ?orb_true_r in Hq; try done;
      cbn; by rewrite IH.
  - by apply Forall_cons in Hp as [Hq Hp].
Qed.

(** A semicolon after a text that ends outside a quoted string is a token. *)
Lemma lex_then_semicolon r s : forall st,
  Forall (fun t => plain_token t = true \/ exists q, t = Quoted q) (lex st s) ->
  lex st (s +:+ String ";" r) = lex st s ++ Symbol ";" :: lex Between r.
Proof.
  induction s as [|c s IH IH2] using string_two_ind; intros st Hp.
  - destruct st as [|w|q]; [done..|]. cbn in Hp. apply Forall_cons in Hp as [[?|[? ?]] _]; done.
  - rewrite sapp_cons. destruct st as [|w|q]; cbn [lex] in *.
    + repeat case_match; cbn [app] in *; rewrite ?IH; try done; by apply Forall_cons in Hp as [_ ?].
    + repeat case_match; cbn [app] in *; rewrite ?IH; try done;
        repeat (apply Forall_cons in Hp as [_ Hp]); done.
    + destruct (ascii_eqb c quote_char); [|by apply IH].
      destruct s as [|d t]; [done|]. rewrite sapp_cons.
      destruct (ascii_eqb d quote_char); [by apply (IH2 d t)|].
      apply Forall_cons in Hp as [_ Hp]. rewrite <- sapp_cons, IH by done. done.
Qed.

(** A text the code compares with: its normal form ends outside a string and
    without a semicolon, and it has no doubled quotes. *)
Record plain_text (e : string) : Prop := {
  pt_plain : Forall (fun t => plain_token t = true) (sql_tokens e);
  pt_glued : glue (sql_tokens e) = sql_tokens e;
  pt_trimmed : normalized_schema_sql e = scan InCode None e;
}.

(** The same statement: the same tokens, and any number of final semicolons. *)
Definition same_statement (sql expected : string) : Prop :=
  exists k, sql_tokens sql = sql_tokens expected ++ replicate k (Symbol ";").

Lemma normalized_exact sql e :
  plain_text e -> normalized_schema_sql sql = normalized_schema_sql e <-> same_statement sql e.
Proof.
  intros [Hp Hg Ht]. rewrite Ht. unfold normalized_schema_sql, same_statement.
  pose proof (lex_scan sql) as (Hl & _). specialize (Hl None eq_refl).
  pose proof (lex_scan e) as (He & _). specialize (He None eq_refl). split.
  - intros Heq. destruct (trim_split ";" (scan InCode None sql)) as (k & Hk). rewrite Heq in Hk.
    exists k. assert (Hk' : lex Between (scan InCode None e +:+ repeat_char k ";")
      = lex Between (scan InCode None e) ++ replicate k (Symbol ";")).
    { destruct k as [|k]; cbn [repeat_char replicate]; [by rewrite sapp_nil_r, app_nil_r|].
      rewrite lex_then_semicolon, lex_semicolons; [done|]. rewrite He. unfold sql_tokens in Hg. rewrite Hg.
      eapply Forall_impl; [exact Hp|]. by left. }
    rewrite Hk, Hk', He in Hl. unfold sql_tokens in *. rewrite Hg in Hl.
    rewrite Hl. symmetry. apply plain_glue. rewrite <- Hl. apply Forall_app. split; [done|].
    by apply Forall_replicate.
  - intros (k & Hk). pose proof (scan_render sql) as (Hr & _). pose proof (scan_render e) as (Hr' & _).
    rewrite (Hr None) by done. unfold sql_tokens in Hk. rewrite Hk, render_semicolons.
    rewrite <- (Hr' None), trim_app_repeat by done. exact Ht.
Qed.
