(* ===== verification/StorageClass.v ===== *)
(** * Classes of storage failures

    Models [core/src/storage_class.rs].  The text of an error is what the crate
    [rusqlite] displays: a parameter.  Its error code is the one [SqliteFailure]
    carries.  Also the join error of [core/src/blocking_sqlite.rs]. *)

From S2P Require Import Prelude.
From S2P Require Import RustStr.
From S2P Require Import Db.

Class Rusqlite := { error_to_string : sqlite_error -> string }.

Inductive StorageFailureClass := Transient | InsufficientStorage | Other.

#[global] Instance StorageFailureClass_eq_dec : EqDecision StorageFailureClass.
Proof. solve_decision. Defined.

(** [str::contains]. *)
Fixpoint contains_str (needle s : string) : bool :=
  starts_with needle s
  || match s with "" => false | String _ s => contains_str needle s end.

Definition sqlite_error_code (err : sqlite_error) : option sqlite_code :=
  match err with SqliteFailure code _ => Some code | _ => None end.

(** A worker that did not return: cancelled by the runtime, or panicked. *)
Record BlockingJoinError := { join_is_cancelled : bool }.

Section Classify.
Context `{Rusqlite}.

Definition is_transient_storage_error (err : sqlite_error) : bool :=
  bool_decide (sqlite_error_code err = Some DatabaseBusy)
  || bool_decide (sqlite_error_code err = Some DatabaseLocked)
  || let msg := to_ascii_lowercase (error_to_string err) in
     contains_str "database is locked" msg || contains_str "database table is locked" msg.

Definition is_insufficient_storage_error (err : sqlite_error) : bool :=
  bool_decide (sqlite_error_code err = Some DiskFull)
  || let msg := to_ascii_lowercase (error_to_string err) in
     contains_str "database or disk is full" msg || contains_str "disk is full" msg
     || contains_str "no space left" msg || contains_str "not enough space" msg.

(** What [Display] of an error with a message prints. *)
Class RusqliteLaws : Prop := {
  failure_text : forall code msg, error_to_string (SqliteFailure code (Some msg)) = msg;
}.

Definition classify_storage_failure (err : sqlite_error) : StorageFailureClass :=
  if is_insufficient_storage_error err then InsufficientStorage
  else if is_transient_storage_error err then Transient
  else Other.
End Classify.

(** A message none of the searches finds. *)
Definition harmless (msg : string) : bool :=
  let msg := to_ascii_lowercase msg in
  negb (existsb (fun part => contains_str part msg)
          ["database or disk is full"; "disk is full"; "no space left"; "not enough space";
           "database is locked"; "database table is locked"]).

Lemma classify_corrupt `{RusqliteLaws} msg :
  harmless msg = true -> classify_storage_failure (corrupt_error msg) = Other.
Proof.
  unfold harmless, classify_storage_failure, is_insufficient_storage_error, is_transient_storage_error, corrupt_error.
  rewrite failure_text. cbn [existsb sqlite_error_code]. intros Hh%negb_true_iff.
  repeat (apply orb_false_iff in Hh as [? Hh]). rewrite !bool_decide_false by done. cbn [orb].
  repeat match goal with E : contains_str _ _ = false |- _ => rewrite E; clear E end. done.
Qed.
