(* ===== verification/WorldSchema.v ===== *)
(** * The schema of a world file, and opening it

    Models [core/src/world_schema.rs] and the functions of [core/src/world.rs]
    that open, create and delete a world's file, one level below [Db]: a file is
    the rows of [sqlite_schema] and the rows of the tables the schema check
    reads, with values of any SQLite type.  Statements outside a transaction
    commit one by one, so a failure leaves what ran before it.  [TEXT] values are
    UTF-8.  Objects SQLite makes for itself ([sqlite_sequence], automatic
    indexes) are left out: no query asks for them. *)

From S2P Require Import Prelude.
From S2P Require Import RustStr.
From S2P Require Import Crypto.
From S2P Require Import Types.
From S2P Require Import Db.
From S2P Require Import WorldWrite.
From S2P Require Import SchemaSql.
From S2P Require Import StorageClass.
From Stdlib Require Import Ascii.

(** ** A file as SQLite sees it *)

Inductive sql_value :=
| SqlNull
| SqlInteger (n : Z)
| SqlReal (text : string)
| SqlText (s : string)
| SqlBlob (s : string).

#[global] Instance sql_value_eq_dec : EqDecision sql_value.
Proof. solve_decision. Defined.

Definition typeof (v : sql_value) : string :=
  match v with
  | SqlNull => "null" | SqlInteger _ => "integer" | SqlReal _ => "real"
  | SqlText _ => "text" | SqlBlob _ => "blob"
  end.

(** [row.get] at a type. *)
Definition get_string (column : Z) (v : sql_value) : result sqlite_error string :=
  match v with SqlText s => Ok s | _ => Err (InvalidColumnType column) end.

Definition get_i64 (column : Z) (v : sql_value) : result sqlite_error Z :=
  match v with SqlInteger n => Ok n | _ => Err (InvalidColumnType column) end.

Definition get_blob (column : Z) (v : sql_value) : result sqlite_error string :=
  match v with SqlBlob s => Ok s | _ => Err (InvalidColumnType column) end.

Record schema_entry := {
  se_type : string;
  se_name : string;
  se_tbl_name : string;
  se_sql : option string;
}.

#[global] Instance schema_entry_eq_dec : EqDecision schema_entry.
Proof. solve_decision. Defined.

Record raw_world := {
  rw_schema : list schema_entry;
  rw_stage_columns : list string;
  rw_stage_meta : list (Z * sql_value);
  rw_world_format : list (Z * sql_value);
  rw_cas_state : list (Z * sql_value);
  rw_cas_bodies : list (sql_value * sql_value);
}.

Definition empty_file : raw_world := {|
  rw_schema := []; rw_stage_columns := []; rw_stage_meta := []; rw_world_format := [];
  rw_cas_state := []; rw_cas_bodies := [] |}.

Definition is_entry (ty name : string) (e : schema_entry) : bool :=
  bool_decide (se_type e = ty) && bool_decide (se_name e = name).

(** [... FROM sqlite_schema WHERE type=ty AND name=name], its first row. *)
Definition find_entry (ty name : string) (raw : raw_world) : option schema_entry :=
  head (filter (fun e => is_entry ty name e = true) (rw_schema raw)).

(** ** The texts *)

Definition CURRENT_WORLD_FORMAT_VERSION : Z := 2.

Definition WORLD_FORMAT_TABLE_SQL : string := "
CREATE TABLE world_format(
    id INTEGER PRIMARY KEY CHECK(id=1),
    version INTEGER NOT NULL
        CHECK(typeof(version)='integer')
        CHECK(version=2)
)
".

Definition CAS_BODIES_TABLE_SQL : string := "
CREATE TABLE cas_bodies(
    body_sha256 TEXT NOT NULL PRIMARY KEY
        CHECK(typeof(body_sha256)='text')
        CHECK(length(body_sha256)=64)
        CHECK(body_sha256 NOT GLOB '*[^0-9a-f]*'),
    body BLOB NOT NULL
        CHECK(typeof(body)='blob')
) WITHOUT ROWID
".

Definition CAS_STATE_TABLE_SQL : string := "
CREATE TABLE cas_state(
    id INTEGER PRIMARY KEY CHECK(id=1),
    first_retained_seq INTEGER
        CHECK(
            first_retained_seq IS NULL OR
            (typeof(first_retained_seq)='integer' AND first_retained_seq > 0)
        )
)
".

Definition EVENT_HEADERS_EVENT_ID_INDEX_NAME : string := "idx_event_headers_event_id".
Definition EVENT_HEADERS_EVENT_ID_INDEX_SHAPE_SQL : string :=
  "CREATE INDEX idx_event_headers_event_id ON event_headers(event_id)".

(** ** Checks *)

(** [schema_error] is [corrupt_error]. *)
Definition require_table (raw : raw_world) (table : string) : result sqlite_error unit :=
  match find_entry "table" table raw with
  | Some _ => Ok tt
  | None => Err (corrupt_error ("missing required table: " +:+ table))
  end.

Definition verify_exact_table (raw : raw_world) (table expected_sql : string)
  : result sqlite_error unit :=
  sql ← ok_or (corrupt_error ("missing required table: " +:+ table))
          (find_entry "table" table raw ≫= se_sql);
  ensure (bool_decide (normalized_schema_sql sql = normalized_schema_sql expected_sql))
    (corrupt_error ("schema mismatch for required table: " +:+ table)).

Definition verify_exact_index (raw : raw_world) (index expected_table expected_sql : string)
  : result sqlite_error unit :=
  e ← ok_or (corrupt_error ("missing required index: " +:+ index)) (find_entry "index" index raw);
  ensure
    (bool_decide (se_tbl_name e = expected_table)
     && match se_sql e with
        | Some actual =>
            bool_decide (normalized_schema_sql actual = normalized_schema_sql expected_sql)
        | None => false
        end)
    (corrupt_error ("schema mismatch for required index: " +:+ index)).

Definition generation (raw : raw_world) : result sqlite_error string :=
  _ ← ensure (bool_decide ("generation" ∈ rw_stage_columns raw))
        (corrupt_error "missing required column: stage_meta.generation");
  row ← ok_or (corrupt_error "missing required row: stage_meta id=1")
          (head (filter (fun r => fst r = 1%Z) (rw_stage_meta raw)));
  generation ← ok_or (corrupt_error "stage_meta.generation must be TEXT")
                 (match snd row with SqlText s => Some s | _ => None end);
  map_err (fun err => corrupt_error ("invalid stage_meta.generation: " +:+
                        match err with WrongLength => "WrongLength" | NotLowerHex => "NotLowerHex" end))
    (WorldGeneration_new generation).

Fixpoint cas_state_rows (rows : list (Z * sql_value)) (count : Z) : result sqlite_error Z :=
  match rows with
  | [] => Ok count
  | (id, v) :: rows =>
      _ ← ensure (id =? 1)%Z (corrupt_error "invalid row: cas_state.id must be 1");
      if bool_decide (typeof v = "null") then cas_state_rows rows (count + 1)
      else
        _ ← ensure (bool_decide (typeof v = "integer"))
              (corrupt_error "cas_state.first_retained_seq must be INTEGER or NULL");
        seq ← get_i64 2 v;
        _ ← ensure (negb (seq <=? 0)%Z)
              (corrupt_error "cas_state.first_retained_seq must be positive");
        cas_state_rows rows (count + 1)
  end.

Definition verify_cas_state_row (raw : raw_world) : result sqlite_error unit :=
  count ← cas_state_rows (rw_cas_state raw) 0;
  if (count =? 1)%Z then Ok tt
  else if (count =? 0)%Z then Err (corrupt_error "missing required row: cas_state id=1")
  else Err (corrupt_error "cas_state must contain exactly one row").

Fixpoint world_format_rows (rows : list (Z * sql_value)) (count : Z) : result sqlite_error Z :=
  match rows with
  | [] => Ok count
  | (id, v) :: rows =>
      _ ← ensure (id =? 1)%Z (corrupt_error "invalid row: world_format.id must be 1");
      _ ← ensure (bool_decide (typeof v = "integer"))
            (corrupt_error "world_format.version must be INTEGER");
      version ← get_i64 2 v;
      _ ← ensure (version =? CURRENT_WORLD_FORMAT_VERSION)%Z
            (corrupt_error ("unsupported world format version: " +:+ to_string version));
      world_format_rows rows (count + 1)
  end.

Definition verify_world_format_row (raw : raw_world) : result sqlite_error unit :=
  count ← world_format_rows (rw_world_format raw) 0;
  if (count =? 1)%Z then Ok tt
  else if (count =? 0)%Z then Err (corrupt_error "missing required row: world_format id=1")
  else Err (corrupt_error "world_format must contain exactly one row").

Definition verify_open_shape (raw : raw_world) : result sqlite_error unit :=
  _ ← require_table raw "stage_meta";
  _ ← require_table raw "meta_headers";
  _ ← require_table raw "events";
  _ ← require_table raw "event_headers";
  _ ← generation raw;
  _ ← verify_exact_table raw "cas_bodies" CAS_BODIES_TABLE_SQL;
  _ ← verify_exact_table raw "cas_state" CAS_STATE_TABLE_SQL;
  _ ← verify_exact_table raw "world_format" WORLD_FORMAT_TABLE_SQL;
  _ ← verify_cas_state_row raw;
  verify_world_format_row raw.

(** Of this file: 64 bytes of digits and [a] to [f]. *)
Definition is_lower_hex_sha256 (value : string) : bool :=
  (slen value =? 64)%Z && sall (fun c => is_ascii_digit c || in_range 97 102 c) value.

Section Verify.
Context `{Crypto}.

Fixpoint verify_cas_body_rows (rows : list (sql_value * sql_value)) : result sqlite_error unit :=
  match rows with
  | [] => Ok tt
  | (hash_value, body_value) :: rows =>
      hash ← get_string 0 hash_value;
      _ ← ensure (bool_decide (typeof hash_value = "text") && is_lower_hex_sha256 hash)
            (corrupt_error "cas_bodies.body_sha256 must be 64-byte lower hex TEXT");
      _ ← ensure (bool_decide (typeof body_value = "blob"))
            (corrupt_error "cas_bodies.body must be BLOB");
      body ← get_blob 4 body_value;
      _ ← ensure (bool_decide (sha256_hex body = hash))
            (corrupt_error "cas_bodies.body does not match body_sha256");
      verify_cas_body_rows rows
  end.

Definition verify (raw : raw_world) : result sqlite_error unit :=
  _ ← verify_open_shape raw;
  verify_cas_body_rows (rw_cas_bodies raw).
End Verify.

(** ** Statements that make a file *)

(** [ErrorKind] of [CREATE TABLE] and [CREATE INDEX] that find their name taken. *)
Definition sql_error (msg : string) : sqlite_error := SqliteFailure (OtherCode 1) (Some msg).

Definition add_entry (e : schema_entry) (raw : raw_world) : raw_world := {|
  rw_schema := rw_schema raw ++ [e]; rw_stage_columns := rw_stage_columns raw;
  rw_stage_meta := rw_stage_meta raw; rw_world_format := rw_world_format raw;
  rw_cas_state := rw_cas_state raw; rw_cas_bodies := rw_cas_bodies raw |}.

Definition set_stage_columns (l : list string) (raw : raw_world) : raw_world := {|
  rw_schema := rw_schema raw; rw_stage_columns := l;
  rw_stage_meta := rw_stage_meta raw; rw_world_format := rw_world_format raw;
  rw_cas_state := rw_cas_state raw; rw_cas_bodies := rw_cas_bodies raw |}.

Definition insert_rows (meta format state : list (Z * sql_value)) (raw : raw_world) : raw_world := {|
  rw_schema := rw_schema raw; rw_stage_columns := rw_stage_columns raw;
  rw_stage_meta := rw_stage_meta raw ++ meta; rw_world_format := rw_world_format raw ++ format;
  rw_cas_state := rw_cas_state raw ++ state; rw_cas_bodies := rw_cas_bodies raw |}.

(** SQLite keeps the text of the statement from its first to its last token. *)
Definition create_table (name sql : string) (raw : raw_world) : result sqlite_error raw_world :=
  match find_entry "table" name raw with
  | Some _ => Err (sql_error ("table " +:+ name +:+ " already exists"))
  | None =>
      Ok (add_entry {| se_type := "table"; se_name := name; se_tbl_name := name;
                       se_sql := Some (trim sql) |} raw)
  end.

(** [CREATE INDEX IF NOT EXISTS]; the text kept has no [IF NOT EXISTS]. *)
Definition create_index (name table sql : string) (raw : raw_world) : result sqlite_error raw_world :=
  match find_entry "index" name raw, find_entry "table" name raw, find_entry "table" table raw with
  | Some _, _, _ => Ok raw
  | None, Some _, _ => Err (sql_error ("there is already a table named " +:+ name))
  | None, None, None => Err (sql_error ("no such table: main." +:+ table))
  | None, None, Some _ =>
      Ok (add_entry {| se_type := "index"; se_name := name; se_tbl_name := table;
                       se_sql := Some sql |} raw)
  end.

Definition STAGE_META_TABLE_SQL : string := "CREATE TABLE stage_meta(
            id INTEGER PRIMARY KEY CHECK(id=1),
            generation TEXT NOT NULL,
            body BLOB DEFAULT x'',
            content_type TEXT DEFAULT 'application/octet-stream'
        )".

Definition META_HEADERS_TABLE_SQL : string := "CREATE TABLE meta_headers(
            name TEXT NOT NULL,
            value TEXT NOT NULL,
            PRIMARY KEY(name)
        )".

Definition EVENTS_TABLE_SQL : string := "CREATE TABLE events(
            id INTEGER PRIMARY KEY AUTOINCREMENT,
            timestamp TEXT NOT NULL,
            event_type TEXT NOT NULL,
            target TEXT DEFAULT '',
            body_sha256 TEXT DEFAULT '',
            size INTEGER DEFAULT 0,
            content_type TEXT DEFAULT '',
            meta_sha256 TEXT DEFAULT '',
            hmac TEXT NOT NULL,
            prev_hmac TEXT DEFAULT ''
        )".

Definition EVENT_HEADERS_TABLE_SQL : string := "CREATE TABLE event_headers(
            event_id INTEGER NOT NULL,
            name TEXT NOT NULL,
            value TEXT NOT NULL
        )".

(** Statements run outside a transaction: each commits, and the first one that
    fails, by itself or by [fault], ends the run. *)
Fixpoint run_statements (fault : nat -> option sqlite_error)
    (l : list (raw_world -> result sqlite_error raw_world)) (raw : raw_world)
  : result sqlite_error unit * raw_world :=
  match l with
  | [] => (Ok tt, raw)
  | stmt :: l =>
      match fault 0%nat with
      | Some err => (Err err, raw)
      | None =>
          match stmt raw with
          | Ok raw => run_statements (fun i => fault (S i)) l raw
          | Err err => (Err err, raw)
          end
      end
  end.

Definition create_write_index : raw_world -> result sqlite_error raw_world :=
  create_index EVENT_HEADERS_EVENT_ID_INDEX_NAME "event_headers" EVENT_HEADERS_EVENT_ID_INDEX_SHAPE_SQL.

Definition verify_write_index (raw : raw_world) : result sqlite_error raw_world :=
  _ ← verify_exact_index raw EVENT_HEADERS_EVENT_ID_INDEX_NAME "event_headers"
        EVENT_HEADERS_EVENT_ID_INDEX_SHAPE_SQL;
  Ok raw.

Definition write_index_statements := [create_write_index; verify_write_index].

Definition ensure_write_indexes (fault : nat -> option sqlite_error)
  : raw_world -> result sqlite_error unit * raw_world := run_statements fault write_index_statements.

(** [name NOT LIKE 'sqlite_%'] is false: [LIKE] ignores case, and its underscore
    stands for any character. *)
Definition like_sqlite (name : string) : bool :=
  eq_ignore_ascii_case (String.substring 0 6 name) "sqlite" && (7 <=? slen name)%Z.

Definition new_world (raw : raw_world) : result sqlite_error unit :=
  match head (filter (fun e => bool_decide (se_type e = "table") && negb (like_sqlite (se_name e)) = true)
                (rw_schema raw)) with
  | Some e => Err (corrupt_error ("new world schema already has table: " +:+ se_name e))
  | None => Ok tt
  end.

Definition create_statements (generation : string)
  : list (raw_world -> result sqlite_error raw_world) :=
  [ (fun raw => raw ← create_table "stage_meta" STAGE_META_TABLE_SQL raw;
                Ok (set_stage_columns ["id"; "generation"; "body"; "content_type"] raw));
    create_table "world_format" WORLD_FORMAT_TABLE_SQL;
    (fun raw => Ok (insert_rows [] [(1%Z, SqlInteger CURRENT_WORLD_FORMAT_VERSION)] [] raw));
    create_table "cas_bodies" CAS_BODIES_TABLE_SQL;
    create_table "cas_state" CAS_STATE_TABLE_SQL;
    (fun raw => Ok (insert_rows [] [] [(1%Z, SqlNull)] raw));
    (fun raw => Ok (insert_rows [(1%Z, SqlText generation)] [] [] raw));
    create_table "meta_headers" META_HEADERS_TABLE_SQL;
    create_table "events" EVENTS_TABLE_SQL;
    create_table "event_headers" EVENT_HEADERS_TABLE_SQL ] ++ write_index_statements.

Definition create (fault : nat -> option sqlite_error) (generation : string)
  : raw_world -> result sqlite_error unit * raw_world :=
  run_statements fault (create_statements generation).

(** ** Opening *)

(** What may go wrong outside the schema code: minting, the directory, the
    connection and its pragmas (which may leave an empty file), the queries of
    the check, and the statements. *)
Record open_faults := {
  of_connect : option (sqlite_error * bool);
  of_query : option sqlite_error;
  of_statement : nat -> option sqlite_error;
}.

Definition no_faults : open_faults :=
  {| of_connect := None; of_query := None; of_statement := fun _ => None |}.

Definition checked_shape (f : open_faults) (raw : raw_world) : result sqlite_error unit :=
  match of_query f with Some err => Err err | None => verify_open_shape raw end.

Definition missing_minted_generation_error : sqlite_error :=
  SqliteFailure InternalMalfunction
    (Some "new world schema creation reached without minted generation").

(** [mint] is the minted generation; the file is [None] when it does not exist. *)
Definition open_world_paths_with_generation_minter_and_kind
    (f : open_faults) (mint : result sqlite_error string) (file : option raw_world)
  : result sqlite_error OpenedWorldKind * option raw_world :=
  match file with
  | Some raw =>
      match of_connect f with
      | Some (err, _) => (Err err, file)
      | None =>
          match checked_shape f raw with
          | Err err => (Err err, file)
          | Ok _ =>
              let '(r, raw) := ensure_write_indexes (of_statement f) raw in
              (_ ← r; Ok Existing, Some raw)
          end
      end
  | None =>
      match mint with
      | Err err => (Err err, None)
      | Ok generation =>
          match of_connect f with
          | Some (err, leftover) => (Err err, if leftover : bool then Some empty_file else None)
          | None =>
              match of_query f, new_world empty_file with
              | Some err, _ | None, Err err => (Err err, Some empty_file)
              | None, Ok _ =>
                  let '(r, raw) := create (of_statement f) generation empty_file in
                  (_ ← r; Ok Created, Some raw)
              end
          end
      end
  end.

(** Read-only; a file that is gone after a failed open was never there. *)
Definition open_existing_path (f : open_faults) (file : option raw_world)
  : result sqlite_error (option raw_world) :=
  match file with
  | None => Ok None
  | Some raw =>
      match of_connect f with
      | Some (err, still_there) => if still_there : bool then Err err else Ok None
      | None => _ ← checked_shape f raw; Ok (Some raw)
      end
  end.

Definition open_existing_writer_path (f : open_faults) (file : option raw_world)
  : result sqlite_error (option OpenedWorldKind) * option raw_world :=
  match file with
  | None => (Ok None, None)
  | Some raw =>
      match of_connect f with
      | Some (err, still_there) => if still_there : bool then (Err err, file) else (Ok None, None)
      | None =>
          match checked_shape f raw with
          | Err err => (Err err, file)
          | Ok _ =>
              let '(r, raw) := ensure_write_indexes (of_statement f) raw in
              (_ ← r; Ok (Some Existing), Some raw)
          end
      end
  end.

(** [open_checkpoint_conn_path] of [core/src/world/files.rs] checks the bodies too. *)
Definition open_checkpoint_conn_path `{Crypto} (f : open_faults) (file : option raw_world)
  : result sqlite_error (option raw_world) :=
  match file with
  | None => Ok None
  | Some raw =>
      match of_connect f with
      | Some (err, still_there) => if still_there : bool then Err err else Ok None
      | None =>
          _ ← match of_query f with Some err => Err err | None => verify raw end;
          Ok (Some raw)
      end
  end.

(** ** Deleting the directory *)

(** The outcome of one [remove_dir_all], and whether the directory is there
    after it. *)
Inductive remove_outcome := RemoveOk (still_there : bool) | RemoveNotFound | RemoveFailed.

(** The loop from attempt [attempt] on, with the delay before the next one; the
    result is [Some] when the loop returns and [None] when it breaks, with the
    milliseconds slept. *)
Fixpoint delete_attempts (remove : nat -> remove_outcome) (left_over : nat) (attempt : nat)
    (delay : Z) : option bool * Z :=
  match left_over with
  | 0%nat => (None, 0%Z)
  | S left_over =>
      match remove attempt with
      | RemoveOk false | RemoveNotFound => (Some true, 0%Z)
      | RemoveOk true | RemoveFailed =>
          if (attempt =? 19)%nat then (None, 0%Z)
          else
            let '(r, slept) := delete_attempts remove left_over (S attempt) (Z.min (delay * 2) 500) in
            (r, (delay + slept)%Z)
      end
  end.

(** [files::delete]: the checkpoint of [release_wal_files] is best effort and
    waits 10 ms; [exists_at_end] is the last look at the directory. *)
Definition delete (dir_exists : bool) (remove : nat -> remove_outcome) (exists_at_end : bool)
  : bool * Z :=
  if negb dir_exists then (false, 0%Z)
  else
    let '(r, slept) := delete_attempts remove 20 0 30 in
    (default (negb exists_at_end) r, (10 + slept)%Z).

(** ** What the check accepts *)

Definition exact_tables : list (string * string) :=
  [("cas_bodies", CAS_BODIES_TABLE_SQL); ("cas_state", CAS_STATE_TABLE_SQL);
   ("world_format", WORLD_FORMAT_TABLE_SQL)].

Definition required_tables : list string := ["stage_meta"; "meta_headers"; "events"; "event_headers"].

(** The four tables exist; the three whose text matters have the tokens of the
    expected text; the generation, the retention floor and the format are single
    rows with values of the right type. *)
Record well_shaped (raw : raw_world) : Prop := {
  ws_tables : Forall (fun t => is_Some (find_entry "table" t raw)) required_tables;
  ws_texts : Forall (fun ts => exists text, find_entry "table" (fst ts) raw ≫= se_sql = Some text
                                            /\ same_statement text (snd ts)) exact_tables;
  ws_generation : "generation" ∈ rw_stage_columns raw
    /\ exists g, snd <$> head (filter (fun r => fst r = 1%Z) (rw_stage_meta raw)) = Some (SqlText g)
         /\ WorldGeneration_new g = Ok g;
  ws_floor : exists v, rw_cas_state raw = [(1%Z, v)]
    /\ (v = SqlNull \/ exists n, v = SqlInteger n /\ (0 < n)%Z);
  ws_format : rw_world_format raw = [(1%Z, SqlInteger CURRENT_WORLD_FORMAT_VERSION)];
}.

(** A stored body under its digest. *)
Definition body_row `{Crypto} (row : sql_value * sql_value) : Prop :=
  exists body, row = (SqlText (sha256_hex body), SqlBlob body).

Lemma bind_ensure {E A} b (e : E) (k : unit -> result E A) a :
  (x ← ensure b e; k x) = Ok a <-> b = true /\ k tt = Ok a.
Proof. destruct b; cbn; naive_solver. Qed.

Ltac plain :=
  split; [ apply (bool_decide_unpack _); vm_compute; exact I | vm_compute; reflexivity
         | vm_compute; reflexivity ].

Lemma plain_cas_bodies : plain_text CAS_BODIES_TABLE_SQL.
Proof. plain. Qed.
Lemma plain_cas_state : plain_text CAS_STATE_TABLE_SQL.
Proof. plain. Qed.
Lemma plain_world_format : plain_text WORLD_FORMAT_TABLE_SQL.
Proof. plain. Qed.
Lemma plain_index : plain_text EVENT_HEADERS_EVENT_ID_INDEX_SHAPE_SQL.
Proof. plain. Qed.

Lemma require_table_Ok raw t u : require_table raw t = Ok u <-> is_Some (find_entry "table" t raw).
Proof. destruct u. unfold require_table. destruct (find_entry _ _ _); split; try done; by intros []. Qed.

Lemma exact_table_Ok raw t e u :
  plain_text e ->
  verify_exact_table raw t e = Ok u <->
  exists text, find_entry "table" t raw ≫= se_sql = Some text /\ same_statement text e.
Proof.
  intros Hp. unfold verify_exact_table. rewrite result_bind_Ok. split.
  - intros (text & Ht & He). inv_ok. apply bool_decide_eq_true in He. exists text. split; [done|].
    by apply normalized_exact.
  - intros (text & Ht & Hs). exists text. rewrite Ht. split; [done|]. apply ensure_Ok, bool_decide_eq_true.
    by apply normalized_exact.
Qed.

Lemma generation_exact raw g :
  generation raw = Ok g <->
  "generation" ∈ rw_stage_columns raw
  /\ snd <$> head (filter (fun r => fst r = 1%Z) (rw_stage_meta raw)) = Some (SqlText g)
  /\ WorldGeneration_new g = Ok g.
Proof.
  unfold generation. rewrite bind_ensure, bool_decide_eq_true.
  destruct (head _) as [[i v]|]; cbn; [|naive_solver].
  destruct v as [|n|t|s|s]; cbn; try naive_solver. rewrite map_err_Ok. split.
  - intros [Hc Hg]. pose proof Hg as Hg'. unfold WorldGeneration_new in Hg'.
    repeat case_match; simplify_eq. by rewrite Hg.
  - intros (Hc & [= ->] & Hg). done.
Qed.

Definition floor_row (r : Z * sql_value) : Prop :=
  fst r = 1%Z /\ (snd r = SqlNull \/ exists n, snd r = SqlInteger n /\ (0 < n)%Z).

Lemma cas_state_rows_Ok rows : forall n m,
  cas_state_rows rows n = Ok m <-> Forall floor_row rows /\ m = (n + Z.of_nat (length rows))%Z.
Proof.
  induction rows as [|[i v] rows IH]; intros n m.
  - cbn. rewrite Z.add_0_r, Forall_nil. naive_solver.
  - cbn [cas_state_rows]. rewrite bind_ensure, Z.eqb_eq, Forall_cons. unfold floor_row at 1. cbn [fst snd length].
    assert (Hl : (n + Z.of_nat (S (length rows)))%Z = (n + 1 + Z.of_nat (length rows))%Z) by lia. rewrite Hl.
    destruct v as [|k|t|s|s]; cbn [typeof].
    + rewrite bool_decide_true by done. rewrite IH. naive_solver.
    + rewrite bool_decide_false, bind_ensure by done. cbn [get_i64 mbind result_bind].
      rewrite bind_ensure, negb_true_iff, Z.leb_gt, IH, bool_decide_eq_true. naive_solver.
    + rewrite bool_decide_false, bind_ensure by done. naive_solver.
    + rewrite bool_decide_false, bind_ensure by done. naive_solver.
    + rewrite bool_decide_false, bind_ensure by done. naive_solver.
Qed.

Lemma world_format_rows_Ok rows : forall n m,
  world_format_rows rows n = Ok m <->
  Forall (fun r => r = (1%Z, SqlInteger CURRENT_WORLD_FORMAT_VERSION)) rows
  /\ m = (n + Z.of_nat (length rows))%Z.
Proof.
  induction rows as [|[i v] rows IH]; intros n m.
  - cbn. rewrite Z.add_0_r, Forall_nil. naive_solver.
  - cbn [world_format_rows]. rewrite !bind_ensure, Z.eqb_eq, Forall_cons, bool_decide_eq_true. cbn [length].
    assert (Hl : (n + Z.of_nat (S (length rows)))%Z = (n + 1 + Z.of_nat (length rows))%Z) by lia. rewrite Hl.
    destruct v as [|k|t|s|s]; cbn [typeof get_i64 mbind result_bind]; try naive_solver.
    rewrite bind_ensure, Z.eqb_eq, IH. naive_solver.
Qed.

(** A loop that counts rows, and the match on the count. *)
Lemma one_row {A} (P : A -> Prop) (rows : list A) e0 e2 (r : result sqlite_error Z) u :
  (forall m, r = Ok m <-> Forall P rows /\ m = (0 + Z.of_nat (length rows))%Z) ->
  (count ← r; if (count =? 1)%Z then Ok tt else if (count =? 0)%Z then Err e0 else Err e2) = Ok u
  <-> exists x, rows = [x] /\ P x.
Proof.
  intros Hr. destruct u. rewrite result_bind_Ok. split.
  - intros (m & Hm & Hc). apply Hr in Hm as [Hp ->].
    destruct rows as [|x [|y rows]]; [done| |].
    + exists x. split; [done|]. by apply Forall_cons in Hp as [? _].
    + exfalso. rewrite (proj2 (Z.eqb_neq _ 1)) in Hc by (cbn; lia). by case_match.
  - intros (x & -> & Hx). exists 1%Z. split; [|done]. apply Hr. by rewrite Forall_singleton.
Qed.

Lemma seq_Ok {E A B} (r : result E B) (k : result E A) a :
  (_ ← r; k) = Ok a <-> (exists b, r = Ok b) /\ k = Ok a.
Proof. rewrite result_bind_Ok. naive_solver. Qed.

Lemma floor_row_Ok raw u :
  verify_cas_state_row raw = Ok u <-> exists r, rw_cas_state raw = [r] /\ floor_row r.
Proof. apply one_row. intros m. apply cas_state_rows_Ok. Qed.

Lemma format_row_Ok raw u :
  verify_world_format_row raw = Ok u <->
  rw_world_format raw = [(1%Z, SqlInteger CURRENT_WORLD_FORMAT_VERSION)].
Proof.
  unfold verify_world_format_row. rewrite one_row by (intros m; apply world_format_rows_Ok). naive_solver.
Qed.

Lemma verify_open_shape_exact raw u : verify_open_shape raw = Ok u <-> well_shaped raw.
Proof.
  unfold verify_open_shape. rewrite !seq_Ok, format_row_Ok. split.
  - intros ([? H1] & [? H2] & [? H3] & [? H4] & [g Hg] & [? H5] & [? H6] & [? H7] & [? H8] & H9).
    apply require_table_Ok in H1, H2, H3, H4. apply generation_exact in Hg as (Hc & Hg & Hn).
    rewrite (exact_table_Ok _ _ _ _ plain_cas_bodies) in H5. rewrite (exact_table_Ok _ _ _ _ plain_cas_state) in H6.
    rewrite (exact_table_Ok _ _ _ _ plain_world_format) in H7. apply floor_row_Ok in H8 as ([i v] & Hr & Hi & Hv).
    cbn in Hi, Hv. subst i. split.
    + unfold required_tables. by rewrite !Forall_cons.
    + unfold exact_tables. rewrite !Forall_cons. cbn [fst snd].
      split; [exact H5|]. split; [exact H6|]. split; [exact H7|apply Forall_nil_2].
    + split; [exact Hc|]. by exists g.
    + by exists v.
    + exact H9.
  - intros [Ht Hx [Hc (g & Hg & Hn)] (v & Hr & Hv) Hf]. unfold required_tables, exact_tables in *.
    rewrite !Forall_cons in Ht. rewrite !Forall_cons in Hx. destruct Ht as (? & ? & ? & ? & _). destruct Hx as (H5 & H6 & H7 & _).
    cbn [fst snd] in H5, H6, H7.
    do 4 (split; [exists tt; by apply require_table_Ok|]).
    split; [|split; [|split; [|split; [|split]]]]; [..|exact Hf].
    + exists g. by apply generation_exact.
    + exists tt. rewrite (exact_table_Ok _ _ _ _ plain_cas_bodies). exact H5.
    + exists tt. rewrite (exact_table_Ok _ _ _ _ plain_cas_state). exact H6.
    + exists tt. rewrite (exact_table_Ok _ _ _ _ plain_world_format). exact H7.
    + exists tt. apply floor_row_Ok. by exists (1%Z, v).
Qed.

Lemma body_rows_Ok `{CryptoLaws} rows u :
  verify_cas_body_rows rows = Ok u <-> Forall body_row rows.
Proof.
  destruct u. induction rows as [|[h b] rows IH]; [by split|]. cbn [verify_cas_body_rows].
  rewrite Forall_cons, <- IH. unfold body_row. split.
  - intros Hv. inv_ok.
    destruct h; cbn in *; simplify_eq. destruct b; cbn in *; simplify_eq. inv_ok.
    repeat match goal with Hb : bool_decide _ = true |- _ => apply bool_decide_eq_true in Hb end.
    subst. eauto.
  - intros [(body & [= -> ->]) Hv]. cbn [get_string get_blob mbind result_bind typeof].
    destruct (Sha256_shape body) as [Hl Hh]. unfold is_lower_hex_sha256, sha256_hex.
    unfold is_lower_hex, is_lower_hex_char in Hh. rewrite Hl, Hh, Z.eqb_refl, !bool_decide_true by done. exact Hv.
Qed.

(** ** The file of a world *)

Definition table_entry (name sql : string) : schema_entry :=
  {| se_type := "table"; se_name := name; se_tbl_name := name; se_sql := Some (trim sql) |}.

Definition write_index_entry : schema_entry :=
  {| se_type := "index"; se_name := EVENT_HEADERS_EVENT_ID_INDEX_NAME; se_tbl_name := "event_headers";
     se_sql := Some EVENT_HEADERS_EVENT_ID_INDEX_SHAPE_SQL |}.

Definition db_tables : list schema_entry :=
  [ table_entry "stage_meta" STAGE_META_TABLE_SQL; table_entry "world_format" WORLD_FORMAT_TABLE_SQL;
    table_entry "cas_bodies" CAS_BODIES_TABLE_SQL; table_entry "cas_state" CAS_STATE_TABLE_SQL;
    table_entry "meta_headers" META_HEADERS_TABLE_SQL; table_entry "events" EVENTS_TABLE_SQL;
    table_entry "event_headers" EVENT_HEADERS_TABLE_SQL ].

(** The file that holds the tables of [db], with some indexes. *)
Definition db_file_with (indexes : list schema_entry) (db : world_db) : raw_world := {|
  rw_schema := db_tables ++ indexes;
  rw_stage_columns := ["id"; "generation"; "body"; "content_type"];
  rw_stage_meta := [(1%Z, SqlText (db_generation db))];
  rw_world_format := [(1%Z, SqlInteger CURRENT_WORLD_FORMAT_VERSION)];
  rw_cas_state := [(1%Z, match db_floor db with Some n => SqlInteger n | None => SqlNull end)];
  rw_cas_bodies := (fun kb => (SqlText (fst kb), SqlBlob (snd kb))) <$> map_to_list (db_cas db) |}.

Definition db_file : world_db -> raw_world := db_file_with [write_index_entry].

(** What the file of a world needs of its data. *)
Record storable (db : world_db) : Prop := {
  st_generation : WorldGeneration_new (db_generation db) = Ok (db_generation db);
  st_floor : forall n, db_floor db = Some n -> (0 < n)%Z;
}.

Lemma db_file_shaped indexes db : storable db -> well_shaped (db_file_with indexes db).
Proof.
  intros [Hg Hf]. split.
  - unfold required_tables. rewrite !Forall_cons.
    split_and!; [..|apply Forall_nil_2]; (eexists; vm_compute; reflexivity).
  - unfold exact_tables. rewrite !Forall_cons.
    split_and!; [..|apply Forall_nil_2];
      (eexists; split; [vm_compute; reflexivity|exists 0%nat; vm_compute; reflexivity]).
  - split; [apply (bool_decide_unpack _); vm_compute; exact I|]. by exists (db_generation db).
  - eexists. split; [done|]. destruct (db_floor db) as [n|] eqn:E; [|by left]. right. exists n. auto.
  - done.
Qed.

Lemma open_shape_ok indexes db : storable db -> verify_open_shape (db_file_with indexes db) = Ok tt.
Proof. intros Hs. by apply verify_open_shape_exact, db_file_shaped. Qed.

(** The index is made when it is missing and left alone when it is there. *)
Lemma ensure_index db :
  ensure_write_indexes (fun _ => None) (db_file_with [] db) = (Ok tt, db_file db) /\
  ensure_write_indexes (fun _ => None) (db_file db) = (Ok tt, db_file db).
Proof. split; vm_compute; reflexivity. Qed.

Lemma reopen mint db :
  storable db ->
  open_world_paths_with_generation_minter_and_kind no_faults mint (Some (db_file db))
    = (Ok Existing, Some (db_file db)) /\
  open_world_paths_with_generation_minter_and_kind no_faults mint (Some (db_file_with [] db))
    = (Ok Existing, Some (db_file db)).
Proof.
  intros Hs. destruct (ensure_index db) as [H0 H1].
  unfold open_world_paths_with_generation_minter_and_kind, checked_shape. cbn [of_connect of_query of_statement no_faults].
  unfold db_file in *. rewrite !open_shape_ok by done. by rewrite H0, H1.
Qed.

(** ** Interrupted creation *)

Fixpoint first_fault (n : nat) (fault : nat -> option sqlite_error) : option nat :=
  match n with
  | 0%nat => None
  | S n =>
      match fault 0%nat with
      | Some _ => Some 0%nat
      | None => S <$> first_fault n (fun i => fault (S i))
      end
  end.

(** Every way to open the file reports corruption and leaves it as it is. *)
Definition refused (raw : raw_world) : Prop :=
  exists msg, forall f mint, of_connect f = None -> of_query f = None ->
    open_world_paths_with_generation_minter_and_kind f mint (Some raw)
      = (Err (corrupt_error msg), Some raw)
    /\ open_existing_path f (Some raw) = Err (corrupt_error msg)
    /\ open_existing_writer_path f (Some raw) = (Err (corrupt_error msg), Some raw).

Lemma refused_shape raw msg : verify_open_shape raw = Err (corrupt_error msg) -> refused raw.
Proof.
  intros Hv. exists msg. intros f mint Hc Hq.
  unfold open_world_paths_with_generation_minter_and_kind, open_existing_path, open_existing_writer_path, checked_shape.
  rewrite Hc, Hq, Hv. done.
Qed.

(** A run whose statements succeed stops at the first fault, after the effects of
    the statements before it. *)
Lemma run_first_fault l : forall fault raw raw',
  run_statements (fun _ => None) l raw = (Ok tt, raw') ->
  match first_fault (length l) fault with
  | None => run_statements fault l raw = (Ok tt, raw')
  | Some k =>
      (k < length l)%nat /\ exists err,
        run_statements fault l raw = (Err err, snd (run_statements (fun _ => None) (take k l) raw))
  end.
Proof.
  induction l as [|stmt l IH]; intros fault raw raw' Hr; [done|]. cbn [run_statements first_fault length] in *.
  destruct (fault 0%nat) as [err|]; [split; [lia|by exists err]|].
  destruct (stmt raw) as [raw1|e] eqn:Hst; [|done]. specialize (IH (fun i => fault (S i)) raw1 raw' Hr).
  destruct (first_fault (length l) (fun i => fault (S i))) as [k|]; cbn; [|done].
  destruct IH as (Hk & err & IH). split; [lia|]. exists err. by rewrite IH, Hst.
Qed.

(** What the check says of the file a creation leaves when statement [k] is the
    first to fail: before the last table exists the file is corrupt. *)
Definition leftover (k : nat) (g : string) (raw : raw_world) : Prop :=
  if (k <? 10)%nat then exists msg, verify_open_shape raw = Err (corrupt_error msg) /\ harmless msg = true
  else raw = db_file_with [] (Db.create g) \/ raw = db_file (Db.create g).

Ltac corrupt := eexists; split; vm_compute; reflexivity.

Lemma create_run fault g :
  match first_fault 12 fault with
  | None => create fault g empty_file = (Ok tt, db_file (Db.create g))
  | Some k => exists err raw, create fault g empty_file = (Err err, raw) /\ leftover k g raw
  end.
Proof.
  pose proof (run_first_fault (create_statements g) fault empty_file (db_file (Db.create g))) as Hr.
  change (length (create_statements g)) with 12%nat in Hr. unfold create.
  destruct (first_fault 12 fault) as [k|]; [|apply Hr; vm_compute; reflexivity].
  destruct Hr as (Hk & err & Hr); [vm_compute; reflexivity|]. rewrite Hr. exists err. eexists. split; [done|].
  do 10 (destruct k as [|k]; [corrupt|]).
  destruct k as [|[|k]]; [left; vm_compute; reflexivity|right; vm_compute; reflexivity|lia].
Qed.

Lemma create_storable g : WorldGeneration_new g = Ok g -> storable (Db.create g).
Proof. intros Hg. by split. Qed.

(** What opening a new world leaves: nothing, a complete file without events, or
    a file every later open reports as corrupt.  Only success leaves a file
    without an error. *)
Lemma open_new f g r file :
  WorldGeneration_new g = Ok g ->
  open_world_paths_with_generation_minter_and_kind f (Ok g) None = (r, file) ->
  match file with
  | None => is_ok r = false
  | Some raw =>
      (r = Ok Created \/ is_ok r = false)
      /\ (raw = db_file_with [] (Db.create g) \/ raw = db_file (Db.create g)
          \/ is_ok r = false /\ exists msg, verify_open_shape raw = Err (corrupt_error msg) /\ harmless msg = true)
  end.
Proof.
  intros Hg. unfold open_world_paths_with_generation_minter_and_kind.
  destruct (of_connect f) as [[err []]|].
  - intros [= <- <-]. split; [by right|]. right. right. split; [done|corrupt].
  - by intros [= <- <-].
  - destruct (of_query f) as [err|].
    { intros [= <- <-]. split; [by right|]. right. right. split; [done|corrupt]. }
    change (new_world empty_file) with (Ok (E := sqlite_error) tt). cbv match.
    pose proof (create_run (of_statement f) g) as Hr. destruct (first_fault 12 _) as [k|].
    + destruct Hr as (err & raw & -> & Hk). intros [= <- <-]. split; [by right|].
      unfold leftover in Hk. destruct (k <? 10)%nat; [right; right; by split|tauto].
    + rewrite Hr. intros [= <- <-]. split; [by left|]. by right; left.
Qed.

(** What the check says of a file that a creation left incomplete. *)
Definition torn (err : sqlite_error) : Prop :=
  exists f g raw, WorldGeneration_new g = Ok g
    /\ snd (open_world_paths_with_generation_minter_and_kind f (Ok g) None) = Some raw
    /\ verify_open_shape raw = Err err.

Lemma torn_corrupt err : torn err -> exists msg, err = corrupt_error msg /\ harmless msg = true.
Proof.
  intros (f & g & raw & Hg & Hraw & Hv).
  destruct (open_world_paths_with_generation_minter_and_kind f (Ok g) None) as [r file] eqn:E.
  pose proof (open_new f g r file Hg E) as Hnew. cbn in Hraw. subst file.
  assert (forall i, raw = db_file_with i (Db.create g) -> verify_open_shape raw = Ok tt) as Hok.
  { intros i ->. by apply open_shape_ok, create_storable. }
  destruct Hnew as [_ [Hr|[Hr|[_ (msg & Hmsg & Hh)]]]]; [rewrite (Hok _ Hr) in Hv; done..|].
  exists msg. split; [congruence|done].
Qed.

Lemma verify_exact `{CryptoLaws} raw :
  verify raw = Ok tt <-> well_shaped raw /\ Forall body_row (rw_cas_bodies raw).
Proof.
  unfold verify. rewrite seq_Ok, body_rows_Ok. split.
  - intros [[u Hv] Hb]. by apply verify_open_shape_exact in Hv.
  - intros [Hv Hb]. split; [|done]. exists tt. by apply verify_open_shape_exact.
Qed.

(** C19: The schema check is exact.  A file is opened exactly when its four data
    tables exist, the stored texts of the three tables whose text matters have
    the tokens of the expected statements (white space between tokens and final
    semicolons apart), the generation is 32 hexadecimal digits, and retention
    floor and format version are single rows of the right type and value.  The
    full check adds that every stored body lies under its own digest. *)
Theorem schema_check_exact `{CryptoLaws} raw :
  (verify_open_shape raw = Ok tt <-> well_shaped raw) /\
  (verify raw = Ok tt <-> well_shaped raw /\ Forall body_row (rw_cas_bodies raw)).
Proof. split; [apply verify_open_shape_exact|apply verify_exact]. Qed.

(** C12: Creating a world's file is not atomic.  When nothing fails, the new file
    holds the empty world.  When one of its statements fails, the statements
    before it have committed: before the last table exists, every later way to
    open the file, for reading or writing, reports corruption and leaves it so;
    after that, the next open completes it. *)
Theorem interrupted_creation f g mint :
  WorldGeneration_new g = Ok g -> of_connect f = None -> of_query f = None ->
  exists r raw,
    open_world_paths_with_generation_minter_and_kind f (Ok g) None = (r, Some raw) /\
    match first_fault 12 (of_statement f) with
    | None => r = Ok Created /\ raw = db_file (Db.create g)
    | Some k =>
        is_ok r = false /\
        if (k <? 10)%nat then refused raw
        else open_world_paths_with_generation_minter_and_kind no_faults mint (Some raw)
             = (Ok Existing, Some (db_file (Db.create g)))
    end.
Proof.
  intros Hg Hc Hq. unfold open_world_paths_with_generation_minter_and_kind at 1. rewrite Hc, Hq.
  change (new_world empty_file) with (Ok (E := sqlite_error) tt). cbv match.
  pose proof (create_run (of_statement f) g) as Hr. destruct (first_fault 12 _) as [k|].
  - destruct Hr as (err & raw & -> & Hk). eexists _, _. split; [done|]. split; [done|].
    unfold leftover in Hk. destruct (k <? 10)%nat; [destruct Hk as (msg & Hk & _); by eapply refused_shape|].
    destruct (reopen mint (Db.create g)) as [Ha Hb]; [by apply create_storable|]. by destruct Hk as [-> | ->].
  - rewrite Hr. by eexists _, _.
Qed.

(** The third statement finds the disk full. *)
Lemma interrupted_creation_witness :
  exists raw,
    open_world_paths_with_generation_minter_and_kind
      {| of_connect := None; of_query := None;
         of_statement := fun i => if (i =? 2)%nat then Some (SqliteFailure DiskFull None) else None |}
      (Ok "0123456789abcdef0123456789abcdef") None
      = (Err (SqliteFailure DiskFull None), Some raw)
    /\ refused raw.
Proof.
  pose (f := {| of_connect := None; of_query := None;
         of_statement := fun i => if (i =? 2)%nat then Some (SqliteFailure DiskFull None) else None |}).
  destruct (interrupted_creation f "0123456789abcdef0123456789abcdef" (Ok "") eq_refl eq_refl eq_refl)
    as (r & raw & Hr & Hk).
  exists raw. change (first_fault 12 (of_statement f)) with (Some 2%nat) in Hk.
  split; [|exact (proj2 Hk)]. rewrite <- (f_equal snd Hr : _ = Some raw). vm_compute. reflexivity.
Defined.

(** ** The delete loop *)

Lemma slept_nonneg remove n : forall attempt delay,
  (0 <= delay)%Z -> (0 <= snd (delete_attempts remove n attempt delay))%Z.
Proof.
  induction n as [|n IH]; intros attempt delay Hd; [done|]. cbn [delete_attempts].
  specialize (IH (S attempt) (Z.min (delay * 2) 500)). 
  destruct (remove attempt) as [[]| |]; try done; (case_match; [done|]);
    destruct (delete_attempts _ n _ _) as [r slept]; cbn in *; lia.
Qed.

(** No outcome makes the loop sleep longer than failing every time. *)
Lemma slept_worst remove n : forall attempt delay,
  (0 <= delay)%Z ->
  (snd (delete_attempts remove n attempt delay)
   <= snd (delete_attempts (fun _ => RemoveFailed) n attempt delay))%Z.
Proof.
  induction n as [|n IH]; intros attempt delay Hd; [done|]. cbn [delete_attempts].
  specialize (IH (S attempt) (Z.min (delay * 2) 500)).
  pose proof (slept_nonneg (fun _ => RemoveFailed) n (S attempt) (Z.min (delay * 2) 500)) as H0.
  destruct (attempt =? 19)%nat; [by destruct (remove attempt) as [[]| |]|].
  destruct (delete_attempts (fun _ => RemoveFailed) n _ _) as [r1 s1].
  destruct (remove attempt) as [[]| |]; cbn in *; try lia;
    destruct (delete_attempts remove n _ _) as [r slept]; cbn in *; lia.
Qed.

Lemma attempts_true remove n : forall attempt delay b,
  fst (delete_attempts remove n attempt delay) = Some b ->
  b = true /\ exists k, (attempt <= k < attempt + n)%nat
                        /\ (remove k = RemoveOk false \/ remove k = RemoveNotFound).
Proof.
  induction n as [|n IH]; intros attempt delay b; [done|]. cbn [delete_attempts].
  assert (Hgo : (if (attempt =? 19)%nat then (None, 0%Z)
                 else let '(r, slept) := delete_attempts remove n (S attempt) (Z.min (delay * 2) 500) in
                      (r, (delay + slept)%Z)).1 = Some b ->
    b = true /\ exists k, (attempt <= k < attempt + S n)%nat
                          /\ (remove k = RemoveOk false \/ remove k = RemoveNotFound)).
  { case_match; [done|]. specialize (IH (S attempt) (Z.min (delay * 2) 500) b).
    destruct (delete_attempts _ n _ _) as [r slept]. cbn in *. intros Hr.
    destruct (IH Hr) as (-> & k & Hk & Hrem). split; [done|]. exists k. split; [lia|done]. }
  destruct (remove attempt) as [[]| |] eqn:Hr; cbn [fst]; try done.
  - intros [= <-]. split; [done|]. exists attempt. split; [lia|by left].
  - intros [= <-]. split; [done|]. exists attempt. split; [lia|by right].
Qed.

(** Deleting tries at most twenty times and sleeps less than eight seconds; it
    says the directory is gone only after a look that found it gone. *)
Theorem delete_bounded dir_exists remove exists_at_end :
  let '(gone, slept) := delete dir_exists remove exists_at_end in
  (0 <= slept <= 7940)%Z /\
  (gone = true -> dir_exists = true /\
     (exists_at_end = false \/
      exists k, (k < 20)%nat /\ (remove k = RemoveOk false \/ remove k = RemoveNotFound))).
Proof.
  unfold delete. destruct dir_exists; cbn [negb]; [|split; [lia|done]].
  pose proof (slept_worst remove 20 0 30 ltac:(done)) as Hw. change (snd (delete_attempts (fun _ => RemoveFailed) 20 0 30)) with 7930%Z in Hw.
  pose proof (slept_nonneg remove 20 0 30 ltac:(done)) as H0.
  pose proof (attempts_true remove 20 0 30) as Ht.
  destruct (delete_attempts remove 20 0 30) as [[b|] slept]; cbn [fst snd default] in *; (split; [lia|]).
  - intros _. split; [done|]. destruct (Ht b eq_refl) as (_ & k & Hk & Hr). right. exists k. split; [lia|done].
  - intros He. split; [done|]. left. by destruct exists_at_end.
Qed.
