(* ===== verification/DataLock.v ===== *)
(** * The writer lock of a data directory

    Models [core/src/data_lock.rs]: the SQLite file that keeps a second process
    out.  Every SQLite call is one atomic step of the process that makes it, and
    processes interleave.  A write transaction of one connection keeps every
    other connection from starting one ([SQLITE_BUSY], the timeout being zero);
    readers see the last committed row.  Any call may also fail for a reason of
    its own, and a process may die at any point, which closes its connection and
    takes back what it had not committed. *)

From S2P Require Import Prelude.
From S2P Require Import RustStr.
From S2P Require Import Db.

Inductive DataRootWriterLockError :=
| Storage (err : sqlite_error)
| Held (source : sqlite_error) (holder_pid : option string).

(** The next call of a process.  [QueryHolder] comes after the call that failed
    with [source]; a rollback that failed leaves the transaction open, with or
    without its update. *)
Inductive lock_pc :=
| Connecting
| Creating
| Inserting
| BeginHolder
| UpdateHolder
| CommitHolder
| RollbackHolder (err : sqlite_error) (updated : bool)
| BeginLock
| Holding
| QueryHolder (source : sqlite_error) (open_transaction : option bool)
| Failed (err : DataRootWriterLockError)
| Exited.

#[global] Instance DataRootWriterLockError_eq_dec : EqDecision DataRootWriterLockError.
Proof. solve_decision. Defined.

#[global] Instance lock_pc_eq_dec : EqDecision lock_pc.
Proof. solve_decision. Defined.

Record lock_process := { lp_pid : Z; lp_pc : lock_pc }.

(** [lf_row] is the committed content: no table, a table without its row, or the
    [holder] column; [lf_writer] is the process with a write transaction open. *)
Record lock_file := {
  lf_row : option (option string);
  lf_writer : option nat;
  lf_processes : gmap nat lock_process;
}.

(** [query_holder], whose query may fail for a reason of its own. *)
Definition query_holder (fault : option sqlite_error) (row : option (option string))
  : result sqlite_error (option string) :=
  match fault, row with
  | Some err, _ => Err err
  | None, None => Err (SqliteFailure (OtherCode 1) (Some "no such table: writer_lock"))
  | None, Some None => Err QueryReturnedNoRows
  | None, Some (Some holder) => if bool_decide (holder = "") then Ok None else Ok (Some holder)
  end.

(** [query_holder(c).ok().flatten()] beside the error. *)
Definition lock_attempt_error (fault : option sqlite_error) (row : option (option string))
    (source : sqlite_error) : DataRootWriterLockError :=
  Held source (match query_holder fault row with Ok holder => holder | Err _ => None end).

Definition SQLITE_BUSY : sqlite_error := SqliteFailure DatabaseBusy None.

(** Statements that need the write lock: the table is only created once, and an
    ignored insert is a write too. *)
Definition needs_lock (pc : lock_pc) (row : option (option string)) : bool :=
  match pc with
  | Creating => bool_decide (row = None)
  | Inserting | BeginHolder | BeginLock => true
  | _ => false
  end.

(** Inside its transaction a process is the writer. *)
Definition in_transaction (pc : lock_pc) : bool :=
  match pc with
  | UpdateHolder | CommitHolder | RollbackHolder _ _ | Holding | QueryHolder _ (Some _) => true
  | _ => false
  end.

Definition attempts (pc : lock_pc) : bool :=
  match pc with Creating | Inserting | BeginHolder | BeginLock => true | _ => false end.

(** One successful call: the process' next state, the row and the writer. *)
Definition call_ok (i : nat) (pid : Z) (pc : lock_pc) (row : option (option string))
    (writer : option nat) : option (lock_pc * option (option string) * option nat) :=
  match pc with
  | Connecting => Some (Creating, row, writer)
  | Creating => Some (Inserting, Some (default None row), writer)
  | Inserting => Some (BeginHolder, Some (Some (default "" (mjoin row))), writer)
  | BeginHolder => Some (UpdateHolder, row, Some i)
  | UpdateHolder => Some (CommitHolder, row, writer)
  | CommitHolder => Some (BeginLock, Some (Some (to_string pid)), None)
  | BeginLock => Some (Holding, row, Some i)
  | RollbackHolder _ _ | Holding | QueryHolder _ _ | Failed _ | Exited => None
  end.

Definition released (i : nat) (writer : option nat) : option nat :=
  if bool_decide (writer = Some i) then None else writer.

(** What a connection reads: with its own transaction open, its update. *)
Definition visible_row (pid : Z) (open_transaction : option bool) (row : option (option string))
  : option (option string) :=
  match open_transaction with Some true => Some (Some (to_string pid)) | _ => row end.

(** The calls of process [i]: its next state, the committed row, the writer. *)
Inductive call (i : nat) (p : lock_process) (f : lock_file)
  : lock_pc -> option (option string) -> option nat -> Prop :=
| call_succeeds pc row writer :
    (needs_lock (lp_pc p) (lf_row f) = true -> lf_writer f = None) ->
    call_ok i (lp_pid p) (lp_pc p) (lf_row f) (lf_writer f) = Some (pc, row, writer) ->
    call i p f pc row writer
| call_connect_fails err :
    lp_pc p = Connecting -> call i p f (Failed (Storage err)) (lf_row f) (lf_writer f)
| call_busy :
    needs_lock (lp_pc p) (lf_row f) = true -> lf_writer f <> None ->
    call i p f (QueryHolder SQLITE_BUSY None) (lf_row f) (lf_writer f)
| call_fails err :
    attempts (lp_pc p) = true ->
    call i p f (QueryHolder err None) (lf_row f) (lf_writer f)
| call_holder_fails err :
    lp_pc p = UpdateHolder \/ lp_pc p = CommitHolder ->
    call i p f (RollbackHolder err (bool_decide (lp_pc p = CommitHolder))) (lf_row f) (lf_writer f)
| call_rolls_back err updated :
    lp_pc p = RollbackHolder err updated ->
    call i p f (QueryHolder err None) (lf_row f) (released i (lf_writer f))
| call_rollback_fails err updated :
    lp_pc p = RollbackHolder err updated ->
    call i p f (QueryHolder err (Some updated)) (lf_row f) (lf_writer f)
| call_queries fault source open_transaction :
    (** the error is returned, and the connection closed *)
    lp_pc p = QueryHolder source open_transaction ->
    call i p f (Failed (lock_attempt_error fault (visible_row (lp_pid p) open_transaction (lf_row f)) source))
      (lf_row f) (released i (lf_writer f))
| call_dies :
    call i p f Exited (lf_row f) (released i (lf_writer f)).

Inductive lock_step : lock_file -> lock_file -> Prop :=
| process_calls f i p pc row writer :
    lf_processes f !! i = Some p -> call i p f pc row writer ->
    lock_step f {| lf_row := row; lf_writer := writer;
                   lf_processes := <[i := {| lp_pid := lp_pid p; lp_pc := pc |}]> (lf_processes f) |}
| process_starts f i pid :
    lf_processes f !! i = None ->
    lock_step f {| lf_row := lf_row f; lf_writer := lf_writer f;
                   lf_processes := <[i := {| lp_pid := pid; lp_pc := Connecting |}]> (lf_processes f) |}.

(** No lock file yet. *)
Definition no_lock_file : lock_file := {| lf_row := None; lf_writer := None; lf_processes := ∅ |}.

(** ** The invariant *)

Record lock_inv (f : lock_file) : Prop := {
  li_writer : forall i, lf_writer f = Some i <->
    exists p, lf_processes f !! i = Some p /\ in_transaction (lp_pc p) = true;
  li_holder : forall h, lf_row f = Some (Some h) ->
    h = "" \/ exists i p, lf_processes f !! i = Some p /\ h = to_string (lp_pid p);
}.

Lemma call_writer i p f pc row writer :
  lock_inv f -> lf_processes f !! i = Some p -> call i p f pc row writer ->
  (writer = Some i <-> in_transaction pc = true) /\
  (forall j, j <> i -> writer = Some j <-> lf_writer f = Some j).
Proof.
  intros Hi Hp Hc. destruct p as [pid pc0]. pose proof (li_writer f Hi i) as Hw.
  assert (Hmine : lf_writer f = Some i <-> in_transaction pc0 = true) by (rewrite Hw, Hp; naive_solver).
  clear Hw. unfold released, needs_lock, attempts in *.
  assert (Hrel : forall pc', in_transaction pc' = false ->
    (released i (lf_writer f) = Some i <-> in_transaction pc' = true) /\
    (forall j, j <> i -> released i (lf_writer f) = Some j <-> lf_writer f = Some j)).
  { intros pc' ->. unfold released. case_bool_decide as Hb; split; [done| |naive_solver|done].
    intros j Hj. rewrite Hb. naive_solver. }
  assert (Hkeep : forall pc', in_transaction pc' = in_transaction pc0 ->
    (lf_writer f = Some i <-> in_transaction pc' = true) /\
    (forall j, j <> i -> lf_writer f = Some j <-> lf_writer f = Some j)) by (intros pc' ->; done).
  destruct Hc as [pc row writer Hn Hok|err H1|H1 H2|err H1|err H1|err upd H1|err upd H1|fault source tx H1|]; cbn [lp_pc lp_pid] in *.
  - destruct pc0; cbn in Hok, Hn; try discriminate Hok; injection Hok as <- <- <-; try (by apply Hkeep).
    + split; [done|]. rewrite (Hn eq_refl). naive_solver.
    + split; [done|]. rewrite (proj2 Hmine eq_refl). naive_solver.
    + split; [done|]. rewrite (Hn eq_refl). naive_solver.
  - subst. by apply Hkeep.
  - apply Hkeep. by destruct pc0.
  - apply Hkeep. by destruct pc0.
  - apply Hkeep. by destruct H1 as [-> | ->].
  - by apply Hrel.
  - apply Hkeep. by subst.
  - by apply Hrel.
  - by apply Hrel.
Qed.

(** A call commits no row but the pid of its own process. *)
Lemma call_row i p f pc row writer :
  call i p f pc row writer ->
  row = lf_row f \/ row = Some (Some (to_string (lp_pid p)))
  \/ lf_row f = None /\ row = Some None \/ (lf_row f = None \/ lf_row f = Some None) /\ row = Some (Some "").
Proof.
  intros [pc' row' writer' Hn Hok|err H1|H1 H2|err H1|err H1|err upd H1|err upd H1|fault source tx H1|]; auto.
  destruct (lp_pc p); cbn in Hok; simplify_eq; auto; destruct (lf_row f) as [[h|]|]; cbn; auto 6.
Qed.

Lemma step_inv f f' : lock_inv f -> lock_step f f' -> lock_inv f'.
Proof.
  intros Hi Hs. destruct Hs as [f i p pc row writer Hp Hc|f i pid Hp].
  - pose proof (call_writer _ _ _ _ _ _ Hi Hp Hc) as [Hown Hoth]. split; cbn.
    + intros j. destruct (decide (j = i)) as [->|Hj].
      * rewrite Hown, lookup_insert_eq. naive_solver.
      * rewrite Hoth, (li_writer _ Hi), lookup_insert_ne by done. done.
    + intros h ->. assert (Hmine : exists j q, <[i:={| lp_pid := lp_pid p; lp_pc := pc |}]> (lf_processes f) !! j = Some q
        /\ to_string (lp_pid p) = to_string (lp_pid q)) by (exists i; eexists; by rewrite lookup_insert_eq).
      destruct (call_row _ _ _ _ _ _ Hc) as [Hr|[[= ->]|[[_ ?]|[_ [= ->]]]]]; [|by right|done|by left].
      destruct (li_holder _ Hi h (eq_sym Hr)) as [?|(j & q & Hj & ->)]; [by left|]. right.
      destruct (decide (j = i)) as [->|Hne]; [|exists j, q; by rewrite lookup_insert_ne].
      simplify_eq. exact Hmine.
  - split; cbn.
    + intros j. destruct (decide (j = i)) as [->|Hj].
      * rewrite lookup_insert_eq, (li_writer _ Hi), Hp. naive_solver.
      * by rewrite lookup_insert_ne, (li_writer _ Hi).
    + intros h Hh. destruct (li_holder _ Hi h Hh) as [?|(j & q & Hj & ->)]; [by left|]. right. exists j, q.
      rewrite lookup_insert_ne; [done|]. intros ->. congruence.
Qed.

Lemma lock_reachable f : rtc lock_step no_lock_file f -> lock_inv f.
Proof.
  intros Hr. remember no_lock_file as f0 eqn:E. assert (H0 : lock_inv f0).
  { subst. split; [|done]. intros i. cbn. split; [done|]. intros (p & Hp & _). by rewrite lookup_empty in Hp. }
  clear E. induction Hr as [|f1 f2 f3 Hs _ IH]; [done|]. apply IH. by eapply step_inv.
Qed.

Definition holds (i : nat) (f : lock_file) : Prop :=
  exists p, lf_processes f !! i = Some p /\ lp_pc p = Holding.

Lemma holds_writer i f : lock_inv f -> holds i f -> lf_writer f = Some i.
Proof. intros Hi (p & Hp & Hpc). apply (li_writer _ Hi). exists p. by rewrite Hpc. Qed.

(** What a failed attempt reports: the recorded holder, or none if it could not
    be read. *)
Definition recorded_holder (f : lock_file) : option string :=
  match lf_row f with
  | Some (Some holder) => if bool_decide (holder = "") then None else Some holder
  | _ => None
  end.

Lemma attempt_error fault f source :
  lock_attempt_error fault (lf_row f) source
  = Held source (match fault with Some _ => None | None => recorded_holder f end).
Proof.
  unfold lock_attempt_error, query_holder, recorded_holder. destruct fault; [done|].
  destruct (lf_row f) as [[h|]|]; try done. by case_bool_decide.
Qed.

(** While one process holds the lock no call of another changes the row, and a
    failed attempt queries the row and reports what the query returns. *)
Lemma call_while_held i j p f pc row writer :
  lock_inv f -> holds i f -> j <> i -> lf_processes f !! j = Some p -> call j p f pc row writer ->
  row = lf_row f
  /\ (attempts (lp_pc p) = true -> pc = Exited \/ attempts pc = true \/ exists source, pc = QueryHolder source None)
  /\ (forall source tx, lp_pc p = QueryHolder source tx ->
       pc = Exited \/ exists fault, pc = Failed (lock_attempt_error fault (lf_row f) source)).
Proof.
  intros Hi Hh Hne Hp Hc. pose proof (holds_writer _ _ Hi Hh) as Hw.
  assert (Hnt : in_transaction (lp_pc p) = false).
  { destruct (in_transaction (lp_pc p)) eqn:Ht; [|done].
    assert (lf_writer f = Some j) by (apply (li_writer _ Hi); by exists p). congruence. }
  destruct Hc as [pc row writer Hn Hok|err H1|H1 H2|err H1|err H1|err upd H1|err upd H1|fault source tx H1|];
    try (by destruct H1 as [H1|H1]; rewrite H1 in Hnt); try (by rewrite H1 in Hnt).
  - destruct (lp_pc p) eqn:Hpc; cbn in *; simplify_eq; try done; try (specialize (Hn eq_refl); congruence).
    case_bool_decide as Hb; [specialize (Hn eq_refl); congruence|].
    split; [by destruct (lf_row f) as [[]|]|]. split; [by right; left|done].
  - rewrite H1. split_and!; done.
  - split_and!; [done|by eauto|]. intros source tx Hpc. by rewrite Hpc in H1.
  - split_and!; [done|by eauto|]. intros source tx Hpc. by rewrite Hpc in H1.
  - rewrite H1 in Hnt |- *. split_and!; [done|done|]. intros s t [= <- <-]. right. exists fault.
    by destruct tx.
  - split_and!; [done|by left|by left].
Qed.

(** A process that runs alone while nobody writes gets the lock. *)
Lemma alone_run f i (pid : Z) :
  lf_writer f = None -> lf_processes f !! i = None -> exists f', rtc lock_step f f' /\ holds i f'.
Proof.
  intros Hw Hi.
  pose (at_pc := fun pc row writer =>
    {| lf_row := row; lf_writer := writer;
       lf_processes := <[i := {| lp_pid := pid; lp_pc := pc |}]> (lf_processes f) |}).
  assert (Hgo : forall pc row writer pc' row' writer',
    (needs_lock pc row = true -> writer = None) -> call_ok i pid pc row writer = Some (pc', row', writer') ->
    lock_step (at_pc pc row writer) (at_pc pc' row' writer')).
  { intros pc row writer pc' row' writer' Hn Hok.
    replace (at_pc pc' row' writer') with
      {| lf_row := row'; lf_writer := writer';
         lf_processes := <[i := {| lp_pid := pid; lp_pc := pc' |}]> (lf_processes (at_pc pc row writer)) |}
      by (unfold at_pc; cbn; by rewrite insert_insert_eq).
    apply (process_calls (at_pc pc row writer) i {| lp_pid := pid; lp_pc := pc |});
      [by apply lookup_insert_eq|]. by apply call_succeeds. }
  exists (at_pc Holding (Some (Some (to_string pid))) (Some i)). split.
  2: { eexists. by split; [apply lookup_insert_eq|]. }
  eapply rtc_l; [by apply (process_starts f i pid)|].
  change (rtc lock_step (at_pc Connecting (lf_row f) (lf_writer f)) (at_pc Holding (Some (Some (to_string pid))) (Some i))).
  rewrite Hw. do 7 (eapply rtc_l; [by apply Hgo|]). done.
Qed.

(** ** A race on the diagnostic *)

(** The state of two processes. *)
Definition two (pc0 pc1 : lock_pc) (row : option (option string)) (writer : option nat) : lock_file :=
  {| lf_row := row; lf_writer := writer;
     lf_processes := {[0%nat := {| lp_pid := 11; lp_pc := pc0 |}; 1%nat := {| lp_pid := 22; lp_pc := pc1 |}]} |}.

Lemma first_calls pc0 pc1 row writer pc row' writer' :
  (needs_lock pc0 row = true -> writer = None) -> call_ok 0 11 pc0 row writer = Some (pc, row', writer') ->
  lock_step (two pc0 pc1 row writer) (two pc pc1 row' writer').
Proof.
  intros Hn Hok. set (f := two pc0 pc1 row writer). set (p := {| lp_pid := 11; lp_pc := pc0 |}).
  assert (lf_processes f !! 0%nat = Some p) as Hp by (by apply lookup_insert_eq).
  pose proof (process_calls f 0%nat p pc row' writer' Hp (call_succeeds 0 p f _ _ _ Hn Hok)) as Hs.
  subst f p. cbn [lf_processes two lp_pid] in Hs. by rewrite insert_insert_eq in Hs.
Qed.

Lemma second_calls pc0 pc1 row writer pc row' writer' :
  (needs_lock pc1 row = true -> writer = None) -> call_ok 1 22 pc1 row writer = Some (pc, row', writer') ->
  lock_step (two pc0 pc1 row writer) (two pc0 pc row' writer').
Proof.
  intros Hn Hok. set (f := two pc0 pc1 row writer). set (p := {| lp_pid := 22; lp_pc := pc1 |}).
  assert (lf_processes f !! 1%nat = Some p) as Hp by done.
  pose proof (process_calls f 1%nat p pc row' writer' Hp (call_succeeds 1 p f _ _ _ Hn Hok)) as Hs.
  subst f p. cbn [lf_processes two lp_pid] in Hs. by rewrite insert_insert_ne, insert_singleton_eq in Hs.
Qed.

(** Two processes have committed their pids before the first takes the lock. *)
Definition raced : lock_file := two Holding BeginLock (Some (Some (to_string 22))) (Some 0%nat).

Ltac calls lem := eapply rtc_l; [apply lem; [by intros|reflexivity]|].

Lemma raced_reached : rtc lock_step no_lock_file raced.
Proof.
  eapply rtc_l; [by apply (process_starts _ 0%nat 11)|]. eapply rtc_l; [by apply (process_starts _ 1%nat 22)|].
  change (rtc lock_step (two Connecting Connecting None None) raced).
  do 6 calls first_calls. do 6 calls second_calls. calls first_calls. apply rtc_refl.
Qed.

(** C17: The writer lock of a data directory, under any interleaving of processes
    that take it, fail and die.  At most one process holds it.  While it does, no
    call of another process changes the recorded holder; an attempt of another
    process ends in an error or in its death before it has the lock, and the error
    reports the recorded holder, or no holder when the query for it failed.  The
    recorded holder is always the pid of a process that tried.  A process that
    tries alone when nobody is writing gets the lock.  The record is only a hint,
    though: there is a run in which it names another process than the one that
    holds the lock. *)
Theorem data_root_single_writer f :
  rtc lock_step no_lock_file f ->
  (forall i j, holds i f -> holds j f -> i = j)
  /\ (forall i j p pc row writer,
        holds i f -> j <> i -> lf_processes f !! j = Some p -> call j p f pc row writer ->
        row = lf_row f
        /\ (attempts (lp_pc p) = true ->
            pc = Exited \/ attempts pc = true \/ exists source, pc = QueryHolder source None)
        /\ (forall source tx, lp_pc p = QueryHolder source tx ->
            pc = Exited \/ exists fault,
              pc = Failed (lock_attempt_error fault (lf_row f) source)
              /\ lock_attempt_error fault (lf_row f) source
                 = Held source (match fault with Some _ => None | None => recorded_holder f end)))
  /\ (forall h, recorded_holder f = Some h ->
        exists i p, lf_processes f !! i = Some p /\ h = to_string (lp_pid p))
  /\ (forall i (pid : Z), lf_writer f = None -> lf_processes f !! i = None ->
        exists f', rtc lock_step f f' /\ holds i f')
  /\ exists f0 i p h, rtc lock_step no_lock_file f0 /\ holds i f0 /\ lf_processes f0 !! i = Some p
        /\ recorded_holder f0 = Some h /\ h <> to_string (lp_pid p).
Proof.
  intros Hr. pose proof (lock_reachable f Hr) as Hi. split; [|split; [|split; [|split]]].
  - intros i j Hh Hh'. apply holds_writer in Hh, Hh'; congruence.
  - intros i j p pc row writer Hh Hne Hp Hc.
    destruct (call_while_held _ _ _ _ _ _ _ Hi Hh Hne Hp Hc) as (Hrow & Hatt & Hq). split_and!; [done..|].
    intros source tx Hpc. destruct (Hq source tx Hpc) as [?|[fault ?]]; [by left|right].
    exists fault. split; [done|apply attempt_error].
  - intros h. unfold recorded_holder. destruct (lf_row f) as [[r|]|] eqn:Hrow; try done. case_bool_decide; [done|].
    intros [= <-]. by destruct (li_holder f Hi r Hrow) as [?|?].
  - intros i pid Hw Hn. by eapply alone_run.
  - exists raced, 0%nat, {| lp_pid := 11; lp_pc := Holding |}, "22". split; [apply raced_reached|].
    split; [by eexists|]. split; [done|]. split; [done|]. vm_compute. discriminate.
Qed.

Lemma data_root_single_writer_witness :
  rtc lock_step no_lock_file raced /\ forall j, holds j raced -> j = 0%nat.
Proof.
  split; [apply raced_reached|]. intros j Hj.
  apply (proj1 (data_root_single_writer raced raced_reached) j 0%nat Hj).
  exists {| lp_pid := 11; lp_pc := Holding |}. split; reflexivity.
Defined.
