(* ===== verification/Timeline.v ===== *)
(** * Timeline reads: historical bodies, coordinates and replay

    Models [core/src/audit/timeline_row.rs], [core/src/audit/timeline_address.rs],
    [core/src/audit/timeline_dereference.rs] and the read outcomes of
    [core/src/timeline.rs].  Each [_via_conn] function is one read transaction on
    a file; it verifies the chain in the same snapshot it reads. *)

From S2P Require Import Prelude.
From S2P Require Import RustStr.
From S2P Require Import Path.
From S2P Require Import Auth.
From S2P Require Import Crypto.
From S2P Require Import Types.
From S2P Require Import Db.
From S2P Require Import AuditVerify.
From S2P Require Import AuditGates.
From Stdlib Require Import Ascii.

(** ** [timeline_row.rs] *)

Record TimelineEventIdentity := {
  ti_event_type : string;
  ti_target : string;
  ti_body_sha256 : string;
}.

Record TimelineEventSnapshot := {
  ts_identity : TimelineEventIdentity;
  ts_size : Z;
  ts_content_type : string;
  ts_hmac : string;
  ts_headers : list (string * string);
}.

Record MatchedTimelineBodyRow := {
  mb_snapshot : TimelineEventSnapshot;
  mb_body_sha256 : string;
}.

Record MatchedTimelineNonBodyRow := {
  mn_snapshot : TimelineEventSnapshot;
  mn_kind : AuditEventKind;
  mn_event_target : string;
  mn_body_sha256 : string;
  mn_delete_subject : option DeleteSubjectProof;
}.

Record TimelineBodyHeadSnapshot := {
  bh_seq : Z;
  bh_event : TimelineEventIdentity;
  bh_hmac_label : string;
}.

Inductive TimelineBodyRowMatch :=
| MatchBody (row : MatchedTimelineBodyRow)
| MatchNonBody (row : MatchedTimelineNonBodyRow)
| TargetMismatch
| InvalidEventKind
| MatchInvalidEventShape
| InvalidBodySha256 (reason : InvalidHex)
| MatchBodyHashMismatch (actual : string).

Definition kind (i : TimelineEventIdentity) : option AuditEventKind :=
  from_storage (ti_event_type i).

Definition kind_or_corrupt (i : TimelineEventIdentity) : result sqlite_error AuditEventKind :=
  ok_or (corrupt_error "events.event_type is not a known audit event") (kind i).

Definition target_matches (i : TimelineEventIdentity) (world : string) : bool :=
  bool_decide (ti_target i = world).

(** [{err:?}] of [InvalidBodySha256]. *)
Definition InvalidHex_debug (err : InvalidHex) : string :=
  match err with WrongLength => "WrongLength" | NotLowerHex => "NotLowerHex" end.

Definition body_sha256_or_corrupt_raw (raw : string) : result sqlite_error string :=
  map_err (fun err => corrupt_error ("events.body_sha256 is invalid: " +:+ InvalidHex_debug err))
          (BodySha256_new raw).

Definition body_sha256_or_corrupt (i : TimelineEventIdentity) : result sqlite_error string :=
  body_sha256_or_corrupt_raw (ti_body_sha256 i).

Definition is_delete_kind (k : AuditEventKind) : bool :=
  match k with DeleteIntent | DeleteCommit | DeleteCommitFailed => true | _ => false end.

Definition delete_subject_proof_for_non_body (k : AuditEventKind)
    (event_target body_sha256 : string) (headers : list (string * string))
  : result unit (option DeleteSubjectProof) :=
  if negb (is_delete_kind k) then Ok None
  else map_err (fun _ => tt) (delete_subject_proof_from_headers event_target body_sha256 headers).

Definition match_non_body_row (s : TimelineEventSnapshot) (k : AuditEventKind)
  : TimelineBodyRowMatch :=
  if negb (notifies (class k)) || (ts_size s <? 0)%Z then MatchInvalidEventShape
  else
    match BodySha256_new (ti_body_sha256 (ts_identity s)) with
    | Err err => InvalidBodySha256 err
    | Ok body_sha256 =>
        match from_canonical (ti_target (ts_identity s)) with
        | Err _ => MatchInvalidEventShape
        | Ok event_target =>
            match delete_subject_proof_for_non_body k event_target body_sha256 (ts_headers s) with
            | Err _ => MatchInvalidEventShape
            | Ok delete_subject =>
                MatchNonBody {| mn_snapshot := s; mn_kind := k; mn_event_target := event_target;
                                mn_body_sha256 := body_sha256;
                                mn_delete_subject := delete_subject |}
            end
        end
    end.

(** [match_body_row] and [match_body_row_target_first] both forward here. *)
Definition match_body_row (s : TimelineEventSnapshot) (world expected_body_sha256 : string)
  : TimelineBodyRowMatch :=
  match kind (ts_identity s) with
  | None => InvalidEventKind
  | Some k =>
      if negb (body_bearing (class k)) then match_non_body_row s k
      else if negb (target_matches (ts_identity s) world) then TargetMismatch
      else
        match BodySha256_new (ti_body_sha256 (ts_identity s)) with
        | Err err => InvalidBodySha256 err
        | Ok body_sha256 =>
            if negb (ct_eq body_sha256 expected_body_sha256)
            then MatchBodyHashMismatch body_sha256
            else MatchBody {| mb_snapshot := s; mb_body_sha256 := body_sha256 |}
        end
  end.

(** [None] when the stored size is not the body's length. *)
Definition into_representation_with_hmac (row : MatchedTimelineBodyRow) (body : string)
  : option (Stage * string) :=
  if negb (bool_decide (i64_try_from (slen body) = Some (ts_size (mb_snapshot row)))) then None
  else Some ({| stage_body := body; stage_content_type := ts_content_type (mb_snapshot row);
                stage_headers := ts_headers (mb_snapshot row) |}, ts_hmac (mb_snapshot row)).

(** [SELECT ... FROM events WHERE id=?1]; [id] is the primary key. *)
Definition event_by_id (db : world_db) (seq : Z) : option EventRow :=
  head (filter (fun e => ev_id e = seq) (db_events db)).

Definition identity_of (e : EventRow) : TimelineEventIdentity :=
  {| ti_event_type := ev_event_type e; ti_target := ev_target e;
     ti_body_sha256 := ev_body_sha256 e |}.

Definition load_event_identity (db : world_db) (seq : Z) : option TimelineEventIdentity :=
  identity_of <$> event_by_id db seq.

Definition load_event_snapshot (db : world_db) (seq : Z) : option TimelineEventSnapshot :=
  e ← event_by_id db seq;
  Some {| ts_identity := identity_of e; ts_size := ev_size e;
          ts_content_type := ev_content_type e; ts_hmac := ev_hmac e;
          ts_headers := headers_of db seq |}.

Definition load_latest_body_head (db : world_db)
  : result sqlite_error (option TimelineBodyHeadSnapshot) :=
  match last (body_events db) with
  | None => Ok None
  | Some e =>
      seq ← map_err (fun _ => corrupt_error "events.id is not positive")
                    (TimelineSeq_new (ev_id e));
      Ok (Some {| bh_seq := seq; bh_event := identity_of e;
                  bh_hmac_label := hmac_label (ev_hmac e) |})
  end.

(** ** Read outcomes ([timeline.rs], [timeline_address.rs]) *)

Inductive TimelineCorruption :=
| MissingBodyForPresentRow | CorruptBodyHashMismatch | InvalidEventShape.

Record TimelineBody := {
  tb_address : TimelineAddress;
  tb_representation : Stage;
  tb_hmac : string;
}.

Record VerifiedExpiredTimelineBody := {
  xb_address : TimelineAddress;
  xb_content_type : string;
  xb_size : Z;
  xb_hmac : string;
}.

Inductive TimelineRead :=
| ReadBody (body : TimelineBody)
| ReadExpired (proof : VerifiedExpiredTimelineBody)
| ReadGenMismatch (requested : TimelineAddress) (actual : string)
| ReadMissingRow (address : TimelineAddress)
| ReadAddressMismatch (requested : TimelineAddress) (actual : string)
| ReadUnproven (address : TimelineAddress)
| ReadCorrupt (address : TimelineAddress) (reason : TimelineCorruption).

Record VerifiedBodyHead := { vh_address : TimelineAddress; vh_hmac : string }.

Inductive TimelineAddressLookup :=
| LookupBody (address : TimelineAddress)
| LookupMissingRow (world gen : string) (seq : Z)
| LookupNoBody (world gen : string) (seq : Z) (event_target : string).

Record VerifiedReplayPayload := {
  rp_body_sha256 : string;
  rp_size : Z;
  rp_content_type : string;
}.

Inductive VerifiedReplayEvent :=
| ReplayBody (world gen : string) (seq : Z) (k : AuditEventKind) (address : TimelineAddress)
    (payload : VerifiedReplayPayload) (hmac : string)
| ReplayNonBody (world gen : string) (seq : Z) (k : AuditEventKind) (event_target : string)
    (payload : VerifiedReplayPayload) (delete_subject : option DeleteSubjectProof)
    (hmac : string).

Inductive VerifiedReplayAfter :=
| ReplayEvents (events : list VerifiedReplayEvent)
| ReplayGenerationMismatch
| ReplayMissingMarker
| ReplayLimitExceeded.

Definition timeline_corrupt (address : TimelineAddress) (reason : TimelineCorruption)
  : TimelineRead := ReadCorrupt address reason.

Definition invalid_body_sha256_corruption (reason : InvalidHex) : TimelineCorruption :=
  match reason with WrongLength | NotLowerHex => InvalidEventShape end.

Section Timeline.
Context `{Crypto}.

(** [TimelineRead::body]: the bytes are hashed again. *)
Definition TimelineRead_body (address : TimelineAddress) (representation : Stage) (hmac : string)
  : TimelineRead :=
  let actual := sha256_hex (stage_body representation) in
  if negb (ct_eq (ta_body_sha256 address) actual)
  then ReadCorrupt address CorruptBodyHashMismatch
  else ReadBody {| tb_address := address; tb_representation := representation; tb_hmac := hmac |}.

Definition first_retained_seq_tx (db : world_db) : result sqlite_error (option Z) :=
  match db_floor db with
  | None => Ok None
  | Some seq =>
      seq ← map_err (fun _ => corrupt_error "cas_state.first_retained_seq invalid")
                    (TimelineSeq_new seq);
      Ok (Some seq)
  end.

Definition missing_timeline_body_read (db : world_db) (address : TimelineAddress)
    (row : MatchedTimelineBodyRow) : result sqlite_error TimelineRead :=
  floor ← first_retained_seq_tx db;
  if (match floor with Some seq => (seq <=? ta_seq address)%Z | None => false end)
  then Ok (timeline_corrupt address MissingBodyForPresentRow)
  else Ok (ReadExpired {| xb_address := address;
                          xb_content_type := ts_content_type (mb_snapshot row);
                          xb_size := ts_size (mb_snapshot row);
                          xb_hmac := ts_hmac (mb_snapshot row) |}).

Definition timeline_read_from_snapshot (db : world_db) (address : TimelineAddress)
    (row : TimelineEventSnapshot) : result sqlite_error TimelineRead :=
  match match_body_row row (ta_world address) (ta_body_sha256 address) with
  | MatchBody row =>
      match db_cas db !! ta_body_sha256 address with
      | None => missing_timeline_body_read db address row
      | Some body =>
          match into_representation_with_hmac row body with
          | None => Ok (timeline_corrupt address InvalidEventShape)
          | Some (representation, hmac) => Ok (TimelineRead_body address representation hmac)
          end
      end
  | MatchNonBody _ => Ok (timeline_corrupt address MissingBodyForPresentRow)
  | MatchBodyHashMismatch actual => Ok (ReadAddressMismatch address actual)
  | InvalidBodySha256 reason =>
      Ok (timeline_corrupt address (invalid_body_sha256_corruption reason))
  | InvalidEventKind | MatchInvalidEventShape | TargetMismatch =>
      Ok (timeline_corrupt address InvalidEventShape)
  end.

Definition read_timeline_body_via_conn (db : world_db) (address : TimelineAddress) (key : string)
  : result AuditError TimelineRead :=
  actual_gen ← storage (generation db);
  report ← storage (verify_world_tx db (ta_world address) key);
  _ ← require_intact report;
  if negb (bool_decide (actual_gen = ta_gen address)) then Ok (ReadGenMismatch address actual_gen)
  else
    match load_event_snapshot db (ta_seq address) with
    | Some row => storage (timeline_read_from_snapshot db address row)
    | None => Ok (ReadMissingRow address)
    end.

Definition verified_timeline_address_via_conn (db : world_db) (world : string) (seq : Z)
    (key : string) : result AuditError TimelineAddressLookup :=
  _ ← require_world_intact_tx db world key;
  gen ← storage (generation db);
  match load_event_identity db seq with
  | None => Ok (LookupMissingRow world gen seq)
  | Some row =>
      k ← storage (kind_or_corrupt row);
      if negb (body_bearing (class k)) then Ok (LookupNoBody world gen seq (ti_target row))
      else
        _ ← storage (ensure (target_matches row world)
                       (corrupt_error "events.target does not match requested world"));
        body_sha256 ← storage (body_sha256_or_corrupt row);
        Ok (LookupBody {| ta_world := world; ta_gen := gen; ta_seq := seq;
                          ta_body_sha256 := body_sha256 |})
  end.

Definition verified_latest_body_head_via_conn (db : world_db) (world key : string)
  : result AuditError (option VerifiedBodyHead) :=
  report ← storage (verify_world_tx db world key);
  _ ← require_intact report;
  _ ← require_none (live_body_verify_tx db);
  head ← storage (load_latest_body_head db);
  match head with
  | None => Ok None
  | Some head =>
      let row := bh_event head in
      k ← storage (kind_or_corrupt row);
      _ ← storage (ensure (body_bearing (class k))
                     (corrupt_error "latest body query returned a metadata event"));
      _ ← storage (ensure (target_matches row world)
                     (corrupt_error "events.target does not match requested world"));
      body_sha256 ← storage (body_sha256_or_corrupt row);
      gen ← storage (generation db);
      Ok (Some {| vh_address := {| ta_world := world; ta_gen := gen; ta_seq := bh_seq head;
                                   ta_body_sha256 := body_sha256 |};
                  vh_hmac := bh_hmac_label head |})
  end.

(** ** Replay after a marker *)

(** [{err:?}] of [DeleteSubjectProofError]. *)
Definition DeleteSubjectProofError_debug (err : DeleteSubjectProofError) : string :=
  let str name := String quote_char name +:+ String quote_char "" in
  match err with
  | Missing name => "Missing(" +:+ str name +:+ ")"
  | Duplicated name => "Duplicated(" +:+ str name +:+ ")"
  | InvalidSubject name => "Invalid(" +:+ str name +:+ ")"
  | WorldMismatch => "WorldMismatch"
  | BodyHashMismatch => "BodyHashMismatch"
  end.

(** [name LIKE 'auditedb-delete-subject-%']: SQLite's LIKE ignores ASCII case. *)
Definition delete_subject_proof_for_replay_event (db : world_db) (seq : Z) (k : AuditEventKind)
    (target body_sha256 : string) : result sqlite_error (option DeleteSubjectProof) :=
  if negb (is_delete_kind k) then Ok None
  else
    let headers :=
      filter (fun p => starts_with DELETE_SUBJECT_RESERVED_PREFIX
                         (to_ascii_lowercase (fst p)) = true) (headers_of db seq) in
    map_err (fun err => corrupt_error ("delete subject proof is invalid: "
                                       +:+ DeleteSubjectProofError_debug err))
            (delete_subject_proof_from_headers target body_sha256 headers).

(** One iteration of the row loop. *)
Definition replay_event (db : world_db) (world gen : string) (row : EventRow)
  : result sqlite_error VerifiedReplayEvent :=
  seq ← map_err (fun _ => corrupt_error "events.id is not positive") (TimelineSeq_new (ev_id row));
  k ← ok_or (corrupt_error "events.event_type is not a known audit event")
            (from_storage (ev_event_type row));
  _ ← ensure (negb (ev_size row <? 0)%Z) (corrupt_error "events.size is negative");
  body_sha256 ← body_sha256_or_corrupt_raw (ev_body_sha256 row);
  let payload := {| rp_body_sha256 := body_sha256; rp_size := ev_size row;
                    rp_content_type := ev_content_type row |} in
  if body_bearing (class k) then
    _ ← ensure (bool_decide (ev_target row = world))
               (corrupt_error "events.target does not match requested world");
    Ok (ReplayBody world gen seq k
          {| ta_world := world; ta_gen := gen; ta_seq := seq; ta_body_sha256 := body_sha256 |}
          payload (ev_hmac row))
  else if negb (notifies (class k)) then
    Err (corrupt_error "events.event_type is not subscribable")
  else
    match from_canonical (ev_target row) with
    | Ok event_target =>
        delete_subject ← delete_subject_proof_for_replay_event db seq k event_target body_sha256;
        Ok (ReplayNonBody world gen seq k event_target payload delete_subject (ev_hmac row))
    | Err _ => Err (corrupt_error "events.target is not a canonical world")
    end.

(** The loop: [None] when it broke over the limit. *)
Fixpoint replay_rows (db : world_db) (world gen : string) (limit : Z) (rows : list EventRow)
    (events : list VerifiedReplayEvent)
  : result sqlite_error (option (list VerifiedReplayEvent)) :=
  match rows with
  | [] => Ok (Some events)
  | row :: rows =>
      if (limit <=? Z.of_nat (length events))%Z then Ok None
      else
        e ← replay_event db world gen row;
        replay_rows db world gen limit rows (events ++ [e])
  end.

Definition rows_after (db : world_db) (after query_limit : Z) : list EventRow :=
  take (Z.to_nat query_limit) (filter (fun e => (after < ev_id e)%Z) (db_events db)).

Definition verified_replay_events_after_via_conn (db : world_db) (world generation_ : string)
    (after limit : Z) (key : string) : result AuditError VerifiedReplayAfter :=
  _ ← require_world_intact_tx db world key;
  actual_gen ← storage (generation db);
  if negb (bool_decide (actual_gen = generation_)) then Ok ReplayGenerationMismatch
  else
    match load_event_identity db after with
    | None => Ok ReplayMissingMarker
    | Some marker =>
        marker_kind ← storage (kind_or_corrupt marker);
        _ ← storage (ensure (negb (body_bearing (class marker_kind)
                                   && negb (target_matches marker world)))
                       (corrupt_error "events.target does not match requested world"));
        let query_limit := default i64_max (i64_try_from (saturating_add limit 1)) in
        r ← storage (replay_rows db world actual_gen limit (rows_after db after query_limit) []);
        match r with
        | None => Ok ReplayLimitExceeded
        | Some events => Ok (ReplayEvents events)
        end
    end.

(** ** [timeline_dereference.rs] *)

Record VerifiedNonBodyEvent := {
  nb_requested : TimelineCoordinate;
  nb_event_type : string;
  nb_event_target : string;
  nb_body_sha256 : string;
  nb_size : Z;
  nb_content_type : string;
  nb_delete_subject : option DeleteSubjectProof;
  nb_hmac : string;
}.

Record VerifiedExpiredBody := {
  ve_requested : TimelineCoordinate;
  ve_content_type : string;
  ve_size : Z;
  ve_hmac : string;
}.

Inductive TimelineDereference :=
| DerefBody (body : TimelineBody)
| DerefGenMismatch (requested : TimelineCoordinate) (actual : string)
| DerefBodyHashMismatch (requested : TimelineCoordinate) (actual_body_sha256 : string)
| DerefNonBodyEvent (proof : VerifiedNonBodyEvent)
| DerefExpired (proof : VerifiedExpiredBody)
| DerefMissingRow (requested : TimelineCoordinate)
| UnprovenCoordinate (coordinate : TimelineCoordinate)
| DerefCorrupt (coordinate : TimelineCoordinate) (reason : TimelineCorruption).

Definition VerifiedGenerationMismatch_new (requested : TimelineCoordinate) (actual : string)
  : option TimelineDereference :=
  if bool_decide (tc_gen requested = actual) then None
  else Some (DerefGenMismatch requested actual).

Definition VerifiedBodyHashMismatch_new (requested : TimelineCoordinate)
    (actual_body_sha256 : string) : option TimelineDereference :=
  if ct_eq (tc_body_sha256 requested) actual_body_sha256 then None
  else Some (DerefBodyHashMismatch requested actual_body_sha256).

Definition VerifiedNonBodyEvent_new (requested : TimelineCoordinate)
    (row : MatchedTimelineNonBodyRow) : VerifiedNonBodyEvent :=
  {| nb_requested := requested; nb_event_type := as_str (mn_kind row);
     nb_event_target := mn_event_target row; nb_body_sha256 := mn_body_sha256 row;
     nb_size := ts_size (mn_snapshot row); nb_content_type := ts_content_type (mn_snapshot row);
     nb_delete_subject := mn_delete_subject row; nb_hmac := ts_hmac (mn_snapshot row) |}.

Definition VerifiedExpiredBody_new (requested : TimelineCoordinate)
    (expired : VerifiedExpiredTimelineBody) : option VerifiedExpiredBody :=
  let address := xb_address expired in
  if negb (bool_decide (tc_world requested = ta_world address))
     || negb (bool_decide (tc_gen requested = ta_gen address))
     || negb (bool_decide (tc_seq requested = ta_seq address))
     || negb (ct_eq (tc_body_sha256 requested) (ta_body_sha256 address))
  then None
  else Some {| ve_requested := requested; ve_content_type := xb_content_type expired;
               ve_size := xb_size expired; ve_hmac := xb_hmac expired |}.

(** [VerifiedCoordinateBodyEvent::new] and the address minted from it. *)
Definition VerifiedCoordinateBodyEvent_new (coordinate : TimelineCoordinate)
    (gen body_sha256 : string) : option TimelineAddress :=
  if negb (bool_decide (tc_gen coordinate = gen))
     || negb (ct_eq (tc_body_sha256 coordinate) body_sha256)
  then None
  else Some {| ta_world := tc_world coordinate; ta_gen := gen; ta_seq := tc_seq coordinate;
               ta_body_sha256 := body_sha256 |}.

Definition dereference_snapshot (db : world_db) (coordinate : TimelineCoordinate)
    (row : TimelineEventSnapshot) (gen : string) : result sqlite_error TimelineDereference :=
  let corrupt reason := DerefCorrupt coordinate reason in
  match match_body_row row (tc_world coordinate) (tc_body_sha256 coordinate) with
  | MatchNonBody row => Ok (DerefNonBodyEvent (VerifiedNonBodyEvent_new coordinate row))
  | MatchBodyHashMismatch actual =>
      Ok (default (corrupt InvalidEventShape) (VerifiedBodyHashMismatch_new coordinate actual))
  | InvalidBodySha256 reason => Ok (corrupt (invalid_body_sha256_corruption reason))
  | InvalidEventKind | MatchInvalidEventShape | TargetMismatch => Ok (corrupt InvalidEventShape)
  | MatchBody row =>
      match VerifiedCoordinateBodyEvent_new coordinate gen (mb_body_sha256 row) with
      | None => Ok (corrupt InvalidEventShape)
      | Some address =>
          match db_cas db !! ta_body_sha256 address with
          | None =>
              read ← missing_timeline_body_read db address row;
              match read with
              | ReadExpired expired =>
                  match VerifiedExpiredBody_new coordinate expired with
                  | Some proof => Ok (DerefExpired proof)
                  | None => Ok (corrupt InvalidEventShape)
                  end
              | ReadCorrupt _ reason => Ok (corrupt reason)
              | _ => Ok (corrupt InvalidEventShape)
              end
          | Some body =>
              match into_representation_with_hmac row body with
              | None => Ok (corrupt InvalidEventShape)
              | Some (representation, hmac) =>
                  match TimelineRead_body address representation hmac with
                  | ReadBody body => Ok (DerefBody body)
                  | ReadCorrupt _ reason => Ok (corrupt reason)
                  | _ => Ok (corrupt InvalidEventShape)
                  end
              end
          end
      end
  end.

Definition dereference_timeline_coordinate_via_conn (db : world_db)
    (coordinate : TimelineCoordinate) (key : string) : result AuditError TimelineDereference :=
  actual_gen ← storage (generation db);
  report ← storage (verify_world_tx db (tc_world coordinate) key);
  _ ← require_intact report;
  if negb (bool_decide (actual_gen = tc_gen coordinate)) then
    Ok (match VerifiedGenerationMismatch_new coordinate actual_gen with
        | Some proof => proof
        | None => DerefCorrupt coordinate InvalidEventShape
        end)
  else
    match load_event_snapshot db (tc_seq coordinate) with
    | Some row => storage (dereference_snapshot db coordinate row actual_gen)
    | None => Ok (DerefMissingRow coordinate)
    end.

End Timeline.
