(* ===== verification/EventId.v ===== *)
(** * Subscription event ids and change events

    Models [core/src/subscription_event_id.rs], the change events and patterns of
    [core/src/event.rs] and the public event of [core/src/engine_subscription.rs].
    A durable id is printed as [<percent-encoded world>@<generation>=<seq>]. *)

From S2P Require Import Prelude.
From S2P Require Import RustStr.
From S2P Require Import Path.
From S2P Require Import Auth.
From S2P Require Import Crypto.
From S2P Require Import Types.
From S2P Require Import Db.
From S2P Require Import AuditVerify.
From S2P Require Import AuditGates.
From S2P Require Import AuditAppend.
From S2P Require Import Timeline.
From Stdlib Require Import Ascii.

(** ** [SubscriptionEventId] *)

Record SubscriptionEventId := {
  sid_world : string;
  sid_generation : string;
  sid_seq : Z;
}.

#[global] Instance SubscriptionEventId_eq_dec : EqDecision SubscriptionEventId.
Proof. solve_decision. Defined.

Inductive InvalidSubscriptionEventId :=
| MissingSeqDelimiter
| MissingGenerationDelimiter
| InvalidWorldUtf8
| IdWorldPath (reason : string)
| IdMemoryWorld
| IdGenerationWrongLength
| IdGenerationNotLowerHex
| SeqNotInteger
| SeqOutOfRange
| SeqNonPositive
| NonCanonical.

(** The bytes [encode_event_id_world] copies. *)
Definition event_id_plain (byte : ascii) : bool :=
  is_ascii_alphanumeric byte || bool_decide (byte ∈ ["/"; "_"; "."; "~"; "-"]%char).

Fixpoint encode_event_id_world (world : string) : string :=
  match world with
  | "" => ""
  | String byte rest =>
      (if event_id_plain byte then String byte "" else percent_byte byte)
        +:+ encode_event_id_world rest
  end.

(** [Display]. *)
Definition SubscriptionEventId_to_string (id : SubscriptionEventId) : string :=
  encode_event_id_world (sid_world id) +:+ "@" +:+ sid_generation id
    +:+ "=" +:+ to_string (sid_seq id).

Section FromSseId.
Context `{PercentEncoding}.

Definition from_sse_id (raw : string)
  : result InvalidSubscriptionEventId SubscriptionEventId :=
  '(lhs, seq) ← ok_or MissingSeqDelimiter (rsplit_once "=" raw);
  '(world, generation) ← ok_or MissingGenerationDelimiter (rsplit_once "@" lhs);
  let decoded := percent_decode_str world in
  _ ← ensure (is_utf8 decoded) InvalidWorldUtf8;
  world ← map_err IdWorldPath (from_canonical decoded);
  _ ← ensure (negb (is_memory_world world)) IdMemoryWorld;
  generation ← map_err (fun err => match err with
                                   | WrongLength => IdGenerationWrongLength
                                   | NotLowerHex => IdGenerationNotLowerHex
                                   end) (WorldGeneration_new generation);
  _ ← ensure (negb (bool_decide (seq = ""))) SeqNotInteger;
  seq ← (if sall is_ascii_digit seq
            || match strip_prefix "-" seq with
               | Some rest => negb (bool_decide (rest = "")) && sall is_ascii_digit rest
               | None => false
               end
         then ok_or SeqOutOfRange (parse_i64 seq)
         else Err SeqNotInteger);
  seq ← map_err (fun _ => SeqNonPositive) (TimelineSeq_new seq);
  let parsed := {| sid_world := world; sid_generation := generation; sid_seq := seq |} in
  _ ← ensure (bool_decide (raw = SubscriptionEventId_to_string parsed)) NonCanonical;
  Ok parsed.
End FromSseId.

Definition same_chain_at_or_before (id fence : SubscriptionEventId) : bool :=
  bool_decide (sid_world id = sid_world fence)
  && bool_decide (sid_generation id = sid_generation fence)
  && (sid_seq id <=? sid_seq fence)%Z.

Definition from_timeline_address (a : TimelineAddress) : SubscriptionEventId :=
  {| sid_world := ta_world a; sid_generation := ta_gen a; sid_seq := ta_seq a |}.

Definition from_appended_audit_row (row : AppendedAuditRow) : SubscriptionEventId :=
  {| sid_world := ar_world row; sid_generation := ar_generation row; sid_seq := ar_id row |}.

Definition from_verified_replay_event (e : VerifiedReplayEvent) : SubscriptionEventId :=
  match e with
  | ReplayBody world gen seq _ _ _ _ | ReplayNonBody world gen seq _ _ _ _ _ =>
      {| sid_world := world; sid_generation := gen; sid_seq := seq |}
  end.

(** ** Change events *)

Inductive ChangeEventIdentity := IdentityChain (id : SubscriptionEventId) | IdentityEphemeral.

Record AuditEventPayload := {
  ap_kind : AuditEventKind;
  ap_target : string;
  ap_body_sha256 : string;
  ap_size : Z;
  ap_content_type : string;
  ap_delete_subject : option DeleteSubjectProof;
}.

Record MatchedChainEvent := {
  me_id : SubscriptionEventId;
  me_timeline_address : option TimelineAddress;
  me_audit_payload : AuditEventPayload;
}.

Inductive ChangeTarget := TargetChain (e : MatchedChainEvent) | TargetEphemeral (world : string).

Definition payload_of_row (row : AppendedAuditRow) (s : option DeleteSubjectProof)
  : AuditEventPayload :=
  {| ap_kind := ar_event_type row; ap_target := ar_target row;
     ap_body_sha256 := ar_body_sha256 row; ap_size := ar_size row;
     ap_content_type := ar_content_type row; ap_delete_subject := s |}.

Definition target_from_appended_audit_row (row : AppendedAuditRow) : ChangeTarget :=
  TargetChain {| me_id := from_appended_audit_row row; me_timeline_address := None;
                 me_audit_payload := payload_of_row row None |}.

Definition target_from_appended_body_audit_row (row : AppendedBodyAuditRow) : ChangeTarget :=
  let address := br_timeline_address row in
  TargetChain {| me_id := from_timeline_address address; me_timeline_address := Some address;
                 me_audit_payload := payload_of_row (br_row row) None |}.

Definition replay_kind (e : VerifiedReplayEvent) : AuditEventKind :=
  match e with ReplayBody _ _ _ k _ _ _ | ReplayNonBody _ _ _ k _ _ _ _ => k end.

Definition replay_hmac (e : VerifiedReplayEvent) : string :=
  match e with ReplayBody _ _ _ _ _ _ h | ReplayNonBody _ _ _ _ _ _ _ h => h end.

Definition target_from_verified_replay_event (e : VerifiedReplayEvent) : ChangeTarget :=
  match e with
  | ReplayBody world _ _ k address p _ =>
      TargetChain {| me_id := from_timeline_address address; me_timeline_address := Some address;
                     me_audit_payload :=
                       {| ap_kind := k; ap_target := world; ap_body_sha256 := rp_body_sha256 p;
                          ap_size := rp_size p; ap_content_type := rp_content_type p;
                          ap_delete_subject := None |} |}
  | ReplayNonBody _ _ _ k event_target p delete_subject _ =>
      TargetChain {| me_id := from_verified_replay_event e; me_timeline_address := None;
                     me_audit_payload :=
                       {| ap_kind := k; ap_target := event_target;
                          ap_body_sha256 := rp_body_sha256 p; ap_size := rp_size p;
                          ap_content_type := rp_content_type p;
                          ap_delete_subject := delete_subject |} |}
  end.

Definition target_world (t : ChangeTarget) : string :=
  match t with TargetChain e => sid_world (me_id e) | TargetEphemeral world => world end.

Definition target_identity (t : ChangeTarget) : ChangeEventIdentity :=
  match t with TargetChain e => IdentityChain (me_id e) | TargetEphemeral _ => IdentityEphemeral end.

Inductive ChangeVerb := VerbReplace | VerbAppend | VerbDelete | VerbFormat.

Record ChangeEventAux := {
  aux_delete_ledger_event_id : option SubscriptionEventId;
  aux_delete_subject : option DeleteSubjectProof;
}.

Definition aux_default : ChangeEventAux :=
  {| aux_delete_ledger_event_id := None; aux_delete_subject := None |}.

(** The internal event of [event.rs]; [ce_id] is the process-local delivery id. *)
Record ChangeEvent := {
  ce_id : Z;
  ce_verb : ChangeVerb;
  ce_target : ChangeTarget;
  ce_etag : string;
  ce_aux : ChangeEventAux;
}.

Definition ce_path (e : ChangeEvent) : string := target_world (ce_target e).
Definition ce_identity (e : ChangeEvent) : ChangeEventIdentity := target_identity (ce_target e).

(** ** Patterns *)

Definition pattern (raw : string) : string :=
  let p := trim raw in
  if bool_decide (p = "*") || bool_decide (p = "/*") || bool_decide (p = "/")
     || bool_decide (p = "")
  then "*"
  else if starts_with "/" p then p
  else "/" +:+ p.

Definition strip_or (s : string) : string := default s (strip_prefix "/" s).

Definition matches_world (pattern path : string) : bool :=
  if bool_decide (pattern = "*") then true
  else
    match strip_suffix_char "*" pattern with
    | Some prefix => starts_with (strip_or prefix) path
    | None => bool_decide (path = strip_or pattern)
    end.

(** [SubscribePattern::exact_world]. *)
Definition exact_world (p : string) : result string (option string) :=
  if bool_decide (p = "*") || ends_with_char "*" p then Ok None
  else w ← from_canonical (strip_or p); Ok (Some w).

(** ** Lemmas *)

Lemma rsplit_once_no_sep c s :
  sall (fun d => negb (ascii_eqb d c)) s = true -> rsplit_once c s = None.
Proof.
  induction s as [|a s IH]; cbn; [done|]. rewrite andb_true_iff, negb_true_iff.
  intros [-> Hs]. by rewrite IH.
Qed.

Lemma rsplit_once_app c l r :
  sall (fun d => negb (ascii_eqb d c)) r = true -> rsplit_once c (l +:+ String c r) = Some (l, r).
Proof.
  intros Hr. induction l as [|a l IH].
  - rewrite sapp_nil_l. cbn. by rewrite rsplit_once_no_sep, ascii_eqb_refl.
  - rewrite sapp_cons. cbn. by rewrite IH.
Qed.

Lemma digit_no_equals s :
  sall is_ascii_digit s = true -> sall (fun d => negb (ascii_eqb d "=")) s = true.
Proof.
  apply sall_impl. intros c Hc. apply negb_true_iff, not_true_iff_false.
  rewrite ascii_eqb_spec. by intros ->.
Qed.

Lemma hex_no_at s :
  is_lower_hex s = true -> sall (fun d => negb (ascii_eqb d "@")) s = true.
Proof.
  unfold is_lower_hex. apply sall_impl. intros c Hc. apply negb_true_iff, not_true_iff_false.
  rewrite ascii_eqb_spec. by intros ->.
Qed.

Section EventIdTheorems.
Context `{PercentLaws}.

Lemma decode_event_id_world w : percent_decode_str (encode_event_id_world w) = w.
Proof.
  induction w as [|c w IH]; cbn [encode_event_id_world]; [apply percent_decode_nil|].
  destruct (event_id_plain c) eqn:E; [|by rewrite percent_byte_decode, IH].
  rewrite sapp_cons, sapp_nil_l, percent_decode_plain; [by rewrite IH|]. intros ->. done.
Qed.

(** A durable event id as the program mints it. *)
Definition event_id_wf (id : SubscriptionEventId) : Prop :=
  valid_world (sid_world id) /\ is_utf8 (sid_world id) = true
  /\ is_memory_world (sid_world id) = false
  /\ WorldGeneration_new (sid_generation id) = Ok (sid_generation id)
  /\ (0 < sid_seq id <= i64_max)%Z.

(** The textual event id and the parser are exact inverses: a string parses
    to an id exactly when the id is well formed (valid durable UTF-8 world,
    generation, positive 64-bit sequence) and the string is its printed form,
    so every minted id can be resumed from and no other spelling of it is
    accepted. *)
Theorem event_id_roundtrip raw id :
  from_sse_id raw = Ok id <-> event_id_wf id /\ raw = SubscriptionEventId_to_string id.
Proof.
  unfold from_sse_id. split.
  - intros Hp. apply result_bind_Ok in Hp as ([lhs seq] & _ & Hp).
    apply result_bind_Ok in Hp as ([world generation] & _ & Hp). inv_ok.
    match goal with H : bool_decide (raw = _) = true |- _ =>
      apply bool_decide_eq_true in H as Hraw end.
    match goal with H : from_canonical _ = Ok _ |- _ =>
      apply from_canonical_valid in H as [-> Hw] end.
    match goal with H : WorldGeneration_new _ = Ok _ |- _ =>
      pose proof H as [Eg _]%WorldGeneration_new_Ok; rewrite Eg in *; rename H into Hg end.
    match goal with H : TimelineSeq_new _ = Ok _ |- _ =>
      apply TimelineSeq_new_Ok in H as [-> Hpos] end.
    split; [|done]. cbn [sid_world sid_generation sid_seq]. split_and!; try done.
    + by apply negb_true_iff.
    + match goal with H : (if _ then _ else _) = Ok _ |- _ =>
        destruct (_ || _) in H; [|done]; apply ok_or_Ok in H; rename H into Hi end.
      unfold parse_i64 in Hi. apply bind_Some in Hi as (z & _ & Hz).
      destruct (_ && _) eqn:Eb in Hz; [|done]. injection Hz as ->.
      apply andb_true_iff in Eb as [_ Hle%Z.leb_le]. done.
  - intros [(Hw & Hu & Hm & Hg & Hs) ->]. unfold SubscriptionEventId_to_string.
    destruct id as [world generation seq]. cbn [sid_world sid_generation sid_seq] in *.
    pose proof Hg as (_ & _ & Hhex)%WorldGeneration_new_Ok.
    assert (sall is_ascii_digit (to_string seq) = true) as Hd by (apply to_string_digits; lia).
    replace (encode_event_id_world world +:+ "@" +:+ generation +:+ "=" +:+ to_string seq)
      with ((encode_event_id_world world +:+ String "@" generation) +:+ String "=" (to_string seq))
      by (rewrite !sapp_assoc, !sapp_cons, !sapp_nil_l; done).
    rewrite rsplit_once_app by (by apply digit_no_equals). cbn [ok_or mbind result_bind].
    rewrite rsplit_once_app by (by apply hex_no_at). cbn [ok_or mbind result_bind].
    rewrite decode_event_id_world, Hu. cbn [ensure mbind result_bind].
    rewrite Hw. cbn [map_err mbind result_bind]. rewrite Hm. cbn [negb ensure mbind result_bind].
    rewrite Hg. cbn [map_err mbind result_bind].
    assert (to_string seq <> "") as Hne.
    { destruct seq as [|p|p]; [lia| |lia]. apply (pretty_N_nonempty (N.pos p)). }
    rewrite bool_decide_false by done. cbn [negb ensure mbind result_bind]. rewrite Hd. cbn [orb].
    rewrite parse_i64_to_string by (unfold i64_min; lia). cbn [ok_or mbind result_bind].
    rewrite (proj2 (TimelineSeq_new_Ok seq seq)) by (split; [done|lia]).
    cbn [map_err mbind result_bind]. rewrite bool_decide_true; [done|].
    rewrite !sapp_assoc, !sapp_cons, !sapp_nil_l. done.
Qed.
End EventIdTheorems.

Lemma event_id_roundtrip_witness :
  from_sse_id "home/a%20b@00000000000000000000000000000001=7"
  = Ok {| sid_world := "home/a b"; sid_generation := "00000000000000000000000000000001";
          sid_seq := 7 |}.
Proof.
  apply (event_id_roundtrip "home/a%20b@00000000000000000000000000000001=7"
           {| sid_world := "home/a b"; sid_generation := "00000000000000000000000000000001";
              sid_seq := 7 |}).
  split; [|evaluate]. split_and!; evaluate.
Defined.

(** *** Patterns *)

(** A pattern without trailing star matches one world only. *)
Lemma exact_world_matches p w :
  exact_world p = Ok (Some w) ->
  valid_world w /\ forall path, matches_world p path = true <-> path = w.
Proof.
  unfold exact_world, matches_world, ends_with_char. intros He.
  destruct (bool_decide (p = "*")) eqn:Es; [done|]. cbn [orb] in He.
  destruct (strip_suffix_char "*" p) as [s|] eqn:Ep; [by rewrite bool_decide_true in He by (by eexists)|].
  rewrite bool_decide_false in He by (by intros [??]). inv_ok.
  match goal with H : from_canonical _ = Ok _ |- _ => apply from_canonical_valid in H as [-> Hw] end.
  split; [done|]. intros path. apply bool_decide_eq_true.
Qed.
