(* ===== verification/Store.v ===== *)
(** * The transient store

    Models [core/src/store.rs]: the memory worlds below [tmp/], [dev/] and
    [sys/], with their byte budget.  Each operation holds the map entry and the
    budget lock for its whole commit, so it is one step on the store; a refused
    operation leaves the store as it was. *)

From S2P Require Import Prelude.
From S2P Require Import RustStr.
From S2P Require Import Path.
From S2P Require Import Crypto.
From S2P Require Import Types.
From S2P Require Import AuditGates.
From Stdlib Require Import Ascii.

Record MemEntry := {
  mem_body : string;
  mem_body_hash : string;
  mem_content_type : string;
  mem_headers : list (string * string);
}.

Record MemoryStore := {
  ms_map : gmap string MemEntry;
  ms_accounted : Z;
}.

Record MemoryQuotaError := { mq_used : Z; mq_quota : Z; mq_projected : Z }.
Record MemoryWriteOutcome := { mw_existed : bool }.
Record AppendResult := { body_sha256_after : string }.

Definition MEMORY_ENTRY_OVERHEAD_BYTES : Z := 128.
Definition MEMORY_BODY_HASH_HEX_BYTES : Z := 64.

Definition MemoryStore_new : MemoryStore := {| ms_map := ∅; ms_accounted := 0 |}.

(** [MemoryWorldPath::new]: the proof that a path is a memory world. *)
Definition MemoryWorldPath_new (world : string) : option string :=
  if is_memory_world world then Some world else None.

Fixpoint metadata_bytes (total : Z) (headers : list (string * string)) : option Z :=
  match headers with
  | [] => Some total
  | (name, value) :: rest =>
      t ← checked_add total (slen name);
      t ← checked_add t (slen value);
      metadata_bytes t rest
  end.

Definition accounted_entry_parts_bytes (world : string) (body_len : Z) (content_type : string)
    (headers : list (string * string)) : option Z :=
  a ← checked_add MEMORY_ENTRY_OVERHEAD_BYTES (slen world);
  a ← checked_add a body_len;
  a ← checked_add a MEMORY_BODY_HASH_HEX_BYTES;
  m ← metadata_bytes (slen content_type) headers;
  checked_add a m.

Definition accounted_entry_bytes (world : string) (entry : MemEntry) : option Z :=
  accounted_entry_parts_bytes world (slen (mem_body entry)) (mem_content_type entry)
    (mem_headers entry).

Definition projected_accounted_bytes (used previous next : Z) : option Z :=
  rest ← checked_sub used previous;
  checked_add rest next.

Definition accounting_overflow (s : MemoryStore) (quota : Z) : MemoryQuotaError :=
  {| mq_used := ms_accounted s; mq_quota := quota; mq_projected := usize_max |}.

Section Store.
Context `{Crypto}.

Definition MemEntry_new (body content_type : string) (headers : list (string * string))
  : MemEntry :=
  {| mem_body := body; mem_body_hash := sha256_hex body; mem_content_type := content_type;
     mem_headers := headers |}.

Definition read_with_hash (s : MemoryStore) (world : string) : option (Stage * string) :=
  e ← ms_map s !! world;
  Some ({| stage_body := mem_body e; stage_content_type := mem_content_type e;
           stage_headers := mem_headers e |}, mem_body_hash e).

Definition read (s : MemoryStore) (world : string) : option Stage :=
  fst <$> read_with_hash s world.

Definition mem_metadata (s : MemoryStore) (world : string)
  : option (Z * string * list (string * string)) :=
  e ← ms_map s !! world;
  Some (slen (mem_body e), mem_content_type e, mem_headers e).

Definition contains (s : MemoryStore) (world : string) : bool :=
  bool_decide (is_Some (ms_map s !! world)).

(** Compare the total with the budget and commit the entry: the tail shared by
    [write_with_quota] and [append_with_quota]. *)
Definition commit_entry (s : MemoryStore) (world : string) (replacement : MemEntry)
    (previous_len next_len max_total_bytes : Z) : result MemoryQuotaError MemoryStore :=
  let used := ms_accounted s in
  projected ← ok_or {| mq_used := used; mq_quota := max_total_bytes; mq_projected := usize_max |}
                    (projected_accounted_bytes used previous_len next_len);
  if (max_total_bytes <? projected)%Z then
    Err {| mq_used := used; mq_quota := max_total_bytes; mq_projected := projected |}
  else Ok {| ms_map := <[world := replacement]> (ms_map s); ms_accounted := projected |}.

Definition write_with_quota (s : MemoryStore) (world body content_type : string)
    (headers : list (string * string)) (max_total_bytes : Z)
  : result MemoryQuotaError (MemoryWriteOutcome * MemoryStore) :=
  next_len ← ok_or (accounting_overflow s max_total_bytes)
                   (accounted_entry_parts_bytes world (slen body) content_type headers);
  let replacement := MemEntry_new body content_type headers in
  '(existed, previous_len) ←
    (match ms_map s !! world with
     | Some entry =>
         previous_len ← ok_or (accounting_overflow s max_total_bytes)
                              (accounted_entry_bytes world entry);
         Ok (true, previous_len)
     | None => Ok (false, 0%Z)
     end);
  s ← commit_entry s world replacement previous_len next_len max_total_bytes;
  Ok ({| mw_existed := existed |}, s).

Definition append_with_quota (s : MemoryStore) (world body : string) (max_total_bytes : Z)
  : result MemoryQuotaError (option AppendResult * MemoryStore) :=
  match ms_map s !! world with
  | None => Ok (None, s)
  | Some entry =>
      previous_len ← ok_or (accounting_overflow s max_total_bytes)
                           (accounted_entry_bytes world entry);
      let next_body := mem_body entry +:+ body in
      let after := sha256_hex next_body in
      let replacement :=
        {| mem_body := next_body; mem_body_hash := after;
           mem_content_type := mem_content_type entry; mem_headers := mem_headers entry |} in
      next_len ← ok_or (accounting_overflow s max_total_bytes)
                       (accounted_entry_bytes world replacement);
      s ← commit_entry s world replacement previous_len next_len max_total_bytes;
      Ok (Some {| body_sha256_after := after |}, s)
  end.

Definition delete (s : MemoryStore) (world : string) : bool * MemoryStore :=
  match ms_map s !! world with
  | None => (false, s)
  | Some entry =>
      match accounted_entry_bytes world entry with
      | None => (false, s)
      | Some removed_len =>
          match checked_sub (ms_accounted s) removed_len with
          | None => (false, s)
          | Some projected =>
              (true, {| ms_map := base.delete world (ms_map s); ms_accounted := projected |})
          end
      end
  end.

Definition total_bytes (s : MemoryStore) : Z :=
  map_fold (fun _ e acc => slen (mem_body e) + acc)%Z 0%Z (ms_map s).

Definition accounted_total_bytes (s : MemoryStore) : Z := ms_accounted s.
End Store.

(** ** Listings

    [DashMap] iterates in no particular order; the model iterates in the order
    of [map_to_list], and every listing is sorted before it is returned. *)

Definition str_le (a b : string) : Prop := str_cmp a b <> Gt.

#[global] Instance str_le_dec a b : Decision (str_le a b).
Proof. unfold str_le. apply _. Defined.

Definition sort_worlds (l : list string) : list string := merge_sort str_le l.

Definition worlds (s : MemoryStore) : list string := (map_to_list (ms_map s)).*1.

Definition list_all (s : MemoryStore) : list string := sort_worlds (worlds s).

Definition list_with_prefix (s : MemoryStore) (prefix : string) : list string :=
  sort_worlds (filter (fun w => starts_with prefix w = true) (worlds s)).

(** The loop that gives up at the bound. *)
Fixpoint collect_bounded (max : Z) (out rest : list string) : option (list string) :=
  match rest with
  | [] => Some out
  | world :: rest =>
      if (max <=? Z.of_nat (length out))%Z then None
      else collect_bounded max (out ++ [world]) rest
  end.

Definition list_with_prefix_bounded (s : MemoryStore) (prefix : string) (max : Z)
  : option (list string) :=
  out ← collect_bounded max [] (filter (fun w => starts_with prefix w = true) (worlds s));
  Some (sort_worlds out).

(** ** Sums over maps *)

Section MapSum.
Context {A : Type} (f : string -> A -> Z).

Definition map_sum (m : gmap string A) : Z := map_fold (fun k x acc => f k x + acc)%Z 0%Z m.

Lemma map_sum_insert_new m k x :
  m !! k = None -> map_sum (<[k := x]> m) = (f k x + map_sum m)%Z.
Proof. intros Hn. unfold map_sum. rewrite map_fold_insert_L; [done| |done]. intros. lia. Qed.

Lemma map_sum_delete m k x :
  m !! k = Some x -> map_sum m = (f k x + map_sum (base.delete k m))%Z.
Proof.
  intros Hk. rewrite <- (insert_delete_id m k x Hk) at 1.
  rewrite map_sum_insert_new; [done|]. apply lookup_delete_eq.
Qed.

Lemma map_sum_insert m k x :
  map_sum (<[k := x]> m) = (f k x + map_sum m - from_option (f k) 0 (m !! k))%Z.
Proof.
  destruct (m !! k) as [y|] eqn:Ek; cbn.
  - rewrite (map_sum_delete m k y Ek), <- (insert_delete_eq m k x), map_sum_insert_new;
      [lia|apply lookup_delete_eq].
  - rewrite map_sum_insert_new by done. lia.
Qed.

Lemma map_sum_nonneg m :
  (forall k x, m !! k = Some x -> (0 <= f k x)%Z) -> (0 <= map_sum m)%Z.
Proof.
  induction m as [|k x m Hn IH] using map_ind; intros Hf; [done|].
  rewrite map_sum_insert_new by done.
  assert (0 <= f k x)%Z by (apply Hf; apply lookup_insert_eq).
  assert (0 <= map_sum m)%Z; [|lia]. apply IH. intros k' x' Hk. apply Hf.
  rewrite lookup_insert_ne; [done|]. intros ->. by rewrite Hn in Hk.
Qed.
End MapSum.

(** ** The accounting invariant *)

Section StoreInvariant.
Context `{Crypto}.

Definition entry_cost (world : string) (e : MemEntry) : Z :=
  default 0%Z (accounted_entry_bytes world e).

(** The budget counter is the sum of the entries' costs, each of them
    representable; every entry carries the hash of its body. *)
Record ms_wf (s : MemoryStore) : Prop := {
  ms_costs : forall w e, ms_map s !! w = Some e -> is_Some (accounted_entry_bytes w e);
  ms_sum : ms_accounted s = map_sum entry_cost (ms_map s);
  ms_hashes : forall w e, ms_map s !! w = Some e -> mem_body_hash e = sha256_hex (mem_body e);
}.

Lemma metadata_bytes_mono total hs t : metadata_bytes total hs = Some t -> (total <= t)%Z.
Proof.
  revert total. induction hs as [|[n v] hs IH]; intros total; cbn; [by intros [= ->]|].
  intros Hm. apply bind_Some in Hm as (a & Ha & Hm). apply bind_Some in Hm as (b & Hb & Hm).
  apply checked_add_Some in Ha as [-> _], Hb as [-> _]. apply IH in Hm.
  pose proof (slen_nonneg n). pose proof (slen_nonneg v). lia.
Qed.

(** An entry costs at least its fixed overhead. *)
Lemma accounted_ge w e n :
  accounted_entry_bytes w e = Some n ->
  (MEMORY_ENTRY_OVERHEAD_BYTES + MEMORY_BODY_HASH_HEX_BYTES + slen w + slen (mem_body e) <= n)%Z.
Proof.
  unfold accounted_entry_bytes, accounted_entry_parts_bytes. intros Hb.
  apply bind_Some in Hb as (a & [-> _]%checked_add_Some & Hb).
  apply bind_Some in Hb as (b & [-> _]%checked_add_Some & Hb).
  apply bind_Some in Hb as (c & [-> _]%checked_add_Some & Hb).
  apply bind_Some in Hb as (m & Hm%metadata_bytes_mono & [-> _]%checked_add_Some).
  pose proof (slen_nonneg (mem_content_type e)). lia.
Qed.

Lemma cost_nonneg s w e : ms_wf s -> ms_map s !! w = Some e -> (0 <= entry_cost w e)%Z.
Proof.
  intros Hwf He. destruct (ms_costs _ Hwf _ _ He) as [n Hn]. unfold entry_cost. rewrite Hn. cbn.
  apply accounted_ge in Hn. pose proof (slen_nonneg w). pose proof (slen_nonneg (mem_body e)).
  unfold MEMORY_ENTRY_OVERHEAD_BYTES, MEMORY_BODY_HASH_HEX_BYTES in Hn. lia.
Qed.

Definition previous_cost (s : MemoryStore) (w : string) : Z :=
  from_option (entry_cost w) 0%Z (ms_map s !! w).

Lemma previous_cost_le s w : ms_wf s -> (0 <= previous_cost s w <= ms_accounted s)%Z.
Proof.
  intros Hwf. unfold previous_cost. rewrite (ms_sum _ Hwf).
  assert (forall m : gmap string MemEntry, m ⊆ ms_map s -> (0 <= map_sum entry_cost m)%Z) as Hn.
  { intros m Hm. apply map_sum_nonneg. intros k x Hk. eapply cost_nonneg; [done|].
    by eapply lookup_weaken. }
  destruct (ms_map s !! w) as [e|] eqn:E; cbn; [|split; [done|by apply Hn]].
  rewrite (map_sum_delete entry_cost (ms_map s) w e E).
  pose proof (cost_nonneg _ _ _ Hwf E). pose proof (Hn _ (delete_subseteq (ms_map s) w)). lia.
Qed.

(** What committing an entry needs and does. *)
Lemma commit_entry_spec s w e n max :
  ms_wf s -> accounted_entry_bytes w e = Some n -> mem_body_hash e = sha256_hex (mem_body e) ->
  let projected := (ms_accounted s - previous_cost s w + n)%Z in
  match commit_entry s w e (previous_cost s w) n max with
  | Ok s' => (projected <= max)%Z /\ (projected <= usize_max)%Z
             /\ s' = {| ms_map := <[w := e]> (ms_map s); ms_accounted := projected |} /\ ms_wf s'
  | Err err => (max < projected \/ usize_max < projected)%Z /\ mq_used err = ms_accounted s
  end.
Proof.
  intros Hwf Hn Hh. cbv zeta. pose proof (previous_cost_le s w Hwf) as Hp. unfold commit_entry, projected_accounted_bytes.
  rewrite (proj2 (checked_sub_Some _ _ _) (conj eq_refl (proj2 Hp))). cbn [mbind option_bind].
  unfold checked_add. destruct (Z.leb_spec (ms_accounted s - previous_cost s w + n) usize_max);
    cbn [ok_or mbind result_bind]; [|split; [lia|done]].
  destruct (Z.ltb_spec max (ms_accounted s - previous_cost s w + n)); [split; [lia|done]|].
  split_and!; [lia|lia|done|]. split; cbn [ms_map ms_accounted].
  - intros w' e'. rewrite lookup_insert_Some. intros [[<- <-]|[_ He']]; [by exists n|].
    by eapply ms_costs.
  - rewrite map_sum_insert, (ms_sum _ Hwf). unfold previous_cost, entry_cost at 3. rewrite Hn. cbn. lia.
  - intros w' e'. rewrite lookup_insert_Some. intros [[<- <-]|[_ He']]; [done|].
    by eapply ms_hashes.
Qed.
End StoreInvariant.

Section StoreTheorems.
Context `{Crypto}.

Lemma write_spec s w body ct hs max :
  ms_wf s ->
  match write_with_quota s w body ct hs max with
  | Ok (o, s') =>
      exists n, accounted_entry_parts_bytes w (slen body) ct hs = Some n
      /\ (ms_accounted s - previous_cost s w + n <= Z.min max usize_max)%Z
      /\ s' = {| ms_map := <[w := MemEntry_new body ct hs]> (ms_map s);
                 ms_accounted := ms_accounted s - previous_cost s w + n |}
      /\ ms_wf s' /\ mw_existed o = contains s w
  | Err e =>
      mq_used e = ms_accounted s
      /\ forall n, accounted_entry_parts_bytes w (slen body) ct hs = Some n ->
         (Z.min max usize_max < ms_accounted s - previous_cost s w + n)%Z
  end.
Proof.
  intros Hwf. unfold write_with_quota.
  destruct (accounted_entry_parts_bytes w (slen body) ct hs) as [n|] eqn:En;
    cbn [ok_or mbind result_bind]; [|split; [done|by intros n]].
  pose proof (commit_entry_spec s w (MemEntry_new body ct hs) n max Hwf En eq_refl) as Hc.
  assert (exists b, (match ms_map s !! w with
     | Some entry =>
         previous_len ← ok_or (accounting_overflow s max) (accounted_entry_bytes w entry);
         Ok (true, previous_len)
     | None => Ok (false, 0%Z)
     end) = Ok (b, previous_cost s w) /\ b = contains s w) as (b & -> & Hb).
  { unfold previous_cost, contains. destruct (ms_map s !! w) as [e|] eqn:E; cbn [from_option].
    - destruct (ms_costs _ Hwf _ _ E) as [m Hm]. unfold entry_cost. rewrite Hm. cbn.
      by exists true.
    - by exists false. }
  cbn [mbind result_bind]. cbv zeta in Hc.
  destruct (commit_entry s w (MemEntry_new body ct hs) (previous_cost s w) n max) as [s'|e];
    cbn [mbind result_bind].
  - destruct Hc as (H1 & H2 & -> & H3). exists n. split_and!; [done|lia|done|done|done].
  - destruct Hc as [Hc He]. split; [done|]. intros ? [= <-]. lia.
Qed.

Lemma append_spec s w body max :
  ms_wf s ->
  match append_with_quota s w body max with
  | Ok (None, s') => ms_map s !! w = None /\ s' = s
  | Ok (Some r, s') =>
      exists e n, ms_map s !! w = Some e
      /\ accounted_entry_parts_bytes w (slen (mem_body e +:+ body)) (mem_content_type e)
           (mem_headers e) = Some n
      /\ (ms_accounted s - previous_cost s w + n <= Z.min max usize_max)%Z
      /\ s' = {| ms_map := <[w := MemEntry_new (mem_body e +:+ body) (mem_content_type e)
                                    (mem_headers e)]> (ms_map s);
                 ms_accounted := ms_accounted s - previous_cost s w + n |}
      /\ ms_wf s' /\ body_sha256_after r = sha256_hex (mem_body e +:+ body)
  | Err e => mq_used e = ms_accounted s /\ contains s w = true
  end.
Proof.
  intros Hwf. unfold append_with_quota. destruct (ms_map s !! w) as [e|] eqn:E; [|done].
  assert (contains s w = true) as Hcon by (unfold contains; by rewrite E).
  destruct (ms_costs _ Hwf _ _ E) as [m Hm]. rewrite Hm. cbn [ok_or mbind result_bind].
  set (e' := {| mem_body := mem_body e +:+ body; mem_body_hash := sha256_hex (mem_body e +:+ body);
                mem_content_type := mem_content_type e; mem_headers := mem_headers e |}).
  destruct (accounted_entry_bytes w e') as [n|] eqn:En; cbn [ok_or mbind result_bind]; [|done].
  pose proof (commit_entry_spec s w e' n max Hwf En eq_refl) as Hc. cbv zeta in Hc.
  assert (previous_cost s w = m) as Hpm.
  { unfold previous_cost, entry_cost. by rewrite E; cbn; rewrite Hm. }
  rewrite Hpm in Hc. destruct (commit_entry s w e' m n max) as [s'|err]; cbn [mbind result_bind].
  - destruct Hc as (H1 & H2 & -> & H3). exists e, n. rewrite Hpm. split_and!; [done|done|lia|done|done|done].
  - destruct Hc as [_ Hc]. done.
Qed.

Lemma delete_spec s w :
  ms_wf s ->
  delete s w
  = (contains s w, {| ms_map := base.delete w (ms_map s);
                      ms_accounted := ms_accounted s - previous_cost s w |})
  /\ ms_wf (snd (delete s w)).
Proof.
  intros Hwf. pose proof (previous_cost_le s w Hwf) as Hp. unfold delete, contains.
  destruct (ms_map s !! w) as [e|] eqn:E.
  - destruct (ms_costs _ Hwf _ _ E) as [m Hm]. rewrite Hm.
    assert (previous_cost s w = m) as Hpm.
    { unfold previous_cost, entry_cost. by rewrite E; cbn; rewrite Hm. }
    rewrite Hpm in *. rewrite (proj2 (checked_sub_Some _ _ _) (conj eq_refl (proj2 Hp))).
    split; [done|]. cbn. split; cbn.
    + intros w' e' [_ He']%lookup_delete_Some. by eapply ms_costs.
    + rewrite (ms_sum _ Hwf), (map_sum_delete entry_cost (ms_map s) w e E). unfold entry_cost at 1.
      rewrite Hm. cbn. lia.
    + intros w' e' [_ He']%lookup_delete_Some. by eapply ms_hashes.
  - cbn [snd]. split; [|done]. f_equal.
    unfold previous_cost. rewrite E. cbn. destruct s as [m a]. cbn in *. f_equal; [|lia].
    by rewrite delete_id.
Qed.

(** One committed operation under a budget. *)
Inductive mem_step (max : Z) (s s' : MemoryStore) : Prop :=
| mem_write w body ct hs o (Hok : write_with_quota s w body ct hs max = Ok (o, s'))
| mem_append w body r (Hok : append_with_quota s w body max = Ok (r, s'))
| mem_delete w b (Hok : delete s w = (b, s')).

Lemma mem_step_wf max s s' :
  ms_wf s -> (ms_accounted s <= max)%Z -> mem_step max s s' ->
  ms_wf s' /\ (ms_accounted s' <= max)%Z.
Proof.
  intros Hwf Hle [].
  - pose proof (write_spec s w body ct hs max Hwf) as Hs. rewrite Hok in Hs.
    destruct Hs as (n & _ & Hb & -> & Hwf' & _). split; [done|]. cbn. lia.
  - pose proof (append_spec s w body max Hwf) as Hs. rewrite Hok in Hs.
    destruct r; [|by destruct Hs as [_ ->]].
    destruct Hs as (e & n & _ & _ & Hb & -> & Hwf' & _). split; [done|]. cbn. lia.
  - destruct (delete_spec s w Hwf) as [Hd Hwf']. rewrite Hok in Hwf', Hd. cbn in Hwf'.
    split; [done|]. injection Hd as _ ->. cbn.
    pose proof (previous_cost_le s w Hwf). lia.
Qed.

(** The memory budget holds along every run: starting from the empty store,
    after any sequence of writes, appends and deletes of memory worlds the
    byte counter is exactly the sum of what the stored entries cost and never
    exceeds the budget, and every entry carries the hash of its body. *)
Theorem memory_budget_respected max s :
  (0 <= max)%Z -> rtc (mem_step max) MemoryStore_new s ->
  accounted_total_bytes s = map_sum entry_cost (ms_map s)
  /\ (accounted_total_bytes s <= max)%Z /\ (total_bytes s <= max)%Z
  /\ forall w st h, read_with_hash s w = Some (st, h) -> h = sha256_hex (stage_body st).
Proof.
  intros Hmax Hs.
  assert (ms_wf s /\ (ms_accounted s <= max)%Z) as [Hwf Hle].
  { assert (forall s0, rtc (mem_step max) s0 s -> ms_wf s0 -> (ms_accounted s0 <= max)%Z ->
      ms_wf s /\ (ms_accounted s <= max)%Z) as Hrun.
    { clear Hs. intros s0 Hs. induction Hs as [s0|s0 s1 s2 Hst _ IH]; [done|]. intros Hwf Hle.
      destruct (mem_step_wf _ _ _ Hwf Hle Hst). by apply IH. }
    apply (Hrun _ Hs); [|done]. by split. }
  split_and!; [apply Hwf|done| |].
  - etrans; [|exact Hle]. rewrite (ms_sum _ Hwf). unfold total_bytes.
    change (map_sum (fun _ e => slen (mem_body e)) (ms_map s) <= map_sum entry_cost (ms_map s))%Z.
    pose proof (ms_costs _ Hwf) as Hc. revert Hc. generalize (ms_map s). clear.
    intros m. induction m as [|k x m Hn IH] using map_ind; intros Hc; [done|].
    rewrite !map_sum_insert_new by done.
    assert (slen (mem_body x) <= entry_cost k x)%Z.
    { destruct (Hc k x (lookup_insert_eq _ _ _)) as [n Hx]. unfold entry_cost. rewrite Hx. cbn.
      apply accounted_ge in Hx. pose proof (slen_nonneg k).
      unfold MEMORY_ENTRY_OVERHEAD_BYTES, MEMORY_BODY_HASH_HEX_BYTES in Hx. lia. }
    assert (map_sum (fun _ e => slen (mem_body e)) m <= map_sum entry_cost m)%Z; [|lia].
    apply IH. intros w e He. apply Hc. rewrite lookup_insert_ne; [done|].
    intros ->. by rewrite Hn in He.
  - intros w st h Hr. unfold read_with_hash in Hr.
    apply bind_Some in Hr as (e & He & [= <- <-]). cbn. by eapply ms_hashes.
Qed.

(** A memory write succeeds exactly when the new total fits the budget; it
    then stores the body, content type and headers with the body's hash under
    the world and changes nothing else, and reports whether the world existed;
    a refused write leaves the store as it was and reports the unchanged
    total. *)
Theorem memory_write_exact s w body ct hs max n :
  ms_wf s -> accounted_entry_parts_bytes w (slen body) ct hs = Some n ->
  match write_with_quota s w body ct hs max with
  | Ok (o, s') =>
      (ms_accounted s - previous_cost s w + n <= Z.min max usize_max)%Z
      /\ mw_existed o = contains s w
      /\ read_with_hash s' w
         = Some ({| stage_body := body; stage_content_type := ct; stage_headers := hs |},
                 sha256_hex body)
      /\ (forall v, v <> w -> read_with_hash s' v = read_with_hash s v)
      /\ snd (delete s' w) = snd (delete s w)
  | Err e =>
      (Z.min max usize_max < ms_accounted s - previous_cost s w + n)%Z
      /\ mq_used e = accounted_total_bytes s
  end.
Proof.
  intros Hwf Hn. pose proof (write_spec s w body ct hs max Hwf) as Hs.
  destruct (write_with_quota s w body ct hs max) as [[o s']|e].
  - destruct Hs as (m & Hm & Hb & -> & Hwf' & Ho). rewrite Hn in Hm. injection Hm as <-.
    split_and!; [done|done| | |].
    + unfold read_with_hash. cbn. by rewrite lookup_insert_eq.
    + intros v Hv. unfold read_with_hash. cbn. by rewrite lookup_insert_ne.
    + rewrite (proj1 (delete_spec _ w Hwf')), (proj1 (delete_spec _ w Hwf)). cbn [snd ms_map].
      rewrite delete_insert_eq. f_equal. unfold previous_cost at 2. cbn [ms_map ms_accounted].
      rewrite lookup_insert_eq. cbn [from_option]. unfold entry_cost, accounted_entry_bytes. cbn.
      rewrite Hn. cbn. lia.
  - destruct Hs as [He Hs]. split; [by apply Hs|done].
Qed.
End StoreTheorems.

(** ** Listings *)

Lemma collect_bounded_spec max out rest :
  (Z.of_nat (length out) <= max)%Z ->
  collect_bounded max out rest
  = if (max <? Z.of_nat (length out + length rest))%Z then None else Some (out ++ rest).
Proof.
  revert out. induction rest as [|w rest IH]; intros out Hle; cbn.
  - rewrite app_nil_r, Nat.add_0_r. by destruct (Z.ltb_spec max (Z.of_nat (length out))); [lia|].
  - destruct (Z.leb_spec max (Z.of_nat (length out))).
    + by destruct (Z.ltb_spec max (Z.of_nat (length out + S (length rest)))); [|lia].
    + rewrite IH by (rewrite length_app; cbn; lia). rewrite length_app, <- app_assoc. cbn.
      by replace (length out + 1 + length rest)%nat with (length out + S (length rest))%nat by lia.
Qed.

#[global] Instance str_le_total : Total str_le.
Proof.
  intros a b. unfold str_le. rewrite (str_cmp_antisym b a). destruct (str_cmp b a); naive_solver.
Qed.

#[global] Instance str_le_trans : Transitive str_le.
Proof.
  intros a b c. unfold str_le. intros Hab Hbc.
  destruct (str_cmp a b) eqn:E1; [by apply str_cmp_eq in E1 as ->| |done].
  destruct (str_cmp b c) eqn:E2; [apply str_cmp_eq in E2 as ->; by rewrite E1| |done].
  by rewrite (str_cmp_trans a b c Lt).
Qed.

(** A listing by prefix holds exactly the stored worlds with that prefix,
    each once, in ascending byte order; the bounded listing is the same list,
    refused exactly when it would be longer than the bound. *)
Theorem memory_listing_exact s prefix max :
  (0 <= max)%Z ->
  NoDup (list_with_prefix s prefix)
  /\ StronglySorted str_le (list_with_prefix s prefix)
  /\ (forall w, w ∈ list_with_prefix s prefix
               <-> contains s w = true /\ starts_with prefix w = true)
  /\ list_with_prefix_bounded s prefix max
     = if (max <? Z.of_nat (length (list_with_prefix s prefix)))%Z then None
       else Some (list_with_prefix s prefix).
Proof.
  intros Hmax. unfold list_with_prefix, sort_worlds.
  pose proof (merge_sort_Permutation str_le
    (filter (fun w => starts_with prefix w = true) (worlds s))) as Hp.
  split_and!.
  - rewrite Hp. apply list.NoDup_filter, NoDup_fst_map_to_list.
  - apply StronglySorted_merge_sort; apply _.
  - intros w. rewrite Hp, list_elem_of_filter. unfold worlds, contains.
    rewrite bool_decide_eq_true, list_elem_of_fmap. split.
    + intros (Hw & [k e] & -> & He%elem_of_map_to_list). split; [by eexists|done].
    + intros [[e He] Hw]. split; [done|]. exists (w, e). split; [done|].
      by apply elem_of_map_to_list.
  - unfold list_with_prefix_bounded. rewrite collect_bounded_spec by done. cbn [length plus app].
    rewrite (Permutation_length Hp). by destruct (_ <? _)%Z.
Qed.

(** ** The theorems at a concrete store *)

Definition demo_store : MemoryStore :=
  match write_with_quota MemoryStore_new "tmp/a" "hello" "text/plain" [] 1000 with
  | Ok (_, s) => s
  | Err _ => MemoryStore_new
  end.

Lemma demo_store_step : mem_step 1000 MemoryStore_new demo_store.
Proof.
  apply (mem_write 1000 MemoryStore_new demo_store "tmp/a" "hello" "text/plain" []
           {| mw_existed := false |}). evaluate.
Qed.

Lemma new_store_wf : ms_wf MemoryStore_new.
Proof. by split. Qed.

Lemma memory_budget_respected_witness : (accounted_total_bytes demo_store <= 1000)%Z.
Proof.
  apply (memory_budget_respected 1000 demo_store); [evaluate|].
  apply rtc_once, demo_store_step.
Defined.

Lemma memory_write_exact_witness :
  match write_with_quota MemoryStore_new "tmp/a" "hello" "text/plain" [] 100 with
  | Ok _ => False
  | Err e => mq_used e = 0%Z
  end.
Proof.
  pose proof (memory_write_exact MemoryStore_new "tmp/a" "hello" "text/plain" [] 100 212
                new_store_wf eq_refl) as Hs.
  destruct (write_with_quota MemoryStore_new "tmp/a" "hello" "text/plain" [] 100) as [[o s']|e].
  - destruct Hs as [Hle _]. vm_compute in Hle. by apply Hle.
  - destruct Hs as [_ He]. exact He.
Defined.

Lemma memory_listing_exact_witness :
  list_with_prefix_bounded demo_store "tmp/" 0 = None.
Proof.
  destruct (memory_listing_exact demo_store "tmp/" 0) as (_ & _ & _ & Hb); [evaluate|].
  rewrite Hb. evaluate.
Defined.
