(* ===== verification/Quota.v ===== *)
(** * Storage quota, event counters and the file-operation gate

    Models the accounting counters of [core/src/state.rs],
    [core/src/state/storage_reservation.rs] and [FileOpGate].  Every
    [fetch_update] is one atomic step on a counter; a reservation proof is the
    value its holder commits or drops. *)

From S2P Require Import Prelude.
From S2P Require Import Cas.
From S2P Require Import Store.

(** ** Counters *)

Record Counters := {
  storage_body_bytes : Z;
  storage_current_body_bytes : Z;
  storage_retained_cas_body_bytes : Z;
  storage_audit_chain_events : Z;
  durable_world_count : Z;
}.

Definition set_body_bytes (v : Z) (c : Counters) : Counters :=
  {| storage_body_bytes := v; storage_current_body_bytes := storage_current_body_bytes c;
     storage_retained_cas_body_bytes := storage_retained_cas_body_bytes c;
     storage_audit_chain_events := storage_audit_chain_events c;
     durable_world_count := durable_world_count c |}.

Definition set_current_bytes (v : Z) (c : Counters) : Counters :=
  {| storage_body_bytes := storage_body_bytes c; storage_current_body_bytes := v;
     storage_retained_cas_body_bytes := storage_retained_cas_body_bytes c;
     storage_audit_chain_events := storage_audit_chain_events c;
     durable_world_count := durable_world_count c |}.

Definition set_retained_bytes (v : Z) (c : Counters) : Counters :=
  {| storage_body_bytes := storage_body_bytes c;
     storage_current_body_bytes := storage_current_body_bytes c;
     storage_retained_cas_body_bytes := v;
     storage_audit_chain_events := storage_audit_chain_events c;
     durable_world_count := durable_world_count c |}.

Definition set_audit_events (v : Z) (c : Counters) : Counters :=
  {| storage_body_bytes := storage_body_bytes c;
     storage_current_body_bytes := storage_current_body_bytes c;
     storage_retained_cas_body_bytes := storage_retained_cas_body_bytes c;
     storage_audit_chain_events := v; durable_world_count := durable_world_count c |}.

Definition set_world_count (v : Z) (c : Counters) : Counters :=
  {| storage_body_bytes := storage_body_bytes c;
     storage_current_body_bytes := storage_current_body_bytes c;
     storage_retained_cas_body_bytes := storage_retained_cas_body_bytes c;
     storage_audit_chain_events := storage_audit_chain_events c; durable_world_count := v |}.

(** [adjust_counter]: saturating at both ends. *)
Definition adjust_counter (used subtract add : Z) : Z :=
  saturating_add (saturating_sub used subtract) add.

(** ** [storage_reservation.rs] *)

Record StorageReservationError := { sr_used : Z; sr_quota : Z; sr_projected : Z }.

Record PendingStorageReservation := { reserved_increase : Z; deferred_credit : Z }.

Definition credit_storage_counter (used bytes : Z) : Z :=
  if (bytes =? 0)%Z then used else saturating_sub used bytes.

(** [commit] and [Drop]. *)
Definition commit_reservation (p : PendingStorageReservation) (used : Z) : Z :=
  credit_storage_counter used (deferred_credit p).

Definition drop_reservation (p : PendingStorageReservation) (used : Z) : Z :=
  credit_storage_counter used (reserved_increase p).

Definition rollback_storage_counter (used previous_len reserved_len predicted_pruned_len : Z) : Z :=
  saturating_add (saturating_add (saturating_sub used reserved_len) previous_len)
                 predicted_pruned_len.

Definition reserve_storage_after_prune (max_storage_bytes : option Z)
    (used prev_len new_len pruned_len : Z)
  : result StorageReservationError (PendingStorageReservation * Z) :=
  let quota := default usize_max max_storage_bytes in
  predicted_credit ← ok_or {| sr_used := used; sr_quota := quota; sr_projected := usize_max |}
                           (checked_add prev_len pruned_len);
  let '(reserved, deferred) :=
    if (predicted_credit <=? new_len)%Z then (new_len - predicted_credit, 0)%Z
    else (0, predicted_credit - new_len)%Z in
  let err := {| sr_used := used; sr_quota := quota;
                sr_projected := saturating_add used reserved |} in
  match checked_add used reserved with
  | Some projected =>
      if (projected <=? quota)%Z
      then Ok ({| reserved_increase := reserved; deferred_credit := deferred |}, projected)
      else Err err
  | None => Err err
  end.

Definition rollback_storage_reservation (prev_len new_len : Z) (c : Counters) : Counters :=
  set_body_bytes (rollback_storage_counter (storage_body_bytes c) prev_len new_len 0) c.

Definition note_current_body_replaced (previous_len next_len : Z) (c : Counters) : Counters :=
  set_current_bytes (adjust_counter (storage_current_body_bytes c) previous_len next_len) c.

Definition note_retained_cas_inserted (bytes : Z) (c : Counters) : Counters :=
  if (bytes =? 0)%Z then c
  else set_retained_bytes (adjust_counter (storage_retained_cas_body_bytes c) 0 bytes) c.

Definition credit_pruned_storage_after_estimate (pruned : PrunedCas) (estimated_pruned_len : Z)
    (c : Counters) : Counters :=
  let bytes := pruned_bytes pruned in
  let c := set_retained_bytes (adjust_counter (storage_retained_cas_body_bytes c) bytes 0) c in
  let extra := saturating_sub bytes estimated_pruned_len in
  if (extra =? 0)%Z then c
  else set_body_bytes (adjust_counter (storage_body_bytes c) extra 0) c.

Definition subtract_storage_usage (u : StorageUsageSnapshot) (c : Counters) : Counters :=
  set_audit_events (adjust_counter (storage_audit_chain_events c) (audit_chain_events u) 0)
    (set_retained_bytes
       (adjust_counter (storage_retained_cas_body_bytes c) (retained_cas_body_bytes u) 0)
       (set_current_bytes
          (adjust_counter (storage_current_body_bytes c) (current_body_bytes u) 0)
          (set_body_bytes (adjust_counter (storage_body_bytes c) (total_body_bytes u) 0) c))).

(** ** Audit-event reservations *)

Definition PENDING_AUDIT_EVENTS_MAXIMUM : Z := 2.

Definition reserve_audit_events (used : Z) : option Z :=
  checked_add used PENDING_AUDIT_EVENTS_MAXIMUM.

Definition commit_one (used : Z) : Z := credit_storage_counter used 1.
Definition commit_two (used : Z) : Z := used.
Definition drop_audit_events (used : Z) : Z :=
  credit_storage_counter used PENDING_AUDIT_EVENTS_MAXIMUM.

(** ** Concurrent writers under one quota

    The storage counter as the writers of all worlds share it, beside what the
    worlds' files hold.  A write reserves, commits its SQLite transaction, and
    then settles with the counter in three steps: [pending.commit()], the refund
    of a body that was already retained, and the credit for what was pruned beyond
    the estimate.  A delete removes the file and then subtracts its usage.  Other
    worlds take steps between any two of these.  Each holds its world's lock from
    the first step to the last, so at most one is under way for a world. *)

(** The bytes of a world's file that are accounted. *)
Record FileBytes := { fb_body : Z; fb_cas : Z }.

Definition no_bytes : FileBytes := {| fb_body := 0; fb_cas := 0 |}.

Inductive WriteKind := Replaces | Appends.

(** What a write asked the counter for: the bytes of the request, the retained
    body it adds if that is missing, and what it expects to prune. *)
Record Reservation := {
  rv_kind : WriteKind;
  rv_len : Z;
  rv_candidate : Z;
  rv_prunable : Z;
  rv_pending : PendingStorageReservation;
}.

(** What a write has still to do.  [inserted] is [cas_body_inserted]. *)
Inductive WriteStep :=
| CommitSqlite
| CommitPending (inserted : bool) (pruned : PrunedCas)
| RefundCandidate (inserted : bool) (pruned : PrunedCas)
| CreditPruned (pruned : PrunedCas).

Inductive UnderWay :=
| Writing (r : Reservation) (step : WriteStep)
| SubtractUsage (usage : StorageUsageSnapshot).

(** [q_lost]: the bytes of files a removal that failed took away; no step
    subtracts them. *)
Record quota_state := {
  q_used : Z;
  q_files : gmap string FileBytes;
  q_under_way : gmap string UnderWay;
  q_lost : Z;
}.

(** What an operation on the counters makes of the storage counter. *)
Definition storage_counter (f : Counters -> Counters) (used : Z) : Z :=
  storage_body_bytes (f {| storage_body_bytes := used; storage_current_body_bytes := 0;
                           storage_retained_cas_body_bytes := 0; storage_audit_chain_events := 0;
                           durable_world_count := 0 |}).

(** [prev_len] of the reservation: an append keeps the bytes that are there. *)
Definition previous_len (k : WriteKind) (f : FileBytes) : Z :=
  match k with Replaces => fb_body f | Appends => 0 end.

Definition inserted_bytes (r : Reservation) (inserted : bool) : Z := if inserted then rv_candidate r else 0.

(** The file after the transaction. *)
Definition file_after (r : Reservation) (inserted : bool) (pruned : PrunedCas) (f : FileBytes) : FileBytes :=
  {| fb_body := (fb_body f - previous_len (rv_kind r) f + rv_len r)%Z;
     fb_cas := (fb_cas f + inserted_bytes r inserted - pruned_bytes pruned)%Z |}.

Definition usage_snapshot (f : FileBytes) : StorageUsageSnapshot :=
  {| current_body_bytes := fb_body f; retained_cas_body_bytes := fb_cas f; audit_chain_events := 0 |}.

Definition file_of (s : quota_state) (w : string) : FileBytes := default no_bytes (q_files s !! w).

Definition go_on (s : quota_state) (w : string) (used : Z) (next : option UnderWay) : quota_state :=
  {| q_used := used; q_files := q_files s; q_under_way := partial_alter (fun _ => next) w (q_under_way s);
     q_lost := q_lost s |}.

Inductive quota_step (quota : option Z) (s : quota_state) : quota_state -> Prop :=
| q_reserve w k len candidate prunable p used'
    (Hidle : q_under_way s !! w = None)
    (Hlen : (0 <= len)%Z) (Hcand : (0 <= candidate)%Z) (Hprun : (0 <= prunable)%Z)
    (Hok : reserve_storage_after_prune quota (q_used s) (previous_len k (file_of s w)) (len + candidate) prunable
           = Ok (p, used')) :
    quota_step quota s
      (go_on s w used'
         (Some (Writing {| rv_kind := k; rv_len := len; rv_candidate := candidate; rv_prunable := prunable;
                           rv_pending := p |} CommitSqlite)))
| q_commit_sqlite w r inserted pruned
    (Hr : q_under_way s !! w = Some (Writing r CommitSqlite))
    (** the estimate was made under the world's lock and is not above what is
        pruned ([Estimate.v]), and only what is there is pruned *)
    (Hpruned : (rv_prunable r <= pruned_bytes pruned <= fb_cas (file_of s w) + inserted_bytes r inserted)%Z) :
    quota_step quota s
      {| q_used := q_used s; q_files := <[w := file_after r inserted pruned (file_of s w)]> (q_files s);
         q_under_way := <[w := Writing r (CommitPending inserted pruned)]> (q_under_way s);
         q_lost := q_lost s |}
| q_drop w r
    (Hr : q_under_way s !! w = Some (Writing r CommitSqlite)) :
    quota_step quota s (go_on s w (drop_reservation (rv_pending r) (q_used s)) None)
| q_commit_pending w r inserted pruned
    (Hr : q_under_way s !! w = Some (Writing r (CommitPending inserted pruned))) :
    quota_step quota s
      (go_on s w (commit_reservation (rv_pending r) (q_used s)) (Some (Writing r (RefundCandidate inserted pruned))))
| q_refund w r inserted pruned
    (Hr : q_under_way s !! w = Some (Writing r (RefundCandidate inserted pruned))) :
    quota_step quota s
      (go_on s w
         (storage_counter
            (if inserted then note_retained_cas_inserted (rv_candidate r)
             else rollback_storage_reservation 0 (rv_candidate r)) (q_used s))
         (Some (Writing r (CreditPruned pruned))))
| q_credit w r pruned
    (Hr : q_under_way s !! w = Some (Writing r (CreditPruned pruned))) :
    quota_step quota s
      (go_on s w (storage_counter (credit_pruned_storage_after_estimate pruned (rv_prunable r)) (q_used s)) None)
| q_remove w f
    (Hidle : q_under_way s !! w = None) (Hf : q_files s !! w = Some f) :
    quota_step quota s
      {| q_used := q_used s; q_files := base.delete w (q_files s);
         q_under_way := <[w := SubtractUsage (usage_snapshot f)]> (q_under_way s); q_lost := q_lost s |}
| q_subtract w usage
    (Hr : q_under_way s !! w = Some (SubtractUsage usage)) :
    quota_step quota s (go_on s w (storage_counter (subtract_storage_usage usage) (q_used s)) None)
| q_lose w f
    (Hidle : q_under_way s !! w = None) (Hf : q_files s !! w = Some f) :
    quota_step quota s
      {| q_used := q_used s; q_files := base.delete w (q_files s); q_under_way := q_under_way s;
         q_lost := (q_lost s + fb_body f + fb_cas f)%Z |}.

Definition quota_initial : quota_state := {| q_used := 0; q_files := ∅; q_under_way := ∅; q_lost := 0 |}.

(** ** The file-operation gate

    Threads take permits and give them back; one of them may shut the gate and
    wait until no permit is out.  [begin] reads the flag, takes the lock, reads
    the flag again and increments the count under the lock: four steps of the
    thread, which other threads' steps may separate.  Giving a permit back and
    the waiter's test of the count take the lock for one step each. *)

Inductive gate_thread :=
| Idle                 (* outside the gate *)
| PassedFirstCheck     (* saw [shutting_down] false, wants the lock *)
| Locked               (* holds the lock *)
| PassedSecondCheck    (* holds the lock, saw [shutting_down] false again *)
| Holding              (* has a permit *)
| Refused.             (* [begin] returned [None] *)

#[global] Instance gate_thread_eq_dec : EqDecision gate_thread.
Proof. solve_decision. Defined.

(** The thread that runs [shutdown_and_wait]: [Condvar::wait] releases the lock
    and sleeps in one step, and wakes on [notify_all] or spuriously. *)
Inductive gate_waiter :=
| NotCalled
| Checking             (* the flag is stored; wants the lock to test the count *)
| Asleep               (* in [Condvar::wait] *)
| Returned.

Record gate := {
  shutting_down : bool;
  active : Z;
  lock_holder : option nat;
  threads : list gate_thread;
  waiter : gate_waiter;
}.

Definition with_thread (g : gate) (i : nat) (t : gate_thread) (lock : option nat) (n : Z) : gate :=
  {| shutting_down := shutting_down g; active := n; lock_holder := lock;
     threads := <[i := t]> (threads g); waiter := waiter g |}.

Definition with_waiter (g : gate) (w : gate_waiter) : gate :=
  {| shutting_down := shutting_down g; active := active g; lock_holder := lock_holder g;
     threads := threads g; waiter := w |}.

(** [idle.notify_all()]. *)
Definition notify_all (g : gate) : gate :=
  match waiter g with Asleep => with_waiter g Checking | _ => g end.

(** [FileOpPermit::drop], under the lock. *)
Definition drop_permit (g : gate) (i : nat) : gate :=
  let g' := with_thread g i Idle None (saturating_sub (active g) 1) in
  if (active g' =? 0)%Z then notify_all g' else g'.

Inductive gate_step (g : gate) : gate -> Prop :=
| begin_first i (Ht : threads g !! i = Some Idle) :
    gate_step g (with_thread g i (if shutting_down g then Refused else PassedFirstCheck)
                   (lock_holder g) (active g))
| begin_lock i (Ht : threads g !! i = Some PassedFirstCheck) (Hl : lock_holder g = None) :
    gate_step g (with_thread g i Locked (Some i) (active g))
| begin_second i (Ht : threads g !! i = Some Locked) (Hl : lock_holder g = Some i) :
    gate_step g (if shutting_down g then with_thread g i Refused None (active g)
                 else with_thread g i PassedSecondCheck (Some i) (active g))
| begin_increment i (Ht : threads g !! i = Some PassedSecondCheck) (Hl : lock_holder g = Some i) :
    gate_step g (with_thread g i Holding None (saturating_add (active g) 1))
| permit_drop i (Ht : threads g !! i = Some Holding) (Hl : lock_holder g = None) :
    gate_step g (drop_permit g i)
| refused_return i (Ht : threads g !! i = Some Refused) :
    gate_step g (with_thread g i Idle (lock_holder g) (active g))
| shutdown_store (Hw : waiter g = NotCalled) :
    gate_step g {| shutting_down := true; active := active g; lock_holder := lock_holder g;
                   threads := threads g; waiter := Checking |}
| shutdown_check (Hw : waiter g = Checking) (Hl : lock_holder g = None) :
    gate_step g (with_waiter g (if (active g =? 0)%Z then Returned else Asleep))
| shutdown_spurious_wake (Hw : waiter g = Asleep) :
    gate_step g (with_waiter g Checking).

Definition gate_new (n : nat) : gate :=
  {| shutting_down := false; active := 0; lock_holder := None; threads := replicate n Idle;
     waiter := NotCalled |}.

(** ** Theorems: the quota *)

Definition file_total (f : FileBytes) : Z := fb_body f + fb_cas f.

Definition stored_total (s : quota_state) : Z := map_sum (fun _ f => file_total f) (q_files s).

(** How far the counter is ahead of the files for an operation under way: growth
    that is not committed yet, then what has still to be given back. *)
Definition owed (u : UnderWay) : Z :=
  match u with
  | Writing r CommitSqlite => reserved_increase (rv_pending r)
  | Writing r (CommitPending inserted pruned) =>
      deferred_credit (rv_pending r) + (rv_candidate r - inserted_bytes r inserted)
      + (pruned_bytes pruned - rv_prunable r)
  | Writing r (RefundCandidate inserted pruned) =>
      (rv_candidate r - inserted_bytes r inserted) + (pruned_bytes pruned - rv_prunable r)
  | Writing r (CreditPruned pruned) => pruned_bytes pruned - rv_prunable r
  | SubtractUsage usage => current_body_bytes usage + retained_cas_body_bytes usage
  end.

Definition in_flight (s : quota_state) : Z := map_sum (fun _ u => owed u) (q_under_way s).

(** What is known of an operation under way on a world whose file is [f]. *)
Definition under_way_ok (f : FileBytes) (u : UnderWay) : Prop :=
  match u with
  | Writing r step =>
      (0 <= rv_len r)%Z /\ (0 <= rv_candidate r)%Z /\ (0 <= rv_prunable r)%Z
      /\ (0 <= reserved_increase (rv_pending r))%Z /\ (0 <= deferred_credit (rv_pending r))%Z
      /\ match step with
         | CommitSqlite =>
             (reserved_increase (rv_pending r) - deferred_credit (rv_pending r)
              = rv_len r + rv_candidate r - previous_len (rv_kind r) f - rv_prunable r)%Z
         | CommitPending _ pruned | RefundCandidate _ pruned | CreditPruned pruned =>
             (rv_prunable r <= pruned_bytes pruned)%Z
         end
  | SubtractUsage usage => (0 <= current_body_bytes usage)%Z /\ (0 <= retained_cas_body_bytes usage)%Z
  end.

(** The counter is what is stored, what was lost and what is in flight. *)
Record quota_inv (quota : option Z) (s : quota_state) : Prop := {
  qi_used : q_used s = (stored_total s + q_lost s + in_flight s)%Z;
  qi_limit : (q_used s <= default usize_max quota)%Z;
  qi_max : (q_used s <= usize_max)%Z;
  qi_lost : (0 <= q_lost s)%Z;
  qi_files : forall w f, q_files s !! w = Some f -> (0 <= fb_body f)%Z /\ (0 <= fb_cas f)%Z;
  qi_under_way : forall w u, q_under_way s !! w = Some u -> under_way_ok (file_of s w) u;
}.

Lemma reserve_Ok quota used prev new pruned p used' :
  reserve_storage_after_prune quota used prev new pruned = Ok (p, used') ->
  reserved_increase p = Z.max 0 (new - (prev + pruned))
  /\ deferred_credit p = Z.max 0 ((prev + pruned) - new)
  /\ used' = (used + reserved_increase p)%Z
  /\ (used' <= default usize_max quota)%Z /\ (used' <= usize_max)%Z.
Proof.
  unfold reserve_storage_after_prune. intros Hr. inv_ok.
  match goal with H : checked_add prev pruned = Some _ |- _ =>
    apply checked_add_Some in H as [-> _] end.
  destruct (Z.leb_spec (prev + pruned) new) as [Hle|Hgt];
    match goal with H : match checked_add ?a ?b with _ => _ end = Ok _ |- _ =>
      destruct (checked_add a b) as [q|] eqn:Ea; [|done] end;
    apply checked_add_Some in Ea as [-> Hm];
    match goal with H : (if (?a <=? ?b)%Z then _ else _) = Ok _ |- _ =>
      destruct (Z.leb_spec a b); [|done] end; simplify_eq/=; lia.
Qed.

Lemma credit_exact used b : (0 <= b <= used)%Z -> credit_storage_counter used b = (used - b)%Z.
Proof.
  intros Hb. unfold credit_storage_counter, saturating_sub. destruct (Z.eqb_spec b 0); lia.
Qed.

(** The steps after the commit, on a counter that covers them. *)
Lemma refund_exact (inserted : bool) candidate used :
  (0 <= candidate)%Z -> (inserted = false -> candidate <= used)%Z -> (used <= usize_max)%Z ->
  storage_counter (if inserted then note_retained_cas_inserted candidate
                   else rollback_storage_reservation 0 candidate) used
  = (used - (candidate - if inserted then candidate else 0))%Z.
Proof.
  intros Hc Hle Hm. unfold storage_counter. destruct inserted.
  - unfold note_retained_cas_inserted. destruct (candidate =? 0)%Z; cbn; lia.
  - specialize (Hle eq_refl). cbn. unfold rollback_storage_counter, saturating_add, saturating_sub. lia.
Qed.

Lemma credit_pruned_exact pruned estimated used :
  (estimated <= pruned_bytes pruned)%Z -> (pruned_bytes pruned - estimated <= used <= usize_max)%Z ->
  storage_counter (credit_pruned_storage_after_estimate pruned estimated) used
  = (used - (pruned_bytes pruned - estimated))%Z.
Proof.
  intros He Hu. unfold storage_counter, credit_pruned_storage_after_estimate.
  destruct (Z.eqb_spec (saturating_sub (pruned_bytes pruned) estimated) 0) as [Hz|Hz]; cbn;
    unfold adjust_counter, saturating_add, saturating_sub in *; lia.
Qed.

Lemma subtract_exact usage used :
  (0 <= current_body_bytes usage)%Z -> (0 <= retained_cas_body_bytes usage)%Z ->
  (current_body_bytes usage + retained_cas_body_bytes usage <= used <= usize_max)%Z ->
  storage_counter (subtract_storage_usage usage) used
  = (used - (current_body_bytes usage + retained_cas_body_bytes usage))%Z.
Proof.
  intros Hb Hc Hu. unfold storage_counter. cbn.
  unfold adjust_counter, total_body_bytes, saturating_add, saturating_sub. lia.
Qed.

Lemma owed_nonneg f u : under_way_ok f u -> (0 <= owed u)%Z.
Proof. destruct u as [r []|usage]; cbn; unfold inserted_bytes; repeat case_match; lia. Qed.

Section QuotaRun.
Context (quota : option Z).

Lemma stored_nonneg s : quota_inv quota s -> (0 <= stored_total s)%Z.
Proof.
  intros Hi. apply map_sum_nonneg. intros k f Hf. destruct (qi_files _ _ Hi _ _ Hf). unfold file_total. lia.
Qed.

Lemma in_flight_nonneg s : quota_inv quota s -> (0 <= in_flight s)%Z.
Proof. intros Hi. apply map_sum_nonneg. intros k u Hu. by eapply owed_nonneg, qi_under_way. Qed.

Lemma file_of_nonneg s w : quota_inv quota s -> (0 <= fb_body (file_of s w))%Z /\ (0 <= fb_cas (file_of s w))%Z.
Proof.
  intros Hi. unfold file_of. destruct (q_files s !! w) eqn:E; [by eapply qi_files|done].
Qed.

(** What is owed for one world is part of the counter. *)
Lemma owed_covered s w u :
  quota_inv quota s -> q_under_way s !! w = Some u ->
  (0 <= owed u)%Z /\ (owed u <= q_used s)%Z
  /\ map_sum (fun _ u => owed u) (base.delete w (q_under_way s)) = (in_flight s - owed u)%Z.
Proof.
  intros Hi Hu. pose proof (owed_nonneg _ _ (qi_under_way _ _ Hi _ _ Hu)) as Ho.
  pose proof (map_sum_delete (fun _ u => owed u) _ _ _ Hu) as Hsplit.
  assert (0 <= map_sum (fun _ u => owed u) (base.delete w (q_under_way s)))%Z as Hr.
  { apply map_sum_nonneg. intros v x [_ Hx]%lookup_delete_Some. by eapply owed_nonneg, qi_under_way. }
  pose proof (stored_nonneg s Hi). pose proof (qi_used _ _ Hi). pose proof (qi_lost _ _ Hi).
  unfold in_flight in *. split_and!; lia.
Qed.

(** A step that changes the counter and what is owed for one world alike. *)
Lemma go_on_inv s w used next :
  quota_inv quota s ->
  used = (q_used s + from_option owed 0 next - from_option owed 0 (q_under_way s !! w))%Z ->
  (used <= default usize_max quota)%Z -> (used <= usize_max)%Z ->
  (forall u, next = Some u -> under_way_ok (file_of s w) u) ->
  quota_inv quota (go_on s w used next).
Proof.
  intros Hi Hused Hlim Hmax Hok. split; cbn; [|done|done|apply Hi|apply Hi|].
  - pose proof (qi_used _ _ Hi) as Hu. change (stored_total (go_on s w used next)) with (stored_total s).
    assert (in_flight (go_on s w used next)
            = in_flight s + from_option owed 0 next - from_option owed 0 (q_under_way s !! w))%Z as ->; [|lia].
    unfold in_flight. cbn. destruct next as [u|].
    + change (partial_alter (fun _ => Some u) w (q_under_way s)) with (<[w := u]> (q_under_way s)).
      rewrite map_sum_insert. destruct (q_under_way s !! w); cbn; lia.
    + change (partial_alter (fun _ => None) w (q_under_way s)) with (base.delete w (q_under_way s)).
      destruct (q_under_way s !! w) as [u|] eqn:Eu; cbn.
      * rewrite (map_sum_delete (fun _ u => owed u) (q_under_way s) w u Eu). lia.
      * rewrite delete_id by done. lia.
  - intros v u. change (file_of (go_on s w used next) v) with (file_of s v).
    destruct (decide (v = w)) as [->|Hne].
    + rewrite lookup_partial_alter_eq. apply Hok.
    + rewrite lookup_partial_alter_ne by done. by apply Hi.
Qed.

(** The commit and the removal move bytes between a world's file and what is owed
    for it; the counter stays. *)
Lemma move_inv s s' w :
  quota_inv quota s -> q_used s' = q_used s -> (0 <= q_lost s')%Z ->
  (forall v, v <> w -> q_files s' !! v = q_files s !! v /\ q_under_way s' !! v = q_under_way s !! v) ->
  (0 <= fb_body (file_of s' w))%Z -> (0 <= fb_cas (file_of s' w))%Z ->
  (forall u, q_under_way s' !! w = Some u -> under_way_ok (file_of s' w) u) ->
  (stored_total s' + q_lost s' + in_flight s' = stored_total s + q_lost s + in_flight s)%Z ->
  quota_inv quota s'.
Proof.
  intros Hi Hu Hl Hother Hb Hc Hw Hsum. pose proof (qi_used _ _ Hi).
  split; [lia|rewrite Hu; apply Hi|rewrite Hu; apply Hi|done| |].
  - intros v f Hf. destruct (decide (v = w)) as [->|Hne].
    + unfold file_of in Hb, Hc. by rewrite Hf in Hb, Hc.
    + rewrite (proj1 (Hother v Hne)) in Hf. by apply (qi_files _ _ Hi) in Hf.
  - intros v u Hv. destruct (decide (v = w)) as [->|Hne]; [by apply Hw|].
    destruct (Hother v Hne) as [Ef Eu]. unfold file_of. rewrite Ef. apply (qi_under_way _ _ Hi). by rewrite <- Eu.
Qed.

Lemma stored_insert s w f :
  map_sum (fun _ f => file_total f) (<[w := f]> (q_files s))
  = (stored_total s + file_total f - file_total (file_of s w))%Z.
Proof.
  rewrite map_sum_insert. unfold stored_total, file_of.
  generalize (map_sum (fun _ f => file_total f) (q_files s)) as n. intros n.
  unfold file_total. destruct (q_files s !! w); cbn; lia.
Qed.

Lemma stored_delete s w f :
  q_files s !! w = Some f ->
  map_sum (fun _ f => file_total f) (base.delete w (q_files s)) = (stored_total s - file_total f)%Z.
Proof.
  intros Hf. unfold stored_total. rewrite (map_sum_delete (fun _ f => file_total f) _ _ _ Hf). lia.
Qed.

Lemma commit_sqlite_inv s w r inserted pruned :
  quota_inv quota s -> q_under_way s !! w = Some (Writing r CommitSqlite) ->
  (rv_prunable r <= pruned_bytes pruned <= fb_cas (file_of s w) + inserted_bytes r inserted)%Z ->
  quota_inv quota
    {| q_used := q_used s; q_files := <[w := file_after r inserted pruned (file_of s w)]> (q_files s);
       q_under_way := <[w := Writing r (CommitPending inserted pruned)]> (q_under_way s); q_lost := q_lost s |}.
Proof.
  intros Hi Hr Hp. destruct (qi_under_way _ _ Hi _ _ Hr) as (Hlen & Hcand & Hprun & Hinc & Hdef & Hbal).
  destruct (file_of_nonneg s w Hi) as [Hb Hc].
  set (s' := {| q_used := _ |}).
  assert (file_of s' w = file_after r inserted pruned (file_of s w)) as Ef
    by (unfold file_of at 1; cbn [q_files s']; by rewrite lookup_insert_eq).
  apply (move_inv s s' w Hi); rewrite ?Ef; [done|apply Hi| | | | |].
  - intros v Hne. cbn. by rewrite !lookup_insert_ne.
  - cbn. destruct (rv_kind r); cbn; lia.
  - cbn. lia.
  - intros u. cbn [s' q_under_way]. rewrite lookup_insert_eq. intros [= <-]. cbn. split_and!; lia.
  - unfold stored_total at 1, in_flight at 1. cbn [s' q_files q_under_way q_lost].
    rewrite stored_insert, map_sum_insert, Hr. unfold file_total, file_after.
    cbn [fb_body fb_cas from_option owed]. unfold in_flight. lia.
Qed.

Lemma quota_step_inv s s' : quota_inv quota s -> quota_step quota s s' -> quota_inv quota s'.
Proof.
  intros Hi Hs. pose proof (qi_limit _ _ Hi) as Hl. pose proof (qi_max _ _ Hi) as Hm. destruct Hs.
  - destruct (reserve_Ok _ _ _ _ _ _ _ Hok) as (Hri & Hdc & -> & Hq & Hx).
    apply go_on_inv; [done|rewrite Hidle; cbn; lia|done|done|]. intros u [= <-]. cbn. split_and!; lia.
  - by apply commit_sqlite_inv.
  - destruct (owed_covered s w _ Hi Hr) as (Ho & Hle & _). cbn [owed] in Ho, Hle.
    unfold drop_reservation. rewrite credit_exact by lia.
    apply go_on_inv; [done|rewrite Hr; cbn; lia|lia|lia|done].
  - destruct (qi_under_way _ _ Hi _ _ Hr) as (? & ? & ? & ? & ? & ?).
    destruct (owed_covered s w _ Hi Hr) as (Ho & Hle & _). cbn [owed] in Ho, Hle.
    assert (0 <= rv_candidate r - inserted_bytes r inserted)%Z by (unfold inserted_bytes; destruct inserted; lia).
    unfold commit_reservation. rewrite credit_exact by lia.
    apply go_on_inv; [done|rewrite Hr; cbn; lia|lia|lia|]. intros u [= <-]. cbn. split_and!; lia.
  - destruct (qi_under_way _ _ Hi _ _ Hr) as (? & ? & ? & ? & ? & ?).
    destruct (owed_covered s w _ Hi Hr) as (Ho & Hle & _). cbn [owed] in Ho, Hle. unfold inserted_bytes in Ho, Hle.
    rewrite refund_exact; [|done|intros ->; lia|done].
    apply go_on_inv; [done|rewrite Hr; cbn; unfold inserted_bytes; lia|destruct inserted; lia|destruct inserted; lia|].
    intros u [= <-]. cbn. split_and!; lia.
  - destruct (qi_under_way _ _ Hi _ _ Hr) as (? & ? & ? & ? & ? & ?).
    destruct (owed_covered s w _ Hi Hr) as (Ho & Hle & _). cbn [owed] in Ho, Hle.
    rewrite credit_pruned_exact by lia.
    apply go_on_inv; [done|rewrite Hr; cbn; lia|lia|lia|done].
  - destruct (qi_files _ _ Hi _ _ Hf) as [Hb Hc].
    apply (move_inv s _ w Hi); [done|apply Hi| | | | |]; unfold file_of; cbn; rewrite ?lookup_delete_eq; try done.
    + intros v Hne. by rewrite lookup_delete_ne, lookup_insert_ne.
    + intros u. rewrite lookup_insert_eq. by intros [= <-].
    + unfold stored_total at 1, in_flight at 1. cbn. rewrite (stored_delete s w f Hf), map_sum_insert, Hidle. cbn.
      unfold in_flight, file_total. lia.
  - destruct (qi_under_way _ _ Hi _ _ Hr) as [? ?].
    destruct (owed_covered s w _ Hi Hr) as (Ho & Hle & _). cbn [owed] in Ho, Hle.
    rewrite subtract_exact by lia.
    apply go_on_inv; [done|rewrite Hr; cbn; lia|lia|lia|done].
  - destruct (qi_files _ _ Hi _ _ Hf) as [Hb Hc]. pose proof (qi_lost _ _ Hi).
    apply (move_inv s _ w Hi); [done|cbn; lia| | | | |]; unfold file_of; cbn; rewrite ?lookup_delete_eq; try done.
    + intros v Hne. by rewrite lookup_delete_ne.
    + intros u. by rewrite Hidle.
    + unfold stored_total at 1. cbn. rewrite (stored_delete s w f Hf).
      change (in_flight {| q_used := q_used s; q_files := base.delete w (q_files s); q_under_way := q_under_way s;
                           q_lost := (q_lost s + fb_body f + fb_cas f)%Z |}) with (in_flight s).
      unfold file_total. lia.
Qed.

(** C38: The storage quota holds under every interleaving of writes and deletes of
    different worlds, the steps between a commit and its settlement included.  From
    the empty state, the shared counter is always what the files hold, what removals
    that failed took away, and what is in flight: the growth reserved by writes that
    have not committed, and what committed writes and removals have still to give
    back.  None of these is negative, so the counter and the bytes really stored
    never exceed the quota, and with nothing under way the counter is exactly what
    is stored and lost. *)
Theorem quota_never_exceeded s :
  (0 <= default usize_max quota)%Z -> rtc (quota_step quota) quota_initial s ->
  q_used s = (stored_total s + q_lost s + in_flight s)%Z
  /\ (forall w u, q_under_way s !! w = Some u -> (0 <= owed u)%Z)
  /\ (0 <= stored_total s <= q_used s)%Z /\ (q_used s <= default usize_max quota)%Z
  /\ (q_under_way s = ∅ -> q_used s = (stored_total s + q_lost s)%Z).
Proof.
  intros Hq Hs.
  assert (quota_inv quota s) as Hi.
  { assert (forall s0, rtc (quota_step quota) s0 s -> quota_inv quota s0 -> quota_inv quota s) as Hrun.
    { clear Hs. intros s0 Hs. induction Hs as [|s0 s1 s2 Hst _ IH]; [done|]. intros H0.
      apply IH. by eapply quota_step_inv. }
    apply (Hrun _ Hs). split; try done; cbn; vm_compute; discriminate. }
  pose proof (stored_nonneg s Hi). pose proof (in_flight_nonneg s Hi).
  pose proof (qi_used _ _ Hi). pose proof (qi_limit _ _ Hi). pose proof (qi_lost _ _ Hi).
  split_and!; [done| |lia|lia|lia|].
  - intros w u Hu. by eapply owed_nonneg, qi_under_way.
  - intros He. assert (in_flight s = 0%Z) as Hz by (unfold in_flight; by rewrite He). lia.
Qed.
End QuotaRun.

(** ** Theorems: the gate *)

Definition is_holding (t : gate_thread) : nat := match t with Holding => 1 | _ => 0 end%nat.

Definition holders (l : list gate_thread) : nat := sum_list_with is_holding l.

Lemma holders_insert l i x t :
  l !! i = Some x ->
  (holders (<[i := t]> l) + is_holding x = holders l + is_holding t)%nat.
Proof.
  unfold holders. revert i. induction l as [|y l IH]; intros [|i]; try done.
  - intros [= ->]. cbn [sum_list_with insert list_insert]. lia.
  - intros Hi. specialize (IH i Hi). change (<[S i := t]> (y :: l)) with (y :: <[i := t]> l).
    cbn [sum_list_with]. lia.
Qed.

Lemma holders_le l : (holders l <= length l)%nat.
Proof.
  unfold holders. induction l as [|y l IH]; [done|]. cbn [sum_list_with length].
  destruct y; cbn; lia.
Qed.

Lemma holders_idle n : holders (replicate n Idle) = 0%nat.
Proof. by induction n. Qed.

Lemma holders_zero l i : holders l = 0%nat -> l !! i <> Some Holding.
Proof.
  intros H0 Hi. pose proof (holders_insert l i Holding Idle Hi) as Hx.
  cbn in Hx. lia.
Qed.

Lemma holders_pos l : (0 < holders l)%nat -> exists i, l !! i = Some Holding.
Proof.
  unfold holders. induction l as [|y l IH]; [cbn; lia|]. intros Hp.
  destruct (decide (y = Holding)) as [->|Hne]; [by exists 0%nat|].
  destruct IH as [i Hi]; [destruct y; cbn in Hp; try done; lia|]. by exists (S i).
Qed.

(** The count is the number of permits; a thread past [lock] is the lock holder
    and the lock holder is such a thread; the flag is up once the waiter runs;
    the waiter sleeps only while a permit is out; after it returned no permit
    is out and none can be minted. *)
Record gate_inv (g : gate) : Prop := {
  gi_size : (Z.of_nat (length (threads g)) <= usize_max)%Z;
  gi_active : active g = Z.of_nat (holders (threads g));
  gi_lock : forall i, lock_holder g = Some i
    <-> threads g !! i = Some Locked \/ threads g !! i = Some PassedSecondCheck;
  gi_flag : waiter g <> NotCalled -> shutting_down g = true;
  gi_asleep : waiter g = Asleep -> (0 < active g)%Z;
  gi_done : waiter g = Returned ->
    holders (threads g) = 0%nat /\ forall i, threads g !! i <> Some PassedSecondCheck;
}.

(** Case analysis on which thread moved. *)
Ltac which_thread j i :=
  destruct (decide (j = i)) as [->|];
  [rewrite ?list_lookup_insert_eq in * by (by eapply lookup_lt_Some)
  |rewrite ?list_lookup_insert_ne in * by done].

Definition wants_lock (t : gate_thread) : bool :=
  match t with Locked | PassedSecondCheck => true | _ => false end.

(** A step of one thread: the lock is free or its own, and it keeps the lock
    exactly in the states that hold it. *)
Lemma with_thread_inv g i x t lock :
  gate_inv g -> threads g !! i = Some x ->
  lock = (if wants_lock t then Some i else if wants_lock x then None else lock_holder g) ->
  (wants_lock t = true -> lock_holder g = None \/ lock_holder g = Some i) ->
  (waiter g = Asleep -> x <> Holding \/ (1 < active g)%Z) ->
  (waiter g = Returned -> t <> Holding /\ t <> PassedSecondCheck) ->
  gate_inv (with_thread g i t lock (Z.of_nat (holders (<[i := t]> (threads g))))).
Proof.
  intros [Hz Ha Hl Hf Hs Hd] Hx -> Hlk Hsl Hdone.
  pose proof (holders_insert (threads g) i x t Hx) as Hc.
  split; cbn [active lock_holder threads waiter shutting_down with_thread].
  - by rewrite length_insert.
  - done.
  - intros j. pose proof (Hl i) as Hli. pose proof (Hl j) as Hlj. rewrite Hx in Hli.
    which_thread j i; destruct t, x; cbn [wants_lock] in *; naive_solver.
  - done.
  - intros E. specialize (Hs E). destruct (Hsl E) as [Hne|]; [destruct x; cbn in Hc; try done; lia|].
    destruct x; cbn in Hc; lia.
  - intros Hw. destruct (Hd Hw) as (H0 & Hp), (Hdone Hw) as [Hh Hps].
    split; [destruct t; cbn in Hc; try done; lia|].
    intros j Hj. which_thread j i; [by injection Hj|by apply (Hp j)].
Qed.

(** The same for a step that neither mints nor drops a permit. *)
Lemma with_thread_same_inv g i x t lock :
  gate_inv g -> threads g !! i = Some x -> x <> Holding -> t <> Holding ->
  lock = (if wants_lock t then Some i else if wants_lock x then None else lock_holder g) ->
  (wants_lock t = true -> lock_holder g = None \/ lock_holder g = Some i) ->
  (waiter g = Returned -> t <> PassedSecondCheck) ->
  gate_inv (with_thread g i t lock (active g)).
Proof.
  intros Hi Hx Hnx Hnt Hl Hlk Hd. rewrite (gi_active _ Hi).
  pose proof (holders_insert (threads g) i x t Hx) as Hc.
  replace (holders (threads g)) with (holders (<[i := t]> (threads g)))
    by (destruct x, t; cbn in Hc; try done; lia).
  eapply with_thread_inv; [done|done|done|done|by left|]. intros Hw. split; [done|by apply Hd].
Qed.

Lemma with_waiter_inv g w :
  gate_inv g -> shutting_down g = true -> w <> NotCalled ->
  (w = Asleep -> (0 < active g)%Z) ->
  (w = Returned -> active g = 0%Z /\ lock_holder g = None) ->
  gate_inv (with_waiter g w).
Proof.
  intros [Hz Ha Hl Hf Hs Hd] Hflag Hw Hsl Hr.
  split; cbn [active lock_holder threads waiter shutting_down with_waiter]; try done.
  intros E. destruct (Hr E) as [H0 Hn]. split; [lia|].
  intros i Hi. assert (lock_holder g = Some i) by (apply Hl; by right). congruence.
Qed.

Lemma drop_permit_inv g i :
  gate_inv g -> threads g !! i = Some Holding -> lock_holder g = None ->
  gate_inv (drop_permit g i) /\ active (drop_permit g i) = (active g - 1)%Z
  /\ lock_holder (drop_permit g i) = None
  /\ S (holders (threads (drop_permit g i))) = holders (threads g).
Proof.
  intros Hi Hx Hl. pose proof (holders_insert (threads g) i _ Idle Hx) as Hc. cbn in Hc.
  pose proof (gi_active _ Hi) as Ha. pose proof (gi_asleep _ Hi) as Hs.
  assert (saturating_sub (active g) 1 = Z.of_nat (holders (<[i := Idle]> (threads g)))) as En
    by (unfold saturating_sub; lia).
  unfold drop_permit, notify_all. rewrite En. cbn [active with_thread waiter].
  assert (forall g0, gate_inv g0 -> threads g0 = threads g -> lock_holder g0 = None ->
    (waiter g0 = Asleep -> (1 < active g0)%Z) ->
    gate_inv (with_thread g0 i Idle None (Z.of_nat (holders (<[i := Idle]> (threads g)))))) as Hw.
  { intros g0 Hi0 Et Hl0 Hs0. rewrite <- Et in Hx |- *.
    apply (with_thread_inv g0 i Holding); [done|done|done|done|by right; apply Hs0|done]. }
  destruct (Z.eqb_spec (Z.of_nat (holders (<[i := Idle]> (threads g)))) 0) as [E|E].
  - destruct (waiter g) eqn:Ew; (split; [|split_and!; cbn [active with_thread with_waiter lock_holder threads]; [lia|done|lia]]); try (apply Hw; congruence).
    apply (Hw (with_waiter g Checking)); try done. apply with_waiter_inv; try done.
    apply (gi_flag _ Hi). by rewrite Ew.
  - split; [|split_and!; cbn [active with_thread with_waiter lock_holder threads]; [lia|done|lia]]. apply Hw; try done. lia.
Qed.

Lemma gate_step_inv g g' : gate_inv g -> gate_step g g' -> gate_inv g'.
Proof.
  intros Hi Hs. pose proof Hi as [Hz Ha Hlk Hf Hsl Hd]. destruct Hs.
  - by eapply with_thread_same_inv; try done; destruct (shutting_down g).
  - eapply with_thread_same_inv; try done; by left.
  - destruct (shutting_down g) eqn:E; eapply with_thread_same_inv; try done; try (by right).
    intros Hw. exfalso. enough (false = true) by done. apply Hf. by rewrite Hw.
  - pose proof (holders_insert (threads g) i _ Holding Ht) as Hc. cbn in Hc.
    pose proof (holders_le (<[i := Holding]> (threads g))) as Hle. rewrite length_insert in Hle.
    replace (saturating_add (active g) 1) with (Z.of_nat (holders (<[i := Holding]> (threads g))))
      by (unfold saturating_add; lia).
    eapply with_thread_inv; try done; [by left|]. intros Hw. by destruct (proj2 (Hd Hw) i).
  - by apply drop_permit_inv.
  - by eapply with_thread_same_inv.
  - split; cbn [active lock_holder threads waiter shutting_down]; done.
  - apply with_waiter_inv; try done; destruct (Z.eqb_spec (active g) 0); try done; try lia.
    all: apply Hf; by rewrite Hw.
  - apply with_waiter_inv; try done. apply Hf. by rewrite Hw.
Qed.

Lemma gate_new_inv n : (Z.of_nat n <= usize_max)%Z -> gate_inv (gate_new n).
Proof.
  intros Hn. split; cbn; try done.
  - by rewrite length_replicate.
  - by rewrite holders_idle.
  - intros i. split; [done|]. intros [[E _]%lookup_replicate|[E _]%lookup_replicate]; discriminate E.
Qed.

Lemma gate_run_inv g g' : rtc gate_step g g' -> gate_inv g -> gate_inv g'.
Proof.
  induction 1 as [|g g1 g' Hs _ IH]; [done|]. intros Hi. apply IH. by eapply gate_step_inv.
Qed.

(** The lock holder can always let go of the lock. *)
Lemma gate_unlock g : gate_inv g -> exists g', rtc gate_step g g' /\ lock_holder g' = None.
Proof.
  intros Hi. destruct (lock_holder g) as [i|] eqn:El; [|exists g; split; [apply rtc_refl|done]].
  assert (forall g0, threads g0 !! i = Some PassedSecondCheck -> lock_holder g0 = Some i ->
    exists g', rtc gate_step g0 g' /\ lock_holder g' = None) as Hinc.
  { intros g0 Hx Hl0. eexists. split; [by apply rtc_once, begin_increment|done]. }
  destruct (proj1 (gi_lock _ Hi i) El) as [Hx|Hx]; [|by apply Hinc].
  pose proof (begin_second g i Hx El) as Hs. destruct (shutting_down g).
  - eexists. split; [by apply rtc_once|done].
  - edestruct Hinc as (g' & Hr & Hg'); [..|exists g'; split; [by eapply rtc_l|done]]; [|done].
    cbn. apply list_lookup_insert_eq. by eapply lookup_lt_Some.
Qed.

(** Permits out can all be given back. *)
Lemma gate_drain g :
  gate_inv g -> lock_holder g = None ->
  exists g', rtc gate_step g g' /\ gate_inv g' /\ lock_holder g' = None /\ active g' = 0%Z.
Proof.
  remember (holders (threads g)) as n eqn:En. revert g En. induction n as [|n IH]; intros g En Hi Hl.
  - exists g. split_and!; [apply rtc_refl|done|done|]. rewrite (gi_active _ Hi). lia.
  - destruct (holders_pos (threads g)) as [i Hx]; [lia|].
    destruct (drop_permit_inv g i Hi Hx Hl) as (Hi' & _ & Hl' & Hn).
    destruct (IH (drop_permit g i)) as (g' & Hr & Hg'); [lia|done..|].
    exists g'. split; [|done]. eapply rtc_l; [by apply permit_drop|done].
Qed.

Lemma gate_can_return g :
  gate_inv g -> exists g', rtc gate_step g g' /\ waiter g' = Returned.
Proof.
  intros Hi. destruct (gate_unlock g Hi) as (g1 & Hr1 & Hl1).
  destruct (gate_drain g1 (gate_run_inv _ _ Hr1 Hi) Hl1) as (g2 & Hr2 & Hi2 & Hl2 & Ha2).
  assert (forall g0, waiter g0 = Checking -> lock_holder g0 = None -> active g0 = 0%Z ->
    exists g', rtc gate_step g0 g' /\ waiter g' = Returned) as Hchk.
  { intros g0 Hw Hl Ha. eexists. split; [by apply rtc_once, shutdown_check|]. cbn. by rewrite Ha. }
  assert (exists g', rtc gate_step g2 g' /\ waiter g' = Returned) as (g' & Hr & Hw).
  { destruct (waiter g2) eqn:Ew.
    - edestruct Hchk as (g' & Hr & Hw); [..|exists g'; split; [eapply rtc_l; [by apply shutdown_store|exact Hr]|done]];
        done.
    - by apply Hchk.
    - pose proof (gi_asleep _ Hi2 Ew). lia.
    - exists g2. split; [apply rtc_refl|done]. }
  exists g'. split; [|done]. by do 2 (etrans; [eassumption|]).
Qed.

Lemma returned_stays g g' : rtc gate_step g g' -> waiter g = Returned -> waiter g' = Returned.
Proof.
  induction 1 as [|g g1 g' Hs _ IH]; [done|]. intros Hw. apply IH. clear -Hw Hs.
  destruct Hs; try done; try congruence; [by destruct (shutting_down g)|].
  unfold drop_permit, notify_all. destruct (_ =? _)%Z; cbn; by rewrite Hw.
Qed.

(** C39: Shutdown drains the file operations.  Under every interleaving of
    threads that enter and leave the gate: the count of permits is exact; once
    [shutdown_and_wait] has returned no thread holds a permit, in that state
    and in every later one; the waiter sleeps only while some thread holds a
    permit whose drop will wake it, so no wake-up is lost; and from every
    state the threads can finish so that [shutdown_and_wait] returns. *)
Theorem shutdown_drains_gate n g g' :
  (Z.of_nat n <= usize_max)%Z -> rtc gate_step (gate_new n) g -> rtc gate_step g g' ->
  active g' = Z.of_nat (holders (threads g'))
  /\ (waiter g = Returned -> forall i, threads g' !! i <> Some Holding)
  /\ (waiter g' = Asleep -> exists i, threads g' !! i = Some Holding)
  /\ exists g'', rtc gate_step g' g'' /\ waiter g'' = Returned.
Proof.
  intros Hn Hs Hs'. pose proof (gate_run_inv _ _ Hs (gate_new_inv _ Hn)) as Hi.
  pose proof (gate_run_inv _ _ Hs' Hi) as Hi'. split_and!; [apply Hi'| | |by apply gate_can_return].
  - intros Hw i. apply holders_zero. by apply (gi_done _ Hi'), (returned_stays _ _ Hs').
  - intros Hw. apply holders_pos. pose proof (gi_asleep _ Hi' Hw). rewrite (gi_active _ Hi') in *. lia.
Qed.

(** ** The theorems at concrete runs *)

(** A first write of 3 bytes with its retained copy settles; then the world is
    replaced by a shorter body whose copy is retained already.  That write has
    committed, but the refund of the copy it asked for is still owed, and a second
    world, which would fit in what the files hold, is refused meanwhile. *)
Definition first_write : Reservation :=
  {| rv_kind := Replaces; rv_len := 3; rv_candidate := 3; rv_prunable := 0;
     rv_pending := {| reserved_increase := 6; deferred_credit := 0 |} |}.

Definition second_write : Reservation :=
  {| rv_kind := Replaces; rv_len := 1; rv_candidate := 3; rv_prunable := 0;
     rv_pending := {| reserved_increase := 1; deferred_credit := 0 |} |}.

Definition in_use (used : Z) (f : FileBytes) (u : option UnderWay) : quota_state :=
  {| q_used := used; q_files := {["home/a" := f]}; q_under_way := partial_alter (fun _ => u) "home/a" ∅;
     q_lost := 0 |}.

Lemma demo_quota_run :
  rtc (quota_step (Some 10%Z)) quota_initial
    (in_use 7 {| fb_body := 1; fb_cas := 3 |} (Some (Writing second_write (RefundCandidate false PrunedCas_default)))).
Proof.
  eapply rtc_l.
  { apply (q_reserve (Some 10%Z) quota_initial "home/a" Replaces 3 3 0 (rv_pending first_write) 6);
      first [lia|evaluate]. }
  eapply rtc_l.
  { apply (q_commit_sqlite _ _ "home/a" first_write true PrunedCas_default); [evaluate|split; vm_compute; discriminate]. }
  eapply rtc_l; [apply (q_commit_pending _ _ "home/a" first_write true PrunedCas_default); evaluate|].
  eapply rtc_l; [apply (q_refund _ _ "home/a" first_write true PrunedCas_default); evaluate|].
  eapply rtc_l; [apply (q_credit _ _ "home/a" first_write PrunedCas_default); evaluate|].
  eapply rtc_l.
  { apply (q_reserve (Some 10%Z) _ "home/a" Replaces 1 3 0 (rv_pending second_write) 7); first [lia|evaluate]. }
  eapply rtc_l.
  { apply (q_commit_sqlite _ _ "home/a" second_write false PrunedCas_default); [evaluate|split; vm_compute; discriminate]. }
  eapply rtc_l; [apply (q_commit_pending _ _ "home/a" second_write false PrunedCas_default); evaluate|].
  apply rtc_refl.
Qed.

(** The refund of 3 bytes is still owed. *)
Lemma quota_never_exceeded_witness :
  let s := in_use 7 {| fb_body := 1; fb_cas := 3 |}
             (Some (Writing second_write (RefundCandidate false PrunedCas_default))) in
  (q_used s = stored_total s + q_lost s + in_flight s)%Z /\ stored_total s = 4%Z /\ in_flight s = 3%Z
  /\ (q_used s <= 10)%Z /\ is_ok (reserve_storage_after_prune (Some 10%Z) 7 0 4 0) = false.
Proof.
  intros s. destruct (quota_never_exceeded (Some 10%Z) _ ltac:(evaluate) demo_quota_run) as (He & _ & _ & Hle & _).
  split; [exact He|]. split; [evaluate|]. split; [evaluate|]. split; [exact Hle|evaluate].
Defined.

(** Thread 0 passes both checks while the shutdown flag is stored; the waiter
    finds its permit, sleeps, is woken by the drop and returns. *)
Definition demo_gate : gate :=
  {| shutting_down := true; active := 0; lock_holder := None; threads := [Idle];
     waiter := Returned |}.

Lemma demo_gate_run : rtc gate_step (gate_new 1) demo_gate.
Proof.
  eapply rtc_l; [apply (begin_first _ 0); reflexivity|].
  eapply rtc_l; [apply (begin_lock _ 0); reflexivity|].
  eapply rtc_l; [apply (begin_second _ 0); reflexivity|].
  eapply rtc_l; [apply shutdown_store; reflexivity|].
  eapply rtc_l; [apply (begin_increment _ 0); reflexivity|].
  eapply rtc_l; [apply shutdown_check; reflexivity|].
  eapply rtc_l; [apply (permit_drop _ 0); reflexivity|].
  eapply rtc_l; [apply shutdown_check; reflexivity|]. apply rtc_refl.
Qed.

Lemma shutdown_drains_gate_witness :
  waiter demo_gate = Returned /\ threads demo_gate !! 0 <> Some Holding.
Proof.
  split; [reflexivity|].
  destruct (shutdown_drains_gate 1 demo_gate demo_gate ltac:(evaluate) demo_gate_run
              (rtc_refl _ _)) as (_ & Hd & _).
  exact (Hd eq_refl 0%nat).
Defined.
