(* ===== verification/WorldLocks.v ===== *)
(** * The world lock table

    Models the per-world write locks of [core/src/state.rs]
    ([acquire_world_lock], [world_lock_handle], [maybe_prune_world_locks],
    [prune_expired_world_locks]) and the way [world_ops.rs] and [delete_ops.rs]
    take them: a write holds its world's lock while its blocking part runs; a
    delete takes its world's lock first and then the lock of the ledger stream.

    The table maps a world to a weak handle of its mutex.  A mutex is a number
    that is never used again; the operations that wait for it or hold it own it,
    so its strong count is the number of those operations.  An access to one
    entry, and the part of [retain] that visits one shard, is atomic. *)

From S2P Require Import Prelude.

Definition WORLD_LOCK_SWEEP_INTERVAL : Z := 256.

(** ** Operations *)

Inductive OpKind := Writing | Deleting.

#[global] Instance OpKind_eq_dec : EqDecision OpKind.
Proof. solve_decision. Defined.

(** Where an operation is: before the tick, in the sweep, before its entry,
    waiting for its world's mutex, (a delete) waiting for the stream lock, with
    its blocking part running, or over. *)
Inductive OpState :=
| Ticking
| Sweeping
| Entering
| WaitingWorld (lock : nat)
| WaitingStream (lock : nat)
| RunningOp (lock : nat)
| Over.

Record LockOp := { lo_world : string; lo_kind : OpKind; lo_state : OpState }.

Definition set_op (st : OpState) (o : LockOp) : LockOp :=
  {| lo_world := lo_world o; lo_kind := lo_kind o; lo_state := st |}.

(** The mutex an operation owns an [Arc] of, and the one it has locked. *)
Definition owned (o : LockOp) : option nat :=
  match lo_state o with
  | WaitingWorld lock | WaitingStream lock | RunningOp lock => Some lock
  | _ => None
  end.

Definition locked (o : LockOp) : option nat :=
  match lo_state o with WaitingStream lock | RunningOp lock => Some lock | _ => None end.

Definition holds_stream (o : LockOp) : bool :=
  match lo_kind o, lo_state o with Deleting, RunningOp _ => true | _, _ => false end.

Record LockState := {
  world_locks : gmap string nat;
  world_lock_sweep_tick : Z;
  next_lock : nat;
  ops : gmap nat LockOp;
}.

Definition owners (lock : nat) (s : LockState) : gmap nat LockOp :=
  filter (fun io => owned (snd io) = Some lock) (ops s).

Definition strong_count (lock : nat) (s : LockState) : nat := size (owners lock s).

Definition mutex_free (lock : nat) (s : LockState) : Prop :=
  map_Forall (fun _ o => locked o <> Some lock) (ops s).

Definition stream_free (s : LockState) : Prop :=
  map_Forall (fun _ o => holds_stream o = false) (ops s).

#[global] Instance mutex_free_dec lock s : Decision (mutex_free lock s).
Proof. unfold mutex_free. apply _. Defined.

#[global] Instance stream_free_dec s : Decision (stream_free s).
Proof. unfold stream_free. apply _. Defined.

(** ** The table *)

(** [fetch_add], and whether this caller sweeps. *)
Definition maybe_prune_world_locks (tick : Z) : bool * Z :=
  ((tick mod WORLD_LOCK_SWEEP_INTERVAL =? WORLD_LOCK_SWEEP_INTERVAL - 1)%Z, ((tick + 1) mod 2 ^ 64)%Z).

(** The part of [retain] that visits the entries of one shard. *)
Definition prune_expired_world_locks (shard : string -> bool) (s : LockState) : gmap string nat :=
  filter (fun wl => shard (fst wl) = true -> strong_count (snd wl) s <> 0%nat) (world_locks s).

(** The entry of a world: its mutex if it can be upgraded, or a new one. *)
Definition world_lock_handle (w : string) (s : LockState) : nat * gmap string nat * nat :=
  let fresh := (next_lock s, <[w := next_lock s]> (world_locks s), S (next_lock s)) in
  match world_locks s !! w with
  | Some lock => if decide (strong_count lock s = 0%nat) then fresh else (lock, world_locks s, next_lock s)
  | None => fresh
  end.

(** ** Steps *)

Definition with_op (i : nat) (o : LockOp) (s : LockState) : LockState :=
  {| world_locks := world_locks s; world_lock_sweep_tick := world_lock_sweep_tick s;
     next_lock := next_lock s; ops := <[i := o]> (ops s) |}.

Definition with_table (t : gmap string nat) (n : nat) (s : LockState) : LockState :=
  {| world_locks := t; world_lock_sweep_tick := world_lock_sweep_tick s; next_lock := n; ops := ops s |}.

Definition with_tick (tick : Z) (s : LockState) : LockState :=
  {| world_locks := world_locks s; world_lock_sweep_tick := tick; next_lock := next_lock s; ops := ops s |}.

(** The state after its world's mutex: a delete goes on to the stream lock. *)
Definition after_world_lock (k : OpKind) (lock : nat) : OpState :=
  match k with Writing => RunningOp lock | Deleting => WaitingStream lock end.

(** A step of operation [i].  Dropping its future while it waits gives up what
    it owns; once the blocking part runs, the guards are its own. *)
Inductive op_step (i : nat) (o : LockOp) (s : LockState) : OpState -> LockState -> Prop :=
| step_tick :
    lo_state o = Ticking ->
    op_step i o s (if fst (maybe_prune_world_locks (world_lock_sweep_tick s)) then Sweeping else Entering)
      (with_tick (snd (maybe_prune_world_locks (world_lock_sweep_tick s))) s)
| step_sweep shard :
    lo_state o = Sweeping ->
    op_step i o s Sweeping (with_table (prune_expired_world_locks shard s) (next_lock s) s)
| step_swept : lo_state o = Sweeping -> op_step i o s Entering s
| step_enter lock table next :
    lo_state o = Entering -> world_lock_handle (lo_world o) s = (lock, table, next) ->
    op_step i o s (WaitingWorld lock) (with_table table next s)
| step_lock lock :
    lo_state o = WaitingWorld lock -> mutex_free lock s ->
    op_step i o s (after_world_lock (lo_kind o) lock) s
| step_stream lock :
    lo_state o = WaitingStream lock -> stream_free s -> op_step i o s (RunningOp lock) s
| step_finish lock : lo_state o = RunningOp lock -> op_step i o s Over s
| step_dropped :
    (exists lock, lo_state o = WaitingWorld lock \/ lo_state o = WaitingStream lock) ->
    op_step i o s Over s.

Inductive lock_step : LockState -> LockState -> Prop :=
| op_moves s i o st s' :
    ops s !! i = Some o -> op_step i o s st s' -> lock_step s (with_op i (set_op st o) s')
| op_begins s i w k :
    ops s !! i = None -> lock_step s (with_op i {| lo_world := w; lo_kind := k; lo_state := Ticking |} s).

Definition lock_start : LockState :=
  {| world_locks := ∅; world_lock_sweep_tick := 0; next_lock := 0; ops := ∅ |}.

(** ** The invariant *)

Record locks_inv (s : LockState) : Prop := {
  li_owned : forall i o lock, ops s !! i = Some o -> owned o = Some lock ->
               world_locks s !! lo_world o = Some lock;
  li_used : forall w lock, world_locks s !! w = Some lock -> (lock < next_lock s)%nat;
  li_apart : forall w w' lock, world_locks s !! w = Some lock -> world_locks s !! w' = Some lock -> w = w';
  li_mutex : forall i j o o' lock, ops s !! i = Some o -> ops s !! j = Some o' ->
               locked o = Some lock -> locked o' = Some lock -> i = j;
  li_stream : forall i j o o', ops s !! i = Some o -> ops s !! j = Some o' ->
               holds_stream o = true -> holds_stream o' = true -> i = j;
  li_kind : forall i o lock, ops s !! i = Some o -> lo_state o = WaitingStream lock -> lo_kind o = Deleting;
}.

Lemma locked_owned o lock : locked o = Some lock -> owned o = Some lock.
Proof. unfold locked, owned. by destruct (lo_state o). Qed.

Lemma strong_zero lock s :
  strong_count lock s = 0%nat <-> map_Forall (fun _ o => owned o <> Some lock) (ops s).
Proof.
  unfold strong_count, owners. rewrite map_size_empty_iff. split.
  - intros He i o Hi Ho.
    assert (Hf : filter (fun io => owned (snd io) = Some lock) (ops s) !! i = Some o) by (by apply map_lookup_filter_Some).
    by rewrite He in Hf.
  - intros Hn. apply map_empty. intros i. apply map_lookup_filter_None. right. intros o Hi. by apply (Hn i o).
Qed.

(** The table entries of owned mutexes are stable. *)
Lemma table_change s t n :
  locks_inv s ->
  (forall i o lock, ops s !! i = Some o -> owned o = Some lock -> t !! lo_world o = Some lock) ->
  (forall w lock, t !! w = Some lock -> (lock < n)%nat) ->
  (forall w w' lock, t !! w = Some lock -> t !! w' = Some lock -> w = w') ->
  locks_inv (with_table t n s).
Proof. intros [_ _ _ Hm Hst Hk] Ho Hu Ha. by split. Qed.

(** An operation may change where it is if what it comes to own, lock or hold is
    in the table and not locked or held by another. *)
Lemma op_change s i o' :
  locks_inv s ->
  (forall lock, owned o' = Some lock -> world_locks s !! lo_world o' = Some lock) ->
  (forall lock j oj, locked o' = Some lock -> j <> i -> ops s !! j = Some oj -> locked oj <> Some lock) ->
  (forall j oj, holds_stream o' = true -> j <> i -> ops s !! j = Some oj -> holds_stream oj = false) ->
  (forall lock, lo_state o' = WaitingStream lock -> lo_kind o' = Deleting) ->
  locks_inv (with_op i o' s).
Proof.
  intros [Ho Hu Ha Hm Hst Hk] Ho' Hm' Hst' Hk'. split; cbn; try done.
  - intros j oj lock. rewrite lookup_insert_Some. intros [[<- <-]|[_ Hj]]; [apply Ho'|by apply (Ho j)].
  - intros j k oj ok lock. rewrite !lookup_insert_Some.
    intros [[<- <-]|[Hj1 Hj]] [[<- <-]|[Hk1 Hk2]] Hl1 Hl2; [done| | |by eapply Hm].
    + exfalso. by eapply (Hm' lock k ok).
    + exfalso. by eapply (Hm' lock j oj).
  - intros j k oj ok. rewrite !lookup_insert_Some.
    intros [[<- <-]|[Hj1 Hj]] [[<- <-]|[Hk1 Hk2]] Hl1 Hl2; [done| | |by eapply Hst].
    + exfalso. specialize (Hst' k ok Hl1 (not_eq_sym Hk1) Hk2). congruence.
    + exfalso. specialize (Hst' j oj Hl2 (not_eq_sym Hj1) Hj). congruence.
  - intros j oj lock. rewrite lookup_insert_Some. intros [[<- <-]|[_ Hj]]; [apply Hk'|by apply (Hk j)].
Qed.

Lemma prune_keeps_owned s shard i o lock :
  locks_inv s -> ops s !! i = Some o -> owned o = Some lock ->
  prune_expired_world_locks shard s !! lo_world o = Some lock.
Proof.
  intros Hs Hi Ho. apply map_lookup_filter_Some. split; [by eapply li_owned|]. intros _ H0.
  by apply strong_zero in H0; eapply H0.
Qed.

Lemma prune_inv s shard :
  locks_inv s -> locks_inv (with_table (prune_expired_world_locks shard s) (next_lock s) s).
Proof.
  intros Hs. apply table_change; [done| | |].
  - intros. by eapply prune_keeps_owned.
  - intros w lock [Hw _]%map_lookup_filter_Some. by eapply li_used.
  - intros w w' lock [Hw _]%map_lookup_filter_Some [Hw' _]%map_lookup_filter_Some. by eapply li_apart.
Qed.

(** The entry of [w] may be replaced by a new mutex when nobody owns it. *)
Lemma fresh_inv s w :
  locks_inv s -> (forall lock, world_locks s !! w = Some lock -> strong_count lock s = 0%nat) ->
  locks_inv (with_table (<[w := next_lock s]> (world_locks s)) (S (next_lock s)) s).
Proof.
  intros Hs Hw. apply table_change; [done| | |].
  - intros i o lock Hi Ho. pose proof (li_owned s Hs i o lock Hi Ho) as Ht.
    rewrite lookup_insert_ne; [done|]. intros ->.
    by apply Hw, strong_zero in Ht; eapply Ht.
  - intros w' lock. rewrite lookup_insert_Some. intros [[_ <-]|[_ H]]; [lia|].
    pose proof (li_used s Hs w' lock H). lia.
  - intros w1 w2 lock. rewrite !lookup_insert_Some.
    intros [[<- <-]|[_ H1]] [[<- H]|[_ H2]]; [done| | |by eapply li_apart].
    + pose proof (li_used s Hs _ _ H2). lia.
    + subst. pose proof (li_used s Hs _ _ H1). lia.
Qed.

Lemma handle_inv s w lock table next :
  locks_inv s -> world_lock_handle w s = (lock, table, next) ->
  locks_inv (with_table table next s) /\ table !! w = Some lock.
Proof.
  intros Hs. unfold world_lock_handle. destruct (world_locks s !! w) as [old|] eqn:Hw; [case_decide as H0|];
    intros H; simplify_eq; (split; [|by rewrite ?lookup_insert_eq]).
  - apply fresh_inv; [done|]. intros lock' ?. by simplify_eq.
  - by destruct s.
  - apply fresh_inv; [done|]. intros lock' ?. by simplify_eq.
Qed.

Lemma tick_inv s tick : locks_inv s -> locks_inv (with_tick tick s).
Proof. intros [Ho Hu Ha Hm Hst Hk]. by split. Qed.

(** An operation that locks nothing after its step. *)
Lemma op_change_unlocked s i o :
  locks_inv s -> locked o = None -> (forall lock, owned o = Some lock -> world_locks s !! lo_world o = Some lock) ->
  locks_inv (with_op i o s).
Proof.
  intros Hs Hl Ho. apply op_change; [done|done|by rewrite Hl| |].
  - intros j oj Hh. unfold holds_stream, locked in *. by repeat case_match.
  - intros lock Hst. unfold locked in Hl. by rewrite Hst in Hl.
Qed.

Lemma op_step_inv s i o st s' :
  locks_inv s -> ops s !! i = Some o -> op_step i o s st s' -> locks_inv (with_op i (set_op st o) s').
Proof.
  intros Hs Hi Hstep.
  assert (Hmine : forall lock, owned o = Some lock -> world_locks s !! lo_world o = Some lock)
    by (intros ?; by apply (li_owned s Hs i)).
  destruct Hstep as [Hst|shard Hst|Hst|lock table next Hst Hh|lock Hst Hf|lock Hst Hf|lock Hst|Hst].
  - apply op_change_unlocked; [by apply tick_inv| |]; by destruct (fst _).
  - apply op_change_unlocked; [by apply prune_inv|done|done].
  - by apply op_change_unlocked.
  - destruct (handle_inv _ _ _ _ _ Hs Hh) as [Hs' Ht]. apply op_change_unlocked; [done|done|].
    intros lock' [= <-]. done.
  - apply op_change; [done| | | |].
    + intros lock' Ho. apply Hmine. unfold owned in *. rewrite Hst. by cbn in Ho; destruct (lo_kind o).
    + intros lock' j oj Hl _ Hj. assert (lock' = lock) as -> by (unfold locked, set_op in Hl; cbn in Hl; destruct (lo_kind o); cbn in Hl; congruence).
      by apply (Hf j).
    + intros j oj. unfold holds_stream. by cbn; destruct (lo_kind o).
    + intros lock'. by cbn; destruct (lo_kind o).
  - apply op_change; [done| | | |].
    + intros lock' [= <-]. apply Hmine. unfold owned. by rewrite Hst.
    + intros lock' j oj [= <-] Hne Hj Hl. apply Hne. eapply (li_mutex s Hs j i); [done..|].
      unfold locked. by rewrite Hst.
    + intros j oj _ _ Hj. by apply (Hf j).
    + done.
  - by apply op_change_unlocked.
  - by apply op_change_unlocked.
Qed.

Lemma locks_reachable s : rtc lock_step lock_start s -> locks_inv s.
Proof.
  intros Hr. remember lock_start as s0 eqn:E. assert (H0 : locks_inv s0) by (by subst; split).
  clear E. induction Hr as [|s1 s2 s3 Hst _ IH]; [done|]. apply IH.
  destruct Hst as [s i o st s' Hi Hop|s i w k Hi]; [by eapply op_step_inv|by apply op_change_unlocked].
Qed.

(** ** What the locks give *)

Definition pending (o : LockOp) : Prop := lo_state o <> Over.

(** An operation that cannot move on until another one does. *)
Definition blocked (o : LockOp) (s : LockState) : Prop :=
  match lo_state o with
  | WaitingWorld lock => ~ mutex_free lock s
  | WaitingStream _ => ~ stream_free s
  | _ => False
  end.

Definition running (o : LockOp) : Prop := exists lock, lo_state o = RunningOp lock.

Lemma not_map_forall {A} (P : A -> Prop) `{!forall a, Decision (P a)} (m : gmap nat A) :
  ~ map_Forall (fun _ a => P a) m -> exists i a, m !! i = Some a /\ ~ P a.
Proof. intros Hn. apply map_not_Forall in Hn; [|apply _]. naive_solver. Qed.

(** Whoever waits for a world's mutex waits for an operation on that world. *)
Lemma blocked_by_same_world s i o lock :
  locks_inv s -> ops s !! i = Some o -> lo_state o = WaitingWorld lock -> ~ mutex_free lock s ->
  exists j o', j <> i /\ ops s !! j = Some o' /\ lo_world o' = lo_world o /\ locked o' = Some lock.
Proof.
  intros Hs Hi Hw Hf. apply not_map_forall in Hf as (j & o' & Hj & Hl); [|apply _].
  destruct (decide (locked o' = Some lock)) as [Hl'|]; [|done].
  exists j, o'. split_and!; [|done| |done].
  - intros ->. unfold locked in Hl'. by simplify_eq; rewrite Hw in Hl'.
  - eapply (li_apart s Hs _ _ lock); [by eapply li_owned, locked_owned|].
    eapply li_owned; [done..|]. unfold owned. by rewrite Hw.
Qed.

(** The holder of the stream lock runs, and whoever holds a mutex runs or waits
    for the stream lock. *)
Lemma some_op_moves s i o :
  locks_inv s -> ops s !! i = Some o -> pending o ->
  exists j o', ops s !! j = Some o' /\ pending o' /\ ~ blocked o' s.
Proof.
  intros Hs Hi Hp.
  assert (Hstream : forall j o' lock, ops s !! j = Some o' -> locked o' = Some lock ->
            exists j o', ops s !! j = Some o' /\ pending o' /\ ~ blocked o' s).
  { intros j o' lock Hj Hl. destruct (decide (stream_free s)) as [Hf|Hf].
    - exists j, o'. unfold pending, blocked, locked in *. destruct (lo_state o'); naive_solver.
    - apply not_map_forall in Hf as (k & ok & Hk & Hh); [|apply _]. exists k, ok.
      unfold pending, blocked, holds_stream in *. destruct (lo_kind ok), (lo_state ok); naive_solver. }
  destruct (lo_state o) as [| | |lock|lock|lock|] eqn:Hst; [..|done];
    try (exists i, o; unfold pending, blocked; rewrite Hst; by split_and!; auto).
  - destruct (decide (mutex_free lock s)) as [Hf|Hf].
    + exists i, o. unfold pending, blocked; rewrite Hst. naive_solver.
    + destruct (blocked_by_same_world _ _ _ _ Hs Hi Hst Hf) as (j & o' & _ & Hj & _ & Hl). by eapply Hstream.
  - eapply Hstream; [done|]. unfold locked. by rewrite Hst.
Qed.

(** What every reachable state has: one operation at a time on a world, one
    delete at a time, waiting only for the same world, no deadlock, and a sweep
    that drops exactly what nobody owns. *)
Lemma locks_run s :
  locks_inv s ->
  (forall i j o o', ops s !! i = Some o -> ops s !! j = Some o' -> running o -> running o' ->
     lo_world o = lo_world o' \/ lo_kind o = Deleting /\ lo_kind o' = Deleting -> i = j) /\
  (forall i o, ops s !! i = Some o -> lo_kind o = Writing -> blocked o s ->
     exists j o', j <> i /\ ops s !! j = Some o' /\ lo_world o' = lo_world o /\ is_Some (locked o')) /\
  ((exists i o, ops s !! i = Some o /\ pending o) ->
     exists i o, ops s !! i = Some o /\ pending o /\ ~ blocked o s) /\
  (forall w lock, prune_expired_world_locks (fun _ => true) s !! w = Some lock <->
     world_locks s !! w = Some lock /\ exists i o, ops s !! i = Some o /\ owned o = Some lock).
Proof.
  intros Hs. split; [|split; [|split]].
  - intros i j o o' Hi Hj [l Hl] [l' Hl'] [Hw|[Hk Hk']].
    + assert (Ho : owned o = Some l) by (unfold owned; by rewrite Hl).
      assert (Ho' : owned o' = Some l') by (unfold owned; by rewrite Hl').
      pose proof (li_owned s Hs _ _ _ Hi Ho) as H1. pose proof (li_owned s Hs _ _ _ Hj Ho') as H2.
      rewrite Hw in H1. simplify_eq. eapply (li_mutex s Hs i j o o' l); [done..| |]; unfold locked; by rewrite ?Hl, ?Hl'.
    + eapply (li_stream s Hs i j o o'); [done..| |]; unfold holds_stream; by rewrite ?Hk, ?Hk', ?Hl, ?Hl'.
  - intros i o Hi Hk Hb. unfold blocked in Hb. destruct (lo_state o) as [| | |lock|lock| |] eqn:Hst; try done.
    + destruct (blocked_by_same_world _ _ _ _ Hs Hi Hst Hb) as (j & o' & ? & ? & ? & ?). by exists j, o'.
    + by rewrite (li_kind s Hs i o lock) in Hk.
  - intros (i & o & Hi & Hp). by eapply some_op_moves.
  - intros w lock. unfold prune_expired_world_locks. rewrite map_lookup_filter_Some. cbn. split.
    + intros [Hw Hc]. split; [done|]. destruct (decide (strong_count lock s = 0%nat)) as [|Hn]; [naive_solver|].
      rewrite strong_zero in Hn. apply not_map_forall in Hn as (i & o & Hi & Ho); [|apply _].
      exists i, o. split; [done|]. by apply dec_stable.
    + intros [Hw (i & o & Hi & Ho)]. split; [done|]. intros _ H0%strong_zero. by eapply H0.
Qed.

(** C16: Per-world locking, in every state the operations reach by any
    interleaving of their steps (table sweeps, dropped futures and the reuse or
    replacement of table entries included).  Two operations whose blocking parts
    run are the same one if they are on the same world or are both deletes.  A
    write that cannot go on waits for an operation on its own world, so writes
    on different worlds never wait for each other.  There is no deadlock: while
    an operation is pending, some pending operation can go on.  And a sweep of
    the table keeps exactly the entries whose mutex an operation still owns. *)
Theorem world_locks_exclude s :
  rtc lock_step lock_start s ->
  (forall i j o o', ops s !! i = Some o -> ops s !! j = Some o' -> running o -> running o' ->
     lo_world o = lo_world o' \/ lo_kind o = Deleting /\ lo_kind o' = Deleting -> i = j) /\
  (forall i o, ops s !! i = Some o -> lo_kind o = Writing -> blocked o s ->
     exists j o', j <> i /\ ops s !! j = Some o' /\ lo_world o' = lo_world o /\ is_Some (locked o')) /\
  ((exists i o, ops s !! i = Some o /\ pending o) ->
     exists i o, ops s !! i = Some o /\ pending o /\ ~ blocked o s) /\
  (forall w lock, prune_expired_world_locks (fun _ => true) s !! w = Some lock <->
     world_locks s !! w = Some lock /\ exists i o, ops s !! i = Some o /\ owned o = Some lock).
Proof. intros Hr. by apply locks_run, locks_reachable. Qed.

(** Two writes to one world: the first runs, the second waits for its mutex. *)
Definition demo_op (st : OpState) : LockOp :=
  {| lo_world := "home/a"; lo_kind := Writing; lo_state := st |}.

Definition demo_locks : LockState :=
  {| world_locks := {["home/a" := 0%nat]}; world_lock_sweep_tick := 2; next_lock := 1;
     ops := {[0%nat := demo_op (RunningOp 0); 1%nat := demo_op (WaitingWorld 0)]} |}.

Lemma demo_locks_reached : rtc lock_step lock_start demo_locks.
Proof.
  pose (b := fun i s => op_begins s i "home/a" Writing).
  eapply rtc_l; [by apply (b 0%nat)|]. eapply rtc_l; [by eapply (op_moves _ 0), step_tick|].
  eapply rtc_l; [by eapply (op_moves _ 0), step_enter|].
  eapply rtc_l; [eapply (op_moves _ 0); [reflexivity|eapply step_lock; [reflexivity|]];
    apply (bool_decide_unpack _); vm_compute; exact I|].
  eapply rtc_l; [by apply (b 1%nat)|]. eapply rtc_l; [by eapply (op_moves _ 1), step_tick|].
  eapply rtc_l; [by eapply (op_moves _ 1), step_enter|].
  apply reflexive_eq. vm_compute. reflexivity.
Qed.

Lemma world_locks_exclude_witness :
  rtc lock_step lock_start demo_locks /\ blocked (demo_op (WaitingWorld 0)) demo_locks /\
  exists j o', j <> 1%nat /\ ops demo_locks !! j = Some o' /\ lo_world o' = "home/a" /\ is_Some (locked o').
Proof.
  assert (Hb : blocked (demo_op (WaitingWorld 0)) demo_locks).
  { intros Hf. by apply (Hf 0%nat (demo_op (RunningOp 0))). }
  split; [apply demo_locks_reached|]. split; [exact Hb|].
  destruct (world_locks_exclude demo_locks demo_locks_reached) as (_ & Hw & _).
  by apply (Hw 1%nat (demo_op (WaitingWorld 0))).
Defined.
