(* ===== verification/ChainSpec.v ===== *)
(** * The abstract specification of an intact audit chain

    [chain_valid] says what an intact world file is, without loops or
    accumulators: signed links from the empty HMAC, a body store that holds
    exactly the bodies of the retained events, and a live body equal to the
    latest body event.  The lemmas relate every gate of the verifier to it. *)

From S2P Require Import Prelude.
From S2P Require Import RustStr.
From S2P Require Import Path.
From S2P Require Import Auth.
From S2P Require Import Crypto.
From S2P Require Import Types.
From S2P Require Import Db.
From S2P Require Import AuditVerify.
From S2P Require Import AuditGates.
From S2P Require Import Cas.
From Stdlib Require Import Ascii.

Section Spec.
Context `{Crypto}.

(** ** From joined rows to events *)

Fixpoint verify_events (key w g : string) (ret : CasRetentionState)
    (l : list (EventRow * list (string * string))) (st : VerifyAccumulator)
  : result VerifyBreak VerifyAccumulator :=
  match l with
  | [] => Ok st
  | (row, hs) :: l =>
      st ← verify_event key w g ret row hs st;
      verify_events key w g ret l st
  end.

Definition rows_of (p : EventRow * list (string * string))
  : list (EventRow * option (string * string)) :=
  match snd p with
  | [] => [(fst p, None)]
  | hs => (fun h => (fst p, Some h)) <$> hs
  end.

Lemma audit_select_rows db : audit_select db = events_with_headers db ≫= rows_of.
Proof.
  unfold audit_select, events_with_headers.
  induction (db_events db) as [|e l IH]; [done|]. cbn in *. by rewrite IH.
Qed.

Section Loop.
Context (key w g : string) (ret : CasRetentionState).

Lemma loop_rows_app l1 l2 lp :
  loop_rows key w g ret (l1 ++ l2) lp
  = (lp ← loop_rows key w g ret l1 lp; loop_rows key w g ret l2 lp).
Proof.
  revert lp. induction l1 as [|r l1 IH]; intros lp; [done|]. cbn.
  destruct (loop_row key w g ret r lp) as [lp'|b]; cbn; [apply IH|done].
Qed.

Lemma loop_same e hs st acc :
  loop_rows key w g ret ((fun h => (e, Some h)) <$> hs)
    {| lp_state := st; lp_current := Some e; lp_headers := acc |}
  = Ok {| lp_state := st; lp_current := Some e; lp_headers := acc ++ hs |}.
Proof.
  revert acc. induction hs as [|h hs IH]; intros acc; cbn; [by rewrite app_nil_r|].
  rewrite bool_decide_false by naive_solver. cbn. rewrite IH. by rewrite <- app_assoc.
Qed.

Lemma loop_group_first p st :
  loop_rows key w g ret (rows_of p) {| lp_state := st; lp_current := None; lp_headers := [] |}
  = Ok {| lp_state := st; lp_current := Some (fst p); lp_headers := snd p |}.
Proof. destruct p as [e [|h hs]]; cbn; [done|]. apply loop_same. Qed.

Lemma loop_group_next p c acc st :
  ev_id c <> ev_id (fst p) ->
  loop_rows key w g ret (rows_of p)
    {| lp_state := st; lp_current := Some c; lp_headers := acc |}
  = (st ← verify_event key w g ret c acc st;
     Ok {| lp_state := st; lp_current := Some (fst p); lp_headers := snd p |}).
Proof.
  intros Hne. destruct p as [e [|h hs]]; cbn in *; rewrite bool_decide_true by done;
    destruct (verify_event key w g ret c acc st) as [st'|b]; cbn; try done.
  apply loop_same.
Qed.

Definition finish (lp : loop_state) : result VerifyBreak VerifyAccumulator :=
  match lp_current lp with
  | Some event => verify_event key w g ret event (lp_headers lp) (lp_state lp)
  | None => Ok (lp_state lp)
  end.

Lemma loop_groups l c acc st :
  StronglySorted Z.lt ((ev_id <$> [c]) ++ ((ev_id ∘ fst) <$> l)) ->
  (lp ← loop_rows key w g ret (l ≫= rows_of)
          {| lp_state := st; lp_current := Some c; lp_headers := acc |};
   finish lp) = verify_events key w g ret ((c, acc) :: l) st.
Proof.
  revert c acc st. induction l as [|p l IH]; intros c acc st Hs.
  - cbn. unfold finish. cbn. by destruct (verify_event key w g ret c acc st).
  - rewrite bind_cons, loop_rows_app. cbn in Hs. inversion Hs as [|? ? Hs' Hc]; subst.
    rewrite loop_group_next by (inversion Hc; subst; cbn in *; lia).
    cbn [verify_events]. destruct (verify_event key w g ret c acc st) as [st'|b]; cbn; [|done].
    rewrite IH; [by destruct p|]. exact Hs'.
Qed.

Lemma loop_events l st :
  StronglySorted Z.lt ((ev_id ∘ fst) <$> l) ->
  (lp ← loop_rows key w g ret (l ≫= rows_of)
          {| lp_state := st; lp_current := None; lp_headers := [] |};
   finish lp) = verify_events key w g ret l st.
Proof.
  destruct l as [|p l]; intros Hs; [done|].
  rewrite bind_cons, loop_rows_app, loop_group_first. cbn [mbind result_bind].
  rewrite loop_groups by exact Hs. by destruct p.
Qed.
End Loop.

Lemma events_with_headers_ids db :
  (ev_id ∘ fst) <$> events_with_headers db = ev_id <$> db_events db.
Proof. unfold events_with_headers. rewrite <- list_fmap_compose. done. Qed.

(** The loop over the joined rows verifies each event once, with its sorted
    headers. *)
Lemma walk_events db key w g ret capture :
  db_wf db ->
  walk key w g ret capture (audit_select db)
  = (st ← verify_events key w g ret (events_with_headers db) (init_state ret capture);
     _ ← verify_completion st ret;
     Ok st).
Proof.
  intros Hwf. unfold walk. rewrite audit_select_rows.
  rewrite <- loop_events by (rewrite events_with_headers_ids; apply (wf_ids _ Hwf)).
  unfold finish. by destruct (loop_rows _ _ _ _ _ _) as [lp|b].
Qed.

(** ** Links *)

(** What delete rows carry: a canonical target, a body digest and the subject
    the row is about, spelled in the reserved headers. *)
Definition subject_valid (k : AuditEventKind) (target sha : string)
    (hs : list (string * string)) : Prop :=
  match k with
  | DeleteIntent | DeleteCommit | DeleteCommitFailed =>
      from_canonical target = Ok target /\ BodySha256_new sha = Ok sha
      /\ is_ok (delete_subject_proof_from_headers target sha hs) = true
  | _ => True
  end.

(** A valid row: a known kind about this world where the kind says so, linked
    to the HMAC before it, with the digest of its metadata and the HMAC of all
    its fields. *)
Record row_valid (key w g prev : string) (row : EventRow) (hs : list (string * string))
    (k : AuditEventKind) : Prop := {
  rv_kind : ev_event_type row = as_str k;
  rv_target : body_bearing (class k) = true \/ k = Format -> ev_target row = w;
  rv_link : ev_prev_hmac row = prev;
  rv_format : k = Format ->
    (WORLD_FORMAT_VERSION_HEADER, to_string CURRENT_WORLD_FORMAT_VERSION) ∈ hs;
  rv_subject : subject_valid k (ev_target row) (ev_body_sha256 row) hs;
  rv_meta : ev_meta_sha256 row = meta_sha256_canonical (ev_content_type row) hs;
  rv_time : is_canonical_sqlite_utc_timestamp (ev_timestamp row) = true;
  rv_hmac : ev_hmac row = event_hmac key (row_hmac_input w g prev row);
}.

Definition row_ok (key w g prev : string) (row : EventRow) (hs : list (string * string)) : Prop :=
  exists k, row_valid key w g prev row hs k.

Fixpoint chain_ok (key w g prev : string) (l : list (EventRow * list (string * string)))
  : Prop :=
  match l with
  | [] => True
  | (row, hs) :: l => row_ok key w g prev row hs /\ chain_ok key w g (ev_hmac row) l
  end.

Definition last_hmac (prev : string) (l : list (EventRow * list (string * string))) : string :=
  default prev ((ev_hmac ∘ fst) <$> last l).

Lemma last_hmac_cons prev p l : last_hmac prev (p :: l) = last_hmac (ev_hmac (fst p)) l.
Proof.
  unfold last_hmac. destruct l as [|q l]; [done|]. rewrite last_cons_cons.
  destruct (last (q :: l)) eqn:E; [done|]. by apply last_None in E.
Qed.

Lemma chain_ok_app key w g prev l1 l2 :
  chain_ok key w g prev (l1 ++ l2) <->
  chain_ok key w g prev l1 /\ chain_ok key w g (last_hmac prev l1) l2.
Proof.
  revert prev. induction l1 as [|[row hs] l1 IH]; intros prev; cbn [chain_ok app].
  - naive_solver.
  - rewrite IH, last_hmac_cons. naive_solver.
Qed.

Definition is_body (row : EventRow) : bool := is_body_type (ev_event_type row).

Lemma from_storage_body t k : from_storage t = Some k -> body_bearing (class k) = is_body_type t.
Proof. intros ->%from_storage_iff. by destruct k. Qed.

Lemma has_format_version_true hs :
  has_format_version hs = true
  <-> (WORLD_FORMAT_VERSION_HEADER, to_string CURRENT_WORLD_FORMAT_VERSION) ∈ hs.
Proof.
  unfold has_format_version. rewrite existsb_exists. split.
  - intros ([n v] & Hin & [Hn Hv]%andb_true_iff). apply bool_decide_eq_true in Hn, Hv.
    cbn [fst snd] in *. subst. by apply list_elem_of_In.
  - intros Hin%list_elem_of_In. eexists. split; [done|]. by rewrite !bool_decide_true.
Qed.

Lemma delete_subject_iff row hs k idx :
  verify_delete_subject_proof row hs k idx = Ok tt
  <-> subject_valid k (ev_target row) (ev_body_sha256 row) hs.
Proof.
  unfold verify_delete_subject_proof, subject_valid.
  assert ((target ← map_err (fun _ => brk idx "delete-target-canonical-world"
                                     ("target-" +:+ ev_target row)) (from_canonical (ev_target row));
      body_sha256 ← map_err (fun _ => brk idx "delete-row-body-sha256"
                     "invalid-delete-row-body-sha256") (BodySha256_new (ev_body_sha256 row));
      _ ← map_err (delete_subject_proof_break idx)
             (delete_subject_proof_from_headers target body_sha256 hs);
      Ok tt) = Ok tt
    <-> from_canonical (ev_target row) = Ok (ev_target row)
        /\ BodySha256_new (ev_body_sha256 row) = Ok (ev_body_sha256 row)
        /\ is_ok (delete_subject_proof_from_headers (ev_target row) (ev_body_sha256 row) hs) = true)
    as Hd; [|destruct k; done].
  destruct (from_canonical (ev_target row)) as [tgt|] eqn:Ec; [|naive_solver].
  pose proof (from_canonical_valid _ _ Ec) as [-> _].
  destruct (BodySha256_new (ev_body_sha256 row)) as [s|] eqn:Es; [|naive_solver].
  pose proof (proj1 (BodySha256_new_Ok _ _) Es) as [-> _]. cbn [map_err mbind result_bind].
  destruct (delete_subject_proof_from_headers _ _ _); naive_solver.
Qed.

(** [verify_row] accepts exactly the valid rows, whatever index it would
    report. *)
Lemma verify_row_spec key w g prev idx row hs k :
  verify_row key w g prev idx row hs = Ok k <-> row_valid key w g prev row hs k.
Proof.
  unfold verify_row. split.
  - intros Hv. inv_ok.
    repeat match goal with
    | H : ct_eq _ _ = true |- _ => apply ct_eq_true in H
    | H : verify_delete_subject_proof _ _ _ _ = Ok ?u |- _ => destruct u; apply delete_subject_iff in H
    | H : from_storage _ = Some _ |- _ => apply from_storage_iff in H
    | H : negb (_ && _) = true |- _ => rewrite negb_true_iff, andb_false_iff, negb_false_iff in H
    end.
    split; try done.
    + match goal with H : _ \/ bool_decide (w = _) = true |- _ =>
        rewrite orb_false_iff, bool_decide_eq_false, bool_decide_eq_true in H; destruct H as [[]|] end; [|done].
      intros []; congruence.
    + match goal with H : _ \/ has_format_version _ = true |- _ =>
        rewrite has_format_version_true, bool_decide_eq_false in H; by destruct H end.
  - intros [Hk Ht Hl Hf Hs Hm Htm Hh].
    rewrite (proj2 (from_storage_iff _ _) Hk). cbn [ok_or mbind result_bind].
    rewrite (proj2 (delete_subject_iff _ _ _ _) Hs), (proj2 (ct_eq_true _ _) Hl), Htm.
    rewrite <- Hm, <- Hh, !(proj2 (ct_eq_true _ _) eq_refl).
    assert (negb ((body_bearing (class k) || bool_decide (k = Format))
              && negb (bool_decide (w = ev_target row))) = true) as ->.
    { rewrite negb_true_iff, andb_false_iff, negb_false_iff, orb_false_iff, bool_decide_eq_false,
        bool_decide_eq_true. destruct (body_bearing (class k)); [by right; rewrite Ht by auto|].
      destruct (decide (k = Format)); [by right; rewrite Ht by auto|by left]. }
    assert (negb (bool_decide (k = Format) && negb (has_format_version hs)) = true) as ->; [|done].
    rewrite negb_true_iff, andb_false_iff, negb_false_iff, has_format_version_true, bool_decide_eq_false.
    destruct (decide (k = Format)); auto.
Qed.

Lemma row_valid_kind key w g prev row hs k :
  row_valid key w g prev row hs k -> from_storage (ev_event_type row) = Some k.
Proof. intros Hk. apply from_storage_iff, Hk. Qed.

(** ** One event *)

Definition ret_row_ok (ret : CasRetentionState) (row : EventRow) : Prop :=
  match first_retained_seq ret with
  | None => True
  | Some f =>
      (is_body row = false -> ev_id row <> f)
      /\ (is_body row = true -> (f <= ev_id row)%Z ->
          BodySha256_new (ev_body_sha256 row) = Ok (ev_body_sha256 row)
          /\ bodies ret !! ev_body_sha256 row = Some (ev_size row))
  end.

(** Whether the event is retained under the floor. *)
Definition retained_row (ret : CasRetentionState) (row : EventRow) : bool :=
  match first_retained_seq ret with
  | None => false
  | Some f => is_body row && (f <=? ev_id row)%Z
  end.

Definition at_floor (ret : CasRetentionState) (row : EventRow) : bool :=
  is_body row && bool_decide (first_retained_seq ret = Some (ev_id row)).

(** The parts of the accumulator later checks look at. *)
Record acc_view := { av_prev : string; av_genesis : string; av_events : Z;
                     av_saw : bool; av_ref : gset string }.

Definition view (st : VerifyAccumulator) : acc_view :=
  {| av_prev := va_prev st; av_genesis := va_genesis st; av_events := va_events st;
     av_saw := va_saw_floor st; av_ref := va_referenced st |}.

Definition view_step (ret : CasRetentionState) (row : EventRow) (v : acc_view) : acc_view :=
  {| av_prev := ev_hmac row;
     av_genesis := if bool_decide (av_events v = 0%Z) then ev_hmac row else av_genesis v;
     av_events := av_events v + 1;
     av_saw := at_floor ret row || av_saw v;
     av_ref := if retained_row ret row then {[ev_body_sha256 row]} ∪ av_ref v else av_ref v |}.

Lemma verify_retained_body_ok row k idx ret st :
  (0 < ev_id row)%Z -> from_storage (ev_event_type row) = Some k ->
  (ret_row_ok ret row ->
     exists st', verify_retained_body row k idx ret st = Ok st'
       /\ view (note_event row "" st') = view_step ret row (view st)
       /\ va_capture_at st' = va_capture_at st /\ va_captured st' = va_captured st
       /\ va_events st' = va_events st)
  /\ (forall st', verify_retained_body row k idx ret st = Ok st' -> ret_row_ok ret row).
Proof.
  intros Hid Hk. pose proof (from_storage_body _ _ Hk) as Hb.
  unfold verify_retained_body, ret_row_ok, retained_first_body, view, view_step, at_floor,
    retained_row, is_body.
  destruct (first_retained_seq ret) as [f|] eqn:Ef.
  2: { split; [intros _; exists st; by rewrite andb_false_r|done]. }
  rewrite Hb, (proj2 (TimelineSeq_new_Ok _ _) (conj eq_refl Hid)).
  destruct (is_body_type (ev_event_type row)) eqn:Et; cbn [andb negb].
  - rewrite andb_false_r. cbn [orb].
    assert (exists st1, (if bool_decide (va_first_body_event st = None) then
      Ok {| va_prev := va_prev st; va_genesis := va_genesis st; va_events := va_events st;
            va_first_body_event := Some (ev_id row); va_saw_floor := va_saw_floor st;
            va_referenced := va_referenced st; va_capture_at := va_capture_at st;
            va_captured := va_captured st |} else Ok st) = @Ok VerifyBreak _ st1
      /\ view st1 = view st /\ va_capture_at st1 = va_capture_at st
      /\ va_captured st1 = va_captured st) as (st1 & -> & Hv & Hc & Hcc).
    { case_bool_decide; eexists; split_and!; done. }
    cbn [mbind result_bind]. injection Hv as Hv1 Hv2 Hv3 Hv4 Hv5.
    destruct (Z.ltb_spec (ev_id row) f) as [Hlt|Hge]; cbn [orb].
    + rewrite (bool_decide_false (Some f = Some (ev_id row))) by (intros [= ->]; lia).
      destruct (Z.leb_spec f (ev_id row)); [lia|]. cbn.
      split; [|intros; split; [done|lia]]. intros _. exists st1. cbn.
      by rewrite Hv2, Hv3, Hv4, Hv5.
    + destruct (Z.leb_spec f (ev_id row)); [|lia]. cbn [orb]. split.
      * intros [_ Hr]. destruct (Hr eq_refl Hge) as [-> ->]. rewrite Z.eqb_refl. cbn.
        eexists. split; [done|]. cbn. rewrite Hv2, Hv3, Hv4, Hv5. split_and!; try done.
        f_equal. f_equal. apply bool_decide_ext. naive_solver.
      * intros st'. destruct (BodySha256_new (ev_body_sha256 row)) as [s|] eqn:Es; [|done].
        pose proof Es as [-> _]%BodySha256_new_Ok.
        destruct (bodies ret !! ev_body_sha256 row) as [len|]; [|done].
        destruct (Z.eqb_spec len (ev_size row)); cbn; [|done]. naive_solver.
  - cbn [mbind result_bind]. rewrite andb_true_r, orb_true_r. cbn [orb].
    case_bool_decide as Hf.
    + split; [intros [Hr _]; by destruct (Hr eq_refl)|done].
    + split; [|naive_solver]. intros _. exists st. cbn. done.
Qed.

Lemma verify_event_ok key w g ret row hs st :
  (0 < ev_id row)%Z ->
  (row_ok key w g (va_prev st) row hs /\ ret_row_ok ret row ->
     exists st', verify_event key w g ret row hs st = Ok st'
       /\ view st' = view_step ret row (view st) /\ va_capture_at st' = va_capture_at st)
  /\ (forall st', verify_event key w g ret row hs st = Ok st' ->
       row_ok key w g (va_prev st) row hs /\ ret_row_ok ret row).
Proof.
  intros Hid. unfold verify_event, row_ok. split.
  - intros [[k Hk] Hr]. rewrite (proj2 (verify_row_spec _ _ _ _ (va_events st) _ _ _) Hk).
    cbn [mbind result_bind].
    destruct (proj1 (verify_retained_body_ok row k (va_events st) ret st Hid
                (row_valid_kind _ _ _ _ _ _ _ Hk)) Hr) as (st' & -> & Hv & Hc & _).
    eexists. split; [done|]. split; [exact Hv|exact Hc].
  - intros st' Hv. inv_ok.
    match goal with Hk : verify_row _ _ _ _ _ _ _ = Ok ?k |- _ =>
      apply verify_row_spec in Hk; split; [by exists k|];
      eapply verify_retained_body_ok; [done|by eapply row_valid_kind|done] end.
Qed.

Definition view_steps (ret : CasRetentionState) (rows : list EventRow) (v : acc_view) : acc_view :=
  foldl (fun v row => view_step ret row v) v rows.

Lemma verify_events_ok key w g ret l st :
  Forall (fun p => (0 < ev_id (fst p))%Z) l ->
  (chain_ok key w g (va_prev st) l /\ Forall (ret_row_ok ret) (fst <$> l) ->
     exists st', verify_events key w g ret l st = Ok st'
       /\ view st' = view_steps ret (fst <$> l) (view st) /\ va_capture_at st' = va_capture_at st)
  /\ (forall st', verify_events key w g ret l st = Ok st' ->
       chain_ok key w g (va_prev st) l /\ Forall (ret_row_ok ret) (fst <$> l)).
Proof.
  intros Hp. revert st. induction Hp as [|[row hs] l Hid Hp IH]; intros st; cbn in *.
  - split; [intros _; exists st; done|]. intros st' _. by split; [|constructor].
  - destruct (verify_event_ok key w g ret row hs st Hid) as [Hv1 Hv2]. split.
    + intros [[Hr Hc] Hf]. apply Forall_cons in Hf as [Hrr Hf].
      destruct (Hv1 (conj Hr Hrr)) as (st1 & -> & Hview & Hcap). cbn [mbind result_bind].
      assert (va_prev st1 = ev_hmac row) as Hprev by (by injection Hview as ?).
      destruct (proj1 (IH st1)) as (st' & Hst & Hview' & Hcap'); [by rewrite Hprev|].
      exists st'. rewrite Hst. split_and!; [done| |by rewrite Hcap'].
      by rewrite Hview', Hview.
    + intros st' Hv. apply result_bind_Ok in Hv as (st1 & Hv & Hrest).
      destruct (Hv2 _ Hv) as [Hr Hrr].
      destruct (Hv1 (conj Hr Hrr)) as (st1' & Hv' & Hview & _). rewrite Hv in Hv'.
      injection Hv' as <-.
      assert (va_prev st1 = ev_hmac row) as Hprev by (by injection Hview as ?).
      destruct (proj2 (IH st1) _ Hrest) as [Hc Hf]. rewrite Hprev in Hc.
      split; [done|]. by constructor.
Qed.

(** The view after a walk, in closed form. *)
Lemma view_steps_fields ret rows v :
  let v' := view_steps ret rows v in
  av_prev v' = default (av_prev v) (ev_hmac <$> last rows)
  /\ av_events v' = (av_events v + Z.of_nat (length rows))%Z
  /\ av_saw v' = existsb (at_floor ret) rows || av_saw v
  /\ av_ref v' = list_to_set (ev_body_sha256 <$> filter (fun e => retained_row ret e = true) rows)
                 ∪ av_ref v.
Proof.
  revert v. induction rows as [|row rows IH]; intros v.
  - cbn. split_and!; [done|lia|done|set_solver].
  - cbv zeta. destruct (IH (view_step ret row v)) as (H1 & H2 & H3 & H4).
    change (view_steps ret (row :: rows) v) with (view_steps ret rows (view_step ret row v)).
    rewrite H1, H2, H3, H4. cbn [av_prev av_events av_saw av_ref view_step existsb length].
    split_and!.
    + destruct rows as [|r rows]; [done|]. rewrite last_cons_cons.
      destruct (last (r :: rows)) eqn:E; [done|]. by apply last_None in E.
    + lia.
    + by rewrite orb_assoc, (orb_comm (existsb _ _)).
    + destruct (retained_row ret row) eqn:E.
      * rewrite filter_cons_True by done. cbn. set_solver.
      * rewrite filter_cons_False by (by rewrite E). done.
Qed.

(** ** Loading the retention state *)

Definition cas_ok (db : world_db) : Prop :=
  forall k b, db_cas db !! k = Some b -> sha256_hex b = k /\ (slen b <= i64_max)%Z.

Definition cas_shape (db : world_db) : Prop :=
  forall k b, db_cas db !! k = Some b -> BodySha256_new k = Ok k.

Definition floor_ok (db : world_db) : Prop :=
  match db_floor db with
  | Some f => (0 < f)%Z
  | None => db_cas db = ∅ /\ body_events db = []
  end.

Definition ret_of (db : world_db) : CasRetentionState :=
  {| first_retained_seq := db_floor db; bodies := slen <$> db_cas db |}.

Definition insert_len (acc : gmap string Z) (p : string * string) : gmap string Z :=
  <[fst p := slen (snd p)]> acc.

Lemma load_hashed_bodies_Ok rows acc m :
  load_hashed_bodies rows acc = Ok m <->
  Forall (fun p => sha256_hex (snd p) = fst p /\ (slen (snd p) <= i64_max)%Z) rows
  /\ m = foldl insert_len acc rows.
Proof.
  revert acc. induction rows as [|[k b] rows IH]; intros acc; cbn [load_hashed_bodies foldl].
  - split; [intros [= <-]; split; [constructor|done]|]. by intros [_ ->].
  - rewrite Forall_cons. cbn [fst snd]. split.
    + intros Hl. inv_ok.
      repeat match goal with
      | H : ct_eq _ _ = true |- _ => apply ct_eq_true in H
      | H : i64_try_from _ = Some _ |- _ => apply i64_try_from_Some in H as [-> ?]
      | H : load_hashed_bodies _ _ = Ok _ |- _ => apply IH in H as [? ->]
      end.
      subst k. split; [split; [done|assumption]|done].
    + intros [[[<- Hl] Hf] ->]. rewrite ct_eq_refl. cbn [ensure mbind result_bind].
      rewrite (proj2 (i64_try_from_Some _ _) (conj eq_refl Hl)). cbn [ok_or mbind result_bind].
      by apply IH.
Qed.

Lemma load_body_index_Ok rows acc m :
  load_body_index rows acc = Ok m <->
  Forall (fun p => BodySha256_new (fst p) = Ok (fst p)) rows
  /\ m = foldl insert_len acc rows.
Proof.
  revert acc. induction rows as [|[k b] rows IH]; intros acc; cbn [load_body_index foldl].
  - split; [intros [= <-]; split; [constructor|done]|]. by intros [_ ->].
  - rewrite Forall_cons. cbn [fst snd]. pose proof (slen_nonneg b).
    destruct (Z.ltb_spec (slen b) 0); [lia|]. cbn [negb ensure mbind result_bind].
    destruct (BodySha256_new k) as [k'|] eqn:Ek; cbn [map_err mbind result_bind].
    + pose proof Ek as [-> _]%BodySha256_new_Ok. rewrite IH. naive_solver.
    + naive_solver.
Qed.

Lemma foldl_insert_len (m : gmap string string) :
  foldl insert_len ∅ (map_to_list m) = slen <$> m.
Proof.
  assert (forall l acc, NoDup l.*1 ->
    forall k, foldl insert_len acc l !! k
              = match (list_to_map l : gmap string string) !! k with
                | Some b => Some (slen b) | None => acc !! k end) as Hf.
  { induction l as [|[a b] l IH]; intros acc Hd k; cbn; [by rewrite lookup_empty|].
    cbn in Hd. apply NoDup_cons in Hd as [Hn Hd]. rewrite (IH _ Hd).
    unfold insert_len. cbn. destruct (decide (a = k)) as [->|Hne].
    - rewrite lookup_insert_eq, (not_elem_of_list_to_map_1 _ _ Hn). by rewrite lookup_insert_eq.
    - by rewrite !lookup_insert_ne by done. }
  apply map_eq. intros k. rewrite Hf by apply NoDup_fst_map_to_list.
  rewrite list_to_map_to_list, lookup_fmap, lookup_empty. by destruct (m !! k).
Qed.

Lemma Forall_map_to_list (P : string * string -> Prop) (m : gmap string string) :
  Forall P (map_to_list m) <-> forall k b, m !! k = Some b -> P (k, b).
Proof.
  rewrite Forall_forall. split.
  - intros Hf k b Hb. apply Hf. by apply elem_of_map_to_list.
  - intros Hf [k b] Hb. apply Hf. by apply elem_of_map_to_list.
Qed.

Lemma load_floor_Ok db o :
  load_floor db = Ok o <-> o = db_floor db /\ (forall f, db_floor db = Some f -> (0 < f)%Z).
Proof.
  unfold load_floor. destruct (db_floor db) as [f|]; [|naive_solver].
  unfold TimelineSeq_new. destruct (Z.ltb_spec 0 f); cbn; [naive_solver|].
  split; [done|]. intros [_ Hf]. specialize (Hf f eq_refl). lia.
Qed.

Lemma fmap_empty_iff (m : gmap string string) : slen <$> m = ∅ <-> m = ∅.
Proof. apply fmap_empty_iff. Qed.

Lemma load_inner_Ok db mode ret :
  load_inner db mode = Ok ret <->
  ret = ret_of db /\ floor_ok db
  /\ match mode with HashBodies => cas_ok db | IndexShape => cas_shape db end.
Proof.
  unfold load_inner. rewrite result_bind_Ok. setoid_rewrite load_floor_Ok.
  assert ((exists m, (match mode with
            | HashBodies => load_hashed_bodies (map_to_list (db_cas db)) ∅
            | IndexShape => load_body_index (map_to_list (db_cas db)) ∅ end) = Ok m)
          <-> match mode with HashBodies => cas_ok db | IndexShape => cas_shape db end) as Hm.
  { destruct mode; [setoid_rewrite load_hashed_bodies_Ok|setoid_rewrite load_body_index_Ok];
      setoid_rewrite Forall_map_to_list; cbn; unfold cas_ok, cas_shape; naive_solver. }
  assert (forall m, (match mode with
            | HashBodies => load_hashed_bodies (map_to_list (db_cas db)) ∅
            | IndexShape => load_body_index (map_to_list (db_cas db)) ∅ end) = Ok m
          -> m = slen <$> db_cas db) as Hm'.
  { intros m. rewrite <- foldl_insert_len.
    destruct mode; [rewrite load_hashed_bodies_Ok|rewrite load_body_index_Ok]; naive_solver. }
  split.
  - intros (o & [-> Hf] & Hb). apply result_bind_Ok in Hb as (m & Hb & Hrest).
    pose proof (Hm' _ Hb) as ->. inv_ok. split_and!; [done| |apply Hm; eauto].
    unfold floor_ok. destruct (db_floor db) as [f|]; [by apply Hf|].
    rewrite !bool_decide_true in * by done. cbn in *.
    repeat match goal with H : negb (negb _) = true |- _ =>
      rewrite negb_involutive, bool_decide_eq_true in H end.
    split; [by apply fmap_empty_iff|done].
  - intros (-> & Hf & Hok). exists (db_floor db). split.
    + split; [done|]. intros f Hfl. unfold floor_ok in Hf. by rewrite Hfl in Hf.
    + apply Hm in Hok as [m Hmm]. rewrite Hmm. cbn [mbind result_bind].
      pose proof (Hm' _ Hmm) as ->. unfold floor_ok in Hf. unfold ret_of.
      destruct (db_floor db) as [f|] eqn:E; cbn; [done|].
      destruct Hf as [Hc ->]. rewrite Hc, fmap_empty, !bool_decide_true by done. done.
Qed.
End Spec.
