(* ===== verification/ChainValid.v ===== *)
(** * The verifier implements the specification

    [chain_valid] and the equivalence of every verification gate with it. *)

From S2P Require Import Prelude.
From S2P Require Import RustStr.
From S2P Require Import Path.
From S2P Require Import Auth.
From S2P Require Import Crypto.
From S2P Require Import Types.
From S2P Require Import Db.
From S2P Require Import AuditVerify.
From S2P Require Import AuditGates.
From S2P Require Import Cas.
From S2P Require Import ChainSpec.
From Stdlib Require Import Ascii.

Section Valid.
Context `{CryptoLaws}.

(** The floor names a body event, every retained event's body is stored with
    its signed size, and nothing else is stored. *)
Definition retention_valid (db : world_db) : Prop :=
  match db_floor db with
  | None => db_cas db = ∅ /\ body_events db = []
  | Some f =>
      (0 < f)%Z
      /\ (exists e, e ∈ body_events db /\ ev_id e = f)
      /\ (forall e, e ∈ body_events db -> (f <= ev_id e)%Z ->
            slen <$> db_cas db !! ev_body_sha256 e = Some (ev_size e))
      /\ hashes_from f (body_events db) = dom (db_cas db)
  end.

(** The live body is the body of the latest body event. *)
Definition live_valid (db : world_db) : Prop :=
  match last (body_events db) with
  | None => db_body db = ""
  | Some e => sha256_hex (db_body db) = ev_body_sha256 e
              /\ ev_size e = Z.min (slen (db_body db)) i64_max
  end.

Record chain_valid (w key : string) (db : world_db) : Prop := {
  cv_gen : WorldGeneration_new (db_generation db) = Ok (db_generation db);
  cv_cas : cas_ok db;
  cv_links : chain_ok key w (db_generation db) "" (events_with_headers db);
  cv_retained : retention_valid db;
  cv_live : live_valid db;
  cv_some : db_events db <> [];
}.

Lemma cas_ok_shape db : cas_ok db -> cas_shape db.
Proof. intros Hok k b Hb. destruct (Hok _ _ Hb) as [<- _]. apply BodySha256_sha. Qed.

Lemma retention_floor_ok db : retention_valid db -> floor_ok db.
Proof. unfold retention_valid, floor_ok. destruct (db_floor db); naive_solver. Qed.

Lemma elem_body_events db e :
  e ∈ body_events db <-> is_body e = true /\ e ∈ db_events db.
Proof. unfold body_events, is_body. by rewrite list_elem_of_filter. Qed.

Lemma same_id db e e' :
  db_wf db -> e ∈ db_events db -> e' ∈ db_events db -> ev_id e = ev_id e' -> e = e'.
Proof.
  intros Hwf He He' Hid. pose proof (wf_ids _ Hwf) as Hs.
  assert (forall l, StronglySorted Z.lt (ev_id <$> l) -> e ∈ l -> e' ∈ l -> e = e') as Hl.
  { induction l as [|x l IH]; cbn; intros Hsl Hx Hx'; [by apply not_elem_of_nil in Hx|].
    inversion Hsl as [|? ? Hsl' Hlt]; subst. rewrite Forall_fmap, Forall_forall in Hlt.
    rewrite !elem_of_cons in *.
    destruct Hx as [->|Hx], Hx' as [->|Hx']; [done| | |by apply IH].
    - specialize (Hlt _ Hx'). cbn in Hlt. lia.
    - specialize (Hlt _ Hx). cbn in Hlt. lia. }
  by apply (Hl (db_events db)).
Qed.

Lemma at_floor_exists db f :
  db_floor db = Some f ->
  existsb (at_floor (ret_of db)) (db_events db) = true <->
  exists e, e ∈ body_events db /\ ev_id e = f.
Proof.
  intros Hf. rewrite existsb_exists. unfold at_floor. cbn. rewrite Hf. split.
  - intros (e & He & Hb). rewrite <- list_elem_of_In in He.
    apply andb_true_iff in Hb as [Hb Hid]. rewrite bool_decide_eq_true in Hid.
    exists e. rewrite elem_body_events. naive_solver.
  - intros (e & [Hb He]%elem_body_events & <-). exists e.
    rewrite <- list_elem_of_In, Hb, bool_decide_true by done. done.
Qed.

Lemma referenced_hashes db f :
  db_floor db = Some f ->
  list_to_set (ev_body_sha256 <$>
    filter (fun e => retained_row (ret_of db) e = true) (db_events db))
  = hashes_from f (body_events db).
Proof.
  intros Hf. unfold hashes_from, body_events. rewrite list_filter_filter.
  f_equal. f_equal. apply list_filter_iff. intros e. unfold retained_row, is_body. cbn.
  rewrite Hf, andb_true_iff, Z.leb_le. naive_solver.
Qed.

(** What the walk checks about retention is [retention_valid]. *)
Lemma retention_checks db :
  db_wf db -> cas_shape db -> floor_ok db ->
  (Forall (ret_row_ok (ret_of db)) (db_events db)
   /\ (existsb (at_floor (ret_of db)) (db_events db) || floor_is_unset (ret_of db)) = true
   /\ size (list_to_set (ev_body_sha256 <$>
             filter (fun e => retained_row (ret_of db) e = true) (db_events db)) : gset string)
      = size (bodies (ret_of db)))
  <-> retention_valid db.
Proof.
  intros Hwf Hshape Hfl. unfold retention_valid, floor_ok in *.
  destruct (db_floor db) as [f|] eqn:Ef.
  - rewrite (referenced_hashes db f Ef). cbn [ret_of bodies].
    unfold floor_is_unset. cbn [ret_of first_retained_seq]. rewrite Ef.
    rewrite bool_decide_false, orb_false_r by done. rewrite (at_floor_exists db f Ef).
    assert (Forall (ret_row_ok (ret_of db)) (db_events db) -> forall e, e ∈ body_events db ->
       (f <= ev_id e)%Z -> slen <$> db_cas db !! ev_body_sha256 e = Some (ev_size e)) as Hrow.
    { intros Hr e [Hb He]%elem_body_events Hle. rewrite Forall_forall in Hr.
      specialize (Hr _ He). unfold ret_row_ok in Hr. cbn in Hr. rewrite Ef in Hr.
      destruct Hr as [_ Hr]. destruct (Hr Hb Hle) as [_ Hl]. by rewrite lookup_fmap in Hl. }
    assert ((forall e, e ∈ body_events db -> (f <= ev_id e)%Z ->
       slen <$> db_cas db !! ev_body_sha256 e = Some (ev_size e)) ->
       hashes_from f (body_events db) ⊆ dom (db_cas db)) as Hsub.
    { intros Hr k. unfold hashes_from. rewrite elem_of_list_to_set, list_elem_of_fmap.
      intros (e & -> & [Hle He]%list_elem_of_filter). specialize (Hr e He Hle).
      apply elem_of_dom. by destruct (db_cas db !! _). }
    split.
    + intros (Hr & Hx & Hsz). split_and!; [done|done|by apply Hrow|].
      apply set_subseteq_size_eq; [by apply Hsub, Hrow|].
      rewrite size_dom. rewrite map_size_fmap in Hsz. lia.
    + intros (_ & Hx & Hr & Hd). split_and!; [|done|].
      * rewrite Forall_forall. intros e He. unfold ret_row_ok. cbn. rewrite Ef. split.
        -- intros Hb Hid. destruct Hx as (e' & [Hb' He']%elem_body_events & <-).
           rewrite (same_id db e e' Hwf He He' Hid) in Hb. by rewrite Hb in Hb'.
        -- intros Hb Hle. assert (e ∈ body_events db) as Heb by (by apply elem_body_events).
           specialize (Hr e Heb Hle). rewrite lookup_fmap. split; [|done].
           destruct (db_cas db !! ev_body_sha256 e) as [b|] eqn:Eb; [|done].
           by apply (Hshape _ b).
      * by rewrite Hd, size_dom, map_size_fmap.
  - split; [done|]. intros [Hc Hb]. split_and!.
    + apply Forall_true. intros e. unfold ret_row_ok. cbn. by rewrite Ef.
    + unfold floor_is_unset. cbn. rewrite Ef, bool_decide_true by done. by rewrite orb_true_r.
    + cbn. rewrite Hc. replace (filter _ (db_events db)) with (@nil EventRow); [done|].
      symmetry. induction (db_events db) as [|e l IH]; [done|].
      rewrite filter_cons_False; [done|]. unfold retained_row. cbn. by rewrite Ef.
Qed.

(** ** The walk *)

Definition init_view (ret : CasRetentionState) : acc_view := view (init_state ret None).

Lemma fst_events_with_headers db : fst <$> events_with_headers db = db_events db.
Proof. unfold events_with_headers. rewrite <- list_fmap_compose. by apply list_fmap_id. Qed.

Lemma events_with_headers_pos db :
  db_wf db -> Forall (fun p => (0 < ev_id (fst p))%Z) (events_with_headers db).
Proof.
  intros Hwf. pose proof (wf_ids_pos _ Hwf) as Hp. unfold events_with_headers.
  rewrite Forall_fmap. eapply Forall_impl; [exact Hp|]. cbn. lia.
Qed.

Lemma completion_ok st ret :
  verify_completion st ret = Ok tt <->
  va_saw_floor st = true /\ size (va_referenced st) = size (bodies ret).
Proof.
  unfold verify_completion. destruct (va_saw_floor st); cbn.
  - case_bool_decide; naive_solver.
  - destruct (first_retained_seq ret); naive_solver.
Qed.

Lemma final_checks db st capture :
  db_wf db -> cas_shape db -> floor_ok db ->
  view st = view_steps (ret_of db) (db_events db) (view (init_state (ret_of db) capture)) ->
  Forall (ret_row_ok (ret_of db)) (db_events db) ->
  verify_completion st (ret_of db) = Ok tt <-> retention_valid db.
Proof.
  intros Hwf Hsh Hfl Hv Hr. rewrite completion_ok, <- retention_checks by done.
  destruct (view_steps_fields (ret_of db) (db_events db)
              (view (init_state (ret_of db) capture))) as (_ & _ & Hs & Href).
  rewrite <- Hv in Hs, Href. cbn in Hs, Href. rewrite Hs, Href.
  rewrite (right_id_L ∅ (∪)). naive_solver.
Qed.

Lemma walk_Ok db key w g capture :
  db_wf db -> cas_shape db -> floor_ok db ->
  (forall st, walk key w g (ret_of db) capture (audit_select db) = Ok st ->
     chain_ok key w g "" (events_with_headers db) /\ retention_valid db
     /\ view st = view_steps (ret_of db) (db_events db) (view (init_state (ret_of db) capture)))
  /\ (chain_ok key w g "" (events_with_headers db) -> retention_valid db ->
       exists st, walk key w g (ret_of db) capture (audit_select db) = Ok st).
Proof.
  intros Hwf Hsh Hfl. rewrite walk_events by done.
  destruct (verify_events_ok key w g (ret_of db) (events_with_headers db)
              (init_state (ret_of db) capture) (events_with_headers_pos _ Hwf)) as [H1 H2].
  rewrite fst_events_with_headers in H1, H2. split.
  - intros st Hw. inv_ok.
    match goal with Hv : verify_events _ _ _ _ _ _ = Ok ?s |- _ =>
      destruct (H2 _ Hv) as [Hc Hr]; destruct (H1 (conj Hc Hr)) as (s' & Hv' & Hview & _);
      rewrite Hv in Hv'; injection Hv' as <- end.
    match goal with u : unit |- _ => destruct u end.
    split_and!; [done| |done]. by eapply final_checks.
  - intros Hc Hr.
    assert (Forall (ret_row_ok (ret_of db)) (db_events db)) as Hrows
      by (by apply retention_checks).
    destruct (H1 (conj Hc Hrows)) as (st & -> & Hview & _). cbn [mbind result_bind].
    rewrite (proj2 (final_checks db st capture Hwf Hsh Hfl Hview Hrows) Hr). by exists st.
Qed.

Lemma view_events_count db capture st :
  view st = view_steps (ret_of db) (db_events db) (view (init_state (ret_of db) capture)) ->
  va_events st = event_count db
  /\ va_prev st = default "" (latest_hmac db).
Proof.
  intros Hv. destruct (view_steps_fields (ret_of db) (db_events db)
              (view (init_state (ret_of db) capture))) as (Hp & He & _ & _).
  rewrite <- Hv in Hp, He. cbn in Hp, He. unfold event_count, latest_hmac.
  split; [lia|done].
Qed.

Lemma head_total db g ok :
  db_wf db -> ok_events ok = event_count db ->
  verified_head_from_ok g ok
  = Ok (if bool_decide (event_count db = 0%Z) then None
        else Some {| st_generation := g; st_seq := event_count db; st_hmac := ok_latest ok |}).
Proof.
  intros Hwf Hn. unfold verified_head_from_ok. rewrite Hn.
  pose proof (event_count_le _ Hwf) as Hle. pose proof (wf_seq _ Hwf).
  revert Hle. generalize (event_count db). intros n Hle. case_bool_decide; [done|].
  unfold ChainSeq_from_verified_count, ChainSeq_new.
  rewrite (proj2 (i64_try_from_Some _ _)) by (split; [done|lia]). cbn.
  by destruct (Z.leb_spec n 0); [lia|].
Qed.

Lemma event_count_zero db : event_count db = 0%Z <-> db_events db = [].
Proof. unfold event_count. destruct (db_events db); cbn; split; try done; lia. Qed.

Definition capture_ok (db : world_db) (st : VerifyAccumulator) : VerifyOk :=
  if bool_decide (va_events st = 0%Z) then
    {| ok_events := 0; ok_genesis := hmac_label ""; ok_latest := hmac_label "" |}
  else {| ok_events := va_events st; ok_genesis := hmac_label (va_genesis st);
          ok_latest := hmac_label (va_prev st) |}.

(** The report of a walk: valid exactly when links and retention are. *)
Lemma verify_statement_capture_spec db key allow w g capture :
  db_wf db -> cas_shape db -> floor_ok db ->
  exists r, verify_statement_capture db key allow (ret_of db) w g capture = Ok r
    /\ ((chain_ok key w g "" (events_with_headers db) /\ retention_valid db
          /\ (allow = true \/ db_events db <> []) /\
          exists st, walk key w g (ret_of db) capture (audit_select db) = Ok st
            /\ va_events st = event_count db /\ va_prev st = default "" (latest_hmac db)
            /\ r = CapturedValid (capture_ok db st)
                  (if bool_decide (event_count db = 0%Z) then None
                   else Some {| st_generation := g; st_seq := event_count db;
                                st_hmac := hmac_label (default "" (latest_hmac db)) |})
                  (verified_stamp_from_completed_walk g capture st))
        \/ (~ (chain_ok key w g "" (events_with_headers db) /\ retention_valid db
             /\ (allow = true \/ db_events db <> []))
            /\ exists b, r = CapturedBroken b)).
Proof.
  intros Hwf Hsh Hfl. destruct (walk_Ok db key w g capture Hwf Hsh Hfl) as [W1 W2].
  unfold verify_statement_capture.
  destruct (walk key w g (ret_of db) capture (audit_select db)) as [st|b] eqn:Ew.
  - destruct (W1 st eq_refl) as (Hc & Hr & Hv).
    destruct (view_events_count _ _ _ Hv) as [Hn Hp].
    fold (capture_ok db st).
    destruct (bool_decide (va_events st = 0%Z) && negb allow) eqn:Eb.
    + apply andb_true_iff in Eb as [Hz Ha]. rewrite bool_decide_eq_true in Hz.
      rewrite Hn, event_count_zero in Hz. destruct allow; [done|].
      eexists; split; [done|]. right. split; [naive_solver|by eexists].
    + assert (ok_events (capture_ok db st) = event_count db) as Hoe.
      { unfold capture_ok. case_bool_decide; cbn; lia. }
      rewrite (head_total db g _ Hwf Hoe). cbn [mbind result_bind].
      eexists. split; [done|]. left. split_and!; [done|done| |].
      * destruct allow; [by left|right]. rewrite andb_true_r, bool_decide_eq_false in Eb.
        rewrite <- event_count_zero. by rewrite Hn in Eb.
      * exists st. split_and!; [done|done|done|]. rewrite <- Hp.
        destruct (bool_decide (event_count db = 0%Z)) eqn:Ez; [done|].
        unfold capture_ok. by rewrite Hn, Ez.
  - eexists. split; [done|]. right. split; [|by eexists].
    intros (Hc & Hr & _). by destruct (W2 Hc Hr).
Qed.

Lemma verify_statement_spec db key allow w g :
  db_wf db -> cas_shape db -> floor_ok db ->
  exists r, verify_statement db key allow (ret_of db) w g = Ok r
    /\ ((exists ok, r = ReportValid ok) <->
        chain_ok key w g "" (events_with_headers db) /\ retention_valid db
        /\ (allow = true \/ db_events db <> [])).
Proof.
  intros Hwf Hsh Hfl. unfold verify_statement.
  destruct (verify_statement_capture_spec db key allow w g None Hwf Hsh Hfl)
    as (r & -> & Hr). cbn. eexists. split; [done|].
  destruct Hr as [(Hc & Hrv & Ha & st & _ & _ & _ & ->)|(Hn & b & ->)]; naive_solver.
Qed.

(** ** The live body *)

Lemma live_body_spec db : live_body_verify_tx db = Ok None <-> live_valid db.
Proof.
  unfold live_body_verify_tx, live_body_head_break, live_valid, latest_body_event_tx.
  assert (default i64_max (i64_try_from (slen (db_body db)))
          = Z.min (slen (db_body db)) i64_max) as ->.
  { unfold i64_try_from. destruct (Z.leb_spec (slen (db_body db)) i64_max); cbn; lia. }
  destruct (last (body_events db)) as [e|]; cbn.
  - destruct (ct_eq (sha256_hex (db_body db)) (ev_body_sha256 e)) eqn:E; cbn.
    + apply ct_eq_true in E. destruct (Z.eqb_spec (ev_size e) (Z.min (slen (db_body db)) i64_max));
        cbn; naive_solver.
    + split; [done|]. intros [Hs _]. apply ct_eq_true in Hs. by rewrite Hs in E.
  - case_bool_decide; naive_solver.
Qed.

Lemma require_none_Ok r : require_none r = Ok tt <-> r = Ok None.
Proof. unfold require_none, storage. destruct r as [[b|]|e]; cbn; naive_solver. Qed.

Lemma generation_Ok db g :
  generation db = Ok g <->
  g = db_generation db /\ WorldGeneration_new (db_generation db) = Ok (db_generation db).
Proof.
  unfold generation. rewrite map_err_Ok. split; [|naive_solver].
  intros Hg. pose proof Hg as [-> _]%WorldGeneration_new_Ok. naive_solver.
Qed.

(** ** Full verification is [chain_valid] *)

(** The label of a computed HMAC. *)
Lemma hmac_label_raw raw :
  slen raw = 64%Z -> is_lower_hex raw = true -> hmac_label raw = "hmac-" +:+ raw.
Proof.
  intros Hl Hh. unfold hmac_label. rewrite bool_decide_false by (intros ->; done).
  assert (starts_with "hmac-" raw = false) as ->; [|done].
  destruct raw as [|a raw]; [done|]. unfold is_lower_hex in Hh. cbn [sall] in Hh.
  apply andb_true_iff in Hh as [Ha _]. unfold starts_with. cbn [strip_prefix].
  destruct (ascii_eqb _ a) eqn:E; [|by rewrite bool_decide_false by (by intros [? ?])].
  apply Ascii.eqb_eq in E as <-. by vm_compute in Ha.
Qed.

Lemma chain_ok_hmac k w g prev l row hs :
  chain_ok k w g prev l -> (row, hs) ∈ l -> exists i, ev_hmac row = event_hmac k i.
Proof.
  revert prev. induction l as [|[r h] l IH]; intros prev Hc Hin; [by apply not_elem_of_nil in Hin|].
  destruct Hc as [[kd Hk] Hc]. apply elem_of_cons in Hin as [[= -> ->]|Hin]; [|by eapply IH].
  eexists. apply Hk.
Qed.

Lemma require_world_intact_spec db w key :
  db_wf db -> require_world_intact_tx db w key = Ok tt <-> chain_valid w key db.
Proof.
  intros Hwf. unfold require_world_intact_tx, verify_world_tx, storage. split.
  - intros Hv. inv_ok. match goal with u : unit |- _ => destruct u end.
    repeat match goal with
    | H : generation _ = Ok _ |- _ => apply generation_Ok in H as [-> Hg]
    | H : load _ = Ok _ |- _ => apply load_inner_Ok in H as (-> & Hfl & Hcas)
    | H : require_none _ = Ok tt |- _ => apply require_none_Ok, live_body_spec in H
    end.
    destruct (verify_statement_spec db key false w (db_generation db) Hwf
                (cas_ok_shape _ Hcas) Hfl) as (r & Hr & Hiff).
    match goal with H : verify_statement _ _ _ _ _ _ = Ok _ |- _ =>
      rewrite Hr in H; injection H as <- end.
    destruct r as [ok|b]; [|done].
    destruct (proj1 Hiff) as (Hc & Hrv & [?|Hne]); [by eexists|done|]. by split.
  - intros [Hg Hcas Hc Hr Hl Hne].
    rewrite (proj2 (generation_Ok db _) (conj eq_refl Hg)). cbn [mbind result_bind].
    unfold load. rewrite (proj2 (load_inner_Ok db HashBodies (ret_of db)))
      by (split_and!; [done|by apply retention_floor_ok|done]).
    cbn [mbind result_bind].
    destruct (verify_statement_spec db key false w (db_generation db) Hwf
                (cas_ok_shape _ Hcas) (retention_floor_ok _ Hr)) as (r & -> & Hiff).
    destruct (proj2 Hiff) as [ok ->]; [by auto|]. cbn [map_err mbind result_bind require_intact].
    by apply require_none_Ok, live_body_spec.
Qed.
End Valid.
