(* ===== verification/GateProofs.v ===== *)
(** * Every gate accepts an intact file

    An intact chain passes the O(1) tail check, both append gates and the chain
    head and stamp reads; the stamp at an ordinal is the HMAC of that event. *)

From S2P Require Import Prelude.
From S2P Require Import RustStr.
From S2P Require Import Path.
From S2P Require Import Auth.
From S2P Require Import Crypto.
From S2P Require Import Types.
From S2P Require Import Db.
From S2P Require Import AuditVerify.
From S2P Require Import AuditGates.
From S2P Require Import AuditAppend.
From S2P Require Import Cas.
From S2P Require Import WorldWrite.
From S2P Require Import ChainSpec.
From S2P Require Import ChainValid.
From Stdlib Require Import Ascii.

Section Gates.
Context `{CryptoLaws}.

Lemma chain_valid_shape w key db :
  chain_valid w key db -> cas_shape db /\ floor_ok db.
Proof.
  intros Hv. split; [apply cas_ok_shape, Hv|eapply retention_floor_ok, cv_retained, Hv].
Qed.

Lemma last_split {A} (l : list A) x : last l = Some x -> exists l', l = l' ++ [x].
Proof.
  destruct l as [|y l] using rev_ind; [done|]. rewrite last_snoc. intros [= ->]. by exists l.
Qed.

Lemma filter_all {A} (P : A -> Prop) `{!forall x, Decision (P x)} l :
  Forall P l -> filter P l = l.
Proof. induction 1; [done|]. rewrite filter_cons_True by done. by f_equal. Qed.

Lemma filter_none {A} (P : A -> Prop) `{!forall x, Decision (P x)} l :
  Forall (fun x => ~ P x) l -> filter P l = [].
Proof. induction 1; [done|]. by rewrite filter_cons_False. Qed.

(** The row before the tail is the last row with a smaller id. *)
Lemma previous_hmac_split db l e :
  db_wf db -> db_events db = l ++ [e] ->
  previous_hmac_tx db (ev_id e) = default "" (ev_hmac <$> last l).
Proof.
  intros Hwf Hl. unfold previous_hmac_tx. rewrite Hl, filter_app.
  pose proof (wf_ids _ Hwf) as Hs. rewrite Hl, fmap_app in Hs.
  rewrite (filter_none _ [e]) by (repeat constructor; lia). rewrite app_nil_r.
  rewrite filter_all; [done|]. rewrite Forall_forall. intros x Hx.
  eapply StronglySorted_app_1_elem_of; [exact Hs|by apply list_elem_of_fmap_2|left].
Qed.

Lemma last_hmac_rows prev l :
  last_hmac prev l = default prev (ev_hmac <$> last (fst <$> l)).
Proof. unfold last_hmac. rewrite fmap_last. by destruct (last l). Qed.

(** The tail of an intact chain, with its link. *)
Lemma tail_row_ok w key db e :
  db_wf db -> chain_valid w key db -> last (db_events db) = Some e ->
  row_ok key w (db_generation db) (previous_hmac_tx db (ev_id e)) e (headers_of db (ev_id e)).
Proof.
  intros Hwf Hv [l Hl]%last_split. pose proof (cv_links _ _ _ Hv) as Hc.
  rewrite (previous_hmac_split db l e Hwf Hl).
  unfold events_with_headers in Hc. rewrite Hl, fmap_app in Hc.
  apply chain_ok_app in Hc as [_ Hc]. cbn in Hc. destruct Hc as [Hr _].
  rewrite last_hmac_rows in Hr. rewrite <- list_fmap_compose in Hr.
  replace ((fst ∘ (fun e => (e, headers_of db (ev_id e)))) <$> l) with l in Hr; [done|].
  symmetry. by apply list_fmap_id.
Qed.

Lemma verify_tail_event_None row hs key w g prev n :
  (0 < ev_id row)%Z ->
  verify_tail_event row hs key w g prev n = None <-> row_ok key w g prev row hs.
Proof.
  intros Hid. unfold verify_tail_event.
  match goal with |- context [verify_event _ _ _ ?r _ _ ?s] =>
    destruct (verify_event_ok key w g r row hs s Hid) as [H1 H2] end.
  cbn [va_prev] in H1, H2. split.
  - destruct (verify_event _ _ _ _ _ _ _) as [st|b] eqn:E; [|done]. intros _.
    by destruct (H2 _ eq_refl).
  - intros Hr. destruct H1 as (st & -> & _); [|done]. split; [done|]. done.
Qed.

Lemma verify_tail_body_None w key db e i :
  db_wf db -> chain_valid w key db -> last (db_events db) = Some e ->
  verify_tail_body_tx db e i = Ok None.
Proof.
  intros Hwf Hv Hl. assert (e ∈ db_events db) as He by (by apply last_Some_elem_of).
  unfold verify_tail_body_tx. destruct (from_storage (ev_event_type e)) as [k|] eqn:Ek; [|done].
  rewrite (from_storage_body _ _ Ek). fold (is_body e).
  pose proof (cv_retained _ _ _ Hv) as Hr. unfold retention_valid in Hr.
  unfold load_floor. destruct (db_floor db) as [f|].
  - destruct Hr as (Hf & (e' & He' & <-) & Hr & _).
    rewrite (proj2 (TimelineSeq_new_Ok _ _) (conj eq_refl Hf)). cbn [map_err mbind result_bind].
    apply elem_body_events in He' as [Hb' He'].
    destruct (is_body e) eqn:Eb; cbn [negb].
    + rewrite andb_false_r, orb_false_r. destruct (Z.ltb_spec (ev_id e) (ev_id e')); [done|].
      assert (e ∈ body_events db) as Heb by (by apply elem_body_events).
      specialize (Hr e Heb ltac:(lia)).
      destruct (db_cas db !! ev_body_sha256 e) as [b|] eqn:Eb'; [|done]. injection Hr as Hr.
      destruct (cv_cas _ _ _ Hv _ _ Eb') as [Hsha Hlen].
      rewrite (cas_ok_shape _ (cv_cas _ _ _ Hv) _ _ Eb'), Eb', Hsha, ct_eq_refl. cbn.
      rewrite (proj2 (i64_try_from_Some _ _) (conj eq_refl Hlen)). cbn.
      by rewrite Hr, Z.eqb_refl.
    + rewrite andb_true_r, orb_true_r. case_bool_decide as Hid; [|done].
      rewrite (same_id db e e' Hwf He He' Hid) in Eb. by rewrite Eb in Hb'.
  - destruct Hr as [_ Hr]. cbn. destruct (is_body e) eqn:Eb; [|done].
    assert (e ∈ body_events db) as Heb by (by apply elem_body_events).
    rewrite Hr in Heb. by apply not_elem_of_nil in Heb.
Qed.

Lemma chain_valid_last w key db :
  chain_valid w key db -> exists e, last (db_events db) = Some e.
Proof.
  intros Hv. pose proof (cv_some _ _ _ Hv) as Hne.
  destruct (last (db_events db)) as [e|] eqn:E; [by exists e|]. by apply last_None in E.
Qed.

(** The tail check of ordinary reads accepts an intact file. *)
Lemma tail_check_accepts w key db :
  db_wf db -> chain_valid w key db -> require_current_tail_intact_tx db w key = Ok tt.
Proof.
  intros Hwf Hv. destruct (chain_valid_last _ _ _ Hv) as [e He].
  unfold require_current_tail_intact_tx, storage.
  rewrite (proj2 (generation_Ok db _) (conj eq_refl (cv_gen _ _ _ Hv))).
  unfold latest_event_with_headers_tx. rewrite He. cbn [map_err mbind result_bind option_bind].
  assert (0 < ev_id e)%Z as Hid.
  { pose proof (wf_ids_pos _ Hwf) as Hp. rewrite Forall_forall in Hp.
    destruct (Hp e); [by apply last_Some_elem_of|done]. }
  rewrite (proj2 (verify_tail_event_None _ _ _ _ _ _ _ Hid) (tail_row_ok _ _ _ _ Hwf Hv He)).
  cbn [mbind result_bind].
  rewrite (proj2 (require_none_Ok _) (verify_tail_body_None _ _ _ _ _ Hwf Hv He)).
  cbn [mbind result_bind]. apply require_none_Ok, live_body_spec, Hv.
Qed.

Definition authority (key w : string) (db : world_db) : VerifiedAuditTx :=
  {| atx_key := key; atx_world := w; atx_generation := db_generation db |}.

Lemma load_for_append_ok db :
  cas_shape db -> floor_ok db -> load_for_append db = Ok (ret_of db).
Proof. intros Hs Hf. by apply load_inner_Ok. Qed.

(** Both append gates accept it. *)
Lemma append_gate_accepts w key db m :
  db_wf db -> chain_valid w key db ->
  verify_appendable_tx_full db w key m = Ok (authority key w db, {| vp_world := w |}).
Proof.
  intros Hwf Hv. destruct (chain_valid_shape _ _ _ Hv) as [Hsh Hfl].
  unfold verify_appendable_tx_full, storage.
  rewrite (proj2 (generation_Ok db _) (conj eq_refl (cv_gen _ _ _ Hv))). cbn [map_err mbind result_bind].
  rewrite load_for_append_ok by done. cbn [map_err mbind result_bind].
  destruct (verify_statement_spec db key (match m with Allow => true | Reject => false end) w
              (db_generation db) Hwf Hsh Hfl) as (r & -> & Hiff).
  destruct (proj2 Hiff) as [ok ->].
  { split_and!; [apply Hv|apply Hv|right; apply Hv]. }
  cbn [map_err mbind result_bind require_intact].
  unfold verify_current_tail_body_tx, latest_event_with_headers_tx.
  destruct (chain_valid_last _ _ _ Hv) as [e He]. rewrite He. cbn [mbind option_bind].
  rewrite (proj2 (require_none_Ok _) (verify_tail_body_None _ _ _ _ _ Hwf Hv He)).
  cbn [mbind result_bind].
  by rewrite (proj2 (require_none_Ok _) (proj2 (live_body_spec _) (cv_live _ _ _ Hv))).
Qed.

Lemma tail_gate_accepts w key db :
  db_wf db -> chain_valid w key db ->
  verify_appendable_tx_existing_tail_checked db {| vp_world := w |} key
  = Ok (authority key w db).
Proof.
  intros Hwf Hv. destruct (chain_valid_shape _ _ _ Hv) as [Hsh Hfl].
  unfold verify_appendable_tx_existing_tail_checked, storage. cbn [vp_world].
  rewrite (proj2 (generation_Ok db _) (conj eq_refl (cv_gen _ _ _ Hv))). cbn [map_err mbind result_bind].
  rewrite load_for_append_ok by done. cbn [map_err mbind result_bind].
  by rewrite tail_check_accepts.
Qed.

(** A new file passes the genesis gate. *)
Lemma genesis_gate_accepts w key g :
  WorldGeneration_new g = Ok g ->
  verify_appendable_tx_full (create g) w key Allow
  = Ok (authority key w (create g), {| vp_world := w |}).
Proof.
  intros Hg. unfold verify_appendable_tx_full, storage.
  rewrite (proj2 (generation_Ok (create g) _) (conj eq_refl Hg)). cbn [map_err mbind result_bind].
  assert (cas_shape (create g)) as Hsh.
  { intros k b Hb. cbn in Hb. by rewrite lookup_empty in Hb. }
  assert (floor_ok (create g)) as Hfl by done.
  rewrite load_for_append_ok by done. cbn [map_err mbind result_bind].
  destruct (verify_statement_spec (create g) key true w g (create_wf g) Hsh Hfl)
    as (r & Hr & Hiff).
  change (db_generation (create g)) with g. rewrite Hr.
  destruct (proj2 Hiff) as [ok ->]; [split_and!; [done|done|by left]|]. cbn. done.
Qed.
End Gates.
