(* ===== verification/CasProofs.v ===== *)
(** * Retention keeps exactly the bodies of the retained events

    Pruning preserves [retention_valid] and removes exactly the bodies no
    retained event names; a body event appended after its body was retained
    keeps it too. *)

From S2P Require Import Prelude.
From S2P Require Import RustStr.
From S2P Require Import Path.
From S2P Require Import Auth.
From S2P Require Import Crypto.
From S2P Require Import Types.
From S2P Require Import Db.
From S2P Require Import AuditVerify.
From S2P Require Import AuditGates.
From S2P Require Import AuditAppend.
From S2P Require Import Cas.
From S2P Require Import ChainSpec.
From S2P Require Import ChainValid.
From Stdlib Require Import Ascii.

Lemma elem_hashes_from k f evs :
  k ∈ hashes_from f evs <-> exists e, e ∈ evs /\ (f <= ev_id e)%Z /\ ev_body_sha256 e = k.
Proof.
  unfold hashes_from. rewrite elem_of_list_to_set, list_elem_of_fmap.
  setoid_rewrite list_elem_of_filter. naive_solver.
Qed.

Lemma elem_hashes_below k f evs :
  k ∈ hashes_below f evs <-> exists e, e ∈ evs /\ (ev_id e < f)%Z /\ ev_body_sha256 e = k.
Proof.
  unfold hashes_below. rewrite elem_of_list_to_set, list_elem_of_fmap.
  setoid_rewrite list_elem_of_filter. naive_solver.
Qed.

Lemma prune_candidates_lookup f evs cas k b :
  prune_candidates f evs cas !! k = Some b <->
  cas !! k = Some b /\ k ∈ hashes_below f evs /\ k ∉ hashes_from f evs.
Proof. unfold prune_candidates. by rewrite map_lookup_filter_Some. Qed.

Lemma prune_candidates_dom f evs (cas : gmap string string) :
  dom (prune_candidates f evs cas) = dom cas ∩ (hashes_below f evs ∖ hashes_from f evs).
Proof.
  apply set_eq. intros k. rewrite elem_of_dom, elem_of_intersection, elem_of_difference, elem_of_dom.
  split.
  - intros [b Hb%prune_candidates_lookup]. naive_solver.
  - intros [[b Hb] ?]. exists b. by apply prune_candidates_lookup.
Qed.

(** ** Sums of body lengths *)

Lemma sum_len_insert m k b :
  m !! k = None -> sum_len (<[k := b]> m) = (slen b + sum_len m)%Z.
Proof.
  intros Hn. unfold sum_len. rewrite map_fold_insert_L; [done| |done].
  intros. lia.
Qed.

Lemma sum_len_empty : sum_len ∅ = 0%Z.
Proof. done. Qed.

Lemma sum_len_nonneg m : (0 <= sum_len m)%Z.
Proof.
  induction m as [|k b m Hn IH] using map_ind; [done|].
  rewrite sum_len_insert by done. pose proof (slen_nonneg b). lia.
Qed.

Lemma sum_len_union m1 m2 : m1 ##ₘ m2 -> sum_len (m1 ∪ m2) = (sum_len m1 + sum_len m2)%Z.
Proof.
  induction m1 as [|k b m Hn IH] using map_ind; intros Hd.
  - by rewrite (left_id_L ∅ (∪)).
  - apply map_disjoint_insert_l in Hd as [Hk Hd].
    rewrite <- insert_union_l, !sum_len_insert by (rewrite ?lookup_union_None; done).
    rewrite IH by done. lia.
Qed.

Lemma sum_len_difference m c : c ⊆ m -> sum_len m = (sum_len (m ∖ c) + sum_len c)%Z.
Proof.
  intros Hc. rewrite <- (map_difference_union c m Hc) at 1.
  rewrite sum_len_union by (by apply map_disjoint_difference_r1). lia.
Qed.

(** ** The floor of the last [n] body events *)

Lemma floor_of_last_elem n evs f :
  floor_of_last n evs = Some f -> exists e, e ∈ evs /\ ev_id e = f.
Proof.
  unfold floor_of_last. intros Hf. apply fmap_Some in Hf as (e & He & ->). exists e.
  split; [|done]. apply last_Some_elem_of in He. apply list_elem_of_In in He.
  rewrite <- list_elem_of_In in He.
  assert (e ∈ reverse evs) as Hr.
  { rewrite <- (take_drop (Z.to_nat n) (reverse evs)). apply elem_of_app. by left. }
  by rewrite elem_of_reverse in Hr.
Qed.

Lemma floor_of_last_None n evs : (0 < n)%Z -> floor_of_last n evs = None <-> evs = [].
Proof.
  intros Hn. unfold floor_of_last. rewrite fmap_None, last_None. split; [|intros ->; by rewrite reverse_nil, take_nil].
  destruct evs as [|e evs _] using rev_ind; [done|]. rewrite reverse_snoc.
  destruct (Z.to_nat n) eqn:E; [lia|done].
Qed.

Section Prune.
Context `{CryptoLaws}.

Lemma nonneg_usize_Ok z c : (0 <= z)%Z -> nonnegative_usize z c = Ok z.
Proof.
  intros Hz. unfold nonnegative_usize, usize_try_from. rewrite Z.max_l by lia.
  by destruct (Z.leb_spec 0 z); [|lia].
Qed.

Lemma candidates_subseteq f evs (cas : gmap string string) :
  prune_candidates f evs cas ⊆ cas.
Proof. apply map_filter_subseteq. Qed.

Lemma remaining_empty (cas c : gmap string string) :
  filter (fun p => is_Some (c !! fst p)) (cas ∖ c) = ∅.
Proof.
  apply map_empty. intros k. apply eq_None_not_Some. intros [b Hb].
  apply map_lookup_filter_Some in Hb as [Hb [x Hx]]. cbn in Hx.
  apply lookup_difference_Some in Hb as [_ Hn]. by rewrite Hn in Hx.
Qed.

Lemma body_event_pos db e : db_wf db -> e ∈ body_events db -> (0 < ev_id e <= db_seq db)%Z.
Proof.
  intros Hwf [_ He]%elem_body_events. pose proof (wf_ids_pos _ Hwf) as Hp.
  rewrite Forall_forall in Hp. by apply Hp.
Qed.

(** The floor a successful prune ends with: the higher of the old floor and
    the [n]-th body event from the end. *)
Definition pruned_floor (n : Z) (db : world_db) (f : Z) : Z :=
  Z.max f (default f (floor_of_last n (body_events db))).

(** What pruning returns on a file with a valid floor. *)
Lemma prune_spec n db f :
  db_wf db -> (0 < n <= i64_max)%Z -> db_floor db = Some f -> (0 < f)%Z ->
  let nf := pruned_floor n db f in
  let cands := if (f <? nf)%Z then prune_candidates nf (body_events db) (db_cas db) else ∅ in
  prune_to_count_tx n db
  = Ok ({| pruned_bytes := sum_len cands |},
        set_cas (db_cas db ∖ cands) (Some nf) db).
Proof.
  intros Hwf Hn Hf Hpos. cbv zeta. unfold prune_to_count_tx, retained_floor_for_count_tx.
  rewrite (proj2 (i64_try_from_Some _ _) (conj eq_refl (proj2 Hn))). cbn [ok_or mbind result_bind].
  unfold pruned_floor. destruct (floor_of_last n (body_events db)) as [nf|] eqn:Enf; cbn [default from_option id].
  2: { cbn. rewrite Z.max_id, Z.ltb_irrefl, map_difference_empty, sum_len_empty.
       f_equal. f_equal. destruct db; cbn in *. by subst. }
  destruct (floor_of_last_elem _ _ _ Enf) as (e & He & <-).
  rewrite (proj2 (TimelineSeq_new_Ok _ _)) by (split; [done|]; by apply (body_event_pos db)).
  cbn [map_err mbind result_bind]. rewrite Hf.
  rewrite (proj2 (TimelineSeq_new_Ok _ _) (conj eq_refl Hpos)). cbn [map_err mbind result_bind].
  destruct (Z.leb_spec (ev_id e) f) as [Hle|Hgt].
  - rewrite Z.max_l, Z.ltb_irrefl, map_difference_empty, sum_len_empty by lia.
    f_equal. f_equal. destruct db; cbn in *. by subst.
  - rewrite Z.max_r by lia. destruct (Z.ltb_spec f (ev_id e)); [|lia].
    rewrite bool_decide_true by apply remaining_empty. cbn [ensure mbind result_bind].
    rewrite nonneg_usize_Ok by apply sum_len_nonneg. done.
Qed.

Lemma pruned_floor_elem n db f :
  (exists e, e ∈ body_events db /\ ev_id e = f) ->
  exists e, e ∈ body_events db /\ ev_id e = pruned_floor n db f.
Proof.
  intros Hx. unfold pruned_floor.
  destruct (floor_of_last n (body_events db)) as [nf|] eqn:E; cbn.
  - destruct (floor_of_last_elem _ _ _ E) as (e & He & <-).
    destruct (Z.max_spec f (ev_id e)) as [[_ ->]|[_ ->]]; [by exists e|done].
  - by rewrite Z.max_id.
Qed.

(** Restricting the store to the bodies from a higher floor. *)
Lemma retention_raise db f nf :
  db_floor db = Some f -> retention_valid db -> (f < nf)%Z ->
  (exists e, e ∈ body_events db /\ ev_id e = nf) ->
  retention_valid
    (set_cas (db_cas db ∖ prune_candidates nf (body_events db) (db_cas db)) (Some nf) db).
Proof.
  intros Hf Hr Hlt Hx. unfold retention_valid in *. rewrite Hf in Hr.
  destruct Hr as (Hpos & _ & Hr & Hd). cbn [set_cas db_floor db_cas].
  change (body_events (set_cas _ _ db)) with (body_events db).
  split_and!; [lia|done| |].
  - intros e He Hle. rewrite <- (Hr e He) by lia. f_equal.
    apply option_eq. intros b. rewrite lookup_difference_Some. split; [naive_solver|].
    intros Hb. split; [done|]. apply eq_None_not_Some. intros [b' Hb'].
    apply prune_candidates_lookup in Hb' as (_ & _ & Hn). apply Hn, elem_hashes_from. eauto.
  - apply set_eq. intros k. rewrite dom_difference_L, prune_candidates_dom, <- Hd.
    rewrite elem_of_difference, elem_of_intersection, elem_of_difference.
    rewrite !elem_hashes_from, elem_hashes_below. split.
    + intros (e & He & Hle & <-). split; [exists e; split_and!; [done|lia|done]|].
      intros (_ & _ & Hn). apply Hn. eauto.
    + intros [(e & He & Hle & <-) Hn]. destruct (decide (nf <= ev_id e)%Z) as [?|Hb]; [by eauto|].
      destruct (decide (ev_body_sha256 e ∈ hashes_from nf (body_events db))) as [Hx'|Hx'];
        rewrite elem_hashes_from in Hx'; [done|].
      destruct Hn. split_and!; [by eauto| |done]. exists e. split_and!; [done|lia|done].
Qed.
End Prune.
