(* ===== verification/WriteProofs.v ===== *)
(** * Audited writes keep the chain intact

    An append of a signed row extends the chain; a retained body event keeps
    the retention invariant; the whole write and append transactions succeed
    under explicit conditions and lead from an intact file to an intact file
    that reads back what was written. *)

From S2P Require Import Prelude.
From S2P Require Import RustStr.
From S2P Require Import Path.
From S2P Require Import Auth.
From S2P Require Import Crypto.
From S2P Require Import Types.
From S2P Require Import Db.
From S2P Require Import AuditVerify.
From S2P Require Import AuditGates.
From S2P Require Import AuditAppend.
From S2P Require Import Cas.
From S2P Require Import WorldWrite.
From S2P Require Import ChainSpec.
From S2P Require Import ChainValid.
From S2P Require Import GateProofs.
From S2P Require Import CasProofs.
From Stdlib Require Import Ascii.

Section Append.
Context `{CryptoLaws}.

(** What a row must satisfy besides its signature. *)
Definition signable (w : string) (k : AuditEventKind) (target body_sha256 : string)
    (canonical : list (string * string)) : Prop :=
  (body_bearing (class k) = true \/ k = Format -> target = w)
  /\ (k = Format -> has_format_version canonical = true)
  /\ subject_valid k target body_sha256 canonical.

Lemma signable_body w k sha hs :
  body_bearing (class k) = true -> signable w k w sha hs.
Proof. intros Hb. split_and!; [done|by intros ->|by destruct k]. Qed.

Lemma signable_format w sha hs :
  has_format_version hs = true -> signable w Format w sha hs.
Proof. done. Qed.

Lemma signed_row_ok atx id now prev k target sha sz ct hs :
  is_canonical_sqlite_utc_timestamp now = true ->
  signable (atx_world atx) k target sha hs ->
  row_ok (atx_key atx) (atx_world atx) (atx_generation atx) prev
    (signed_row atx id now prev k target sha sz ct hs) hs.
Proof.
  intros Hnow (Ht & Hf & Hs). exists k. split; try done.
  intros Ek. by apply has_format_version_true, Hf.
Qed.

(** *** [append_tx_inner] *)

Lemma append_tx_inner_Ok atx now k target sha sz ct hs db :
  db_wf db ->
  is_canonical_sqlite_utc_timestamp now = true -> (db_seq db < i64_max)%Z ->
  let row := signed_row atx (db_seq db + 1) now (default "" (latest_hmac db)) k target sha sz ct
               (canonical_headers hs) in
  append_tx_inner atx now k target sha sz ct hs db
  = Ok ({| ar_world := atx_world atx; ar_id := db_seq db + 1; ar_hmac := ev_hmac row;
           ar_generation := atx_generation atx; ar_event_type := k; ar_target := target;
           ar_body_sha256 := sha; ar_size := sz; ar_content_type := ct |},
        insert_event db row (canonical_headers hs)).
Proof.
  intros Hwf Hnow Hseq. cbv zeta. unfold append_tx_inner, AuditTimestamp_now.
  rewrite Hnow, (next_rowid_wf _ Hwf). cbn [mbind result_bind].
  rewrite (proj2 (Z.leb_le _ _)) by lia. cbn [ensure mbind result_bind].
  pose proof (wf_seq _ Hwf).
  by rewrite (proj2 (TimelineSeq_new_Ok _ (db_seq db + 1))) by (split; [done|lia]).
Qed.

Lemma append_tx_inner_inv atx now k target sha sz ct hs db r :
  db_wf db -> append_tx_inner atx now k target sha sz ct hs db = Ok r ->
  is_canonical_sqlite_utc_timestamp now = true /\ (db_seq db < i64_max)%Z.
Proof.
  intros Hwf. unfold append_tx_inner, AuditTimestamp_now.
  destruct (is_canonical_sqlite_utc_timestamp now); [|done].
  rewrite (next_rowid_wf _ Hwf). cbn [mbind result_bind].
  destruct (Z.leb_spec (db_seq db + 1) i64_max); [|done]. intros _. split; [done|lia].
Qed.

Lemma canonical_sorted hs : sort_headers (canonical_headers hs) = canonical_headers hs.
Proof. unfold canonical_headers. apply sort_headers_idemp. Qed.

Lemma latest_hmac_last db :
  last_hmac "" (events_with_headers db) = default "" (latest_hmac db).
Proof. rewrite last_hmac_rows, fst_events_with_headers. done. Qed.

(** Appending a signed row extends the chain by one valid link. *)
Lemma append_links atx now k target sha sz ct hs db :
  db_wf db ->
  is_canonical_sqlite_utc_timestamp now = true -> (db_seq db < i64_max)%Z ->
  signable (atx_world atx) k target sha (canonical_headers hs) ->
  chain_ok (atx_key atx) (atx_world atx) (atx_generation atx) "" (events_with_headers db) ->
  let row := signed_row atx (db_seq db + 1) now (default "" (latest_hmac db)) k target sha sz ct
               (canonical_headers hs) in
  let db' := insert_event db row (canonical_headers hs) in
  chain_ok (atx_key atx) (atx_world atx) (atx_generation atx) "" (events_with_headers db')
  /\ db_wf db'.
Proof.
  intros Hwf Hnow Hseq Hs Hc. cbv zeta. split; [|apply insert_event_wf; [done|cbn; lia]].
  rewrite events_with_headers_insert by (first [done|cbn; lia]).
  rewrite canonical_sorted. apply chain_ok_app. split; [done|]. cbn. split; [|done].
  rewrite latest_hmac_last. by apply signed_row_ok.
Qed.

(** *** Body events *)

Lemma body_events_insert db row hs :
  body_events (insert_event db row hs)
  = body_events db ++ (if is_body row then [row] else []).
Proof.
  unfold body_events. cbn [insert_event set_events db_events]. rewrite filter_app. f_equal.
  unfold is_body. destruct (is_body_type (ev_event_type row)) eqn:E.
  - by rewrite filter_cons_True.
  - by rewrite filter_cons_False by (by rewrite E).
Qed.

Lemma is_body_signed atx id now prev k target sha sz ct hs :
  is_body (signed_row atx id now prev k target sha sz ct hs) = body_bearing (class k).
Proof. by destruct k. Qed.
End Append.

Section BodyTx.
Context `{CryptoLaws}.

(** An intact file except for its live body, which the rest of the
    transaction rewrites, and possibly without events. *)
Record pre_valid (w key : string) (db : world_db) : Prop := {
  pv_gen : WorldGeneration_new (db_generation db) = Ok (db_generation db);
  pv_cas : cas_ok db;
  pv_links : chain_ok key w (db_generation db) "" (events_with_headers db);
  pv_retained : retention_valid db;
}.

Lemma chain_valid_pre w key db : chain_valid w key db -> pre_valid w key db.
Proof. intros [? ? ? ? ? ?]. by split. Qed.

Lemma create_pre_valid w key g :
  WorldGeneration_new g = Ok g -> pre_valid w key (create g).
Proof. intros Hg. by split. Qed.

(** The store after the body is retained. *)
Definition retained_cas (db : world_db) (body : string) : gmap string string :=
  match db_cas db !! sha256_hex body with
  | Some _ => db_cas db
  | None => <[sha256_hex body := body]> (db_cas db)
  end.

Definition fits (db : world_db) (body : string) : Prop :=
  (slen body <= i64_max)%Z
  /\ (forall b, db_cas db !! sha256_hex body = Some b -> slen b = slen body).

Lemma set_cas_same db : set_cas (db_cas db) (db_floor db) db = db.
Proof. by destruct db. Qed.

Lemma retained_cas_lookup db body :
  fits db body -> slen <$> retained_cas db body !! sha256_hex body = Some (slen body).
Proof.
  intros [_ Hf]. unfold retained_cas. destruct (db_cas db !! sha256_hex body) as [b|] eqn:E.
  - rewrite E. cbn. by rewrite (Hf b).
  - by rewrite lookup_insert_eq.
Qed.

Lemma retain_body_Ok w body db :
  fits db body ->
  retain_body_tx w body db
  = Ok ({| rc_target := w; rc_body_sha256 := sha256_hex body; rc_size := slen body;
           rc_inserted := bool_decide (db_cas db !! sha256_hex body = None) |},
        set_cas (retained_cas db body) (db_floor db) db).
Proof.
  intros Hf. pose proof (retained_cas_lookup _ _ Hf) as Hl. destruct Hf as [Hlen _].
  unfold retain_body_tx. rewrite (proj2 (i64_try_from_Some _ _) (conj eq_refl Hlen)).
  cbn [ok_or mbind result_bind]. unfold retained_cas in *.
  destruct (db_cas db !! sha256_hex body) as [b|] eqn:E; cbn.
  - rewrite E in Hl |- *. rewrite bool_decide_true by done. by rewrite set_cas_same.
  - by rewrite Hl, bool_decide_true.
Qed.

Lemma retain_body_inv w body db r : retain_body_tx w body db = Ok r -> fits db body.
Proof.
  unfold retain_body_tx, fits. intros Hr. inv_ok.
  match goal with H : i64_try_from _ = Some _ |- _ => apply i64_try_from_Some in H as [-> Hl] end.
  split; [done|]. intros b Hb. rewrite Hb in *. inv_ok.
  match goal with H : bool_decide _ = true |- _ => apply bool_decide_eq_true in H end.
  rewrite Hb in *. by simplify_eq/=.
Qed.

Lemma retained_cas_ok db body : cas_ok db -> fits db body ->
  cas_ok (set_cas (retained_cas db body) (db_floor db) db).
Proof.
  intros Hok [Hl _] k b. cbn. unfold retained_cas.
  destruct (db_cas db !! sha256_hex body) eqn:E; [apply Hok|].
  rewrite lookup_insert_Some. intros [[<- <-]|[_ Hb]]; [done|by apply Hok].
Qed.

Lemma retained_cas_dom db body :
  dom (retained_cas db body) = dom (db_cas db) ∪ {[sha256_hex body]}.
Proof.
  unfold retained_cas. destruct (db_cas db !! sha256_hex body) eqn:E.
  - assert (sha256_hex body ∈ dom (db_cas db)) by (by apply elem_of_dom). set_solver.
  - rewrite dom_insert_L. set_solver.
Qed.

Lemma retained_cas_old db body k b :
  db_cas db !! k = Some b -> retained_cas db body !! k = Some b.
Proof.
  unfold retained_cas. destruct (db_cas db !! sha256_hex body) eqn:E; [done|].
  intros Hb. rewrite lookup_insert_ne; [done|]. intros <-. by rewrite E in Hb.
Qed.

Lemma hashes_from_app f l1 l2 : hashes_from f (l1 ++ l2) = hashes_from f l1 ∪ hashes_from f l2.
Proof. unfold hashes_from. by rewrite filter_app, fmap_app, list_to_set_app_L. Qed.

Lemma hashes_from_one f e :
  (f <= ev_id e)%Z -> hashes_from f [e] = {[ev_body_sha256 e]}.
Proof. intros Hle. unfold hashes_from. rewrite filter_cons_True by done. cbn. set_solver. Qed.

Definition started_floor (db : world_db) (id : Z) : Z := default id (db_floor db).

(** A body event appended to a file that retains its body. *)
Lemma retention_push db db' row body :
  db_wf db -> retention_valid db -> fits db body ->
  body_events db' = body_events db ++ [row] ->
  db_cas db' = retained_cas db body -> db_floor db' = Some (started_floor db (ev_id row)) ->
  (db_seq db < ev_id row)%Z -> ev_body_sha256 row = sha256_hex body -> ev_size row = slen body ->
  retention_valid db'.
Proof.
  intros Hwf Hr Hfit Hb Hcas Hfl Hid Hsha Hsz. pose proof (wf_seq _ Hwf).
  pose proof (retained_cas_lookup _ _ Hfit) as Hl.
  unfold retention_valid, started_floor in *. rewrite Hfl, Hb, Hcas.
  destruct (db_floor db) as [f|] eqn:Ef; cbn [default from_option id].
  - destruct Hr as (Hpos & (e & He & Hef) & Hr & Hd).
    pose proof (body_event_pos db e Hwf He). split_and!; [done| | |].
    + exists e. split; [by apply elem_of_app; left|done].
    + intros x Hx Hle. apply elem_of_app in Hx as [Hx| ->%list_elem_of_singleton].
      * rewrite <- (Hr x Hx Hle). specialize (Hr x Hx Hle).
        destruct (db_cas db !! ev_body_sha256 x) as [b|] eqn:Eb; [|done].
        by rewrite (retained_cas_old _ _ _ _ Eb).
      * by rewrite Hsha, Hsz.
    + rewrite hashes_from_app, hashes_from_one, Hd, Hsha, retained_cas_dom by lia. done.
  - destruct Hr as [Hc He]. rewrite He. cbn [app]. split_and!; [lia| | |].
    + exists row. split; [left|done].
    + intros x ->%list_elem_of_singleton _. by rewrite Hsha, Hsz.
    + rewrite hashes_from_one, Hsha, retained_cas_dom, Hc by lia. set_solver.
Qed.

(** Retention starts, or has started, at an existing body event. *)
Lemma mark_retention_Ok db db' row :
  db_wf db -> retention_valid db ->
  body_events db' = body_events db ++ [row] -> db_floor db' = db_floor db ->
  (db_seq db < ev_id row)%Z ->
  mark_retention_started_tx (ev_id row) db'
  = Ok (set_cas (db_cas db') (Some (started_floor db (ev_id row))) db').
Proof.
  intros Hwf Hr Hb Hfl Hid. pose proof (wf_seq _ Hwf). unfold mark_retention_started_tx.
  unfold retention_valid, started_floor in *. rewrite Hfl.
  destruct (db_floor db) as [f|] eqn:Ef.
  - destruct Hr as (Hpos & (e & He & <-) & _).
    rewrite (proj2 (TimelineSeq_new_Ok _ _) (conj eq_refl Hpos)). cbn [map_err mbind result_bind].
    assert (body_event_exists_tx db' (ev_id e) = true) as ->.
    { unfold body_event_exists_tx. apply existsb_exists. exists e.
      rewrite <- list_elem_of_In, Hb, elem_of_app, bool_decide_true by done. auto. }
    pose proof (body_event_pos db e Hwf He).
    destruct (Z.ltb_spec (ev_id row) (ev_id e)); [lia|]. cbn. f_equal.
    destruct db'; cbn in *. by subst.
  - destruct Hr as [_ He]. rewrite He in Hb. unfold first_body_event_seq_tx. rewrite Hb.
    cbn [head app ok_or map_err sqlite mbind result_bind].
    rewrite (proj2 (TimelineSeq_new_Ok _ _)) by (split; [done|lia]).
    cbn [map_err mbind result_bind]. by rewrite bool_decide_true.
Qed.

(** *** The body transaction in closed form *)

Section Commit.
Context (w key : string) (db : world_db) (body : string) (k : AuditEventKind)
  (ct : string) (hs : list (string * string)) (now : string) (n : Z)
  (stage_ct : string) (meta : list (string * string)).

Definition body_row : EventRow :=
  signed_row (authority key w db) (db_seq db + 1) now (default "" (latest_hmac db)) k w
    (sha256_hex body) (slen body) ct (canonical_headers hs).

Definition body_appended : AppendedBodyAuditRow :=
  {| br_row :=
       {| ar_world := w; ar_id := db_seq db + 1; ar_hmac := ev_hmac body_row;
          ar_generation := db_generation db; ar_event_type := k; ar_target := w;
          ar_body_sha256 := sha256_hex body; ar_size := slen body; ar_content_type := ct |};
     br_timeline_address :=
       {| ta_world := w; ta_gen := db_generation db; ta_seq := db_seq db + 1;
          ta_body_sha256 := sha256_hex body |} |}.

Definition body_retained : RetainedCasBody :=
  {| rc_target := w; rc_body_sha256 := sha256_hex body; rc_size := slen body;
     rc_inserted := bool_decide (db_cas db !! sha256_hex body = None) |}.

(** The file before pruning. *)
Definition marked_db : world_db :=
  set_cas (retained_cas db body) (Some (started_floor db (db_seq db + 1)))
    (set_stage body stage_ct meta (insert_event db body_row (canonical_headers hs))).

Definition commit_floor : Z :=
  pruned_floor n marked_db (started_floor db (db_seq db + 1)).

Definition commit_pruned : gmap string string :=
  if (started_floor db (db_seq db + 1) <? commit_floor)%Z
  then prune_candidates commit_floor (body_events marked_db) (db_cas marked_db) else ∅.

Definition committed_db : world_db :=
  set_cas (db_cas marked_db ∖ commit_pruned) (Some commit_floor) marked_db.

Hypothesis Hwf : db_wf db.
Hypothesis Hpre : pre_valid w key db.
Hypothesis Hfits : fits db body.
Hypothesis Hnow : is_canonical_sqlite_utc_timestamp now = true.
Hypothesis Hseq : (db_seq db < i64_max)%Z.
Hypothesis Hn : (0 < n <= i64_max)%Z.
Hypothesis Hmeta : NoDup meta.*1.
Hypothesis Hk : body_bearing (class k) = true.

Lemma commit_append :
  append_retained_body_tx_row (authority key w db) now k body_retained ct hs
    (set_stage body stage_ct meta (set_cas (retained_cas db body) (db_floor db) db))
  = Ok (body_appended,
        set_cas (retained_cas db body) (db_floor db)
          (set_stage body stage_ct meta (insert_event db body_row (canonical_headers hs)))).
Proof using Hwf Hnow Hseq Hmeta.
  unfold append_retained_body_tx_row. rewrite bool_decide_true by done.
  cbn [ensure mbind result_bind].
  rewrite append_tx_inner_Ok; [done| |done|done].
  destruct Hwf. by split.
Qed.

Lemma body_events_marked : body_events marked_db = body_events db ++ [body_row].
Proof using Hk.
  change (body_events marked_db)
    with (body_events (insert_event db body_row (canonical_headers hs))).
  rewrite body_events_insert. unfold body_row. by rewrite is_body_signed, Hk.
Qed.

Lemma commit_mark :
  mark_retention_started_tx (db_seq db + 1)
    (set_cas (retained_cas db body) (db_floor db)
       (set_stage body stage_ct meta (insert_event db body_row (canonical_headers hs))))
  = Ok marked_db.
Proof using Hwf Hpre Hk.
  change (db_seq db + 1)%Z with (ev_id body_row).
  rewrite (mark_retention_Ok db _ body_row Hwf (pv_retained _ _ _ Hpre)).
  - done.
  - apply body_events_marked.
  - done.
  - cbn. lia.
Qed.

Lemma marked_wf : db_wf marked_db.
Proof using Hwf Hseq Hmeta.
  assert (db_wf (insert_event db body_row (canonical_headers hs))) as Hwf'.
  { apply insert_event_wf; [done|]. cbn. lia. }
  destruct Hwf'. by split.
Qed.

Lemma marked_floor_pos : (0 < started_floor db (db_seq db + 1))%Z.
Proof using Hwf Hpre.
  clear Hn Hseq. pose proof (wf_seq _ Hwf). pose proof (pv_retained _ _ _ Hpre) as Hr.
  unfold started_floor, retention_valid in *. destruct (db_floor db); cbn; [tauto|lia].
Qed.

Lemma commit_prune :
  prune_to_count_tx n marked_db
  = Ok ({| pruned_bytes := sum_len commit_pruned |}, committed_db).
Proof using All.
  rewrite (prune_spec n marked_db (started_floor db (db_seq db + 1)) marked_wf Hn eq_refl
             marked_floor_pos). done.
Qed.

Lemma marked_retention : retention_valid marked_db.
Proof using All.
  eapply (retention_push db marked_db body_row body); try done; [apply Hpre|apply body_events_marked|].
  cbn. lia.
Qed.

Lemma committed_retention : retention_valid committed_db.
Proof using All.
  pose proof marked_retention as Hr. unfold committed_db, commit_pruned.
  assert (db_floor marked_db = Some (started_floor db (db_seq db + 1))) as Hf by done.
  destruct (Z.ltb_spec (started_floor db (db_seq db + 1)) commit_floor) as [Hlt|Hge].
  - eapply retention_raise; [exact Hf|done|done|]. apply pruned_floor_elem.
    unfold retention_valid in Hr. rewrite Hf in Hr. tauto.
  - assert (commit_floor = started_floor db (db_seq db + 1)) as ->.
    { unfold commit_floor, pruned_floor in *. lia. }
    rewrite map_difference_empty, <- Hf, set_cas_same. done.
Qed.

Lemma committed_valid : chain_valid w key committed_db /\ db_wf committed_db.
Proof using All.
  pose proof marked_wf as Hmw.
  destruct (append_links (authority key w db) now k w (sha256_hex body) (slen body) ct hs db
              Hwf Hnow Hseq (signable_body _ _ _ _ Hk) (pv_links _ _ _ Hpre)) as [Hl _].
  split; [|destruct Hmw; by split]. split.
  - apply Hpre.
  - intros x b Hb. cbn in Hb. apply lookup_difference_Some in Hb as [Hb _].
    by apply (retained_cas_ok db body (pv_cas _ _ _ Hpre) Hfits).
  - exact Hl.
  - apply committed_retention.
  - unfold live_valid. change (body_events committed_db) with (body_events marked_db).
    rewrite body_events_marked, last_snoc. cbn. split; [done|].
    destruct Hfits. lia.
  - cbn. by destruct (db_events db).
Qed.

Lemma committed_latest : latest_hmac committed_db = Some (ev_hmac body_row).
Proof. unfold latest_hmac. cbn [committed_db set_cas marked_db set_stage insert_event set_events
  db_events]. by rewrite last_snoc. Qed.
End Commit.
End BodyTx.
