(* ===== verification/WriteTheorems.v ===== *)
(** * The write transactions: correctness theorems

    The verifier is the specification, and a replace of an intact file succeeds
    exactly when its transaction can commit. *)

From S2P Require Import Prelude.
From S2P Require Import RustStr.
From S2P Require Import Path.
From S2P Require Import Auth.
From S2P Require Import Crypto.
From S2P Require Import Types.
From S2P Require Import Db.
From S2P Require Import AuditVerify.
From S2P Require Import AuditGates.
From S2P Require Import AuditAppend.
From S2P Require Import Cas.
From S2P Require Import WorldWrite.
From S2P Require Import ChainSpec.
From S2P Require Import ChainValid.
From S2P Require Import GateProofs.
From S2P Require Import CasProofs.
From S2P Require Import WriteProofs.
From Stdlib Require Import Ascii.

Section Theorems.
Context `{CryptoLaws}.

Lemma opening_existing w key db :
  chain_valid w key db -> audit_chain_opening db Existing = OpenExisting.
Proof.
  intros Hv. unfold audit_chain_opening, is_empty_bootstrap_tx.
  destruct (Z.eqb_spec (event_count db) 0) as [Hz|]; [|done].
  apply event_count_zero in Hz. by destruct (cv_some _ _ _ Hv).
Qed.

Definition earned_prefix (cache : AuditVerificationCache) (w : string)
  : option VerifiedAuditPrefix :=
  if bool_decide (w ∈ cache) then None else Some {| vp_world := w |}.

(** Whichever gate the cache selects, an intact file passes it. *)
Lemma gate_existing w key db cache :
  db_wf db -> chain_valid w key db ->
  verify_appendable_world_tx db cache w key Existing
  = Ok (authority key w db, false, earned_prefix cache w).
Proof.
  intros Hwf Hv. unfold verify_appendable_world_tx, verified_prefix, earned_prefix.
  rewrite (opening_existing _ _ _ Hv). case_bool_decide.
  - by rewrite tail_gate_accepts.
  - by rewrite append_gate_accepts.
Qed.

(** What a write of a body needs besides an intact file. *)
Definition can_commit (db : world_db) (body now : string) : Prop :=
  fits db body /\ is_canonical_sqlite_utc_timestamp now = true /\ (db_seq db < i64_max)%Z.

Definition write_result (opened : OpenedWorldKind) (fe : option AppendedAuditRow)
    (w key : string) (db : world_db) (body ct : string) (hs : list (string * string))
    (now : string) (n : Z) : WriteAuditResult :=
  {| wr_hmac := ev_hmac (body_row w key db body Put ct hs now);
     wr_cas_body_inserted := rc_inserted (body_retained w db body);
     wr_pruned_cas :=
       {| pruned_bytes := sum_len (commit_pruned w key db body Put ct hs now n ct hs) |};
     wr_format_event := fe;
     wr_body_event := body_appended w key db body Put ct hs now;
     wr_existed := match opened with Existing => true | Created => false end |}.

(** The part of a replace after the gate and the format row. *)
Definition write_rest (opened : OpenedWorldKind) (atx : VerifiedAuditTx)
    (fe : option AppendedAuditRow) (cache : AuditVerificationCache)
    (w body ct : string) (hs : list (string * string)) (n : Z) (now : string) (db : world_db)
  : result WriteAuditError (WriteAuditResult * AuditVerificationCache * world_db) :=
  '(retained, db) ← retain_body_tx w body db;
  meta ← sqlite (insert_meta_headers [] hs);
  let db := set_stage body ct meta db in
  '(row, db) ← sqlite (append_retained_body_tx_row atx now Put retained ct hs db);
  db ← mark_retention_started_tx (ar_id (br_row row)) db;
  '(pruned, db) ← prune_to_count_tx n db;
  Ok ({| wr_hmac := ar_hmac (br_row row); wr_cas_body_inserted := rc_inserted retained;
         wr_pruned_cas := pruned; wr_format_event := fe; wr_body_event := row;
         wr_existed := match opened with Existing => true | Created => false end |},
      cache, db).

Lemma write_rest_Ok opened fe cache w key body ct hs n now db :
  db_wf db -> pre_valid w key db -> (0 < n <= i64_max)%Z ->
  can_commit db body now -> NoDup hs.*1 ->
  write_rest opened (authority key w db) fe cache w body ct hs n now db
  = Ok (write_result opened fe w key db body ct hs now n, cache,
        committed_db w key db body Put ct hs now n ct hs).
Proof.
  intros Hwf Hpre Hn (Hfit & Hnow & Hseq) Hd. unfold write_rest.
  rewrite retain_body_Ok by done. cbn [mbind result_bind].
  rewrite insert_meta_headers_NoDup by done. cbn [sqlite map_err mbind result_bind app].
  fold (body_retained w db body). rewrite commit_append by done.
  cbn [sqlite map_err mbind result_bind br_row body_appended ar_id].
  rewrite (commit_mark w key) by done. cbn [mbind result_bind].
  by rewrite commit_prune.
Qed.

Lemma write_rest_inv opened fe cache w key body ct hs n now db r :
  db_wf db -> write_rest opened (authority key w db) fe cache w body ct hs n now db = Ok r ->
  can_commit db body now /\ NoDup hs.*1.
Proof.
  intros Hwf Hr. unfold write_rest in Hr. apply result_bind_Ok in Hr as ([rc db2] & Hrc & Hr).
  pose proof (retain_body_inv _ _ _ _ Hrc) as Hfit. rewrite retain_body_Ok in Hrc by done.
  injection Hrc as <- <-. apply result_bind_Ok in Hr as (meta & Hm & Hr).
  apply map_err_Ok, insert_meta_headers_Ok in Hm as [-> Hd]. cbn [app] in *.
  specialize (Hd (NoDup_nil_2)). apply result_bind_Ok in Hr as ([row db4] & Ha & _).
  apply map_err_Ok in Ha. unfold append_retained_body_tx_row in Ha. inv_ok.
  match goal with Hi : append_tx_inner _ _ _ _ _ _ _ _ _ = Ok _ |- _ =>
    apply append_tx_inner_inv in Hi as [Hnow Hseq] end; [by split|].
  destruct Hwf. by split.
Qed.

Lemma write_existing_rest w key db cache body ct hs n nowf now :
  db_wf db -> chain_valid w key db ->
  write_with_audit_checked_retaining_on_conn Existing cache w body ct hs key n nowf now db
  = write_rest Existing (authority key w db) None
      (cache_prefix (earned_prefix cache w) cache) w body ct hs n now db.
Proof.
  intros Hwf Hv. unfold write_with_audit_checked_retaining_on_conn.
  rewrite gate_existing by done. done.
Qed.

(** *** Genesis *)

Definition format_row (w key g nowf : string) : EventRow :=
  signed_row (authority key w (create g)) 1 nowf "" Format w (sha256_hex "") 0 ""
    (canonical_headers format_headers).

Definition format_db (w key g nowf : string) : world_db :=
  insert_event (create g) (format_row w key g nowf) (canonical_headers format_headers).

Definition format_appended (w key g nowf : string) : AppendedAuditRow :=
  {| ar_world := w; ar_id := 1; ar_hmac := ev_hmac (format_row w key g nowf);
     ar_generation := g; ar_event_type := Format; ar_target := w;
     ar_body_sha256 := sha256_hex ""; ar_size := 0; ar_content_type := "" |}.

Lemma format_has_version : has_format_version (canonical_headers format_headers) = true.
Proof. by vm_compute. Qed.

Lemma append_format_create w key g nowf :
  is_canonical_sqlite_utc_timestamp nowf = true ->
  append_format_tx_row (authority key w (create g)) nowf (create g)
  = Ok (format_appended w key g nowf, format_db w key g nowf).
Proof.
  intros Hnow. unfold append_format_tx_row. by rewrite append_tx_inner_Ok by (try apply create_wf; done).
Qed.

Lemma format_db_pre w key g nowf :
  WorldGeneration_new g = Ok g -> is_canonical_sqlite_utc_timestamp nowf = true ->
  pre_valid w key (format_db w key g nowf) /\ db_wf (format_db w key g nowf).
Proof.
  intros Hg Hnow.
  destruct (append_links (authority key w (create g)) nowf Format w (sha256_hex "") 0 ""
              format_headers (create g) (create_wf g) Hnow) as [Hl Hwf]; [done| |done|].
  - by apply signable_format, format_has_version.
  - split; [|done]. split; [done|by apply (create_pre_valid w key)|exact Hl|done].
Qed.

Lemma genesis_opening g opened : audit_chain_opening (create g) opened = OpenGenesis.
Proof. by destruct opened. Qed.

Lemma write_genesis_rest opened w key g cache body ct hs n nowf now :
  WorldGeneration_new g = Ok g -> is_canonical_sqlite_utc_timestamp nowf = true ->
  write_with_audit_checked_retaining_on_conn opened cache w body ct hs key n nowf now (create g)
  = write_rest opened (authority key w (format_db w key g nowf))
      (Some (format_appended w key g nowf)) (mark_verified {| vp_world := w |} cache)
      w body ct hs n now (format_db w key g nowf).
Proof.
  intros Hg Hnow. unfold write_with_audit_checked_retaining_on_conn, verify_appendable_world_tx.
  rewrite genesis_opening, genesis_gate_accepts by done. cbn [map_err mbind result_bind].
  unfold append_format_if. rewrite append_format_create by done. done.
Qed.

(** *** Appends *)

Definition append_rest (atx : VerifiedAuditTx) (fe : option AppendedAuditRow)
    (cache : AuditVerificationCache) (w chunk ct : string) (hs : list (string * string)) (n : Z)
    (now : string) (db : world_db)
  : result WriteAuditError (AppendAuditResult * string * AuditVerificationCache * world_db) :=
  let new_body := db_body db +:+ chunk in
  '(retained, db) ← retain_body_tx w new_body db;
  let db := set_stage new_body (db_content_type db) (db_meta_headers db) db in
  '(row, db) ← sqlite (append_retained_body_tx_row atx now Append retained ct hs db);
  db ← mark_retention_started_tx (ar_id (br_row row)) db;
  '(pruned, db) ← prune_to_count_tx n db;
  Ok ({| ap_cas_body_inserted := rc_inserted retained; ap_pruned_cas := pruned;
         ap_format_event := fe; ap_body_event := row |},
      ar_hmac (br_row row), cache, db).

Definition appended_db (w key : string) (db : world_db) (chunk ct : string)
    (hs : list (string * string)) (now : string) (n : Z) : world_db :=
  committed_db w key db (db_body db +:+ chunk) Append ct hs now n
    (db_content_type db) (db_meta_headers db).

Lemma append_rest_Ok fe cache w key chunk ct hs n now db :
  db_wf db -> pre_valid w key db -> (0 < n <= i64_max)%Z ->
  can_commit db (db_body db +:+ chunk) now ->
  append_rest (authority key w db) fe cache w chunk ct hs n now db
  = Ok ({| ap_cas_body_inserted := rc_inserted (body_retained w db (db_body db +:+ chunk));
           ap_pruned_cas :=
             {| pruned_bytes := sum_len (commit_pruned w key db (db_body db +:+ chunk) Append ct
                                hs now n (db_content_type db) (db_meta_headers db)) |};
           ap_format_event := fe;
           ap_body_event := body_appended w key db (db_body db +:+ chunk) Append ct hs now |},
        ev_hmac (body_row w key db (db_body db +:+ chunk) Append ct hs now), cache,
        appended_db w key db chunk ct hs now n).
Proof.
  intros Hwf Hpre Hn (Hfit & Hnow & Hseq). pose proof (wf_meta _ Hwf) as Hd.
  unfold append_rest. rewrite retain_body_Ok by done. cbn [mbind result_bind].
  fold (body_retained w db (db_body db +:+ chunk)).
  change (db_content_type (set_cas _ _ db)) with (db_content_type db).
  change (db_meta_headers (set_cas _ _ db)) with (db_meta_headers db).
  rewrite commit_append by done.
  cbn [sqlite map_err mbind result_bind br_row body_appended ar_id].
  rewrite (commit_mark w key) by done. cbn [mbind result_bind].
  by rewrite commit_prune.
Qed.

Lemma append_rest_inv fe cache w key chunk ct hs n now db r :
  db_wf db -> append_rest (authority key w db) fe cache w chunk ct hs n now db = Ok r ->
  can_commit db (db_body db +:+ chunk) now.
Proof.
  intros Hwf Hr. unfold append_rest in Hr. apply result_bind_Ok in Hr as ([rc db2] & Hrc & Hr).
  pose proof (retain_body_inv _ _ _ _ Hrc) as Hfit. rewrite retain_body_Ok in Hrc by done.
  injection Hrc as <- <-. apply result_bind_Ok in Hr as ([row db4] & Ha & _).
  apply map_err_Ok in Ha. unfold append_retained_body_tx_row in Ha. inv_ok.
  match goal with Hi : append_tx_inner _ _ _ _ _ _ _ _ _ = Ok _ |- _ =>
    apply append_tx_inner_inv in Hi as [Hnow Hseq] end; [by split|].
  destruct Hwf. by split.
Qed.

Lemma append_existing_rest w key db cache chunk ct hs n nowf now :
  db_wf db -> chain_valid w key db ->
  append_with_audit_retaining_on_conn cache w chunk ct hs key n nowf now db
  = append_rest (authority key w db) None
      (cache_prefix (earned_prefix cache w) cache) w chunk ct hs n now db.
Proof.
  intros Hwf Hv. unfold append_with_audit_retaining_on_conn. by rewrite gate_existing.
Qed.

(** ** What a reader sees after a commit *)

Lemma read_back w key db body k ct hs now n sct meta :
  db_wf db -> pre_valid w key db -> fits db body ->
  is_canonical_sqlite_utc_timestamp now = true -> (db_seq db < i64_max)%Z ->
  (0 < n <= i64_max)%Z -> NoDup meta.*1 -> body_bearing (class k) = true ->
  let db' := committed_db w key db body k ct hs now n sct meta in
  chain_valid w key db' /\ db_wf db' /\ require_world_intact_tx db' w key = Ok tt
  /\ read_with_hmac_via_conn db' w key
     = Ok ({| stage_body := body; stage_content_type := sct; stage_headers := sort_headers meta |},
           Some (ev_hmac (body_row w key db body k ct hs now)))
  /\ db_events db' = db_events db ++ [body_row w key db body k ct hs now].
Proof.
  intros ? ? ? ? ? ? ? ?. cbv zeta.
  destruct (committed_valid w key db body k ct hs now n sct meta) as [Hv Hw]; try done.
  split_and!; [done|done|by apply require_world_intact_spec| |done].
  unfold read_with_hmac_via_conn. rewrite tail_check_accepts by done.
  cbn [mbind result_bind]. by rewrite committed_latest.
Qed.

(** ** Claims *)

(** C18: The full verification of a world file (row loop with its accumulator,
    retention state, live body) accepts exactly the files that are intact in
    the declarative sense of [chain_valid]: every row signed over the previous
    HMAC from the empty one, the body store holding exactly the bodies of the
    retained events under their hashes and sizes, and the live body being the
    latest body event's. *)
Theorem verifier_refines_chain_valid db w key :
  db_wf db -> require_world_intact_tx db w key = Ok tt <-> chain_valid w key db.
Proof. apply require_world_intact_spec. Qed.

(** Replacing the body of an intact world succeeds exactly when the body
    fits (its length and any equal-hash body already stored), the clock gives
    a canonical timestamp, a row id is left and no header name repeats; the
    file after the commit passes full verification again, reads back exactly
    the new body, content type and (sorted) headers with the returned HMAC as
    tag, and its history is the old history plus one row. *)
Theorem replace_keeps_chain_intact w key db cache body ct hs n nowf now :
  db_wf db -> chain_valid w key db -> (0 < n <= i64_max)%Z ->
  ((exists r, write_with_audit_checked_retaining_on_conn Existing cache w body ct hs key n
                nowf now db = Ok r)
   <-> can_commit db body now /\ NoDup hs.*1)
  /\ (forall res cache' db',
      write_with_audit_checked_retaining_on_conn Existing cache w body ct hs key n nowf now db
      = Ok (res, cache', db') ->
      chain_valid w key db' /\ db_wf db' /\ require_world_intact_tx db' w key = Ok tt
      /\ read_with_hmac_via_conn db' w key
         = Ok ({| stage_body := body; stage_content_type := ct;
                  stage_headers := sort_headers hs |}, Some (wr_hmac res))
      /\ (exists row, db_events db' = db_events db ++ [row]) /\ w ∈ cache').
Proof.
  intros Hwf Hv Hn. rewrite write_existing_rest by done.
  pose proof (chain_valid_pre _ _ _ Hv) as Hpre. split; [split|].
  - intros [r Hr]. by eapply write_rest_inv.
  - intros [Hc Hd]. rewrite write_rest_Ok by done. by eexists.
  - intros res cache' db' Hr. destruct (write_rest_inv _ _ _ _ _ _ _ _ _ _ _ _ Hwf Hr) as [Hc Hd].
    rewrite write_rest_Ok in Hr by done. injection Hr as <- <- <-. destruct Hc as (Hf & Hnow & Hs).
    destruct (read_back w key db body Put ct hs now n ct hs) as (? & ? & ? & ? & ?); try done.
    split_and!; try done; [by eexists|].
    unfold earned_prefix, cache_prefix, mark_verified. case_bool_decide; cbn; set_solver.
Qed.
End Theorems.
