(* ===== verification/Reachable.v ===== *)
(** * World files as a state machine

    A durable world's file starts with the genesis write into a fresh schema and
    changes only by committed replace and append transactions.  Every reachable
    file is intact, and history only grows. *)

From S2P Require Import Prelude.
From S2P Require Import RustStr.
From S2P Require Import Path.
From S2P Require Import Auth.
From S2P Require Import Crypto.
From S2P Require Import Types.
From S2P Require Import Db.
From S2P Require Import AuditVerify.
From S2P Require Import AuditGates.
From S2P Require Import AuditAppend.
From S2P Require Import Cas.
From S2P Require Import WorldWrite.
From S2P Require Import ChainSpec.
From S2P Require Import ChainValid.
From S2P Require Import GateProofs.
From S2P Require Import CasProofs.
From S2P Require Import WriteProofs.
From S2P Require Import WriteTheorems.
From Stdlib Require Import Ascii.

Section Reachable.
Context `{CryptoLaws}.
Context (w key : string).

(** One committed transaction on an existing file. *)
Inductive world_step (db db' : world_db) : Prop :=
| step_replace cache body ct hs n nowf now res cache'
    (Hn : (0 < n <= i64_max)%Z)
    (Hok : write_with_audit_checked_retaining_on_conn Existing cache w body ct hs key n
             nowf now db = Ok (res, cache', db'))
| step_append cache chunk ct hs n nowf now res hmac cache'
    (Hn : (0 < n <= i64_max)%Z)
    (Hok : append_with_audit_retaining_on_conn cache w chunk ct hs key n nowf now db
           = Ok (res, hmac, cache', db')).

(** The genesis transaction, in a file just created or found empty. *)
Inductive world_genesis (db' : world_db) : Prop :=
| genesis opened cache g body ct hs n nowf now res cache'
    (Hg : WorldGeneration_new g = Ok g)
    (Hn : (0 < n <= i64_max)%Z)
    (Hok : write_with_audit_checked_retaining_on_conn opened cache w body ct hs key n
             nowf now (create g) = Ok (res, cache', db')).

Inductive reachable : world_db -> Prop :=
| reach_genesis db : world_genesis db -> reachable db
| reach_step db db' : reachable db -> world_step db db' -> reachable db'.

Lemma write_genesis_now opened cache g body ct hs n nowf now r :
  WorldGeneration_new g = Ok g ->
  write_with_audit_checked_retaining_on_conn opened cache w body ct hs key n nowf now (create g)
  = Ok r -> is_canonical_sqlite_utc_timestamp nowf = true.
Proof.
  intros Hg. unfold write_with_audit_checked_retaining_on_conn, verify_appendable_world_tx.
  rewrite genesis_opening, genesis_gate_accepts by done. cbn [map_err mbind result_bind].
  unfold append_format_if, append_format_tx_row. intros Hr.
  apply result_bind_Ok in Hr as ([fe db1] & Hf & _).
  apply result_bind_Ok in Hf as ([row db2] & Hf & _). apply map_err_Ok in Hf.
  by apply append_tx_inner_inv in Hf as [Hnow _]; [|apply create_wf].
Qed.

(** A genesis commit leaves a verified file with a format row and a body row. *)
Lemma genesis_intact opened cache g body ct hs n nowf now res cache' db' :
  WorldGeneration_new g = Ok g -> (0 < n <= i64_max)%Z ->
  write_with_audit_checked_retaining_on_conn opened cache w body ct hs key n nowf now (create g)
  = Ok (res, cache', db') ->
  chain_valid w key db' /\ db_wf db' /\ require_world_intact_tx db' w key = Ok tt
  /\ read_with_hmac_via_conn db' w key
     = Ok ({| stage_body := body; stage_content_type := ct; stage_headers := sort_headers hs |},
           Some (wr_hmac res))
  /\ ev_event_type <$> db_events db' = ["format"; "put"].
Proof.
  intros Hg Hn Hr. pose proof (write_genesis_now _ _ _ _ _ _ _ _ _ _ Hg Hr) as Hnf.
  rewrite write_genesis_rest in Hr by done.
  destruct (format_db_pre w key g nowf Hg Hnf) as [Hpre Hwf].
  destruct (write_rest_inv _ _ _ _ _ _ _ _ _ _ _ _ Hwf Hr) as [(Hf & Hnow & Hs) Hd].
  rewrite write_rest_Ok in Hr by done. injection Hr as <- _ <-.
  destruct (read_back w key (format_db w key g nowf) body Put ct hs now n ct hs)
    as (? & ? & ? & ? & _); done.
Qed.

Lemma append_intact cache chunk ct hs n nowf now db res hmac cache' db' :
  db_wf db -> chain_valid w key db -> (0 < n <= i64_max)%Z ->
  append_with_audit_retaining_on_conn cache w chunk ct hs key n nowf now db
  = Ok (res, hmac, cache', db') ->
  chain_valid w key db' /\ db_wf db' /\ require_world_intact_tx db' w key = Ok tt
  /\ read_with_hmac_via_conn db' w key
     = Ok ({| stage_body := db_body db +:+ chunk; stage_content_type := db_content_type db;
              stage_headers := sort_headers (db_meta_headers db) |}, Some hmac)
  /\ exists row, db_events db' = db_events db ++ [row].
Proof.
  intros Hwf Hv Hn Hr. rewrite append_existing_rest in Hr by done.
  pose proof (chain_valid_pre _ _ _ Hv) as Hpre.
  pose proof (append_rest_inv _ _ _ _ _ _ _ _ _ _ _ Hwf Hr) as (Hf & Hnow & Hs).
  rewrite append_rest_Ok in Hr by done. injection Hr as <- <- _ <-.
  destruct (read_back w key db (db_body db +:+ chunk) Append ct hs now n
              (db_content_type db) (db_meta_headers db)) as (? & ? & ? & ? & ?);
    try done; [apply (wf_meta _ Hwf)|]. split_and!; try done. by eexists.
Qed.

Lemma replace_intact cache body ct hs n nowf now db res cache' db' :
  db_wf db -> chain_valid w key db -> (0 < n <= i64_max)%Z ->
  write_with_audit_checked_retaining_on_conn Existing cache w body ct hs key n nowf now db
  = Ok (res, cache', db') ->
  chain_valid w key db' /\ db_wf db' /\ exists row, db_events db' = db_events db ++ [row].
Proof.
  intros Hwf Hv Hn Hr. rewrite write_existing_rest in Hr by done.
  pose proof (chain_valid_pre _ _ _ Hv) as Hpre.
  destruct (write_rest_inv _ _ _ _ _ _ _ _ _ _ _ _ Hwf Hr) as [(Hf & Hnow & Hs) Hd].
  rewrite write_rest_Ok in Hr by done. injection Hr as <- _ <-.
  destruct (read_back w key db body Put ct hs now n ct hs) as (? & ? & _ & _ & ?); try done.
  split_and!; try done. by eexists.
Qed.

Lemma step_intact db db' :
  db_wf db -> chain_valid w key db -> world_step db db' ->
  chain_valid w key db' /\ db_wf db' /\ exists row, db_events db' = db_events db ++ [row].
Proof.
  intros Hwf Hv [].
  - by eapply replace_intact.
  - destruct (append_intact _ _ _ _ _ _ _ _ _ _ _ _ Hwf Hv Hn Hok) as (? & ? & _ & _ & ?). done.
Qed.

Lemma reachable_valid db : reachable db -> chain_valid w key db /\ db_wf db.
Proof.
  induction 1 as [db []|db db' _ [Hv Hwf] Hs].
  - destruct (genesis_intact _ _ _ _ _ _ _ _ _ _ _ _ Hg Hn Hok) as (? & ? & _). done.
  - by destruct (step_intact _ _ Hwf Hv Hs) as (? & ? & _).
Qed.

Lemma steps_history db db' :
  reachable db -> rtc world_step db db' ->
  reachable db' /\ db_events db `prefix_of` db_events db'.
Proof.
  intros Hr Hs. induction Hs as [db|db db1 db' Hs _ IH]; [done|].
  destruct (reachable_valid _ Hr) as [Hv Hwf].
  destruct (step_intact _ _ Hwf Hv Hs) as (_ & _ & row & He).
  destruct IH as [Hr' Hp]; [by eapply reach_step|]. split; [done|].
  etrans; [|exact Hp]. rewrite He. by eexists.
Qed.

(** ** Claims *)

(** Creating a world (the genesis write into an empty file) leaves a file
    that passes full verification, reads back what was written and whose
    history is the format row followed by the put row. *)
Theorem create_world_intact opened cache g body ct hs n nowf now res cache' db' :
  WorldGeneration_new g = Ok g -> (0 < n <= i64_max)%Z ->
  write_with_audit_checked_retaining_on_conn opened cache w body ct hs key n nowf now (create g)
  = Ok (res, cache', db') ->
  require_world_intact_tx db' w key = Ok tt
  /\ read_with_hmac_via_conn db' w key
     = Ok ({| stage_body := body; stage_content_type := ct; stage_headers := sort_headers hs |},
           Some (wr_hmac res))
  /\ ev_event_type <$> db_events db' = ["format"; "put"].
Proof.
  intros Hg Hn Hr. by destruct (genesis_intact _ _ _ _ _ _ _ _ _ _ _ _ Hg Hn Hr) as (_ & _ & ?).
Qed.

(** Appending to an intact world leaves an intact file whose body is the
    old body followed by the new bytes, with content type and headers kept and
    the returned HMAC as tag. *)
Theorem append_keeps_chain_intact cache chunk ct hs n nowf now db res hmac cache' db' :
  db_wf db -> chain_valid w key db -> (0 < n <= i64_max)%Z ->
  append_with_audit_retaining_on_conn cache w chunk ct hs key n nowf now db
  = Ok (res, hmac, cache', db') ->
  require_world_intact_tx db' w key = Ok tt
  /\ read_with_hmac_via_conn db' w key
     = Ok ({| stage_body := db_body db +:+ chunk; stage_content_type := db_content_type db;
              stage_headers := sort_headers (db_meta_headers db) |}, Some hmac)
  /\ exists row, db_events db' = db_events db ++ [row].
Proof.
  intros Hwf Hv Hn Hr.
  by destruct (append_intact _ _ _ _ _ _ _ _ _ _ _ _ Hwf Hv Hn Hr) as (_ & _ & ?).
Qed.

(** Along every run of committed writes and appends from a genesis, the
    file passes full verification at each point and the history at an earlier
    point is a prefix of the history at every later one: no committed
    transaction rewrites or drops an audit row. *)
Theorem run_intact_and_append_only db db' :
  reachable db -> rtc world_step db db' ->
  require_world_intact_tx db' w key = Ok tt /\ db_events db `prefix_of` db_events db'.
Proof.
  intros Hr Hs. destruct (steps_history _ _ Hr Hs) as [Hr' Hp]. split; [|done].
  destruct (reachable_valid _ Hr') as [Hv Hwf]. by apply require_world_intact_spec.
Qed.
End Reachable.
