(* ===== verification/Demo.v ===== *)
(** * A concrete world, and the write theorems applied to it

    The world [home/a] is created, then replaced and appended to with the
    concrete hash of [Crypto.v]. *)

From S2P Require Import Prelude.
From S2P Require Import RustStr.
From S2P Require Import Path.
From S2P Require Import Auth.
From S2P Require Import Crypto.
From S2P Require Import Types.
From S2P Require Import Db.
From S2P Require Import AuditVerify.
From S2P Require Import AuditGates.
From S2P Require Import AuditAppend.
From S2P Require Import Cas.
From S2P Require Import WorldWrite.
From S2P Require Import ChainSpec.
From S2P Require Import ChainValid.
From S2P Require Import GateProofs.
From S2P Require Import CasProofs.
From S2P Require Import WriteProofs.
From S2P Require Import WriteTheorems.
From S2P Require Import Reachable.

Definition demo_key : string := "0123456789abcdef0123456789abcdef".
Definition demo_gen : string := "00000000000000000000000000000001".
Definition demo_now : string := "2024-01-01T00:00:00.000Z".
Definition demo_headers : list (string * string) := [("x-b", "2"); ("x-a", "1")].

(** The file a transaction leaves. *)
Definition file_after {A B} (db : world_db) (r : result B (A * world_db)) : world_db :=
  match r with Ok p => snd p | Err _ => db end.

Lemma file_after_ok {A B} db (r : result B (A * world_db)) :
  is_ok r = true -> exists a, r = Ok (a, file_after db r).
Proof. destruct r as [[a d]|e]; [by exists a|done]. Qed.

Definition demo_create :=
  write_with_audit_checked_retaining_on_conn Created ∅ "home/a" "hello" "text/plain"
    demo_headers demo_key 2 demo_now demo_now (create demo_gen).

Definition demo_db : world_db :=
  file_after (create demo_gen) demo_create.

Definition demo_replace :=
  write_with_audit_checked_retaining_on_conn Existing {["home/a"]} "home/a" "hi" "text/plain"
    [] demo_key 2 demo_now demo_now demo_db.

Definition demo_db2 : world_db :=
  file_after demo_db demo_replace.

Definition demo_append :=
  append_with_audit_retaining_on_conn ∅ "home/a" " world" "text/plain" [] demo_key
    2 demo_now demo_now demo_db.

Lemma demo_create_ok : exists a, demo_create = Ok (a, demo_db).
Proof. apply (file_after_ok (create demo_gen) demo_create). evaluate. Qed.

Lemma demo_replace_ok : exists a, demo_replace = Ok (a, demo_db2).
Proof. apply (file_after_ok demo_db demo_replace). evaluate. Qed.

Lemma demo_append_ok : exists a, demo_append = Ok (a, file_after demo_db demo_append).
Proof. apply (file_after_ok demo_db demo_append). evaluate. Qed.

Lemma demo_reachable : reachable "home/a" demo_key demo_db.
Proof.
  destruct demo_create_ok as ([res c] & Hok). apply reach_genesis.
  apply (genesis "home/a" demo_key demo_db Created ∅ demo_gen "hello" "text/plain"
           demo_headers 2 demo_now demo_now res c); [evaluate|evaluate|].
  exact Hok.
Qed.

Lemma demo_valid : chain_valid "home/a" demo_key demo_db /\ db_wf demo_db.
Proof. apply reachable_valid, demo_reachable. Qed.

Lemma demo_step : world_step "home/a" demo_key demo_db demo_db2.
Proof.
  destruct demo_replace_ok as ([res c] & Hok).
  apply (step_replace "home/a" demo_key demo_db demo_db2 {["home/a"]} "hi" "text/plain" [] 2
           demo_now demo_now res c); [evaluate|]. exact Hok.
Qed.

Lemma demo_valid2 : chain_valid "home/a" demo_key demo_db2 /\ db_wf demo_db2.
Proof. apply reachable_valid. eapply reach_step; [apply demo_reachable|apply demo_step]. Qed.

Lemma verifier_refines_chain_valid_witness :
  require_world_intact_tx demo_db "home/a" demo_key = Ok tt.
Proof.
  destruct demo_valid as [Hv Hwf].
  apply (verifier_refines_chain_valid demo_db "home/a" demo_key Hwf). exact Hv.
Defined.

Lemma replace_keeps_chain_intact_witness :
  exists r, write_with_audit_checked_retaining_on_conn Existing ∅ "home/a" "bye" "text/plain"
              [] demo_key 1 demo_now demo_now demo_db = Ok r.
Proof.
  destruct demo_valid as [Hv Hwf].
  destruct (replace_keeps_chain_intact "home/a" demo_key demo_db ∅ "bye" "text/plain" [] 1
              demo_now demo_now Hwf Hv) as [Hiff _]; [evaluate|].
  apply Hiff. split; [|constructor]. split; [|split; evaluate].
  split; [evaluate|]. intros b Hb. vm_compute in Hb. discriminate Hb.
Defined.

Lemma create_world_intact_witness :
  require_world_intact_tx demo_db "home/a" demo_key = Ok tt.
Proof.
  destruct demo_create_ok as ([res c] & Hok).
  apply (create_world_intact "home/a" demo_key Created ∅ demo_gen "hello" "text/plain"
           demo_headers 2 demo_now demo_now res c demo_db); [evaluate|evaluate|].
  exact Hok.
Defined.

Lemma append_keeps_chain_intact_witness :
  require_world_intact_tx (file_after demo_db demo_append) "home/a" demo_key = Ok tt.
Proof.
  destruct demo_valid as [Hv Hwf]. destruct demo_append_ok as ([[res h] c] & Hok).
  apply (append_keeps_chain_intact "home/a" demo_key ∅ " world" "text/plain" [] 2 demo_now
           demo_now demo_db res h c _ Hwf Hv); [evaluate|].
  exact Hok.
Defined.

Lemma run_intact_and_append_only_witness :
  require_world_intact_tx demo_db2 "home/a" demo_key = Ok tt
  /\ db_events demo_db `prefix_of` db_events demo_db2.
Proof.
  apply (run_intact_and_append_only "home/a" demo_key demo_db demo_db2 demo_reachable).
  apply rtc_once, demo_step.
Defined.
