(* ===== verification/ChainTheorems.v ===== *)
(** * What a verified chain proves

    Gates accept intact files; heads and stamps name the signed rows; a stamp
    binds the whole history below it up to an explicit hash collision. *)

From S2P Require Import Prelude.
From S2P Require Import RustStr.
From S2P Require Import Path.
From S2P Require Import Auth.
From S2P Require Import Crypto.
From S2P Require Import Types.
From S2P Require Import Db.
From S2P Require Import AuditVerify.
From S2P Require Import AuditGates.
From S2P Require Import AuditAppend.
From S2P Require Import Cas.
From S2P Require Import WorldWrite.
From S2P Require Import ChainSpec.
From S2P Require Import ChainValid.
From S2P Require Import GateProofs.
From S2P Require Import CasProofs.
From S2P Require Import WriteProofs.
From S2P Require Import WriteTheorems.
From S2P Require Import Reachable.
From S2P Require Import Demo.
From Stdlib Require Import Ascii.

Section Stamps.
Context `{CryptoLaws}.

(** ** The captured stamp *)

Lemma verify_retained_body_capture row k idx ret st st' :
  verify_retained_body row k idx ret st = Ok st' ->
  va_capture_at st' = va_capture_at st /\ va_captured st' = va_captured st
  /\ va_events st' = va_events st.
Proof.
  unfold verify_retained_body, retained_first_body. destruct (first_retained_seq ret) as [f|];
    [|by intros [= <-]]. intros Hv. apply result_bind_Ok in Hv as (st1 & H1 & Hv).
  assert (va_capture_at st1 = va_capture_at st /\ va_captured st1 = va_captured st
          /\ va_events st1 = va_events st) as (<- & <- & <-).
  { destruct (_ && _); [|by injection H1 as <-].
    destruct (TimelineSeq_new _); [by injection H1 as <-|done]. }
  repeat (case_match_in Hv; try done); by injection Hv as <-.
Qed.

(** The stamp a walk has captured after the events [l], counted from [n]. *)
Definition stamp_at (g : string) (seq n : Z) (l : list EventRow) (c : option CapturedStampCandidate)
  : option CapturedStampCandidate :=
  match (if bool_decide (n < seq)%Z then l !! Z.to_nat (seq - n - 1) else None) with
  | Some row => Some {| cs_generation := g; cs_seq := seq; cs_hmac := hmac_label (ev_hmac row) |}
  | None => c
  end.

Lemma verify_events_capture key w g ret l st st' seq :
  verify_events key w g ret l st = Ok st' -> va_capture_at st = Some seq -> (0 <= va_events st)%Z ->
  (0 < seq)%Z ->
  va_captured st' = stamp_at g seq (va_events st) (fst <$> l) (va_captured st).
Proof.
  revert st. induction l as [|[row hs] l IH]; intros st; cbn [verify_events].
  - intros [= <-] _ _ _. unfold stamp_at. by case_bool_decide.
  - intros Hv Hc Hn Hs. apply result_bind_Ok in Hv as (st1 & Hv & Hrest).
    unfold verify_event in Hv. inv_ok.
    match goal with Hr : verify_retained_body _ _ _ _ _ = Ok ?s |- _ =>
      apply verify_retained_body_capture in Hr as (Hc1 & Hc2 & Hc3); rename s into st2 end.
    rewrite (IH _ Hrest); [|cbn; by rewrite Hc1|cbn; lia|done].
    cbn [note_event va_events va_captured]. rewrite Hc1, Hc, Hc2, Hc3. unfold stamp_at, usize_try_from.
    rewrite (proj2 (Z.leb_le 0 seq)) by lia. cbn [fmap list_fmap fst].
    destruct (decide (va_events st + 1 < seq)%Z) as [Hlt|Hge].
    + rewrite (bool_decide_true (va_events st + 1 < seq)%Z), (bool_decide_true (va_events st < seq)%Z),
        (bool_decide_false (Some seq = _)) by (first [lia|intros [=]; lia]).
      replace (Z.to_nat (seq - va_events st - 1))
        with (S (Z.to_nat (seq - (va_events st + 1) - 1))) by lia. done.
    + rewrite (bool_decide_false (va_events st + 1 < seq)%Z) by lia.
      destruct (decide (va_events st + 1 = seq)%Z) as [<-|Hne].
      * rewrite bool_decide_true by done. rewrite bool_decide_true by lia.
        by replace (Z.to_nat (va_events st + 1 - va_events st - 1)) with 0%nat by lia.
      * rewrite bool_decide_false by (intros [=]; lia). by rewrite bool_decide_false by lia.
Qed.

Lemma walk_capture db key w g seq st :
  db_wf db -> (0 < seq)%Z ->
  walk key w g (ret_of db) (Some seq) (audit_select db) = Ok st ->
  va_captured st
  = (fun row => {| cs_generation := g; cs_seq := seq; cs_hmac := hmac_label (ev_hmac row) |})
      <$> db_events db !! Z.to_nat (seq - 1).
Proof.
  intros Hwf Hs. rewrite walk_events by done. intros Hw. inv_ok.
  match goal with Hv : verify_events _ _ _ _ _ _ = Ok _ |- _ =>
    rewrite (verify_events_capture _ _ _ _ _ _ _ seq Hv) by (done || lia) end.
  rewrite fst_events_with_headers. unfold stamp_at. cbn [init_state va_events va_captured].
  rewrite bool_decide_true by done. replace (seq - 0 - 1)%Z with (seq - 1)%Z by lia.
  by destruct (db_events db !! _).
Qed.

Lemma load_intact w key db : chain_valid w key db -> load db = Ok (ret_of db).
Proof.
  intros Hv. apply load_inner_Ok. split_and!; [done| |apply Hv].
  eapply retention_floor_ok, cv_retained, Hv.
Qed.

Lemma head_and_stamp w key db seq :
  db_wf db -> chain_valid w key db -> (0 < seq)%Z ->
  chain_head_via_conn db w key
  = Ok (Some {| st_generation := db_generation db; st_seq := event_count db;
                st_hmac := hmac_label (default "" (latest_hmac db)) |})
  /\ chain_stamp_via_conn db w seq key
     = Ok (match db_events db !! Z.to_nat (seq - 1) with
           | Some row => StampFound {| st_generation := db_generation db; st_seq := seq;
                                       st_hmac := hmac_label (ev_hmac row) |}
           | None => StampMissing (db_generation db) seq (event_count db)
           end).
Proof.
  intros Hwf Hv Hs. destruct (chain_valid_shape _ _ _ Hv) as [Hsh Hfl].
  unfold chain_head_via_conn, chain_stamp_via_conn, storage.
  rewrite (proj2 (generation_Ok db _) (conj eq_refl (cv_gen _ _ _ Hv))), (load_intact _ _ _ Hv).
  cbn [map_err mbind result_bind].
  assert (event_count db <> 0%Z) as Hne.
  { rewrite event_count_zero. apply Hv. }
  assert (~ ~ (chain_ok key w (db_generation db) "" (events_with_headers db)
    /\ retention_valid db /\ (true = true \/ db_events db <> []))) as Hnn.
  { intros Hn. apply Hn. split_and!; [apply Hv|apply Hv|by left]. }
  split.
  - destruct (verify_statement_capture_spec db key true w (db_generation db) None Hwf Hsh Hfl)
      as (r & -> & [(_ & _ & _ & st & _ & _ & _ & ->)|[Hn _]]); [|by destruct Hnn].
    cbn [map_err mbind result_bind]. by rewrite bool_decide_false.
  - destruct (verify_statement_capture_spec db key true w (db_generation db) (Some seq) Hwf Hsh Hfl)
      as (r & -> & [(_ & _ & _ & st & Hw & He & _ & ->)|[Hn _]]); [|by destruct Hnn].
    cbn [map_err mbind result_bind verified_stamp_from_completed_walk fmap option_fmap option_map].
    rewrite (walk_capture _ _ _ _ _ _ Hwf Hs Hw), He. by destruct (db_events db !! _).
Qed.

(** On an intact file the chain head is the generation, the number of
    events and the labelled HMAC of the last row; the stamp at an ordinal is
    the labelled HMAC of exactly that row, and an ordinal above the event
    count is reported missing with the observed count. *)
Theorem head_and_stamp_spec w key db seq :
  db_wf db -> chain_valid w key db -> (0 < seq)%Z ->
  chain_head_via_conn db w key
  = Ok (Some {| st_generation := db_generation db; st_seq := event_count db;
                st_hmac := hmac_label (default "" (latest_hmac db)) |})
  /\ chain_stamp_via_conn db w seq key
     = Ok (match db_events db !! Z.to_nat (seq - 1) with
           | Some row => StampFound {| st_generation := db_generation db; st_seq := seq;
                                       st_hmac := hmac_label (ev_hmac row) |}
           | None => StampMissing (db_generation db) seq (event_count db)
           end).
Proof. apply head_and_stamp. Qed.

(** An intact file passes every gate: the O(1) tail check of ordinary
    reads, the full append gate and the tail append gate a cached prefix
    selects, and each returns the authority for this world and generation.  A
    process that caches a verified prefix never rejects what full
    verification accepts. *)
Theorem gates_accept_intact_file w key db cache :
  db_wf db -> chain_valid w key db ->
  require_current_tail_intact_tx db w key = Ok tt
  /\ verify_appendable_tx_full db w key Reject = Ok (authority key w db, {| vp_world := w |})
  /\ verify_appendable_tx_existing_tail_checked db {| vp_world := w |} key
     = Ok (authority key w db)
  /\ exists prefix, verify_appendable_world_tx db cache w key Existing
                    = Ok (authority key w db, false, prefix)
                    /\ w ∈ cache_prefix prefix cache.
Proof.
  intros Hwf Hv. split_and!.
  - by apply tail_check_accepts.
  - by apply append_gate_accepts.
  - by apply tail_gate_accepts.
  - exists (earned_prefix cache w). split; [by apply gate_existing|].
    unfold earned_prefix, cache_prefix, mark_verified. case_bool_decide; cbn; set_solver.
Qed.
End Stamps.

(** ** Binding *)

Section Binding.
Context `{Crypto}.

(** What the chain signs of a row: everything but its table id. *)
Definition signed_part (p : EventRow * list (string * string))
  : string * string * string * string * Z * string * string * string * string
    * list (string * string) :=
  let e := fst p in
  (ev_timestamp e, ev_event_type e, ev_target e, ev_body_sha256 e, ev_size e,
   ev_content_type e, ev_meta_sha256 e, ev_hmac e, ev_prev_hmac e, snd p).

(** The bytes the HMAC of a stored row covers. *)
Definition row_message (w g : string) (p : EventRow * list (string * string)) : string :=
  event_hmac_message (row_hmac_input w g (ev_prev_hmac (fst p)) (fst p)).

(** The two rows themselves are a collision: their HMACs are equal and the bytes
    they cover are not, or their metadata digests are equal and the bytes those
    cover are not. *)
Definition collide (key w g : string) (p p' : EventRow * list (string * string)) : Prop :=
  (row_message w g p <> row_message w g p'
   /\ Hmac_Sha256_hex key (row_message w g p) = Hmac_Sha256_hex key (row_message w g p'))
  \/ (meta_message (ev_content_type (fst p)) (snd p)
        <> meta_message (ev_content_type (fst p')) (snd p')
      /\ Sha256_hex (meta_message (ev_content_type (fst p)) (snd p))
         = Sha256_hex (meta_message (ev_content_type (fst p')) (snd p'))).

(** Rows at one ordinal of the two histories collide. *)
Definition collision (key w g : string) (l l' : list (EventRow * list (string * string))) : Prop :=
  exists i p p', l !! i = Some p /\ l' !! i = Some p' /\ collide key w g p p'.

Lemma collision_app key w g l1 l2 l1' l2' :
  collision key w g l1 l1' -> collision key w g (l1 ++ l2) (l1' ++ l2').
Proof.
  intros (i & p & p' & Hp & Hp' & Hc). exists i, p, p'.
  split_and!; [by apply lookup_app_l_Some|by apply lookup_app_l_Some|done].
Qed.

Lemma row_ok_inv key w g prev row hs :
  row_ok key w g prev row hs ->
  ev_prev_hmac row = prev
  /\ ev_hmac row = event_hmac key (row_hmac_input w g prev row)
  /\ ev_meta_sha256 row = meta_sha256_canonical (ev_content_type row) hs.
Proof.
  by intros [k []].
Qed.

(** Equal HMACs of two valid rows: equal rows and links, or these rows collide. *)
Lemma row_binding key w g prev prev' row row' hs hs' :
  row_ok key w g prev row hs -> row_ok key w g prev' row' hs' ->
  ev_hmac row = ev_hmac row' ->
  collide key w g (row, hs) (row', hs')
  \/ (prev = prev' /\ signed_part (row, hs) = signed_part (row', hs')).
Proof.
  intros (<- & Hh & Hm)%row_ok_inv (<- & Hh' & Hm')%row_ok_inv E.
  unfold event_hmac in *. unfold collide, row_message. cbn [fst snd].
  destruct (decide (event_hmac_message (row_hmac_input w g (ev_prev_hmac row) row)
                    = event_hmac_message (row_hmac_input w g (ev_prev_hmac row') row')))
    as [Em|Em].
  2: { left. left. split; [exact Em|]. by rewrite <- Hh, <- Hh'. }
  apply event_hmac_message_inj in Em. unfold row_hmac_input in Em. injection Em as E1 E2 E3 E4 E5 E6 E7 E8.
  destruct (decide (meta_message (ev_content_type row) hs
                    = meta_message (ev_content_type row') hs')) as [Em|Em].
  2: { left. right. split; [exact Em|].
       unfold meta_sha256_canonical in *. by rewrite <- Hm, <- Hm'. }
  apply meta_message_inj in Em as [_ ->]. right. unfold signed_part. cbn.
  split; [done|]. congruence.
Qed.

Lemma chain_binding key w g l l' :
  length l = length l' ->
  chain_ok key w g "" l -> chain_ok key w g "" l' ->
  last_hmac "" l = last_hmac "" l' ->
  collision key w g l l' \/ signed_part <$> l = signed_part <$> l'.
Proof.
  revert l'. induction l as [|[row hs] l IH] using rev_ind; intros l' Hlen Hc Hc' Hl.
  - destruct l'; [by right|done].
  - destruct l' as [|[row' hs'] l' _] using rev_ind; [rewrite length_app in Hlen; cbn in Hlen; lia|].
    rewrite !length_app in Hlen. cbn in Hlen.
    apply chain_ok_app in Hc as [Hc Hr], Hc' as [Hc' Hr']. cbn in Hr, Hr'.
    destruct Hr as [Hr _], Hr' as [Hr' _].
    unfold last_hmac in Hl. rewrite !last_snoc in Hl. cbn in Hl.
    destruct (row_binding _ _ _ _ _ _ _ _ _ Hr Hr' Hl) as [Hcol|[Hp Hs]].
    { left. exists (length l), (row, hs), (row', hs'). rewrite !lookup_app_r by lia.
      by replace (length l - length l)%nat with 0%nat by lia;
        replace (length l - length l')%nat with 0%nat by lia. }
    destruct (IH l') as [Hcol|Hi]; [lia|done|done|done|left; by apply collision_app|]. right.
    rewrite !fmap_app, Hi. cbn [fmap list_fmap]. by rewrite Hs.
Qed.
End Binding.

Section BindingTheorem.
Context `{CryptoLaws}.

(** What a stamp found certifies: its file's links up to the last row, and the
    label of the row's HMAC, which a signature under the key computed. *)
Lemma stamp_found w key db seq s :
  db_wf db -> (0 < seq)%Z -> chain_stamp_via_conn db w seq key = Ok (StampFound s) ->
  exists row, db_events db !! Z.to_nat (seq - 1) = Some row
    /\ st_generation s = db_generation db /\ st_hmac s = "hmac-" +:+ ev_hmac row
    /\ chain_ok key w (db_generation db) "" (events_with_headers db).
Proof.
  intros Hwf Hs. unfold chain_stamp_via_conn, storage. intros Hst.
  apply result_bind_Ok in Hst as (g & [-> Hg]%map_err_Ok%generation_Ok & Hst).
  apply result_bind_Ok in Hst as (ret & (-> & Hfl & Hcas)%map_err_Ok%load_inner_Ok & Hst).
  destruct (verify_statement_capture_spec db key true w (db_generation db) (Some seq) Hwf (cas_ok_shape _ Hcas) Hfl)
    as (r & Hr & [(Hc & _ & _ & st & Hw & _ & _ & ->)|[_ [b ->]]]); rewrite Hr in Hst; [|done].
  cbn [map_err mbind result_bind verified_stamp_from_completed_walk fmap option_fmap option_map] in Hst.
  rewrite (walk_capture _ _ _ _ _ _ Hwf Hs Hw) in Hst.
  destruct (db_events db !! Z.to_nat (seq - 1)) as [row|] eqn:Erow; [|done]. cbn in Hst. injection Hst as <-.
  exists row. cbn. do 2 (split; [done|]). split; [|done].
  destruct (chain_ok_hmac _ _ _ _ _ row (headers_of db (ev_id row)) Hc) as [i ->].
  { unfold events_with_headers. apply list_elem_of_fmap. exists row. split; [done|]. by eapply list_elem_of_lookup_2. }
  destruct (Hmac_shape key (event_hmac_message i)). by apply hmac_label_raw.
Qed.

Lemma links_up_to w key db n row :
  chain_ok key w (db_generation db) "" (events_with_headers db) -> db_events db !! n = Some row ->
  chain_ok key w (db_generation db) "" (take (S n) (events_with_headers db))
  /\ length (take (S n) (events_with_headers db)) = S n
  /\ last_hmac "" (take (S n) (events_with_headers db)) = ev_hmac row.
Proof.
  intros Hc Hr. assert (events_with_headers db !! n = Some (row, headers_of db (ev_id row))) as He.
  { unfold events_with_headers. by rewrite list_lookup_fmap, Hr. }
  rewrite <- (take_drop (S n) (events_with_headers db)) in Hc. apply chain_ok_app in Hc as [Hc _].
  split; [done|]. rewrite (take_S_r _ _ _ He). unfold last_hmac. rewrite last_snoc, length_app, length_take.
  apply lookup_lt_Some in He. cbn. split; [lia|done].
Qed.

(** C21: A remembered stamp binds history.  If two files of a world, whatever
    wrote them, give the same stamp for ordinal [seq], then they are of one
    generation, both have that row, and they agree on every signed field and
    header of all rows up to it, unless two rows at one of these ordinals
    exhibit a collision of HMAC-SHA256 under the key or of SHA-256. *)
Theorem stamp_binds_history w key db db' seq s :
  db_wf db -> db_wf db' -> (0 < seq)%Z ->
  chain_stamp_via_conn db w seq key = Ok (StampFound s) ->
  chain_stamp_via_conn db' w seq key = Ok (StampFound s) ->
  let upto d := take (Z.to_nat seq) (events_with_headers d) in
  db_generation db = db_generation db'
  /\ length (upto db) = Z.to_nat seq /\ length (upto db') = Z.to_nat seq
  /\ (collision key w (db_generation db) (upto db) (upto db')
      \/ signed_part <$> upto db = signed_part <$> upto db').
Proof.
  intros Hwf Hwf' Hseq Hs Hs'. cbn zeta. replace (Z.to_nat seq) with (S (Z.to_nat (seq - 1))) by lia.
  destruct (stamp_found _ _ _ _ _ Hwf Hseq Hs) as (row & Hr & Hg & Hl & Hc).
  destruct (stamp_found _ _ _ _ _ Hwf' Hseq Hs') as (row' & Hr' & Hg' & Hl' & Hc').
  destruct (links_up_to _ _ _ _ _ Hc Hr) as (Hk & Hn & Hh), (links_up_to _ _ _ _ _ Hc' Hr') as (Hk' & Hn' & Hh').
  rewrite <- Hg', Hg in Hk'. split; [congruence|]. split; [done|]. split; [done|].
  eapply chain_binding; [by rewrite Hn, Hn'|exact Hk|exact Hk'|]. rewrite Hh, Hh'.
  rewrite Hl in Hl'. by injection Hl'.
Qed.

Lemma step_generation w key db db' :
  reachable w key db -> world_step w key db db' -> db_generation db' = db_generation db.
Proof.
  intros Hr Hs. destruct (reachable_valid _ _ _ Hr) as [Hv Hwf].
  pose proof (chain_valid_pre _ _ _ Hv) as Hpre. destruct Hs.
  - rewrite write_existing_rest in Hok by done.
    destruct (write_rest_inv _ _ _ _ _ _ _ _ _ _ _ _ Hwf Hok) as [Hc Hd].
    rewrite write_rest_Ok in Hok by done. by injection Hok as _ _ <-.
  - rewrite append_existing_rest in Hok by done.
    pose proof (append_rest_inv _ _ _ _ _ _ _ _ _ _ _ Hwf Hok) as Hc.
    rewrite append_rest_Ok in Hok by done. by injection Hok as _ _ _ <-.
Qed.

Lemma steps_generation w key db db' :
  reachable w key db -> rtc (world_step w key) db db' -> db_generation db' = db_generation db.
Proof.
  intros Hr Hs. induction Hs as [|db db1 db' Hs _ IH]; [done|].
  rewrite IH by (by eapply reach_step). by eapply step_generation.
Qed.

(** C20: Anchors are stable and reveal rollback.  Along every run, the head
    stamp read at an earlier point is found unchanged at its ordinal at every
    later point; and a file rolled back to the earlier point, although it
    verifies, reports a later head's ordinal as missing as soon as one row
    was written in between. *)
Theorem anchor_stable_and_detects_rollback w key db db' :
  reachable w key db -> rtc (world_step w key) db db' ->
  exists stamp, chain_head_via_conn db w key = Ok (Some stamp)
    /\ chain_stamp_via_conn db' w (st_seq stamp) key = Ok (StampFound stamp)
    /\ (db_events db <> db_events db' ->
        require_world_intact_tx db w key = Ok tt
        /\ chain_stamp_via_conn db w (event_count db') key
           = Ok (StampMissing (db_generation db) (event_count db') (event_count db))).
Proof.
  intros Hr Hs. destruct (steps_history _ _ _ _ Hr Hs) as [Hr' [ext Hext]].
  pose proof (steps_generation _ _ _ _ Hr Hs) as Hg.
  destruct (reachable_valid _ _ _ Hr) as [Hv Hwf], (reachable_valid _ _ _ Hr') as [Hv' Hwf'].
  destruct (chain_valid_last _ _ _ Hv) as [e He].
  assert (0 < event_count db)%Z as Hpos.
  { pose proof (cv_some _ _ _ Hv). unfold event_count. destruct (db_events db); [done|cbn; lia]. }
  assert (event_count db' = event_count db + Z.of_nat (length ext))%Z as Hc.
  { unfold event_count. rewrite Hext, length_app. lia. }
  eexists. split; [by apply (head_and_stamp w key db (event_count db))|]. cbn [st_seq]. split.
  - rewrite (proj2 (head_and_stamp w key db' (event_count db) Hwf' Hv' Hpos)), Hg.
    rewrite last_lookup in He. unfold event_count at 1, latest_hmac.
    replace (Z.to_nat (Z.of_nat (length (db_events db)) - 1)) with (pred (length (db_events db))) by lia.
    rewrite Hext, (lookup_app_l_Some _ _ _ _ He), last_lookup, He. done.
  - intros Hne. split; [by apply require_world_intact_spec|].
    assert (0 < Z.of_nat (length ext))%Z as Hx.
    { destruct ext; [|cbn; lia]. rewrite app_nil_r in Hext. done. }
    rewrite (proj2 (head_and_stamp w key db (event_count db') Hwf Hv ltac:(lia))).
    rewrite lookup_ge_None_2; [done|]. unfold event_count in Hc. unfold event_count. lia.
Qed.
End BindingTheorem.

(** ** Witnesses *)

Lemma head_and_stamp_spec_witness :
  chain_stamp_via_conn demo_db "home/a" 3 demo_key
  = Ok (StampMissing demo_gen 3 2).
Proof.
  destruct demo_valid as [Hv Hwf].
  destruct (head_and_stamp_spec "home/a" demo_key demo_db 3 Hwf Hv) as [_ Hs]; [evaluate|].
  rewrite Hs. evaluate.
Defined.

Lemma gates_accept_intact_file_witness :
  require_current_tail_intact_tx demo_db "home/a" demo_key = Ok tt.
Proof.
  destruct demo_valid as [Hv Hwf].
  apply (gates_accept_intact_file "home/a" demo_key demo_db ∅ Hwf Hv).
Defined.

(** The file after its second write, and after its third: the stamp of row 2. *)
Lemma stamp_binds_history_witness :
  exists s, chain_stamp_via_conn demo_db "home/a" 2 demo_key = Ok (StampFound s)
    /\ chain_stamp_via_conn demo_db2 "home/a" 2 demo_key = Ok (StampFound s)
    /\ length (db_events demo_db) <> length (db_events demo_db2)
    /\ (collision demo_key "home/a" (db_generation demo_db)
           (take 2 (events_with_headers demo_db)) (take 2 (events_with_headers demo_db2))
        \/ signed_part <$> take 2 (events_with_headers demo_db)
           = signed_part <$> take 2 (events_with_headers demo_db2)).
Proof.
  destruct demo_valid as [_ Hwf]. destruct demo_valid2 as [_ Hwf2].
  destruct (chain_stamp_via_conn demo_db "home/a" 2 demo_key) as [[s|]|] eqn:E; [|vm_compute in E; discriminate E..].
  assert (chain_stamp_via_conn demo_db2 "home/a" 2 demo_key
          = chain_stamp_via_conn demo_db "home/a" 2 demo_key) as E2 by evaluate.
  rewrite E in E2. exists s. split; [reflexivity|]. split; [exact E2|]. split; [vm_compute; discriminate|].
  exact (proj2 (proj2 (proj2 (stamp_binds_history "home/a" demo_key demo_db demo_db2 2 s Hwf Hwf2 eq_refl E E2)))).
Defined.

Lemma anchor_stable_and_detects_rollback_witness :
  exists stamp, chain_head_via_conn demo_db "home/a" demo_key = Ok (Some stamp)
    /\ chain_stamp_via_conn demo_db2 "home/a" (st_seq stamp) demo_key = Ok (StampFound stamp).
Proof.
  destruct (anchor_stable_and_detects_rollback "home/a" demo_key demo_db demo_db2 demo_reachable
              (rtc_once _ _ demo_step)) as (stamp & Hh & Hs & _).
  exists stamp. exact (conj Hh Hs).
Defined.
