(* ===== verification/TimelineProofs.v ===== *)
(** * Timeline reads on intact files: lemmas

    Every step of a world file is one commit of one body row, so rows and their
    headers, once written, stay; every row a reachable file holds is well shaped.
    On such a file the timeline functions have closed forms. *)

From S2P Require Import Prelude.
From S2P Require Import RustStr.
From S2P Require Import Path.
From S2P Require Import Auth.
From S2P Require Import Crypto.
From S2P Require Import Types.
From S2P Require Import Db.
From S2P Require Import AuditVerify.
From S2P Require Import AuditGates.
From S2P Require Import AuditAppend.
From S2P Require Import Cas.
From S2P Require Import WorldWrite.
From S2P Require Import Timeline.
From S2P Require Import ChainSpec.
From S2P Require Import ChainValid.
From S2P Require Import GateProofs.
From S2P Require Import CasProofs.
From S2P Require Import WriteProofs.
From S2P Require Import WriteTheorems.
From S2P Require Import Reachable.
From Stdlib Require Import Ascii.

Section Commits.
Context `{CryptoLaws}.
Context (w key : string).

(** [db'] is [db] after one committed body event. *)
Inductive commits (db db' : world_db) : Prop :=
| commits_intro body k ct hs now n sct meta
    (Hfits : fits db body) (Hnow : is_canonical_sqlite_utc_timestamp now = true)
    (Hseq : (db_seq db < i64_max)%Z) (Hn : (0 < n <= i64_max)%Z) (Hmeta : NoDup meta.*1)
    (Hk : body_bearing (class k) = true)
    (Heq : db' = committed_db w key db body k ct hs now n sct meta).

Lemma step_commits db db' :
  db_wf db -> chain_valid w key db -> world_step w key db db' -> commits db db'.
Proof.
  intros Hwf Hv []; pose proof (chain_valid_pre _ _ _ Hv) as Hpre.
  - rewrite write_existing_rest in Hok by done.
    destruct (write_rest_inv _ _ _ _ _ _ _ _ _ _ _ _ Hwf Hok) as [(Hf & Hnow & Hs) Hd].
    rewrite write_rest_Ok in Hok by done. injection Hok as _ _ <-.
    eapply commits_intro; [..|reflexivity]; done.
  - rewrite append_existing_rest in Hok by done.
    pose proof (append_rest_inv _ _ _ _ _ _ _ _ _ _ _ Hwf Hok) as (Hf & Hnow & Hs).
    rewrite append_rest_Ok in Hok by done. injection Hok as _ _ _ <-.
    eapply commits_intro; [..|reflexivity]; try done. apply (wf_meta _ Hwf).
Qed.

Lemma genesis_commits db' :
  world_genesis w key db' ->
  exists g nowf, WorldGeneration_new g = Ok g /\ is_canonical_sqlite_utc_timestamp nowf = true
    /\ commits (format_db w key g nowf) db'.
Proof.
  intros []. pose proof (write_genesis_now _ _ _ _ _ _ _ _ _ _ _ _ Hg Hok) as Hnf.
  rewrite write_genesis_rest in Hok by done.
  destruct (format_db_pre w key g nowf Hg Hnf) as [Hpre Hwf].
  destruct (write_rest_inv _ _ _ _ _ _ _ _ _ _ _ _ Hwf Hok) as [(Hf & Hnow & Hs) Hd].
  rewrite write_rest_Ok in Hok by done. injection Hok as _ _ <-.
  exists g, nowf. split_and!; [done..|].
  eapply commits_intro; [..|reflexivity]; done.
Qed.

Lemma committed_rows db body k ct hs now n sct meta :
  db_wf db ->
  events_with_headers (committed_db w key db body k ct hs now n sct meta)
  = events_with_headers db ++ [(body_row w key db body k ct hs now, canonical_headers hs)].
Proof.
  intros Hwf. change (events_with_headers (committed_db w key db body k ct hs now n sct meta))
    with (events_with_headers (insert_event db (body_row w key db body k ct hs now)
                                 (canonical_headers hs))).
  rewrite events_with_headers_insert, canonical_sorted by (first [done|cbn; lia]). done.
Qed.

(** Rows and their headers stay along every run. *)
Lemma steps_rows db db' :
  reachable w key db -> rtc (world_step w key) db db' ->
  reachable w key db' /\ db_generation db' = db_generation db
  /\ events_with_headers db `prefix_of` events_with_headers db'.
Proof.
  intros Hr Hs. induction Hs as [db|db db1 db' Hs _ IH]; [done|].
  destruct (reachable_valid _ _ _ Hr) as [Hv Hwf].
  destruct (step_commits _ _ Hwf Hv Hs). destruct IH as (Hr' & Hg & Hp); [by eapply reach_step|].
  split_and!; [done|by rewrite Hg, Heq|]. etrans; [|exact Hp].
  rewrite Heq, committed_rows by done. by eexists.
Qed.

(** Well-shaped rows: what the program writes, beyond what the verifier checks
    of rows below the retention floor. *)
Definition row_shaped (e : EventRow) : Prop :=
  BodySha256_new (ev_body_sha256 e) = Ok (ev_body_sha256 e) /\ (0 <= ev_size e)%Z.

Definition rows_shaped (db : world_db) : Prop := Forall row_shaped (db_events db).

Lemma commits_shaped db db' : rows_shaped db -> commits db db' -> rows_shaped db'.
Proof.
  intros Hs []. unfold rows_shaped. rewrite Heq.
  change (db_events _) with (db_events db ++ [body_row w key db body k ct hs now]).
  apply Forall_app. split; [done|]. repeat constructor; [apply BodySha256_sha|apply slen_nonneg].
Qed.

Lemma reachable_shaped db : reachable w key db -> rows_shaped db.
Proof.
  induction 1 as [db Hg|db db' Hr IH Hs].
  - destruct (genesis_commits _ Hg) as (g & nowf & _ & _ & Hc). eapply commits_shaped; [|done].
    repeat constructor; [apply BodySha256_sha|done].
  - destruct (reachable_valid _ _ _ Hr) as [Hv Hwf].
    by eapply commits_shaped, step_commits.
Qed.
End Commits.

(** ** Rows of an intact file *)

Section Rows.
Context `{CryptoLaws}.

Lemma event_by_id_Some db seq e :
  event_by_id db seq = Some e -> e ∈ db_events db /\ ev_id e = seq.
Proof.
  unfold event_by_id. intros Hh%head_Some_elem_of. apply list_elem_of_filter in Hh. naive_solver.
Qed.

Lemma event_by_id_elem db e :
  db_wf db -> e ∈ db_events db -> event_by_id db (ev_id e) = Some e.
Proof.
  intros Hwf He. destruct (event_by_id db (ev_id e)) as [e'|] eqn:E.
  - apply event_by_id_Some in E as [He' Hid]. f_equal. symmetry. by eapply same_id.
  - unfold event_by_id in E. apply head_None in E. exfalso.
    assert (e ∈ filter (fun e' => ev_id e' = ev_id e) (db_events db)) as Hin
      by (by apply list_elem_of_filter). rewrite E in Hin. by apply not_elem_of_nil in Hin.
Qed.

Lemma event_by_id_rows db row hs :
  db_wf db -> (row, hs) ∈ events_with_headers db ->
  event_by_id db (ev_id row) = Some row /\ headers_of db (ev_id row) = hs.
Proof.
  intros Hwf Hin. unfold events_with_headers in Hin.
  apply list_elem_of_fmap in Hin as (e & [= -> ->] & He). split; [|done]. by apply event_by_id_elem.
Qed.

(** What the verified chain says of each of its rows. *)
Record row_facts (w : string) (k : AuditEventKind) (row : EventRow) (hs : list (string * string))
  : Prop := {
  rf_kind : from_storage (ev_event_type row) = Some k;
  rf_target : body_bearing (class k) = true \/ k = Format -> ev_target row = w;
  rf_delete : is_delete_kind k = true ->
    from_canonical (ev_target row) = Ok (ev_target row)
    /\ exists p, delete_subject_proof_from_headers (ev_target row) (ev_body_sha256 row) hs = Ok p;
}.

Lemma row_valid_facts key w g prev row hs k :
  row_valid key w g prev row hs k -> row_facts w k row hs.
Proof.
  intros Hv. pose proof Hv as [_ Ht _ _ Hs _ _ _]. split; [by eapply row_valid_kind|done|].
  intros Hd. assert (from_canonical (ev_target row) = Ok (ev_target row)
    /\ is_ok (delete_subject_proof_from_headers (ev_target row) (ev_body_sha256 row) hs) = true)
    as [Hc Hp] by (destruct k; naive_solver).
  split; [done|]. destruct (delete_subject_proof_from_headers _ _ _) as [p|]; [by exists p|done].
Qed.

Lemma chain_ok_facts key w g prev l row hs :
  chain_ok key w g prev l -> (row, hs) ∈ l -> exists k, row_facts w k row hs.
Proof.
  revert prev. induction l as [|[r h] l IH]; intros prev Hc Hin; [by apply not_elem_of_nil in Hin|].
  destruct Hc as [[k Hk] Hc]. apply elem_of_cons in Hin as [[= -> ->]|Hin]; [|by eapply IH].
  exists k. by eapply row_valid_facts.
Qed.

Lemma intact_row_facts w key db e :
  chain_valid w key db -> e ∈ db_events db ->
  exists k, row_facts w k e (headers_of db (ev_id e)).
Proof.
  intros Hv He. eapply chain_ok_facts; [apply (cv_links _ _ _ Hv)|].
  unfold events_with_headers. apply list_elem_of_fmap. by exists e.
Qed.

Lemma intact_gates w key db :
  db_wf db -> chain_valid w key db ->
  (exists r, verify_world_tx db w key = Ok r /\ require_intact r = Ok tt)
  /\ live_body_verify_tx db = Ok None /\ generation db = Ok (db_generation db)
  /\ require_world_intact_tx db w key = Ok tt.
Proof.
  intros Hwf Hv. pose proof (proj2 (require_world_intact_spec db w key Hwf) Hv) as Hr.
  pose proof Hr as Hr'. unfold require_world_intact_tx, storage in Hr. inv_ok.
  split; [|split_and!].
  - eexists. split; [done|]. by destruct x0.
  - apply live_body_spec, Hv.
  - apply generation_Ok. split; [done|apply Hv].
  - done.
Qed.

Definition snapshot_of (db : world_db) (e : EventRow) : TimelineEventSnapshot :=
  {| ts_identity := identity_of e; ts_size := ev_size e; ts_content_type := ev_content_type e;
     ts_hmac := ev_hmac e; ts_headers := headers_of db (ev_id e) |}.

Lemma load_snapshot_elem db e :
  db_wf db -> e ∈ db_events db -> load_event_snapshot db (ev_id e) = Some (snapshot_of db e).
Proof. intros Hwf He. unfold load_event_snapshot. by rewrite event_by_id_elem. Qed.

Lemma from_storage_is_body k e :
  from_storage (ev_event_type e) = Some k -> body_bearing (class k) = is_body e.
Proof. apply from_storage_body. Qed.

(** Matching a row of an intact file against an address. *)
Lemma match_row_body w k db e sha :
  row_facts w k e (headers_of db (ev_id e)) -> row_shaped e -> is_body e = true ->
  match_body_row (snapshot_of db e) w sha
  = if bool_decide (ev_body_sha256 e = sha)
    then MatchBody {| mb_snapshot := snapshot_of db e; mb_body_sha256 := ev_body_sha256 e |}
    else MatchBodyHashMismatch (ev_body_sha256 e).
Proof.
  intros [Hk Ht _] [Hs _] Hb. pose proof (from_storage_is_body _ _ Hk) as Hbb. rewrite Hb in Hbb.
  unfold match_body_row, kind. cbn [snapshot_of ts_identity identity_of ti_event_type].
  rewrite Hk, Hbb. cbn [negb]. unfold target_matches. cbn [identity_of ti_target].
  rewrite bool_decide_true by auto. cbn [negb identity_of ti_body_sha256]. rewrite Hs.
  case_bool_decide as E; [by rewrite E, ct_eq_refl|].
  destruct (ct_eq (ev_body_sha256 e) sha) eqn:Ec; [|done]. by apply ct_eq_true in Ec.
Qed.

Lemma match_row_non_body w k db e sha :
  valid_world w -> row_facts w k e (headers_of db (ev_id e)) -> row_shaped e ->
  is_body e = false ->
  exists nb, match_body_row (snapshot_of db e) w sha = MatchNonBody nb
    /\ mn_snapshot nb = snapshot_of db e /\ mn_kind nb = k /\ mn_event_target nb = ev_target e
    /\ mn_body_sha256 nb = ev_body_sha256 e
    /\ (is_delete_kind k = true ->
        delete_subject_proof_from_headers (ev_target e) (ev_body_sha256 e)
          (headers_of db (ev_id e)) = Ok (mn_delete_subject nb)).
Proof.
  intros Hw [Hk Ht Hd] [Hs Hsz] Hb. pose proof (from_storage_is_body _ _ Hk) as Hbb.
  rewrite Hb in Hbb. unfold match_body_row, kind.
  cbn [snapshot_of ts_identity identity_of ti_event_type]. rewrite Hk, Hbb. cbn [negb].
  unfold match_non_body_row.
  cbn [snapshot_of ts_size ts_identity identity_of ti_body_sha256 ti_target ts_headers].
  assert (negb (notifies (class k)) || (ev_size e <? 0)%Z = false) as ->.
  { rewrite orb_false_iff. split; [by destruct k|by apply Z.ltb_ge]. }
  rewrite Hs. unfold delete_subject_proof_for_non_body. destruct (is_delete_kind k) eqn:Ed.
  - destruct Hd as (Hc & p & Hp); [done|]. rewrite Hc. cbn [negb]. rewrite Hp.
    eexists. by split_and!.
  - assert (from_canonical (ev_target e) = Ok (ev_target e)) as ->.
    { rewrite Ht; [done|]. destruct k; try done. by right. }
    eexists. by split_and!.
Qed.
End Rows.
