(* ===== verification/TimelineTheorems.v ===== *)
(** * Timeline reads: correctness theorems

    The closed form of a historical read, its agreement with coordinate
    dereference, the permanence of addresses, and complete, ordered replay. *)

From S2P Require Import Prelude.
From S2P Require Import RustStr.
From S2P Require Import Path.
From S2P Require Import Auth.
From S2P Require Import Crypto.
From S2P Require Import Types.
From S2P Require Import Db.
From S2P Require Import AuditVerify.
From S2P Require Import AuditGates.
From S2P Require Import AuditAppend.
From S2P Require Import Cas.
From S2P Require Import WorldWrite.
From S2P Require Import Timeline.
From S2P Require Import ChainSpec.
From S2P Require Import ChainValid.
From S2P Require Import GateProofs.
From S2P Require Import CasProofs.
From S2P Require Import WriteProofs.
From S2P Require Import WriteTheorems.
From S2P Require Import Reachable.
From S2P Require Import Demo.
From S2P Require Import TimelineProofs.
From Stdlib Require Import Ascii.

Section Reads.
Context `{CryptoLaws}.

(** ** What a historical read must answer *)

Definition row_read (db : world_db) (a : TimelineAddress) (e : EventRow) : TimelineRead :=
  match db_cas db !! ev_body_sha256 e with
  | Some body =>
      if (slen body =? ev_size e)%Z then
        ReadBody {| tb_address := a;
                    tb_representation :=
                      {| stage_body := body; stage_content_type := ev_content_type e;
                         stage_headers := headers_of db (ev_id e) |};
                    tb_hmac := ev_hmac e |}
      else ReadCorrupt a InvalidEventShape
  | None => ReadExpired {| xb_address := a; xb_content_type := ev_content_type e;
                           xb_size := ev_size e; xb_hmac := ev_hmac e |}
  end.

Definition timeline_spec (db : world_db) (a : TimelineAddress) : TimelineRead :=
  if negb (bool_decide (db_generation db = ta_gen a)) then ReadGenMismatch a (db_generation db)
  else
    match event_by_id db (ta_seq a) with
    | None => ReadMissingRow a
    | Some e =>
        if negb (is_body e) then ReadCorrupt a MissingBodyForPresentRow
        else if bool_decide (ev_body_sha256 e = ta_body_sha256 a) then row_read db a e
        else ReadAddressMismatch a (ev_body_sha256 e)
    end.

Lemma floor_retains w key db e f :
  chain_valid w key db -> db_floor db = Some f -> e ∈ db_events db -> is_body e = true ->
  (f <= ev_id e)%Z ->
  exists body, db_cas db !! ev_body_sha256 e = Some body /\ slen body = ev_size e.
Proof.
  intros Hv Hf He Hb Hle. pose proof (cv_retained _ _ _ Hv) as Hr. unfold retention_valid in Hr.
  rewrite Hf in Hr. destruct Hr as (_ & _ & Hr & _).
  specialize (Hr e (proj2 (elem_body_events db e) (conj Hb He)) Hle).
  destruct (db_cas db !! ev_body_sha256 e) as [body|]; [|done].
  exists body. split; [done|]. by injection Hr.
Qed.

Lemma first_retained_ok w key db :
  chain_valid w key db -> first_retained_seq_tx db = Ok (db_floor db).
Proof.
  intros Hv. unfold first_retained_seq_tx. pose proof (retention_floor_ok _ (cv_retained _ _ _ Hv)) as Hf.
  unfold floor_ok in Hf. destruct (db_floor db) as [f|]; [|done].
  by rewrite (proj2 (TimelineSeq_new_Ok f f)) by (split; [done|lia]).
Qed.

(** A body row of an intact file, once matched. *)
Lemma matched_body_read w key db a e :
  chain_valid w key db -> e ∈ db_events db -> is_body e = true ->
  ta_seq a = ev_id e -> ta_body_sha256 a = ev_body_sha256 e ->
  let row := {| mb_snapshot := snapshot_of db e; mb_body_sha256 := ev_body_sha256 e |} in
  match db_cas db !! ta_body_sha256 a with
  | None => missing_timeline_body_read db a row
  | Some body =>
      match into_representation_with_hmac row body with
      | None => Ok (timeline_corrupt a InvalidEventShape)
      | Some (representation, hmac) => Ok (TimelineRead_body a representation hmac)
      end
  end = Ok (row_read db a e).
Proof.
  intros Hv He Hb Hs Ha. cbv zeta. unfold row_read. rewrite Ha.
  destruct (db_cas db !! ev_body_sha256 e) as [body|] eqn:Eb.
  - destruct (cv_cas _ _ _ Hv _ _ Eb) as [Hsha Hlen].
    unfold into_representation_with_hmac. cbn [mb_snapshot snapshot_of ts_size].
    unfold i64_try_from. rewrite (proj2 (Z.leb_le _ _) Hlen).
    destruct (Z.eqb_spec (slen body) (ev_size e)) as [E|E].
    + rewrite bool_decide_true by (by rewrite E). cbn [negb].
      unfold TimelineRead_body. cbn [stage_body]. by rewrite Ha, Hsha, ct_eq_refl.
    + rewrite bool_decide_false by congruence. done.
  - unfold missing_timeline_body_read. rewrite (first_retained_ok _ _ _ Hv).
    cbn [mbind result_bind]. destruct (db_floor db) as [f|] eqn:Ef; [|done].
    destruct (Z.leb_spec f (ta_seq a)) as [Hle|Hlt]; [|done].
    rewrite Hs in Hle. destruct (floor_retains _ _ _ _ _ Hv Ef He Hb Hle) as (b & Hb' & _).
    by rewrite Hb' in Eb.
Qed.

Lemma read_spec w key db a :
  db_wf db -> chain_valid w key db -> rows_shaped db -> valid_world w -> ta_world a = w ->
  read_timeline_body_via_conn db a key = Ok (timeline_spec db a).
Proof.
  intros Hwf Hv Hsh Hw Ha. destruct (intact_gates _ _ _ Hwf Hv) as ((r & Hr & Hi) & _ & Hg & _).
  unfold read_timeline_body_via_conn, timeline_spec. rewrite Hg, Ha, Hr.
  cbn [storage map_err mbind result_bind]. rewrite Hi. cbn [mbind result_bind].
  case_bool_decide; cbn [negb]; [|done].
  destruct (event_by_id db (ta_seq a)) as [e|] eqn:Ee.
  2: { unfold load_event_snapshot. by rewrite Ee. }
  apply event_by_id_Some in Ee as [He Hid]. rewrite <- Hid.
  rewrite load_snapshot_elem by done.
  destruct (intact_row_facts _ _ _ _ Hv He) as [k Hf].
  unfold rows_shaped in Hsh. rewrite Forall_forall in Hsh. specialize (Hsh _ He).
  unfold timeline_read_from_snapshot. rewrite Ha. destruct (is_body e) eqn:Eb; cbn [negb].
  - rewrite (match_row_body w k) by done. case_bool_decide as E; [|done].
    by rewrite (matched_body_read w key db a e).
  - destruct (match_row_non_body w k db e (ta_body_sha256 a)) as (nb & -> & _); done.
Qed.

(** ** Coordinates *)

Lemma match_body_sha s w sha row :
  match_body_row s w sha = MatchBody row -> mb_body_sha256 row = sha.
Proof.
  unfold match_body_row, match_non_body_row. intros Hm.
  repeat match type of Hm with
  | context [match ?x with _ => _ end] => destruct x eqn:?; try discriminate Hm
  end; injection Hm as <-; cbn.
  match goal with Hc : negb (ct_eq _ _) = false |- _ =>
    by apply negb_false_iff, ct_eq_true in Hc end.
Qed.

Definition coordinate_address (c : TimelineCoordinate) : TimelineAddress :=
  {| ta_world := tc_world c; ta_gen := tc_gen c; ta_seq := tc_seq c;
     ta_body_sha256 := tc_body_sha256 c |}.

(** The dereference outcome of a read outcome, where the two correspond. *)
Definition corresponds (c : TimelineCoordinate) (d : TimelineDereference) (r : TimelineRead)
  : Prop :=
  match d, r with
  | DerefBody b, ReadBody b' => b = b'
  | DerefGenMismatch _ g, ReadGenMismatch _ g' => g = g'
  | DerefMissingRow _, ReadMissingRow _ => True
  | DerefBodyHashMismatch _ s, ReadAddressMismatch _ s' => s = s'
  | DerefNonBodyEvent _, ReadCorrupt _ MissingBodyForPresentRow => True
  | DerefExpired p, ReadExpired q =>
      ve_content_type p = xb_content_type q /\ ve_size p = xb_size q /\ ve_hmac p = xb_hmac q
  | DerefCorrupt _ x, ReadCorrupt _ x' => x = x'
  | _, _ => False
  end.

Lemma missing_corresponds db c row :
  match missing_timeline_body_read db (coordinate_address c) row with
  | Ok (ReadExpired expired) => exists p, VerifiedExpiredBody_new c expired = Some p
      /\ ve_content_type p = xb_content_type expired /\ ve_size p = xb_size expired
      /\ ve_hmac p = xb_hmac expired
  | Ok (ReadCorrupt _ _) | Err _ => True
  | _ => False
  end.
Proof.
  unfold missing_timeline_body_read. destruct (first_retained_seq_tx db) as [o|]; [|done].
  cbn [mbind result_bind]. destruct (match o with Some _ => _ | None => _ end); [done|].
  unfold VerifiedExpiredBody_new. cbn. rewrite !bool_decide_true, ct_eq_refl by done.
  eexists. by split_and!.
Qed.

(** Same errors, corresponding outcomes. *)
Lemma snapshot_corresponds db c row :
  match dereference_snapshot db c row (tc_gen c),
        timeline_read_from_snapshot db (coordinate_address c) row with
  | Ok d, Ok r => corresponds c d r
  | Err e, Err e' => e = e'
  | _, _ => False
  end.
Proof.
  unfold dereference_snapshot, timeline_read_from_snapshot.
  change (ta_world (coordinate_address c)) with (tc_world c).
  change (ta_body_sha256 (coordinate_address c)) with (tc_body_sha256 c).
  destruct (match_body_row row (tc_world c) (tc_body_sha256 c)) eqn:Em; try done.
  - rewrite (match_body_sha _ _ _ _ Em). unfold VerifiedCoordinateBodyEvent_new.
    rewrite bool_decide_true, ct_eq_refl by done. cbn [negb orb].
    fold (coordinate_address c). change (ta_body_sha256 (coordinate_address c)) with (tc_body_sha256 c).
    destruct (db_cas db !! tc_body_sha256 c) as [body|].
    + destruct (into_representation_with_hmac row0 body) as [[rep hmac]|]; [|done].
      unfold TimelineRead_body. by destruct (negb _).
    + pose proof (missing_corresponds db c row0) as Hm.
      destruct (missing_timeline_body_read db (coordinate_address c) row0) as [[]|]; try done.
      destruct Hm as (p & Hp & ?). cbn [mbind result_bind]. by rewrite Hp.
  - cbn. unfold VerifiedBodyHashMismatch_new. unfold match_body_row in Em.
    destruct (ct_eq (tc_body_sha256 c) actual) eqn:Ec; [|done]. exfalso.
    apply ct_eq_true in Ec. subst actual. unfold match_non_body_row in Em.
    repeat match type of Em with
    | context [match ?x with _ => _ end] => destruct x eqn:?; try discriminate Em
    end. injection Em as ->. by rewrite ct_eq_refl in *.
Qed.

Lemma dereference_corresponds db c key :
  match dereference_timeline_coordinate_via_conn db c key,
        read_timeline_body_via_conn db (coordinate_address c) key with
  | Ok d, Ok r => corresponds c d r
  | Err e, Err e' => e = e'
  | _, _ => False
  end.
Proof.
  unfold dereference_timeline_coordinate_via_conn, read_timeline_body_via_conn.
  change (ta_world (coordinate_address c)) with (tc_world c).
  destruct (storage (generation db)) as [g|]; [|done]. cbn [mbind result_bind].
  destruct (storage (verify_world_tx db (tc_world c) key)) as [r|]; [|done]. cbn [mbind result_bind].
  destruct (require_intact r); [|done]. cbn [mbind result_bind].
  change (ta_gen (coordinate_address c)) with (tc_gen c).
  case_bool_decide as Eg; cbn [negb].
  - subst g. change (ta_seq (coordinate_address c)) with (tc_seq c).
    destruct (load_event_snapshot db (tc_seq c)) as [row|]; [|done].
    pose proof (snapshot_corresponds db c row) as Hs.
    by destruct (dereference_snapshot db c row (tc_gen c)),
      (timeline_read_from_snapshot db (coordinate_address c) row); cbn in *; try subst.
  - unfold VerifiedGenerationMismatch_new. by rewrite bool_decide_false by done.
Qed.

(** ** Addresses are permanent *)

(** A row written once reads the same from every later file. *)
Lemma row_permanent w key db db' row hs :
  reachable w key db -> rtc (world_step w key) db db' -> (row, hs) ∈ events_with_headers db ->
  chain_valid w key db' /\ db_wf db' /\ rows_shaped db' /\ db_generation db' = db_generation db
  /\ event_by_id db' (ev_id row) = Some row /\ headers_of db' (ev_id row) = hs.
Proof.
  intros Hr Hs Hin. destruct (steps_rows _ _ _ _ Hr Hs) as (Hr' & Hg & [l Hl]).
  destruct (reachable_valid _ _ _ Hr') as [Hv Hwf]. split_and!; [done|done| |done| |].
  - by eapply reachable_shaped.
  - apply (event_by_id_rows db' row hs); [done|]. rewrite Hl. apply elem_of_app. by left.
  - apply (event_by_id_rows db' row hs); [done|]. rewrite Hl. apply elem_of_app. by left.
Qed.

Lemma permanent_read w key db db' a row hs :
  reachable w key db -> rtc (world_step w key) db db' -> (row, hs) ∈ events_with_headers db ->
  valid_world w -> is_body row = true ->
  a = {| ta_world := w; ta_gen := db_generation db; ta_seq := ev_id row;
         ta_body_sha256 := ev_body_sha256 row |} ->
  read_timeline_body_via_conn db' a key = Ok (row_read db' a row)
  /\ headers_of db' (ev_id row) = hs
  /\ (db_cas db' !! ev_body_sha256 row = None ->
      forall f, db_floor db' = Some f -> (ev_id row < f)%Z)
  /\ (forall b, db_cas db' !! ev_body_sha256 row = Some b -> sha256_hex b = ev_body_sha256 row).
Proof.
  intros Hr Hs Hin Hw Hb ->.
  destruct (row_permanent _ _ _ _ _ _ Hr Hs Hin) as (Hv & Hwf & Hsh & Hg & He & Hh).
  split_and!; [|done| |].
  - rewrite (read_spec w) by done. unfold timeline_spec. cbn [ta_gen ta_seq ta_body_sha256].
    rewrite bool_decide_true by done. cbn [negb]. rewrite He, Hb. cbn [negb].
    by rewrite bool_decide_true.
  - intros Hn f Hf. apply Z.nle_gt. intros Hle. apply event_by_id_Some in He as [He _].
    destruct (floor_retains _ _ _ _ _ Hv Hf He Hb Hle) as (b & Hb' & _). by rewrite Hb' in Hn.
  - intros b Hb'. by destruct (cv_cas _ _ _ Hv _ _ Hb').
Qed.

(** C36: A timeline read of a world file in any state the program can reach is
    total and exact: it reports the wrong generation, a missing row, a row that
    carries another hash (with that hash) or no body, and otherwise answers
    with the stored body under the row's content type, headers and HMAC, or
    with a proof of expiry when the body is no longer kept; every body at or
    above the retention floor is kept, hashes to the row's digest and has the
    row's size, so such a read answers with a body. *)
Theorem timeline_read_exact w key db a :
  reachable w key db -> valid_world w -> ta_world a = w ->
  read_timeline_body_via_conn db a key = Ok (timeline_spec db a)
  /\ (forall e f, event_by_id db (ta_seq a) = Some e -> is_body e = true ->
        db_floor db = Some f -> (f <= ta_seq a)%Z ->
        db_generation db = ta_gen a -> ev_body_sha256 e = ta_body_sha256 a ->
        exists body, sha256_hex body = ta_body_sha256 a /\ slen body = ev_size e
          /\ read_timeline_body_via_conn db a key
             = Ok (ReadBody {| tb_address := a;
                     tb_representation :=
                       {| stage_body := body; stage_content_type := ev_content_type e;
                          stage_headers := headers_of db (ta_seq a) |};
                     tb_hmac := ev_hmac e |})).
Proof.
  intros Hr Hw Ha. destruct (reachable_valid _ _ _ Hr) as [Hv Hwf].
  pose proof (read_spec w key db a Hwf Hv (reachable_shaped _ _ _ Hr) Hw Ha) as Hread.
  split; [done|]. intros e f He Hb Hf Hle Hg Hs. rewrite Hread. unfold timeline_spec.
  rewrite He, Hb, !bool_decide_true by done. cbn [negb].
  apply event_by_id_Some in He as [He Hid]. rewrite <- Hid in *.
  destruct (floor_retains _ _ _ _ _ Hv Hf He Hb Hle) as (b & Hcas & Hlen).
  exists b. destruct (cv_cas _ _ _ Hv _ _ Hcas) as [Hsha _]. split_and!; [by rewrite Hsha|done|].
  unfold row_read. by rewrite Hcas, Hlen, Z.eqb_refl.
Qed.

(** C37: The address a committed write returns is permanent.  In every later
    state of the file, reading it answers with a body of the written digest
    under the written content type, headers and HMAC, or with the proof that
    this row's body is below the retention floor; the one exception is a
    stored body of another length with the same SHA-256 digest, which is
    reported as corruption. *)
Theorem written_address_permanent w key db cache body ct hs n nowf now res cache' db1 db2 :
  reachable w key db -> valid_world w -> (0 < n <= i64_max)%Z ->
  write_with_audit_checked_retaining_on_conn Existing cache w body ct hs key n nowf now db
  = Ok (res, cache', db1) ->
  rtc (world_step w key) db1 db2 ->
  let a := br_timeline_address (wr_body_event res) in
  exists r, read_timeline_body_via_conn db2 a key = Ok r
    /\ ((exists b, sha256_hex b = sha256_hex body
          /\ r = ReadBody {| tb_address := a;
                  tb_representation :=
                    {| stage_body := b; stage_content_type := ct;
                       stage_headers := canonical_headers hs |};
                  tb_hmac := wr_hmac res |})
        \/ (r = ReadExpired {| xb_address := a; xb_content_type := ct; xb_size := slen body;
                               xb_hmac := wr_hmac res |}
            /\ forall f, db_floor db2 = Some f -> (ta_seq a < f)%Z)
        \/ (exists b, slen b <> slen body /\ sha256_hex b = sha256_hex body
            /\ r = ReadCorrupt a InvalidEventShape)).
Proof.
  intros Hr Hw Hn Hok Hs. cbv zeta. destruct (reachable_valid _ _ _ Hr) as [Hv Hwf].
  pose proof (chain_valid_pre _ _ _ Hv) as Hpre.
  assert (reachable w key db1) as Hr1
    by (eapply reach_step; [exact Hr|]; eapply step_replace; [exact Hn|exact Hok]).
  rewrite write_existing_rest in Hok by done.
  destruct (write_rest_inv _ _ _ _ _ _ _ _ _ _ _ _ Hwf Hok) as [(Hf & Hnow & Hsq) Hd].
  rewrite write_rest_Ok in Hok by done. injection Hok as <- _ <-.
  pose proof (committed_rows w key db body Put ct hs now n ct hs Hwf) as Hrows.
  destruct (permanent_read w key _ db2
    (br_timeline_address (body_appended w key db body Put ct hs now))
    (body_row w key db body Put ct hs now) (canonical_headers hs) Hr1 Hs)
    as (Hread & Hh & Hexp & Hsha); [|done|done|done|].
  { rewrite Hrows. apply elem_of_app. right. by left. }
  cbn [wr_body_event write_result wr_hmac]. eexists. split; [exact Hread|].
  unfold row_read. destruct (db_cas db2 !! _) as [b|] eqn:Eb.
  - specialize (Hsha _ eq_refl). destruct (Z.eqb_spec (slen b) (ev_size (body_row w key db body Put ct hs now))) as [E|E].
    + left. exists b. split; [done|]. by rewrite Hh.
    + right. right. by exists b.
  - right. left. split; [done|]. exact (Hexp eq_refl).
Qed.

(** Dereferencing an untrusted coordinate and reading the address with the
    same fields agree on every file: they fail together with the same error,
    and otherwise answer with corresponding outcomes (the same body, the same
    expiry proof, the same mismatching generation or hash, a missing row, a row
    without body, the same corruption). *)
Theorem dereference_agrees_with_read db c key :
  match dereference_timeline_coordinate_via_conn db c key,
        read_timeline_body_via_conn db (coordinate_address c) key with
  | Ok d, Ok r => corresponds c d r
  | Err e, Err e' => e = e'
  | _, _ => False
  end.
Proof. apply dereference_corresponds. Qed.

End Reads.

(** ** Replay *)

Section Replay.
Context `{CryptoLaws}.

Lemma existsb_filter {A} (f : A -> bool) l :
  existsb f (filter (fun x => f x = true) l) = existsb f l.
Proof.
  induction l as [|x l IH]; [done|]. rewrite filter_cons. case_decide as E; cbn; [by rewrite E, IH|].
  by destruct (f x).
Qed.

Lemma one_header_reserved hs n :
  is_reserved_audit_header n = true ->
  one_header (filter (fun p => is_reserved_audit_header (fst p) = true) hs) n = one_header hs n.
Proof.
  intros Hn. unfold one_header. rewrite list_filter_filter.
  erewrite list_filter_iff; [done|]. intros [k v]. cbn. naive_solver.
Qed.

(** Only the reserved headers matter to the subject codec. *)
Lemma delete_subject_reserved t s hs :
  delete_subject_proof_from_headers t s
    (filter (fun p => is_reserved_audit_header (fst p) = true) hs)
  = delete_subject_proof_from_headers t s hs.
Proof.
  unfold delete_subject_proof_from_headers.
  rewrite (existsb_filter (fun p => is_reserved_audit_header (fst p))).
  by rewrite !one_header_reserved by (vm_compute; reflexivity).
Qed.

(** The event a subscriber is given for a row. *)
Definition replays (w g : string) (row : EventRow) (ev : VerifiedReplayEvent) : Prop :=
  let payload := {| rp_body_sha256 := ev_body_sha256 row; rp_size := ev_size row;
                    rp_content_type := ev_content_type row |} in
  match ev with
  | ReplayBody world gen seq k a p h =>
      is_body row = true /\ world = w /\ gen = g /\ seq = ev_id row
      /\ as_str k = ev_event_type row /\ p = payload /\ h = ev_hmac row
      /\ a = {| ta_world := w; ta_gen := g; ta_seq := ev_id row;
                ta_body_sha256 := ev_body_sha256 row |}
  | ReplayNonBody world gen seq k t p _ h =>
      is_body row = false /\ world = w /\ gen = g /\ seq = ev_id row
      /\ as_str k = ev_event_type row /\ p = payload /\ h = ev_hmac row /\ t = ev_target row
  end.

Lemma replay_event_ok w k db g row :
  valid_world w -> (0 < ev_id row)%Z -> row_shaped row ->
  row_facts w k row (headers_of db (ev_id row)) ->
  exists ev, replay_event db w g row = Ok ev /\ replays w g row ev.
Proof.
  intros Hw Hid [Hs Hsz] [Hk Ht Hd]. pose proof (from_storage_is_body _ _ Hk) as Hbb.
  pose proof (proj1 (from_storage_iff _ _) Hk) as Hty. unfold replay_event.
  rewrite (proj2 (TimelineSeq_new_Ok _ _) (conj eq_refl Hid)). cbn [map_err mbind result_bind].
  rewrite Hk. cbn [ok_or mbind result_bind].
  rewrite (proj2 (Z.ltb_ge _ _) Hsz). cbn [negb ensure mbind result_bind].
  unfold body_sha256_or_corrupt_raw. rewrite Hs. cbn [map_err mbind result_bind].
  destruct (body_bearing (class k)) eqn:Eb.
  - rewrite bool_decide_true by auto. cbn [ensure mbind result_bind]. eexists. split; [done|].
    cbn. by split_and!.
  - assert (notifies (class k) = true) as -> by (by destruct k). cbn [negb].
    unfold delete_subject_proof_for_replay_event. destruct (is_delete_kind k) eqn:Ed; cbn [negb].
    + destruct Hd as (Hc & p & Hp); [done|]. rewrite Hc.
      fold is_reserved_audit_header.
      pose proof (delete_subject_reserved (ev_target row) (ev_body_sha256 row)
                    (headers_of db (ev_id row))) as Hr.
      unfold is_reserved_audit_header in Hr. rewrite Hr, Hp. cbn [map_err mbind result_bind].
      eexists. split; [done|]. cbn. by split_and!.
    + assert (ev_target row = w) as Htw by (apply Ht; right; by destruct k).
      assert (from_canonical (ev_target row) = Ok w) as -> by (rewrite Htw; exact Hw).
      cbn [mbind result_bind]. eexists. split; [done|].
      cbn. by split_and!.
Qed.

(** The row loop with its limit. *)
Lemma replay_rows_ok db w g limit rows acc :
  Forall (fun row => exists ev, replay_event db w g row = Ok ev /\ replays w g row ev) rows ->
  if (Z.of_nat (length acc + length rows) <=? limit)%Z
  then exists es, replay_rows db w g limit rows acc = Ok (Some (acc ++ es))
         /\ Forall2 (replays w g) rows es
  else (Z.of_nat (length acc) <= limit)%Z -> replay_rows db w g limit rows acc = Ok None.
Proof.
  intros Hr. revert acc. induction Hr as [|row rows (ev & Hev & Hrep) _ IH]; intros acc; cbn.
  - rewrite Nat.add_0_r. destruct (Z.leb_spec (Z.of_nat (length acc)) limit); [|lia].
    exists []. by rewrite app_nil_r.
  - specialize (IH (acc ++ [ev])). rewrite length_app in IH. cbn in IH.
    replace (length acc + 1 + length rows)%nat with (length acc + S (length rows))%nat in IH by lia.
    rewrite Hev. cbn [mbind result_bind].
    destruct (Z.leb_spec (Z.of_nat (length acc + S (length rows))) limit) as [Hle|Hgt].
    + destruct (Z.leb_spec limit (Z.of_nat (length acc))); [lia|].
      destruct IH as (es & -> & Hes). exists (ev :: es). rewrite <- app_assoc. split; [done|].
      by constructor.
    + intros Hacc. destruct (Z.leb_spec limit (Z.of_nat (length acc))); [done|]. apply IH. lia.
Qed.

(** The rows the query returns are all rows after the marker, or one more than
    the limit allows. *)
Lemma rows_after_limit db after limit :
  db_wf db -> (0 <= limit <= usize_max)%Z ->
  let rest := filter (fun e => (after < ev_id e)%Z) (db_events db) in
  let rows := rows_after db after (default i64_max (i64_try_from (saturating_add limit 1))) in
  if (Z.of_nat (length rest) <=? limit)%Z then rows = rest
  else (limit < Z.of_nat (length rows))%Z /\ rows `prefix_of` rest.
Proof.
  intros Hwf Hl. cbv zeta. unfold rows_after.
  set (rest := filter (fun e => (after < ev_id e)%Z) (db_events db)).
  pose proof (event_count_le _ Hwf) as Hc. pose proof (wf_seq _ Hwf) as Hs. unfold event_count in Hc.
  assert (length rest <= length (db_events db))%nat as Hrl by apply length_filter.
  set (q := default i64_max (i64_try_from (saturating_add limit 1))).
  assert (limit < q \/ q = i64_max)%Z as Hq.
  { subst q. unfold i64_try_from, saturating_add.
    destruct (Z.leb_spec (Z.min (limit + 1) usize_max) i64_max) as [Hle|Hgt]; cbn; [|by right].
    left. unfold usize_max, i64_max in *. lia. }
  destruct (Z.leb_spec (Z.of_nat (length rest)) limit) as [Hle|Hgt].
  - apply take_ge. unfold i64_max in *. lia.
  - split; [|by apply prefix_take]. rewrite length_take. unfold i64_max in *. lia.
Qed.

Lemma replay_spec w key db g after limit :
  db_wf db -> chain_valid w key db -> rows_shaped db -> valid_world w ->
  (0 <= limit <= usize_max)%Z ->
  let rest := filter (fun e => (after < ev_id e)%Z) (db_events db) in
  exists r, verified_replay_events_after_via_conn db w g after limit key = Ok r
  /\ if negb (bool_decide (db_generation db = g)) then r = ReplayGenerationMismatch
     else if negb (bool_decide (is_Some (event_by_id db after))) then r = ReplayMissingMarker
     else if (limit <? Z.of_nat (length rest))%Z then r = ReplayLimitExceeded
     else exists es, r = ReplayEvents es /\ Forall2 (replays w g) rest es.
Proof.
  intros Hwf Hv Hsh Hw Hl. cbv zeta.
  destruct (intact_gates _ _ _ Hwf Hv) as (_ & _ & Hg & Hi).
  unfold verified_replay_events_after_via_conn. rewrite Hi, Hg.
  cbn [storage map_err mbind result_bind]. case_bool_decide as Eg; cbn [negb]; [|by eexists].
  subst g. unfold load_event_identity.
  destruct (event_by_id db after) as [m|] eqn:Em; [|by eexists].
  rewrite bool_decide_true by (by eexists). cbn [negb fmap option_fmap option_map].
  apply event_by_id_Some in Em as [Hm Hmid]. destruct (intact_row_facts _ _ _ _ Hv Hm) as [k [Hk Ht Hd]].
  unfold kind_or_corrupt, kind. cbn [identity_of ti_event_type]. rewrite Hk.
  cbn [ok_or storage map_err mbind result_bind]. unfold target_matches. cbn [identity_of ti_target].
  assert (negb (body_bearing (class k) && negb (bool_decide (ev_target m = w))) = true) as ->.
  { destruct (body_bearing (class k)); [|done]. by rewrite bool_decide_true by auto. }
  cbn [ensure storage map_err mbind result_bind].
  pose proof (rows_after_limit db after limit Hwf Hl) as Hrows. cbv zeta in Hrows.
  set (rest := filter (fun e => (after < ev_id e)%Z) (db_events db)) in *.
  set (rows := rows_after db after _) in *.
  assert (Forall (fun row => exists ev, replay_event db w (db_generation db) row = Ok ev
                    /\ replays w (db_generation db) row ev) rest) as Hall.
  { apply Forall_forall. intros row Hin. subst rest. apply list_elem_of_filter in Hin as [Ha He].
    destruct (intact_row_facts _ _ _ _ Hv He) as [k' Hf].
    unfold rows_shaped in Hsh. rewrite Forall_forall in Hsh.
    pose proof (wf_ids_pos _ Hwf) as Hp. rewrite Forall_forall in Hp. specialize (Hp _ He).
    eapply replay_event_ok; [done|lia|by apply Hsh|done]. }
  pose proof (replay_rows_ok db w (db_generation db) limit rows []) as Hrr. cbn in Hrr.
  destruct (Z.leb_spec (Z.of_nat (length rest)) limit) as [Hle|Hgt].
  - rewrite Hrows in *. destruct (Z.leb_spec (Z.of_nat (length rest)) limit); [|lia].
    destruct Hrr as (es & -> & Hes); [done|]. cbn [storage map_err mbind result_bind].
    eexists. split; [done|]. destruct (Z.ltb_spec limit (Z.of_nat (length rest))); [lia|]. by exists es.
  - destruct Hrows as [Hlen [tl Hpre]].
    destruct (Z.leb_spec (Z.of_nat (length rows)) limit); [lia|].
    rewrite Hrr; [|by rewrite Hpre, Forall_app in Hall; destruct Hall|lia].
    cbn [storage map_err mbind result_bind]. eexists. split; [done|].
    by destruct (Z.ltb_spec limit (Z.of_nat (length rest))); [|lia].
Qed.

(** Replay after a row of a reachable world file is complete and ordered:
    with the right generation and an existing marker row it gives exactly one
    event per row after the marker, in order, each with the row's identity,
    kind, payload and HMAC, or says that there are more rows than the limit;
    it never gives a partial list and never fails. *)
Theorem replay_complete w key db g after limit :
  reachable w key db -> valid_world w -> (0 <= limit <= usize_max)%Z ->
  let rest := filter (fun e => (after < ev_id e)%Z) (db_events db) in
  exists r, verified_replay_events_after_via_conn db w g after limit key = Ok r
  /\ if negb (bool_decide (db_generation db = g)) then r = ReplayGenerationMismatch
     else if negb (bool_decide (is_Some (event_by_id db after))) then r = ReplayMissingMarker
     else if (limit <? Z.of_nat (length rest))%Z then r = ReplayLimitExceeded
     else exists es, r = ReplayEvents es /\ Forall2 (replays w g) rest es.
Proof.
  intros Hr Hw Hl. destruct (reachable_valid _ _ _ Hr) as [Hv Hwf].
  by apply replay_spec; [..|eapply reachable_shaped| |].
Qed.
End Replay.

(** ** The body head a delete anchors to *)

Section Head.
Context `{CryptoLaws}.

Lemma latest_head_spec w key db :
  db_wf db -> chain_valid w key db -> rows_shaped db ->
  verified_latest_body_head_via_conn db w key
  = Ok ((fun e => {| vh_address := {| ta_world := w; ta_gen := db_generation db;
                                      ta_seq := ev_id e; ta_body_sha256 := ev_body_sha256 e |};
                     vh_hmac := hmac_label (ev_hmac e) |}) <$> last (body_events db)).
Proof.
  intros Hwf Hv Hsh. destruct (intact_gates _ _ _ Hwf Hv) as ((r & Hr & Hi) & Hlive & Hg & _).
  unfold verified_latest_body_head_via_conn, load_latest_body_head. rewrite Hr.
  cbn [storage map_err mbind result_bind]. rewrite Hi. cbn [mbind result_bind].
  rewrite (proj2 (require_none_Ok _) Hlive). cbn [mbind result_bind].
  destruct (last (body_events db)) as [e|] eqn:El; [|done].
  apply last_Some_elem_of, elem_body_events in El as [Hb He].
  pose proof (wf_ids_pos _ Hwf) as Hp. rewrite Forall_forall in Hp. specialize (Hp _ He).
  rewrite (proj2 (TimelineSeq_new_Ok _ _) (conj eq_refl (proj1 Hp))).
  cbn [map_err mbind result_bind storage bh_event bh_seq bh_hmac_label].
  destruct (intact_row_facts _ _ _ _ Hv He) as [k [Hk Ht _]].
  unfold kind_or_corrupt, kind. cbn [identity_of ti_event_type]. rewrite Hk.
  cbn [ok_or storage map_err mbind result_bind]. pose proof (from_storage_is_body _ _ Hk) as Hbb.
  rewrite Hb in Hbb. rewrite Hbb. cbn [ensure map_err mbind result_bind].
  unfold target_matches. cbn [identity_of ti_target]. rewrite bool_decide_true by auto.
  cbn [ensure map_err mbind result_bind].
  unfold rows_shaped in Hsh. rewrite Forall_forall in Hsh. destruct (Hsh _ He) as [Hs _].
  unfold body_sha256_or_corrupt, body_sha256_or_corrupt_raw. cbn [identity_of ti_body_sha256].
  rewrite Hs. cbn [map_err mbind result_bind]. by rewrite Hg.
Qed.
End Head.

(** ** The theorems at the concrete world *)

Definition demo_address : TimelineAddress :=
  {| ta_world := "home/a"; ta_gen := demo_gen; ta_seq := 2;
     ta_body_sha256 := sha256_hex "hello" |}.

Lemma demo_world : valid_world "home/a".
Proof. evaluate. Qed.

Lemma timeline_read_exact_witness :
  read_timeline_body_via_conn demo_db demo_address demo_key
  = Ok (timeline_spec demo_db demo_address)
  /\ is_body (default (format_row "home/a" demo_key demo_gen demo_now)
                (event_by_id demo_db 2)) = true.
Proof.
  split; [|evaluate].
  apply (timeline_read_exact "home/a" demo_key demo_db demo_address demo_reachable demo_world).
  reflexivity.
Defined.

Lemma written_address_permanent_witness :
  exists res c r, demo_replace = Ok (res, c, demo_db2)
    /\ read_timeline_body_via_conn demo_db2 (br_timeline_address (wr_body_event res)) demo_key
       = Ok r.
Proof.
  destruct demo_replace_ok as ([res c] & Hok).
  destruct (written_address_permanent "home/a" demo_key demo_db {["home/a"]} "hi" "text/plain" []
              2 demo_now demo_now res c demo_db2 demo_db2 demo_reachable demo_world)
    as (r & Hr & _); [evaluate|exact Hok|apply rtc_refl|].
  exists res, c, r. exact (conj Hok Hr).
Defined.

Lemma replay_complete_witness :
  exists es, verified_replay_events_after_via_conn demo_db2 "home/a" demo_gen 1 10 demo_key
    = Ok (ReplayEvents es)
  /\ Forall2 (replays "home/a" demo_gen)
       (filter (fun e => (1 < ev_id e)%Z) (db_events demo_db2)) es.
Proof.
  destruct (replay_complete "home/a" demo_key demo_db2 demo_gen 1 10
              (reach_step _ _ _ _ demo_reachable demo_step) demo_world)
    as (r & Hr & Hs); [evaluate|].
  assert (negb (bool_decide (db_generation demo_db2 = demo_gen)) = false) as E1 by evaluate.
  assert (negb (bool_decide (is_Some (event_by_id demo_db2 1))) = false) as E2 by evaluate.
  assert ((10 <? Z.of_nat (length (filter (fun e => (1 < ev_id e)%Z) (db_events demo_db2))))%Z
          = false) as E3 by evaluate.
  rewrite E1, E2, E3 in Hs. destruct Hs as (es & Hes & Hf). exists es. rewrite Hr, Hes.
  exact (conj eq_refl Hf).
Defined.
