(* ===== verification/Core.v ===== *)
(** * The engine's shared state

    Models the fields of [Core] ([core/src/state.rs]) that operations change,
    and the methods of [Core] they call: reads with their tag, tombstones, the
    cache of writer connections, notification.  An operation is a function from
    the state to a result and the state it leaves, also when it fails: what it
    did before the failure stays done.  Operations hold their world's lock for
    their whole run (delete holds the ledger's lock too), so each is one step;
    what writers of different worlds share, the storage counter, is studied
    under every interleaving in [Quota.v].

    The outside of the program enters through an [Env]: the clock, the minted
    generation, the order in which the connection cache is iterated, what became
    of the directory of a deleted world, and, for each point where the code
    calls SQLite, a failure that SQLite may report there; the statements that
    create a file fail one by one.

    A world's file is in [files] when its schema is complete; a creation that
    fails may leave one that is not, which is in [broken] with the error every
    later open of it reports ([WorldSchema.v]).  [lost] is not state of the
    program: no operation reads it.  It holds the files that went away in a
    removal that then failed, whose bytes the counters go on counting. *)

From S2P Require Import Prelude.
From S2P Require Import RustStr.
From S2P Require Import WorldSchema.
From S2P Require Import Auth.
From S2P Require Import Crypto.
From S2P Require Import Etag.
From S2P Require Import Types.
From S2P Require Import Db.
From S2P Require Import AuditVerify.
From S2P Require Import AuditGates.
From S2P Require Import AuditAppend.
From S2P Require Import Cas.
From S2P Require Import WorldWrite.
From S2P Require Import Timeline.
From S2P Require Import EventId.
From S2P Require Import Store.
From S2P Require Import Quota.

(** ** State and configuration *)

Record Config := {
  max_world_bytes : Z;
  max_memory_bytes : Z;
  max_storage_bytes : option Z;
  retained_body_count : Z;
  hmac_key : string;
  listen_replay_max : Z;
}.

Record Core := {
  files : gmap string world_db;                (* the complete world files under [data] *)
  broken : gmap string sqlite_error;           (* the other ones: what opening them reports *)
  lost : list world_db;                        (* ghost: files a failed removal took away *)
  write_conns : gmap string OpenedWorldKind;   (* cached writers *)
  mem : MemoryStore;
  counters : Counters;
  verified_audit_worlds : AuditVerificationCache;
  tombstones : gset string;                    (* of the read cache *)
  ledger_conn : bool;                          (* the cached ledger writer is open *)
  ledger_inits : Z;
  delete_ledger_created : bool;
  next_event : Z;
  event_log : list ChangeEvent;
  events_sent : list ChangeEvent;              (* what [events.send] was given *)
  closed : bool;                               (* the file-operation gate *)
}.

(** Where the code calls SQLite and SQLite can fail for reasons of its own. *)
Inductive io_point :=
| IoPreconditionRead | IoRead | IoPreflight | IoMetadata | IoOpen | IoTransaction
| IoUsage | IoSubject.

(** One append to the delete ledger: its clocks and failures. *)
Record LedgerEnv := {
  le_generation : string;
  le_now_format : string;
  le_now : string;
  le_open_fault : option sqlite_error;
  le_creation : open_faults;
  le_count_fault : option sqlite_error;
  le_fault : option sqlite_error;
}.

(** What twenty tries of [remove_dir_all] leave of a world's directory: nothing,
    its database, or some other entry without the database.  The connections
    are closed and the log is checkpointed before, so unlinking [-wal] and
    [-shm] takes nothing from the database. *)
Inductive removal_outcome := DirRemoved | FileKept | FileRemoved.

Record Env := {
  now_format : string;
  now : string;
  minted_generation : string;
  conn_order : list string;       (* iteration order of the connection cache *)
  fault : io_point -> option sqlite_error;
  creation : open_faults;         (* of a new file *)
  removed : removal_outcome;
  ledger_intent : LedgerEnv;
  ledger_commit : LedgerEnv;
  ledger_commit_failed : LedgerEnv;
}.

(** ** Field updates *)

Definition set_files (f : gmap string world_db -> gmap string world_db) (c : Core) : Core :=
  {| files := f (files c); broken := broken c; lost := lost c; write_conns := write_conns c; mem := mem c; counters := counters c;
     verified_audit_worlds := verified_audit_worlds c; tombstones := tombstones c;
     ledger_conn := ledger_conn c; ledger_inits := ledger_inits c;
     delete_ledger_created := delete_ledger_created c; next_event := next_event c;
     event_log := event_log c; events_sent := events_sent c; closed := closed c |}.

Definition set_broken (f : gmap string sqlite_error -> gmap string sqlite_error) (c : Core) : Core :=
  {| files := files c; broken := f (broken c); lost := lost c; write_conns := write_conns c; mem := mem c;
     counters := counters c; verified_audit_worlds := verified_audit_worlds c; tombstones := tombstones c;
     ledger_conn := ledger_conn c; ledger_inits := ledger_inits c;
     delete_ledger_created := delete_ledger_created c; next_event := next_event c;
     event_log := event_log c; events_sent := events_sent c; closed := closed c |}.

Definition set_lost (f : list world_db -> list world_db) (c : Core) : Core :=
  {| files := files c; broken := broken c; lost := f (lost c); write_conns := write_conns c; mem := mem c;
     counters := counters c; verified_audit_worlds := verified_audit_worlds c; tombstones := tombstones c;
     ledger_conn := ledger_conn c; ledger_inits := ledger_inits c;
     delete_ledger_created := delete_ledger_created c; next_event := next_event c;
     event_log := event_log c; events_sent := events_sent c; closed := closed c |}.

Definition set_conns (f : gmap string OpenedWorldKind -> gmap string OpenedWorldKind) (c : Core)
  : Core :=
  {| files := files c; broken := broken c; lost := lost c; write_conns := f (write_conns c); mem := mem c; counters := counters c;
     verified_audit_worlds := verified_audit_worlds c; tombstones := tombstones c;
     ledger_conn := ledger_conn c; ledger_inits := ledger_inits c;
     delete_ledger_created := delete_ledger_created c; next_event := next_event c;
     event_log := event_log c; events_sent := events_sent c; closed := closed c |}.

Definition set_mem (m : MemoryStore) (c : Core) : Core :=
  {| files := files c; broken := broken c; lost := lost c; write_conns := write_conns c; mem := m; counters := counters c;
     verified_audit_worlds := verified_audit_worlds c; tombstones := tombstones c;
     ledger_conn := ledger_conn c; ledger_inits := ledger_inits c;
     delete_ledger_created := delete_ledger_created c; next_event := next_event c;
     event_log := event_log c; events_sent := events_sent c; closed := closed c |}.

Definition set_counters (f : Counters -> Counters) (c : Core) : Core :=
  {| files := files c; broken := broken c; lost := lost c; write_conns := write_conns c; mem := mem c; counters := f (counters c);
     verified_audit_worlds := verified_audit_worlds c; tombstones := tombstones c;
     ledger_conn := ledger_conn c; ledger_inits := ledger_inits c;
     delete_ledger_created := delete_ledger_created c; next_event := next_event c;
     event_log := event_log c; events_sent := events_sent c; closed := closed c |}.

Definition set_verified (f : AuditVerificationCache -> AuditVerificationCache) (c : Core) : Core :=
  {| files := files c; broken := broken c; lost := lost c; write_conns := write_conns c; mem := mem c; counters := counters c;
     verified_audit_worlds := f (verified_audit_worlds c); tombstones := tombstones c;
     ledger_conn := ledger_conn c; ledger_inits := ledger_inits c;
     delete_ledger_created := delete_ledger_created c; next_event := next_event c;
     event_log := event_log c; events_sent := events_sent c; closed := closed c |}.

Definition set_tombstones (f : gset string -> gset string) (c : Core) : Core :=
  {| files := files c; broken := broken c; lost := lost c; write_conns := write_conns c; mem := mem c; counters := counters c;
     verified_audit_worlds := verified_audit_worlds c; tombstones := f (tombstones c);
     ledger_conn := ledger_conn c; ledger_inits := ledger_inits c;
     delete_ledger_created := delete_ledger_created c; next_event := next_event c;
     event_log := event_log c; events_sent := events_sent c; closed := closed c |}.

Definition set_ledger (conn : bool) (inits : Z) (c : Core) : Core :=
  {| files := files c; broken := broken c; lost := lost c; write_conns := write_conns c; mem := mem c; counters := counters c;
     verified_audit_worlds := verified_audit_worlds c; tombstones := tombstones c;
     ledger_conn := conn; ledger_inits := inits;
     delete_ledger_created := delete_ledger_created c; next_event := next_event c;
     event_log := event_log c; events_sent := events_sent c; closed := closed c |}.

Definition set_ledger_created (b : bool) (c : Core) : Core :=
  {| files := files c; broken := broken c; lost := lost c; write_conns := write_conns c; mem := mem c; counters := counters c;
     verified_audit_worlds := verified_audit_worlds c; tombstones := tombstones c;
     ledger_conn := ledger_conn c; ledger_inits := ledger_inits c;
     delete_ledger_created := b; next_event := next_event c;
     event_log := event_log c; events_sent := events_sent c; closed := closed c |}.

Definition set_stream (next : Z) (log sent : list ChangeEvent) (c : Core) : Core :=
  {| files := files c; broken := broken c; lost := lost c; write_conns := write_conns c; mem := mem c; counters := counters c;
     verified_audit_worlds := verified_audit_worlds c; tombstones := tombstones c;
     ledger_conn := ledger_conn c; ledger_inits := ledger_inits c;
     delete_ledger_created := delete_ledger_created c; next_event := next;
     event_log := log; events_sent := sent; closed := closed c |}.

(** ** Operations: state and error *)

Definition op (E A : Type) : Type := Core -> result E A * Core.

Section Op.
Context {E : Type}.

#[global] Instance op_ret : MRet (op E) := fun A a c => (Ok a, c).
#[global] Instance op_bind : MBind (op E) := fun A B f m c =>
  match m c with (Ok a, c) => f a c | (Err e, c) => (Err e, c) end.

Definition fail {A} (e : E) : op E A := fun c => (Err e, c).
Definition lift {A} (r : result E A) : op E A := fun c => (r, c).
Definition gets {A} (f : Core -> A) : op E A := fun c => (Ok (f c), c).
Definition modify (f : Core -> Core) : op E unit := fun c => (Ok tt, f c).

(** A value whose destructor runs [release]: on a return with an error the
    value is dropped; on the other returns it was committed. *)
Definition on_drop {A} (release : Core -> Core) (m : op E A) : op E A := fun c =>
  match m c with (Ok a, c) => (Ok a, c) | (Err e, c) => (Err e, release c) end.

(** [if let Err(e) = ...]: the error as a value. *)
Definition try {E' A} (m : op E A) : op E' (result E A) := fun c =>
  let '(r, c) := m c in (Ok r, c).
End Op.

(** SQLite fails at a point of its own, or gives what the model computes. *)
Definition faulty {A} (f : option sqlite_error) (r : result sqlite_error A)
  : result sqlite_error A :=
  match f with Some err => Err err | None => r end.

Definition faulty_audit {A} (f : option sqlite_error) (r : result AuditError A)
  : result AuditError A :=
  match f with Some err => Err (Storage err) | None => r end.

(** ** Methods of [Core] *)

Definition clear_tombstone (world : string) (c : Core) : Core :=
  if is_memory_world world then c else set_tombstones (fun t => t ∖ {[world]}) c.

Definition install_tombstone_blocking (world : string) (c : Core) : Core :=
  if is_memory_world world then c else set_tombstones (fun t => {[world]} ∪ t) c.

(** [begin_file_op]. *)
Definition begin_file_op {E} (shutting_down : E) : op E unit := fun c =>
  if closed c then (Err shutting_down, c) else (Ok tt, c).

Definition WRITE_CONN_CACHE_MAX_ENTRIES : nat := 64.

(** [evict_cached_write_conn_if_needed]: the first other connection in the
    iteration order goes, until the cache fits. *)
Fixpoint evict_cached_write_conn_if_needed (order : list string) (protected : string)
    (conns : gmap string OpenedWorldKind) : gmap string OpenedWorldKind :=
  match order with
  | [] => conns
  | victim :: order =>
      if (size conns <=? WRITE_CONN_CACHE_MAX_ENTRIES)%nat then conns
      else if bool_decide (victim = protected)
      then evict_cached_write_conn_if_needed order protected conns
      else evict_cached_write_conn_if_needed order protected (base.delete victim conns)
  end.

Definition cache_writer (env : Env) (world : string) (opened : OpenedWorldKind) (c : Core) : Core :=
  set_conns (fun m => evict_cached_write_conn_if_needed (conn_order env) world
                        (<[world := opened]> m)) c.

(** The database of a world's file, when it exists and opens: [open_existing_path]
    and [open_existing_writer_path]. *)
Definition open_file (world : string) (c : Core) : result sqlite_error (option world_db) :=
  match broken c !! world with
  | Some err => Err err
  | None => Ok (files c !! world)
  end.

(** The file a creation left, as the next open finds it. *)
Definition leave_file (generation world : string) (file : option raw_world) (c : Core) : Core :=
  match file with
  | None => c
  | Some raw =>
      match verify_open_shape raw with
      | Ok _ => set_files (<[world := create generation]>) c
      | Err err => set_broken (<[world := err]>) c
      end
  end.

(** [open_world_paths_with_generation_minter_and_kind]: an existing file, or one
    made with the minted generation, statement by statement. *)
Definition open_world (f : open_faults) (generation world : string) : op sqlite_error OpenedWorldKind :=
  fun c =>
  match open_file world c with
  | Err err => (Err err, c)
  | Ok (Some _) => (Ok Existing, c)
  | Ok None =>
      let '(r, file) := open_world_paths_with_generation_minter_and_kind f (Ok generation) None in
      (r, leave_file generation world file c)
  end.

(** The cached connection's schema check can fail like an open. *)
Definition cached_write_conn (env : Env) (world : string) : op sqlite_error OpenedWorldKind :=
  fun c =>
  match fault env IoOpen with
  | Some err => (Err err, c)
  | None =>
      match write_conns c !! world with
      | Some opened => (Ok opened, c)
      | None =>
          (opened ← open_world (creation env) (minted_generation env) world;
           _ ← modify (cache_writer env world opened);
           mret opened) c
      end
  end.

Definition cached_existing_write_conn (env : Env) (world : string)
  : op sqlite_error (option OpenedWorldKind) := fun c =>
  match fault env IoOpen with
  | Some err => (Err err, c)
  | None =>
      match write_conns c !! world with
      | Some opened => (Ok (Some opened), c)
      | None =>
          match open_file world c with
          | Err err => (Err err, c)
          | Ok None => (Ok None, c)
          | Ok (Some _) => (Ok (Some Existing), cache_writer env world Existing c)
          end
      end
  end.

Definition clear_cached_write_conn (world : string) (c : Core) : Core :=
  set_conns (base.delete world) c.

(** [next_event_id] on 64-bit targets: the counter wraps. *)
Definition next_event_id (counter : Z) : Z := (counter + 1) mod (u64_max + 1).

(** [while log.len() > max { log.pop_front() }]. *)
Fixpoint pop_front_to (max : Z) (log : list ChangeEvent) : list ChangeEvent :=
  match log with
  | [] => []
  | _ :: rest => if (max <? Z.of_nat (length log))%Z then pop_front_to max rest else log
  end.

Definition notify_with_aux (max : Z) (verb : ChangeVerb) (target : ChangeTarget) (etag : string)
    (aux : ChangeEventAux) (c : Core) : Core :=
  let id := next_event_id (next_event c) in
  let change := {| ce_id := id; ce_verb := verb; ce_target := target; ce_etag := etag;
                   ce_aux := aux |} in
  set_stream id (pop_front_to max (event_log c ++ [change])) (events_sent c ++ [change]) c.

Section Reads.
Context `{Crypto}.

(** [read_world_with_etag]; a tombstone hides the file. *)
Definition read_world_with_etag (f : option sqlite_error) (key world : string) (c : Core)
  : result AuditError (option (Stage * string)) :=
  match MemoryWorldPath_new world with
  | Some memory_world =>
      Ok ((fun p => (fst p, "sha256-" +:+ snd p)) <$> read_with_hash (mem c) memory_world)
  | None =>
      if bool_decide (world ∈ tombstones c) then Ok None
      else
        match open_file world c with
        | Err err => faulty_audit f (Err (Storage err))
        | Ok None => Ok None
        | Ok (Some db) =>
            '(stage, hmac) ← faulty_audit f (read_with_hmac_via_conn db world key);
            let etag := match hmac with
                        | Some h => hmac_etag h
                        | None => body_etag (stage_body stage)
                        end in
            Ok (Some (stage, etag))
        end
  end.

Definition read_world (f : option sqlite_error) (key world : string) (c : Core)
  : result AuditError (option Stage) :=
  r ← read_world_with_etag f key world c;
  Ok (option_map fst r).

(** [latest_body_head]. *)
Definition latest_body_head (f : option sqlite_error) (key world : string) (c : Core)
  : result AuditError (option VerifiedBodyHead) :=
  if bool_decide (world ∈ tombstones c) then Ok None
  else
    match open_file world c with
    | Err err => faulty_audit f (Err (Storage err))
    | Ok None => Ok None
    | Ok (Some db) => faulty_audit f (verified_latest_body_head_via_conn db world key)
    end.
End Reads.
