(* ===== verification/WorldOps.v ===== *)
(** * Replace and append of a world

    Models [core/src/world_ops.rs]: permits, the body cap, preconditions, the
    quota preflight and reservation, the durable transaction or the memory
    write, the accounting after a commit, notification, and the errors of each
    step.  The trace hooks have no effect on the state and are left out; a
    [spawn_blocking] worker that dies ([BlockingWorker]) and a poisoned writer
    lock need a panic, which the modelled code does not raise. *)

From S2P Require Import Prelude.
From S2P Require Import Auth.
From S2P Require Import Crypto.
From S2P Require Import Etag.
From S2P Require Import Types.
From S2P Require Import Db.
From S2P Require Import AuditVerify.
From S2P Require Import AuditGates.
From S2P Require Import AuditAppend.
From S2P Require Import Cas.
From S2P Require Import WorldWrite.
From S2P Require Import EventId.
From S2P Require Import Store.
From S2P Require Import Quota.
From S2P Require Import StorageClass.
From S2P Require Import Core.

(** ** Requests, outcomes, errors *)

Record ReplaceRequest := {
  rr_body : string;
  rr_content_type : string;
  rr_headers : list (string * string);
  rr_preconditions : Preconditions;
}.

Record AppendRequest := {
  aq_body : string;
  aq_preconditions : Preconditions;
}.

Definition ReplaceRequest_new (body content_type : string) (headers : list (string * string))
    (preconditions : Preconditions) : result string ReplaceRequest :=
  _ ← validate_representation_metadata content_type headers;
  Ok {| rr_body := body; rr_content_type := content_type; rr_headers := headers;
        rr_preconditions := preconditions |}.

Inductive WriteStatusKind := StatusCreated | StatusUpdated.

Record WriteOutcome := { wo_status_kind : WriteStatusKind; wo_etag : string }.

Inductive StorageOp := OpRead | OpWriteAudit.

Inductive StorageInvariantReason :=
| ReasonCasBodyMismatch (body_sha256 : string)
| ReasonCasState (reason : string).

Inductive WriteError :=
| WriteAuth (gate : AuthGate)
| WriteAppendOnly
| PayloadTooLarge (max : Z)
| WritePreconditionFailed (message : string)
| WriteNotFound
| QuotaExceeded (used quota projected : Z)
| WriteTransientStorage (scope : string) (err : sqlite_error) (op : StorageOp)
| WriteInsufficientStorage (scope : string) (err : sqlite_error) (op : StorageOp)
| WriteStorageRead (scope : string) (err : sqlite_error)
| WriteStorageWriteAudit (scope : string) (err : sqlite_error)
| WriteStorageInvariant (reason : StorageInvariantReason)
| WriteAuditChainBroken (scope : string) (break_report : VerifyBreak)
| WriteShuttingDown
| WriteBlockingWorker (err : BlockingJoinError)
| WriteInternal (message : string).

(** What a committed write is announced with: the format event of a genesis,
    and the write itself. *)
Record notice := { nt_etag : string; nt_target : ChangeTarget }.

Section WorldOps.
Context `{Crypto} `{Rusqlite} (cfg : Config).

Definition classify_write_storage_error (scope : string) (op : StorageOp) (err : sqlite_error)
  : WriteError :=
  match classify_storage_failure err with
  | InsufficientStorage => WriteInsufficientStorage scope err op
  | Transient => WriteTransientStorage scope err op
  | Other => match op with
             | OpRead => WriteStorageRead scope err
             | OpWriteAudit => WriteStorageWriteAudit scope err
             end
  end.

Definition classify_write_audit_error (scope : string) (err : AuditError) : WriteError :=
  match err with
  | ChainBroken b => WriteAuditChainBroken scope b
  | Storage err => classify_write_storage_error scope OpWriteAudit err
  end.

(** The error arms of both write matches. *)
Definition write_audit_error (err : WriteAuditError) : WriteError :=
  match err with
  | Audit err => classify_write_audit_error "storage/audit" err
  | Sqlite err => classify_write_storage_error "storage/audit" OpWriteAudit err
  | CasBodyMismatch body_sha256 => WriteStorageInvariant (ReasonCasBodyMismatch body_sha256)
  | StorageInvariant reason => WriteStorageInvariant (ReasonCasState reason)
  end.

Definition check_write_preconditions (env : Env) (world : string) (p : Preconditions)
  : op WriteError unit := fun c =>
  if is_empty p then (Ok tt, c)
  else
    (current ← map_err (classify_write_audit_error "precondition read")
                 (read_world_with_etag (fault env IoPreconditionRead) (hmac_key cfg) world c);
     map_err WritePreconditionFailed (check_preconditions p (option_map snd current)), c).

(** [reserve_storage_after_prune] and [reserve_audit_events] on the state, with
    the effect of dropping what they return. *)
Definition reserve_storage (prev_len new_len pruned_len : Z)
  : op WriteError PendingStorageReservation := fun c =>
  match reserve_storage_after_prune (max_storage_bytes cfg) (storage_body_bytes (counters c))
          prev_len new_len pruned_len with
  | Ok (pending, used) => (Ok pending, set_counters (set_body_bytes used) c)
  | Err err => (Err (QuotaExceeded (sr_used err) (sr_quota err) (sr_projected err)), c)
  end.

Definition drop_pending (p : PendingStorageReservation) (c : Core) : Core :=
  set_counters (fun k => set_body_bytes (drop_reservation p (storage_body_bytes k)) k) c.

Definition reserve_events {E} (full : E) : op E unit := fun c =>
  match reserve_audit_events (storage_audit_chain_events (counters c)) with
  | Some used => (Ok tt, set_counters (set_audit_events used) c)
  | None => (Err full, c)
  end.

Definition drop_events (c : Core) : Core :=
  set_counters (fun k => set_audit_events (drop_audit_events (storage_audit_chain_events k)) k) c.

Definition commit_events (format : bool) (k : Counters) : Counters :=
  set_audit_events (if format then commit_two (storage_audit_chain_events k)
                    else commit_one (storage_audit_chain_events k)) k.

(** The counters after a committed transaction. *)
Definition account_commit (pending : PendingStorageReservation) (inserted : bool)
    (actual_cas_len cas_candidate_len prunable_cas_len prev_len next_len : Z) (pruned : PrunedCas)
    (format : bool) (k : Counters) : Counters :=
  let k := set_body_bytes (commit_reservation pending (storage_body_bytes k)) k in
  let k := if inserted then note_retained_cas_inserted actual_cas_len k
           else rollback_storage_reservation 0 cas_candidate_len k in
  let k := credit_pruned_storage_after_estimate pruned prunable_cas_len k in
  let k := note_current_body_replaced prev_len next_len k in
  commit_events format k.

Definition count_world (k : Counters) : Counters :=
  set_world_count ((durable_world_count k + 1) mod (usize_max + 1))%Z k.

Definition too_large_for_quota (c : Core) : WriteError :=
  QuotaExceeded (storage_body_bytes (counters c)) (default usize_max (max_storage_bytes cfg))
    usize_max.

Definition is_some {A} (o : option A) : bool := match o with Some _ => true | None => false end.

Definition format_change_event (row : AppendedAuditRow) : notice :=
  {| nt_etag := hmac_etag (ar_hmac row); nt_target := target_from_appended_audit_row row |}.

(** A connection whose file is gone; cached connections have their file. *)
Definition file_gone : WriteAuditError := Sqlite (SqliteFailure InternalMalfunction None).

(** The transaction on a cached connection: the file, the cache of verified
    worlds and the connection's kind change only when it commits. *)
Definition write_on_conn (env : Env) (world : string) (opened : OpenedWorldKind)
    (req : ReplaceRequest) : op WriteError WriteAuditResult := fun c =>
  match files c !! world, fault env IoTransaction with
  | Some db, None =>
      match write_with_audit_checked_retaining_on_conn opened (verified_audit_worlds c) world
              (rr_body req) (rr_content_type req) (rr_headers req) (hmac_key cfg)
              (retained_body_count cfg) (now_format env) (now env) db with
      | Ok (result, cache, db) =>
          (Ok result, set_conns (<[world := Existing]>)
                        (set_verified (fun _ => cache) (set_files (<[world := db]>) c)))
      | Err err => (Err (write_audit_error err), c)
      end
  | _, Some err => (Err (write_audit_error (Sqlite err)), c)
  | None, None => (Err (write_audit_error file_gone), c)
  end.

Definition append_on_conn (env : Env) (world : string) (body content_type : string)
    (headers : list (string * string)) : op WriteError (AppendAuditResult * string) := fun c =>
  match files c !! world, fault env IoTransaction with
  | Some db, None =>
      match append_with_audit_retaining_on_conn (verified_audit_worlds c) world body content_type
              headers (hmac_key cfg) (retained_body_count cfg) (now_format env) (now env) db with
      | Ok (result, hmac, cache, db) =>
          (Ok (result, hmac), set_verified (fun _ => cache) (set_files (<[world := db]>) c))
      | Err err => (Err (write_audit_error err), c)
      end
  | _, Some err => (Err (write_audit_error (Sqlite err)), c)
  | None, None => (Err (write_audit_error file_gone), c)
  end.

(** ** Replace *)

Definition replace_durable (env : Env) (world : string) (req : ReplaceRequest)
  : op WriteError (bool * notice * option notice) :=
  file ← gets (open_file world);
  snapshot ← lift (map_err (classify_write_storage_error "storage accounting preflight" OpRead)
                     (faulty (fault env IoPreflight)
                        (odb ← file; replace_quota_snapshot odb (rr_body req) (retained_body_count cfg))));
  let prev_len := previous_body_len snapshot in
  let body_len := slen (rr_body req) in
  too_large ← gets too_large_for_quota;
  reserve_new_len ← lift (ok_or too_large (checked_add body_len (candidate_cas_len snapshot)));
  pending ← reserve_storage prev_len reserve_new_len (prunable_cas_len snapshot);
  on_drop (drop_pending pending)
   (_ ← reserve_events (WriteInternal "audit event counter capacity exhausted");
    on_drop drop_events
     (opened ← (fun c => let '(r, c) := cached_write_conn env world c in
                         (map_err (classify_write_storage_error "storage/audit" OpRead) r, c));
      result ← write_on_conn env world opened req;
      _ ← modify (set_counters (fun k =>
            let k := account_commit pending (wr_cas_body_inserted result)
                       (if wr_cas_body_inserted result then body_len else 0)
                       (candidate_cas_len snapshot) (prunable_cas_len snapshot) prev_len body_len
                       (wr_pruned_cas result) (is_some (wr_format_event result)) k in
            if wr_existed result then k else count_world k));
      mret (wr_existed result,
            {| nt_etag := hmac_etag (wr_hmac result);
               nt_target := target_from_appended_body_audit_row (wr_body_event result) |},
            format_change_event <$> wr_format_event result))).

Definition replace_memory (world : string) (req : ReplaceRequest)
  : op WriteError (bool * notice * option notice) := fun c =>
  match MemoryWorldPath_new world with
  | None => (Err (WriteInternal "memory world proof mismatch"), c)
  | Some memory_world =>
      match write_with_quota (mem c) memory_world (rr_body req) (rr_content_type req)
              (rr_headers req) (max_memory_bytes cfg) with
      | Ok (outcome, m) =>
          (Ok (mw_existed outcome,
               {| nt_etag := body_etag (rr_body req); nt_target := TargetEphemeral world |},
               None), set_mem m c)
      | Err err => (Err (QuotaExceeded (mq_used err) (mq_quota err) (mq_projected err)), c)
      end
  end.

Definition notify_write (verb : ChangeVerb) (n : notice) (format_notice : option notice) (c : Core)
  : Core :=
  let c := match format_notice with
           | Some f => notify_with_aux (listen_replay_max cfg) VerbFormat (nt_target f) (nt_etag f)
                         aux_default c
           | None => c
           end in
  notify_with_aux (listen_replay_max cfg) verb (nt_target n) (nt_etag n) aux_default c.

Definition replace_write_blocking (env : Env) (permit : WritePermit) (req : ReplaceRequest)
  : op WriteError WriteOutcome :=
  _ ← lift (map_err WriteInternal (ensure_write_permit permit));
  let world := wp_world permit in
  _ ← begin_file_op WriteShuttingDown;
  _ ← modify (clear_tombstone world);
  _ ← check_write_preconditions env world (rr_preconditions req);
  '(existed, n, format_notice) ← (if is_persistent world then replace_durable env world req
                                  else replace_memory world req);
  _ ← modify (notify_write VerbReplace n format_notice);
  mret {| wo_status_kind := if existed : bool then StatusUpdated else StatusCreated;
          wo_etag := nt_etag n |}.

Definition replace_write (env : Env) (permit : WritePermit) (req : ReplaceRequest)
  : op WriteError WriteOutcome :=
  _ ← lift (map_err WriteInternal (ensure_write_permit permit));
  _ ← lift (ensure (slen (rr_body req) <=? max_world_bytes cfg)%Z
                   (PayloadTooLarge (max_world_bytes cfg)));
  replace_write_blocking env permit req.

(** ** Append *)

Definition append_durable (env : Env) (world : string) (body_len : Z) (content_type : string)
    (stored_headers : list (string * string)) (projected_len : Z) (req : AppendRequest)
  : op WriteError (notice * option notice) :=
  file ← gets (open_file world);
  candidate ← lift (map_err (classify_write_storage_error "storage/cas" OpRead)
                      (faulty (fault env IoPreflight)
                         (odb ← file; append_body_len_if_missing odb (aq_body req))));
  cas_candidate_len ← lift (ok_or WriteNotFound candidate);
  prunable ← lift (map_err (classify_write_storage_error "storage/cas" OpRead)
                     (faulty (fault env IoUsage)
                        (odb ← file;
                         append_prunable_body_len_after_next_write odb (aq_body req)
                           (retained_body_count cfg))));
  prunable_cas_len ← lift (ok_or WriteNotFound prunable);
  too_large ← gets too_large_for_quota;
  reserve_new_len ← lift (ok_or too_large (checked_add (slen (aq_body req)) cas_candidate_len));
  pending ← reserve_storage 0 reserve_new_len prunable_cas_len;
  on_drop (drop_pending pending)
   (_ ← reserve_events (WriteInternal "audit event counter capacity exhausted");
    on_drop drop_events
     (opened ← (fun c => let '(r, c) := cached_existing_write_conn env world c in
                         (map_err (classify_write_storage_error "storage/audit" OpRead) r, c));
      _ ← lift (ok_or WriteNotFound opened);
      '(result, h) ← append_on_conn env world (aq_body req) content_type stored_headers;
      _ ← modify (set_counters (account_commit pending (ap_cas_body_inserted result)
                    (if ap_cas_body_inserted result then projected_len else 0)
                    cas_candidate_len prunable_cas_len body_len projected_len
                    (ap_pruned_cas result) (is_some (ap_format_event result))));
      mret ({| nt_etag := hmac_etag h;
               nt_target := target_from_appended_body_audit_row (ap_body_event result) |},
            format_change_event <$> ap_format_event result))).

Definition append_memory (world : string) (req : AppendRequest)
  : op WriteError (notice * option notice) := fun c =>
  match MemoryWorldPath_new world with
  | None => (Err (WriteInternal "memory world proof mismatch"), c)
  | Some memory_world =>
      match append_with_quota (mem c) memory_world (aq_body req) (max_memory_bytes cfg) with
      | Ok (Some result, m) =>
          (Ok ({| nt_etag := "sha256-" +:+ body_sha256_after result;
                  nt_target := TargetEphemeral world |}, None), set_mem m c)
      | Ok (None, m) => (Err WriteNotFound, set_mem m c)
      | Err err => (Err (QuotaExceeded (mq_used err) (mq_quota err) (mq_projected err)), c)
      end
  end.

(** The metadata an append starts from; the read cache is not involved. *)
Definition append_metadata (env : Env) (world : string)
  : op WriteError (option (Z * string * list (string * string))) := fun c =>
  match MemoryWorldPath_new world with
  | Some memory_world => (Ok (mem_metadata (mem c) memory_world), c)
  | None => (map_err (classify_write_storage_error "storage metadata" OpRead)
               (faulty (fault env IoMetadata) (metadata <$> open_file world c)), c)
  end.

Definition append_write_blocking (env : Env) (permit : WritePermit) (req : AppendRequest)
  : op WriteError WriteOutcome :=
  _ ← lift (map_err WriteInternal (ensure_write_permit permit));
  let world := wp_world permit in
  _ ← begin_file_op WriteShuttingDown;
  _ ← modify (clear_tombstone world);
  _ ← check_write_preconditions env world (aq_preconditions req);
  meta ← append_metadata env world;
  '(body_len, content_type, stored_headers) ← lift (ok_or WriteNotFound meta);
  projected_len ← lift (ok_or (PayloadTooLarge (max_world_bytes cfg))
                          (checked_add body_len (slen (aq_body req))));
  _ ← lift (ensure (projected_len <=? max_world_bytes cfg)%Z
                   (PayloadTooLarge (max_world_bytes cfg)));
  '(n, format_notice) ← (if is_persistent world
                         then append_durable env world body_len content_type stored_headers
                                projected_len req
                         else append_memory world req);
  _ ← modify (notify_write VerbAppend n format_notice);
  mret {| wo_status_kind := StatusUpdated; wo_etag := nt_etag n |}.

Definition append_write (env : Env) (permit : WritePermit) (req : AppendRequest)
  : op WriteError WriteOutcome := append_write_blocking env permit req.
End WorldOps.
