(* ===== verification/DeleteOps.v ===== *)
(** * Delete and the delete ledger

    Models [core/src/ledger.rs] and [core/src/delete_ops.rs]: a delete signs its
    intent into the ledger world [var/log/deletes], removes the world, accounts
    for it, announces it, and signs the commit (or the failure to). *)

From S2P Require Import Prelude.
From S2P Require Import Path.
From S2P Require Import Auth.
From S2P Require Import Crypto.
From S2P Require Import Etag.
From S2P Require Import Types.
From S2P Require Import Db.
From S2P Require Import AuditVerify.
From S2P Require Import AuditGates.
From S2P Require Import AuditAppend.
From S2P Require Import Cas.
From S2P Require Import WorldWrite.
From S2P Require Import Timeline.
From S2P Require Import EventId.
From S2P Require Import Store.
From S2P Require Import Quota.
From S2P Require Import StorageClass.
From S2P Require Import Core.
From S2P Require Import WorldOps.

(** ** [ledger.rs] *)

Record AuditAppendJob := {
  aj_event_type : AuditEventKind;
  aj_target : string;
  aj_body_sha256 : string;
  aj_size : Z;
  aj_content_type : string;
  aj_headers : AuditHeaders;
}.

Inductive BlockingSqliteError :=
| LedgerAudit (e : AuditError)
| LedgerSqlite (e : sqlite_error)
| CounterCapacity
| LedgerWorker.

Record AppendedLedgerEvent := {
  le_event_type : AuditEventKind;
  le_target : string;
  le_event_id : SubscriptionEventId;
  le_body_sha256 : string;
  le_size : Z;
  le_content_type : string;
  le_delete_subject : option DeleteSubjectProof;
  le_hmac : string;
  le_format_event : option AppendedAuditRow;
}.

Definition ledger_event (row : AppendedAuditRow) (subject : option DeleteSubjectProof)
    (format_event : option AppendedAuditRow) : AppendedLedgerEvent :=
  {| le_event_type := ar_event_type row; le_target := ar_target row;
     le_event_id := from_appended_audit_row row; le_body_sha256 := ar_body_sha256 row;
     le_size := ar_size row; le_content_type := ar_content_type row;
     le_delete_subject := subject; le_hmac := ar_hmac row; le_format_event := format_event |}.

Definition as_delete_intent (e : AppendedLedgerEvent) : option AppendedLedgerEvent :=
  match le_event_type e with DeleteIntent => Some e | _ => None end.

(** ** [delete_ops.rs]: requests and errors *)

Record DeleteRequest := {
  dq_preconditions : Preconditions;
  dq_content_type : string;
  dq_headers : list (string * string);
}.

Inductive DeleteError :=
| DeleteAuth (gate : AuthGate)
| AppendOnlyLedger
| ReservedMetadataHeader
| DeleteInvalidMetadata (message : string)
| DeletePreconditionFailed (message : string)
| DeleteNotFound
| SubjectAudit (world : string) (err : AuditError)
| AuditRead (scope world : string) (err : AuditError)
| SubjectMissingHead (world : string)
| DeleteTransientStorage (scope world : string) (err : sqlite_error)
| DeleteInsufficientStorage (scope world : string) (err : sqlite_error)
| DeleteStorageRead (scope world : string) (err : sqlite_error)
| AuditIntent (world : string) (err : BlockingSqliteError)
| DeleteInternalInvariant (message : string)
| DeleteBlockingWorker (err : BlockingJoinError)
| DeleteShuttingDown
| DeleteFailedAfterIntent
| AuditCommitFailed.

Section DeleteOps.
Context `{Crypto} `{Rusqlite} (cfg : Config).

Definition ledger_is_empty (db : world_db) : bool := (event_count db =? 0)%Z.

(** The lazily opened connection of [LedgerWriter]. *)
Definition connect_ledger (le : LedgerEnv) : op BlockingSqliteError unit := fun c =>
  if ledger_conn c then (Ok tt, c)
  else
    match le_open_fault le with
    | Some err => (Err (LedgerSqlite err), c)
    | None =>
        let '(r, c) := open_world (le_creation le) (le_generation le) DELETE_LEDGER_WORLD c in
        match r with
        | Err err => (Err (LedgerSqlite err), c)
        | Ok _ => (Ok tt, set_ledger true (ledger_inits c + 1) c)
        end
    end.

Definition open_ledger (le : LedgerEnv) : op BlockingSqliteError world_db :=
  _ ← connect_ledger le;
  db ← gets (fun c => files c !! DELETE_LEDGER_WORLD);
  lift (ok_or (LedgerSqlite (SqliteFailure InternalMalfunction None)) db).

(** [LedgerWriter::append]: the file changes only when the append commits. *)
Definition ledger_append (le : LedgerEnv) (job : AuditAppendJob)
  : op BlockingSqliteError AppendedLedgerEvent :=
  db ← open_ledger le;
  is_empty ← lift (map_err LedgerSqlite (faulty (le_count_fault le) (Ok (ledger_is_empty db))));
  let subject := ah_delete_subject (aj_headers job) in
  '(format_event, row, db) ← lift (map_err LedgerAudit (faulty_audit (le_fault le)
    (if is_empty : bool then
       '(format_event, row, db) ← append_with_conn_genesis_row (le_now_format le) (le_now le)
          (aj_event_type job) DELETE_LEDGER_WORLD (aj_target job) (aj_body_sha256 job)
          (aj_size job) (aj_content_type job) (aj_headers job) (hmac_key cfg) db;
       Ok (Some format_event, row, db)
     else
       '(row, db) ← append_with_conn_existing_row (le_now le) (aj_event_type job)
          DELETE_LEDGER_WORLD (aj_target job) (aj_body_sha256 job) (aj_size job)
          (aj_content_type job) (aj_headers job) (hmac_key cfg) db;
       Ok (None, row, db))));
  _ ← modify (set_files (<[DELETE_LEDGER_WORLD := db]>));
  mret (ledger_event row subject format_event).

Definition target_from_appended_ledger_event (e : AppendedLedgerEvent) : ChangeTarget :=
  TargetChain {| me_id := le_event_id e; me_timeline_address := None;
                 me_audit_payload :=
                   {| ap_kind := le_event_type e; ap_target := le_target e;
                      ap_body_sha256 := le_body_sha256 e; ap_size := le_size e;
                      ap_content_type := le_content_type e;
                      ap_delete_subject := le_delete_subject e |} |}.

Definition ledger_verb (k : AuditEventKind) : ChangeVerb :=
  match k with
  | DeleteIntent | DeleteCommit | DeleteCommitFailed => VerbDelete
  | Put | Append => VerbReplace
  | Format => VerbFormat
  end.

Definition notify_ledger_event (e : AppendedLedgerEvent) (c : Core) : Core :=
  let c := match le_format_event e with
           | Some f => notify_with_aux (listen_replay_max cfg) VerbFormat
                         (target_from_appended_audit_row f) (hmac_etag (ar_hmac f)) aux_default c
           | None => c
           end in
  notify_with_aux (listen_replay_max cfg) (ledger_verb (le_event_type e))
    (target_from_appended_ledger_event e) (hmac_etag (le_hmac e)) aux_default c.

Definition append_ledger_event_and_notify (le : LedgerEnv) (job : AuditAppendJob)
  : op BlockingSqliteError AppendedLedgerEvent :=
  _ ← reserve_events CounterCapacity;
  event ← on_drop drop_events (ledger_append le job);
  _ ← modify (set_counters (commit_events (is_some (le_format_event event))));
  _ ← modify (notify_ledger_event event);
  mret event.

(** ** Delete *)

Definition classify_storage_error (scope world : string) (err : sqlite_error) : DeleteError :=
  match classify_storage_failure err with
  | InsufficientStorage => DeleteInsufficientStorage scope world err
  | Transient => DeleteTransientStorage scope world err
  | Other => DeleteStorageRead scope world err
  end.

Definition classify_audit_error (scope world : string) (err : AuditError) : DeleteError :=
  match err with
  | ChainBroken _ => AuditRead scope world err
  | Storage err => classify_storage_error scope world err
  end.

Definition storage_len_missing_error : sqlite_error :=
  corrupt_error "persistent world vanished while computing storage_len".

Definition delete_check_preconditions (env : Env) (world : string) (p : Preconditions)
  : op DeleteError unit := fun c =>
  if is_empty p then (Ok tt, c)
  else
    (current ← map_err (classify_audit_error "precondition read" world)
                 (read_world_with_etag (fault env IoPreconditionRead) (hmac_key cfg) world c);
     map_err DeletePreconditionFailed (check_preconditions p (option_map snd current)), c).

(** [accounted_storage_usage] of a persistent world. *)
Definition storage_usage_before (env : Env) (world : string)
  : op DeleteError (option StorageUsageSnapshot) := fun c =>
  (if is_persistent world then
     usage ← map_err (classify_storage_error "storage size" world)
               (faulty (fault env IoUsage) (odb ← open_file world c; storage_usage_inner odb));
     match usage with
     | Some u => Ok (Some u)
     | None => Err (classify_storage_error "storage size" world storage_len_missing_error)
     end
   else Ok None, c).

Definition subject_of_head (head : VerifiedBodyHead) : DeleteSubjectProof :=
  {| ds_address := vh_address head; ds_hmac := vh_hmac head |}.

Definition capture_delete_subject_proof (env : Env) (world : string)
  : op DeleteError (option DeleteSubjectProof) := fun c =>
  (if is_memory_world world then Ok None
   else
     head ← map_err (SubjectAudit world)
              (latest_body_head (fault env IoSubject) (hmac_key cfg) world c);
     match head with
     | None => Err (SubjectMissingHead world)
     | Some head => Ok (Some (subject_of_head head))
     end, c).

(** The directory is removed, or the database without the rest of it. *)
Definition remove_file (world : string) (c : Core) : Core :=
  set_broken (base.delete world) (set_files (base.delete world) c).

Definition lose_file (world : string) (c : Core) : Core :=
  remove_file world (set_lost (fun l => match files c !! world with Some db => db :: l | None => l end) c).

(** [delete_world_now]: whether the world is gone. *)
Definition delete_world_now (env : Env) (world : string) : op DeleteError bool := fun c =>
  match MemoryWorldPath_new world with
  | Some memory_world => let '(ok, m) := Store.delete (mem c) memory_world in (Ok ok, set_mem m c)
  | None =>
      match open_file world c with
      | Ok None => (Ok false, c)
      | _ =>
          match removed env with
          | DirRemoved => (Ok true, remove_file world c)
          | FileKept => (Ok false, c)
          | FileRemoved => (Ok false, lose_file world c)
          end
      end
  end.

Definition delete_job (k : AuditEventKind) (world body_sha256 content_type : string)
    (headers : AuditHeaders) : AuditAppendJob :=
  {| aj_event_type := k; aj_target := world; aj_body_sha256 := body_sha256; aj_size := 0;
     aj_content_type := content_type; aj_headers := headers |}.

(** The first intent makes the ledger a durable world. *)
Definition count_ledger (c : Core) : Core :=
  let c' := set_ledger_created true c in
  if delete_ledger_created c then c' else set_counters count_world c'.

(** Counters after the world is gone; the usage was taken of this world, so the
    proof check of [subtract_storage_usage] passes. *)
Definition account_delete (world : string) (usage : option StorageUsageSnapshot) (k : Counters)
  : Counters :=
  if is_persistent world then
    let k := match usage with Some u => subtract_storage_usage u k | None => k end in
    set_world_count (saturating_sub (durable_world_count k) 1) k
  else k.

Definition finish_delete (env : Env) (commit failed : AuditAppendJob) : op DeleteError unit :=
  commit_result ← try (append_ledger_event_and_notify (ledger_commit env) commit);
  match commit_result with
  | Ok _ => mret tt
  | Err _ =>
      _ ← try (append_ledger_event_and_notify (ledger_commit_failed env) failed);
      fail AuditCommitFailed
  end.

(** The world is drained, removed and accounted for. *)
Definition removal (env : Env) (world : string) (usage : option StorageUsageSnapshot)
  : op DeleteError unit :=
  _ ← modify (clear_cached_write_conn world);
  _ ← modify (install_tombstone_blocking world);
  ok ← delete_world_now env world;
  _ ← modify (clear_tombstone world);
  _ ← lift (ensure ok DeleteFailedAfterIntent);
  _ ← modify (set_verified (fun cache => cache ∖ {[world]}));
  modify (set_counters (account_delete world usage)).

(** What follows the checks: intent, removal, announcement, commit. *)
Definition perform_delete (env : Env) (world body_sha256 content_type : string)
    (headers : AuditHeaders) (usage : option StorageUsageSnapshot) : op DeleteError unit :=
  let job k := delete_job k world body_sha256 content_type headers in
  intent ← (fun c => let '(r, c) := append_ledger_event_and_notify (ledger_intent env)
                                      (job DeleteIntent) c in
                     (map_err (AuditIntent world) r, c));
  _ ← modify count_ledger;
  _ ← removal env world usage;
  intent ← lift (ok_or (DeleteInternalInvariant "ledger append returned non-delete-intent event")
                       (as_delete_intent intent));
  _ ← modify (notify_with_aux (listen_replay_max cfg) VerbDelete (TargetEphemeral world) ""
                {| aux_delete_ledger_event_id := Some (le_event_id intent);
                   aux_delete_subject := le_delete_subject intent |});
  finish_delete env (job DeleteCommit) (job DeleteCommitFailed).

(** Up to the intent: the digest, the ledger headers and the usage it needs. *)
Definition delete_prepare (env : Env) (world : string) (req : DeleteRequest)
  : op DeleteError (string * AuditHeaders * option StorageUsageSnapshot) :=
  _ ← begin_file_op DeleteShuttingDown;
  _ ← delete_check_preconditions env world (dq_preconditions req);
  _ ← lift (map_err DeleteInvalidMetadata
              (validate_representation_metadata (dq_content_type req) (dq_headers req)));
  user_headers ← lift (map_err (fun _ => ReservedMetadataHeader)
                         (AuditHeaders_from_user (dq_headers req)));
  stage ← (fun c => (map_err (classify_audit_error "storage read" world)
                       (read_world (fault env IoRead) (hmac_key cfg) world c), c));
  stage ← lift (ok_or DeleteNotFound stage);
  usage ← storage_usage_before env world;
  subject ← capture_delete_subject_proof env world;
  let body_sha256_before := match subject with
                            | Some s => ta_body_sha256 (ds_address s)
                            | None => sha256_hex (stage_body stage)
                            end in
  let ledger_headers := match subject with
                        | Some s => with_delete_subject user_headers s
                        | None => user_headers
                        end in
  mret (body_sha256_before, ledger_headers, usage).

Definition delete_blocking (env : Env) (world : string) (req : DeleteRequest)
  : op DeleteError unit :=
  '(body_sha256_before, ledger_headers, usage) ← delete_prepare env world req;
  perform_delete env world body_sha256_before (dq_content_type req) ledger_headers usage.

(** [delete]: the permit carries the world, the locks make it one step. *)
Definition delete (env : Env) (permit_world : string) (req : DeleteRequest)
  : op DeleteError unit := delete_blocking env permit_world req.
End DeleteOps.
