(* ===== verification/Estimate.v ===== *)
(** * The quota preflight predicts the prune exactly

    Before a write opens its transaction, [prunable_body_len_after_next_body]
    estimates what pruning will free and [missing_body_len] what retaining the
    body will add.  On an intact file both are exact. *)

From S2P Require Import Prelude.
From S2P Require Import Crypto.
From S2P Require Import Types.
From S2P Require Import Db.
From S2P Require Import AuditVerify.
From S2P Require Import AuditAppend.
From S2P Require Import Cas.
From S2P Require Import ChainSpec.
From S2P Require Import ChainValid.
From S2P Require Import CasProofs.
From S2P Require Import WriteProofs.

(** ** The floor after one more body event *)

Lemma floor_of_last_push n evs row :
  (0 < n)%Z ->
  floor_of_last n (evs ++ [row])
  = Some (default (ev_id row) (if (n =? 1)%Z then None else floor_of_last (n - 1) evs)).
Proof.
  intros Hn. unfold floor_of_last. rewrite reverse_snoc.
  replace (Z.to_nat n) with (S (Z.to_nat (n - 1))) by lia. cbn [take].
  destruct (Z.eqb_spec n 1) as [->|Hne]; [done|].
  destruct (take (Z.to_nat (n - 1)) (reverse evs)) as [|e l] eqn:E; [done|].
  rewrite last_cons_cons. destruct (last (e :: l)) eqn:El; [done|]. by apply last_None in El.
Qed.

Lemma floor_of_last_all n evs :
  (Z.of_nat (length evs) <= n)%Z -> floor_of_last n evs = ev_id <$> head evs.
Proof.
  intros Hn. unfold floor_of_last. rewrite take_ge by (rewrite length_reverse; lia).
  by rewrite last_reverse.
Qed.

Lemma head_smallest evs e e' :
  StronglySorted Z.lt (ev_id <$> evs) -> head evs = Some e -> e' ∈ evs -> (ev_id e <= ev_id e')%Z.
Proof.
  destruct evs as [|x evs]; [done|]. cbn. intros Hs [= ->] Hin. inversion Hs as [|? ? _ Hlt]; subst.
  apply elem_of_cons in Hin as [->|Hin]; [lia|].
  rewrite Forall_forall in Hlt. specialize (Hlt (ev_id e')). rewrite list_elem_of_fmap in Hlt.
  apply Z.lt_le_incl, Hlt. by exists e'.
Qed.

Lemma filter_sorted {A} (f : A -> Z) (P : A -> Prop) `{forall x, Decision (P x)} l :
  StronglySorted Z.lt (f <$> l) -> StronglySorted Z.lt (f <$> filter P l).
Proof.
  induction l as [|x l IH]; [done|]. cbn [fmap list_fmap]. intros Hs. inversion Hs as [|? ? Hs' Hlt]; subst.
  rewrite filter_cons. case_decide; [|by apply IH]. cbn. constructor; [by apply IH|].
  rewrite Forall_forall in *. intros z (y & -> & [_ Hy]%list_elem_of_filter)%list_elem_of_fmap.
  apply Hlt, list_elem_of_fmap. by exists y.
Qed.

Lemma body_events_sorted db : db_wf db -> StronglySorted Z.lt (ev_id <$> body_events db).
Proof. intros Hwf. apply filter_sorted, Hwf. Qed.

Lemma max_id_ge l e :
  e ∈ l -> (ev_id e <= foldr (fun e m => Z.max (ev_id e) m) 0%Z l)%Z.
Proof.
  induction l as [|x l IH]; [by intros ?%not_elem_of_nil|]. cbn.
  intros [->|Hin]%elem_of_cons; [lia|]. specialize (IH Hin). lia.
Qed.

(** ** Candidates before and after the new row *)

Section Candidates.
Context `{CryptoLaws}.

Lemma candidates_push db body row m :
  ev_body_sha256 row = sha256_hex body -> (m <= ev_id row)%Z ->
  prune_candidates m (body_events db ++ [row]) (retained_cas db body)
  = filter (fun p => fst p <> sha256_hex body) (prune_candidates m (body_events db) (db_cas db)).
Proof.
  intros Hsha Hm. apply map_eq. intros k. apply option_eq. intros b.
  rewrite map_lookup_filter_Some, !prune_candidates_lookup, hashes_from_app, hashes_from_one, Hsha by done.
  cbn [fst]. rewrite not_elem_of_union, not_elem_of_singleton, !elem_hashes_below.
  setoid_rewrite elem_of_app. setoid_rewrite list_elem_of_singleton.
  unfold retained_cas. split.
  - intros (Hb & (e & [He| ->] & Hlt & Hk) & Hn & Hne); [|lia].
    split_and!; try done; [|by eauto 8].
    destruct (db_cas db !! sha256_hex body); [done|]. by rewrite lookup_insert_ne in Hb.
  - intros [(Hb & (e & He & Hlt & Hk) & Hn) Hne].
    split_and!; try done; [|by eauto 8].
    destruct (db_cas db !! sha256_hex body); [done|]. by rewrite lookup_insert_ne.
Qed.

(** Above every event all floors name the same candidates. *)
Lemma candidates_above m m' evs cas :
  (forall e, e ∈ evs -> (ev_id e < m)%Z) -> (m <= m')%Z ->
  prune_candidates m evs cas = prune_candidates m' evs cas.
Proof.
  intros Hlt Hle. apply map_eq. intros k. apply option_eq. intros b.
  rewrite !prune_candidates_lookup, !elem_hashes_below, !elem_hashes_from.
  split; intros (Hb & (e & He & _ & Hk) & _); (split_and!; [done|exists e; split_and!; try done|]).
  1,3: specialize (Hlt _ He); lia.
  all: intros (e' & He' & ? & _); specialize (Hlt _ He'); lia.
Qed.

Section Exact.
Context (w key : string) (db : world_db) (body : string) (k : AuditEventKind)
  (ct : string) (hs : list (string * string)) (now : string) (n : Z)
  (stage_ct : string) (meta : list (string * string)).
Hypothesis Hwf : db_wf db.
Hypothesis Hr : retention_valid db.
Hypothesis Hn : (0 < n <= i64_max)%Z.
Hypothesis Hk : body_bearing (class k) = true.

Notation pruned := (commit_pruned w key db body k ct hs now n stage_ct meta).
Notation row := (body_row w key db body k ct hs now).

(** What the commit prunes, in terms of the file before it. *)
Lemma commit_pruned_before :
  pruned
  = let nf := default (db_seq db + 1)%Z
                (if (n =? 1)%Z then None else floor_of_last (n - 1) (body_events db)) in
    match db_floor db with
    | Some f =>
        if (f <? nf)%Z
        then filter (fun p => fst p <> sha256_hex body)
               (prune_candidates nf (body_events db) (db_cas db))
        else ∅
    | None => ∅
    end.
Proof using All.
  cbv zeta. unfold commit_pruned, commit_floor, pruned_floor. rewrite body_events_marked by done.
  rewrite floor_of_last_push by lia. change (ev_id row) with (db_seq db + 1)%Z.
  cbn [default from_option id]. set (nf := default _ _).
  assert (nf <= db_seq db + 1)%Z as Hnf.
  { unfold nf. destruct (n =? 1)%Z; [cbn; lia|]. destruct (floor_of_last _ _) as [f|] eqn:E; cbn; [|lia].
    destruct (floor_of_last_elem _ _ _ E) as (e & He & <-). pose proof (body_event_pos db e Hwf He). lia. }
  unfold started_floor. destruct (db_floor db) as [f|] eqn:Ef; cbn [default from_option id].
  - destruct (Z.ltb_spec f nf) as [Hlt|Hge].
    + rewrite Z.max_r, (proj2 (Z.ltb_lt _ _)) by lia. by apply candidates_push.
    + rewrite Z.max_l, Z.ltb_irrefl by lia. done.
  - assert (nf = db_seq db + 1)%Z as ->.
    { unfold nf, retention_valid in *. rewrite Ef in Hr. destruct Hr as [_ ->].
      unfold floor_of_last. rewrite reverse_nil, take_nil. by destruct (n =? 1)%Z. }
    by rewrite Z.max_id, Z.ltb_irrefl.
Qed.

Lemma sum_nonneg_usize m : nonnegative_usize (sum_len m) 0 = Ok (sum_len m).
Proof. apply nonneg_usize_Ok, sum_len_nonneg. Qed.

(** Fewer body events than are kept: nothing is pruned. *)
Lemma estimate_few :
  (Z.of_nat (length (body_events db)) + 1 < n)%Z -> sum_len pruned = 0%Z.
Proof using All.
  intros Hlt. rewrite commit_pruned_before. cbv zeta. destruct (Z.eqb_spec n 1); [lia|].
  rewrite floor_of_last_all by lia. unfold retention_valid in Hr.
  destruct (db_floor db) as [f|]; [|done]. destruct Hr as (_ & (e & He & <-) & _).
  destruct (head (body_events db)) as [e0|] eqn:E0.
  - pose proof (head_smallest _ _ _ (body_events_sorted _ Hwf) E0 He). cbn.
    by rewrite (proj2 (Z.ltb_ge _ _)) by lia.
  - apply head_None in E0. rewrite E0 in He. by apply not_elem_of_nil in He.
Qed.

(** The estimate under an estimated floor. *)
Lemma estimate_under_floor m :
  (0 < m)%Z ->
  (forall f, db_floor db = Some f -> (m <= f)%Z <-> (default (db_seq db + 1)
     (if n =? 1 then None else floor_of_last (n - 1) (body_events db)) <= f)%Z) ->
  (is_Some (db_floor db) -> prune_candidates m (body_events db) (db_cas db)
     = prune_candidates (default (db_seq db + 1)%Z
         (if (n =? 1)%Z then None else floor_of_last (n - 1) (body_events db)))
         (body_events db) (db_cas db)) ->
  (current ← (match db_floor db with
              | None => Ok None
              | Some seq =>
                  seq ← map_err (fun _ => corrupt_error "cas_state first_retained_seq invalid")
                         (TimelineSeq_new seq);
                  Ok (Some seq)
              end);
   if match current with Some floor => (m <=? floor)%Z | None => false end then Ok 0%Z
   else nonnegative_usize (sum_len (filter (fun p => fst p <> sha256_hex body)
          (prune_candidates m (body_events db) (db_cas db)))) 0)
  = Ok (sum_len pruned).
Proof using All.
  intros Hm Hle Hc. rewrite commit_pruned_before. cbv zeta. unfold retention_valid in Hr.
  destruct (db_floor db) as [f|].
  - destruct Hr as (Hf & _). rewrite (proj2 (TimelineSeq_new_Ok _ _) (conj eq_refl Hf)).
    cbn [map_err mbind result_bind]. specialize (Hle f eq_refl).
    destruct (Z.leb_spec m f).
    + by rewrite (proj2 (Z.ltb_ge _ _)) by tauto.
    + rewrite (proj2 (Z.ltb_lt _ _)) by lia. by rewrite sum_nonneg_usize, Hc.
  - destruct Hr as [-> ->]. unfold prune_candidates. by rewrite !map_filter_empty.
Qed.

(** The estimate of the preflight is what the commit prunes. *)
Lemma estimate_exact :
  prunable_body_len_after_next_body db body n = Ok (sum_len pruned).
Proof using All.
  unfold prunable_body_len_after_next_body, retained_floor_after_next_body.
  rewrite (proj2 (i64_try_from_Some _ _) (conj eq_refl (proj2 Hn))).
  pose proof (max_id_le _ _ (proj1 (wf_seq _ Hwf)) (wf_ids_pos _ Hwf)) as Hmax.
  destruct (Z.ltb_spec (Z.min (Z.of_nat (length (body_events db)) + 1) i64_max) n) as [Hlt|Hge].
  { cbn [mbind result_bind]. by rewrite estimate_few by lia. }
  unfold EstimatedRetentionFloor_new. destruct (Z.eqb_spec n 1) as [E1|Hne].
  - assert (forall e, e ∈ body_events db ->
      (ev_id e < foldr (fun e m => Z.max (ev_id e) m) 0 (db_events db) + 1)%Z) as Hab.
    { intros e [_ He]%elem_body_events. apply max_id_ge in He. lia. }
    rewrite (proj2 (TimelineSeq_new_Ok _ _)) by (split; [done|lia]).
    cbn [map_err mbind result_bind]. apply estimate_under_floor; rewrite ?E1, ?Z.eqb_refl; cbn [default from_option id].
    + lia.
    + intros f Hf. unfold retention_valid in Hr. rewrite Hf in Hr.
      destruct Hr as (_ & (e & He & <-) & _). specialize (Hab e He).
      pose proof (body_event_pos db e Hwf He). lia.
    + intros _. apply candidates_above; [done|lia].
  - destruct (floor_of_last (n - 1) (body_events db)) as [m|] eqn:Em.
    + destruct (floor_of_last_elem _ _ _ Em) as (e & He & <-).
      pose proof (body_event_pos db e Hwf He).
      rewrite (proj2 (TimelineSeq_new_Ok _ _)) by (split; [done|lia]).
      cbn [map_err mbind result_bind].
      apply estimate_under_floor; rewrite ?(proj2 (Z.eqb_neq _ _) Hne), ?Em; cbn; [lia|done|done].
    + apply floor_of_last_None in Em; [|lia]. rewrite Em in Hge. cbn in Hge. lia.
Qed.

Lemma pruned_le : (0 <= sum_len pruned <= sum_len (db_cas db))%Z.
Proof using All.
  split; [apply sum_len_nonneg|]. rewrite commit_pruned_before. cbv zeta.
  assert (forall m : gmap string string, m ⊆ db_cas db -> (sum_len m <= sum_len (db_cas db))%Z) as Hsub.
  { intros m Hm. rewrite (sum_len_difference _ _ Hm). pose proof (sum_len_nonneg (db_cas db ∖ m)). lia. }
  destruct (db_floor db) as [f|]; [|apply Hsub, map_empty_subseteq].
  destruct (_ <? _)%Z; [|apply Hsub, map_empty_subseteq].
  apply Hsub. etrans; [apply map_filter_subseteq|apply candidates_subseteq].
Qed.
End Exact.
End Candidates.
