(* ===== verification/Usage.v ===== *)
(** * What a committed transaction adds to a file

    For any file the engine keeps (intact, or freshly created and still empty):
    a committed write or append leaves an intact file, and the preflight's
    snapshot, the reported prune and the change of the file's sizes agree. *)

From S2P Require Import Prelude.
From S2P Require Import Path.
From S2P Require Import Crypto.
From S2P Require Import Types.
From S2P Require Import Db.
From S2P Require Import AuditVerify.
From S2P Require Import AuditGates.
From S2P Require Import AuditAppend.
From S2P Require Import Cas.
From S2P Require Import WorldWrite.
From S2P Require Import ChainSpec.
From S2P Require Import ChainValid.
From S2P Require Import GateProofs.
From S2P Require Import CasProofs.
From S2P Require Import WriteProofs.
From S2P Require Import WriteTheorems.
From S2P Require Import Estimate.

Section Usage.
Context `{CryptoLaws}.

(** A file the engine keeps: intact, or the fresh schema of a created world. *)
Definition file_ok (key w : string) (db : world_db) : Prop :=
  db_wf db
  /\ (chain_valid w key db \/ exists g, WorldGeneration_new g = Ok g /\ db = create g).

Lemma file_ok_pre key w db : file_ok key w db -> db_wf db /\ pre_valid w key db.
Proof.
  intros [Hwf [Hv|(g & Hg & ->)]]; (split; [done|]); [by apply chain_valid_pre|by apply create_pre_valid].
Qed.

(** Every gate gives the same authority. *)
Lemma gate_authority key w db cache opened r :
  file_ok key w db -> verify_appendable_world_tx db cache w key opened = Ok r ->
  exists gen prefix, r = (authority key w db, gen, prefix).
Proof.
  intros [Hwf [Hv|(g & Hg & ->)]].
  - destruct opened.
    + unfold verify_appendable_world_tx, audit_chain_opening. rewrite append_gate_accepts by done.
      intros [= <-]. by eexists _, _.
    + rewrite gate_existing by done. intros [= <-]. by eexists _, _.
  - unfold verify_appendable_world_tx. rewrite genesis_opening, genesis_gate_accepts by done.
    intros [= <-]. by eexists _, _.
Qed.

(** Two files that differ only by rows without body. *)
Record same_bodies (db db' : world_db) : Prop := {
  sb_generation : db_generation db' = db_generation db;
  sb_cas : db_cas db' = db_cas db;
  sb_floor : db_floor db' = db_floor db;
  sb_body : db_body db' = db_body db;
  sb_content_type : db_content_type db' = db_content_type db;
  sb_meta : db_meta_headers db' = db_meta_headers db;
  sb_events : body_events db' = body_events db;
}.

Lemma same_bodies_refl db : same_bodies db db.
Proof. done. Qed.

(** Appending a row without body keeps a file valid, up to its live body. *)
Lemma append_non_body atx now k target sha sz ct hs w key db row db' :
  db_wf db -> pre_valid w key db -> atx = authority key w db ->
  signable w k target sha (canonical_headers hs) -> body_bearing (class k) = false ->
  append_tx_inner atx now k target sha sz ct hs db = Ok (row, db') ->
  db_wf db' /\ pre_valid w key db' /\ same_bodies db db'
  /\ event_count db' = (event_count db + 1)%Z /\ db_events db' <> []
  /\ exists r, db_events db' = db_events db ++ [r] /\ ev_event_type r = as_str k
       /\ ev_target r = target /\ ev_body_sha256 r = sha /\ ev_hmac r = ar_hmac row
       /\ ev_id r = ar_id row.
Proof.
  intros Hwf Hpre -> Hs Hk Ha. destruct (append_tx_inner_inv _ _ _ _ _ _ _ _ _ _ Hwf Ha) as [Hnow Hseq].
  rewrite append_tx_inner_Ok in Ha by done. injection Ha as <- <-.
  destruct (append_links (authority key w db) now k target sha sz ct hs db Hwf Hnow Hseq Hs
              (pv_links _ _ _ Hpre)) as [Hl Hwf'].
  assert (same_bodies db (insert_event db (signed_row (authority key w db) (db_seq db + 1) now
    (default "" (latest_hmac db)) k target sha sz ct (canonical_headers hs)) (canonical_headers hs)))
    as Hsame.
  { split; try done. rewrite body_events_insert, is_body_signed, Hk. apply app_nil_r. }
  split_and!; [done| |done| | |by eexists].
  - split; [apply Hpre|apply Hpre|exact Hl|]. pose proof (pv_retained _ _ _ Hpre) as Hr.
    unfold retention_valid in *. rewrite (sb_events _ _ Hsame). exact Hr.
  - unfold event_count. cbn. rewrite length_app. cbn. lia.
  - cbn. by destruct (db_events db).
Qed.

(** The format row of a genesis. *)
Lemma format_step gen key w nowf db fe db' :
  db_wf db -> pre_valid w key db ->
  append_format_if gen (authority key w db) nowf db = Ok (fe, db') ->
  db_wf db' /\ pre_valid w key db' /\ same_bodies db db'
  /\ authority key w db' = authority key w db
  /\ event_count db' = (event_count db + if fe then 1 else 0)%Z.
Proof.
  intros Hwf Hpre. unfold append_format_if, append_format_tx_row. destruct gen.
  - intros Ha. apply result_bind_Ok in Ha as ([row db1] & Hi & Ha). apply map_err_Ok in Hi.
    injection Ha as <- <-.
    destruct (append_non_body _ _ _ _ _ _ _ _ _ _ _ _ _ Hwf Hpre eq_refl
                (signable_format _ _ _ format_has_version) eq_refl Hi) as (? & ? & Hs & Hc & _).
    split_and!; try done. unfold authority. by rewrite (sb_generation _ _ Hs).
  - intros [= <- <-]. split_and!; try done. lia.
Qed.

(** ** Sizes *)

(** The estimate does not look at rows without body. *)
Lemma estimate_same_bodies db db' body n :
  db_wf db -> db_wf db' -> retention_valid db -> retention_valid db' -> (0 < n <= i64_max)%Z ->
  same_bodies db db' ->
  prunable_body_len_after_next_body db' body n = prunable_body_len_after_next_body db body n.
Proof.
  intros Hwf Hwf' Hr Hr' Hn Hs.
  rewrite (estimate_exact "" "" db body Put "" [] "" n "" []),
    (estimate_exact "" "" db' body Put "" [] "" n "" []) by done.
  rewrite !commit_pruned_before by done. cbv zeta.
  rewrite (sb_events _ _ Hs), (sb_floor _ _ Hs), (sb_cas _ _ Hs).
  destruct (if (n =? 1)%Z then None else floor_of_last (n - 1) (body_events db)); [done|].
  cbn [default from_option id]. unfold retention_valid in Hr.
  destruct (db_floor db) as [f|]; [|done]. destruct Hr as (_ & (e & He & <-) & _).
  assert (forall x, x ∈ body_events db -> (ev_id x < Z.min (db_seq db) (db_seq db') + 1)%Z) as Hlt.
  { intros x Hx. pose proof (body_event_pos db x Hwf Hx). rewrite <- (sb_events _ _ Hs) in Hx.
    pose proof (body_event_pos db' x Hwf' Hx). lia. }
  pose proof (Hlt e He).
  rewrite !(proj2 (Z.ltb_lt _ _)) by lia. do 3 f_equal.
  rewrite <- (candidates_above _ (db_seq db + 1) _ _ Hlt), <- (candidates_above _ (db_seq db' + 1) _ _ Hlt) by lia.
  done.
Qed.

Lemma sum_retained_cas db body :
  sum_len (retained_cas db body)
  = (sum_len (db_cas db) + if bool_decide (db_cas db !! sha256_hex body = None) then slen body else 0)%Z.
Proof.
  unfold retained_cas. destruct (db_cas db !! sha256_hex body) eqn:E.
  - rewrite bool_decide_false by done. lia.
  - rewrite bool_decide_true, sum_len_insert by done. lia.
Qed.

(** What a committed body transaction did to the file [db]. *)
Record committed (key w : string) (db : world_db) (body ct : string)
    (hs : list (string * string)) (n : Z) (inserted : bool) (pruned : PrunedCas)
    (fe : option AppendedAuditRow) (hmac : string) (db' : world_db) : Prop := {
  cm_valid : chain_valid w key db';
  cm_wf : db_wf db';
  cm_body : db_body db' = body;
  cm_len : (slen body <= i64_max)%Z;
  cm_inserted : inserted = bool_decide (db_cas db !! sha256_hex body = None);
  cm_estimate : prunable_body_len_after_next_body db body n = Ok (pruned_bytes pruned);
  cm_pruned : (0 <= pruned_bytes pruned <= sum_len (db_cas db))%Z;
  cm_cas : sum_len (db_cas db')
           = (sum_len (db_cas db) + (if inserted then slen body else 0) - pruned_bytes pruned)%Z;
  cm_events : event_count db' = (event_count db + if fe then 2 else 1)%Z;
  cm_read : read_with_hmac_via_conn db' w key
            = Ok ({| stage_body := body; stage_content_type := ct; stage_headers := hs |}, Some hmac);
}.

Lemma commit_usage key w db0 db body k ct hs now n sct meta (fe : option AppendedAuditRow) :
  file_ok key w db0 -> db_wf db -> pre_valid w key db -> same_bodies db0 db ->
  event_count db = (event_count db0 + if fe then 1 else 0)%Z ->
  can_commit db body now -> (0 < n <= i64_max)%Z -> NoDup meta.*1 ->
  body_bearing (class k) = true ->
  committed key w db0 body sct (sort_headers meta) n (rc_inserted (body_retained w db body))
    {| pruned_bytes := sum_len (commit_pruned w key db body k ct hs now n sct meta) |} fe
    (ev_hmac (body_row w key db body k ct hs now))
    (committed_db w key db body k ct hs now n sct meta).
Proof.
  intros Hok Hwf Hpre Hs Hc (Hfit & Hnow & Hseq) Hn Hm Hk.
  destruct (file_ok_pre _ _ _ Hok) as [Hwf0 Hpre0].
  destruct (read_back w key db body k ct hs now n sct meta) as (? & ? & _ & Hread & He); try done.
  pose proof (pv_retained _ _ _ Hpre) as Hr. pose proof (pv_retained _ _ _ Hpre0) as Hr0.
  split; try done; cbn [pruned_bytes body_retained rc_inserted].
  - apply Hfit.
  - by rewrite (sb_cas _ _ Hs).
  - rewrite <- (estimate_same_bodies db0 db) by done. by apply estimate_exact.
  - rewrite <- (sb_cas _ _ Hs). by apply pruned_le.
  - rewrite <- (sb_cas _ _ Hs), <- sum_retained_cas.
    assert (commit_pruned w key db body k ct hs now n sct meta ⊆ retained_cas db body) as Hsub.
    { unfold commit_pruned. destruct (_ <? _)%Z; [apply candidates_subseteq|apply map_empty_subseteq]. }
    rewrite (sum_len_difference _ _ Hsub). cbn. lia.
  - unfold event_count. rewrite He, length_app. cbn. unfold event_count in Hc. destruct fe; lia.
Qed.

Lemma write_usage key w db opened cache body ct hs n nowf now res cache' db' :
  file_ok key w db -> (0 < n <= i64_max)%Z ->
  write_with_audit_checked_retaining_on_conn opened cache w body ct hs key n nowf now db
  = Ok (res, cache', db') ->
  committed key w db body ct (sort_headers hs) n (wr_cas_body_inserted res) (wr_pruned_cas res)
    (wr_format_event res) (wr_hmac res) db'
  /\ wr_existed res = match opened with Existing => true | Created => false end.
Proof.
  intros Hok Hn Hw. pose proof (file_ok_pre _ _ _ Hok) as [Hwf Hpre].
  unfold write_with_audit_checked_retaining_on_conn in Hw.
  apply result_bind_Ok in Hw as (g & Hg & Hw).
  destruct (gate_authority _ _ _ _ _ _ Hok Hg) as (gen & prefix & ->).
  apply result_bind_Ok in Hw as ([fe db1] & Hf & Hw).
  destruct (format_step _ _ _ _ _ _ _ Hwf Hpre Hf) as (Hwf1 & Hpre1 & Hs & Ha & Hc).
  rewrite <- Ha in Hw.
  change (write_rest opened (authority key w db1) fe (cache_prefix prefix cache) w body ct hs n now db1
          = Ok (res, cache', db')) in Hw.
  destruct (write_rest_inv _ _ _ _ _ _ _ _ _ _ _ _ Hwf1 Hw) as [Hcan Hd].
  rewrite write_rest_Ok in Hw by done. injection Hw as <- <- <-. split; [|done].
  by apply commit_usage.
Qed.

Lemma append_usage key w db cache chunk ct hs n nowf now res hmac cache' db' :
  file_ok key w db -> (0 < n <= i64_max)%Z ->
  append_with_audit_retaining_on_conn cache w chunk ct hs key n nowf now db
  = Ok (res, hmac, cache', db') ->
  committed key w db (db_body db +:+ chunk) (db_content_type db) (select_meta_headers db) n
    (ap_cas_body_inserted res) (ap_pruned_cas res) (ap_format_event res) hmac db'.
Proof.
  intros Hok Hn Hw. pose proof (file_ok_pre _ _ _ Hok) as [Hwf Hpre].
  unfold append_with_audit_retaining_on_conn in Hw.
  apply result_bind_Ok in Hw as (g & Hg & Hw).
  destruct (gate_authority _ _ _ _ _ _ Hok Hg) as (gen & prefix & ->).
  apply result_bind_Ok in Hw as ([fe db1] & Hf & Hw).
  destruct (format_step _ _ _ _ _ _ _ Hwf Hpre Hf) as (Hwf1 & Hpre1 & Hs & Ha & Hc).
  rewrite <- Ha in Hw.
  change (append_rest (authority key w db1) fe (cache_prefix prefix cache) w chunk ct hs n now db1
          = Ok (res, hmac, cache', db')) in Hw.
  pose proof (append_rest_inv _ _ _ _ _ _ _ _ _ _ _ Hwf1 Hw) as Hcan.
  rewrite append_rest_Ok in Hw by done. injection Hw as <- <- <- <-.
  rewrite <- (sb_body _ _ Hs), <- (sb_content_type _ _ Hs).
  unfold select_meta_headers. rewrite <- (sb_meta _ _ Hs).
  apply commit_usage; try done. apply Hwf1.
Qed.
End Usage.
