(* ===== verification/CoreInv.v ===== *)
(** * The engine's invariant: intact files and exact counters

    A small program logic for operations, and the invariant every operation
    keeps whatever SQLite, the clock or the file system do: all world files are
    intact or fresh, and the accounting counters are the sums of what the files
    hold plus what the operation under way has reserved. *)

From S2P Require Import Prelude.
From S2P Require Import WorldSchema.
From S2P Require Import Path.
From S2P Require Import Auth.
From S2P Require Import Crypto.
From S2P Require Import Types.
From S2P Require Import Db.
From S2P Require Import AuditVerify.
From S2P Require Import AuditGates.
From S2P Require Import AuditAppend.
From S2P Require Import Cas.
From S2P Require Import WorldWrite.
From S2P Require Import Store.
From S2P Require Import Quota.
From S2P Require Import ChainSpec.
From S2P Require Import ChainValid.
From S2P Require Import CasProofs.
From S2P Require Import WriteProofs.
From S2P Require Import WriteTheorems.
From S2P Require Import Estimate.
From S2P Require Import Usage.
From S2P Require Import StorageClass.
From S2P Require Import Core.
From S2P Require Import WorldOps.
From S2P Require Import DeleteOps.

(** ** A program logic for operations *)

(** From a state that satisfies [P] the operation returns a value and a state
    that satisfy [Q], or fails in a state that satisfies [R]. *)
Definition hoare {E A} (P : Core -> Prop) (m : op E A) (Q : A -> Core -> Prop) (R : Core -> Prop)
  : Prop :=
  forall c, P c -> match m c with (Ok a, c') => Q a c' | (Err _, c') => R c' end.

Section Rules.
Context {E : Type}.

Lemma hoare_bind {A B} P (m : op E A) Q (f : A -> op E B) S R :
  hoare P m Q R -> (forall a, hoare (Q a) (f a) S R) -> hoare P (m ≫= f) S R.
Proof.
  intros Hm Hf c Hc. specialize (Hm c Hc). unfold mbind, op_bind.
  destruct (m c) as [[a|e] c']; [by apply Hf|done].
Qed.

Lemma hoare_ret {A} (Q : A -> Core -> Prop) R (a : A) : hoare (Q a) (mret a : op E A) Q R.
Proof. by intros c Hc. Qed.

Lemma hoare_lift {A} (P : Core -> Prop) (r : result E A) :
  hoare P (lift r) (fun a c => r = Ok a /\ P c) P.
Proof. intros c Hc. unfold lift. by destruct r. Qed.

Lemma hoare_gets {A} P (f : Core -> A) :
  hoare (E := E) P (gets f) (fun a c => a = f c /\ P c) P.
Proof. by intros c Hc. Qed.

Lemma hoare_modify P f (Q R : Core -> Prop) :
  (forall c, P c -> Q (f c)) -> hoare (E := E) P (modify f) (fun _ => Q) R.
Proof. intros Hf c Hc. by apply Hf. Qed.

Lemma hoare_on_drop {A} P release (m : op E A) Q R R' :
  hoare P m Q R' -> (forall c, R' c -> R (release c)) -> hoare P (on_drop release m) Q R.
Proof.
  intros Hm Hr c Hc. specialize (Hm c Hc). unfold on_drop.
  destruct (m c) as [[a|e] c']; [done|by apply Hr].
Qed.

Lemma hoare_weaken {A} (P P' : Core -> Prop) (m : op E A) Q Q' (R R' : Core -> Prop) :
  hoare P' m Q' R' -> (forall c, P c -> P' c) -> (forall a c, Q' a c -> Q a c) ->
  (forall c, R' c -> R c) -> hoare P m Q R.
Proof.
  intros Hm HP HQ HR c Hc. specialize (Hm c (HP c Hc)). destruct (m c) as [[a|e] c']; auto.
Qed.

Lemma hoare_pre {A} (P' P : Core -> Prop) (m : op E A) Q R :
  (forall c, P c -> P' c) -> hoare P' m Q R -> hoare P m Q R.
Proof. intros HP Hm c Hc. by apply Hm, HP. Qed.

(** A fact the precondition implies. *)
Lemma hoare_fact {A} (F : Prop) (P : Core -> Prop) (m : op E A) Q R :
  (forall c, P c -> F) -> (F -> hoare P m Q R) -> hoare P m Q R.
Proof. intros HF Hm c Hc. apply Hm; [by eapply HF|done]. Qed.

(** A fact that does not depend on the state. *)
Lemma hoare_pure {A} (F : Prop) P (m : op E A) Q R :
  (F -> hoare P m Q R) -> hoare (fun c => F /\ P c) m Q R.
Proof. intros Hm c [HF Hc]. by apply Hm. Qed.

Lemma hoare_bind_lift {A B} P (r : result E A) (f : A -> op E B) S R :
  (forall a, r = Ok a -> hoare P (f a) S R) -> (forall c, P c -> R c) -> hoare P (lift r ≫= f) S R.
Proof.
  intros Hf HR c Hc. unfold mbind, op_bind, lift. destruct r as [a|e]; [by apply Hf|by apply HR].
Qed.

Lemma hoare_bind_gets {A B} P (g : Core -> A) (f : A -> op E B) S R :
  (forall a, hoare (fun c => a = g c /\ P c) (f a) S R) -> hoare P (gets g ≫= f) S R.
Proof. intros Hf c Hc. by apply (Hf (g c)). Qed.

Lemma hoare_bind_modify {B} (P P' : Core -> Prop) g (f : unit -> op E B) S R :
  (forall c, P c -> P' (g c)) -> hoare P' (f tt) S R -> hoare P (modify g ≫= f) S R.
Proof. intros Hg Hf c Hc. by apply Hf, Hg. Qed.

Lemma hoare_exists {A X} (P : X -> Core -> Prop) (m : op E A) Q R :
  (forall x, hoare (P x) m Q R) -> hoare (fun c => exists x, P x c) m Q R.
Proof. intros Hm c [x Hc]. by apply (Hm x). Qed.
End Rules.

(** ** The invariant *)

Definition file_bytes (db : world_db) : Z := slen (db_body db) + sum_len (db_cas db).

(** Over the files that are there, and over all that the counters count: a file
    that went away in a failed removal is still counted. *)
Definition present_sum (f : world_db -> Z) (c : Core) : Z := map_sum (fun _ db => f db) (files c).

Definition lost_sum (f : world_db -> Z) (c : Core) : Z := foldr (fun db n => f db + n)%Z 0%Z (lost c).

Definition files_sum (f : world_db -> Z) (c : Core) : Z := (present_sum f c + lost_sum f c)%Z.

Section Invariant.
Context `{CryptoLaws} (cfg : Config).

(** [reserved] bytes and [events] events are reserved by the operation under
    way. *)
Record core_acct (reserved events : Z) (c : Core) : Prop := {
  ca_files : forall w db, files c !! w = Some db ->
    file_ok (hmac_key cfg) w db /\ valid_world w /\ is_memory_world w = false;
  ca_broken : forall w err, broken c !! w = Some err ->
    files c !! w = None /\ valid_world w /\ is_memory_world w = false
    /\ torn err;
  ca_conns : forall w k, write_conns c !! w = Some k -> is_Some (files c !! w);
  ca_ledger : ledger_conn c = true -> is_Some (files c !! DELETE_LEDGER_WORLD);
  ca_mem : ms_wf (mem c) /\ (ms_accounted (mem c) <= max_memory_bytes cfg)%Z;
  ca_tombstones : tombstones c = ∅;
  ca_bytes : storage_body_bytes (counters c) = (files_sum file_bytes c + reserved)%Z;
  ca_current : storage_current_body_bytes (counters c) = files_sum (fun db => slen (db_body db)) c;
  ca_retained : storage_retained_cas_body_bytes (counters c)
                = files_sum (fun db => sum_len (db_cas db)) c;
  ca_events : storage_audit_chain_events (counters c) = (files_sum event_count c + events)%Z;
  ca_quota : (storage_body_bytes (counters c)
              <= Z.min usize_max (default usize_max (max_storage_bytes cfg)))%Z;
  ca_events_max : (storage_audit_chain_events (counters c) <= usize_max)%Z;
}.

Definition core_inv : Core -> Prop := core_acct 0 0.

(** What a data directory holds, and has lost, is less than [2^63] bytes. *)
Definition disk_bounded (c : Core) : Prop := (files_sum file_bytes c <= i64_max)%Z.

Lemma file_bytes_nonneg db : (0 <= file_bytes db)%Z.
Proof. unfold file_bytes. pose proof (slen_nonneg (db_body db)). pose proof (sum_len_nonneg (db_cas db)). lia. Qed.

Lemma event_count_nonneg db : (0 <= event_count db)%Z.
Proof. unfold event_count. lia. Qed.

Lemma present_sum_nonneg f c : (forall db, (0 <= f db)%Z) -> (0 <= present_sum f c)%Z.
Proof. intros Hf. by apply map_sum_nonneg. Qed.

Lemma lost_sum_nonneg f c : (forall db, (0 <= f db)%Z) -> (0 <= lost_sum f c)%Z.
Proof. intros Hf. unfold lost_sum. induction (lost c) as [|db l IH]; cbn; [done|]. specialize (Hf db). lia. Qed.

(** One file's share of a sum. *)
Lemma files_sum_ge f c w db :
  (forall db, (0 <= f db)%Z) -> files c !! w = Some db -> (f db <= files_sum f c)%Z.
Proof.
  intros Hf Hw. unfold files_sum, present_sum. rewrite (map_sum_delete _ _ _ _ Hw).
  pose proof (lost_sum_nonneg f c Hf).
  assert (0 <= map_sum (fun _ db => f db) (base.delete w (files c)))%Z; [|lia].
  by apply map_sum_nonneg.
Qed.

Lemma files_sum_nonneg f c : (forall db, (0 <= f db)%Z) -> (0 <= files_sum f c)%Z.
Proof. intros Hf. pose proof (present_sum_nonneg f c Hf). pose proof (lost_sum_nonneg f c Hf). unfold files_sum. lia. Qed.

Lemma present_file_bytes c :
  present_sum file_bytes c
  = (present_sum (fun db => slen (db_body db)) c + present_sum (fun db => sum_len (db_cas db)) c)%Z.
Proof.
  unfold present_sum, file_bytes. induction (files c) as [|w db m Hn IH] using map_ind; [done|].
  rewrite !map_sum_insert_new by done. lia.
Qed.

Lemma files_sum_split c :
  files_sum file_bytes c
  = (files_sum (fun db => slen (db_body db)) c + files_sum (fun db => sum_len (db_cas db)) c)%Z.
Proof.
  assert (lost_sum file_bytes c = lost_sum (fun db => slen (db_body db)) c
            + lost_sum (fun db => sum_len (db_cas db)) c)%Z as Hl.
  { unfold lost_sum, file_bytes. induction (lost c) as [|db l IH]; cbn; [done|]. lia. }
  pose proof (present_file_bytes c). unfold files_sum. lia.
Qed.

(** *** Changes the invariant does not look at *)

Lemma acct_stream r e c n l s : core_acct r e c -> core_acct r e (set_stream n l s c).
Proof. by intros []; split. Qed.

Lemma acct_verified r e c f : core_acct r e c -> core_acct r e (set_verified f c).
Proof. by intros []; split. Qed.

Lemma acct_ledger_created r e c b : core_acct r e c -> core_acct r e (set_ledger_created b c).
Proof. by intros []; split. Qed.

Lemma acct_notify r e c max verb target etag aux :
  core_acct r e c -> core_acct r e (notify_with_aux max verb target etag aux c).
Proof. apply acct_stream. Qed.

Lemma acct_world_count r e c f :
  core_acct r e c ->
  core_acct r e (set_counters (fun k => set_world_count (f k) k) c).
Proof. by intros []; split. Qed.

Lemma acct_clear_tombstone r e c w : core_acct r e c -> core_acct r e (clear_tombstone w c).
Proof.
  intros []. unfold clear_tombstone. destruct (is_memory_world w); [by split|].
  split; try done. cbn. set_solver.
Qed.

Lemma acct_mem r e c m :
  core_acct r e c -> mem_step (max_memory_bytes cfg) (mem c) m -> core_acct r e (set_mem m c).
Proof.
  intros Ha Hs. destruct (ca_mem _ _ _ Ha) as [Hwf Hle].
  destruct (mem_step_wf _ _ _ Hwf Hle Hs). destruct Ha. by split.
Qed.

(** Cached connections come and go, for existing files. *)
Lemma evict_sub order protected conns w k :
  evict_cached_write_conn_if_needed order protected conns !! w = Some k -> conns !! w = Some k.
Proof.
  revert conns. induction order as [|v order IH]; intros conns; cbn; [done|].
  destruct (_ <=? _)%nat; [done|]. case_bool_decide; [apply IH|].
  intros Hw%IH. apply lookup_delete_Some in Hw. tauto.
Qed.

Lemma acct_cache_writer r e c env w k :
  core_acct r e c -> is_Some (files c !! w) -> core_acct r e (cache_writer env w k c).
Proof.
  intros [] Hw. split; try done. cbn. intros w' k' Hw'%evict_sub.
  apply lookup_insert_Some in Hw' as [[<- _]|[_ Hw']]; [done|by eapply ca_conns0].
Qed.

Lemma acct_mark_existing r e c w :
  core_acct r e c -> is_Some (files c !! w) -> core_acct r e (set_conns (<[w := Existing]>) c).
Proof.
  intros [] Hw. split; try done. cbn. intros w' k' Hw'.
  apply lookup_insert_Some in Hw' as [[<- _]|[_ Hw']]; [done|by eapply ca_conns0].
Qed.

Lemma acct_drop_conn r e c w : core_acct r e c -> core_acct r e (clear_cached_write_conn w c).
Proof.
  intros []. split; try done. cbn. intros w' k' Hw'. apply lookup_delete_Some in Hw' as [_ Hw'].
  by eapply ca_conns0.
Qed.

(** *** Opening a world *)

Lemma create_file_ok w g :
  WorldGeneration_new g = Ok g -> file_ok (hmac_key cfg) w (create g).
Proof. intros Hg. split; [apply create_wf|]. right. by exists g. Qed.

Lemma files_sum_insert f c w db :
  files_sum f (set_files (<[w := db]>) c)
  = (f db + files_sum f c - from_option f 0 (files c !! w))%Z.
Proof.
  assert (present_sum f (set_files (<[w := db]>) c)
          = f db + present_sum f c - from_option f 0 (files c !! w))%Z as Hp
    by (unfold present_sum; cbn; by rewrite map_sum_insert).
  unfold files_sum. rewrite Hp. change (lost_sum f (set_files (<[w := db]>) c)) with (lost_sum f c). lia.
Qed.

Lemma open_file_Some r e c w db :
  core_acct r e c -> files c !! w = Some db -> open_file w c = Ok (Some db).
Proof.
  intros Ha Hw. unfold open_file. destruct (broken c !! w) as [err|] eqn:Hb; [|by rewrite Hw].
  destruct (ca_broken _ _ _ Ha w err Hb) as [Hn _]. congruence.
Qed.

Lemma open_file_Ok w c odb : open_file w c = Ok odb -> broken c !! w = None /\ files c !! w = odb.
Proof. unfold open_file. destruct (broken c !! w); [done|]. by intros [= <-]. Qed.

Lemma insert_is_Some {A} (m : gmap string A) k k' x :
  is_Some (m !! k') -> is_Some (<[k := x]> m !! k').
Proof.
  intros Hk. destruct (decide (k = k')) as [->|]; [by rewrite lookup_insert_eq|by rewrite lookup_insert_ne].
Qed.

Lemma acct_create r e c g w :
  core_acct r e c -> WorldGeneration_new g = Ok g -> valid_world w -> is_memory_world w = false ->
  files c !! w = None -> broken c !! w = None -> core_acct r e (set_files (<[w := create g]>) c).
Proof.
  intros Ha Hg Hw Hm E Eb. destruct Ha. split; try done; cbn.
  - intros w' db'. rewrite lookup_insert_Some. intros [[<- <-]|[_ Hd]]; [|by apply ca_files0].
    split_and!; [by apply create_file_ok|done|done].
  - intros w' err Hb. destruct (ca_broken0 w' err Hb) as (Hn & ?). split; [|done].
    rewrite lookup_insert_ne; [done|]. intros ->. congruence.
  - intros w' k Hk. apply insert_is_Some. by eapply ca_conns0.
  - intros Hl. by apply insert_is_Some, ca_ledger0.
  - rewrite files_sum_insert, E, ca_bytes0. change (file_bytes (create g)) with 0%Z. cbn [from_option]. lia.
  - rewrite files_sum_insert, E, ca_current0. change (slen (db_body (create g))) with 0%Z. cbn [from_option]. lia.
  - rewrite files_sum_insert, E, ca_retained0. change (sum_len (db_cas (create g))) with 0%Z. cbn [from_option]. lia.
  - rewrite files_sum_insert, E, ca_events0. change (event_count (create g)) with 0%Z. cbn [from_option]. lia.
Qed.

Lemma acct_broken r e c w err :
  core_acct r e c -> valid_world w -> is_memory_world w = false -> files c !! w = None ->
  torn err -> core_acct r e (set_broken (<[w := err]>) c).
Proof.
  intros [] Hw Hm E Hmsg. split; try done; cbn. intros w' err'. rewrite lookup_insert_Some.
  intros [[<- <-]|[_ Hb]]; [done|by apply ca_broken0].
Qed.

(** The world's file was not there and is complete without events, or corrupt. *)
Definition file_made (w : string) (c c' : Core) : Prop :=
  files c !! w = None /\ broken c !! w = None
  /\ ((exists g, WorldGeneration_new g = Ok g /\ c' = set_files (<[w := create g]>) c)
      \/ exists err, torn err /\ c' = set_broken (<[w := err]>) c).

Lemma acct_made r e c c' w :
  core_acct r e c -> valid_world w -> is_memory_world w = false -> file_made w c c' -> core_acct r e c'.
Proof.
  intros Ha Hw Hm (Hn & Hb & [(g & Hg & ->)|(err & Herr & ->)]); [by apply acct_create|by apply acct_broken].
Qed.

Lemma acct_open r e c f g w :
  core_acct r e c -> WorldGeneration_new g = Ok g -> valid_world w -> is_memory_world w = false ->
  match open_world f g w c with
  | (Ok _, c') => core_acct r e c'
      /\ exists db, files c' !! w = Some db /\ broken c !! w = None
           /\ (c' = c \/ files c !! w = None /\ db = create g /\ c' = set_files (<[w := create g]>) c)
  | (Err _, c') => core_acct r e c' /\ (c' = c \/ file_made w c c')
  end.
Proof.
  intros Ha Hg Hw Hm. unfold open_world. destruct (open_file w c) as [[db|]|err] eqn:Eo; [| |by split; [|left]].
  { destruct (open_file_Ok _ _ _ Eo) as [Hb Hf]. split; [done|]. exists db. auto. }
  destruct (open_file_Ok _ _ _ Eo) as [Hb Hf].
  destruct (open_world_paths_with_generation_minter_and_kind f (Ok g) None) as [res file] eqn:E.
  pose proof (open_new f g res file Hg E) as Hnew. destruct file as [raw|]; cbn [leave_file].
  - assert (forall i, raw = db_file_with i (create g) -> verify_open_shape raw = Ok tt) as Hcomplete.
    { intros i ->. by apply open_shape_ok, create_storable. }
    assert ((raw = db_file_with [] (create g) \/ raw = db_file (create g)) -> verify_open_shape raw = Ok tt) as Hok
      by (intros [Hr|Hr]; by eapply Hcomplete).
    pose proof (acct_create r e c g w Ha Hg Hw Hm Hf Hb) as Hmade.
    assert (verify_open_shape raw = Ok tt \/ is_ok res = false /\ exists msg,
        verify_open_shape raw = Err (corrupt_error msg) /\ harmless msg = true) as [->|[Hno (msg & Hv & Hmsg)]] by tauto.
    + destruct res as [opened|err].
      * split; [done|]. exists (create g). split; [apply lookup_insert_eq|]. split; [done|by right].
      * split; [done|]. right. split_and!; [done..|]. left. eauto.
    + assert (torn (corrupt_error msg)) by (exists f, g, raw; by rewrite E). rewrite Hv.
      destruct res; [done|]. split; [by apply acct_broken|]. right. split_and!; [done..|]. right. eauto.
  - destruct res; [done|]. by split; [|left].
Qed.

(** *** Reservations *)

Lemma files_sum_counters f g c : files_sum f (set_counters g c) = files_sum f c.
Proof. done. Qed.

Lemma acct_reserve c prev new pruned p used :
  core_inv c ->
  reserve_storage_after_prune (max_storage_bytes cfg) (storage_body_bytes (counters c)) prev new
    pruned = Ok (p, used) ->
  core_acct (reserved_increase p) 0 (set_counters (set_body_bytes used) c).
Proof.
  intros [] Hr. apply reserve_Ok in Hr as (Hp & Hd & -> & Hq & Hm).
  split; try done; rewrite ?files_sum_counters; cbn [counters set_counters set_body_bytes
    storage_body_bytes]; lia.
Qed.

Lemma acct_drop_reservation p c :
  core_acct (reserved_increase p) 0 c -> (0 <= reserved_increase p)%Z ->
  core_inv (drop_pending p c).
Proof.
  intros [] Hp. pose proof (files_sum_nonneg file_bytes c file_bytes_nonneg).
  split; try done; unfold drop_pending; rewrite ?files_sum_counters; cbn [counters set_counters
    set_body_bytes storage_body_bytes]; unfold drop_reservation; rewrite credit_exact; lia.
Qed.

Lemma acct_reserve_events r c used :
  core_acct r 0 c -> reserve_audit_events (storage_audit_chain_events (counters c)) = Some used ->
  core_acct r 2 (set_counters (set_audit_events used) c).
Proof.
  intros [] Hr. apply checked_add_Some in Hr as [-> Hm]. unfold PENDING_AUDIT_EVENTS_MAXIMUM in *.
  split; try done; rewrite ?files_sum_counters; cbn [counters set_counters set_audit_events
    storage_audit_chain_events]; lia.
Qed.

Lemma acct_drop_events r c : core_acct r 2 c -> core_acct r 0 (drop_events c).
Proof.
  intros []. pose proof (files_sum_nonneg event_count c event_count_nonneg).
  split; try done; unfold drop_events; rewrite ?files_sum_counters; cbn [counters set_counters
    set_audit_events storage_audit_chain_events];
    unfold drop_audit_events, PENDING_AUDIT_EVENTS_MAXIMUM; rewrite credit_exact; lia.
Qed.

(** *** A committed transaction *)

Lemma adjust_exact used sub add :
  (0 <= sub <= used)%Z -> (0 <= add)%Z -> (used - sub + add <= usize_max)%Z ->
  adjust_counter used sub add = (used - sub + add)%Z.
Proof. intros. unfold adjust_counter, saturating_add, saturating_sub. lia. Qed.

(** The counters after a commit, when the reservation predicted [credit] bytes
    released and [add + cand] bytes stored. *)
Lemma account_commit_exact pending inserted actual cand prev next pruned fmt k credit add total :
  reserved_increase pending = Z.max 0 (add + cand - credit) ->
  deferred_credit pending = Z.max 0 (credit - (add + cand)) ->
  storage_body_bytes k = (total + reserved_increase pending)%Z ->
  (0 <= credit <= total)%Z -> (0 <= add)%Z -> (0 <= cand)%Z -> (storage_body_bytes k <= usize_max)%Z ->
  cand = (if inserted : bool then actual else 0)%Z ->
  (0 <= pruned_bytes pruned <= storage_retained_cas_body_bytes k)%Z ->
  (storage_retained_cas_body_bytes k + cand <= usize_max)%Z ->
  (0 <= prev <= storage_current_body_bytes k)%Z -> (0 <= next)%Z ->
  (storage_current_body_bytes k - prev + next <= usize_max)%Z ->
  (2 <= storage_audit_chain_events k)%Z ->
  let k' := account_commit pending inserted actual cand (pruned_bytes pruned) prev next pruned fmt k in
  storage_body_bytes k' = (total + add + cand - credit)%Z
  /\ storage_current_body_bytes k' = (storage_current_body_bytes k - prev + next)%Z
  /\ storage_retained_cas_body_bytes k'
     = (storage_retained_cas_body_bytes k + cand - pruned_bytes pruned)%Z
  /\ storage_audit_chain_events k' = (storage_audit_chain_events k - if fmt : bool then 0 else 1)%Z.
Proof.
  intros Hres Hdef Hb Hcr Hadd Hca Hmax Hcand Hpr Hret Hprev Hnext Hcur Hev. cbv zeta.
  unfold account_commit, credit_pruned_storage_after_estimate.
  replace (saturating_sub (pruned_bytes pruned) (pruned_bytes pruned)) with 0%Z
    by (unfold saturating_sub; lia).
  change ((0 =? 0)%Z) with true. cbv iota.
  set (k1 := set_body_bytes _ k).
  assert (storage_body_bytes k1 = total + add + cand - credit)%Z as H1.
  { cbn. unfold commit_reservation. rewrite credit_exact; lia. }
  assert (storage_body_bytes k1 <= usize_max)%Z as H1m by lia.
  set (k2 := if inserted then _ else _).
  assert (storage_body_bytes k2 = storage_body_bytes k1
    /\ storage_current_body_bytes k2 = storage_current_body_bytes k
    /\ storage_retained_cas_body_bytes k2 = (storage_retained_cas_body_bytes k + cand)%Z
    /\ storage_audit_chain_events k2 = storage_audit_chain_events k) as (Hk2b & Hk2c & Hk2r & Hk2e).
  { unfold k2. destruct inserted.
    - unfold note_retained_cas_inserted. destruct (Z.eqb_spec actual 0); [split_and!; try done; cbn; lia|].
      split_and!; try done. change (storage_retained_cas_body_bytes (set_retained_bytes ?v ?x)) with v.
      change (storage_retained_cas_body_bytes k1) with (storage_retained_cas_body_bytes k).
      rewrite adjust_exact; lia.
    - subst cand. split_and!; try done; [|cbn; lia]. unfold rollback_storage_reservation, rollback_storage_counter.
      cbn [set_body_bytes storage_body_bytes]. unfold saturating_add, saturating_sub. lia. }
  unfold commit_events, note_current_body_replaced.
  cbn [set_retained_bytes set_current_bytes set_audit_events storage_body_bytes
       storage_current_body_bytes storage_retained_cas_body_bytes storage_audit_chain_events].
  rewrite Hk2b, Hk2c, Hk2r, Hk2e. split_and!; [lia| | |].
  - rewrite adjust_exact; lia.
  - rewrite adjust_exact; lia.
  - destruct fmt; unfold commit_two, commit_one; [lia|]. rewrite credit_exact; lia.
Qed.

(** A file replaced by a later version of itself. *)
Lemma files_insert_ok c w db' w' x :
  (forall w db, files c !! w = Some db ->
     file_ok (hmac_key cfg) w db /\ valid_world w /\ is_memory_world w = false) ->
  is_Some (files c !! w) -> file_ok (hmac_key cfg) w db' ->
  <[w := db']> (files c) !! w' = Some x ->
  file_ok (hmac_key cfg) w' x /\ valid_world w' /\ is_memory_world w' = false.
Proof.
  intros Hf [y Hy] Hok. rewrite lookup_insert_Some. intros [[<- <-]|[_ Hx]]; [|by apply Hf].
  split; [done|]. by destruct (Hf _ _ Hy).
Qed.

Lemma acct_commit c w db db' body ct hs n inserted pruned (fe : option AppendedAuditRow) hmac
    pending credit add :
  core_acct (reserved_increase pending) 2 c -> disk_bounded c -> files c !! w = Some db ->
  committed (hmac_key cfg) w db body ct hs n inserted pruned fe hmac db' ->
  let cand := (if inserted then slen body else 0)%Z in
  reserved_increase pending = Z.max 0 (add + cand - credit) ->
  deferred_credit pending = Z.max 0 (credit - (add + cand)) ->
  (pruned_bytes pruned <= credit <= slen (db_body db) + pruned_bytes pruned)%Z -> (0 <= add)%Z ->
  (add - (credit - pruned_bytes pruned) = slen body - slen (db_body db))%Z ->
  core_inv (set_counters (account_commit pending inserted (if inserted then slen body else 0) cand
              (pruned_bytes pruned) (slen (db_body db)) (slen body) pruned (is_some fe))
             (set_files (<[w := db']>) c)).
Proof.
  intros Ha Hdisk Hdb Hc. cbv zeta. intros Hres Hdef Hcr Hadd Hnext.
  pose proof Ha as [Hf Hbr Hcon Hl Hm Ht Hb Hcu Hre Hev Hq Hem]. destruct Hc.
  pose proof (slen_nonneg body) as Hbl. pose proof (slen_nonneg (db_body db)) as Hdl.
  pose proof (sum_len_nonneg (db_cas db)) as Hcl.
  pose proof (files_sum_ge file_bytes c w db file_bytes_nonneg Hdb) as Hge. unfold file_bytes at 1 in Hge.
  pose proof (files_sum_ge (fun db => slen (db_body db)) c w db (fun _ => slen_nonneg _) Hdb) as Hgc.
  pose proof (files_sum_ge (fun db => sum_len (db_cas db)) c w db (fun _ => sum_len_nonneg _) Hdb) as Hgr.
  pose proof (files_sum_ge event_count c w db event_count_nonneg Hdb) as Hgev.
  pose proof (event_count_nonneg db) as Hen.
  pose proof (files_sum_split c) as Hsp. cbn [from_option] in *.
  destruct (account_commit_exact pending inserted (if inserted then slen body else 0)
    (if inserted then slen body else 0) (slen (db_body db)) (slen body) pruned (is_some fe) (counters c)
    credit add (files_sum file_bytes c)) as (Eb & Ec & Er & Ee); try lia;
    try (destruct inserted; lia).
  { assert (i64_max + i64_max <= usize_max)%Z by (by vm_compute). unfold disk_bounded in Hdisk.
    pose proof (files_sum_nonneg (fun db => slen (db_body db)) c (fun _ => slen_nonneg _)).
    destruct inserted; lia. }
  split; try done; cbn [files set_counters set_files counters write_conns ledger_conn mem tombstones].
  - intros w' x. apply files_insert_ok; [done|by eexists|]. split; [done|by left].
  - intros w' err Hw'. destruct (Hbr w' err Hw') as (Hn & ?). split; [|done].
    rewrite lookup_insert_ne; [done|]. intros ->. congruence.
  - intros w' k Hk. apply insert_is_Some. by eapply Hcon.
  - intros E. by apply insert_is_Some, Hl.
  - rewrite Eb, files_sum_counters, files_sum_insert, Hdb. cbn [from_option]. 
    change (file_bytes db') with (slen (db_body db') + sum_len (db_cas db'))%Z.
    change (file_bytes db) with (slen (db_body db) + sum_len (db_cas db))%Z.
    rewrite cm_cas, cm_body. lia.
  - rewrite Ec, files_sum_counters, files_sum_insert, Hdb. cbn [from_option]. rewrite cm_body. lia.
  - rewrite Er, files_sum_counters, files_sum_insert, Hdb. cbn [from_option]. rewrite cm_cas. lia.
  - rewrite Ee, files_sum_counters, files_sum_insert, Hdb. cbn [from_option]. rewrite cm_events.
    destruct fe; cbn [is_some]; lia.
  - rewrite Eb. destruct inserted; lia.
  - rewrite Ee. destruct fe; cbn [is_some]; lia.
Qed.
End Invariant.
