(* ===== verification/WorldOpsProofs.v ===== *)
(** * Replace and append keep the engine's invariant

    Every way a write can end, with success or with any error at any step,
    leaves intact files and exact counters, and touches only its own world. *)

From S2P Require Import Prelude.
From S2P Require Import WorldSchema.
From S2P Require Import Path.
From S2P Require Import Auth.
From S2P Require Import Crypto.
From S2P Require Import Etag.
From S2P Require Import Types.
From S2P Require Import Db.
From S2P Require Import AuditVerify.
From S2P Require Import AuditGates.
From S2P Require Import AuditAppend.
From S2P Require Import Cas.
From S2P Require Import WorldWrite.
From S2P Require Import EventId.
From S2P Require Import Store.
From S2P Require Import Quota.
From S2P Require Import ChainSpec.
From S2P Require Import ChainValid.
From S2P Require Import CasProofs.
From S2P Require Import WriteProofs.
From S2P Require Import Estimate.
From S2P Require Import Usage.
From S2P Require Import StorageClass.
From S2P Require Import Core.
From S2P Require Import WorldOps.
From S2P Require Import DeleteOps.
From S2P Require Import CoreInv.

Section Ops.
Context `{CryptoLaws} `{Rusqlite} (cfg : Config).
Hypothesis Hret : (0 < retained_body_count cfg <= i64_max)%Z.

Notation key := (hmac_key cfg).
Notation core_acct := (core_acct cfg).
Notation core_inv := (core_inv cfg).

(** What an operation on the world [w] leaves alone. *)
Record framed (w : string) (c0 c : Core) : Prop := {
  fr_files : forall w', w' <> w -> files c !! w' = files c0 !! w';
  fr_broken : forall w', w' <> w -> broken c !! w' = broken c0 !! w';
  fr_lost : lost c = lost c0;
  fr_mem : mem c = mem c0;
  fr_tombstones : tombstones c ⊆ tombstones c0;
}.

Definition same_file (w : string) (c0 c : Core) : Prop :=
  files c !! w = files c0 !! w /\ broken c !! w = broken c0 !! w.

(** Before the commit the world's own file is the one the operation found. *)
Definition pending (w : string) (c0 : Core) (r e : Z) (c : Core) : Prop :=
  core_acct r e c /\ disk_bounded c /\ framed w c0 c /\ same_file w c0 c.

(** A file the operation made: complete without events, or corrupt. *)
Definition new_file (w : string) (c0 c : Core) : Prop :=
  files c0 !! w = None /\ broken c0 !! w = None
  /\ ((exists g, WorldGeneration_new g = Ok g /\ files c !! w = Some (create g) /\ broken c !! w = None)
      \/ exists err, files c !! w = None /\ broken c !! w = Some err /\ torn err).

(** The world's own file as the operation found it, or just made. *)
Definition same_or_made (w : string) (c0 c : Core) : Prop := same_file w c0 c \/ new_file w c0 c.

Definition failed (w : string) (c0 : Core) (r e : Z) (c : Core) : Prop :=
  core_acct r e c /\ framed w c0 c /\ same_or_made w c0 c.

Lemma pending_failed w c0 r e c : pending w c0 r e c -> failed w c0 r e c.
Proof. intros (? & ? & ? & ?). split_and!; [done|done|by left]. Qed.

Lemma pending_start w c : core_inv c -> disk_bounded c -> pending w c 0 0 c.
Proof. done. Qed.

(** *** Reservations and connections *)

Lemma reserve_storage_hoare w c0 prev new pruned :
  hoare (pending w c0 0 0) (reserve_storage cfg prev new pruned)
    (fun p c => (reserved_increase p = Z.max 0 (new - (prev + pruned))
                 /\ deferred_credit p = Z.max 0 (prev + pruned - new))
                /\ pending w c0 (reserved_increase p) 0 c)
    (failed w c0 0 0).
Proof.
  intros c Hp. pose proof Hp as (Ha & Hd & Hf & Hw). unfold reserve_storage.
  destruct (reserve_storage_after_prune _ _ _ _ _) as [[p used]|err] eqn:E; [|by apply pending_failed].
  pose proof (acct_reserve _ _ _ _ _ _ _ Ha E) as Ha'. apply reserve_Ok in E as (Hr & Hdc & _).
  split; [done|]. split_and!; [done|done|by destruct Hf|done].
Qed.

Lemma reserve_events_hoare {E} (full : E) w c0 r :
  hoare (pending w c0 r 0) (reserve_events full) (fun _ => pending w c0 r 2) (failed w c0 r 0).
Proof.
  intros c Hp. pose proof Hp as (Ha & Hd & Hf & Hw). unfold reserve_events.
  destruct (reserve_audit_events _) as [used|] eqn:Eu; [|by apply pending_failed].
  split_and!; [by apply acct_reserve_events|done|by destruct Hf|done].
Qed.

Lemma failed_drop_pending w c0 p c :
  (0 <= reserved_increase p)%Z -> failed w c0 (reserved_increase p) 0 c ->
  failed w c0 0 0 (drop_pending p c).
Proof. intros Hp (Ha & Hf & Hs). split_and!; [by apply acct_drop_reservation|by destruct Hf|done]. Qed.

Lemma failed_drop_events w c0 r c : failed w c0 r 2 c -> failed w c0 r 0 (drop_events c).
Proof. intros (Ha & Hf & Hs). split_and!; [by apply acct_drop_events|by destruct Hf|done]. Qed.

(** The connection's file: the one found, or the fresh schema. *)
Definition opened_file (w : string) (c0 : Core) (r e : Z) (db : world_db) (c : Core) : Prop :=
  core_acct r e c /\ disk_bounded c /\ framed w c0 c /\ files c !! w = Some db
  /\ same_or_made w c0 c.

Lemma opened_failed w c0 r e db c : opened_file w c0 r e db c -> failed w c0 r e c.
Proof. by intros (? & ? & ? & ? & ?). Qed.

Lemma made_frame w c0 c c' : framed w c0 c -> file_made w c c' -> framed w c0 c'.
Proof.
  intros [] (_ & _ & [(g & _ & ->)|(msg & _ & ->)]); split; try done; cbn; intros w' Hne;
    rewrite lookup_insert_ne by done; auto.
Qed.

Lemma made_same w c0 c c' : same_file w c0 c -> file_made w c c' -> same_or_made w c0 c'.
Proof.
  intros [Hf Hb] (Hn & Hnb & Hor). right. split; [congruence|]. split; [congruence|].
  destruct Hor as [(g & Hg & ->)|(err & ? & ->)]; [left; exists g|right; exists err]; cbn; by rewrite lookup_insert_eq.
Qed.

Lemma cached_write_conn_hoare env w c0 r e :
  WorldGeneration_new (minted_generation env) = Ok (minted_generation env) ->
  valid_world w -> is_memory_world w = false ->
  hoare (pending w c0 r e) (cached_write_conn env w)
    (fun _ c => exists db, opened_file w c0 r e db c) (failed w c0 r e).
Proof.
  intros Hg Hw Hm c Hp. pose proof Hp as (Ha & Hd & Hf & Hsame). unfold cached_write_conn.
  destruct (fault env IoOpen); [by apply pending_failed|].
  destruct (write_conns c !! w) as [k|] eqn:Ek.
  - destruct (ca_conns _ _ _ _ Ha _ _ Ek) as [db Hdb]. exists db. split_and!; try done. by left.
  - pose proof (acct_open cfg r e c (creation env) _ w Ha Hg Hw Hm) as Ho. unfold mbind, op_bind.
    destruct (open_world (creation env) (minted_generation env) w c) as [[k|err] c1].
    + destruct Ho as (Ha1 & db & Hdb & Hb & Hor). cbn. exists db.
      assert (framed w c0 c1 /\ same_or_made w c0 c1 /\ files_sum file_bytes c1 = files_sum file_bytes c)
        as (Hf1 & Hs1 & Hsum).
      { destruct Hor as [->|(Hn & -> & ->)]; [split_and!; [done|by left|done]|].
        assert (file_made w c (set_files (<[w := create (minted_generation env)]>) c)) as Hmade
          by (split; [done|split; [done|left; eauto]]).
        split; [by eapply made_frame|]. split; [by eapply made_same|].
        rewrite files_sum_insert, Hn. change (file_bytes (create _)) with 0%Z. cbn [from_option]. lia. }
      split_and!.
      * apply acct_cache_writer; [done|by eexists].
      * unfold disk_bounded in *. change (files_sum file_bytes (cache_writer env w k c1))
          with (files_sum file_bytes c1). by rewrite Hsum.
      * by destruct Hf1.
      * done.
      * exact Hs1.
    + destruct Ho as [Ha1 [->|Hmade]]; [by apply pending_failed|].
      split_and!; [done|by eapply made_frame|by eapply made_same].
Qed.

(** *** The preflight agrees with the transaction *)

Lemma missing_candidate db body :
  missing_body_len db body
  = (if bool_decide (db_cas db !! sha256_hex body = None) then slen body else 0)%Z.
Proof.
  unfold missing_body_len. destruct (db_cas db !! sha256_hex body) as [b|].
  - rewrite bool_decide_true by (by eexists). by rewrite bool_decide_false.
  - rewrite bool_decide_false by (by intros [? ?]). by rewrite bool_decide_true.
Qed.

Lemma prunable_create g body n :
  (0 < n <= i64_max)%Z -> prunable_body_len_after_next_body (create g) body n = Ok 0%Z.
Proof.
  intros Hn. rewrite (estimate_exact "" "" (create g) body Put "" [] "" n "" []); try done.
  - by rewrite commit_pruned_before by (done || apply create_wf).
  - apply create_wf.
Qed.

Lemma snapshot_exact w odb db body ct hs ins pruned fe hmac db' s :
  odb = Some db \/ odb = None /\ (exists g, db = create g) ->
  replace_quota_snapshot odb body (retained_body_count cfg) = Ok s ->
  committed key w db body ct hs (retained_body_count cfg) ins pruned fe hmac db' ->
  previous_body_len s = slen (db_body db) /\ candidate_cas_len s = (if ins then slen body else 0)%Z
  /\ prunable_cas_len s = pruned_bytes pruned.
Proof using All.
  intros Hodb Hs Hc. pose proof (cm_estimate _ _ _ _ _ _ _ _ _ _ _ _ Hc) as He.
  rewrite (cm_inserted _ _ _ _ _ _ _ _ _ _ _ _ Hc), <- missing_candidate.
  destruct Hodb as [->|[-> [g ->]]].
  - unfold replace_quota_snapshot in Hs. rewrite nonneg_usize_Ok in Hs by apply slen_nonneg.
    cbn [mbind result_bind] in Hs. rewrite He in Hs. by injection Hs as <-.
  - rewrite prunable_create in He by done. injection He as <-. by injection Hs as <-.
Qed.

(** *** The transaction *)

(** Just after the commit, before the counters are settled. *)
Definition stored (w : string) (c0 : Core) (r : Z) (db : world_db) (body ct : string)
    (hs : list (string * string)) (ins : bool) (pruned : PrunedCas)
    (fe : option AppendedAuditRow) (hmac : string) (c : Core) : Prop :=
  exists c1 db', core_acct r 2 c1 /\ disk_bounded c1 /\ framed w c0 c1 /\ files c1 !! w = Some db
    /\ committed key w db body ct hs (retained_body_count cfg) ins pruned fe hmac db'
    /\ files c = <[w := db']> (files c1) /\ mem c = mem c1 /\ counters c = counters c1
    /\ tombstones c = tombstones c1 /\ ledger_conn c = ledger_conn c1
    /\ broken c = broken c1 /\ lost c = lost c1
    /\ (forall w' k, write_conns c !! w' = Some k -> is_Some (files c !! w')).

Lemma write_on_conn_hoare env w opened req c0 r db :
  hoare (opened_file w c0 r 2 db) (write_on_conn cfg env w opened req)
    (fun res => stored w c0 r db (rr_body req) (rr_content_type req) (sort_headers (rr_headers req))
                  (wr_cas_body_inserted res) (wr_pruned_cas res) (wr_format_event res) (wr_hmac res))
    (failed w c0 r 2).
Proof using All.
  intros c Ho. pose proof Ho as (Ha & Hd & Hf & Hdb & Hs). unfold write_on_conn. rewrite Hdb.
  destruct (fault env IoTransaction); [by eapply opened_failed|].
  destruct (write_with_audit_checked_retaining_on_conn _ _ _ _ _ _ _ _ _ _ _)
    as [[[res cache] db']|err] eqn:E; [|by eapply opened_failed].
  destruct (ca_files _ _ _ _ Ha _ _ Hdb) as (Hok & _).
  destruct (write_usage _ _ _ _ _ _ _ _ _ _ _ _ _ _ Hok Hret E) as [Hc _].
  exists c, db'. split_and!; try done. cbn. intros w' k. rewrite lookup_insert_Some.
  intros [[<- _]|[_ Hk]]; [by rewrite lookup_insert_eq|].
  apply insert_is_Some. by apply (ca_conns _ _ _ _ Ha _ _ Hk).
Qed.

Lemma append_on_conn_hoare env w body ct hs c0 r db :
  hoare (opened_file w c0 r 2 db) (append_on_conn cfg env w body ct hs)
    (fun '(res, h) => stored w c0 r db (db_body db +:+ body) (db_content_type db)
       (select_meta_headers db) (ap_cas_body_inserted res) (ap_pruned_cas res)
       (ap_format_event res) h)
    (failed w c0 r 2).
Proof using All.
  intros c Ho. pose proof Ho as (Ha & Hd & Hf & Hdb & Hs). unfold append_on_conn. rewrite Hdb.
  destruct (fault env IoTransaction); [by eapply opened_failed|].
  destruct (append_with_audit_retaining_on_conn _ _ _ _ _ _ _ _ _ _)
    as [[[[res h] cache] db']|err] eqn:E; [|by eapply opened_failed].
  destruct (ca_files _ _ _ _ Ha _ _ Hdb) as (Hok & _).
  pose proof (append_usage _ _ _ _ _ _ _ _ _ _ _ _ _ _ Hok Hret E) as Hc.
  exists c, db'. split_and!; try done. cbn. intros w' k Hk.
  apply insert_is_Some. by apply (ca_conns _ _ _ _ Ha _ _ Hk).
Qed.

(** What a successful write leaves. *)
Definition committed_state (w : string) (c0 : Core) (body ct : string)
    (hs : list (string * string)) (hmac : string) (c : Core) : Prop :=
  core_inv c /\ framed w c0 c
  /\ exists db, files c !! w = Some db /\ chain_valid w key db
       /\ read_with_hmac_via_conn db w key
          = Ok ({| stage_body := body; stage_content_type := ct; stage_headers := hs |}, Some hmac).

Lemma settle w c0 p db body ct hs ins pruned fe hmac credit add c f :
  stored w c0 (reserved_increase p) db body ct hs ins pruned fe hmac c ->
  reserved_increase p = Z.max 0 (add + (if ins then slen body else 0) - credit) ->
  deferred_credit p = Z.max 0 (credit - (add + (if ins then slen body else 0))) ->
  (pruned_bytes pruned <= credit <= slen (db_body db) + pruned_bytes pruned)%Z -> (0 <= add)%Z ->
  (add - (credit - pruned_bytes pruned) = slen body - slen (db_body db))%Z ->
  (forall k, exists n, f k = set_world_count n k) ->
  committed_state w c0 body ct hs hmac
    (set_counters (fun k => f (account_commit p ins (if ins then slen body else 0)
       (if ins then slen body else 0) (pruned_bytes pruned) (slen (db_body db)) (slen body) pruned
       (is_some fe) k)) c).
Proof.
  intros (c1 & db' & Ha & Hd & Hf & Hdb & Hc & Ef & Em & Ek & Et & El & Eb & Elo & Hcon) Hr Hdc Hcr Hadd Hnext Hfk.
  pose proof (acct_commit cfg c1 w db db' body ct hs _ ins pruned fe hmac p credit add
                Ha Hd Hdb Hc Hr Hdc Hcr Hadd Hnext) as Hi.
  split_and!.
  - set (k' := account_commit _ _ _ _ _ _ _ _ _) in *. destruct (Hfk (k' (counters c1))) as [m Hm].
    destruct Hi. split; cbn [files broken set_counters counters write_conns ledger_conn mem tombstones];
      rewrite ?Ef, ?Em, ?Et, ?El, ?Ek, ?Eb, ?Hm; try done.
    1: by rewrite <- Ef.
    all: cbn [set_world_count storage_body_bytes storage_current_body_bytes
      storage_retained_cas_body_bytes storage_audit_chain_events];
      unfold files_sum, present_sum, lost_sum in *; cbn [files lost set_counters]; by rewrite ?Ef, ?Elo.
  - destruct Hf. split; cbn; rewrite ?Ef, ?Em, ?Et, ?Eb, ?Elo; try done.
    intros w' Hne. rewrite lookup_insert_ne by done. auto.
  - exists db'. cbn. rewrite Ef, lookup_insert_eq. destruct Hc. done.
Qed.

(** *** The durable paths *)

(** The part of a write under both reservations: errors give them back. *)
Lemma reserved_hoare {A} w c0 prev new pruned (m : PendingStorageReservation -> op WriteError A) Q :
  (forall p, reserved_increase p = Z.max 0 (new - (prev + pruned)) ->
     deferred_credit p = Z.max 0 (prev + pruned - new) ->
     hoare (pending w c0 (reserved_increase p) 2) (m p) Q (failed w c0 (reserved_increase p) 2)) ->
  hoare (pending w c0 0 0)
    (p ← reserve_storage cfg prev new pruned;
     on_drop (drop_pending p)
      (_ ← reserve_events (WriteInternal "audit event counter capacity exhausted");
       on_drop drop_events (m p)))
    Q (failed w c0 0 0).
Proof.
  intros Hm. eapply hoare_bind; [apply reserve_storage_hoare|]. intros p.
  apply hoare_pure. intros [Hr Hd]. eapply hoare_on_drop.
  - eapply hoare_bind; [apply reserve_events_hoare|]. intros [].
    eapply hoare_on_drop; [by apply Hm|]. intros c. apply failed_drop_events.
  - intros c. apply failed_drop_pending. lia.
Qed.

Lemma map_err_hoare {E E' A} (f : E -> E') P (m : op E A) Q R :
  hoare P m Q R -> hoare P (fun c => let '(r, c) := m c in (map_err f r, c)) Q R.
Proof. intros Hm c Hc. specialize (Hm c Hc). cbn beta. destruct (m c) as [r c'] eqn:Em. by destruct r. Qed.

Lemma opened_source w c0 r e db c :
  opened_file w c0 r e db c ->
  files c0 !! w = Some db \/ files c0 !! w = None /\ exists g, db = create g.
Proof.
  intros (_ & _ & _ & Hdb & [[Hs _]|(Hn & _ & [(g & _ & Hg & _)|(msg & Hno & _)])]); [left; congruence| |congruence].
  right. split; [done|]. exists g. congruence.
Qed.

Lemma pending_open w c0 r e c : pending w c0 r e c -> open_file w c = open_file w c0.
Proof. intros (_ & _ & _ & Hf & Hb). unfold open_file. by rewrite Hf, Hb. Qed.

Lemma replace_durable_hoare env w req c0 :
  WorldGeneration_new (minted_generation env) = Ok (minted_generation env) ->
  valid_world w -> is_memory_world w = false ->
  hoare (pending w c0 0 0) (replace_durable cfg env w req)
    (fun '(_, n, _) c => exists h, nt_etag n = hmac_etag h
       /\ committed_state w c0 (rr_body req) (rr_content_type req) (sort_headers (rr_headers req)) h c)
    (failed w c0 0 0).
Proof using All.
  intros Hg Hw Hm. unfold replace_durable.
  apply hoare_bind_gets. intros file.
  apply (hoare_pre (fun c => file = open_file w c0 /\ pending w c0 0 0 c));
    [intros c [-> Hp]; split; [by apply pending_open in Hp|done]|].
  apply hoare_pure. intros ->.
  apply hoare_bind_lift; [|apply pending_failed]. intros s Hs. apply map_err_Ok in Hs.
  assert (replace_quota_snapshot (files c0 !! w) (rr_body req) (retained_body_count cfg) = Ok s) as Hsnap.
  { unfold faulty in Hs. destruct (fault env IoPreflight); [done|]. inv_ok.
    match goal with Ho : open_file w c0 = Ok _ |- _ => apply open_file_Ok in Ho as [_ ->] end. done. }
  apply hoare_bind_gets. intros tl. apply (hoare_pre (pending w c0 0 0)); [by intros c [_ Hp]|].
  apply hoare_bind_lift; [|apply pending_failed]. intros new Hnew.
  apply ok_or_Ok, checked_add_Some in Hnew as [-> _].
  apply reserved_hoare. intros p Hr Hd.
  eapply hoare_bind; [by apply map_err_hoare, cached_write_conn_hoare|]. intros opened.
  apply hoare_exists. intros db. eapply hoare_fact; [intros c; apply opened_source|]. intros Hsrc.
  eapply hoare_bind; [apply write_on_conn_hoare|]. intros res.
  intros c Hst. cbn. exists (wr_hmac res). split; [done|].
  pose proof Hst as (c1 & db' & _ & _ & _ & _ & Hc & _).
  destruct (snapshot_exact w _ _ _ _ _ _ _ _ _ _ _ Hsrc Hsnap Hc) as (Ep & Ec & Eu).
  rewrite Ep, Ec, Eu in *. pose proof (cm_pruned _ _ _ _ _ _ _ _ _ _ _ _ Hc).
  pose proof (slen_nonneg (db_body db)). pose proof (slen_nonneg (rr_body req)).
  eapply (settle w c0 p db _ _ _ _ _ _ _ _ _ c (fun k => if wr_existed res then k else count_world k));
    try done; try lia.
  intros k. destruct (wr_existed res); [|by eexists]. exists (durable_world_count k). by destruct k.
Qed.

Lemma cached_existing_write_conn_hoare env w c0 r e db :
  files c0 !! w = Some db ->
  hoare (pending w c0 r e) (cached_existing_write_conn env w)
    (fun _ => opened_file w c0 r e db) (failed w c0 r e).
Proof.
  intros Hdb c Hp. pose proof Hp as (Ha & Hd & Hf & Hsame). unfold cached_existing_write_conn.
  destruct (fault env IoOpen); [by apply pending_failed|].
  assert (files c !! w = Some db) as Hc by (destruct Hsame; congruence).
  destruct (write_conns c !! w) as [k|] eqn:Ek; [split_and!; [done..|by left]|].
  rewrite (open_file_Some _ _ _ _ _ _ Ha Hc).
  split_and!; [by apply acct_cache_writer; [|eexists]|done|by destruct Hf|done|by left].
Qed.

Lemma append_durable_hoare env w db req c0 :
  files c0 !! w = Some db -> broken c0 !! w = None ->
  hoare (pending w c0 0 0)
    (append_durable cfg env w (slen (db_body db)) (db_content_type db) (select_meta_headers db)
       (slen (db_body db) + slen (aq_body req)) req)
    (fun '(n, _) c => exists h, nt_etag n = hmac_etag h
       /\ committed_state w c0 (db_body db +:+ aq_body req) (db_content_type db)
            (select_meta_headers db) h c)
    (failed w c0 0 0).
Proof using All.
  intros Hdb Hnb. unfold append_durable. apply hoare_bind_gets. intros file.
  apply (hoare_pre (fun c => file = Ok (Some db) /\ pending w c0 0 0 c));
    [intros c [-> Hp]; split; [|done]; rewrite (pending_open _ _ _ _ _ Hp); unfold open_file; by rewrite Hnb, Hdb|].
  apply hoare_pure. intros ->.
  apply hoare_bind_lift; [|apply pending_failed]. intros cand Hcand. apply map_err_Ok in Hcand.
  apply hoare_bind_lift; [|apply pending_failed]. intros cl Hcl. apply ok_or_Ok in Hcl.
  apply hoare_bind_lift; [|apply pending_failed]. intros prun Hprun. apply map_err_Ok in Hprun.
  apply hoare_bind_lift; [|apply pending_failed]. intros pl Hpl. apply ok_or_Ok in Hpl. subst.
  assert (cl = missing_body_len db (db_body db +:+ aq_body req)) as ->
    by (unfold faulty in Hcand; destruct (fault env IoPreflight); [done|]; cbn in Hcand; by injection Hcand as <-).
  assert (prunable_body_len_after_next_body db (db_body db +:+ aq_body req) (retained_body_count cfg)
          = Ok pl) as Hpl.
  { unfold faulty in Hprun. destruct (fault env IoUsage); [done|].
    cbn [append_prunable_body_len_after_next_write mbind result_bind] in Hprun. by inv_ok. }
  apply hoare_bind_gets. intros tl. apply (hoare_pre (pending w c0 0 0)); [by intros c [_ Hp]|].
  apply hoare_bind_lift; [|apply pending_failed]. intros new Hnew.
  apply ok_or_Ok, checked_add_Some in Hnew as [-> _].
  apply reserved_hoare. intros p Hr Hd.
  eapply hoare_bind; [by apply map_err_hoare, cached_existing_write_conn_hoare|]. intros opened.
  apply hoare_bind_lift; [|intros c; apply opened_failed]. intros k _.
  eapply hoare_bind; [apply append_on_conn_hoare|]. intros [res h].
  intros c Hst. cbn. exists h. split; [done|].
  pose proof Hst as (c1 & db' & _ & _ & _ & _ & Hc & _).
  pose proof (cm_estimate _ _ _ _ _ _ _ _ _ _ _ _ Hc) as He. rewrite Hpl in He. injection He as ->.
  rewrite missing_candidate, <- (cm_inserted _ _ _ _ _ _ _ _ _ _ _ _ Hc) in *.
  pose proof (cm_pruned _ _ _ _ _ _ _ _ _ _ _ _ Hc).
  pose proof (slen_nonneg (db_body db)). pose proof (slen_nonneg (aq_body req)).
  rewrite <- slen_app.
  eapply (settle w c0 p db _ _ _ _ _ _ _ _ _ c (fun k => k)); try done; try (rewrite slen_app; lia); try lia.
  intros x. exists (durable_world_count x). by destruct x.
Qed.

(** *** The memory paths *)

(** Operations on memory worlds change only the memory store. *)
Definition mem_only (c0 c : Core) : Prop := files c = files c0 /\ core_inv c.

Lemma replace_memory_hoare w req c0 :
  hoare (mem_only c0) (replace_memory cfg w req) (fun _ => mem_only c0) (mem_only c0).
Proof.
  intros c [Hf Hi]. unfold replace_memory. destruct (MemoryWorldPath_new w) as [mw|]; [|done].
  destruct (write_with_quota _ _ _ _ _ _) as [[o m]|err] eqn:E; [|done].
  split; [done|]. by eapply acct_mem, mem_write.
Qed.

Lemma append_memory_hoare w req c0 :
  hoare (mem_only c0) (append_memory cfg w req) (fun _ => mem_only c0) (mem_only c0).
Proof.
  intros c [Hf Hi]. unfold append_memory. destruct (MemoryWorldPath_new w) as [mw|]; [|done].
  destruct (append_with_quota _ _ _ _) as [[[o|] m]|err] eqn:E; [| |done];
    (split; [done|]; by eapply acct_mem, mem_append).
Qed.
End Ops.
