(* ===== verification/DeleteOpsProofs.v ===== *)
(** * Delete keeps the engine's invariant and signs what it does

    Ledger appends keep the ledger intact; every way a delete can end leaves
    intact files and exact counters; no world is removed before its intent is
    signed into the ledger. *)

From S2P Require Import Prelude.
From S2P Require Import WorldSchema.
From S2P Require Import RustStr.
From S2P Require Import Path.
From S2P Require Import Auth.
From S2P Require Import Crypto.
From S2P Require Import Etag.
From S2P Require Import Types.
From S2P Require Import Db.
From S2P Require Import AuditVerify.
From S2P Require Import AuditGates.
From S2P Require Import AuditAppend.
From S2P Require Import Cas.
From S2P Require Import WorldWrite.
From S2P Require Import Timeline.
From S2P Require Import EventId.
From S2P Require Import Store.
From S2P Require Import Quota.
From S2P Require Import ChainSpec.
From S2P Require Import ChainValid.
From S2P Require Import GateProofs.
From S2P Require Import CasProofs.
From S2P Require Import WriteProofs.
From S2P Require Import WriteTheorems.
From S2P Require Import Usage.
From S2P Require Import StorageClass.
From S2P Require Import Core.
From S2P Require Import WorldOps.
From S2P Require Import DeleteOps.
From S2P Require Import CoreInv.
From S2P Require Import WorldOpsProofs.

Section Delete.
Context `{CryptoLaws} `{Rusqlite} (cfg : Config).

Notation key := (hmac_key cfg).
Notation core_acct := (core_acct cfg).
Notation core_inv := (core_inv cfg).
Notation L := DELETE_LEDGER_WORLD.

(** ** One ledger append on the ledger's file *)

Definition job_pairs (job : AuditAppendJob) : list (string * string) :=
  canonical_headers (to_storage_pairs (aj_headers job)).

Record job_ok (job : AuditAppendJob) : Prop := {
  jo_signable : signable L (aj_event_type job) (aj_target job) (aj_body_sha256 job) (job_pairs job);
  jo_kind : body_bearing (class (aj_event_type job)) = false;
}.

Definition row_of_job (job : AuditAppendJob) (r : EventRow) : Prop :=
  ev_event_type r = as_str (aj_event_type job) /\ ev_target r = aj_target job
  /\ ev_body_sha256 r = aj_body_sha256 job.

Lemma live_same_bodies db db' : same_bodies db db' -> live_valid db -> live_valid db'.
Proof. intros Hs. unfold live_valid. by rewrite (sb_events _ _ Hs), (sb_body _ _ Hs). Qed.

Lemma file_ok_live k w db : file_ok k w db -> live_valid db.
Proof. intros [_ [Hv|(g & _ & ->)]]; [apply Hv|done]. Qed.

(** What an append of [rows] rows does to the ledger's file. *)
Definition ledger_grown (job : AuditAppendJob) (rows : Z) (db db' : world_db) : Prop :=
  file_ok key L db' /\ same_bodies db db' /\ event_count db' = (event_count db + rows)%Z
  /\ exists pre r, db_events db' = db_events db ++ pre ++ [r] /\ row_of_job job r.

Lemma pre_valid_file_ok w db :
  db_wf db -> pre_valid w key db -> live_valid db -> db_events db <> [] -> file_ok key w db.
Proof. intros Hwf [] Hl He. split; [done|]. left. by split. Qed.

Lemma full_gate_authority db w m atx pf :
  verify_appendable_tx_full db w key m = Ok (atx, pf) -> atx = authority key w db.
Proof.
  unfold verify_appendable_tx_full, storage. intros Hg. apply result_bind_Ok in Hg as (gen & Hgen & Hg).
  apply map_err_Ok, generation_Ok in Hgen as [-> _].
  repeat (apply result_bind_Ok in Hg as (? & _ & Hg)). by injection Hg.
Qed.

Lemma append_existing_grown now job db row db' :
  file_ok key L db -> job_ok job ->
  append_with_conn_existing_row now (aj_event_type job) L (aj_target job) (aj_body_sha256 job)
    (aj_size job) (aj_content_type job) (aj_headers job) key db = Ok (row, db') ->
  ledger_grown job 1 db db' /\ ar_event_type row = aj_event_type job.
Proof.
  intros Hok [Hs Hk] Ha. pose proof (file_ok_pre _ _ _ Hok) as [Hwf Hpre].
  unfold append_with_conn_existing_row in Ha. apply result_bind_Ok in Ha as ([atx pf] & Hg & Ha).
  apply full_gate_authority in Hg as ->. apply map_err_Ok in Ha.
  destruct (append_non_body _ _ _ _ _ _ _ _ _ _ _ _ _ Hwf Hpre eq_refl Hs Hk Ha)
    as (Hwf' & Hpre' & Hsame & Hc & He & r & Hr & Ht & Hta & Hsha & _).
  assert (ar_event_type row = aj_event_type job) as Hrow.
  { destruct (append_tx_inner_inv _ _ _ _ _ _ _ _ _ _ Hwf Ha) as [Hn Hq].
    rewrite append_tx_inner_Ok in Ha by done. by injection Ha as <- _. }
  split; [|done]. split_and!; [|done|done|by exists [], r].
  apply pre_valid_file_ok; [done|done| |done]. eapply live_same_bodies; [done|by eapply file_ok_live].
Qed.

Lemma append_genesis_grown nowf now job db frow row db' :
  file_ok key L db -> job_ok job ->
  append_with_conn_genesis_row nowf now (aj_event_type job) L (aj_target job) (aj_body_sha256 job)
    (aj_size job) (aj_content_type job) (aj_headers job) key db = Ok (frow, row, db') ->
  ledger_grown job 2 db db' /\ ar_event_type row = aj_event_type job.
Proof.
  intros Hok [Hs Hk] Ha. pose proof (file_ok_pre _ _ _ Hok) as [Hwf Hpre].
  unfold append_with_conn_genesis_row in Ha. apply result_bind_Ok in Ha as ([atx pf] & Hg & Ha).
  apply full_gate_authority in Hg as ->.
  apply result_bind_Ok in Ha as ([fr db1] & Hf & Ha). apply map_err_Ok in Hf.
  destruct (append_non_body _ _ _ _ _ _ _ _ _ _ _ _ _ Hwf Hpre eq_refl
              (signable_format _ _ _ format_has_version) eq_refl Hf)
    as (Hwf1 & Hpre1 & Hsame1 & Hc1 & _ & r1 & Hr1 & _).
  apply result_bind_Ok in Ha as ([row' db2] & Hi & Ha). apply map_err_Ok in Hi. injection Ha as <- <- <-.
  assert (authority key L db = authority key L db1) as Eauth
    by (unfold authority; by rewrite (sb_generation _ _ Hsame1)).
  rewrite Eauth in Hi.
  destruct (append_non_body _ _ _ _ _ _ _ _ _ _ _ _ _ Hwf1 Hpre1 eq_refl Hs Hk Hi)
    as (Hwf' & Hpre' & Hsame & Hc & He & r & Hr & Ht & Hta & Hsha & _).
  assert (same_bodies db db2) as Hsame2 by (destruct Hsame, Hsame1; split; congruence).
  assert (ar_event_type row' = aj_event_type job) as Hrow.
  { destruct (append_tx_inner_inv _ _ _ _ _ _ _ _ _ _ Hwf1 Hi) as [Hn Hq].
    rewrite append_tx_inner_Ok in Hi by done. by injection Hi as <- _. }
  split; [|done]. split_and!; [|done|lia|].
  - apply pre_valid_file_ok; [done|done| |done]. eapply live_same_bodies; [done|by eapply file_ok_live].
  - exists [r1], r. split; [|done]. by rewrite Hr, Hr1, <- app_assoc.
Qed.

(** ** One ledger append on the engine's state *)

Definition ledger_env_ok (le : LedgerEnv) : Prop :=
  WorldGeneration_new (le_generation le) = Ok (le_generation le).

Definition ledger_rows (c : Core) : list EventRow := from_option db_events [] (files c !! L).

Lemma ledger_world_valid : valid_world L /\ is_memory_world L = false.
Proof. split; by vm_compute. Qed.

Lemma acct_ledger_grown c db db' job rows :
  core_acct 0 2 c -> files c !! L = Some db -> ledger_grown job rows db db' ->
  core_acct 0 (2 - rows) (set_files (<[L := db']>) c).
Proof.
  intros [] Hdb (Hok & Hs & Hc & _).
  split; try done; cbn [files set_files counters write_conns ledger_conn].
  - intros w' x. by apply files_insert_ok; [done|eexists|].
  - intros w' err Hb. destruct (ca_broken w' err Hb) as (Hn & ?). split; [|done].
    rewrite lookup_insert_ne; [done|]. intros <-. congruence.
  - intros w' k Hk. apply insert_is_Some. by eapply ca_conns.
  - intros E. by apply insert_is_Some, ca_ledger.
  - rewrite files_sum_insert, Hdb. cbn [from_option].
    replace (file_bytes db') with (file_bytes db); [lia|].
    unfold file_bytes. by rewrite (sb_body _ _ Hs), (sb_cas _ _ Hs).
  - rewrite files_sum_insert, Hdb. cbn [from_option]. rewrite (sb_body _ _ Hs). lia.
  - rewrite files_sum_insert, Hdb. cbn [from_option]. rewrite (sb_cas _ _ Hs). lia.
  - rewrite files_sum_insert, Hdb. cbn [from_option]. rewrite Hc. lia.
Qed.

Definition at_ledger (c0 c : Core) : Prop := core_acct 0 2 c /\ framed L c0 c /\ same_file L c0 c.

Lemma connect_ledger_hoare le c0 :
  ledger_env_ok le ->
  hoare (at_ledger c0) (connect_ledger le)
    (fun _ c => core_acct 0 2 c /\ framed L c0 c /\ is_Some (files c !! L) /\ same_or_made L c0 c)
    (failed cfg L c0 0 2).
Proof.
  intros Hg c (Ha & Hf & Hw). unfold connect_ledger. destruct ledger_world_valid as [HL Hm].
  destruct (ledger_conn c) eqn:El.
  - split_and!; [done..|by apply (ca_ledger _ _ _ _ Ha)|by left].
  - destruct (le_open_fault le); [split_and!; [done|done|by left]|].
    pose proof (acct_open cfg 0 2 c (le_creation le) _ L Ha Hg HL Hm) as Ho.
    destruct (open_world (le_creation le) (le_generation le) L c) as [[k|err] c1].
    + destruct Ho as (Ha1 & db & Hdb & Hb & Hor).
      assert (framed L c0 c1 /\ same_or_made L c0 c1) as [Hf1 Hs1].
      { destruct Hor as [->|(Hn & -> & ->)]; [split; [done|by left]|].
        assert (file_made L c (set_files (<[L := create (le_generation le)]>) c)) as Hmade
          by (split; [done|split; [done|left; eauto]]).
        split; [by eapply made_frame|by eapply made_same]. }
      split_and!; [|by destruct Hf1|by eexists|exact Hs1].
      destruct Ha1; split; try done; by eexists.
    + destruct Ho as [Ha1 [->|Hmade]]; [split_and!; [done|done|by left]|].
      split_and!; [done|by eapply made_frame|by eapply made_same].
Qed.

Lemma open_ledger_hoare le c0 :
  ledger_env_ok le ->
  hoare (at_ledger c0) (open_ledger le)
    (fun db c => core_acct 0 2 c /\ framed L c0 c /\ files c !! L = Some db /\ same_or_made L c0 c)
    (failed cfg L c0 0 2).
Proof.
  intros Hg. unfold open_ledger. eapply hoare_bind; [by apply connect_ledger_hoare|]. intros [].
  apply hoare_bind_gets. intros odb c (-> & Ha & Hf & [db Hdb] & Hs). unfold lift. by rewrite Hdb.
Qed.

(** The ledger after an append: intact, one or two rows longer, the last one
    being the job's. *)
Definition ledger_signed (job : AuditAppendJob) (c0 c : Core) : Prop :=
  exists pre r, ledger_rows c = ledger_rows c0 ++ pre ++ [r] /\ row_of_job job r.

Lemma same_or_made_rows w c0 c db :
  same_or_made w c0 c -> files c !! w = Some db ->
  db_events db = from_option db_events [] (files c0 !! w).
Proof.
  intros [[Hs _]|(Hn & _ & [(g & _ & Hg & _)|(msg & Hg & _)])] Hdb; [by rewrite <- Hs, Hdb| |congruence].
  rewrite Hn. rewrite Hg in Hdb. by injection Hdb as <-.
Qed.

Lemma ledger_append_hoare le job c0 :
  ledger_env_ok le -> job_ok job ->
  hoare (at_ledger c0) (ledger_append cfg le job)
    (fun ev c => core_acct 0 (if le_format_event ev then 0 else 1)%Z c /\ framed L c0 c
       /\ ledger_signed job c0 c /\ le_event_type ev = aj_event_type job)
    (failed cfg L c0 0 2).
Proof.
  intros Hg Hj. unfold ledger_append. eapply hoare_bind; [by apply open_ledger_hoare|]. intros db.
  assert (forall c, core_acct 0 2 c /\ framed L c0 c /\ files c !! L = Some db /\ same_or_made L c0 c ->
    failed cfg L c0 0 2 c) as Hpf by (intros c (? & ? & ? & ?); done).
  apply hoare_bind_lift; [|done]. intros e Hemp. clear Hemp. cbv zeta.
  apply hoare_bind_lift; [|done]. intros [[fe row] db'] Hrow. apply map_err_Ok in Hrow.
  unfold faulty_audit in Hrow. destruct (le_fault le); [done|].
  apply (hoare_fact (file_ok key L db)); [intros c (Ha & _ & Hdb & _); by apply (ca_files _ _ _ _ Ha)|].
  intros Hok.
  assert (ledger_grown job (if fe then 2 else 1) db db' /\ ar_event_type row = aj_event_type job)
    as [Hgrown Hty].
  { destruct e; apply result_bind_Ok in Hrow as (x & Hx & Hrow).
    - destruct x as [[fr r] d]. injection Hrow as <- <- <-. by eapply append_genesis_grown.
    - destruct x as [r d]. injection Hrow as <- <- <-. by eapply append_existing_grown. }
  intros c (Ha & Hf & Hdb & Hs). cbn. split_and!.
  - pose proof (acct_ledger_grown _ _ _ _ _ Ha Hdb Hgrown) as Ha'. by destruct fe.
  - destruct Hf. split; try done. intros w' Hne. cbn. rewrite lookup_insert_ne by done. auto.
  - destruct Hgrown as (_ & _ & _ & pre & r & He & Hr). exists pre, r. split; [|done].
    unfold ledger_rows. cbn. rewrite lookup_insert_eq. cbn. rewrite He.
    by rewrite (same_or_made_rows _ _ _ _ Hs Hdb).
  - done.
Qed.

Lemma commit_events_acct c (fe : option AppendedAuditRow) :
  core_acct 0 (if fe then 0 else 1)%Z c -> core_inv (set_counters (commit_events (is_some fe)) c).
Proof.
  intros []. pose proof (files_sum_nonneg event_count c event_count_nonneg).
  split; try done; destruct fe; cbn [is_some]; rewrite ?files_sum_counters;
    cbn [counters set_counters commit_events set_audit_events storage_audit_chain_events];
    unfold commit_two, commit_one; rewrite ?credit_exact; lia.
Qed.

Lemma ledger_event_hoare le job c0 :
  ledger_env_ok le -> job_ok job ->
  hoare (fun c => core_inv c /\ framed L c0 c /\ same_file L c0 c)
    (append_ledger_event_and_notify cfg le job)
    (fun ev c => core_inv c /\ framed L c0 c /\ ledger_signed job c0 c
                 /\ le_event_type ev = aj_event_type job)
    (failed cfg L c0 0 0).
Proof.
  intros Hg Hj. unfold append_ledger_event_and_notify.
  eapply (hoare_bind _ _ (fun _ => at_ledger c0)).
  { intros c (Ha & Hf & Hw). unfold reserve_events.
    destruct (reserve_audit_events _) as [used|] eqn:Eu; [|split_and!; [done|done|by left]].
    split_and!; [by apply acct_reserve_events|by destruct Hf|done]. }
  intros []. eapply hoare_bind.
  { eapply hoare_on_drop; [by apply ledger_append_hoare|]. intros c. apply failed_drop_events. }
  intros ev. apply (hoare_bind_modify _ (fun c => core_inv c /\ framed L c0 c
    /\ ledger_signed job c0 c /\ le_event_type ev = aj_event_type job)).
  { intros c (Ha & Hf & Hl & Ht). split_and!; [by apply commit_events_acct|by destruct Hf|done|done]. }
  apply (hoare_bind_modify _ (fun c => core_inv c /\ framed L c0 c
    /\ ledger_signed job c0 c /\ le_event_type ev = aj_event_type job)); [|by intros c Hc].
  intros c (Ha & Hf & Hl & Ht).
  unfold notify_ledger_event. destruct (le_format_event ev);
    (split_and!; [by repeat apply acct_notify|by destruct Hf|done|done]).
Qed.
(** ** The subject of a delete *)

Lemma lower_hex_len raw :
  slen raw = 64%Z -> is_lower_hex raw = true -> is_lower_hex_len raw 64 = true.
Proof.
  intros Hl Hh. unfold is_lower_hex_len. rewrite Hl, Z.eqb_refl. cbn [andb].
  revert Hh. unfold is_lower_hex. apply sall_impl. intros a.
  by destruct a as [[] [] [] [] [] [] [] []]; vm_compute.
Qed.

(** Accepted user headers stay free of reserved names when they are stored. *)
Lemma user_not_reserved hs user :
  AuditHeaders_from_user hs = Ok user ->
  existsb (fun p => is_reserved_audit_header (fst p))
    (canonical_headers (to_storage_pairs user)) = false.
Proof.
  unfold AuditHeaders_from_user. destruct (existsb _ hs) eqn:E; [done|]. intros [= <-].
  cbn [to_storage_pairs ah_delete_subject ah_user]. apply not_true_iff_false. intros Hx.
  apply existsb_exists in Hx as (p & Hp%list_elem_of_In & Hr). unfold canonical_headers in Hp.
  rewrite sort_headers_perm in Hp. apply list_elem_of_fmap in Hp as ([n v] & -> & Hp).
  cbn [fst] in Hr. apply not_true_iff_false in E. apply E, existsb_exists. exists (n, v).
  split; [by apply list_elem_of_In|]. unfold is_reserved_audit_header in *.
  by rewrite to_ascii_lowercase_idem in Hr.
Qed.

Lemma hmac_label_hex raw :
  slen raw = 64%Z -> is_lower_hex raw = true -> is_hmac_label (hmac_label raw) = true.
Proof.
  intros Hl Hh. rewrite hmac_label_raw by done. unfold is_hmac_label. cbn. by apply lower_hex_len.
Qed.

Lemma intact_hmac w db e :
  chain_valid w key db -> e ∈ db_events db -> is_hmac_label (hmac_label (ev_hmac e)) = true.
Proof.
  intros Hv He. destruct (chain_ok_hmac _ _ _ _ _ e (headers_of db (ev_id e)) (cv_links _ _ _ Hv)) as [i ->].
  - unfold events_with_headers. apply list_elem_of_fmap. by exists e.
  - unfold event_hmac. destruct (Hmac_shape key (event_hmac_message i)). by apply hmac_label_hex.
Qed.

Lemma head_subject_wf w db head :
  file_ok key w db -> valid_world w ->
  verified_latest_body_head_via_conn db w key = Ok (Some head) ->
  subject_wf (subject_of_head head) /\ ta_world (vh_address head) = w.
Proof.
  intros [Hwf Hok] Hw Hh. unfold verified_latest_body_head_via_conn, storage in Hh.
  apply result_bind_Ok in Hh as (rep & _ & Hh). apply result_bind_Ok in Hh as ([] & _ & Hh).
  apply result_bind_Ok in Hh as ([] & _ & Hh). apply result_bind_Ok in Hh as (hd & Hhd & Hh).
  apply map_err_Ok in Hhd. unfold load_latest_body_head in Hhd.
  destruct (last (body_events db)) as [e|] eqn:El; [|by injection Hhd as <-].
  apply result_bind_Ok in Hhd as (seq & Hseq & Hhd). injection Hhd as <-.
  apply map_err_Ok, TimelineSeq_new_Ok in Hseq as [-> Hpos].
  apply last_Some_elem_of in El. assert (e ∈ db_events db) as He by (by apply elem_body_events in El as [_ ?]).
  cbn [bh_event bh_seq bh_hmac_label] in Hh.
  apply result_bind_Ok in Hh as (kd & _ & Hh). apply result_bind_Ok in Hh as ([] & _ & Hh).
  apply result_bind_Ok in Hh as ([] & _ & Hh). apply result_bind_Ok in Hh as (sha & Hsha & Hh).
  apply result_bind_Ok in Hh as (gen & Hgen & Hh). injection Hh as <-.
  apply map_err_Ok, map_err_Ok in Hsha. pose proof (proj1 (BodySha256_new_Ok _ _) Hsha) as [-> _].
  apply map_err_Ok, generation_Ok in Hgen as [-> Hgen].
  split; [|done]. cbn. split_and!; try done.
  - pose proof (wf_ids_pos _ Hwf) as Hp. rewrite Forall_forall in Hp. specialize (Hp _ He).
    pose proof (wf_seq _ Hwf). cbn. lia.
  - destruct Hok as [Hv|(g & _ & ->)]; [by eapply intact_hmac|]. by apply not_elem_of_nil in He.
Qed.

(** The three rows of a delete are signable. *)
Lemma delete_job_ok k w sha ct hs user subject :
  is_delete_kind k = true -> valid_world w -> AuditHeaders_from_user hs = Ok user ->
  match subject with
  | Some s => subject_wf s /\ ta_world (ds_address s) = w /\ sha = ta_body_sha256 (ds_address s)
  | None => is_memory_world w = true /\ BodySha256_new sha = Ok sha
  end ->
  job_ok (delete_job k w sha ct
            (match subject with Some s => with_delete_subject user s | None => user end)).
Proof.
  intros Hk Hw Hu Hs.
  assert (subject_valid k w sha (canonical_headers (to_storage_pairs
    (match subject with Some s => with_delete_subject user s | None => user end)))) as Hsub.
  { assert (from_canonical w = Ok w /\ BodySha256_new sha = Ok sha
      /\ is_ok (delete_subject_proof_from_headers w sha (canonical_headers (to_storage_pairs
           (match subject with Some s => with_delete_subject user s | None => user end)))) = true)
      as Hall; [|by destruct k].
    split; [done|]. destruct subject as [s|].
    - destruct Hs as (Hwf & <- & ->). split; [apply Hwf|]. by rewrite (delete_subject_roundtrip_aux _ _ _ Hwf Hu).
    - destruct Hs as [Hm Hb]. split; [done|]. unfold delete_subject_proof_from_headers.
      rewrite Hm, andb_true_r, (user_not_reserved _ _ Hu). done. }
  split; [split_and!; cbn|by destruct k].
  - by destruct k; intros [?|?].
  - by destruct k.
  - exact Hsub.
Qed.
(** ** Removing the world *)

Lemma storage_usage_exact db u :
  storage_usage_inner (Some db) = Ok (Some u) ->
  current_body_bytes u = slen (db_body db) /\ retained_cas_body_bytes u = sum_len (db_cas db)
  /\ audit_chain_events u = event_count db.
Proof.
  unfold storage_usage_inner. rewrite !nonneg_usize_Ok by (apply slen_nonneg || apply sum_len_nonneg || apply event_count_nonneg).
  cbn [mbind result_bind]. intros Hu. apply result_bind_Ok in Hu as (? & _ & Hu). by injection Hu as <-.
Qed.

Lemma files_sum_remove f c w db :
  files c !! w = Some db ->
  files_sum f (set_files (base.delete w) c) = (files_sum f c - f db)%Z.
Proof.
  intros Hw. unfold files_sum, present_sum. rewrite (map_sum_delete _ (files c) _ _ Hw).
  change (lost_sum f (set_files (base.delete w) c)) with (lost_sum f c). cbn [files set_files]. lia.
Qed.

(** A world with a file is not among the broken ones. *)
Lemma broken_delete r e c w db :
  core_acct r e c -> files c !! w = Some db -> base.delete w (broken c) = broken c.
Proof.
  intros Ha Hw. apply delete_id. destruct (broken c !! w) as [err|] eqn:Hb; [|done].
  destruct (ca_broken _ _ _ _ Ha w err Hb). congruence.
Qed.

Lemma remove_file_eq r e c w db :
  core_acct r e c -> files c !! w = Some db -> remove_file w c = set_files (base.delete w) c.
Proof.
  intros Ha Hw. unfold remove_file, set_broken, set_files. cbn. by rewrite (broken_delete _ _ _ _ _ Ha Hw).
Qed.

(** The counters go on counting a file that a failed removal took away. *)
Lemma acct_lose c w db :
  core_inv c -> files c !! w = Some db -> w <> L -> write_conns c !! w = None -> core_inv (lose_file w c).
Proof.
  intros Hi Hw HL Hc. unfold lose_file. rewrite Hw.
  assert (forall f, files_sum f (set_files (base.delete w) (set_lost (fun l => db :: l) c)) = files_sum f c) as Hsum.
  { intros f. rewrite (files_sum_remove f (set_lost (fun l => db :: l) c) w db Hw). unfold files_sum, lost_sum, present_sum.
    cbn. lia. }
  assert (remove_file w (set_lost (fun l => db :: l) c) = set_files (base.delete w) (set_lost (fun l => db :: l) c)) as ->.
  { unfold remove_file, set_broken, set_files, set_lost. cbn. by rewrite (broken_delete _ _ _ _ _ Hi Hw). }
  destruct Hi. split; try done; rewrite ?Hsum; try done; cbn.
  - intros w' x [_ Hx]%lookup_delete_Some. by apply ca_files.
  - intros w' err Hb. destruct (ca_broken w' err Hb) as (Hn & ?). split; [|done]. by apply lookup_delete_None; right.
  - intros w' k Hk. rewrite lookup_delete_ne; [by eapply ca_conns|]. intros <-. congruence.
  - intros El. rewrite lookup_delete_ne; [by apply ca_ledger|done].
Qed.

(** The counters after a removal are exact again. *)
Lemma acct_remove c w db u :
  core_inv c -> files c !! w = Some db -> w <> L -> write_conns c !! w = None ->
  is_persistent w = true -> storage_usage_inner (Some db) = Ok (Some u) ->
  core_inv (set_counters (account_delete w (Some u)) (set_files (base.delete w) c)).
Proof.
  intros [] Hw HL Hc Hp (Eu & Er & Ee)%storage_usage_exact.
  pose proof (files_sum_ge file_bytes c w db file_bytes_nonneg Hw) as Hge.
  assert (file_bytes db = slen (db_body db) + sum_len (db_cas db))%Z as Ef by done.
  pose proof (files_sum_ge (fun db => slen (db_body db)) c w db (fun _ => slen_nonneg _) Hw) as Hgc.
  pose proof (files_sum_ge (fun db => sum_len (db_cas db)) c w db (fun _ => sum_len_nonneg _) Hw) as Hgr.
  pose proof (files_sum_ge event_count c w db event_count_nonneg Hw) as Hgev. cbn beta in *.
  pose proof (slen_nonneg (db_body db)). pose proof (sum_len_nonneg (db_cas db)).
  pose proof (event_count_nonneg db). pose proof (files_sum_split c) as Hsp.
  assert (total_body_bytes u = file_bytes db) as Et.
  { unfold total_body_bytes, saturating_add. rewrite Eu, Er. lia. }
  assert (forall w', w' <> w -> base.delete w (files c) !! w' = files c !! w') as Hother
    by (intros; by apply lookup_delete_ne).
  unfold account_delete. rewrite Hp. unfold subtract_storage_usage.
  split; try done; cbn [files set_counters set_files counters write_conns ledger_conn set_world_count
    set_audit_events set_retained_bytes set_current_bytes set_body_bytes storage_body_bytes
    storage_current_body_bytes storage_retained_cas_body_bytes storage_audit_chain_events];
    rewrite ?files_sum_counters, ?(files_sum_remove _ _ _ _ Hw), ?Eu, ?Er, ?Ee, ?Et.
  - intros w' x [_ Hx]%lookup_delete_Some. by apply ca_files.
  - intros w' err Hb. destruct (ca_broken w' err Hb) as (Hn & ?). split; [|done]. by apply lookup_delete_None; right.
  - intros w' k Hk. rewrite Hother; [by eapply ca_conns|]. intros ->. congruence.
  - intros El. rewrite Hother; [by apply ca_ledger|done].
  - rewrite adjust_exact; lia.
  - rewrite adjust_exact; lia.
  - rewrite adjust_exact; lia.
  - rewrite adjust_exact; lia.
  - rewrite adjust_exact; lia.
  - rewrite adjust_exact; lia.
Qed.

(** A world is gone: its file, or its memory entry. *)
Definition world_gone (w : string) (c : Core) : Prop :=
  if is_memory_world w then ms_map (mem c) !! w = None
  else files c !! w = None /\ broken c !! w = None.

(** What a delete of [w] leaves alone, apart from the ledger. *)
Record frame_delete (w : string) (c0 c : Core) : Prop := {
  fd_files : forall w', w' <> w -> w' <> L -> files c !! w' = files c0 !! w';
  fd_broken : forall w', w' <> w -> w' <> L -> broken c !! w' = broken c0 !! w';
  fd_mem : forall w', w' <> w -> ms_map (mem c) !! w' = ms_map (mem c0) !! w';
}.

Definition untouched (w : string) (c0 c : Core) : Prop :=
  same_file w c0 c /\ mem c = mem c0.

(** The errors of a delete that had removed the world. *)
Definition after_removal (e : DeleteError) : bool :=
  match e with DeleteInternalInvariant _ | AuditCommitFailed => true | _ => false end.

(** Whether a delete that failed took the world away: after the removal, or in a
    removal that failed but took the database. *)
Definition world_removed (env : Env) (w : string) (e : DeleteError) : bool :=
  match e, removed env with
  | DeleteFailedAfterIntent, FileRemoved => is_persistent w
  | _, _ => after_removal e
  end.

(** The errors raised before the intent. *)
Definition before_intent (e : DeleteError) : bool :=
  match e with DeleteInternalInvariant _ | AuditCommitFailed | DeleteFailedAfterIntent => false | _ => true end.

Lemma before_intent_removed env w e : before_intent e = true -> world_removed env w e = false.
Proof. by destruct e. Qed.

Lemma removal_err env w usage c e c' : removal env w usage c = (Err e, c') -> e = DeleteFailedAfterIntent.
Proof.
  unfold removal, mbind, op_bind, modify, lift.
  destruct (delete_world_now env w _) as [[[]|err] c1] eqn:E; cbn; [done| |].
  - by intros [= <- _].
  - unfold delete_world_now in E. repeat case_match; simplify_eq.
Qed.

Lemma framed_delete w c0 c : framed L c0 c -> frame_delete w c0 c.
Proof. intros []. split; [auto|auto|]. intros w' _. congruence. Qed.

Lemma frame_delete_trans w c0 c1 c2 :
  frame_delete w c0 c1 -> frame_delete w c1 c2 -> frame_delete w c0 c2.
Proof.
  intros [] []. split; intros; [rewrite fd_files1|rewrite fd_broken1|rewrite fd_mem1]; auto.
Qed.

Lemma framed_untouched w c0 c : w <> L -> framed L c0 c -> untouched w c0 c.
Proof. intros Hw []. split; [split; auto|done]. Qed.

Lemma framed_gone w c c' : w <> L -> framed L c c' -> world_gone w c -> world_gone w c'.
Proof.
  intros Hw Hf. destruct (framed_untouched w c c' Hw Hf) as [[E1 E2] E3]. unfold world_gone. by rewrite E1, E2, E3.
Qed.

Lemma ledger_event_run le job c :
  ledger_env_ok le -> job_ok job -> core_inv c ->
  match append_ledger_event_and_notify cfg le job c with
  | (Ok ev, c') => core_inv c' /\ framed L c c' /\ ledger_signed job c c'
                   /\ le_event_type ev = aj_event_type job
  | (Err _, c') => core_inv c' /\ framed L c c' /\ ledger_rows c' = ledger_rows c
  end.
Proof.
  intros Hg Hj Hi. pose proof (ledger_event_hoare le job c Hg Hj c) as Hrun.
  destruct (append_ledger_event_and_notify cfg le job c) as [[ev|e] c'].
  - by apply Hrun.
  - destruct Hrun as (Ha & Hf & Hs); [done|]. split_and!; [done|done|].
    unfold ledger_rows. destruct Hs as [[-> _]|(Hn & _ & [(g & _ & Hg' & _)|(msg & Hg' & _)])]; [done|..]; by rewrite Hn, Hg'.
Qed.

Lemma tombstone_cleared w c :
  tombstones c = ∅ -> clear_tombstone w (install_tombstone_blocking w c) = c.
Proof.
  intros Ht. unfold clear_tombstone, install_tombstone_blocking. destruct (is_memory_world w); [done|].
  destruct c; cbn in *. subst. unfold set_tombstones. cbn. f_equal. set_solver.
Qed.

(** The tombstone is gone again when the world could not be removed, and when
    it was. *)
Lemma tombstone_around w c :
  tombstones c = ∅ ->
  clear_tombstone w (remove_file w (install_tombstone_blocking w c)) = remove_file w c
  /\ clear_tombstone w (lose_file w (install_tombstone_blocking w c)) = lose_file w c.
Proof.
  intros Ht. unfold clear_tombstone, install_tombstone_blocking. destruct (is_memory_world w); [done|].
  destruct c; cbn in *. subst.
  unfold lose_file, remove_file, set_broken, set_files, set_lost, set_tombstones. cbn.
  split; f_equal; set_solver.
Qed.

Lemma open_file_tombstone v w c : open_file v (install_tombstone_blocking w c) = open_file v c.
Proof. unfold install_tombstone_blocking. by destruct (is_memory_world w). Qed.

Lemma removal_durable env w db u c :
  core_inv c -> files c !! w = Some db -> w <> L -> is_memory_world w = false ->
  storage_usage_inner (Some db) = Ok (Some u) ->
  match removal env w (Some u) c with
  | (Ok _, c') => core_inv c' /\ files c' = base.delete w (files c) /\ broken c' = broken c /\ mem c' = mem c
  | (Err _, c') => core_inv c' /\ broken c' = broken c /\ mem c' = mem c
      /\ files c' = match removed env with FileRemoved => base.delete w (files c) | _ => files c end
  end.
Proof.
  intros Hi Hdb HL Hm Hu. pose proof (ca_tombstones _ _ _ _ Hi) as Ht.
  pose proof (broken_delete _ _ _ _ _ Hi Hdb) as Hb. set (c1 := clear_cached_write_conn w c).
  assert (core_inv c1) as Hi1 by (by apply acct_drop_conn).
  assert (is_persistent w = true) as Hp by (unfold is_persistent; by rewrite Hm).
  pose proof (lookup_delete_eq (write_conns c) w) as Hconn.
  destruct (tombstone_around w c1 Ht) as [Hrem Hlose].
  unfold removal, mbind, op_bind, modify, lift, delete_world_now, MemoryWorldPath_new.
  rewrite Hm. fold c1. rewrite open_file_tombstone, (open_file_Some _ _ _ _ _ _ Hi1 Hdb).
  destruct (removed env); cbn [ensure].
  - rewrite Hrem, (remove_file_eq _ _ _ _ _ Hi1 Hdb).
    pose proof (acct_remove c1 w db u Hi1 Hdb HL Hconn Hp Hu) as Hr. split_and!; [|done..]. by destruct Hr; split.
  - rewrite (tombstone_cleared w c1 Ht). split_and!; done.
  - rewrite Hlose. split; [by apply acct_lose with db|].
    unfold lose_file, remove_file. cbn. rewrite Hb. done.
Qed.

Lemma removal_memory env w c :
  core_inv c -> is_memory_world w = true ->
  match removal env w None c with
  | (Ok _, c') => core_inv c' /\ files c' = files c /\ broken c' = broken c
                  /\ ms_map (mem c') = base.delete w (ms_map (mem c))
  | (Err _, c') => core_inv c' /\ files c' = files c /\ broken c' = broken c /\ mem c' = mem c
  end.
Proof.
  intros Hi Hm. assert (core_inv (clear_cached_write_conn w c)) as Hi1 by (by apply acct_drop_conn).
  unfold removal, mbind, op_bind, modify, lift, delete_world_now, MemoryWorldPath_new,
    install_tombstone_blocking, clear_tombstone. rewrite Hm.
  cbn [mem clear_cached_write_conn set_conns].
  destruct (Store.delete (mem c) w) as [ok m] eqn:Ed.
  assert (core_inv (set_mem m (clear_cached_write_conn w c))) as Hi2 by (by eapply acct_mem, mem_delete).
  pose proof (delete_spec (mem c) w (proj1 (ca_mem _ _ _ _ Hi))) as [Hd _]. rewrite Ed in Hd.
  injection Hd as -> ->. unfold contains, account_delete, is_persistent. rewrite Hm. cbn [negb].
  case_bool_decide as Ec; cbn [ensure]; (split_and!; [by destruct Hi2; split|done|done|]); [done|].
  apply eq_None_not_Some in Ec. cbn [mem set_mem].
  rewrite delete_id by done. unfold previous_cost. rewrite Ec. cbn. rewrite Z.sub_0_r. by destruct (mem c).
Qed.

(** ** The whole delete *)

Section Perform.
Context (env : Env) (w sha ct : string) (headers : AuditHeaders) (usage : option StorageUsageSnapshot).
Notation job k := (delete_job k w sha ct headers).
Hypothesis HwL : w <> L.
Hypothesis Henv : ledger_env_ok (ledger_intent env) /\ ledger_env_ok (ledger_commit env)
  /\ ledger_env_ok (ledger_commit_failed env).
Hypothesis Hjob : forall k, is_delete_kind k = true -> job_ok (job k).

(** What a delete that reached its intent leaves: [rows] are the ledger rows it
    added. *)
Definition deleted (c0 c : Core) (rows : list EventRow) : Prop :=
  core_inv c /\ frame_delete w c0 c /\ ledger_rows c = ledger_rows c0 ++ rows.

Definition signs (k : AuditEventKind) (rows : list EventRow) : Prop :=
  exists r, r ∈ rows /\ row_of_job (job k) r.

Lemma deleted_framed c0 c c' rows rows' :
  deleted c0 c rows -> core_inv c' -> framed L c c' -> ledger_rows c' = ledger_rows c ++ rows' ->
  deleted c0 c' (rows ++ rows').
Proof.
  intros (Hi & Hf & Hr) Hi' Hf' Hr'. split_and!; [done| |by rewrite Hr', Hr, app_assoc].
  eapply frame_delete_trans; [done|by apply framed_delete].
Qed.

(** A ledger row after the removal keeps the removal. *)
Lemma ledger_row_after le k c0 c rows :
  ledger_env_ok le -> is_delete_kind k = true -> deleted c0 c rows -> world_gone w c ->
  match append_ledger_event_and_notify cfg le (job k) c with
  | (Ok _, c') => world_gone w c' /\ exists rows', deleted c0 c' (rows ++ rows') /\ signs k rows'
  | (Err _, c') => world_gone w c' /\ deleted c0 c' rows
  end.
Proof using HwL Hjob.
  intros Hle Hk Hd Hg. pose proof (ledger_event_run le (job k) c Hle (Hjob k Hk) (proj1 Hd)) as Hrun.
  destruct (append_ledger_event_and_notify cfg le (job k) c) as [[ev|e] c'].
  - destruct Hrun as (Hi & Hf & (pre & r & Hr & Hrow) & _). split; [by eapply framed_gone|].
    exists (pre ++ [r]). split; [by eapply deleted_framed|]. exists r. split; [|done].
    apply elem_of_app. right. left.
  - destruct Hrun as (Hi & Hf & Hr). split; [by eapply framed_gone|].
    rewrite <- (app_nil_r rows). eapply deleted_framed; [done|done|done|]. by rewrite app_nil_r.
Qed.

Lemma finish_delete_run c0 c rows :
  deleted c0 c rows -> world_gone w c ->
  match finish_delete cfg env (job DeleteCommit) (job DeleteCommitFailed) c with
  | (Ok _, c') => world_gone w c' /\ exists rows', deleted c0 c' (rows ++ rows') /\ signs DeleteCommit rows'
  | (Err e, c') => e = AuditCommitFailed /\ world_gone w c' /\ exists rows', deleted c0 c' (rows ++ rows')
  end.
Proof using All.
  intros Hd Hg. destruct Henv as (_ & H2 & H3). unfold finish_delete, mbind, op_bind, try, mret, op_ret, fail.
  pose proof (ledger_row_after _ DeleteCommit _ _ _ H2 eq_refl Hd Hg) as Hc.
  destruct (append_ledger_event_and_notify cfg (ledger_commit env) _ c) as [[ev|e] c1]; [done|].
  destruct Hc as [Hg1 Hd1].
  pose proof (ledger_row_after _ DeleteCommitFailed _ _ _ H3 eq_refl Hd1 Hg1) as Hf.
  destruct (append_ledger_event_and_notify cfg (ledger_commit_failed env) _ c1) as [[ev2|e2] c2].
  - destruct Hf as (Hg2 & rows' & Hd2 & _). split_and!; [done|done|by exists rows'].
  - destruct Hf as (Hg2 & Hd2). split_and!; [done|done|]. exists []. by rewrite app_nil_r.
Qed.

Hypothesis Husage : if is_memory_world w then usage = None else is_Some usage.

(** The removal, on a state that still holds the world. *)
Lemma removal_run c0 c rows :
  (forall db, files c !! w = Some db -> is_memory_world w = false ->
     storage_usage_inner (Some db) = Ok usage) ->
  (is_memory_world w = false -> is_Some (files c !! w)) ->
  deleted c0 c rows ->
  match removal env w usage c with
  | (Ok _, c') => world_gone w c' /\ deleted c0 c' rows
  | (Err e, c') => deleted c0 c' rows /\ if world_removed env w e then world_gone w c' else untouched w c c'
  end.
Proof using All.
  intros Hu Hf Hd. destruct Hd as (Hi & Hfr & Hr).
  assert (forall c', core_inv c' -> files c' !! L = files c !! L ->
    frame_delete w c c' -> deleted c0 c' rows) as Hdel.
  { intros c' Hi' HL' Hf'. split_and!; [done|by eapply frame_delete_trans|].
    unfold ledger_rows in *. by rewrite HL'. }
  unfold world_gone in *. destruct (is_memory_world w) eqn:Hm.
  - rewrite Husage in *. pose proof (removal_memory env w c Hi Hm) as Hrm.
    destruct (removal env w None c) as [[u|e] c'] eqn:E; destruct Hrm as (Hi' & Ef & Eb & Em).
    + split; [by rewrite Em, lookup_delete_eq|]. apply Hdel; [done|by rewrite Ef|].
      split; intros; [by rewrite Ef|by rewrite Eb|]. rewrite Em. by apply lookup_delete_ne.
    + split; [apply Hdel; [done|by rewrite Ef|]; split; intros; by rewrite ?Ef, ?Eb, ?Em|].
      rewrite (removal_err _ _ _ _ _ _ E). unfold world_removed, is_persistent. rewrite Hm.
      unfold untouched, same_file. rewrite Ef, Eb, Em. by destruct (removed env).
  - destruct (Hf eq_refl) as [db Hdb], Husage as [u Eu]. specialize (Hu db Hdb eq_refl).
    rewrite Eu in *. pose proof (removal_durable env w db u c Hi Hdb HwL Hm Hu) as Hrm.
    assert (broken c !! w = None) as Hbw.
    { destruct (broken c !! w) eqn:Hb; [|done]. destruct (ca_broken _ _ _ _ Hi w _ Hb). congruence. }
    destruct (removal env w (Some u) c) as [[x|e] c'] eqn:E.
    + destruct Hrm as (Hi' & Ef & Eb & Em). split; [by rewrite Ef, Eb, lookup_delete_eq|].
      apply Hdel; [done|rewrite Ef; by apply lookup_delete_ne|].
      split; intros; [rewrite Ef; by apply lookup_delete_ne|by rewrite Eb|by rewrite Em].
    + destruct Hrm as (Hi' & Eb & Em & Ef). rewrite (removal_err _ _ _ _ _ _ E).
      unfold world_removed, is_persistent, untouched, same_file. rewrite Hm, Eb, Em. cbn [negb after_removal].
      destruct (removed env); rewrite Ef.
      * split; [|done]. apply Hdel; [done|by rewrite Ef|]. split; intros; by rewrite ?Ef, ?Eb, ?Em.
      * split; [|done]. apply Hdel; [done|by rewrite Ef|]. split; intros; by rewrite ?Ef, ?Eb, ?Em.
      * rewrite lookup_delete_eq. split; [|done].
        apply Hdel; [done|rewrite Ef; by apply lookup_delete_ne|].
        split; intros; [rewrite Ef; by apply lookup_delete_ne|by rewrite Eb|by rewrite Em].
Qed.

Lemma acct_count_ledger r e c : core_acct r e c -> core_acct r e (count_ledger c).
Proof.
  intros Ha. unfold count_ledger. destruct (delete_ledger_created c); [by apply acct_ledger_created|].
  apply (acct_world_count _ _ _ _ (fun k => (durable_world_count k + 1) mod (usize_max + 1)))%Z.
  by apply acct_ledger_created.
Qed.

(** Every way the delete can end once its checks passed. *)
Lemma perform_delete_run c0 :
  (is_memory_world w = false -> exists db, files c0 !! w = Some db
     /\ storage_usage_inner (Some db) = Ok usage) ->
  core_inv c0 ->
  match perform_delete cfg env w sha ct headers usage c0 with
  | (Ok _, c) => world_gone w c /\ exists rows, deleted c0 c rows
                 /\ signs DeleteIntent rows /\ signs DeleteCommit rows
  | (Err e, c) => exists rows, deleted c0 c rows
                 /\ if world_removed env w e then world_gone w c /\ signs DeleteIntent rows
                    else untouched w c0 c
  end.
Proof using All.
  intros Hfile Hi. destruct Henv as (Hle & _).
  pose proof (ledger_event_run (ledger_intent env) (job DeleteIntent) c0 Hle (Hjob DeleteIntent eq_refl) Hi) as Hrun.
  unfold perform_delete. unfold mbind at 1, op_bind at 1.
  destruct (append_ledger_event_and_notify cfg (ledger_intent env) _ c0) as [[ev|e] c1]; cbn [map_err].
  2: { destruct Hrun as (Hi1 & Hf1 & Hr1). exists []. rewrite before_intent_removed by done. split; [|by apply framed_untouched].
       split_and!; [done|by apply framed_delete|by rewrite app_nil_r]. }
  destruct Hrun as (Hi1 & Hf1 & (pre & r & Hr1 & Hrow) & Hty).
  assert (signs DeleteIntent (pre ++ [r])) as Hsign.
  { exists r. split; [|done]. apply elem_of_app. right. left. }
  assert (deleted c0 (count_ledger c1) (pre ++ [r])) as Hd.
  { split_and!; [by apply acct_count_ledger| |].
    - apply (framed_delete w) in Hf1 as []. unfold count_ledger. by destruct (delete_ledger_created c1); split.
    - unfold count_ledger, ledger_rows in *. by destruct (delete_ledger_created c1). }
  assert (untouched w c0 (count_ledger c1)) as [[Ew Ebw] Em].
  { apply (framed_untouched w) in Hf1 as [[??]?]; [|done]. unfold count_ledger. by destruct (delete_ledger_created c1). }
  unfold mbind at 1, op_bind at 1, modify at 1. cbv iota beta.
  pose proof (removal_run c0 (count_ledger c1) (pre ++ [r])) as Hrem.
  rewrite Ew in Hrem. unfold mbind at 1, op_bind at 1.
  destruct (removal env w usage (count_ledger c1)) as [[u|e] c2] eqn:Hremoval.
  2: { destruct Hrem as (Hd2 & Hres); [| |done|].
       - intros db Hdb Hm. destruct (Hfile Hm) as (db' & Hdb' & Hu). congruence.
       - intros Hm. destruct (Hfile Hm) as (db' & Hdb' & _). by eexists.
       - exists (pre ++ [r]). split; [done|]. destruct (world_removed env w e); [done|].
         destruct Hres as [[Ef2 Eb2] Em2]. split; [split|]; congruence. }
  destruct Hrem as (Hg2 & Hd2); [| |done|].
  { intros db Hdb Hm. destruct (Hfile Hm) as (db' & Hdb' & Hu). congruence. }
  { intros Hm. destruct (Hfile Hm) as (db' & Hdb' & _). by eexists. }
  unfold mbind at 1, op_bind at 1, lift, as_delete_intent. rewrite Hty. cbn [aj_event_type delete_job ok_or].
  unfold mbind at 1, op_bind at 1, modify at 1. cbv iota beta.
  match goal with |- context [finish_delete _ _ _ _ ?x] => set (c3 := x) end.
  assert (deleted c0 c3 (pre ++ [r]) /\ world_gone w c3) as [Hd3 Hg3].
  { split; [|done]. destruct Hd2 as (Hi2 & Hf2 & Hr2). split_and!; [by apply acct_notify|by destruct Hf2|done]. }
  pose proof (finish_delete_run c0 c3 _ Hd3 Hg3) as Hfin.
  destruct (finish_delete _ _ _ _ c3) as [[x|e] c4].
  - destruct Hfin as (Hg4 & rows' & Hd4 & Hs4). split; [done|]. exists ((pre ++ [r]) ++ rows').
    split; [done|]. destruct Hsign as (r1 & Hin1 & ?), Hs4 as (r2 & Hin2 & ?).
    split; [exists r1|exists r2]; (split; [apply elem_of_app; auto|done]).
  - destruct Hfin as (-> & Hg4 & rows' & Hd4). exists ((pre ++ [r]) ++ rows'). split; [done|].
    split; [done|]. destruct Hsign as (r1 & Hin1 & ?). exists r1. split; [apply elem_of_app; auto|done].
Qed.
End Perform.
End Delete.
