(* ===== verification/CoreTheorems.v ===== *)
(** * The engine: correctness theorems

    What replace, append and delete promise on every path, and the invariant of
    every run. *)

From S2P Require Import Prelude.
From S2P Require Import WorldSchema.
From S2P Require Import Path.
From S2P Require Import Auth.
From S2P Require Import Crypto.
From S2P Require Import Etag.
From S2P Require Import Types.
From S2P Require Import Db.
From S2P Require Import AuditVerify.
From S2P Require Import AuditGates.
From S2P Require Import AuditAppend.
From S2P Require Import Cas.
From S2P Require Import WorldWrite.
From S2P Require Import Timeline.
From S2P Require Import EventId.
From S2P Require Import Store.
From S2P Require Import Quota.
From S2P Require Import ChainSpec.
From S2P Require Import ChainValid.
From S2P Require Import WriteProofs.
From S2P Require Import Usage.
From S2P Require Import StorageClass.
From S2P Require Import Core.
From S2P Require Import WorldOps.
From S2P Require Import DeleteOps.
From S2P Require Import CoreInv.
From S2P Require Import WorldOpsProofs.
From S2P Require Import DeleteOpsProofs.

Section Engine.
Context `{CryptoLaws} `{Rusqlite} (cfg : Config).

Notation key := (hmac_key cfg).
Notation L := DELETE_LEDGER_WORLD.

Definition config_ok : Prop := (0 < retained_body_count cfg <= i64_max)%Z.

(** The minted generations have the shape the code mints. *)
Definition env_ok (env : Env) : Prop :=
  WorldGeneration_new (minted_generation env) = Ok (minted_generation env)
  /\ ledger_env_ok (ledger_intent env) /\ ledger_env_ok (ledger_commit env)
  /\ ledger_env_ok (ledger_commit_failed env).

(** ** Writes *)

(** What a caller can observe of a world: its representation and its tag. *)
Definition observe (w : string) (c : Core) : result AuditError (option (Stage * string)) :=
  read_world_with_etag None key w c.

Lemma observe_file w c :
  core_inv cfg c -> is_memory_world w = false ->
  observe w c = match open_file w c with
                | Err err => Err (Storage err)
                | Ok None => Ok None
                | Ok (Some db) => '(stage, hmac) ← read_with_hmac_via_conn db w key;
                    Ok (Some (stage, match hmac with Some h => hmac_etag h | None => body_etag (stage_body stage) end))
                end.
Proof.
  intros Hi Hm. unfold observe, read_world_with_etag, MemoryWorldPath_new.
  rewrite Hm, bool_decide_false by (rewrite (ca_tombstones _ _ _ _ Hi); set_solver). done.
Qed.

Lemma observe_durable w c db stage h :
  core_inv cfg c -> is_memory_world w = false -> files c !! w = Some db ->
  read_with_hmac_via_conn db w key = Ok (stage, Some h) ->
  observe w c = Ok (Some (stage, hmac_etag h)).
Proof.
  intros Hi Hm Hdb Hr. rewrite observe_file by done. rewrite (open_file_Some _ _ _ _ _ _ Hi Hdb). cbn. by rewrite Hr.
Qed.

Lemma observe_same w c c' :
  tombstones c' = tombstones c -> same_file w c c' ->
  ms_map (mem c') !! w = ms_map (mem c) !! w -> observe w c' = observe w c.
Proof.
  intros Ht [Hf Hb] Hm. unfold observe, read_world_with_etag, MemoryWorldPath_new, read_with_hash, open_file.
  destruct (is_memory_world w); [by rewrite Hm|by rewrite Ht, Hf, Hb].
Qed.

Lemma observe_absent w c :
  core_inv cfg c -> is_memory_world w = false -> world_gone w c -> observe w c = Ok None.
Proof.
  intros Hi Hm Hn. unfold world_gone in Hn. rewrite Hm in Hn. destruct Hn as [Hn Hb].
  rewrite observe_file by done. unfold open_file. by rewrite Hb, Hn.
Qed.

Lemma observe_broken w c err :
  core_inv cfg c -> broken c !! w = Some err -> observe w c = Err (Storage err).
Proof.
  intros Hi Hb. destruct (ca_broken _ _ _ _ Hi w err Hb) as (_ & _ & Hm & _).
  rewrite observe_file by done. unfold open_file. by rewrite Hb.
Qed.

(** How the verifier reports a chain without events. *)
Definition no_events : VerifyBreak :=
  {| break_at := 0; expected := "at-least-one-event"; actual := "no-events" |}.

Lemma observe_fresh w c g :
  core_inv cfg c -> WorldGeneration_new g = Ok g -> is_memory_world w = false -> files c !! w = Some (create g) ->
  observe w c = Err (ChainBroken no_events).
Proof.
  intros Hi Hgen Hm Hg. rewrite observe_file, (open_file_Some _ _ _ _ _ _ Hi Hg) by done.
  unfold read_with_hmac_via_conn, require_current_tail_intact_tx, generation. cbn [create db_generation].
  by rewrite Hgen.
Qed.

(** The outcome of a write to [w], besides [w] itself: the invariant holds, no
    world went away, and every other world is as before. *)
Record write_frame (w : string) (c c' : Core) : Prop := {
  wf_inv : core_inv cfg c';
  wf_kept : forall v, world_gone v c' -> world_gone v c;
  wf_files : forall w', w' <> w -> files c' !! w' = files c !! w';
  wf_broken : forall w', w' <> w -> broken c' !! w' = broken c !! w';
  wf_observe : forall w', w' <> w -> observe w' c' = observe w' c;
}.

(** The world reads as before; or it had no file, and the creation left one: a
    complete file without events, or one that is corrupt to every later open. *)
Definition write_failed (w : string) (c c' : Core) : Prop :=
  observe w c' = observe w c
  \/ is_memory_world w = false /\ world_gone w c
     /\ ((exists g, WorldGeneration_new g = Ok g /\ files c' !! w = Some (create g))
         \/ exists msg, broken c' !! w = Some (corrupt_error msg) /\ harmless msg = true).

Lemma write_frame_refl w c : core_inv cfg c -> write_frame w c c.
Proof. by split. Qed.

Lemma framed_observe w c c' :
  core_inv cfg c -> core_inv cfg c' -> framed w c c' ->
  (files c' !! w = None -> broken c' !! w = None -> files c !! w = None /\ broken c !! w = None) ->
  write_frame w c c'.
Proof.
  intros Hi Hi' [Hf Hb Hlo Hm Ht] Hw. split; [done| |done|done|].
  - intros v. unfold world_gone. destruct (is_memory_world v); [by rewrite Hm|].
    destruct (decide (v = w)) as [->|Hne]; [by intros [??]; auto|by rewrite Hf, Hb].
  - intros w' Hne.
    apply observe_same; [by rewrite (ca_tombstones _ _ _ _ Hi), (ca_tombstones _ _ _ _ Hi')|by split; auto|congruence].
Qed.

Lemma mem_only_frame w e n c :
  let m := {| ms_map := <[w := e]> (ms_map (mem c)); ms_accounted := n |} in
  core_inv cfg (set_mem m c) -> write_frame w c (set_mem m c).
Proof.
  intros m Hi'. split; [done| |done|done|].
  - intros v. unfold world_gone. destruct (is_memory_world v); [|done]. cbn.
    intros Hv. by apply lookup_insert_None in Hv as [? _].
  - intros w' Hne. apply observe_same; [done|done|]. by apply lookup_insert_ne.
Qed.

Lemma observe_notify w max verb target etag aux c :
  observe w (notify_with_aux max verb target etag aux c) = observe w c.
Proof. done. Qed.

Lemma notify_write_frame verb n fn w c c' :
  write_frame w c c' -> write_frame w c (notify_write cfg verb n fn c').
Proof.
  intros [Hi Hk Hf Hb Ho]. unfold notify_write.
  split; [by destruct fn; repeat apply acct_notify| | | |].
  - intros v Hv. apply Hk. by destruct fn.
  - intros w' Hne. rewrite <- (Hf w' Hne). by destruct fn.
  - intros w' Hne. rewrite <- (Hb w' Hne). by destruct fn.
  - intros w' Hne. rewrite <- (Ho w' Hne). by destruct fn.
Qed.

Lemma observe_notify_write w verb n fn c : observe w (notify_write cfg verb n fn c) = observe w c.
Proof. unfold notify_write. by destruct fn. Qed.

Lemma permit_ok w tier permit :
  authorize_write w tier = Ok permit ->
  wp_world permit = w /\ ensure_write_permit permit = Ok tt /\ w <> L.
Proof.
  unfold authorize_write. destruct (can_write w tier); [|done].
  unfold is_append_only_world, is_delete_ledger_world. case_bool_decide as E; [done|].
  intros [= <-]. unfold ensure_write_permit. cbn. by rewrite bool_decide_true.
Qed.

Lemma clear_tombstone_id w c : core_inv cfg c -> clear_tombstone w c = c.
Proof.
  intros Hi. unfold clear_tombstone. destruct (is_memory_world w); [done|].
  pose proof (ca_tombstones _ _ _ _ Hi) as Ht. destruct c; cbn in *. unfold set_tombstones. cbn.
  f_equal. rewrite Ht. set_solver.
Qed.

(** The precondition check passed: there was none, or the observed tag passed
    it. *)
Definition preconditions_held (w : string) (p : Preconditions) (c : Core) : Prop :=
  is_empty p = true
  \/ exists cur, observe w c = Ok cur /\ check_preconditions p (option_map snd cur) = Ok tt.

Lemma check_write_preconditions_run env w p c :
  match check_write_preconditions cfg env w p c with
  | (Ok _, c') => c' = c /\ preconditions_held w p c
  | (Err _, c') => c' = c
  end.
Proof.
  unfold check_write_preconditions. destruct (is_empty p) eqn:Ee; [split; [done|by left]|].
  destruct (read_world_with_etag (fault env IoPreconditionRead) key w c) as [cur|e] eqn:Er; [|done].
  cbn [map_err mbind result_bind].
  destruct (check_preconditions p (option_map snd cur)) as [[]|m] eqn:Ec; [|done]. cbn. split; [done|].
  right. exists cur. split; [|done]. revert Er. unfold observe, read_world_with_etag.
  destruct (MemoryWorldPath_new w); [done|]. case_bool_decide; [done|].
  destruct (open_file w c) as [[db|]|err]; [|done|]; unfold faulty_audit; by destruct (fault env IoPreconditionRead).
Qed.

(** ** The bodies of replace and append *)

Hypothesis Hcfg : config_ok.

Lemma failed_write w c c' :
  core_inv cfg c -> is_memory_world w = false -> failed cfg w c 0 0 c' ->
  write_frame w c c' /\ write_failed w c c'.
Proof.
  intros Hi Hm (Hi' & Hf & Hs). split.
  { apply framed_observe; [done|done|done|]. intros Hn Hb.
    destruct Hs as [[<- <-]|(? & ? & _)]; done. }
  destruct Hs as [Hs|(Hn & Hb & Hor)]; [left|].
  - destruct Hf. apply observe_same; [by rewrite (ca_tombstones _ _ _ _ Hi), (ca_tombstones _ _ _ _ Hi')|done|congruence].
  - right. split; [done|]. unfold world_gone. rewrite Hm. split; [done|].
    destruct Hor as [?|(err & _ & Herr & Ht)]; [left; naive_solver|right].
    destruct (torn_corrupt err Ht) as (msg & -> & ?). eauto.
Qed.

Lemma replace_body_run env w req c :
  env_ok env -> core_inv cfg c -> disk_bounded c -> valid_world w ->
  match (if is_persistent w then replace_durable cfg env w req else replace_memory cfg w req) c with
  | (Ok (_, n, _), c') => write_frame w c c'
      /\ observe w c' = Ok (Some ({| stage_body := rr_body req; stage_content_type := rr_content_type req;
             stage_headers := if is_memory_world w then rr_headers req
                              else sort_headers (rr_headers req) |}, nt_etag n))
  | (Err _, c') => write_frame w c c' /\ write_failed w c c'
  end.
Proof using All.
  intros (Hg & _) Hi Hd Hw. unfold is_persistent. destruct (is_memory_world w) eqn:Hm; cbn [negb].
  - unfold replace_memory, MemoryWorldPath_new. rewrite Hm.
    destruct (write_with_quota _ _ _ _ _ _) as [[o m]|err] eqn:E; [|split; [by apply write_frame_refl|by left]].
    pose proof (acct_mem _ _ _ _ _ Hi (mem_write _ _ _ _ _ _ _ _ E)) as Hi'.
    pose proof (write_spec (mem c) w (rr_body req) (rr_content_type req) (rr_headers req)
                  (max_memory_bytes cfg) (proj1 (ca_mem _ _ _ _ Hi))) as Hs. rewrite E in Hs.
    destruct Hs as (k & _ & _ & -> & _). split.
    + by apply mem_only_frame.
    + unfold observe, read_world_with_etag, MemoryWorldPath_new, read_with_hash. rewrite Hm.
      cbn [mem set_mem ms_map]. by rewrite lookup_insert_eq.
  - pose proof (replace_durable_hoare cfg Hcfg env w req c Hg Hw Hm c (pending_start _ _ _ Hi Hd)) as Hrun.
    destruct (replace_durable cfg env w req c) as [[[[ex n] fn]|e] c']; [|by apply failed_write].
    destruct Hrun as (h & Hn & Hi' & Hf & db & Hdb & _ & Hr).
    split; [apply framed_observe; [done|done|done|by rewrite Hdb]|].
    rewrite Hn. apply (observe_durable w c' db); done.
Qed.

(** What an append starts from, as the caller observes it. *)
Lemma append_metadata_run env w c :
  match append_metadata env w c with
  | (Ok meta, c') => c' = c /\ meta = if is_memory_world w then mem_metadata (mem c) w
                                       else metadata (files c !! w)
  | (Err _, c') => c' = c
  end.
Proof.
  unfold append_metadata, MemoryWorldPath_new. destruct (is_memory_world w); [done|].
  unfold faulty. destruct (fault env IoMetadata); [done|]. unfold open_file. by destruct (broken c !! w).
Qed.

Lemma append_metadata_not_gone w c x :
  Some x = (if is_memory_world w then mem_metadata (mem c) w else metadata (files c !! w)) ->
  ~ world_gone w c.
Proof.
  clear Hcfg. unfold world_gone, mem_metadata, metadata.
  destruct (is_memory_world w); [intros Hx Hn; by rewrite Hn in Hx|intros Hx [Hn _]; by rewrite Hn in Hx].
Qed.

Lemma append_body_run env w req c len ct hs :
  env_ok env -> core_inv cfg c -> disk_bounded c -> valid_world w ->
  Some (len, ct, hs) = (if is_memory_world w then mem_metadata (mem c) w
                        else metadata (files c !! w)) ->
  match (if is_persistent w then append_durable cfg env w len ct hs (len + slen (aq_body req)) req
         else append_memory cfg w req) c with
  | (Ok (n, _), c') => write_frame w c c'
      /\ exists old, len = slen old
           /\ (forall st tag, observe w c = Ok (Some (st, tag)) ->
                     st = {| stage_body := old; stage_content_type := ct; stage_headers := hs |})
           /\ observe w c' = Ok (Some ({| stage_body := old +:+ aq_body req; stage_content_type := ct;
                                          stage_headers := hs |}, nt_etag n))
  | (Err _, c') => write_frame w c c' /\ observe w c' = observe w c
  end.
Proof using All.
  intros _ Hi Hd Hw Hmeta. unfold is_persistent. destruct (is_memory_world w) eqn:Hm; cbn [negb].
  - unfold append_memory, MemoryWorldPath_new. rewrite Hm. unfold mem_metadata in Hmeta.
    destruct (ms_map (mem c) !! w) as [e|] eqn:Ee; [|done]. injection Hmeta as -> -> ->.
    pose proof (append_spec (mem c) w (aq_body req) (max_memory_bytes cfg) (proj1 (ca_mem _ _ _ _ Hi))) as Hs.
    destruct (append_with_quota _ _ _ _) as [[[r|] m]|err] eqn:E; [| |by split; [apply write_frame_refl|]].
    2: { destruct Hs. congruence. }
    pose proof (acct_mem _ _ _ _ _ Hi (mem_append _ _ _ _ _ _ E)) as Hi'.
    destruct Hs as (e' & k & He' & _ & _ & -> & _ & Hsha). rewrite Ee in He'. injection He' as <-.
    split; [by apply mem_only_frame|].
    exists (mem_body e). split; [done|].
    unfold observe, read_world_with_etag, MemoryWorldPath_new, read_with_hash. rewrite Hm, Ee.
    split; [by intros st tag [= <- _]|]. cbn [mem set_mem ms_map]. rewrite lookup_insert_eq. cbn. by rewrite Hsha.
  - unfold metadata in Hmeta. destruct (files c !! w) as [db|] eqn:Edb; [|done]. injection Hmeta as -> -> ->.
    assert (broken c !! w = None) as Hnb.
    { destruct (broken c !! w) eqn:Hb; [|done]. destruct (ca_broken _ _ _ _ Hi w _ Hb). congruence. }
    pose proof (append_durable_hoare cfg Hcfg env w db req c Edb Hnb c (pending_start _ _ _ Hi Hd)) as Hrun.
    destruct (append_durable cfg env w _ _ _ _ req c) as [[[n fn]|e] c'].
    + destruct Hrun as (h & Hn & Hi' & Hf & db' & Hdb' & _ & Hr).
      split; [apply framed_observe; [done|done|done|by rewrite Hdb']|].
      exists (db_body db). split; [done|]. split.
      * intros st tag. rewrite observe_file, (open_file_Some _ _ _ _ _ _ Hi Edb) by done.
        unfold read_with_hmac_via_conn.
        destruct (require_current_tail_intact_tx db w key) as [u|]; [|done]. cbn. by intros [= <- _].
      * rewrite Hn. apply (observe_durable w c' db'); done.
    + destruct (failed_write w c c' Hi Hm Hrun) as [Hf Hs]. split; [done|].
      destruct Hs as [Hs|(_ & Hg & _)]; [done|]. unfold world_gone in Hg. rewrite Hm in Hg. destruct Hg. congruence.
Qed.

(** ** The operations *)

Lemma replace_write_run env w tier permit req c :
  env_ok env -> core_inv cfg c -> disk_bounded c -> valid_world w ->
  authorize_write w tier = Ok permit ->
  let '(r, c') := replace_write cfg env permit req c in
  write_frame w c c'
  /\ match r with
     | Ok o =>
         (slen (rr_body req) <= max_world_bytes cfg)%Z
         /\ preconditions_held w (rr_preconditions req) c
         /\ observe w c'
            = Ok (Some ({| stage_body := rr_body req; stage_content_type := rr_content_type req;
                           stage_headers := if is_memory_world w then rr_headers req
                                            else sort_headers (rr_headers req) |}, wo_etag o))
     | Err _ => write_failed w c c'
     end.
Proof using All.
  intros Henv Hi Hd Hw Hauth. destruct (permit_ok _ _ _ Hauth) as (<- & Hp & _).
  assert (write_frame (wp_world permit) c c /\ write_failed (wp_world permit) c c) as Hsame
    by (split; [by apply write_frame_refl|by left]).
  unfold replace_write, replace_write_blocking, mbind, op_bind, lift, begin_file_op, modify, mret, op_ret.
  rewrite Hp. cbn [map_err]. destruct (Z.leb_spec (slen (rr_body req)) (max_world_bytes cfg)); cbn [ensure]; [|done].
  destruct (closed c); [done|]. rewrite clear_tombstone_id by done.
  pose proof (check_write_preconditions_run env (wp_world permit) (rr_preconditions req) c) as Hpre.
  destruct (check_write_preconditions _ _ _ _ c) as [[u|e] c1]; [|by rewrite Hpre].
  destruct Hpre as [-> Hheld].
  pose proof (replace_body_run env (wp_world permit) req c Henv Hi Hd Hw) as Hrun.
  destruct ((if is_persistent (wp_world permit) then replace_durable cfg env (wp_world permit) req
             else replace_memory cfg (wp_world permit) req) c) as [[[[ex n] fn]|e] c']; [|done].
  destruct Hrun as [Hf Ho]. split; [by apply notify_write_frame|]. split_and!; [done|done|].
  by rewrite observe_notify_write.
Qed.

Lemma append_write_run env w tier permit req c :
  env_ok env -> core_inv cfg c -> disk_bounded c -> valid_world w ->
  authorize_write w tier = Ok permit ->
  let '(r, c') := append_write cfg env permit req c in
  write_frame w c c'
  /\ match r with
     | Ok o =>
         ~ world_gone w c /\ preconditions_held w (aq_preconditions req) c
         /\ exists old ct hs,
              (slen old + slen (aq_body req) <= max_world_bytes cfg)%Z
              /\ (forall st tag, observe w c = Ok (Some (st, tag)) ->
                    st = {| stage_body := old; stage_content_type := ct; stage_headers := hs |})
              /\ observe w c' = Ok (Some ({| stage_body := old +:+ aq_body req; stage_content_type := ct;
                                             stage_headers := hs |}, wo_etag o))
     | Err _ => observe w c' = observe w c
     end.
Proof using All.
  intros Henv Hi Hd Hw Hauth. destruct (permit_ok _ _ _ Hauth) as (<- & Hp & _).
  pose proof (write_frame_refl (wp_world permit) c Hi) as Hsame.
  unfold append_write, append_write_blocking, mbind, op_bind, lift, begin_file_op, modify, mret, op_ret.
  rewrite Hp. cbn [map_err].
  destruct (closed c); [done|]. rewrite clear_tombstone_id by done.
  pose proof (check_write_preconditions_run env (wp_world permit) (aq_preconditions req) c) as Hpre.
  destruct (check_write_preconditions _ _ _ _ c) as [[u|e] c1]; [|by rewrite Hpre].
  destruct Hpre as [-> Hheld].
  pose proof (append_metadata_run env (wp_world permit) c) as Hmeta.
  destruct (append_metadata env (wp_world permit) c) as [[meta|e] c1]; [|by rewrite Hmeta].
  destruct Hmeta as [-> Hmeta]. destruct meta as [[[len ct] hs]|]; cbn [ok_or]; [|done].
  destruct (checked_add len (slen (aq_body req))) as [proj|] eqn:Ep; cbn [ok_or]; [|done].
  apply checked_add_Some in Ep as [-> _].
  destruct (Z.leb_spec (len + slen (aq_body req)) (max_world_bytes cfg)); cbn [ensure]; [|done].
  pose proof (append_body_run env (wp_world permit) req c len ct hs Henv Hi Hd Hw Hmeta) as Hrun.
  destruct ((if is_persistent (wp_world permit)
             then append_durable cfg env (wp_world permit) len ct hs (len + slen (aq_body req)) req
             else append_memory cfg (wp_world permit) req) c) as [[[n fn]|e] c']; [|done].
  destruct Hrun as (Hf & old & -> & Hold & Ho). split; [by apply notify_write_frame|].
  split; [by eapply append_metadata_not_gone|]. split; [done|]. exists old, ct, hs. split_and!; [done|done|]. by rewrite observe_notify_write.
Qed.

(** ** Delete *)

Lemma delete_permit_ok w tier v : authorize_delete w tier = Ok v -> v = w /\ w <> L.
Proof.
  unfold authorize_delete. destruct (negb (can_delete tier)); [done|].
  unfold is_delete_ledger_world. case_bool_decide; [done|]. by intros [= <-].
Qed.

Lemma classify_storage_before scope w err : before_intent (classify_storage_error scope w err) = true.
Proof. unfold classify_storage_error. by destruct (classify_storage_failure err). Qed.

Lemma classify_audit_before scope w err : before_intent (classify_audit_error scope w err) = true.
Proof. destruct err; [done|apply classify_storage_before]. Qed.

Lemma delete_preconditions_run env w p c :
  match delete_check_preconditions cfg env w p c with
  | (Ok _, c') => c' = c /\ preconditions_held w p c
  | (Err e, c') => c' = c /\ before_intent e = true
  end.
Proof.
  unfold delete_check_preconditions. destruct (is_empty p) eqn:Ee; [split; [done|by left]|].
  destruct (read_world_with_etag (fault env IoPreconditionRead) key w c) as [cur|e] eqn:Er;
    [|split; [done|apply classify_audit_before]].
  cbn [map_err mbind result_bind].
  destruct (check_preconditions p (option_map snd cur)) as [[]|m] eqn:Ec; [|done]. cbn. split; [done|].
  right. exists cur. split; [|done]. revert Er. unfold observe, read_world_with_etag.
  destruct (MemoryWorldPath_new w); [done|]. case_bool_decide; [done|].
  destruct (open_file w c) as [[db|]|err]; [|done|]; unfold faulty_audit; by destruct (fault env IoPreconditionRead).
Qed.

(** The usage a delete will subtract is that of the file it found. *)
Lemma storage_usage_before_run env w c :
  match storage_usage_before env w c with
  | (Ok usage, c') => c' = c
      /\ if is_memory_world w then usage = None
         else is_Some usage /\ exists db, files c !! w = Some db
                /\ storage_usage_inner (Some db) = Ok usage
  | (Err e, c') => c' = c /\ before_intent e = true
  end.
Proof.
  unfold storage_usage_before, is_persistent. destruct (is_memory_world w); cbn [negb]; [done|].
  unfold faulty. destruct (fault env IoUsage); [split; [done|apply classify_storage_before]|].
  destruct (open_file w c) as [odb|err] eqn:Eo; cbn [mbind result_bind]; [|split; [done|apply classify_storage_before]].
  apply open_file_Ok in Eo as [_ E].
  destruct odb as [db|]; [|split; [done|apply classify_storage_before]].
  destruct (storage_usage_inner (Some db)) as [[u|]|err] eqn:Eu;
    [|split; [done|apply classify_storage_before]..]. cbn. split; [done|].
  split; [by eexists|]. by exists db.
Qed.

Lemma capture_subject_run env w c :
  core_inv cfg c -> valid_world w ->
  match capture_delete_subject_proof cfg env w c with
  | (Ok subject, c') => c' = c
      /\ match subject with
         | Some s => is_memory_world w = false /\ subject_wf s /\ ta_world (ds_address s) = w
         | None => is_memory_world w = true
         end
  | (Err e, c') => c' = c /\ before_intent e = true
  end.
Proof.
  clear Hcfg.
  intros Hi Hw. unfold capture_delete_subject_proof. destruct (is_memory_world w) eqn:Hm; [done|].
  unfold latest_body_head. rewrite bool_decide_false by (rewrite (ca_tombstones _ _ _ _ Hi); set_solver).
  unfold faulty_audit. destruct (open_file w c) as [[db|]|err] eqn:Eo; [|done|by destruct (fault env IoSubject)].
  apply open_file_Ok in Eo as [_ Edb]. destruct (fault env IoSubject); [done|].
  destruct (verified_latest_body_head_via_conn db w key) as [[head|]|err] eqn:Eh; try done. cbn.
  split; [done|]. split; [done|]. eapply head_subject_wf; [by apply (ca_files _ _ _ _ Hi)|done|done].
Qed.

(** A ledger row about the world [w]. *)
Definition signed_in (k : AuditEventKind) (w : string) (rows : list EventRow) : Prop :=
  exists r, r ∈ rows /\ ev_event_type r = as_str k /\ ev_target r = w.

Lemma signs_signed_in k w sha ct hs rows : signs w sha ct hs k rows -> signed_in k w rows.
Proof. intros (r & Hin & Ht & Hta & _). by exists r. Qed.

Lemma read_world_not_gone f w c stage : read_world f key w c = Ok (Some stage) -> ~ world_gone w c.
Proof.
  clear Hcfg. unfold read_world, read_world_with_etag, world_gone, MemoryWorldPath_new, read_with_hash.
  destruct (is_memory_world w); [intros Hr Hn; by rewrite Hn in Hr|]. unfold open_file.
  intros Hr [Hn Hb]. rewrite Hn, Hb in Hr. by destruct (bool_decide _).
Qed.

(** A world is gone when it reads as missing. *)
Lemma observe_gone w c : core_inv cfg c -> observe w c = Ok None <-> world_gone w c.
Proof.
  clear Hcfg. intros Hi. destruct (is_memory_world w) eqn:Hm.
  - unfold observe, read_world_with_etag, world_gone, MemoryWorldPath_new, read_with_hash. rewrite Hm.
    by destruct (ms_map (mem c) !! w).
  - rewrite observe_file by done. unfold world_gone, open_file. rewrite Hm.
    destruct (broken c !! w); [split; [done|by intros [??]]|].
    destruct (files c !! w) as [db|]; [|done]. split; [|by intros [??]].
    by destruct (read_with_hmac_via_conn db w key) as [[]|].
Qed.

(** Up to the intent a delete changes nothing; what it hands on is checked. *)
Lemma delete_prepare_run env w req c :
  core_inv cfg c -> valid_world w ->
  match delete_prepare cfg env w req c with
  | (Ok (sha, headers, usage), c') => c' = c
      /\ ~ world_gone w c /\ preconditions_held w (dq_preconditions req) c
      /\ (forall k, is_delete_kind k = true -> job_ok (delete_job k w sha (dq_content_type req) headers))
      /\ if is_memory_world w then usage = None
         else is_Some usage /\ exists db, files c !! w = Some db /\ storage_usage_inner (Some db) = Ok usage
  | (Err e, c') => c' = c /\ before_intent e = true
  end.
Proof.
  clear Hcfg. intros Hi Hw. unfold delete_prepare. unfold mbind, op_bind, lift, begin_file_op.
  destruct (closed c); [done|].
  pose proof (delete_preconditions_run env w (dq_preconditions req) c) as Hpre.
  destruct (delete_check_preconditions _ _ _ _ c) as [[u|e] c1]; [|done].
  destruct Hpre as [-> Hheld].
  destruct (validate_representation_metadata _ _) as [[]|m]; cbn [map_err]; [|done].
  destruct (AuditHeaders_from_user (dq_headers req)) as [user|er] eqn:Eu; cbn [map_err]; [|done].
  pose proof (read_world_not_gone (fault env IoRead) w c) as Hthere.
  destruct (read_world (fault env IoRead) key w c) as [stage|er]; cbn [map_err];
    [|split; [done|apply classify_audit_before]].
  destruct stage as [stage|]; cbn [ok_or]; [|done]. specialize (Hthere stage eq_refl).
  pose proof (storage_usage_before_run env w c) as Hus.
  destruct (storage_usage_before env w c) as [[usage|e] c1]; [|done].
  destruct Hus as [-> Hus].
  pose proof (capture_subject_run env w c Hi Hw) as Hsub.
  destruct (capture_delete_subject_proof cfg env w c) as [[subject|e] c1]; [|done].
  destruct Hsub as [-> Hsub]. split_and!; [done|done|done| |done].
  intros k Hk. apply (delete_job_ok k w _ _ (dq_headers req)); [done|done|done|].
  destruct subject as [s|]; [tauto|]. split; [done|apply BodySha256_sha].
Qed.

Lemma delete_run env w tier req c :
  env_ok env -> core_inv cfg c -> valid_world w -> authorize_delete w tier = Ok w ->
  let '(r, c') := delete cfg env w req c in
  core_inv cfg c' /\ frame_delete w c c'
  /\ exists rows, ledger_rows c' = ledger_rows c ++ rows
     /\ match r with
        | Ok _ => ~ world_gone w c /\ preconditions_held w (dq_preconditions req) c /\ world_gone w c'
                  /\ signed_in DeleteIntent w rows /\ signed_in DeleteCommit w rows
        | Err e => if world_removed env w e then world_gone w c' /\ signed_in DeleteIntent w rows
                   else untouched w c c'
        end.
Proof.
  clear Hcfg. intros (_ & Henv) Hi Hw Hauth. destruct (delete_permit_ok _ _ _ Hauth) as [_ HwL].
  unfold delete, delete_blocking. unfold mbind, op_bind.
  pose proof (delete_prepare_run env w req c Hi Hw) as Hprep.
  destruct (delete_prepare cfg env w req c) as [[[[sha headers] usage]|e] c1].
  2: { destruct Hprep as [-> Hb]. rewrite before_intent_removed by done. split_and!; [done|done|]. exists []. split; [by rewrite app_nil_r|done]. }
  destruct Hprep as (-> & Hthere & Hheld & Hjob & Hus).
  pose proof (perform_delete_run cfg env w sha (dq_content_type req) headers usage HwL Henv Hjob) as Hrun.
  match type of Hrun with ?U -> _ => assert U as Husage end.
  { destruct (is_memory_world w); [done|tauto]. }
  specialize (Hrun Husage c).
  match type of Hrun with ?F -> _ => assert F as Hfile end.
  { intros Hm. rewrite Hm in Hus. tauto. }
  specialize (Hrun Hfile Hi).
  destruct (perform_delete _ _ _ _ _ _ _ c) as [[x|e] c'].
  - destruct Hrun as (Hg & rows & (Hi' & Hf & Hr) & Hs1 & Hs2). split_and!; [done|done|].
    exists rows. split_and!; [done|done|done|done|by eapply signs_signed_in|by eapply signs_signed_in].
  - destruct Hrun as (rows & (Hi' & Hf & Hr) & Hor). split_and!; [done|done|]. exists rows.
    split; [done|]. destruct (world_removed env w e); [|done].
    split; [apply Hor|eapply signs_signed_in, Hor].
Qed.

(** ** Runs *)

(** A freshly opened engine on an empty data directory. *)
Definition core_new : Core :=
  {| files := ∅; broken := ∅; lost := []; write_conns := ∅; mem := MemoryStore_new;
     counters := {| storage_body_bytes := 0; storage_current_body_bytes := 0;
                    storage_retained_cas_body_bytes := 0; storage_audit_chain_events := 0;
                    durable_world_count := 0 |};
     verified_audit_worlds := ∅; tombstones := ∅; ledger_conn := false; ledger_inits := 0;
     delete_ledger_created := false; next_event := 0; event_log := []; events_sent := [];
     closed := false |}.

(** One operation of an authorized caller, with any outcome. *)
Inductive core_step (c : Core) : Core -> Prop :=
| step_replace_write env w tier permit req
    (Henv : env_ok env) (Hdisk : disk_bounded c) (Hw : valid_world w)
    (Hauth : authorize_write w tier = Ok permit) :
    core_step c (snd (replace_write cfg env permit req c))
| step_append_write env w tier permit req
    (Henv : env_ok env) (Hdisk : disk_bounded c) (Hw : valid_world w)
    (Hauth : authorize_write w tier = Ok permit) :
    core_step c (snd (append_write cfg env permit req c))
| step_delete env w tier req
    (Henv : env_ok env) (Hw : valid_world w) (Hauth : authorize_delete w tier = Ok w) :
    core_step c (snd (delete cfg env w req c)).

Definition limits_ok : Prop :=
  (0 <= max_memory_bytes cfg)%Z /\ (0 <= default usize_max (max_storage_bytes cfg))%Z.

Lemma core_new_inv : limits_ok -> core_inv cfg core_new.
Proof.
  intros [Hm Hs]. split; try done; try (cbn; unfold usize_max in *; lia).
Qed.

(** What one operation does to the set of worlds: the ledger gains [rows], and a
    world that is gone was gone already or is named by a signed intent among
    them. *)
Definition traced (c c' : Core) (rows : list EventRow) : Prop :=
  ledger_rows c' = ledger_rows c ++ rows
  /\ forall w, w <> L -> world_gone w c' -> world_gone w c \/ signed_in DeleteIntent w rows.

Lemma write_frame_traced w c c' : w <> L -> write_frame w c c' -> traced c c' [].
Proof.
  intros HwL []. split; [|by left; auto].
  unfold ledger_rows. by rewrite wf_files0, app_nil_r.
Qed.

Lemma delete_traced w c c' rows :
  frame_delete w c c' -> ledger_rows c' = ledger_rows c ++ rows ->
  (untouched w c c' \/ signed_in DeleteIntent w rows) -> traced c c' rows.
Proof.
  intros [Hf Hb Hm] Hr Hor. split; [done|]. intros v HvL Hv.
  destruct (decide (v = w)) as [->|Hne].
  - destruct Hor as [[[Hfw Hbw] Hmw]|?]; [left|by right]. unfold world_gone in *. by rewrite <- Hmw, <- Hfw, <- Hbw.
  - left. unfold world_gone in *. by rewrite <- (Hm v Hne), <- (Hf v Hne HvL), <- (Hb v Hne HvL).
Qed.

Lemma step_traced c c' : core_inv cfg c -> core_step c c' -> core_inv cfg c' /\ exists rows, traced c c' rows.
Proof using All.
  intros Hi [env w tier permit req Henv Hd Hw Hauth|env w tier permit req Henv Hd Hw Hauth|env w tier req Henv Hw Hauth].
  - pose proof (replace_write_run env w tier permit req c Henv Hi Hd Hw Hauth) as Hrun.
    destruct (replace_write cfg env permit req c) as [r c1]. destruct Hrun as [Hf _].
    destruct (permit_ok _ _ _ Hauth) as (_ & _ & HwL). split; [apply Hf|]. exists []. by eapply write_frame_traced.
  - pose proof (append_write_run env w tier permit req c Henv Hi Hd Hw Hauth) as Hrun.
    destruct (append_write cfg env permit req c) as [r c1]. destruct Hrun as [Hf _].
    destruct (permit_ok _ _ _ Hauth) as (_ & _ & HwL). split; [apply Hf|]. exists []. by eapply write_frame_traced.
  - pose proof (delete_run env w tier req c Henv Hi Hw Hauth) as Hrun.
    destruct (delete cfg env w req c) as [r c1]. destruct Hrun as (Hi' & Hf & rows & Hr & Hres).
    split; [done|]. exists rows. apply (delete_traced w); [done|done|].
    destruct r as [u|err]; [tauto|]. destruct (world_removed env w err); tauto.
Qed.

Lemma traced_trans c0 c1 c2 rows1 rows2 :
  traced c0 c1 rows1 -> traced c1 c2 rows2 -> traced c0 c2 (rows1 ++ rows2).
Proof.
  intros [Hr1 Hg1] [Hr2 Hg2]. split; [by rewrite Hr2, Hr1, app_assoc|].
  intros w HwL Hw. destruct (Hg2 w HwL Hw) as [Hw1|(r & Hin & ?)].
  - destruct (Hg1 w HwL Hw1) as [?|(r & Hin & ?)]; [by left|].
    right. exists r. split; [|done]. apply elem_of_app. by left.
  - right. exists r. split; [|done]. apply elem_of_app. by right.
Qed.

Lemma run_traced c0 c :
  core_inv cfg c0 -> rtc core_step c0 c -> core_inv cfg c /\ exists rows, traced c0 c rows.
Proof using All.
  intros Hi Hrun. induction Hrun as [c|c c1 c2 Hs _ IH].
  - split; [done|]. exists []. split; [by rewrite app_nil_r|by left].
  - destruct (step_traced _ _ Hi Hs) as (Hi1 & rows1 & Ht1). destruct (IH Hi1) as (Hi2 & rows2 & Ht2).
    split; [done|]. exists (rows1 ++ rows2). by eapply traced_trans.
Qed.

(** ** The claims *)

(** C1: In every run of replaces, appends and deletes by authorized callers, with
    any interleaving of storage faults, clock readings and outcomes: every world
    file is accepted by the full verifier, or is what a failed first write left
    of it: the empty schema, or part of one, which every open reports as an
    error of the schema check.  The accounting counters are exactly the sums over the files and
    over those a failed removal took away, never above the storage quota, so
    they are the sums over the files when nothing was lost; the memory worlds
    stay within their budget; the ledger only grows; and a world that existed
    and is gone is named by a signed delete intent in the ledger. *)
Theorem engine_run_exact c0 c :
  core_inv cfg c0 -> rtc core_step c0 c ->
  (forall w db, files c !! w = Some db ->
     require_world_intact_tx db w key = Ok tt \/ exists g, db = create g)
  /\ (forall w err, broken c !! w = Some err ->
        files c !! w = None /\ open_file w c = Err err /\ torn err)
  /\ storage_body_bytes (counters c) = files_sum file_bytes c
  /\ storage_current_body_bytes (counters c) = files_sum (fun db => slen (db_body db)) c
  /\ storage_retained_cas_body_bytes (counters c) = files_sum (fun db => sum_len (db_cas db)) c
  /\ storage_audit_chain_events (counters c) = files_sum event_count c
  /\ (lost c = [] -> forall f, files_sum f c = present_sum f c)
  /\ (files_sum file_bytes c <= default usize_max (max_storage_bytes cfg))%Z
  /\ (ms_accounted (mem c) <= max_memory_bytes cfg)%Z
  /\ exists rows, ledger_rows c = ledger_rows c0 ++ rows
       /\ forall w, w <> L -> world_gone w c -> world_gone w c0 \/ signed_in DeleteIntent w rows.
Proof using All.
  intros Hi0 Hrun. destruct (run_traced _ _ Hi0 Hrun) as [Hi Htr]. destruct Hi.
  split_and!; try done; try lia.
  - intros w db Hdb. destruct (ca_files w db Hdb) as ([Hwf [Hv|(g & _ & ->)]] & _); [left|right; by exists g].
    by apply require_world_intact_spec.
  - intros w err Hb. destruct (ca_broken w err Hb) as (Hn & _ & _ & Htorn). unfold open_file. by rewrite Hb.
  - intros Hl f. unfold files_sum, lost_sum. rewrite Hl. cbn. lia.
Qed.


(** C2: A replace by an authorized caller is all or nothing for readers, on every
    path and whatever fails under it, but for the first write of a world.  When
    it succeeds, its preconditions held on the world as it was, and the world
    then reads as the new body, content type and headers under the returned
    tag.  When it fails, the world reads as before; or it was durable and did not
    exist, and the failed creation left its file: with the whole schema and no
    events, or incomplete, so that every read from then on fails.  Every other
    world reads as before, all files stay intact and every counter stays
    exact. *)
Theorem replace_write_correct env w tier permit req c :
  env_ok env -> core_inv cfg c -> disk_bounded c -> valid_world w ->
  authorize_write w tier = Ok permit ->
  let '(r, c') := replace_write cfg env permit req c in
  write_frame w c c'
  /\ match r with
     | Ok o =>
         (slen (rr_body req) <= max_world_bytes cfg)%Z
         /\ preconditions_held w (rr_preconditions req) c
         /\ observe w c'
            = Ok (Some ({| stage_body := rr_body req; stage_content_type := rr_content_type req;
                           stage_headers := if is_memory_world w then rr_headers req
                                            else sort_headers (rr_headers req) |}, wo_etag o))
     | Err _ => write_failed w c c'
     end.
Proof using All.
  apply replace_write_run.
Qed.

(** C3: An append is all or nothing, on every path and whatever fails under it:
    on success the world existed, its preconditions held and it reads as the old body
    followed by the new bytes, with the old content type and headers, under
    the returned tag, and fits the size cap; on failure nothing observable
    changed.  Every other world reads as before, all files stay intact and
    every counter stays exact. *)
Theorem append_write_correct env w tier permit req c :
  env_ok env -> core_inv cfg c -> disk_bounded c -> valid_world w ->
  authorize_write w tier = Ok permit ->
  let '(r, c') := append_write cfg env permit req c in
  write_frame w c c'
  /\ match r with
     | Ok o =>
         ~ world_gone w c /\ preconditions_held w (aq_preconditions req) c
         /\ exists old ct hs,
              (slen old + slen (aq_body req) <= max_world_bytes cfg)%Z
              /\ (forall st tag, observe w c = Ok (Some (st, tag)) ->
                    st = {| stage_body := old; stage_content_type := ct; stage_headers := hs |})
              /\ observe w c' = Ok (Some ({| stage_body := old +:+ aq_body req; stage_content_type := ct;
                                             stage_headers := hs |}, wo_etag o))
     | Err _ => observe w c' = observe w c
     end.
Proof using All.
  apply append_write_run.
Qed.

(** C4: A delete never removes a world without a trace.  However it ends, the
    ledger only grows, every other world is left alone, all files stay intact
    and every counter stays exact.  When it succeeds, the world existed,
    its preconditions held, it is gone and the ledger holds its signed intent and commit.  When
    it fails, the error says which: the world is gone and its signed intent is
    in the ledger for the errors raised after the removal, and for a failed
    removal of a durable world that took the database but not the directory;
    the world is untouched for every other error. *)
Theorem delete_signed env w tier req c :
  env_ok env -> core_inv cfg c -> valid_world w -> authorize_delete w tier = Ok w ->
  let '(r, c') := delete cfg env w req c in
  core_inv cfg c' /\ frame_delete w c c'
  /\ exists rows, ledger_rows c' = ledger_rows c ++ rows
     /\ match r with
        | Ok _ => ~ world_gone w c /\ preconditions_held w (dq_preconditions req) c /\ world_gone w c'
                  /\ signed_in DeleteIntent w rows /\ signed_in DeleteCommit w rows
        | Err e => if world_removed env w e then world_gone w c' /\ signed_in DeleteIntent w rows
                   else untouched w c c'
        end.
Proof.
  apply delete_run.
Qed.

(** A first write of a durable world that fails leaves no trace for readers,
    or leaves the file made at the open behind: the world, not found before,
    then reads as a broken audit chain or as corrupt. *)
Theorem failed_create_reads_broken env w tier permit req c :
  env_ok env -> core_inv cfg c -> disk_bounded c -> valid_world w ->
  authorize_write w tier = Ok permit ->
  is_memory_world w = false -> world_gone w c ->
  let '(r, c') := replace_write cfg env permit req c in
  observe w c = Ok None
  /\ (is_ok r = false ->
        observe w c' = Ok None
        \/ observe w c' = Err (ChainBroken no_events)
        \/ exists msg, observe w c' = Err (Storage (corrupt_error msg))).
Proof using All.
  intros Henv Hi Hd Hw Hauth Hm Hnone.
  pose proof (replace_write_run env w tier permit req c Henv Hi Hd Hw Hauth) as Hrun.
  destruct (replace_write cfg env permit req c) as [[o|e] c']; destruct Hrun as [Hf Hs];
    (split; [by apply observe_absent|]); [done|]. intros _.
  destruct Hs as [Hs|(_ & _ & [(g & Hgen & Hg)|(msg & Hb & _)])].
  - left. rewrite Hs. by apply observe_absent.
  - right. left. apply (observe_fresh w c' g); [apply Hf|done|done|done].
  - right. right. exists msg. apply observe_broken; [apply Hf|done].
Qed.

End Engine.
