(* ===== verification/EngineDemo.v ===== *)
(** * A concrete engine, and the engine theorems applied to it

    An engine is opened on an empty directory; the world [home/a] is written,
    appended to and deleted.  The runs at the end show what a failed first write
    leaves behind. *)

From S2P Require Import Prelude.
From S2P Require Import WorldSchema.
From S2P Require Import Path.
From S2P Require Import Auth.
From S2P Require Import Crypto.
From S2P Require Import Etag.
From S2P Require Import Types.
From S2P Require Import Db.
From S2P Require Import AuditVerify.
From S2P Require Import AuditGates.
From S2P Require Import Cas.
From S2P Require Import WorldWrite.
From S2P Require Import Store.
From S2P Require Import Quota.
From S2P Require Import ChainSpec.
From S2P Require Import Demo.
From S2P Require Import StorageClass.
From S2P Require Import Core.
From S2P Require Import WorldOps.
From S2P Require Import DeleteOps.
From S2P Require Import CoreInv.
From S2P Require Import DeleteOpsProofs.
From S2P Require Import CoreTheorems.

#[global] Instance plain_errors : Rusqlite := {|
  error_to_string := fun err => match err with SqliteFailure _ (Some msg) => msg | _ => "error" end |}.

#[global] Instance plain_errors_laws : RusqliteLaws.
Proof. by split. Qed.

Definition demo_cfg : Config :=
  {| max_world_bytes := 1000; max_memory_bytes := 1000; max_storage_bytes := Some 10000%Z;
     retained_body_count := 2; hmac_key := demo_key; listen_replay_max := 10 |}.

Definition demo_ledger_env : LedgerEnv :=
  {| le_generation := "00000000000000000000000000000002"; le_now_format := demo_now;
     le_now := demo_now; le_open_fault := None; le_creation := no_faults; le_count_fault := None; le_fault := None |}.

(** The environment in which SQLite fails at the points [f] names. *)
Definition demo_env (f : io_point -> option sqlite_error) : Env :=
  {| now_format := demo_now; now := demo_now; minted_generation := demo_gen; conn_order := [];
     fault := f; creation := no_faults; removed := DirRemoved; ledger_intent := demo_ledger_env;
     ledger_commit := demo_ledger_env; ledger_commit_failed := demo_ledger_env |}.

Definition no_fault : io_point -> option sqlite_error := fun _ => None.

(** Every write transaction fails. *)
Definition busy : io_point -> option sqlite_error :=
  fun p => match p with IoTransaction => Some (SqliteFailure DatabaseBusy None) | _ => None end.

Lemma demo_env_ok f : env_ok (demo_env f).
Proof. repeat split; by vm_compute. Qed.

Lemma demo_cfg_ok : config_ok demo_cfg.
Proof. by split. Qed.

Definition demo_permit : WritePermit := {| wp_world := "home/a"; wp_gate := GateWrite |}.

Definition demo_request : ReplaceRequest :=
  {| rr_body := "hello"; rr_content_type := "text/plain"; rr_headers := demo_headers;
     rr_preconditions := no_preconditions |}.

Definition demo_chunk : AppendRequest := {| aq_body := " world"; aq_preconditions := no_preconditions |}.

Definition demo_delete : DeleteRequest :=
  {| dq_preconditions := no_preconditions; dq_content_type := "text/plain"; dq_headers := [] |}.

Definition after_replace : Core :=
  snd (replace_write demo_cfg (demo_env no_fault) demo_permit demo_request core_new).

Definition after_append : Core :=
  snd (append_write demo_cfg (demo_env no_fault) demo_permit demo_chunk after_replace).

Definition after_delete : Core :=
  snd (delete demo_cfg (demo_env no_fault) "home/a" demo_delete after_append).

Lemma core_new_ok : core_inv demo_cfg core_new.
Proof. apply core_new_inv. by split. Qed.

Lemma demo_run : rtc (core_step demo_cfg) core_new after_append.
Proof.
  eapply rtc_l; [|eapply rtc_l; [|apply rtc_refl]].
  - apply (step_replace_write demo_cfg core_new (demo_env no_fault) "home/a" Write);
      [apply demo_env_ok|evaluate|evaluate|evaluate].
  - apply (step_append_write demo_cfg after_replace (demo_env no_fault) "home/a" Write);
      [apply demo_env_ok|evaluate|evaluate|evaluate].
Qed.

Lemma after_replace_ok : core_inv demo_cfg after_replace.
Proof.
  apply (run_traced demo_cfg demo_cfg_ok core_new); [apply core_new_ok|].
  eapply rtc_once, (step_replace_write demo_cfg core_new (demo_env no_fault) "home/a" Write);
    [apply demo_env_ok|evaluate|evaluate|evaluate].
Qed.

Lemma after_append_ok : core_inv demo_cfg after_append.
Proof. apply (run_traced demo_cfg demo_cfg_ok core_new); [apply core_new_ok|apply demo_run]. Qed.

(** ** The theorems at this engine *)

Lemma replace_write_correct_witness :
  exists tag, observe demo_cfg "home/a" after_replace
    = Ok (Some ({| stage_body := "hello"; stage_content_type := "text/plain";
                   stage_headers := [("x-a", "1"); ("x-b", "2")] |}, tag)).
Proof.
  pose proof (replace_write_correct demo_cfg demo_cfg_ok (demo_env no_fault) "home/a" Write
                demo_permit demo_request core_new (demo_env_ok no_fault) core_new_ok) as Hrun.
  specialize (Hrun ltac:(evaluate) ltac:(evaluate) ltac:(evaluate)).
  assert (is_ok (fst (replace_write demo_cfg (demo_env no_fault) demo_permit demo_request core_new))
          = true) as Hok by evaluate.
  unfold after_replace.
  destruct (replace_write demo_cfg (demo_env no_fault) demo_permit demo_request core_new) as [[o|e] c'];
    [|discriminate Hok].
  destruct Hrun as (_ & _ & _ & Ho). exists (wo_etag o). exact Ho.
Defined.

Lemma append_write_correct_witness :
  exists st tag, observe demo_cfg "home/a" after_append = Ok (Some (st, tag))
    /\ stage_body st = "hello world".
Proof.
  pose proof (append_write_correct demo_cfg demo_cfg_ok (demo_env no_fault) "home/a" Write
                demo_permit demo_chunk after_replace (demo_env_ok no_fault) after_replace_ok) as Hrun.
  specialize (Hrun ltac:(evaluate) ltac:(evaluate) ltac:(evaluate)).
  assert (is_ok (fst (append_write demo_cfg (demo_env no_fault) demo_permit demo_chunk after_replace))
          = true) as Hok by evaluate.
  assert (exists st tag, observe demo_cfg "home/a" after_replace = Ok (Some (st, tag))
            /\ stage_body st = "hello") as (st & tag & Hst & Hbody) by (do 2 eexists; split; vm_compute; reflexivity).
  unfold after_append.
  destruct (append_write demo_cfg (demo_env no_fault) demo_permit demo_chunk after_replace) as [[o|e] c'];
    [|discriminate Hok].
  destruct Hrun as (_ & _ & _ & old & ct & hs & _ & Hold & Ho).
  eexists _, _. split; [exact Ho|]. rewrite (Hold _ _ Hst) in Hbody. cbn in Hbody |- *. rewrite Hbody. reflexivity.
Defined.

Lemma delete_signed_witness :
  world_gone "home/a" after_delete /\ signed_in DeleteCommit "home/a" (ledger_rows after_delete).
Proof.
  pose proof (delete_signed demo_cfg (demo_env no_fault) "home/a" Approve demo_delete
                after_append (demo_env_ok no_fault) after_append_ok) as Hrun.
  specialize (Hrun ltac:(evaluate) ltac:(evaluate)).
  assert (is_ok (fst (delete demo_cfg (demo_env no_fault) "home/a" demo_delete after_append)) = true)
    as Hok by evaluate.
  assert (ledger_rows after_append = []) as Hnone by evaluate.
  unfold after_delete.
  destruct (delete demo_cfg (demo_env no_fault) "home/a" demo_delete after_append) as [[o|e] c'];
    [|discriminate Hok].
  destruct Hrun as (_ & _ & rows & Hrows & _ & _ & Hgone & _ & Hs).
  rewrite Hnone in Hrows. cbn [app] in Hrows. cbn [snd]. rewrite Hrows. split; [exact Hgone|exact Hs].
Defined.

(** The disk is full when the fourth statement creates [home/b], and the
    directory of [home/a] is removed but for an entry that is not its database. *)
Definition full_disk : open_faults :=
  {| of_connect := None; of_query := None;
     of_statement := fun i => if (i =? 3)%nat then Some (SqliteFailure DiskFull None) else None |}.

Definition bad_day : Env :=
  {| now_format := demo_now; now := demo_now; minted_generation := demo_gen; conn_order := [];
     fault := no_fault; creation := full_disk; removed := FileRemoved; ledger_intent := demo_ledger_env;
     ledger_commit := demo_ledger_env; ledger_commit_failed := demo_ledger_env |}.

Definition b_permit : WritePermit := {| wp_world := "home/b"; wp_gate := GateWrite |}.

Definition after_torn : Core := snd (replace_write demo_cfg bad_day b_permit demo_request after_append).
Definition after_loss : Core := snd (delete demo_cfg bad_day "home/a" demo_delete after_torn).

Lemma torn_run : rtc (core_step demo_cfg) after_append after_torn.
Proof.
  apply rtc_once.
  apply (step_replace_write demo_cfg after_append bad_day "home/b" Write);
    [apply (demo_env_ok no_fault)|evaluate|evaluate|evaluate].
Qed.

Lemma trouble_run : rtc (core_step demo_cfg) after_append after_loss.
Proof.
  eapply rtc_r; [exact torn_run|].
  apply (step_delete demo_cfg after_torn bad_day "home/a" Approve);
    [apply (demo_env_ok no_fault)|evaluate|evaluate].
Qed.

(** [home/b] is corrupt from then on; [home/a] is gone, its 27 bytes are counted
    on, and its intent is signed. *)
Lemma engine_run_exact_witness :
  open_file "home/b" after_loss = Err (corrupt_error "missing required table: meta_headers")
  /\ observe demo_cfg "home/a" after_loss = Ok None
  /\ storage_body_bytes (counters after_loss) = files_sum file_bytes after_loss
  /\ files_sum file_bytes after_loss = 27%Z /\ present_sum file_bytes after_loss = 0%Z
  /\ signed_in DeleteIntent "home/a" (ledger_rows after_loss).
Proof.
  destruct (engine_run_exact demo_cfg demo_cfg_ok after_append after_loss after_append_ok trouble_run)
    as (_ & Hb & Hsum & _ & _ & _ & _ & _ & _ & rows & Hrows & Hgone).
  assert (broken after_loss !! "home/b" = Some (corrupt_error "missing required table: meta_headers")) as Hbr by evaluate.
  split; [exact (proj1 (proj2 (Hb _ _ Hbr)))|]. split; [evaluate|]. split; [exact Hsum|].
  split; [evaluate|]. split; [evaluate|].
  assert (ledger_rows after_append = []) as Hnone by evaluate. rewrite Hnone in Hrows. cbn [app] in Hrows. rewrite Hrows.
  assert (world_gone "home/a" after_loss) as Hg by (split; evaluate).
  assert (observe demo_cfg "home/a" after_append <> Ok None) as Hthere by (vm_compute; discriminate).
  destruct (Hgone "home/a" ltac:(vm_compute; discriminate) Hg) as [Hno|Hs]; [|exact Hs].
  exfalso. apply Hthere. apply (observe_gone demo_cfg "home/a" after_append after_append_ok). exact Hno.
Defined.

(** ** What a failed first write leaves *)

Definition failed_create : result WriteError WriteOutcome * Core :=
  replace_write demo_cfg (demo_env busy) demo_permit demo_request core_new.

Lemma failed_create_reads_broken_witness :
  observe demo_cfg "home/a" core_new = Ok None
  /\ observe demo_cfg "home/a" (snd failed_create) = Err (ChainBroken no_events).
Proof.
  pose proof (failed_create_reads_broken demo_cfg demo_cfg_ok (demo_env busy) "home/a" Write
                demo_permit demo_request core_new (demo_env_ok busy) core_new_ok) as Hrun.
  specialize (Hrun ltac:(evaluate) ltac:(evaluate) ltac:(evaluate) ltac:(evaluate) ltac:(evaluate)).
  assert (is_ok (fst failed_create) = false) as Hfail by evaluate.
  assert (is_ok (observe demo_cfg "home/a" (snd failed_create)) = false) as Hread by evaluate.
  assert (match observe demo_cfg "home/a" (snd failed_create) with Err (Storage _) => False | _ => True end) as Hkind
    by evaluate.
  unfold failed_create in *.
  destruct (replace_write demo_cfg (demo_env busy) demo_permit demo_request core_new) as [r c'].
  destruct Hrun as [Hbefore Hafter]. split; [exact Hbefore|].
  destruct (Hafter Hfail) as [Hok|[Hbroken|[msg Hmsg]]]; [|exact Hbroken|].
  - cbn [snd] in Hread. rewrite Hok in Hread. discriminate Hread.
  - cbn [snd] in Hkind. rewrite Hmsg in Hkind. destruct Hkind.
Defined.

(** An append then creates the world without counting it; the cached writer
    still says the world is new, so a second format row and the status
    [Created] follow at the next replace. *)
Lemma append_after_failed_create_formats_twice :
  let c1 := snd (append_write demo_cfg (demo_env no_fault) demo_permit demo_chunk (snd failed_create)) in
  let '(r, c2) := replace_write demo_cfg (demo_env no_fault) demo_permit demo_request c1 in
  durable_world_count (counters c1) = 0%Z
  /\ map ev_event_type (from_option db_events [] (files c1 !! "home/a")) = ["format"; "append"]
  /\ match r with Ok o => wo_status_kind o = StatusCreated | Err _ => False end
  /\ map ev_event_type (from_option db_events [] (files c2 !! "home/a"))
     = ["format"; "append"; "format"; "put"].
Proof. evaluate. Qed.
