(* ===== verification/Conc.v ===== *)
(** * Threads that share a state

    A thread is a tree of atomic actions; a loop with a retry budget is a
    recursive function on the budget, so every thread is a finite tree.  A pool
    runs its threads in any order, one atomic action at a time; an action that
    waits for a lock has no step while the lock is taken. *)

From S2P Require Import Prelude.

Inductive prog (action : Type -> Type) (A : Type) : Type :=
| Return (a : A)
| Act (B : Type) (act : action B) (k : B -> prog action A).
Arguments Return {action A} a.
Arguments Act {action A} B act k.

Section Prog.
Context {action : Type -> Type}.

Fixpoint prog_bind_def {A B} (f : A -> prog action B) (p : prog action A) : prog action B :=
  match p with
  | Return a => f a
  | Act B act k => Act B act (fun b => prog_bind_def f (k b))
  end.

#[global] Instance prog_ret : MRet (prog action) := fun A a => Return a.
#[global] Instance prog_bind : MBind (prog action) := fun A B f p => prog_bind_def f p.

Definition perform {B} (act : action B) : prog action B := Act B act Return.

(** A thread as it stands after one of its actions. *)
Definition after {A} (q p : prog action A) : Prop :=
  match p with Return _ => False | Act B act k => exists b, q = k b end.

Lemma after_wf {A} (p : prog action A) : Acc after p.
Proof.
  induction p as [a|B act k IH]; constructor; intros q Hq; [done|]. destruct Hq as [b ->]. apply IH.
Qed.
End Prog.

(** ** Pools *)

Section Pool.
Context {action : Type -> Type} {state oracle A : Type}.
Context (exec : forall B, oracle -> nat -> action B -> state -> option (B * state)).

Notation thread := (prog action A).

(** Thread [i] runs its next action; the oracle gives what comes from outside
    the program. *)
Definition thread_step (o : oracle) (i : nat) (c : list thread * state) : option (list thread * state) :=
  match fst c !! i with
  | Some (Act B act k) =>
      match exec B o i act (snd c) with
      | Some (b, s) => Some (<[i := k b]> (fst c), s)
      | None => None
      end
  | _ => None
  end.

Definition pool_step (c c' : list thread * state) : Prop := exists o i, thread_step o i c = Some c'.

(** A schedule, run as far as its steps are possible. *)
Fixpoint run_schedule (sched : list (oracle * nat)) (c : list thread * state)
  : option (list thread * state) :=
  match sched with
  | [] => Some c
  | (o, i) :: sched => thread_step o i c ≫= run_schedule sched
  end.

Lemma run_schedule_rtc sched c c' : run_schedule sched c = Some c' -> rtc pool_step c c'.
Proof.
  revert c. induction sched as [|[o i] sched IH]; intros c Hr; [injection Hr as <-; apply rtc_refl|].
  cbn in Hr. apply bind_Some in Hr as (c1 & H1 & Hr). eapply rtc_l; [by exists o, i|by apply IH].
Qed.

Definition finished (p : thread) : Prop := match p with Return _ => True | Act _ _ _ => False end.

#[global] Instance finished_dec p : Decision (finished p).
Proof. destruct p; cbn; apply _. Defined.

Lemma thread_step_inv o i c c' :
  thread_step o i c = Some c' ->
  exists B act k b, fst c !! i = Some (Act B act k) /\ exec B o i act (snd c) = Some (b, snd c')
    /\ fst c' = <[i := k b]> (fst c).
Proof.
  unfold thread_step. destruct (fst c !! i) as [[a|B act k]|] eqn:Ei; try done.
  destruct (exec B o i act (snd c)) as [[b s]|] eqn:Ee; [|done]. intros [= <-]. by exists B, act, k, b.
Qed.

(** *** Every schedule ends *)

Definition pool_after (ps' ps : list thread) : Prop :=
  exists i p p', ps !! i = Some p /\ after p' p /\ ps' = <[i := p']> ps.

Lemma pool_after_wf ps : Acc pool_after ps.
Proof.
  induction ps as [|p ps IH]; [constructor; by intros ps' (i & p & p' & Hi & _)|].
  revert ps IH. induction (after_wf p) as [p _ IHp]. intros ps IH.
  induction IH as [ps Hps IHps]. constructor. intros ps' (i & q & q' & Hi & Hq & ->).
  destruct i as [|i].
  - injection Hi as ->. apply IHp; [done|by constructor].
  - apply IHps. by exists i, q, q'.
Qed.

Lemma pool_terminates c : Acc (flip pool_step) c.
Proof.
  destruct c as [ps s]. revert s. induction (pool_after_wf ps) as [ps _ IH]. intros s.
  constructor. intros [ps' s'] (o & i & Hs). apply IH.
  apply thread_step_inv in Hs as (B & act & k & b & Hi & _ & Hps).
  exists i, (Act B act k), (k b). split; [done|]. split; [by exists b|done].
Qed.
End Pool.
