(* ===== verification/ReadCache.v ===== *)
(** * The read-connection cache

    Models [core/src/read_cache.rs], [core/src/read_cache/state_machine.rs] and
    [core/src/read_cache/ops.rs]: one open read connection per recently read
    world, in slots that readers, evictions and deletes reach concurrently.
    Threads are programs of [Conc.v]; each access to the map of slots, each lock
    operation and each call to the file system is one atomic action.

    An [Arc<ReadSlot>] is an index into the list of all slots ever made.  A
    connection is the file it was opened on, an index into the list of files
    ever made, which stays readable after its name is removed.  [fds] holds the
    slots whose connection is open; replacing a [Ready] state closes it.  A new
    slot is local to its thread until it is in the map, so allocating it,
    taking its write guard and [entry().or_insert_with] are one action
    ([Publish]).  What comes from outside (errors of SQLite and of the file
    system, the iteration order of the map) is the oracle of the action. *)

From S2P Require Import Prelude.
From S2P Require Import Db.
From S2P Require Import StorageClass.
From S2P Require Import Conc.

(** ** Slots *)

Inductive SlotState := Opening | Ready (conn : nat) | Evicted | Tombstone.

#[global] Instance SlotState_eq_dec : EqDecision SlotState.
Proof. solve_decision. Defined.

(** [inner] is the guarded state; [writer], [readers] and [mutex] are the
    threads that hold its write guard, its read guards and the mutex of its
    connection.  [slot_world] and [opener] never change: the key it was made
    for and the thread that opens it (none for a tombstone). *)
Record ReadSlot := {
  slot_world : string;
  opener : option nat;
  inner : SlotState;
  last_access : Z;
  writer : option nat;
  readers : gset nat;
  mutex : option nat;
}.

Definition no_slot : ReadSlot :=
  {| slot_world := ""; opener := None; inner := Evicted; last_access := 0; writer := None;
     readers := ∅; mutex := None |}.

Definition set_inner (st : SlotState) (sl : ReadSlot) : ReadSlot :=
  {| slot_world := slot_world sl; opener := opener sl; inner := st; last_access := last_access sl;
     writer := writer sl; readers := readers sl; mutex := mutex sl |}.
Definition set_access (t : Z) (sl : ReadSlot) : ReadSlot :=
  {| slot_world := slot_world sl; opener := opener sl; inner := inner sl; last_access := t;
     writer := writer sl; readers := readers sl; mutex := mutex sl |}.
Definition set_writer (t : option nat) (sl : ReadSlot) : ReadSlot :=
  {| slot_world := slot_world sl; opener := opener sl; inner := inner sl;
     last_access := last_access sl; writer := t; readers := readers sl; mutex := mutex sl |}.
Definition set_readers (f : gset nat -> gset nat) (sl : ReadSlot) : ReadSlot :=
  {| slot_world := slot_world sl; opener := opener sl; inner := inner sl;
     last_access := last_access sl; writer := writer sl; readers := f (readers sl);
     mutex := mutex sl |}.
Definition set_mutex (t : option nat) (sl : ReadSlot) : ReadSlot :=
  {| slot_world := slot_world sl; opener := opener sl; inner := inner sl;
     last_access := last_access sl; writer := writer sl; readers := readers sl; mutex := t |}.

Record ReadCacheMetrics := {
  read_cache_hits : Z;
  read_cache_misses : Z;
  read_cache_capped : Z;
  read_cache_evictions : Z;
  read_cache_open_fails : Z;
}.

Inductive metric := Hits | Misses | Capped | Evictions | OpenFails.

(** [fetch_add(1, Relaxed)] of a [usize]. *)
Definition bump (z : Z) : Z := (z + 1) mod (usize_max + 1).

Definition bump_metric (m : metric) (k : ReadCacheMetrics) : ReadCacheMetrics :=
  {| read_cache_hits := match m with Hits => bump | _ => id end (read_cache_hits k);
     read_cache_misses := match m with Misses => bump | _ => id end (read_cache_misses k);
     read_cache_capped := match m with Capped => bump | _ => id end (read_cache_capped k);
     read_cache_evictions := match m with Evictions => bump | _ => id end (read_cache_evictions k);
     read_cache_open_fails := match m with OpenFails => bump | _ => id end (read_cache_open_fails k) |}.

(** ** The shared state *)

Section ReadCache.
Context {D : Type} (max_entries : nat).

Record Shared := {
  slots : list ReadSlot;
  read_conns : gmap string nat;
  access_clock : Z;
  eviction_cursor : Z;
  metrics : ReadCacheMetrics;
  fds : gset nat;
  world_locks : gmap string nat;
  stream_lock : option nat;
  disk : gmap string nat;
  inodes : list D;
}.

Definition ReadCache_new (disk : gmap string nat) (inodes : list D) : Shared :=
  {| slots := []; read_conns := ∅; access_clock := 0; eviction_cursor := 0;
     metrics := {| read_cache_hits := 0; read_cache_misses := 0; read_cache_capped := 0;
                   read_cache_evictions := 0; read_cache_open_fails := 0 |};
     fds := ∅; world_locks := ∅; stream_lock := None; disk := disk; inodes := inodes |}.

Definition set_slots (f : list ReadSlot -> list ReadSlot) (s : Shared) : Shared :=
  {| slots := f (slots s); read_conns := read_conns s; access_clock := access_clock s;
     eviction_cursor := eviction_cursor s; metrics := metrics s; fds := fds s;
     world_locks := world_locks s; stream_lock := stream_lock s; disk := disk s; inodes := inodes s |}.
Definition set_conns (f : gmap string nat -> gmap string nat) (s : Shared) : Shared :=
  {| slots := slots s; read_conns := f (read_conns s); access_clock := access_clock s;
     eviction_cursor := eviction_cursor s; metrics := metrics s; fds := fds s;
     world_locks := world_locks s; stream_lock := stream_lock s; disk := disk s; inodes := inodes s |}.
Definition set_clock (t : Z) (s : Shared) : Shared :=
  {| slots := slots s; read_conns := read_conns s; access_clock := t;
     eviction_cursor := eviction_cursor s; metrics := metrics s; fds := fds s;
     world_locks := world_locks s; stream_lock := stream_lock s; disk := disk s; inodes := inodes s |}.
Definition set_cursor (t : Z) (s : Shared) : Shared :=
  {| slots := slots s; read_conns := read_conns s; access_clock := access_clock s;
     eviction_cursor := t; metrics := metrics s; fds := fds s;
     world_locks := world_locks s; stream_lock := stream_lock s; disk := disk s; inodes := inodes s |}.
Definition set_metrics (f : ReadCacheMetrics -> ReadCacheMetrics) (s : Shared) : Shared :=
  {| slots := slots s; read_conns := read_conns s; access_clock := access_clock s;
     eviction_cursor := eviction_cursor s; metrics := f (metrics s); fds := fds s;
     world_locks := world_locks s; stream_lock := stream_lock s; disk := disk s; inodes := inodes s |}.
Definition set_fds (f : gset nat -> gset nat) (s : Shared) : Shared :=
  {| slots := slots s; read_conns := read_conns s; access_clock := access_clock s;
     eviction_cursor := eviction_cursor s; metrics := metrics s; fds := f (fds s);
     world_locks := world_locks s; stream_lock := stream_lock s; disk := disk s; inodes := inodes s |}.
Definition set_locks (f : gmap string nat -> gmap string nat) (s : Shared) : Shared :=
  {| slots := slots s; read_conns := read_conns s; access_clock := access_clock s;
     eviction_cursor := eviction_cursor s; metrics := metrics s; fds := fds s;
     world_locks := f (world_locks s); stream_lock := stream_lock s; disk := disk s; inodes := inodes s |}.
Definition set_stream (t : option nat) (s : Shared) : Shared :=
  {| slots := slots s; read_conns := read_conns s; access_clock := access_clock s;
     eviction_cursor := eviction_cursor s; metrics := metrics s; fds := fds s;
     world_locks := world_locks s; stream_lock := t; disk := disk s; inodes := inodes s |}.
Definition set_disk (d : gmap string nat) (i : list D) (s : Shared) : Shared :=
  {| slots := slots s; read_conns := read_conns s; access_clock := access_clock s;
     eviction_cursor := eviction_cursor s; metrics := metrics s; fds := fds s;
     world_locks := world_locks s; stream_lock := stream_lock s; disk := d; inodes := i |}.

Definition slot_at (s : Shared) (arc : nat) : ReadSlot := default no_slot (slots s !! arc).
Definition on_slot (arc : nat) (f : ReadSlot -> ReadSlot) : Shared -> Shared :=
  set_slots (alter f arc).

(** ** Atomic actions *)

Inductive action : Type -> Type :=
| LockWorld (w : string) : action unit
| UnlockWorld (w : string) : action unit
| LockStream : action unit
| UnlockStream : action unit
| Get (w : string) : action (option nat)
| Len : action nat
| Iter : action (list (string * nat * Z))
| NextCursor : action Z
| Publish (w : string) : action (nat * bool)
| InsertTombstone (w : string) : action (option nat)
| Remove (w : string) : action unit
| RemoveIf (w : string) (arc : nat) : action bool
| Touch (arc : nat) : action unit
| LockRead (arc : nat) : action unit
| UnlockRead (arc : nat) : action unit
| LockWrite (arc : nat) : action unit
| TryWrite (arc : nat) : action bool
| UnlockWrite (arc : nat) : action unit
| Peek (arc : nat) : action SlotState
| SetState (arc : nat) (st : SlotState) : action unit
| LockMutex (arc : nat) : action unit
| UnlockMutex (arc : nat) : action unit
| Bump (m : metric) : action unit
| TryExists (w : string) : action (result unit bool)
| OpenConn (arc : nat) (w : string) : action (result sqlite_error nat)
| VerifySchema (conn : nat) : action (result sqlite_error unit)
| Query (conn : nat) : action (option D)
| Unlink (w : string) : action bool
| WriteFile (w : string) (d : D) : action unit.

Record Oracle := {
  o_error : option sqlite_error;   (* the error of a call, if it fails *)
  o_order : list string;           (* the iteration order of the map *)
}.

Definition READ_CACHE_EVICTION_SAMPLE_SIZE : nat := 8.
Definition READ_CACHE_RETRY_BUDGET : nat := 16.

(** [next_access_tick]. *)
Definition next_access_tick (s : Shared) : Z := (access_clock s + 1) mod (u64_max + 1).

Definition free_to_read (sl : ReadSlot) : bool := bool_decide (writer sl = None).
Definition free_to_write (sl : ReadSlot) : bool :=
  bool_decide (writer sl = None) && bool_decide (readers sl = ∅).

(** [new_slot], appended to the list of slots, and its index. *)
Definition new_slot (w : string) (t : option nat) (st : SlotState) (s : Shared) : nat * Shared :=
  let tick := next_access_tick s in
  (length (slots s),
   set_clock tick
     (set_slots (fun l => l ++ [{| slot_world := w; opener := t; inner := st; last_access := tick;
                                   writer := t; readers := ∅; mutex := None |}]) s)).

Definition is_ready (st : SlotState) : bool := match st with Ready _ => true | _ => false end.

(** [*guard = st], the old state dropped: a connection that goes is closed. *)
Definition set_state (arc : nat) (st : SlotState) (s : Shared) : Shared :=
  set_fds (fun l => if is_ready st then l else l ∖ {[arc]}) (on_slot arc (set_inner st) s).

(** One action of thread [t]; a lock that is taken gives no result yet. *)
Definition exec (B : Type) (o : Oracle) (t : nat) (a : action B) (s : Shared)
  : option (B * Shared) :=
  match a in action B return option (B * Shared) with
  | LockWorld w => match world_locks s !! w with
                   | None => Some (tt, set_locks (<[w := t]>) s)
                   | Some _ => None
                   end
  | UnlockWorld w => Some (tt, set_locks (base.delete w) s)
  | LockStream => match stream_lock s with
                  | None => Some (tt, set_stream (Some t) s)
                  | Some _ => None
                  end
  | UnlockStream => Some (tt, set_stream None s)
  | Get w => Some (read_conns s !! w, s)
  | Len => Some (size (read_conns s), s)
  | Iter => Some (omap (fun w => (fun arc => (w, arc, last_access (slot_at s arc)))
                                   <$> read_conns s !! w) (o_order o), s)
  | NextCursor =>
      Some (eviction_cursor s,
            set_cursor ((eviction_cursor s + Z.of_nat READ_CACHE_EVICTION_SAMPLE_SIZE)
                          mod (usize_max + 1)) s)
  | Publish w =>
      match read_conns s !! w with
      | Some arc => Some ((arc, false), set_clock (next_access_tick s) s)
      | None => let '(arc, s) := new_slot w (Some t) Opening s in
                Some ((arc, true), set_conns (<[w := arc]>) s)
      end
  | InsertTombstone w =>
      let prev := read_conns s !! w in
      let '(arc, s) := new_slot w None Tombstone s in
      Some (prev, set_conns (<[w := arc]>) s)
  | Remove w => Some (tt, set_conns (base.delete w) s)
  | RemoveIf w arc =>
      if bool_decide (read_conns s !! w = Some arc)
      then Some (true, set_conns (base.delete w) s) else Some (false, s)
  | Touch arc =>
      let tick := next_access_tick s in Some (tt, set_clock tick (on_slot arc (set_access tick) s))
  | LockRead arc =>
      if free_to_read (slot_at s arc)
      then Some (tt, on_slot arc (set_readers (fun l => {[t]} ∪ l)) s) else None
  | UnlockRead arc => Some (tt, on_slot arc (set_readers (fun l => l ∖ {[t]})) s)
  | LockWrite arc =>
      if free_to_write (slot_at s arc) then Some (tt, on_slot arc (set_writer (Some t)) s) else None
  | TryWrite arc =>
      if free_to_write (slot_at s arc) then Some (true, on_slot arc (set_writer (Some t)) s)
      else Some (false, s)
  | UnlockWrite arc => Some (tt, on_slot arc (set_writer None) s)
  | Peek arc => Some (inner (slot_at s arc), s)
  | SetState arc st => Some (tt, set_state arc st s)
  | LockMutex arc =>
      match mutex (slot_at s arc) with
      | None => Some (tt, on_slot arc (set_mutex (Some t)) s)
      | Some _ => None
      end
  | UnlockMutex arc => Some (tt, on_slot arc (set_mutex None) s)
  | Bump m => Some (tt, set_metrics (bump_metric m) s)
  | TryExists w => Some (match o_error o with
                         | Some _ => Err tt
                         | None => Ok (bool_decide (is_Some (disk s !! w)))
                         end, s)
  | OpenConn arc w =>
      match o_error o, disk s !! w with
      | Some e, _ => Some (Err e, s)
      | None, None => Some (Err (SqliteFailure CannotOpen None), s)
      | None, Some conn => Some (Ok conn, set_fds (fun l => {[arc]} ∪ l) s)
      end
  | VerifySchema conn => Some (match o_error o with Some e => Err e | None => Ok tt end, s)
  | Query conn => Some (inodes s !! conn, s)
  | Unlink w => match o_error o with
                | Some _ => Some (false, s)
                | None => Some (bool_decide (is_Some (disk s !! w)),
                                set_disk (base.delete w (disk s)) (inodes s) s)
                end
  | WriteFile w d =>
      match disk s !! w with
      | Some conn => Some (tt, set_disk (disk s) (<[conn := d]> (inodes s)) s)
      | None => Some (tt, set_disk (<[w := length (inodes s)]> (disk s)) (inodes s ++ [d]) s)
      end
  end.

(** ** Programs *)

Notation prog := (prog action).
Notation "'do' a" := (perform a) (at level 10, a at level 9).

Definition touch_slot (arc : nat) : prog unit := do (Touch arc).

Definition remove_evicted_entry (w : string) (arc : nat) : prog bool := do (RemoveIf w arc).

(** *** Eviction *)

Definition try_evict_ready_slot (w : string) (arc : nat) : prog bool :=
  free ← do (TryWrite arc);
  if negb free then mret false
  else
    st ← do (Peek arc);
    if negb (is_ready st) then _ ← do (UnlockWrite arc); mret false
    else
      _ ← do (SetState arc Evicted);
      _ ← do (UnlockWrite arc);
      remove_evicted_entry w arc.

(** The candidates among [entries], until there are [READ_CACHE_EVICTION_SAMPLE_SIZE]. *)
Fixpoint push_candidates (target_world : string) (entries candidates : list (string * nat * Z))
  : list (string * nat * Z) :=
  match entries with
  | [] => candidates
  | (w, arc, tick) :: entries =>
      if (READ_CACHE_EVICTION_SAMPLE_SIZE <=? length candidates)%nat then candidates
      else if bool_decide (w = target_world) then push_candidates target_world entries candidates
      else push_candidates target_world entries (candidates ++ [(w, arc, tick)])
  end.

(** [sort_by_key], stable. *)
Fixpoint insert_by_access (x : string * nat * Z) (l : list (string * nat * Z))
  : list (string * nat * Z) :=
  match l with
  | [] => [x]
  | y :: l' => if (snd x <=? snd y)%Z then x :: l else y :: insert_by_access x l'
  end.

Definition sort_by_access (l : list (string * nat * Z)) : list (string * nat * Z) :=
  foldr insert_by_access [] l.

Fixpoint evict_first (candidates : list (string * nat * Z)) : prog bool :=
  match candidates with
  | [] => mret false
  | (w, arc, _) :: candidates =>
      evicted ← try_evict_ready_slot w arc;
      if evicted : bool then _ ← do (Bump Evictions); mret true else evict_first candidates
  end.

Definition try_evict_oldest_sample (target_world : string) : prog bool :=
  len ← do Len;
  if (len =? 0)%nat then mret false
  else
    cursor ← do NextCursor;
    let start := Z.to_nat (cursor mod Z.of_nat len) in
    entries ← do Iter;
    let candidates := push_candidates target_world (drop start entries) [] in
    candidates ← (if (length candidates <? READ_CACHE_EVICTION_SAMPLE_SIZE)%nat && (0 <? start)%nat
                  then entries ← do Iter;
                       mret (push_candidates target_world (take start entries) candidates)
                  else mret candidates);
    evict_first (sort_by_access candidates).

Fixpoint trim_loop (budget : nat) (target_world : string) : prog unit :=
  match budget with
  | O => mret tt
  | S budget =>
      len ← do Len;
      if (len <=? max_entries)%nat then mret tt
      else
        evicted ← try_evict_oldest_sample target_world;
        if negb evicted then mret tt else trim_loop budget target_world
  end.

Definition best_effort_trim_over_cap (target_world : string) : prog unit :=
  trim_loop READ_CACHE_RETRY_BUDGET target_world.

(** *** Reads *)

Section Read.
Context {R : Type}.

Inductive SlotRead := Done (value : option R) | ReadOpening | ReadEvicted.

Definition invoke_via_slot (arc : nat) (f : D -> result sqlite_error R)
  : prog (result sqlite_error SlotRead) :=
  _ ← do (LockRead arc);
  st ← do (Peek arc);
  match st with
  | Ready conn =>
      _ ← do (LockMutex arc);
      shape ← do (VerifySchema conn);
      r ← match shape with
          | Err e => mret (Err e)
          | Ok _ =>
              d ← do (Query conn);
              mret (match d with
                    | Some d => match f d with Ok value => Ok (Done (Some value)) | Err e => Err e end
                    | None => Err InvalidQuery
                    end)
          end;
      _ ← do (UnlockMutex arc);
      _ ← do (UnlockRead arc);
      mret r
  | Tombstone => _ ← do (UnlockRead arc); mret (Ok (Done None))
  | Opening => _ ← do (UnlockRead arc); mret (Ok ReadOpening)
  | Evicted => _ ← do (UnlockRead arc); mret (Ok ReadEvicted)
  end.

(** The owner of a fresh slot opens its connection under the write guard.  An
    error ends the read with the given result. *)
Definition open_slot (arc : nat) (w : string)
  : prog (result (result sqlite_error (option R)) unit) :=
  st ← do (Peek arc);
  match st with
  | Opening =>
      init ← do (OpenConn arc w);
      match init with
      | Ok conn =>
          _ ← do (SetState arc (Ready conn));
          _ ← do (UnlockWrite arc);
          mret (Ok tt)
      | Err e =>
          _ ← do (SetState arc Evicted);
          _ ← do (UnlockWrite arc);
          _ ← do (RemoveIf w arc);
          _ ← do (Bump OpenFails);
          if bool_decide (sqlite_error_code e = Some CannotOpen) then
            exists_ ← do (TryExists w);
            mret (Err (match exists_ with Ok false => Ok None | _ => Err e end))
          else mret (Err (Err e))
      end
  | _ => _ ← do (UnlockWrite arc); mret (Ok tt)
  end.

(** Slot before open: the slot is published under its write guard, then opened
    by the thread that owns it. *)
Definition lazy_init (w : string)
  : prog (nat * bool * result (result sqlite_error (option R)) unit) :=
  slot ← do (Publish w);
  init ← (if snd slot : bool then open_slot (fst slot) w else mret (Ok tt));
  mret (slot, init).

Definition read_cache_retry_budget_error (w : string) : sqlite_error :=
  SqliteFailure DatabaseBusy (Some ("read cache transient retry budget exhausted for " +:+ w)).

(** Drain before remove. *)
Definition drain_own_slot (w : string) (arc : nat) : prog unit :=
  _ ← do (LockWrite arc);
  _ ← do (SetState arc Evicted);
  _ ← do (UnlockWrite arc);
  _ ← do (RemoveIf w arc);
  mret tt.

Fixpoint transient_loop (budget : nat) (w : string) (f : D -> result sqlite_error R)
  : prog (result sqlite_error (option R)) :=
  match budget with
  | O => mret (Err (read_cache_retry_budget_error w))
  | S budget =>
      hit ← do (Get w);
      match hit with
      | Some arc =>
          _ ← touch_slot arc;
          r ← invoke_via_slot arc f;
          match r with
          | Err e => mret (Err e)
          | Ok (Done value) => _ ← best_effort_trim_over_cap w; mret (Ok value)
          | Ok ReadOpening => transient_loop budget w f
          | Ok ReadEvicted => _ ← remove_evicted_entry w arc; transient_loop budget w f
          end
      | None =>
          slot ← lazy_init w;
          match slot with
          | (_, Err r) => mret r
          | (arc, own, Ok _) =>
              _ ← touch_slot arc;
              r ← invoke_via_slot arc f;
              match r with
              | Err e => mret (Err e)
              | Ok (Done value) =>
                  _ ← (if own : bool then drain_own_slot w arc else mret tt);
                  _ ← best_effort_trim_over_cap w;
                  mret (Ok value)
              | Ok ReadOpening => transient_loop budget w f
              | Ok ReadEvicted => _ ← remove_evicted_entry w arc; transient_loop budget w f
              end
          end
      end
  end.

Definition invoke_transient (w : string) (f : D -> result sqlite_error R) :=
  transient_loop READ_CACHE_RETRY_BUDGET w f.

Fixpoint tracked_loop (budget : nat) (counted_miss counted_capped : bool) (w : string)
    (f : D -> result sqlite_error R) : prog (result sqlite_error (option R)) :=
  match budget with
  | O => invoke_transient w f
  | S budget =>
      hit ← do (Get w);
      match hit with
      | Some arc =>
          _ ← touch_slot arc;
          r ← invoke_via_slot arc f;
          match r with
          | Err e => mret (Err e)
          | Ok (Done value) =>
              _ ← best_effort_trim_over_cap w;
              _ ← do (Bump Hits);
              mret (Ok value)
          | Ok ReadOpening => tracked_loop budget counted_miss counted_capped w f
          | Ok ReadEvicted =>
              _ ← remove_evicted_entry w arc;
              tracked_loop budget counted_miss counted_capped w f
          end
      | None =>
          _ ← (if counted_miss : bool then mret tt else do (Bump Misses));
          len ← do Len;
          if (max_entries <=? len)%nat then
            _ ← (if counted_capped : bool then mret tt else do (Bump Capped));
            evicted ← try_evict_oldest_sample w;
            if evicted : bool then tracked_loop budget true true w f else invoke_transient w f
          else
            present ← do (TryExists w);
            match present with
            | Ok false => mret (Ok None)
            | _ =>
                slot ← lazy_init w;
                match slot with
                | (_, Err r) => mret r
                | (arc, _, Ok _) =>
                    _ ← touch_slot arc;
                    r ← invoke_via_slot arc f;
                    match r with
                    | Err e => mret (Err e)
                    | Ok (Done value) => _ ← best_effort_trim_over_cap w; mret (Ok value)
                    | Ok ReadOpening => tracked_loop budget true counted_capped w f
                    | Ok ReadEvicted =>
                        _ ← remove_evicted_entry w arc;
                        tracked_loop budget true counted_capped w f
                    end
                end
            end
      end
  end.

Definition with_tracked_conn (w : string) (f : D -> result sqlite_error R) :=
  tracked_loop READ_CACHE_RETRY_BUDGET false false w f.
End Read.

(** *** Deletes, writes, shutdown *)

Definition install_tombstone_blocking (w : string) : prog unit :=
  prev ← do (InsertTombstone w);
  match prev with
  | Some prev_slot =>
      _ ← do (LockWrite prev_slot);
      _ ← do (SetState prev_slot Tombstone);
      do (UnlockWrite prev_slot)
  | None => mret tt
  end.

Definition clear_tombstone (w : string) : prog unit := do (Remove w).

Fixpoint drain_slots (l : list (string * nat * Z)) : prog unit :=
  match l with
  | [] => mret tt
  | (w, arc, _) :: l =>
      _ ← do (LockWrite arc);
      _ ← do (SetState arc Evicted);
      _ ← do (UnlockWrite arc);
      _ ← remove_evicted_entry w arc;
      drain_slots l
  end.

Definition drain_all_blocking : prog unit := l ← do Iter; drain_slots l.

(** [snapshot_entries] and [snapshot_tombstones]; the latter skips slots whose
    guard is taken. *)
Definition snapshot_entries (s : Shared) : nat := size (read_conns s).

Definition snapshot_tombstones (s : Shared) : nat :=
  length (filter (fun arc => free_to_read (slot_at s arc) = true
                             /\ inner (slot_at s arc) = Tombstone)
                 (snd <$> map_to_list (read_conns s))).

(** ** The threads of an engine, as far as they touch the cache *)

Section Clients.
Context {R : Type}.
Notation outcome := (result sqlite_error (option R)).

Definition read_client (w : string) (f : D -> result sqlite_error R) : prog outcome :=
  with_tracked_conn w f.

(** A delete holds the world's lock and the lock of the deletion ledger, reads
    the world, drains and removes it.  Of its reads of the world one stands for
    all: each is a read through the cache under the same locks. *)
Definition delete_client (w : string) (f : D -> result sqlite_error R) : prog outcome :=
  _ ← do (LockWorld w);
  _ ← do LockStream;
  r ← with_tracked_conn w f;
  match r with
  | Ok (Some _) =>
      _ ← install_tombstone_blocking w;
      _ ← do (Unlink w);
      _ ← clear_tombstone w;
      _ ← do UnlockStream;
      _ ← do (UnlockWorld w);
      mret r
  | _ => _ ← do UnlockStream; _ ← do (UnlockWorld w); mret r
  end.

(** A write holds the world's lock, clears a tombstone, and commits through its
    own connection. *)
Definition write_client (w : string) (d : D) : prog outcome :=
  _ ← do (LockWorld w);
  _ ← clear_tombstone w;
  _ ← do (WriteFile w d);
  _ ← do (UnlockWorld w);
  mret (Ok None).
End Clients.
End ReadCache.
