(* ===== verification/ReadCacheLocks.v ===== *)
(** * The read cache never deadlocks, and every schedule of it ends

    Locks are ranked: the lock of a world, the lock of the deletion ledger, the
    guard of a slot, then the mutex of its connection.  Every thread acquires them in that order and holds
    none when it returns; with the retry budgets this gives termination and
    progress of any pool of readers, deletes, writes and shutdowns. *)

From S2P Require Import Prelude.
From S2P Require Import Db.
From S2P Require Import Conc.
From S2P Require Import ReadCache.

Inductive lock := LWorld (w : string) | LStream | LRead (arc : nat) | LWrite (arc : nat) | LMutex (arc : nat).

#[global] Instance lock_eq_dec : EqDecision lock.
Proof. solve_decision. Defined.

Definition rank (l : lock) : nat :=
  match l with LWorld _ => 0 | LStream => 1 | LRead _ | LWrite _ => 2 | LMutex _ => 3 end.

Definition below (n : nat) (held : list lock) : Prop := Forall (fun l => (rank l < n)%nat) held.

Definition release (l : lock) (held : list lock) : list lock := filter (fun l' => l' <> l) held.

#[global] Arguments release : simpl never.

Section Discipline.
Context {D : Type}.
Notation action := (@action D).
Notation Shared := (@Shared D).

(** ** Which locks an action takes and gives back *)

Definition lock_effect {B} (a : action B) (held : list lock) (Q : B -> list lock -> Prop) : Prop :=
  match a in ReadCache.action B return (B -> list lock -> Prop) -> Prop with
  | LockWorld w => fun Q => below 0 held /\ Q tt (LWorld w :: held)
  | UnlockWorld w => fun Q => Q tt (release (LWorld w) held)
  | LockStream => fun Q => below 1 held /\ Q tt (LStream :: held)
  | UnlockStream => fun Q => Q tt (release LStream held)
  | Publish w => fun Q => forall arc, Q (arc, false) held /\ Q (arc, true) (LWrite arc :: held)
  | LockRead arc => fun Q => below 2 held /\ Q tt (LRead arc :: held)
  | UnlockRead arc => fun Q => Q tt (release (LRead arc) held)
  | LockWrite arc => fun Q => below 2 held /\ Q tt (LWrite arc :: held)
  | TryWrite arc => fun Q => Q false held /\ Q true (LWrite arc :: held)
  | UnlockWrite arc => fun Q => Q tt (release (LWrite arc) held)
  | LockMutex arc => fun Q => below 3 held /\ Q tt (LMutex arc :: held)
  | UnlockMutex arc => fun Q => Q tt (release (LMutex arc) held)
  | _ => fun Q => forall b, Q b held
  end Q.

Fixpoint disciplined {A} (held : list lock) (p : prog action A) (Q : A -> list lock -> Prop) : Prop :=
  match p with
  | Return a => Q a held
  | Act B act k => lock_effect act held (fun b held => disciplined held (k b) Q)
  end.

Lemma lock_effect_mono {B} (a : action B) held (P Q : B -> list lock -> Prop) :
  (forall b h, P b h -> Q b h) -> lock_effect a held P -> lock_effect a held Q.
Proof. intros HPQ. destruct a; cbn; naive_solver. Qed.

Lemma disciplined_mono {A} held (p : prog action A) (P Q : A -> list lock -> Prop) :
  (forall a h, P a h -> Q a h) -> disciplined held p P -> disciplined held p Q.
Proof.
  intros HPQ. revert held. induction p as [a|B act k IH]; intros held; cbn; [apply HPQ|].
  apply lock_effect_mono. intros b h. apply IH.
Qed.

Lemma disciplined_bind {A B} held (p : prog action A) (f : A -> prog action B) Q :
  disciplined held p (fun a h => disciplined h (f a) Q) -> disciplined held (p ≫= f) Q.
Proof.
  revert held. induction p as [a|C act k IH]; intros held; cbn; [done|].
  apply lock_effect_mono. intros b h. apply IH.
Qed.

(** ** Who holds what *)

Definition holds (s : Shared) (t : nat) (l : lock) : Prop :=
  match l with
  | LWorld w => world_locks s !! w = Some t
  | LStream => stream_lock s = Some t
  | LRead arc => t ∈ readers (slot_at s arc)
  | LWrite arc => writer (slot_at s arc) = Some t
  | LMutex arc => mutex (slot_at s arc) = Some t
  end.

Lemma slot_at_on_slot (s : Shared) arc f arc' :
  slot_at (on_slot arc f s) arc' = slot_at s arc' \/ (arc' = arc /\ slot_at (on_slot arc f s) arc' = f (slot_at s arc)).
Proof.
  unfold slot_at, on_slot. cbn. destruct (decide (arc' = arc)) as [->|Hne].
  - destruct (slots s !! arc) as [sl|] eqn:E.
    + right. split; [done|]. by rewrite list_lookup_alter_eq, E.
    + left. by rewrite list_lookup_alter_eq, E.
  - left. by rewrite list_lookup_alter_ne.
Qed.

Lemma slot_at_new (s : Shared) w t st arc' :
  slot_at (snd (new_slot w t st s)) arc' = slot_at s arc'
  \/ (slots s !! arc' = None /\ arc' = length (slots s)
      /\ slot_at (snd (new_slot w t st s)) arc'
         = {| slot_world := w; opener := t; inner := st; last_access := next_access_tick s;
              writer := t; readers := ∅; mutex := None |}).
Proof.
  unfold slot_at. cbn. destruct (decide (arc' < length (slots s))%nat).
  - left. by rewrite lookup_app_l.
  - rewrite (lookup_ge_None_2 (slots s)) by lia. destruct (decide (arc' = length (slots s))) as [->|].
    + right. by rewrite list_lookup_middle by done.
    + left. rewrite lookup_ge_None_2; [done|]. rewrite length_app. cbn. lia.
Qed.

(** What a thread holds after a change of one slot. *)
Lemma holds_on_slot (s : Shared) arc f t l :
  holds (on_slot arc f s) t l ->
  holds s t l
  \/ match l with
     | LRead a => a = arc /\ t ∈ readers (f (slot_at s arc))
     | LWrite a => a = arc /\ writer (f (slot_at s arc)) = Some t
     | LMutex a => a = arc /\ mutex (f (slot_at s arc)) = Some t
     | LWorld _ | LStream => False
     end.
Proof.
  destruct l as [w| |a|a|a]; cbn; [by left|by left| | |];
    (destruct (slot_at_on_slot s arc f a) as [->|[-> ->]]; [by left|by right]).
Qed.

Lemma holds_new (s : Shared) w t0 st t l :
  holds (snd (new_slot w t0 st s)) t l ->
  holds s t l \/ (l = LWrite (length (slots s)) /\ t0 = Some t).
Proof.
  destruct l as [w'| |a|a|a]; cbn [holds]; [by left|by left| | |];
    (destruct (slot_at_new s w t0 st a) as [->|(_ & -> & ->)]; [by left|]); cbn; [set_solver| |done].
  intros ->. by right.
Qed.

Lemma in_release l l' held : l ∈ held -> l <> l' -> l ∈ release l' held.
Proof. intros Hin Hne. unfold release. by apply list_elem_of_filter. Qed.

(** The three ways an action changes what is held. *)
Definition keeps (s s' : Shared) : Prop := forall t l, holds s' t l -> holds s t l.
Definition gains (t0 : nat) (l0 : lock) (s s' : Shared) : Prop :=
  forall t l, holds s' t l -> holds s t l \/ (t = t0 /\ l = l0).
Definition loses (t0 : nat) (l0 : lock) (s s' : Shared) : Prop := keeps s s' /\ ~ holds s' t0 l0.

Definition holds_after (t : nat) (s s' : Shared) (held held' : list lock) : Prop :=
  (forall l, holds s t l -> l ∈ held) ->
  (forall l, holds s' t l -> l ∈ held') /\ forall t' l, t' <> t -> holds s' t' l -> holds s t' l.

Lemma keeps_after t s s' held : keeps s s' -> holds_after t s s' held held.
Proof. intros Hk Hh. split; [intros l Hl; by apply Hh, Hk|by intros t' l _ Hl; apply Hk]. Qed.

Lemma gains_after t l0 s s' held : gains t l0 s s' -> holds_after t s s' held (l0 :: held).
Proof.
  intros Hg Hh. split.
  - intros l Hl. apply elem_of_cons. destruct (Hg _ _ Hl) as [Hl'|[_ ->]]; [right; by apply Hh|by left].
  - intros t' l Hne Hl. destruct (Hg _ _ Hl) as [Hl'|[-> _]]; done.
Qed.

Lemma loses_after t l0 s s' held : loses t l0 s s' -> holds_after t s s' held (release l0 held).
Proof.
  intros [Hk Hn] Hh. split; [|by intros t' l _ Hl; apply Hk].
  intros l Hl. apply in_release; [by apply Hh, Hk|by intros ->].
Qed.

Lemma keeps_same (s s' : Shared) :
  slots s' = slots s -> world_locks s' = world_locks s -> stream_lock s' = stream_lock s -> keeps s s'.
Proof. intros Hs Hw Hst t l. destruct l; cbn; unfold slot_at; by rewrite ?Hs, ?Hw, ?Hst. Qed.

Lemma keeps_on_slot s arc f :
  readers (f (slot_at s arc)) ⊆ readers (slot_at s arc) ->
  (forall t, writer (f (slot_at s arc)) = Some t -> writer (slot_at s arc) = Some t) ->
  (forall t, mutex (f (slot_at s arc)) = Some t -> mutex (slot_at s arc) = Some t) ->
  keeps s (on_slot arc f s).
Proof.
  intros Hr Hw Hm t l Hl. apply holds_on_slot in Hl as [?|Hl]; [done|].
  destruct l; [done|done| | |]; destruct Hl as [-> Hl]; cbn; [set_solver|auto|auto].
Qed.

Lemma keeps_new s w st : keeps s (snd (new_slot w None st s)).
Proof. intros t l Hl. by apply holds_new in Hl as [?|[_ ?]]. Qed.

Lemma slot_at_alter (P : ReadSlot -> Prop) (s : Shared) arc f :
  P no_slot -> (forall sl, P (f sl)) -> P (slot_at (on_slot arc f s) arc).
Proof.
  intros Hn Hf. unfold slot_at, on_slot. cbn. rewrite list_lookup_alter_eq.
  destruct (slots s !! arc); [apply Hf|exact Hn].
Qed.

Ltac on_slot_keeps := apply keeps_on_slot; [cbn; set_solver|done|done].

Lemma gains_write (s : Shared) t arc : gains t (LWrite arc) s (on_slot arc (set_writer (Some t)) s).
Proof.
  intros t' l Hl. apply holds_on_slot in Hl as [?|Hl]; [by left|].
  destruct l; [done|done| | |]; destruct Hl as [-> Hl]; cbn in Hl |- *; [by left|naive_solver|by left].
Qed.

Lemma exec_holds {B} o t (a : action B) (s s' : Shared) b held Q :
  exec B o t a s = Some (b, s') -> lock_effect a held Q ->
  exists held', Q b held' /\ holds_after t s s' held held'.
Proof.
  intros He HQ. destruct a; cbn in He, HQ;
    try (injection He as <- <-; exists held; split; [apply HQ|by apply keeps_after, keeps_same]).
  - destruct (world_locks s !! w) eqn:Ew; [done|]. injection He as <- <-. destruct HQ as [_ HQ].
    eexists; split; [exact HQ|]. apply gains_after. intros t' [w'| |a|a|a]; cbn; try by left.
    destruct (decide (w' = w)) as [->|]; [rewrite lookup_insert_eq; intros [= ->]; by right|].
    rewrite lookup_insert_ne by done. by left.
  - injection He as <- <-. eexists; split; [exact HQ|]. apply loses_after. split.
    + intros t' [w'| |a|a|a]; cbn; try done. rewrite lookup_delete_Some. tauto.
    + cbn. by rewrite lookup_delete_eq.
  - destruct (stream_lock s) eqn:Es; [done|]. injection He as <- <-. destruct HQ as [_ HQ].
    eexists; split; [exact HQ|]. apply gains_after. intros t' [w'| |a|a|a]; cbn; try by left.
    intros [= ->]. by right.
  - injection He as <- <-. eexists; split; [exact HQ|]. apply loses_after. split; [|done].
    by intros t' [w'| |a|a|a].
  - destruct (read_conns s !! w) as [arc|].
    + injection He as <- <-. exists held. split; [apply HQ|by apply keeps_after, keeps_same].
    + injection He as <- <-. eexists; split; [apply HQ|]. apply gains_after.
      intros t' l Hl. change (holds (snd (new_slot w (Some t) Opening s)) t' l) in Hl.
      apply holds_new in Hl as [?|[-> [= ->]]]; [by left|by right].
  - injection He as <- <-. exists held. split; [apply HQ|]. apply keeps_after.
    intros t' l Hl. by apply (keeps_new s w Tombstone) in Hl.
  - case_bool_decide; injection He as <- <-; (exists held; split; [apply HQ|by apply keeps_after, keeps_same]).
  - injection He as <- <-. exists held. split; [apply HQ|]. apply keeps_after.
    intros t' l Hl. revert t' l Hl. on_slot_keeps.
  - destruct (free_to_read _); [|done]. injection He as <- <-. destruct HQ as [_ HQ].
    eexists; split; [exact HQ|]. apply gains_after. intros t' l Hl.
    apply holds_on_slot in Hl as [?|Hl]; [by left|]. destruct l; [done|done| | |]; destruct Hl as [-> Hl]; cbn in Hl |- *.
    + set_solver.
    + by left.
    + by left.
  - injection He as <- <-. eexists; split; [exact HQ|]. apply loses_after. split; [on_slot_keeps|].
    cbn. by apply (slot_at_alter (fun sl => t ∉ readers sl)); [set_solver|intros sl; cbn; set_solver].
  - destruct (free_to_write _); [|done]. injection He as <- <-. destruct HQ as [_ HQ].
    eexists; split; [exact HQ|]. by apply gains_after, gains_write.
  - destruct HQ as [HQf HQt]. destruct (free_to_write _); injection He as <- <-.
    + eexists; split; [exact HQt|]. by apply gains_after, gains_write.
    + eexists; split; [exact HQf|]. by apply keeps_after, keeps_same.
  - injection He as <- <-. eexists; split; [exact HQ|]. apply loses_after. split; [on_slot_keeps|].
    cbn. by apply (slot_at_alter (fun sl => writer sl <> Some t)).
  - injection He as <- <-. exists held. split; [apply HQ|]. apply keeps_after.
    intros t' l Hl. revert t' l Hl. on_slot_keeps.
  - destruct (mutex _) eqn:Em; [done|]. injection He as <- <-. destruct HQ as [_ HQ].
    eexists; split; [exact HQ|]. apply gains_after. intros t' l Hl.
    apply holds_on_slot in Hl as [?|Hl]; [by left|].
    destruct l; [done|done| | |]; destruct Hl as [-> Hl]; cbn in Hl |- *; [by left|by left|naive_solver].
  - injection He as <- <-. eexists; split; [exact HQ|]. apply loses_after. split; [on_slot_keeps|].
    cbn. by apply (slot_at_alter (fun sl => mutex sl <> Some t)).
  - destruct (o_error o), (disk s !! w); injection He as <- <-;
      (exists held; split; [apply HQ|by apply keeps_after, keeps_same]).
  - destruct (o_error o); injection He as <- <-;
      (exists held; split; [apply HQ|by apply keeps_after, keeps_same]).
  - destruct (disk s !! w); injection He as <- <-;
      (exists held; split; [apply HQ|by apply keeps_after, keeps_same]).
Qed.

(** ** Progress *)

(** An action that must wait: some thread holds a lock above all of its own. *)
Lemma exec_blocked {B} o t (a : action B) (s : Shared) held Q :
  exec B o t a s = None -> lock_effect a held Q ->
  exists t' l, holds s t' l /\ below (rank l) held.
Proof.
  intros He HQ. destruct a; cbn in He, HQ; try discriminate He.
  - destruct (world_locks s !! w) as [t'|] eqn:E; [|done]. exists t', (LWorld w). tauto.
  - destruct (stream_lock s) as [t'|] eqn:E; [|done]. exists t', LStream. tauto.
  - by destruct (read_conns s !! w).
  - by case_bool_decide.
  - unfold free_to_read in He. case_bool_decide as E; [done|].
    destruct (writer (slot_at s arc)) as [t'|] eqn:Ew; [|done]. exists t', (LWrite arc). tauto.
  - unfold free_to_write in He. case_bool_decide as E; cbn in He.
    + case_bool_decide as E'; [done|]. apply set_choose_L in E' as [t' Ht']. exists t', (LRead arc). tauto.
    + destruct (writer (slot_at s arc)) as [t'|] eqn:Ew; [|done]. exists t', (LWrite arc). tauto.
  - by destruct (free_to_write _).
  - destruct (mutex (slot_at s arc)) as [t'|] eqn:E; [|done]. exists t', (LMutex arc). tauto.
  - by destruct (o_error o), (disk s !! w).
  - by destruct (o_error o).
  - by destruct (disk s !! w).
Qed.

Context {A : Type}.
Notation thread := (prog action A).

(** Every thread of the pool keeps the discipline from where it stands, and
    holds no more than it accounts for. *)
Definition pool_ok (c : list thread * Shared) : Prop :=
  (forall i p, fst c !! i = Some p ->
     exists held, disciplined held p (fun _ h => h = []) /\ forall l, holds (snd c) i l -> l ∈ held)
  /\ forall i l, holds (snd c) i l -> is_Some (fst c !! i).

Lemma pool_ok_step o i c c' : pool_ok c -> thread_step exec o i c = Some c' -> pool_ok c'.
Proof.
  intros [Hth Hin] Hs. apply thread_step_inv in Hs as (B & act & k & b & Hi & He & Hps).
  destruct (Hth _ _ Hi) as (held & Hd & Hh).
  destruct (exec_holds _ _ _ _ _ _ _ _ He Hd) as (held' & Hd' & Ha).
  destruct (Ha Hh) as [Hh' Hother]. destruct c as [ps s], c' as [ps' s']. cbn in *. subst ps'. split.
  - intros j p Hj. destruct (decide (j = i)) as [->|Hne]; cbn in *.
    + rewrite list_lookup_insert_eq in Hj by (by eapply lookup_lt_Some). injection Hj as <-. by exists held'.
    + rewrite list_lookup_insert_ne in Hj by done. destruct (Hth _ _ Hj) as (h & Hdj & Hhj).
      exists h. split; [done|]. intros l Hl. apply Hhj. by apply (Hother j).
  - intros j l Hl. cbn in *. destruct (decide (j = i)) as [->|Hne].
    + rewrite list_lookup_insert_eq by (by eapply lookup_lt_Some). by eexists.
    + rewrite list_lookup_insert_ne by done. by eapply Hin, Hother.
Qed.

Lemma pool_ok_run c c' : pool_ok c -> rtc (pool_step exec) c c' -> pool_ok c'.
Proof. intros Hok Hr. induction Hr as [|c c1 c2 (o & i & Hs) _ IH]; [done|]. by eapply IH, pool_ok_step. Qed.

Lemma holder_unfinished c i l p :
  pool_ok c -> holds (snd c) i l -> fst c !! i = Some p -> ~ finished p.
Proof.
  intros [Hth _] Hl Hi Hf. destruct (Hth _ _ Hi) as (h & Hd & Hh). destruct p; [|done].
  cbn in Hd. subst h. by apply Hh, elem_of_nil in Hl.
Qed.

Lemma unfinished_step n c i p :
  pool_ok c -> fst c !! i = Some p -> ~ finished p ->
  (exists l, holds (snd c) i l /\ (3 <= n + rank l)%nat) ->
  exists c', pool_step exec c c'.
Proof.
  intros Hok. revert i p. induction n as [|n IH]; intros i p Hi Hp (l & Hl & Hn);
    pose proof Hok as [Hth Hin]; destruct (Hth _ _ Hi) as (held & Hd & Hh);
    (destruct p as [a|B act k]; [done|]);
    (destruct (exec B {| o_error := None; o_order := [] |} i act (snd c)) as [[b s']|] eqn:He;
      [eexists; eexists _, i; unfold thread_step; by rewrite Hi, He|]);
    destruct (exec_blocked _ _ _ _ _ _ He Hd) as (j & l' & Hl' & Hb);
    pose proof (proj1 (Forall_forall _ _) Hb l (Hh l Hl)) as Hr; cbn in Hr.
  - destruct l', l; cbn in *; lia.
  - destruct (Hin _ _ Hl') as [q Hq]. apply (IH j q Hq); [by eapply holder_unfinished|].
    exists l'. split; [done|lia].
Qed.

Lemma pool_progress c : pool_ok c -> Forall finished (fst c) \/ exists c', pool_step exec c c'.
Proof.
  intros Hok. destruct (decide (Forall finished (fst c))) as [|Hn]; [by left|right].
  apply not_Forall_Exists, Exists_exists in Hn as (p & Hin & Hp); [|apply _].
  apply list_elem_of_lookup in Hin as [i Hi]. pose proof Hok as [Hth Hheld].
  destruct (Hth _ _ Hi) as (held & Hd & _). destruct p as [a|B act k]; [by destruct Hp|].
  destruct (exec B {| o_error := None; o_order := [] |} i act (snd c)) as [[b s']|] eqn:He.
  { eexists; eexists _, i; unfold thread_step; by rewrite Hi, He. }
  destruct (exec_blocked _ _ _ _ _ _ He Hd) as (j & l & Hl & _). destruct (Hheld _ _ Hl) as [q Hq].
  apply (unfinished_step 3 c j q Hok Hq); [by eapply holder_unfinished|]. exists l. split; [done|lia].
Qed.

(** ** The programs keep the discipline *)

Lemma release_other l held : l ∉ held -> release l held = held.
Proof.
  induction held as [|l' held IH]; [done|]. intros [Hne Hn]%not_elem_of_cons.
  unfold release. rewrite filter_cons_True by done. f_equal. by apply IH.
Qed.

Lemma release_own l held : l ∉ held -> release l (l :: held) = held.
Proof.
  intros Hn. unfold release. rewrite filter_cons_False by naive_solver. by apply release_other.
Qed.

Lemma below_not_in n l held : below n held -> (n <= rank l)%nat -> l ∉ held.
Proof. intros Hb Hr Hin. pose proof (proj1 (Forall_forall _ _) Hb l Hin). cbn in *. lia. Qed.

Lemma below_S n held : below n held -> below (S n) held.
Proof. intros Hb. eapply Forall_impl; [exact Hb|]. cbn. lia. Qed.

Lemma below_cons n l held : (rank l < n)%nat -> below n held -> below n (l :: held).
Proof. by constructor. Qed.
End Discipline.

#[export] Hint Resolve below_S below_cons : auditedb.

(** A program that leaves what is held as it was. *)
Definition balanced {D A} (held : list lock) (p : prog (@action D) A) : Prop :=
  disciplined held p (fun _ h => h = held).

Lemma disciplined_act {D A B} h (a : @action D A) (f : A -> prog action B) Q :
  lock_effect a h (fun b h => disciplined h (f b) Q) -> disciplined h (perform a ≫= f) Q.
Proof. done. Qed.

(** Run one action. *)
Ltac act := apply disciplined_act; cbn [lock_effect].

Section Programs.
Context {D : Type} (max_entries : nat) (held : list lock) (Hheld : below 2 held).

Lemma balanced_bind {A B} (p : prog (@action D) A) (f : A -> prog action B) Q :
  balanced held p -> (forall a, disciplined held (f a) Q) -> disciplined held (p ≫= f) Q.
Proof.
  intros Hp Hf. apply disciplined_bind. eapply disciplined_mono; [|exact Hp].
  intros a h ->. apply Hf.
Qed.

Lemma balanced_if {A} (b : bool) (p q : prog (@action D) A) :
  balanced held p -> balanced held q -> balanced held (if b then p else q).
Proof. by destruct b. Qed.

Lemma release_write arc : release (LWrite arc) (LWrite arc :: held) = held.
Proof using Hheld. apply release_own. eapply below_not_in; [done|cbn; lia]. Qed.

Lemma release_read arc : release (LRead arc) (LRead arc :: held) = held.
Proof using Hheld. apply release_own. eapply below_not_in; [done|cbn; lia]. Qed.

Lemma release_mutex arc :
  release (LMutex arc) (LMutex arc :: LRead arc :: held) = LRead arc :: held.
Proof using Hheld.
  apply release_own. eapply (below_not_in 3); [|cbn; lia]. apply below_cons; [cbn; lia|by apply below_S].
Qed.

(** Run the actions of a program. *)
Ltac run :=
  repeat first
    [ progress intros | split | act
    | progress rewrite ?release_write, ?release_read, ?release_mutex
    | progress cbn [negb disciplined perform lock_effect mret prog_ret] | solve [auto with auditedb] ].

Lemma balanced_try_evict_ready_slot w arc : balanced held (@try_evict_ready_slot D w arc).
Proof using Hheld.
  unfold balanced, try_evict_ready_slot. run. destruct (negb (is_ready b)); run.
Qed.

Lemma balanced_evict_first l : balanced held (@evict_first D l).
Proof using Hheld.
  induction l as [|[[w arc] tick] l IH]; [done|]. cbn [evict_first].
  apply balanced_bind; [apply balanced_try_evict_ready_slot|]. intros [|]; [by run|exact IH].
Qed.

Lemma balanced_try_evict_oldest_sample w : balanced held (@try_evict_oldest_sample D w).
Proof using Hheld.
  unfold balanced, try_evict_oldest_sample. act. intros [|n]; [done|]. cbn [Nat.eqb]. act. intros cursor.
  act. intros entries. destruct (_ && _); [|apply balanced_evict_first].
  apply disciplined_bind. run. apply balanced_evict_first.
Qed.

Lemma balanced_trim budget w : balanced held (@trim_loop D max_entries budget w).
Proof using Hheld.
  induction budget as [|budget IH]; [done|]. cbn [trim_loop]. unfold balanced. act. intros n.
  destruct (n <=? max_entries)%nat; [done|].
  apply balanced_bind; [apply balanced_try_evict_oldest_sample|]. intros [|]; [exact IH|done].
Qed.

Section Reads.
Context {R : Type}.

Lemma balanced_invoke_via_slot arc (f : D -> result sqlite_error R) : balanced held (invoke_via_slot arc f).
Proof using Hheld.
  unfold balanced, invoke_via_slot. act. split; [done|]. act. intros [|conn| |]; run.
  destruct b; run.
Qed.

(** The owner's guard is released on every path of the open. *)
Lemma balanced_open_slot arc w :
  disciplined (LWrite arc :: held) (@open_slot D R arc w) (fun _ h => h = held).
Proof using Hheld.
  unfold open_slot. act. intros [|conn| |]; run. destruct b; run. destruct (bool_decide _); run.
Qed.

Lemma balanced_drain_own_slot w arc : balanced held (@drain_own_slot D w arc).
Proof using Hheld. unfold balanced, drain_own_slot. run. Qed.

Lemma balanced_best_effort w : balanced held (@best_effort_trim_over_cap D max_entries w).
Proof using Hheld. apply balanced_trim. Qed.

Lemma balanced_lazy_init w : balanced held (@lazy_init D R w).
Proof using Hheld.
  unfold balanced, lazy_init. act. intros arc. split; [done|]. cbn [fst snd].
  apply disciplined_bind. eapply disciplined_mono; [|apply balanced_open_slot]. by intros init h ->.
Qed.

Lemma balanced_transient budget w (f : D -> result sqlite_error R) :
  balanced held (transient_loop max_entries budget w f).
Proof using Hheld.
  induction budget as [|budget IH]; [done|]. unfold balanced. cbn [transient_loop].
  act. intros [arc|].
  - act. intros _. apply balanced_bind; [apply balanced_invoke_via_slot|].
    intros [[v| |]|e]; [|exact IH|act; intros _; exact IH|done].
    apply balanced_bind; [apply balanced_best_effort|done].
  - apply balanced_bind; [apply balanced_lazy_init|]. intros [[arc own] [_|r]]; [|done]. act. intros _.
    apply balanced_bind; [apply balanced_invoke_via_slot|].
    intros [[v| |]|e]; [|exact IH|act; intros _; exact IH|done].
    apply balanced_bind; [destruct own; [apply balanced_drain_own_slot|done]|]. intros _.
    apply balanced_bind; [apply balanced_best_effort|done].
Qed.

Lemma balanced_invoke_transient w (f : D -> result sqlite_error R) :
  balanced held (invoke_transient max_entries w f).
Proof using Hheld. apply balanced_transient. Qed.

Lemma balanced_tracked budget miss capped w (f : D -> result sqlite_error R) :
  balanced held (tracked_loop max_entries budget miss capped w f).
Proof using Hheld.
  revert miss capped. induction budget as [|budget IH]; intros miss capped; [apply balanced_invoke_transient|].
  unfold balanced. cbn [tracked_loop]. act. intros [arc|].
  - act. intros _. apply balanced_bind; [apply balanced_invoke_via_slot|].
    intros [[v| |]|e]; [|apply IH|act; intros _; apply IH|done].
    apply balanced_bind; [apply balanced_best_effort|]. intros _. by run.
  - apply balanced_bind; [by destruct miss; run|]. intros _. act. intros len.
    destruct (max_entries <=? len)%nat.
    + apply balanced_bind; [by destruct capped; run|]. intros _.
      apply balanced_bind; [apply balanced_try_evict_oldest_sample|].
      intros evicted. apply balanced_if; [apply IH|apply balanced_invoke_transient].
    + act. intros present. destruct present as [[]|]; [|done|];
        (apply balanced_bind; [apply balanced_lazy_init|]);
        (intros [[arc own] [_|r]]; [|done]); act; intros _;
        (apply balanced_bind; [apply balanced_invoke_via_slot|]);
        (intros [[v| |]|?]; [|apply IH|act; intros _; apply IH|done]);
        (apply balanced_bind; [apply balanced_best_effort|done]).
Qed.

Lemma balanced_install w : balanced held (@install_tombstone_blocking D w).
Proof using Hheld. unfold balanced, install_tombstone_blocking. act. intros [prev|]; run. Qed.

Lemma balanced_drain_slots l : balanced held (@drain_slots D l).
Proof using Hheld. induction l as [|[[w arc] tick] l IH]; [done|]. unfold balanced. cbn [drain_slots]. run. Qed.
End Reads.
End Programs.

(** ** Any pool of clients *)

Section Clients.
Context {D R : Type} (max_entries : nat).
Notation outcome := (result sqlite_error (option R)).

Inductive client : prog (@action D) outcome -> Prop :=
| client_read w f : client (read_client max_entries w f)
| client_delete w f : client (delete_client max_entries w f)
| client_write w d : client (write_client w d)
| client_drain : client (_ ← drain_all_blocking; mret (Ok None)).

Lemma client_disciplined p : client p -> balanced [] p.
Proof.
  assert (forall w, below 2 [LStream; LWorld w]) as Hw by (intros w; repeat constructor).
  assert (forall w, release (LWorld w) [LWorld w] = []) as Hrel
    by (intros w; by apply release_own, not_elem_of_nil).
  assert (forall w, release LStream [LStream; LWorld w] = [LWorld w]) as Hst
    by (intros w; apply release_own; set_solver).
  assert (below 2 []) as Hn by constructor.
  intros [w f|w f|w d|].
  - by apply balanced_tracked.
  - unfold balanced, delete_client. act. split; [constructor|]. act. split; [repeat constructor|].
    apply balanced_bind; [by apply balanced_tracked|].
    intros [[v|]|e]; [|act; rewrite Hst; act; by rewrite Hrel..].
    apply balanced_bind; [by apply balanced_install|]. intros _. act. intros _. act. intros _.
    act. rewrite Hst. act. by rewrite Hrel.
  - unfold balanced, write_client. act. split; [constructor|]. act. intros _. act. intros _. act. by rewrite Hrel.
  - apply balanced_bind; [|done]. unfold balanced, drain_all_blocking. act. intros l. by apply balanced_drain_slots.
Qed.

Lemma pool_ok_start ps s :
  Forall client ps -> (forall t l, ~ holds s t l) -> pool_ok (ps, s).
Proof.
  intros Hps Hfree. split; [|intros i l Hl; by apply Hfree in Hl].
  intros i p Hi. exists []. split; [|intros l Hl; by apply Hfree in Hl].
  apply client_disciplined. by eapply Forall_lookup_1.
Qed.
End Clients.
