(* ===== verification/ReadCacheSafe.v ===== *)
(** * No connection is open when a delete removes a file

    A rely-guarantee logic for the threads of the read cache.  Each thread
    guarantees what it may do to slots and to the map; each assertion of a
    thread is stable under the guarantees of the others.  Readers and deletes
    keep the cache's invariant, and a delete reaches the removal only when no
    slot of its world has an open connection. *)

From S2P Require Import Prelude.
From S2P Require Import Db.
From S2P Require Import Conc.
From S2P Require Import ReadCache.

Section Safety.
Context {D : Type}.
Notation action := (@action D).
Notation Shared := (@Shared D).

(** ** The invariant *)

Definition live (st : SlotState) : Prop :=
  match st with Opening | Ready _ => True | Evicted | Tombstone => False end.

#[local] Instance live_dec st : Decision (live st).
Proof. destruct st; cbn; apply _. Defined.

Definition slot_sat (s : Shared) (arc : nat) (P : ReadSlot -> Prop) : Prop :=
  exists sl, slots s !! arc = Some sl /\ P sl.

Record cache_inv (s : Shared) : Prop := {
  ci_entries : forall w arc, read_conns s !! w = Some arc -> slot_sat s arc (fun sl => slot_world sl = w);
  ci_fds : forall arc, arc ∈ fds s -> slot_sat s arc (fun sl => live (inner sl));
  ci_live : forall arc sl, slots s !! arc = Some sl -> live (inner sl) ->
    read_conns s !! slot_world sl = Some arc \/ is_Some (world_locks s !! slot_world sl);
  ci_tombstones : forall arc sl, slots s !! arc = Some sl -> opener sl = None -> inner sl = Tombstone;
}.

(** ** Guarantees *)

(** What a step of thread [t] does to a slot. *)
Record evolves (t : nat) (sl sl' : ReadSlot) : Prop := {
  ev_world : slot_world sl' = slot_world sl;
  ev_opener : opener sl' = opener sl;
  ev_guarded : forall t', t' <> t -> writer sl = Some t' -> writer sl' = Some t' /\ inner sl' = inner sl;
  ev_dead : live (inner sl') -> live (inner sl);
  ev_tombstone : opener sl = None -> inner sl' = inner sl;
}.

(** What a step of thread [t] does; only a privileged thread takes and releases
    world locks and replaces entries, and these only under the world's lock. *)
Record guar (privileged : bool) (t : nat) (s s' : Shared) : Prop := {
  gu_slots : forall arc sl, slots s !! arc = Some sl -> slot_sat s' arc (evolves t sl);
  gu_new : forall arc sl', slots s' !! arc = Some sl' -> slots s !! arc = None -> live (inner sl') ->
    read_conns s !! slot_world sl' = None /\ read_conns s' !! slot_world sl' = Some arc;
  gu_conns : forall w, read_conns s' !! w = read_conns s !! w
    \/ (privileged = true /\ world_locks s !! w = Some t) \/ read_conns s !! w = None
    \/ exists arc, read_conns s !! w = Some arc
         /\ slot_sat s arc (fun sl => ~ live (inner sl) /\ opener sl <> None);
  gu_locks : forall w t', t' <> t \/ privileged = false ->
    world_locks s !! w = Some t' -> world_locks s' !! w = Some t';
}.

Definition stable (t : nat) (P : Shared -> Prop) : Prop :=
  forall t' s s', t' <> t -> cache_inv s -> guar true t' s s' -> P s -> P s'.

Lemma guar_weaken b t s s' : guar false t s s' -> guar b t s s'.
Proof. intros []. split; [done|done|naive_solver|naive_solver]. Qed.

(** *** Stable assertions *)

Lemma stable_and t P Q : stable t P -> stable t Q -> stable t (fun s => P s /\ Q s).
Proof. intros HP HQ t' s s' Hne Hi Hg [Hp Hq]. split; [by eapply HP|by eapply HQ]. Qed.

Lemma stable_pure t (F : Prop) : stable t (fun _ => F).
Proof. by intros t' s s' _ _ _. Qed.

(** A fact about a slot that the steps of others keep. *)
Lemma stable_slot t arc (P : ReadSlot -> Prop) :
  (forall t' sl sl', t' <> t -> evolves t' sl sl' -> P sl -> P sl') ->
  stable t (fun s => slot_sat s arc P).
Proof.
  intros HP t' s s' Hne _ Hg (sl & Hsl & Hp). destruct (gu_slots _ _ _ _ Hg _ _ Hsl) as (sl' & Hsl' & Hev).
  exists sl'. split; [done|]. by eapply HP.
Qed.

Definition valid_arc (arc : nat) (s : Shared) : Prop := slot_sat s arc (fun _ => True).
Definition dead_arc (arc : nat) (s : Shared) : Prop :=
  slot_sat s arc (fun sl => ~ live (inner sl) /\ opener sl <> None).
(** Thread [t] holds the write guard; others leave the state alone. *)
Definition guarded (t arc : nat) (P : option nat -> SlotState -> Prop) (s : Shared) : Prop :=
  slot_sat s arc (fun sl => writer sl = Some t /\ P (opener sl) (inner sl)).
Definition owned (t arc : nat) (s : Shared) : Prop := slot_sat s arc (fun sl => opener sl = Some t).

Lemma stable_valid t arc : stable t (valid_arc arc).
Proof. by apply stable_slot. Qed.

Lemma stable_dead t arc : stable t (dead_arc arc).
Proof. apply stable_slot. intros t' sl sl' _ [] [Hd Ho]. split; [auto|congruence]. Qed.

Lemma stable_guarded t arc P : stable t (guarded t arc P).
Proof.
  apply stable_slot. intros t' sl sl' Hne [] [Hw Hp]. destruct (ev_guarded0 t) as [Hw' Hin]; [done|done|].
  by rewrite Hin, ev_opener0.
Qed.

Lemma stable_owned t arc : stable t (owned t arc).
Proof. apply stable_slot. intros t' sl sl' _ [] Ho. congruence. Qed.

(** *** A delete's assertions about its world *)

(** It holds the lock, and the only live slot is the entry. *)
Definition tracked_world (t : nat) (w : string) (s : Shared) : Prop :=
  world_locks s !! w = Some t
  /\ forall arc sl, slots s !! arc = Some sl -> slot_world sl = w -> live (inner sl) ->
       read_conns s !! w = Some arc.

(** A tombstone is the entry; the only live slot is the one it replaced. *)
Definition draining_world (t : nat) (w : string) (prev : option nat) (s : Shared) : Prop :=
  world_locks s !! w = Some t
  /\ (exists arc, read_conns s !! w = Some arc /\ slot_sat s arc (fun sl => opener sl = None))
  /\ forall arc sl, slots s !! arc = Some sl -> slot_world sl = w -> live (inner sl) -> prev = Some arc.

Lemma old_or_new s s' t b arc sl' :
  guar b t s s' -> slots s' !! arc = Some sl' -> live (inner sl') ->
  (exists sl, slots s !! arc = Some sl /\ live (inner sl) /\ slot_world sl = slot_world sl')
  \/ read_conns s !! slot_world sl' = None /\ read_conns s' !! slot_world sl' = Some arc.
Proof.
  intros Hg Hsl' Hl. destruct (slots s !! arc) as [sl|] eqn:E.
  - left. exists sl. destruct (gu_slots _ _ _ _ Hg _ _ E) as (sl2 & H2 & []). simplify_eq. auto.
  - right. by eapply gu_new.
Qed.

Lemma live_entry_kept s s' t b w arc sl :
  guar b t s s' -> (b = true -> world_locks s !! w <> Some t) ->
  read_conns s !! w = Some arc -> slots s !! arc = Some sl -> live (inner sl) ->
  read_conns s' !! w = Some arc.
Proof.
  intros Hg Hb Hr Hsl Hl. destruct (gu_conns _ _ _ _ Hg w) as [->|[[Hp Hw]|[?|(a & Ha & sl2 & H2 & Hd & _)]]];
    [done|by destruct (Hb Hp)|congruence|]. simplify_eq. done.
Qed.

Lemma tracked_world_kept b t' t w s s' :
  (t' <> t \/ b = false) -> guar b t' s s' -> tracked_world t w s -> tracked_world t w s'.
Proof.
  intros Hor Hg [Hw Hl]. split; [eapply gu_locks; [done| |done]; destruct Hor; auto|].
  intros arc sl' Hsl' <- Hlive. destruct (old_or_new _ _ _ _ _ _ Hg Hsl' Hlive) as [(sl & Hsl & Hls & Hws)|[_ ?]]; [|done].
  eapply live_entry_kept; [done| |by eapply Hl|done|done]. intros ->. destruct Hor; congruence.
Qed.

Lemma stable_tracked t w : stable t (tracked_world t w).
Proof. intros t' s s' Hne _ Hg. eapply tracked_world_kept; [by left|done]. Qed.

Lemma stable_draining t w prev : stable t (draining_world t w prev).
Proof.
  intros t' s s' Hne _ Hg (Hw & (a & Ha & Ht) & Hl). split_and!.
  - eapply gu_locks; [done|by left|done].
  - exists a. split.
    + destruct (gu_conns _ _ _ _ Hg w) as [->|[[_ ?]|[?|(a' & Ha' & sl2 & H2 & _ & Hn)]]]; [done|congruence|congruence|].
      simplify_eq. destruct Ht as (sl & Hsl & Ho). congruence.
    + destruct Ht as (sl & Hsl & Ho). destruct (gu_slots _ _ _ _ Hg _ _ Hsl) as (sl' & Hsl' & []).
      exists sl'. split; [done|congruence].
  - intros arc sl' Hsl' <- Hlive.
    destruct (old_or_new _ _ _ _ _ _ Hg Hsl' Hlive) as [(sl & Hsl & Hls & Hws)|[? _]]; [by eapply Hl|congruence].
Qed.

(** ** Steps that keep the invariant *)

(** The part of a slot the protocol is about. *)
Definition core (sl : ReadSlot) : string * option nat * SlotState * option nat :=
  (slot_world sl, opener sl, inner sl, writer sl).

Record quiet (s s' : Shared) : Prop := {
  q_slots : forall arc, core <$> slots s' !! arc = core <$> slots s !! arc;
  q_conns : read_conns s' = read_conns s;
  q_fds : fds s' = fds s;
  q_locks : world_locks s' = world_locks s;
}.

Lemma quiet_slot s s' arc sl : quiet s s' -> slots s !! arc = Some sl ->
  exists sl', slots s' !! arc = Some sl' /\ core sl' = core sl.
Proof.
  intros Hq Hsl. pose proof (q_slots _ _ Hq arc) as Hc. rewrite Hsl in Hc.
  destruct (slots s' !! arc) as [sl'|]; [|done]. injection Hc as ? ? ? ?. exists sl'. split; [done|].
  unfold core. congruence.
Qed.

Lemma quiet_sym s s' : quiet s s' -> quiet s' s.
Proof. intros []. by split. Qed.

Lemma quiet_guar s s' b t : quiet s s' -> guar b t s s'.
Proof.
  intros Hq. split.
  - intros arc sl Hsl. destruct (quiet_slot _ _ _ _ Hq Hsl) as (sl' & Hsl' & [= Hw Ho Hi Hwr]).
    exists sl'. split; [done|]. split; try congruence. intros t' _ ?. split; congruence.
  - intros arc sl' Hsl' Hn. destruct (quiet_slot _ _ _ _ (quiet_sym _ _ Hq) Hsl') as (sl & Hsl & _). congruence.
  - intros w. left. by rewrite (q_conns _ _ Hq).
  - intros w t' _. by rewrite (q_locks _ _ Hq).
Qed.

Lemma quiet_inv s s' : quiet s s' -> cache_inv s -> cache_inv s'.
Proof.
  intros Hq []. split.
  - intros w arc. rewrite (q_conns _ _ Hq). intros Ha. destruct (ci_entries0 _ _ Ha) as (sl & Hsl & Hw).
    destruct (quiet_slot _ _ _ _ Hq Hsl) as (sl' & Hsl' & [= Hw' _ _ _]). exists sl'. split; congruence.
  - intros arc. rewrite (q_fds _ _ Hq). intros Ha. destruct (ci_fds0 _ Ha) as (sl & Hsl & Hw).
    destruct (quiet_slot _ _ _ _ Hq Hsl) as (sl' & Hsl' & [= _ _ Hi _]). exists sl'. split; congruence.
  - intros arc sl' Hsl'. destruct (quiet_slot _ _ _ _ (quiet_sym _ _ Hq) Hsl') as (sl & Hsl & [= Hw _ Hi _]).
    rewrite (q_conns _ _ Hq), (q_locks _ _ Hq), <- Hw, <- Hi. by apply ci_live0.
  - intros arc sl' Hsl'. destruct (quiet_slot _ _ _ _ (quiet_sym _ _ Hq) Hsl') as (sl & Hsl & [= _ Ho Hi _]).
    rewrite <- Ho, <- Hi. by eapply ci_tombstones0.
Qed.

Definition step_ok (b : bool) (t : nat) (s s' : Shared) : Prop := cache_inv s' /\ guar b t s s'.

(** A change of one slot. *)
Lemma slot_step t b s s' arc f sl :
  cache_inv s -> slots s !! arc = Some sl -> slots s' = alter f arc (slots s) ->
  read_conns s' = read_conns s -> world_locks s' = world_locks s ->
  (forall a, a ∈ fds s' -> a <> arc -> a ∈ fds s) ->
  (arc ∈ fds s' -> live (inner (f sl))) -> evolves t sl (f sl) -> step_ok b t s s'.
Proof.
  intros [] Hsl Hs Hc Hl Hf Ha Hev.
  assert (slots s' !! arc = Some (f sl)) as Hsl' by (by rewrite Hs, list_lookup_alter_eq, Hsl).
  assert (forall a, a <> arc -> slots s' !! a = slots s !! a) as Hother
    by (intros a Hne; by rewrite Hs, list_lookup_alter_ne).
  assert (forall a (P : ReadSlot -> Prop), slot_sat s a P -> (P sl -> P (f sl)) -> slot_sat s' a P) as Hkeep.
  { intros a P (sl0 & H0 & HP) Himp. destruct (decide (a = arc)) as [->|Hne].
    - exists (f sl). simplify_eq. auto.
    - exists sl0. by rewrite Hother. }
  split; split.
  - intros w a. rewrite Hc. intros Hw. apply Hkeep; [auto|]. by rewrite (ev_world _ _ _ Hev).
  - intros a Hin. destruct (decide (a = arc)) as [->|Hne]; [exists (f sl); auto|].
    destruct (ci_fds0 a (Hf a Hin Hne)) as (sl0 & H0 & HP). exists sl0. by rewrite Hother.
  - intros a sl0 H0 Hlive. rewrite Hc, Hl. destruct (decide (a = arc)) as [->|Hne].
    + simplify_eq. rewrite (ev_world _ _ _ Hev). apply (ci_live0 arc sl); [done|by eapply ev_dead].
    + rewrite Hother in H0 by done. by apply ci_live0.
  - intros a sl0 H0 Hop. destruct (decide (a = arc)) as [->|Hne].
    + simplify_eq. rewrite (ev_opener _ _ _ Hev) in Hop. rewrite (ev_tombstone _ _ _ Hev Hop). by eapply ci_tombstones0.
    + rewrite Hother in H0 by done. by eapply ci_tombstones0.
  - intros a sl0 H0. destruct (decide (a = arc)) as [->|Hne]; [simplify_eq; by exists (f sl)|].
    exists sl0. rewrite Hother by done. split; [done|]. by split.
  - intros a sl0 H0 Hn. destruct (decide (a = arc)) as [->|Hne]; [congruence|]. rewrite Hother in H0 by done. congruence.
  - intros w. left. by rewrite Hc.
  - intros w t' _. by rewrite Hl.
Qed.

(** A new slot at the end of the list, entered for its world. *)
Definition entered (s : Shared) (w : string) (sl : ReadSlot) (s' : Shared) : Prop :=
  slots s' = slots s ++ [sl] /\ read_conns s' = <[w := length (slots s)]> (read_conns s)
  /\ world_locks s' = world_locks s /\ fds s' = fds s /\ slot_world sl = w
  /\ (opener sl = None -> inner sl = Tombstone).

Lemma entered_step t b s w sl s' :
  cache_inv s -> entered s w sl s' ->
  (live (inner sl) -> read_conns s !! w = None) ->
  (read_conns s !! w = None \/ b = true /\ world_locks s !! w = Some t) ->
  step_ok b t s s'.
Proof.
  intros [] (Hs & Hc & Hl & Hf & Hw & Ht) Hlive Hpriv.
  assert (slots s' !! length (slots s) = Some sl) as Hnew by (rewrite Hs; by apply list_lookup_middle).
  assert (forall a x, slots s !! a = Some x -> slots s' !! a = Some x) as Hold
    by (intros a x Hx; rewrite Hs; by apply lookup_app_l_Some).
  assert (forall a x, slots s' !! a = Some x -> slots s !! a = Some x \/ a = length (slots s) /\ x = sl) as Hinv.
  { intros a x. rewrite Hs. intros [?|[Hge Hx]]%lookup_app_Some; [by left|right].
    apply list_lookup_singleton_Some in Hx as [? ->]. split; [lia|done]. }
  split; split.
  - intros w' a. rewrite Hc. destruct (decide (w' = w)) as [->|Hne].
    + rewrite lookup_insert_eq. intros [= <-]. by exists sl.
    + rewrite lookup_insert_ne by done. intros Ha. destruct (ci_entries0 _ _ Ha) as (x & Hx & Hxw).
      exists x. auto.
  - intros a. rewrite Hf. intros Ha. destruct (ci_fds0 _ Ha) as (x & Hx & Hxl). exists x. auto.
  - intros a x Hx Hxl. rewrite Hc, Hl. destruct (Hinv _ _ Hx) as [Hx'|[-> ->]].
    + destruct (decide (slot_world x = w)) as [Hxw|Hne]; [|rewrite lookup_insert_ne by done; auto].
      destruct (ci_live0 _ _ Hx' Hxl) as [He|?]; [|by right]. rewrite Hxw in *.
      destruct Hpriv as [?|[_ ->]]; [congruence|right; by eexists].
    + left. rewrite Hw, lookup_insert_eq. done.
  - intros a x Hx. destruct (Hinv _ _ Hx) as [Hx'|[-> ->]]; [by eapply ci_tombstones0|done].
  - intros a x Hx. exists x. split; [auto|by split].
  - intros a x Hx Hn Hxl. destruct (Hinv _ _ Hx) as [?|[-> ->]]; [congruence|].
    rewrite Hw, Hc, lookup_insert_eq. auto.
  - intros w'. rewrite Hc. destruct (decide (w' = w)) as [->|Hne]; [|left; by rewrite lookup_insert_ne].
    destruct Hpriv as [?|?]; auto.
  - intros w' t' _. by rewrite Hl.
Qed.

(** An entry goes: of a dead slot, or by a delete with nothing live. *)
Lemma remove_step t b s s' w :
  cache_inv s -> slots s' = slots s -> read_conns s' = base.delete w (read_conns s) ->
  world_locks s' = world_locks s -> fds s' = fds s ->
  (b = true /\ world_locks s !! w = Some t
   \/ exists arc, read_conns s !! w = Some arc /\ dead_arc arc s) ->
  step_ok b t s s'.
Proof.
  intros [] Hs Hc Hl Hf Hor. split; split.
  - intros w' a. rewrite Hc. intros [Hne Ha]%lookup_delete_Some. unfold slot_sat. rewrite Hs. by apply ci_entries0.
  - intros a. rewrite Hf. unfold slot_sat. rewrite Hs. apply ci_fds0.
  - intros a sl. rewrite Hs, Hc, Hl. intros Hsl Hlive. destruct (ci_live0 _ _ Hsl Hlive) as [He|?]; [|by right].
    destruct (decide (w = slot_world sl)) as [->|Hne]; [|left; by rewrite lookup_delete_ne].
    destruct Hor as [[_ ->]|(arc & Ha & sl2 & H2 & Hd & _)]; [right; by eexists|]. congruence.
  - intros a sl. rewrite Hs. apply ci_tombstones0.
  - intros a sl Hsl. exists sl. rewrite Hs. split; [done|by split].
  - intros a sl. rewrite Hs. congruence.
  - intros w'. rewrite Hc. destruct (decide (w' = w)) as [->|Hne]; [|left; by rewrite lookup_delete_ne].
    destruct Hor as [[-> ?]|(arc & Ha & Hd)]; [by right; left|]. do 3 right. by exists arc.
  - intros w' t' _. by rewrite Hl.
Qed.

(** The owner opens its connection. *)
Lemma open_step t b s s' arc :
  cache_inv s -> slots s' = slots s -> read_conns s' = read_conns s -> world_locks s' = world_locks s ->
  fds s' = {[arc]} ∪ fds s -> slot_sat s arc (fun sl => live (inner sl)) -> step_ok b t s s'.
Proof.
  intros [] Hs Hc Hl Hf Hlive. split; split.
  - intros w' a. rewrite Hc. unfold slot_sat. rewrite Hs. apply ci_entries0.
  - intros a. rewrite Hf. unfold slot_sat. rewrite Hs. intros [->%elem_of_singleton|Ha]%elem_of_union; [done|by apply ci_fds0].
  - intros a sl. rewrite Hs, Hc, Hl. apply ci_live0.
  - intros a sl. rewrite Hs. apply ci_tombstones0.
  - intros a sl Hsl. exists sl. rewrite Hs. split; [done|by split].
  - intros a sl. rewrite Hs. congruence.
  - intros w'. left. by rewrite Hc.
  - intros w' t' _. by rewrite Hl.
Qed.

(** World locks, taken when free and released when nothing stray is live. *)
Lemma locks_step t s s' :
  cache_inv s -> slots s' = slots s -> read_conns s' = read_conns s -> fds s' = fds s ->
  (forall w t', t' <> t -> world_locks s !! w = Some t' -> world_locks s' !! w = Some t') ->
  (forall arc sl, slots s !! arc = Some sl -> live (inner sl) ->
     read_conns s !! slot_world sl = Some arc \/ is_Some (world_locks s' !! slot_world sl)) ->
  step_ok true t s s'.
Proof.
  intros [] Hs Hc Hf Hl Hlive. split; split.
  - intros w' a. rewrite Hc. unfold slot_sat. rewrite Hs. apply ci_entries0.
  - intros a. rewrite Hf. unfold slot_sat. rewrite Hs. apply ci_fds0.
  - intros a sl. rewrite Hs, Hc. apply Hlive.
  - intros a sl. rewrite Hs. apply ci_tombstones0.
  - intros a sl Hsl. exists sl. rewrite Hs. split; [done|by split].
  - intros a sl. rewrite Hs. congruence.
  - intros w'. left. by rewrite Hc.
  - intros w' t' [Hne|?]; [by apply Hl|done].
Qed.

(** ** The logic *)

(** No connection to a file of the world is open. *)
Definition no_open_fd (w : string) (s : Shared) : Prop :=
  forall arc, arc ∈ fds s -> ~ slot_sat s arc (fun sl => slot_world sl = w).

(** What must hold when an action runs. *)
Definition act_req {B} (a : action B) (s : Shared) : Prop :=
  match a with Unlink w => no_open_fd w s | _ => True end.

Fixpoint safe {A} (b : bool) (t : nat) (P : Shared -> Prop) (p : prog action A)
    (Q : A -> Shared -> Prop) : Prop :=
  match p with
  | Return a => forall s, cache_inv s -> P s -> Q a s
  | Act B act k => exists (P' : Shared -> Prop) (Post : B -> Shared -> Prop),
      (forall s, cache_inv s -> P s -> P' s) /\ stable t P'
      /\ (forall o s x s', cache_inv s -> P' s -> exec B o t act s = Some (x, s') ->
            act_req act s /\ step_ok b t s s' /\ Post x s')
      /\ forall x, safe b t (Post x) (k x) Q
  end.

Lemma safe_pre {A} b t (P P' : Shared -> Prop) (p : prog action A) Q :
  (forall s, cache_inv s -> P s -> P' s) -> safe b t P' p Q -> safe b t P p Q.
Proof.
  intros HP. destruct p as [a|B act k]; cbn; [auto|].
  intros (P2 & Post & H2 & Hst & Hstep & Hk). exists P2, Post. split_and!; auto.
Qed.

Lemma safe_mono {A} b b' t P (p : prog action A) (Q Q' : A -> Shared -> Prop) :
  (b = true -> b' = true) -> (forall a s, cache_inv s -> Q a s -> Q' a s) ->
  safe b t P p Q -> safe b' t P p Q'.
Proof.
  intros Hb HQ. revert P. induction p as [a|B act k IH]; intros P; cbn; [auto|].
  intros (P2 & Post & H2 & Hst & Hstep & Hk). exists P2, Post. split_and!; [done|done| |auto].
  intros o s x s' Hi Hp He. destruct (Hstep o s x s' Hi Hp He) as (Hr & [Hi' Hg] & Hpost).
  split; [done|]. split; [|done]. split; [done|]. destruct b; [by rewrite Hb|by apply guar_weaken].
Qed.

Lemma safe_bind {A B} b t P (p : prog action A) (f : A -> prog action B) Mid Q :
  safe b t P p Mid -> (forall a, safe b t (Mid a) (f a) Q) -> safe b t P (p ≫= f) Q.
Proof.
  intros Hp Hf. revert P Hp. induction p as [a|C act k IH]; intros P; cbn.
  - intros Ha. eapply safe_pre; [|apply Hf]. auto.
  - intros (P2 & Post & H2 & Hst & Hstep & Hk). exists P2, Post. split_and!; [done|done|done|].
    intros x. by apply IH.
Qed.

(** What the unprivileged steps of the thread itself keep, too. *)
Definition kept (t : nat) (F : Shared -> Prop) : Prop :=
  stable t F /\ forall s s', cache_inv s -> guar false t s s' -> F s -> F s'.

Lemma safe_frame {A} t P F (p : prog action A) Q :
  kept t F -> safe false t P p Q ->
  safe false t (fun s => P s /\ F s) p (fun a s => Q a s /\ F s).
Proof.
  intros [HF HFo]. revert P. induction p as [a|B act k IH]; intros P; cbn.
  - intros Ha s Hi [Hp Hf]. auto.
  - intros (P2 & Post & H2 & Hst & Hstep & Hk).
    exists (fun s => P2 s /\ F s), (fun x s => Post x s /\ F s). split_and!.
    + intros s Hi [Hp Hf]. auto.
    + by apply stable_and.
    + intros o s x s' Hi [Hp Hf] He. destruct (Hstep o s x s' Hi Hp He) as (Hr & [Hi' Hg] & Hpost).
      split; [done|]. split; [by split|]. split; [done|]. by apply (HFo s).
    + auto.
Qed.

Lemma safe_ret {A} b t P (a : A) (Q : A -> Shared -> Prop) :
  (forall s, cache_inv s -> P s -> Q a s) -> safe b t P (mret a) Q.
Proof. done. Qed.

Lemma safe_act {A B} b t P (act : action A) (k : A -> prog action B) Q Post :
  stable t P ->
  (forall o s x s', cache_inv s -> P s -> exec A o t act s = Some (x, s') ->
     act_req act s /\ step_ok b t s s' /\ Post x s') ->
  (forall x, safe b t (Post x) (k x) Q) -> safe b t P (perform act ≫= k) Q.
Proof. intros HP Hs Hk. by exists P, Post. Qed.

(** *** Actions that leave the protocol alone *)

Definition quiet_act {B} (a : action B) : bool :=
  match a with
  | LockStream | UnlockStream | Get _ | Len | Iter | NextCursor | Touch _ | LockRead _ | UnlockRead _ | Peek _ | LockMutex _
  | UnlockMutex _ | Bump _ | TryExists _ | VerifySchema _ | Query _ => true
  | _ => false
  end.

Lemma quiet_on_slot s arc f :
  (forall sl, core (f sl) = core sl) -> quiet s (on_slot arc f s).
Proof.
  intros Hf. split; try done. intros a. cbn. destruct (decide (a = arc)) as [->|Hne].
  - rewrite list_lookup_alter_eq. destruct (slots s !! arc); cbn; [by rewrite Hf|done].
  - by rewrite list_lookup_alter_ne.
Qed.

Lemma quiet_refl s : quiet s s.
Proof. by split. Qed.

Lemma quiet_exec {B} o t (a : action B) s x s' :
  quiet_act a = true -> exec B o t a s = Some (x, s') -> quiet s s' /\ act_req a s.
Proof.
  intros Ha He. destruct a; try discriminate Ha; cbn in He; (split; [|done]);
    repeat case_match; try discriminate He; injection He as <- <-;
    first [apply quiet_refl | by apply quiet_on_slot | by split | idtac].
  destruct (quiet_on_slot s arc (set_access (next_access_tick s))) as []; [done|]. by split.
Qed.

Lemma quiet_kept t s s' P : stable t P -> cache_inv s -> quiet s s' -> P s -> P s'.
Proof. intros HP Hi Hq. apply (HP (S t) s s'); [lia|done|by apply quiet_guar]. Qed.

(** The result of a quiet action may tell something of the state. *)
Lemma safe_quiet {A B} b t P (act : action A) (I : A -> Shared -> Prop) (k : A -> prog action B) Q :
  quiet_act act = true -> stable t P ->
  (forall o s x s', cache_inv s -> P s -> exec A o t act s = Some (x, s') -> quiet s s' -> I x s') ->
  (forall x, safe b t (fun s => P s /\ I x s) (k x) Q) -> safe b t P (perform act ≫= k) Q.
Proof.
  intros Ha HP HI Hk. apply (safe_act _ _ _ _ _ _ (fun x s => P s /\ I x s)); [done| |done].
  intros o s x s' Hi Hp He. destruct (quiet_exec _ _ _ _ _ _ Ha He) as [Hq Hr]. split; [done|]. split; [|split].
  - split; [by eapply quiet_inv|by apply quiet_guar].
  - by eapply quiet_kept.
  - by eapply HI.
Qed.

Lemma safe_skip {A B} b t P (act : action A) (k : A -> prog action B) Q :
  quiet_act act = true -> stable t P -> (forall x, safe b t P (k x) Q) ->
  safe b t P (perform act ≫= k) Q.
Proof.
  intros Ha HP Hk. apply (safe_quiet _ _ _ _ (fun _ _ => True)); [done|done|done|].
  intros x. eapply safe_pre; [|apply Hk]. by intros s _ [? _].
Qed.
End Safety.
