(* ===== verification/ReadCacheReads.v ===== *)
(** * Readers and deletes keep the cache's invariant

    Every program of the read cache is run through the logic of
    [ReadCacheSafe.v]. *)

From S2P Require Import Prelude.
From S2P Require Import Db.
From S2P Require Import Conc.
From S2P Require Import ReadCache.
From S2P Require Import ReadCacheSafe.

Create HintDb rcache.
#[export] Hint Resolve stable_and stable_pure stable_valid stable_dead stable_guarded stable_owned
  stable_tracked stable_draining : rcache.

Section Programs.
Context {D : Type} (max_entries : nat) (t : nat).
Notation action := (@action D).
Notation Shared := (@Shared D).

Lemma valid_of_guarded arc P (s : Shared) : guarded t arc P s -> valid_arc arc s.
Proof. intros (sl & Hsl & _). by exists sl. Qed.

Lemma valid_of_dead arc (s : Shared) : dead_arc arc s -> valid_arc arc s.
Proof. intros (sl & Hsl & _). by exists sl. Qed.

Lemma valid_of_owned arc (s : Shared) : owned t arc s -> valid_arc arc s.
Proof. intros (sl & Hsl & _). by exists sl. Qed.

Lemma slot_at_valid (s : Shared) arc sl : slots s !! arc = Some sl -> slot_at s arc = sl.
Proof. intros Hsl. unfold slot_at. by rewrite Hsl. Qed.

(** A free guard is taken, on a slot that exists. *)
Lemma lock_write_step b (s : Shared) arc :
  cache_inv s -> valid_arc arc s -> free_to_write (slot_at s arc) = true ->
  step_ok b t s (on_slot arc (set_writer (Some t)) s)
  /\ guarded t arc (fun _ _ => True) (on_slot arc (set_writer (Some t)) s)
  /\ (owned t arc s -> guarded t arc (fun o _ => o = Some t) (on_slot arc (set_writer (Some t)) s)).
Proof.
  intros Hi (sl & Hsl & _) Hfree. rewrite (slot_at_valid _ _ _ Hsl) in Hfree. unfold free_to_write in Hfree.
  apply andb_prop in Hfree as [Hw _]. apply bool_decide_eq_true in Hw.
  assert (slots (on_slot arc (set_writer (Some t)) s) !! arc = Some (set_writer (Some t) sl)) as Hsl'
    by (cbn; by rewrite list_lookup_alter_eq, Hsl).
  split_and!.
  - eapply (slot_step t b s _ arc (set_writer (Some t)) sl); try done.
    + intros Ha. destruct (ci_fds _ Hi _ Ha) as (sl2 & H2 & Hl). by simplify_eq.
    + split; try done. intros t' _ ?. congruence.
  - by eexists.
  - intros (sl2 & H2 & Ho). simplify_eq. by eexists.
Qed.

(** The holder of the guard gives it back, or changes the state. *)
Lemma unlock_write_step b (s : Shared) arc P :
  cache_inv s -> guarded t arc P s ->
  step_ok b t s (on_slot arc (set_writer None) s)
  /\ slot_sat (on_slot arc (set_writer None) s) arc (fun sl => P (opener sl) (inner sl)).
Proof.
  intros Hi (sl & Hsl & Hw & HP). split.
  - eapply (slot_step t b s _ arc (set_writer None) sl); try done.
    + intros Ha. destruct (ci_fds _ Hi _ Ha) as (sl2 & H2 & Hl). by simplify_eq.
    + split; try done. intros t' Hne ?. congruence.
  - exists (set_writer None sl). split; [|done]. cbn. by rewrite list_lookup_alter_eq, Hsl.
Qed.

Lemma set_state_step b (s : Shared) arc st (P : option nat -> SlotState -> Prop) :
  cache_inv s -> guarded t arc P s ->
  (forall o i, P o i -> (o = None -> i = Tombstone) -> (live st -> live i) /\ (o = None -> st = i)) ->
  step_ok b t s (set_state arc st s)
  /\ guarded t arc (fun o i => i = st /\ exists i0, P o i0) (set_state arc st s).
Proof.
  intros Hi (sl & Hsl & Hw & HP) Himp.
  destruct (Himp _ _ HP (ci_tombstones _ Hi _ _ Hsl)) as [Hlive Hnone]. split.
  - eapply (slot_step t b s _ arc (set_inner st) sl); try done; cbn [fds set_state set_fds on_slot set_slots].
    + intros a. destruct (is_ready st); set_solver.
    + cbn. destruct st; cbn; set_solver.
    + split; try done. intros t' Hne ?. congruence.
  - exists (set_inner st sl). cbn. rewrite list_lookup_alter_eq, Hsl. split; [done|].
    split; [done|]. split; [done|]. by exists (inner sl).
Qed.

(** *** Rules for the actions of the protocol *)

Section Rules.
Context {B : Type} (b : bool).

Lemma safe_unlock_write arc P (k : unit -> prog action B) Q :
  safe b t (fun s => slot_sat s arc (fun sl => P (opener sl) (inner sl))) (k tt) Q ->
  safe b t (guarded t arc P) (perform (UnlockWrite arc) ≫= k) Q.
Proof.
  intros Hk. apply (safe_act _ _ _ _ _ _ (fun _ s => slot_sat s arc (fun sl => P (opener sl) (inner sl))));
    [auto with rcache| |by intros []; apply Hk].
  intros o s x s' Hi Hg He. injection He as <- <-. split; [done|]. by apply unlock_write_step.
Qed.

Lemma safe_set_state arc st P (k : unit -> prog action B) Q :
  (forall o i, P o i -> (o = None -> i = Tombstone) -> (live st -> live i) /\ (o = None -> st = i)) ->
  safe b t (guarded t arc (fun o i => i = st /\ exists i0, P o i0)) (k tt) Q ->
  safe b t (guarded t arc P) (perform (SetState arc st) ≫= k) Q.
Proof.
  intros HP Hk. apply (safe_act _ _ _ _ _ _ (fun _ => guarded t arc (fun o i => i = st /\ exists i0, P o i0)));
    [auto with rcache| |by intros []; apply Hk].
  intros o s x s' Hi Hg He. injection He as <- <-. split; [done|]. by apply set_state_step.
Qed.

Lemma remove_if_step w arc (s s' : Shared) o x :
  cache_inv s -> dead_arc arc s -> exec bool o t (RemoveIf w arc) s = Some (x, s') ->
  step_ok b t s s' /\ dead_arc arc s'.
Proof.
  intros Hi Hd He. cbn in He. case_bool_decide as E; injection He as <- <-.
  - split; [|by destruct Hd as (sl & ?); exists sl]. eapply remove_step; try done. right. by exists arc.
  - split; [|done]. split; [done|]. apply quiet_guar, quiet_refl.
Qed.

Lemma safe_remove_if w arc (k : bool -> prog action B) Q :
  (forall x, safe b t (dead_arc arc) (k x) Q) ->
  safe b t (dead_arc arc) (perform (RemoveIf w arc) ≫= k) Q.
Proof.
  intros Hk. apply (safe_act _ _ _ _ _ _ (fun _ => dead_arc arc)); [auto with rcache| |done].
  intros o s x s' Hi Hd He. split; [done|]. by eapply remove_if_step.
Qed.

(** A look at the state under the write guard. *)
Lemma safe_peek_guarded arc P (k : SlotState -> prog action B) Q :
  (forall st, safe b t (guarded t arc (fun o i => i = st /\ P o i)) (k st) Q) ->
  safe b t (guarded t arc P) (perform (Peek arc) ≫= k) Q.
Proof.
  intros Hk. apply (safe_quiet _ _ _ _ (fun st => guarded t arc (fun o i => i = st /\ P o i)));
    [done|auto with rcache| |].
  - intros o s x s' Hi (sl & Hsl & Hw & HP) He _. injection He as <- <-. exists sl.
    by rewrite (slot_at_valid _ _ _ Hsl).
  - intros st. eapply safe_pre; [|apply Hk]. by intros s _ [_ ?].
Qed.

Lemma safe_lock_write arc (k : unit -> prog action B) P Q (P' : option nat -> SlotState -> Prop) :
  stable t P ->
  (forall s, P s -> slot_sat s arc (fun sl => P' (opener sl) (inner sl))) ->
  safe b t (guarded t arc P') (k tt) Q -> safe b t P (perform (LockWrite arc) ≫= k) Q.
Proof.
  intros HP HP' Hk. apply (safe_act _ _ _ _ _ _ (fun _ => guarded t arc P')); [done| |by intros []; apply Hk].
  intros o s x s' Hi Hp He. cbn in He. destruct (free_to_write _) eqn:Ef; [|done]. injection He as <- <-.
  destruct (HP' _ Hp) as (sl & Hsl & Hsat). split; [done|]. split.
  - apply lock_write_step; [done|by exists sl|done].
  - exists (set_writer (Some t) sl). split; [cbn; by rewrite list_lookup_alter_eq, Hsl|done].
Qed.
End Rules.

(** ** Eviction *)

Lemma safe_try_evict_ready_slot w arc :
  safe false t (valid_arc arc) (try_evict_ready_slot (D := D) w arc) (fun _ _ => True).
Proof.
  unfold try_evict_ready_slot.
  apply (safe_act _ _ _ _ _ _ (fun free s => free = true -> guarded t arc (fun _ _ => True) s)); [auto with rcache| |].
  { intros o s x s' Hi Hv He. cbn in He. split; [done|].
    destruct (free_to_write _) eqn:Ef; injection He as <- <-.
    - destruct (lock_write_step false s arc Hi Hv Ef) as (? & ? & _). auto.
    - split; [|done]. split; [done|]. apply quiet_guar, quiet_refl. }
  intros [|]; cbn [negb]; [|by apply safe_ret].
  eapply safe_pre; [by intros s _ Hg; apply Hg|]. apply safe_peek_guarded. intros st.
  destruct (is_ready st) eqn:Er; cbn [negb]; [|by apply safe_unlock_write].
  eapply (safe_pre _ _ _ (guarded t arc (fun o i => i = st /\ o <> None))).
  { intros s Hi (sl & Hsl & Hw & Hst & _). exists sl. split_and!; [done|done|done|].
    intros Ho. rewrite (ci_tombstones _ Hi _ _ Hsl Ho) in Hst. by subst st. }
  apply safe_set_state; [intros o i [-> Ho] _; split; [done|by intros ->]|].
  apply safe_unlock_write. eapply (safe_pre _ _ _ (dead_arc arc)).
  { intros s _ (sl & Hsl & Hst & _ & _ & Ho). exists sl. rewrite Hst. auto. }
  by apply (safe_remove_if false w arc Return).
Qed.

Definition all_valid (l : list (string * nat * Z)) (s : Shared) : Prop :=
  Forall (fun x => valid_arc (snd (fst x)) s) l.

Lemma stable_all_valid l : stable t (all_valid l).
Proof.
  intros t' s s' Hne Hi Hg Hv. eapply Forall_impl; [exact Hv|]. intros x.
  by apply (stable_valid t (snd (fst x)) t').
Qed.
Hint Resolve stable_all_valid : rcache.

Lemma safe_evict_first l : safe false t (all_valid l) (evict_first l) (fun _ _ => True).
Proof.
  induction l as [|[[w arc] tick] l IH]; [by apply safe_ret|]. cbn [evict_first].
  eapply (safe_pre _ _ _ (fun s => valid_arc arc s /\ all_valid l s)); [by intros s _ [? ?]%Forall_cons|].
  eapply safe_bind.
  - apply safe_frame; [|apply safe_try_evict_ready_slot]. split; [auto with rcache|].
    intros s s' Hi Hg Hv. eapply Forall_impl; [exact Hv|]. intros x (sl & Hsl & _).
    destruct (gu_slots _ _ _ _ Hg _ _ Hsl) as (sl' & Hsl' & _). by exists sl'.
  - intros [|].
    + eapply safe_pre; [by intros s _ [_ Hv]; apply Hv|]. apply safe_skip; [done|auto with rcache|].
      intros _. by apply safe_ret.
    + eapply safe_pre; [|apply IH]. tauto.
Qed.

Lemma push_candidates_subset w entries candidates :
  push_candidates w entries candidates ⊆ candidates ++ entries.
Proof.
  revert candidates. induction entries as [|[[w' arc] tick] l IH]; intros candidates; cbn [push_candidates];
    [by rewrite app_nil_r|].
  destruct (_ <=? _)%nat; [set_solver|]. case_bool_decide; etrans; try apply IH; set_solver.
Qed.

Lemma sort_by_access_subset l : sort_by_access l ⊆ l.
Proof.
  induction l as [|x l IH]; [done|]. cbn [sort_by_access foldr].
  assert (forall k, insert_by_access x k ⊆ x :: k) as Hins.
  { induction k as [|y k IHk]; [done|]. cbn. case_match; [done|]. set_solver. }
  etrans; [apply Hins|]. unfold sort_by_access in IH. set_solver.
Qed.

Lemma all_valid_subset l l' s : l' ⊆ l -> all_valid l s -> all_valid l' s.
Proof. intros Hsub Hv. apply Forall_forall. intros x Hx. by apply (proj1 (Forall_forall _ _) Hv), Hsub. Qed.

Lemma iter_valid o s x s' :
  cache_inv s -> exec _ o t Iter s = Some (x, s') -> quiet s s' -> all_valid x s'.
Proof.
  intros Hi He _. injection He as <- <-. apply Forall_forall. intros [[w arc] tick] Hin.
  apply list_elem_of_omap in Hin as (w' & _ & Hw). apply fmap_Some in Hw as (arc' & Ha & [= <- -> ->]).
  destruct (ci_entries _ Hi _ _ Ha) as (sl & Hsl & _). by exists sl.
Qed.

Lemma safe_evict_sorted l : safe false t (all_valid l) (evict_first (sort_by_access l)) (fun _ _ => True).
Proof.
  eapply safe_pre; [|apply safe_evict_first]. intros s _. apply all_valid_subset, sort_by_access_subset.
Qed.

Lemma safe_try_evict_oldest_sample w :
  safe false t (fun _ => True) (try_evict_oldest_sample (D := D) w) (fun _ _ => True).
Proof.
  unfold try_evict_oldest_sample. apply safe_skip; [done|auto with rcache|]. intros len.
  destruct (len =? 0)%nat; [by apply safe_ret|]. apply safe_skip; [done|auto with rcache|]. intros cursor.
  set (start := Z.to_nat _).
  apply (safe_quiet _ _ _ _ (fun l => all_valid l)); [done|auto with rcache|eauto using iter_valid|].
  intros entries. eapply (safe_pre _ _ _ (all_valid (push_candidates w (drop start entries) []))).
  { intros s _ [_ Hv]. eapply all_valid_subset; [|exact Hv].
    etrans; [apply push_candidates_subset|]. cbn. apply subseteq_drop. }
  destruct (_ && _); [|apply safe_evict_sorted].
  apply (safe_quiet _ _ _ _ (fun l => all_valid l)); [done|auto with rcache|eauto using iter_valid|].
  intros entries'. eapply safe_pre; [|apply safe_evict_sorted]. intros s _ [Hv Hv'].
  eapply all_valid_subset; [apply push_candidates_subset|]. apply Forall_app. split; [done|].
  eapply all_valid_subset; [|exact Hv']. apply subseteq_take.
Qed.

Lemma safe_trim budget w :
  safe false t (fun _ => True) (trim_loop (D := D) max_entries budget w) (fun _ _ => True).
Proof.
  induction budget as [|budget IH]; [by apply safe_ret|]. cbn [trim_loop].
  apply safe_skip; [done|auto with rcache|]. intros len. destruct (len <=? max_entries)%nat; [by apply safe_ret|].
  eapply safe_bind; [apply safe_try_evict_oldest_sample|]. intros [|]; [exact IH|by apply safe_ret].
Qed.

Lemma safe_best_effort w :
  safe false t (fun _ => True) (best_effort_trim_over_cap (D := D) max_entries w) (fun _ _ => True).
Proof. apply safe_trim. Qed.

(** ** Reads *)

Section Reads.
Context {R : Type}.

(** A reader that found its slot evicted may remove the entry. *)
Lemma safe_invoke_via_slot arc (f : D -> result sqlite_error R) :
  safe false t (valid_arc arc) (invoke_via_slot arc f)
    (fun r s => r = Ok ReadEvicted -> dead_arc arc s).
Proof.
  unfold invoke_via_slot. apply safe_skip; [done|auto with rcache|]. intros _.
  apply (safe_quiet _ _ _ _ (fun st s => st = Evicted -> dead_arc arc s)); [done|auto with rcache| |].
  { intros o s x s' Hi (sl & Hsl & _) He _ ->. injection He as Hst <-.
    rewrite (slot_at_valid _ _ _ Hsl) in Hst. exists sl. rewrite Hst. split; [done|]. split; [by intros []|].
    intros Ho. rewrite (ci_tombstones _ Hi _ _ Hsl Ho) in Hst. done. }
  assert (forall st, stable t (fun s => valid_arc arc s /\ (st = Evicted -> dead_arc (D := D) arc s))) as Hst.
  { intros st t' s s' Hne Hi Hg [Hv Hd]. split; [by apply (stable_valid t arc t' s s')|].
    intros Hev. apply (stable_dead t arc t' s s' Hne Hi Hg). auto. }
  intros [|conn| |]; repeat (apply safe_skip; [done|apply Hst|]; intros ?).
  - by apply safe_ret.
  - eapply safe_bind; [|intros r; repeat (apply safe_skip; [done|apply (stable_pure t (r <> Ok ReadEvicted))|]; intros _)].
    + destruct x0; [apply safe_skip; [done|apply Hst|]; intros d|].
      * apply (safe_ret _ _ _ _ (fun r _ => r <> Ok ReadEvicted)). destruct d; [destruct (f d)|]; done.
      * by apply (safe_ret _ _ _ _ (fun r _ => r <> Ok ReadEvicted)).
    + by apply safe_ret.
  - apply safe_ret. tauto.
  - by apply safe_ret.
Qed.

Lemma safe_open_slot arc w :
  safe false t (guarded t arc (fun o i => o = Some t /\ i = Opening)) (@open_slot D R arc w)
    (fun init s => match init with Ok _ => owned t arc s | Err _ => True end).
Proof.
  unfold open_slot. apply safe_peek_guarded. intros [|conn| |];
    try (apply safe_unlock_write, safe_ret; intros s _ (sl & Hsl & _ & Ho & _); by exists sl).
  eapply (safe_pre _ _ _ (guarded t arc (fun o i => o = Some t /\ i = Opening))).
  { intros s _ (sl & Hsl & Hw & _ & ?). by exists sl. }
  apply (safe_act _ _ _ _ _ _ (fun _ => guarded t arc (fun o i => o = Some t /\ i = Opening)));
    [auto with rcache| |].
  { intros o s x s' Hi Hg He. cbn in He. split; [done|].
    destruct (o_error o), (disk s !! w); injection He as <- <-;
      try (split; [split; [done|apply quiet_guar, quiet_refl]|done]).
    split; [|done]. eapply open_step; try done. destruct Hg as (sl & Hsl & _ & _ & Hin). exists sl. by rewrite Hin. }
  intros [conn|e].
  - apply safe_set_state; [by intros o i [-> ->] _|]. apply safe_unlock_write, safe_ret.
    intros s _ (sl & Hsl & _ & i0 & Ho & _). by exists sl.
  - apply safe_set_state; [by intros o i [-> ->] _|]. apply safe_unlock_write.
    eapply (safe_pre _ _ _ (dead_arc arc)).
    { intros s _ (sl & Hsl & Hst & i0 & Ho & _). exists sl. rewrite Hst, Ho. auto. }
    apply safe_remove_if. intros _. apply safe_skip; [done|auto with rcache|]. intros _.
    case_bool_decide; [|by apply safe_ret]. apply safe_skip; [done|auto with rcache|]. intros ?. by apply safe_ret.
Qed.

Lemma safe_lazy_init w :
  safe false t (fun _ => True) (@lazy_init D R w)
    (fun '((arc, own), init) s =>
       match init with Ok _ => valid_arc arc s /\ (own = true -> owned t arc s) | Err _ => True end).
Proof.
  unfold lazy_init.
  apply (safe_act _ _ _ _ _ _ (fun slot s => valid_arc (fst slot) s
           /\ (snd slot = true -> guarded t (fst slot) (fun o i => o = Some t /\ i = Opening) s)));
    [auto with rcache| |].
  { intros o s x s' Hi _ He. cbn in He. split; [done|].
    destruct (read_conns s !! w) as [arc|] eqn:Ew; injection He as <- <-.
    - split; [|split; [|done]].
      + assert (quiet s (set_clock (next_access_tick s) s)) as Hq by (by split).
        split; [by eapply quiet_inv|by apply quiet_guar].
      + destruct (ci_entries _ Hi _ _ Ew) as (sl & Hsl & _). by exists sl.
    - set (s' := set_conns _ _).
      assert (slots s' !! length (slots s) = Some {| slot_world := w; opener := Some t; inner := Opening;
                last_access := next_access_tick s; writer := Some t; readers := ∅; mutex := None |}) as Hnew
        by (by apply list_lookup_middle).
      split; [|split; [by eexists|intros _; by eexists]].
      eapply (entered_step t false s w); [done| |by intros|by left]. by repeat split. }
  intros [arc own]. cbn [fst snd]. destruct own.
  - eapply safe_pre; [by intros s _ [_ Hg]; apply Hg|]. eapply safe_bind; [apply safe_open_slot|].
    intros init. apply safe_ret. intros s _ Ho. destruct init; [|done].
    split; [by apply valid_of_owned|done].
  - apply safe_ret. intros s _ [Hv _]. done.
Qed.

Lemma safe_drain_own_slot w arc :
  safe false t (owned t arc) (drain_own_slot (D := D) w arc) (fun _ _ => True).
Proof.
  unfold drain_own_slot. apply (safe_lock_write _ _ _ _ _ (fun o _ => o = Some t)); [auto with rcache|done|].
  apply safe_set_state; [by intros o i -> _|]. apply safe_unlock_write.
  eapply (safe_pre _ _ _ (dead_arc arc)).
  { intros s _ (sl & Hsl & Hst & i0 & Ho). exists sl. rewrite Hst, Ho. auto. }
  apply safe_remove_if. intros _. by apply safe_ret.
Qed.

(** What follows a read through a slot, in all four places. *)
Lemma safe_after_slot {A} arc w (f : D -> result sqlite_error R) P (kd : option R -> prog action A)
    (ke : sqlite_error -> prog action A) (again : prog action A) Q :
  kept t P ->
  (forall v, safe false t P (kd v) Q) -> (forall e, safe false t P (ke e) Q) ->
  safe false t P again Q ->
  safe false t (fun s => valid_arc arc s /\ P s)
    (_ ← touch_slot arc;
     r ← invoke_via_slot arc f;
     match r with
     | Err e => ke e
     | Ok (Done value) => kd value
     | Ok ReadOpening => again
     | Ok ReadEvicted => _ ← remove_evicted_entry w arc; again
     end) Q.
Proof.
  intros HP Hd He Ha. pose proof HP as [Hst _]. apply safe_skip; [done|auto with rcache|]. intros _.
  eapply safe_bind; [apply safe_frame; [exact HP|apply safe_invoke_via_slot]|].
  assert (forall (p : prog action A) (F : Shared -> Prop),
    safe false t P p Q -> safe false t (fun s => F s /\ P s) p Q) as Hp
    by (intros p F Hs; eapply safe_pre; [|exact Hs]; tauto).
  intros [[v| |]|e]; [by apply Hp|by apply Hp| |by apply Hp].
  eapply (safe_pre _ _ _ (fun s => dead_arc arc s /\ P s)); [intros s _ [Hdead ?]; auto|].
  apply (safe_act _ _ _ _ _ _ (fun _ => P)); [auto with rcache| |by intros _].
  intros o s x s' Hi [Hdead Hp'] Hex. split; [done|].
  destruct (remove_if_step false _ _ _ _ _ _ Hi Hdead Hex) as [Hok _]. split; [done|].
  destruct HP as [_ HP]. by apply (HP s), Hp'; [|apply Hok].
Qed.

Lemma kept_true : kept t (fun _ : Shared => True).
Proof. split; [auto with rcache|done]. Qed.

Lemma kept_owned arc : kept t (owned (D := D) t arc).
Proof.
  split; [auto with rcache|]. intros s s' _ Hg (sl & Hsl & Ho).
  destruct (gu_slots _ _ _ _ Hg _ _ Hsl) as (sl' & Hsl' & []). exists sl'. split; congruence.
Qed.

Lemma safe_true {A} P (p : prog action A) (Q : A -> Shared -> Prop) :
  safe false t (fun _ => True) p Q -> safe false t P p Q.
Proof. by apply safe_pre. Qed.

Lemma get_valid w o (s s' : Shared) x :
  cache_inv s -> exec _ o t (Get w) s = Some (x, s') -> quiet s s' ->
  match x with Some arc => valid_arc arc s' | None => True end.
Proof.
  intros Hi He _. injection He as <- <-. destruct (read_conns s !! w) as [arc|] eqn:E; [|done].
  destruct (ci_entries _ Hi _ _ E) as (sl & Hsl & _). by exists sl.
Qed.

Lemma safe_finish {A} w (a : A) :
  safe false t (fun _ => True) (_ ← best_effort_trim_over_cap (D := D) max_entries w; mret a) (fun _ _ => True).
Proof. eapply safe_bind; [apply safe_best_effort|]. intros ?. by apply safe_ret. Qed.

Lemma safe_transient budget w (f : D -> result sqlite_error R) :
  safe false t (fun _ => True) (transient_loop max_entries budget w f) (fun _ _ => True).
Proof.
  induction budget as [|budget IH]; [by apply safe_ret|]. cbn [transient_loop].
  apply (safe_quiet _ _ _ _ (fun hit s => match hit with Some arc => valid_arc arc s | None => True end));
    [done|auto with rcache|intros o s x s' Hi _; by apply get_valid|].
  intros [arc|].
  - eapply safe_pre; [|apply (safe_after_slot arc w f (fun _ => True) _ (fun e => mret (Err e)))].
    + by intros s _ [_ ?].
    + apply kept_true.
    + intros v. apply safe_finish.
    + intros e. by apply safe_ret.
    + exact IH.
  - eapply safe_bind; [apply safe_true, safe_lazy_init|]. intros [[arc own] [_|r]]; [|by apply safe_ret].
    eapply safe_pre; [|apply (safe_after_slot arc w f (fun s => own = true -> owned t arc s) _ (fun e => mret (Err e)))].
    + by intros s _ [? ?].
    + destruct (kept_owned arc) as [Hs Hk]. split; [intros t' s s' Hne Hi Hg Ho Hown|intros s s' Hi Hg Ho Hown].
      * apply (Hs t' s s'); auto.
      * apply (Hk s s'); auto.
    + intros v. eapply safe_bind; [|intros ?; apply safe_finish]. destruct own; [|by apply safe_ret].
      eapply safe_pre; [|apply safe_drain_own_slot]. auto.
    + intros e. by apply safe_ret.
    + by apply safe_true.
Qed.

Lemma safe_invoke_transient w (f : D -> result sqlite_error R) :
  safe false t (fun _ => True) (invoke_transient max_entries w f) (fun _ _ => True).
Proof. apply safe_transient. Qed.

Lemma safe_if {A} (c : bool) (p q : prog action A) P (Q : A -> Shared -> Prop) :
  safe false t P p Q -> safe false t P q Q -> safe false t P (if c then p else q) Q.
Proof. by destruct c. Qed.

(** Phase 3 of a tracked read. *)
Lemma safe_init_and_read {A} w (f : D -> result sqlite_error R) (kr : result sqlite_error (option R) -> prog action A)
    (kd : option R -> prog action A) (ke : sqlite_error -> prog action A) (again : prog action A) :
  (forall r, safe false t (fun _ => True) (kr r) (fun _ _ => True)) ->
  (forall v, safe false t (fun _ => True) (kd v) (fun _ _ => True)) ->
  (forall e, safe false t (fun _ => True) (ke e) (fun _ _ => True)) ->
  safe false t (fun _ => True) again (fun _ _ => True) ->
  safe false t (fun _ => True)
    (slot ← lazy_init w;
     match slot with
     | (_, Err r) => kr r
     | (arc, _, Ok _) =>
         _ ← touch_slot arc;
         r ← invoke_via_slot arc f;
         match r with
         | Err e => ke e
         | Ok (Done value) => kd value
         | Ok ReadOpening => again
         | Ok ReadEvicted => _ ← remove_evicted_entry w arc; again
         end
     end) (fun _ _ => True).
Proof.
  intros Hr Hd He Ha. eapply safe_bind; [apply safe_lazy_init|].
  intros [[arc own] [_|r]]; [|by apply safe_true].
  eapply safe_pre; [|apply (safe_after_slot arc w f (fun _ => True)); [apply kept_true|done..]].
  by intros s _ [? _].
Qed.

Lemma safe_tracked budget miss capped w (f : D -> result sqlite_error R) :
  safe false t (fun _ => True) (tracked_loop max_entries budget miss capped w f) (fun _ _ => True).
Proof.
  revert miss capped. induction budget as [|budget IH]; intros miss capped; [apply safe_invoke_transient|].
  cbn [tracked_loop].
  apply (safe_quiet _ _ _ _ (fun hit s => match hit with Some arc => valid_arc arc s | None => True end));
    [done|auto with rcache|intros o s x s' Hi _; by apply get_valid|].
  intros [arc|].
  - eapply safe_pre; [|apply (safe_after_slot arc w f (fun _ => True) _ (fun e => mret (Err e)))].
    + by intros s _ [_ ?].
    + apply kept_true.
    + intros v. eapply safe_bind; [apply safe_best_effort|]. intros ?.
      apply safe_skip; [done|auto with rcache|]. intros ?. by apply safe_ret.
    + intros e. by apply safe_ret.
    + apply IH.
  - apply safe_true. apply (safe_bind _ _ _ _ _ (fun _ _ => True)).
    { destruct miss; [by apply safe_ret|]. apply (safe_skip _ _ _ _ Return); [done|auto with rcache|by intros]. }
    intros ?. apply safe_true, safe_skip; [done|auto with rcache|]. intros len.
    destruct (max_entries <=? len)%nat.
    + apply (safe_bind _ _ _ _ _ (fun _ _ => True)).
      { destruct capped; [by apply safe_ret|]. apply (safe_skip _ _ _ _ Return); [done|auto with rcache|by intros]. }
      intros ?. apply safe_true. eapply safe_bind; [apply safe_try_evict_oldest_sample|].
      intros evicted. apply safe_if; [apply IH|apply safe_invoke_transient].
    + apply safe_skip; [done|auto with rcache|].
      intros present. destruct present as [[]|]; [|by apply safe_ret|].
      * apply (safe_init_and_read w f mret _ (fun e => mret (Err e))); [by intros; apply safe_ret|intros v; apply safe_finish|by intros; apply safe_ret|apply IH].
      * apply (safe_init_and_read w f mret _ (fun e => mret (Err e))); [by intros; apply safe_ret|intros v; apply safe_finish|by intros; apply safe_ret|apply IH].
Qed.
End Reads.

(** ** Deletes *)

Definition tracked (w : string) : Shared -> Prop := tracked_world t w.

Lemma kept_tracked w : kept t (tracked w).
Proof.
  split; [apply stable_tracked|]. intros s s' _ Hg. apply (tracked_world_kept false t); [by right|done].
Qed.

(** Once the tombstone is in and the old slot drained, nothing is open. *)
Lemma drained_no_open_fd w (s : Shared) : cache_inv s -> draining_world t w None s -> no_open_fd w s.
Proof.
  intros Hi (_ & _ & Hl) arc Ha (sl & Hsl & Hw). destruct (ci_fds _ Hi _ Ha) as (sl' & Hsl' & Hlive).
  simplify_eq. by apply (Hl arc sl) in Hlive.
Qed.

Lemma insert_tombstone_step w (s : Shared) :
  cache_inv s -> tracked w s ->
  let s' := set_conns (<[w := length (slots s)]>) (snd (new_slot w None Tombstone s)) in
  step_ok true t s s' /\ draining_world t w (read_conns s !! w) s'
  /\ forall prev, read_conns s !! w = Some prev -> valid_arc prev s'.
Proof.
  intros Hi [Hlock Hl] s'.
  set (sl := {| slot_world := w; opener := None; inner := Tombstone; last_access := next_access_tick s;
                writer := None; readers := ∅; mutex := None |}).
  assert (entered s w sl s') as He by (by repeat split).
  assert (slots s' = slots s ++ [sl]) as Hs by done.
  split; [by eapply entered_step; [done|done|done|right]|]. split; [split; [done|split]|].
  - exists (length (slots s)). split; [apply lookup_insert_eq|]. exists sl. split; [|done].
    rewrite Hs. by apply list_lookup_middle.
  - intros arc x Hx Hw Hlive. rewrite Hs in Hx. apply lookup_app_Some in Hx as [Hx|[_ Hx]].
    + by eapply Hl.
    + by apply list_lookup_singleton_Some in Hx as [_ <-].
  - intros prev Hp. destruct (ci_entries _ Hi _ _ Hp) as (x & Hx & _). exists x. split; [|done].
    rewrite Hs. by apply lookup_app_l_Some.
Qed.

(** The drain's own steps on slots. *)
Lemma draining_own w prev (s s' : Shared) :
  guar true t s s' -> read_conns s' = read_conns s -> world_locks s' = world_locks s ->
  draining_world t w prev s -> draining_world t w prev s'.
Proof.
  intros Hg Hc Hw (H1 & (a & Ha & sl & Hsl & Ho) & Hl). split; [congruence|]. split.
  - exists a. split; [congruence|]. destruct (gu_slots _ _ _ _ Hg _ _ Hsl) as (sl' & Hsl' & []).
    exists sl'. split; [done|congruence].
  - intros arc x Hx Hxw Hlive. destruct (old_or_new _ _ _ _ _ _ Hg Hx Hlive) as [(y & Hy & Hly & Hwy)|[Hn _]].
    + apply (Hl arc y); [done|congruence|done].
    + rewrite Hxw in Hn. congruence.
Qed.

(** The old slot is no longer live. *)
Lemma draining_done w prev (s : Shared) :
  draining_world t w (Some prev) s -> slot_sat s prev (fun sl => ~ live (inner sl)) ->
  draining_world t w None s.
Proof.
  intros (H1 & H2 & Hl) (sl & Hsl & Hd). split; [done|]. split; [done|]. intros arc x Hx Hw Hlive. exfalso.
  assert (Some prev = Some arc) as [= <-] by (by apply (Hl arc x)). by simplify_eq.
Qed.

Lemma safe_install w :
  safe true t (tracked w) (install_tombstone_blocking (D := D) w) (fun _ => draining_world t w None).
Proof.
  unfold install_tombstone_blocking.
  apply (safe_act _ _ _ _ _ _ (fun prev s => draining_world t w prev s
           /\ match prev with Some p => valid_arc p s | None => True end)); [apply stable_tracked| |].
  { intros o s x s' Hi Ht He. injection He as <- <-. split; [done|].
    destruct (insert_tombstone_step w s Hi Ht) as (Hok & Hd & Hv). split; [done|]. split; [done|].
    destruct (read_conns s !! w) as [p|]; [by apply Hv|done]. }
  intros [prev|]; [|apply safe_ret; tauto].
  apply (safe_act _ _ _ _ _ _ (fun _ s => draining_world t w (Some prev) s /\ guarded t prev (fun _ _ => True) s));
    [auto with rcache| |].
  { intros o s x s' Hi [Hd Hv] He. cbn in He. destruct (free_to_write _) eqn:Ef; [|done]. injection He as <- <-.
    destruct (lock_write_step true s prev Hi Hv Ef) as (Hok & Hg & _). split; [done|]. split; [done|]. split; [|done].
    by eapply draining_own; [apply Hok|..]. }
  intros []. apply (safe_act _ _ _ _ _ _ (fun _ s => draining_world t w None s /\ guarded t prev (fun _ _ => True) s));
    [auto with rcache| |].
  { intros o s x s' Hi [Hd Hg] He. injection He as <- <-.
    destruct (set_state_step true s prev Tombstone (fun _ _ => True) Hi Hg) as [Hok Hg'];
      [by intros o' i _ Hi'; split; [|intros ->; symmetry; auto]|].
    split; [done|]. split; [done|]. destruct Hg' as (z & Hz & Hw' & Hst & _). split; [|by exists z].
    eapply draining_done; [by eapply draining_own; [apply Hok|..]|]. exists z. rewrite Hst. auto. }
  intros []. apply (safe_act _ _ _ _ Return _ (fun _ => draining_world t w None)); [auto with rcache| |intros ?; by apply safe_ret].
  intros o s ? s' Hi [Hd Hg] He. injection He as <- <-.
  destruct (unlock_write_step true s prev _ Hi Hg) as [Hok _]. split; [done|]. split; [done|].
  by eapply draining_own; [apply Hok|..].
Qed.

(** The lock is taken while it is free, so the entry is the only live slot. *)
Lemma safe_lock_world {A} w (k : unit -> prog action A) Q :
  safe true t (tracked w) (k tt) Q -> safe true t (fun _ => True) (perform (LockWorld w) ≫= k) Q.
Proof.
  intros Hk. apply (safe_act _ _ _ _ _ _ (fun _ => tracked w)); [auto with rcache| |by intros []].
  intros o s x s' Hi _ He. cbn in He. destruct (world_locks s !! w) eqn:Ew; [done|]. injection He as <- <-.
  split; [done|]. split.
  - eapply locks_step; try done; cbn [world_locks set_locks].
    + intros w' t' Hne Hw'. rewrite lookup_insert_ne; [done|congruence].
    + intros arc sl Hsl Hl. destruct (ci_live _ Hi _ _ Hsl Hl) as [?|Hw']; [by left|right].
      by apply lookup_insert_is_Some'; right.
  - split; [apply lookup_insert_eq|]. intros arc sl Hsl Hw Hl.
    cbn in Hsl. destruct (ci_live _ Hi _ _ Hsl Hl) as [He|[t' Hw']]; rewrite Hw in *; [done|]. by rewrite Ew in Hw'.
Qed.

Lemma safe_unlock_world {A} w (k : unit -> prog action A) (Q : A -> Shared -> Prop) :
  safe true t (fun _ => True) (k tt) Q -> safe true t (tracked w) (perform (UnlockWorld w) ≫= k) Q.
Proof.
  intros Hk. apply (safe_act _ _ _ _ _ _ (fun _ _ => True)); [apply stable_tracked| |by intros []].
  intros o s x s' Hi [Hw Hl] He. injection He as <- <-. split; [done|]. split; [|done].
  eapply locks_step; try done; cbn [world_locks set_locks].
  - intros w' t' Hne Hw'. rewrite lookup_delete_ne; [done|congruence].
  - intros arc sl Hsl Hlive. destruct (decide (slot_world sl = w)) as [<-|Hne]; [left; by apply (Hl _ sl)|].
    rewrite lookup_delete_ne by done. by apply (ci_live _ Hi).
Qed.

(** The removal of the file, and of the tombstone. *)
Lemma safe_unlink {A} w (k : bool -> prog action A) Q :
  (forall x, safe true t (draining_world t w None) (k x) Q) ->
  safe true t (draining_world t w None) (perform (Unlink w) ≫= k) Q.
Proof.
  intros Hk. apply (safe_act _ _ _ _ _ _ (fun _ => draining_world t w None)); [auto with rcache| |done].
  intros o s x s' Hi Hd He. split; [by apply drained_no_open_fd|].
  assert (quiet s s') as Hq by (cbn in He; destruct (o_error o); injection He as <- <-; [apply quiet_refl|by split]).
  split; [split; [by eapply quiet_inv|by apply quiet_guar]|].
  eapply (quiet_kept t); [apply stable_draining|done|done|done].
Qed.

Lemma safe_clear {A} w (k : unit -> prog action A) Q :
  safe true t (tracked w) (k tt) Q ->
  safe true t (draining_world t w None) (clear_tombstone w ≫= k) Q.
Proof.
  intros Hk. apply (safe_act _ _ _ _ _ _ (fun _ => tracked w)); [auto with rcache| |by intros []].
  intros o s x s' Hi (Hw & _ & Hl) He. injection He as <- <-. split; [done|]. split.
  - eapply remove_step; try done. by left.
  - split; [done|]. intros arc sl Hsl Hws Hlive. by specialize (Hl arc sl Hsl Hws Hlive).
Qed.

(** ** The clients *)

Lemma safe_read_client {R} w (f : D -> result sqlite_error R) :
  safe true t (fun _ => True) (read_client max_entries w f) (fun _ _ => True).
Proof. eapply safe_mono; [| |apply safe_tracked]; done. Qed.

Lemma safe_delete_client {R} w (f : D -> result sqlite_error R) :
  safe true t (fun _ => True) (delete_client max_entries w f) (fun _ _ => True).
Proof.
  unfold delete_client. apply safe_lock_world. apply safe_skip; [done|apply stable_tracked|]. intros ?.
  apply (safe_bind _ _ _ _ _ (fun _ => tracked w)).
  { eapply (safe_pre _ _ _ (fun s => True /\ tracked w s)); [done|].
    eapply safe_mono; [| |apply safe_frame; [apply kept_tracked|apply safe_tracked]]; [done|]. by intros a s _ [_ ?]. }
  assert (forall r : result sqlite_error (option R), safe true t (tracked w)
    (perform UnlockStream ≫= fun _ => perform (UnlockWorld w) ≫= fun _ => mret r) (fun _ _ => True)) as Hend.
  { intros r. apply safe_skip; [done|apply stable_tracked|]. intros ?. apply safe_unlock_world. by apply safe_ret. }
  intros [[v|]|e]; [|apply Hend..].
  eapply safe_bind; [apply safe_install|]. intros ?. apply safe_unlink. intros ?. apply safe_clear, Hend.
Qed.
End Programs.
