(* ===== verification/ReadCacheTheorems.v ===== *)
(** * What the read cache promises to concurrent threads

    No file is removed under an open connection while reads and deletes run in
    any order; no pool of clients deadlocks or runs forever; and the schedule
    with a write under which the first promise breaks. *)

From S2P Require Import Prelude.
From S2P Require Import Db.
From S2P Require Import Conc.
From S2P Require Import ReadCache.
From S2P Require Import ReadCacheLocks.
From S2P Require Import ReadCacheSafe.
From S2P Require Import ReadCacheReads.

Section Pools.
Context {D A : Type}.
Notation thread := (prog (@action D) A).
Notation Shared := (@Shared D).

(** ** The pool keeps every thread's assertion *)

Definition thread_safe (i : nat) (p : thread) (s : Shared) : Prop :=
  exists P, stable i P /\ P s /\ safe true i P p (fun _ _ => True).

Definition pool_safe (c : list thread * Shared) : Prop :=
  cache_inv (snd c) /\ forall i p, fst c !! i = Some p -> thread_safe i p (snd c).

(** An assertion of a thread can be taken stable. *)
Lemma safe_stabilize i P (p : thread) s :
  cache_inv s -> P s -> safe true i P p (fun _ _ => True) -> thread_safe i p s.
Proof.
  intros Hi HP Hs. destruct p as [a|B act k].
  - exists (fun _ => True). split; [apply stable_pure|done].
  - destruct Hs as (P' & Post & Himp & Hst & Hstep & Hk). exists P'. split; [done|]. split; [auto|].
    by exists P', Post.
Qed.

Lemma thread_safe_step o i B act k (s s' : Shared) x :
  cache_inv s -> thread_safe i (Act B act k) s -> exec B o i act s = Some (x, s') ->
  act_req act s /\ step_ok true i s s' /\ thread_safe i (k x) s'.
Proof.
  intros Hi (P & _ & HP & P' & Post & Himp & Hst & Hstep & Hk) He.
  destruct (Hstep o s x s') as (Hr & Hok & Hpost); [done|auto|done|]. split; [done|]. split; [done|].
  eapply safe_stabilize; [apply Hok|done|apply Hk].
Qed.

Lemma pool_safe_step o i c c' : pool_safe c -> thread_step exec o i c = Some c' -> pool_safe c'.
Proof.
  intros [Hi Hts] (B & act & k & b & Hp & He & Hps)%thread_step_inv.
  destruct (thread_safe_step _ _ _ _ _ _ _ _ Hi (Hts _ _ Hp) He) as (_ & [Hi' Hg] & Hk).
  split; [done|]. rewrite Hps. intros j q [(-> & <- & _)|[Hne Hq]]%list_lookup_insert_Some; [done|].
  destruct (Hts _ _ Hq) as (P & Hst & HP & Hs). exists P. split; [done|]. split; [|done].
  by apply (Hst i (snd c)).
Qed.

Lemma pool_safe_run c c' : pool_safe c -> rtc (pool_step exec) c c' -> pool_safe c'.
Proof. intros Hc Hr. induction Hr as [|c c1 c2 (o & i & Hs) _ IH]; [done|]. apply IH. by eapply pool_safe_step. Qed.

(** The world whose file the thread removes next. *)
Definition next_unlink (p : thread) : option string :=
  match p with Act B (Unlink w) _ => Some w | _ => None end.

Lemma pool_safe_unlink c i p w :
  pool_safe c -> fst c !! i = Some p -> next_unlink p = Some w -> no_open_fd w (snd c).
Proof.
  intros [Hi Hts] Hp Hn. destruct p as [a|B act k]; [done|]. destruct act; try done. injection Hn as ->.
  apply (thread_safe_step {| o_error := None; o_order := [] |} _ _ _ _ _ _ _ Hi (Hts _ _ Hp) eq_refl).
Qed.

Lemma ReadCache_new_inv disk (files : list D) : cache_inv (ReadCache_new disk files).
Proof. split; cbn; [by intros w arc|set_solver|by intros arc sl|by intros arc sl]. Qed.

Lemma ReadCache_new_free disk (files : list D) t l : ~ holds (ReadCache_new disk files) t l.
Proof. destruct l; cbn; [done|done|set_solver|done|done]. Qed.
End Pools.

Section Clients.
Context {D R : Type} (max_entries : nat).

(** A thread that reads a world or deletes it. *)
Inductive read_or_delete : prog (@action D) (result sqlite_error (option R)) -> Prop :=
| rd_read w f : read_or_delete (read_client max_entries w f)
| rd_delete w f : read_or_delete (delete_client max_entries w f).

Lemma pool_safe_start ps (s : @Shared D) : Forall read_or_delete ps -> cache_inv s -> pool_safe (ps, s).
Proof.
  intros Hps Hi. split; [done|]. intros i p Hp. pose proof (Forall_lookup_1 _ _ _ _ Hps Hp) as [].
  - eapply safe_stabilize; [done| |apply safe_read_client]. done.
  - eapply safe_stabilize; [done| |apply safe_delete_client]. done.
Qed.
End Clients.

(** ** The promises *)

(** C13: however reads and deletes of any worlds interleave, from an empty cache
    on any disk and whatever errors SQLite and the file system report: when a
    delete is about to remove the file of a world, no slot of the cache has a
    connection to that world open. *)
Theorem removal_under_no_open_connection {D R : Type} (max_entries : nat)
    (ps : list (prog (@action D) (result sqlite_error (option R)))) disk files c i w :
  Forall (read_or_delete max_entries) ps ->
  rtc (pool_step exec) (ps, ReadCache_new disk files) c ->
  (fst c !! i ≫= next_unlink) = Some w ->
  no_open_fd w (snd c).
Proof.
  intros Hps Hr (p & Hp & Hw)%bind_Some. eapply pool_safe_unlink; [|done|done].
  eapply pool_safe_run; [|done]. by eapply pool_safe_start, ReadCache_new_inv.
Qed.

(** C15: any pool of reads, deletes, writes and shutdown drains, started on an
    empty cache: no schedule is infinite, and in every state the pool can reach
    either all threads have returned or some thread can take a step, so no
    schedule ends in a deadlock. *)
Theorem clients_always_return {D R : Type} (max_entries : nat)
    (ps : list (prog (@action D) (result sqlite_error (option R)))) disk files :
  Forall (client max_entries) ps ->
  Acc (flip (pool_step exec)) (ps, ReadCache_new disk files)
  /\ forall c, rtc (pool_step exec) (ps, ReadCache_new disk files) c ->
       Forall finished (fst c) \/ exists c', pool_step exec c c'.
Proof.
  intros Hps. split; [apply pool_terminates|]. intros c Hr. apply pool_progress.
  eapply pool_ok_run; [|done]. eapply pool_ok_start; [done|apply ReadCache_new_free].
Qed.

(** ** A reader, a delete and a write on one world *)

Definition demo_disk : gmap string nat := {["home/a" := 0%nat]}.
Definition demo_read : prog (@action Z) (result sqlite_error (option Z)) := read_client 4 "home/a" Ok.
Definition demo_delete : prog (@action Z) (result sqlite_error (option Z)) := delete_client 4 "home/a" Ok.
Definition demo_write : prog (@action Z) (result sqlite_error (option Z)) := write_client "home/a" 8%Z.

Definition no_error (i : nat) : Oracle * nat := ({| o_error := None; o_order := ["home/a"] |}, i).

Definition demo_pool (ps : list (prog (@action Z) (result sqlite_error (option Z)))) (sched : list nat)
  : list (prog (@action Z) (result sqlite_error (option Z))) * @Shared Z :=
  default ([], ReadCache_new ∅ [])
    (run_schedule exec (no_error <$> sched) (ps, ReadCache_new demo_disk [7%Z])).

Lemma demo_pool_run ps sched :
  bool_decide (is_Some (run_schedule exec (no_error <$> sched) (ps, ReadCache_new demo_disk [7%Z]))) = true ->
  rtc (pool_step exec) (ps, ReadCache_new demo_disk [7%Z]) (demo_pool ps sched).
Proof. intros [c Hc]%bool_decide_eq_true. unfold demo_pool. rewrite Hc. by eapply run_schedule_rtc. Qed.

(** A reader holds its connection when a delete puts its tombstone in; the
    delete waits for it, drains the slot and is then about to remove the file. *)
Definition drained_at : list nat := repeat 0 11 ++ repeat 1 14 ++ repeat 0 6 ++ repeat 1 3.

Lemma removal_under_no_open_connection_witness :
  no_open_fd "home/a" (snd (demo_pool [demo_read; demo_delete] drained_at)).
Proof.
  eapply (removal_under_no_open_connection 4 [demo_read; demo_delete] demo_disk [7%Z] _ 1%nat).
  - constructor; [apply rd_read|]. constructor; [apply rd_delete|constructor].
  - apply demo_pool_run. evaluate.
  - evaluate.
Defined.

Lemma clients_always_return_witness :
  Acc (flip (pool_step exec)) ([demo_read; demo_delete; demo_write], ReadCache_new demo_disk [7%Z])
  /\ forall c, rtc (pool_step exec) ([demo_read; demo_delete; demo_write], ReadCache_new demo_disk [7%Z]) c ->
       Forall finished (fst c) \/ exists c', pool_step exec c c'.
Proof.
  apply (clients_always_return 4).
  constructor; [apply client_read|]. constructor; [apply client_delete|].
  constructor; [apply client_write|constructor].
Defined.

(** The reader has taken the guard and the mutex of its connection; a write of
    the world takes the slot out of the map; a delete finds no slot to drain. *)
Definition orphaned_at : list nat := repeat 0 13 ++ repeat 1 4 ++ repeat 2 24.

(** with a write in between, the promise fails: a read has its connection
    open and locked, a write of the same world clears the entry of the slot, and
    a delete that follows is about to remove the file while the read still has
    it open. *)
Theorem write_lets_removal_race_a_read :
  let start := ([demo_read; demo_write; demo_delete], ReadCache_new demo_disk [7%Z]) in
  let c := demo_pool [demo_read; demo_write; demo_delete] orphaned_at in
  rtc (pool_step exec) start c
  /\ (fst c !! 2%nat ≫= next_unlink) = Some "home/a"
  /\ (0%nat ∈ fds (snd c)
      /\ (fun sl => (slot_world sl, inner sl, elements (readers sl), mutex sl)) <$> slots (snd c) !! 0%nat
         = Some ("home/a", Ready 0, [0%nat], Some 0%nat)).
Proof.
  split; [apply demo_pool_run; evaluate|]. split; [evaluate|].
  split; [|evaluate]. apply (bool_decide_eq_true_1 _). evaluate.
Qed.
