(* ===== verification/ReadCacheSeq.v ===== *)
(** * The read cache is transparent

    Clients that run one after another, with no error from SQLite or the file
    system and any iteration order of the map, get exactly what the files hold:
    evictions, transient reads and retries cannot be observed.  This is what
    lets [Core.v] read a world's file directly. *)

From S2P Require Import Prelude.
From S2P Require Import Db.
From S2P Require Import Conc.
From S2P Require Import ReadCache.
From S2P Require Import ReadCacheSafe.
From S2P Require Import ReadCacheReads.

Section Sequential.
Context {D : Type} (max_entries : nat) (t : nat).
Notation action := (@action D).
Notation Shared := (@Shared D).

(** ** Total correctness of a thread that runs alone *)

Fixpoint wp {A} (p : prog action A) (Q : A -> Shared -> Prop) (s : Shared) : Prop :=
  match p with
  | Return a => Q a s
  | Act B act k => forall o, o_error o = None ->
      exists x s', exec B o t act s = Some (x, s') /\ wp (k x) Q s'
  end.

Lemma wp_bind {A B} (p : prog action A) (f : A -> prog action B) Q s :
  wp p (fun a s => wp (f a) Q s) s -> wp (p ≫= f) Q s.
Proof.
  revert s. induction p as [a|C act k IH]; intros s; [done|]. intros Hp o Ho.
  destruct (Hp o Ho) as (x & s' & He & Hk). exists x, s'. split; [done|]. by apply IH.
Qed.

Lemma wp_mono {A} (p : prog action A) (P Q : A -> Shared -> Prop) s :
  (forall a s, P a s -> Q a s) -> wp p P s -> wp p Q s.
Proof.
  intros HPQ. revert s. induction p as [a|C act k IH]; intros s; cbn; [apply HPQ|]. intros Hp o Ho.
  destruct (Hp o Ho) as (x & s' & He & Hk). exists x, s'. auto.
Qed.

(** An action whose outcome does not depend on the oracle. *)
Lemma wp_act {A B} (a : action A) (k : A -> prog action B) Q s x s' :
  (forall o, o_error o = None -> exec A o t a s = Some (x, s')) -> wp (k x) Q s' ->
  wp (perform a ≫= k) Q s.
Proof. intros He Hk o Ho. exists x, s'. auto. Qed.

Lemma wp_iter {B} (k : list (string * nat * Z) -> prog action B) Q s :
  (forall l, Forall (fun x => read_conns s !! fst (fst x) = Some (snd (fst x))) l -> wp (k l) Q s) ->
  wp (perform Iter ≫= k) Q s.
Proof.
  intros Hk o Ho. eexists _, s. split; [reflexivity|]. apply Hk, Forall_forall.
  intros [[w arc] tick] Hin. apply list_elem_of_omap in Hin as (w' & _ & Hw).
  by apply fmap_Some in Hw as (arc' & Ha & [= <- -> ->]).
Qed.

(** ** A cache between two clients *)

Definition unlocked (sl : ReadSlot) : Prop := writer sl = None /\ readers sl = ∅ /\ mutex sl = None.

Definition files_ok (s : Shared) : Prop :=
  (forall w conn, disk s !! w = Some conn -> (conn < length (inodes s))%nat)
  /\ forall w w' conn, disk s !! w = Some conn -> disk s !! w' = Some conn -> w = w'.

Definition entry_ok (s : Shared) (w : string) (arc : nat) : Prop :=
  exists conn, disk s !! w = Some conn
    /\ slot_sat s arc (fun sl => slot_world sl = w /\ inner sl = Ready conn).

Record idle (s : Shared) : Prop := {
  id_unlocked : forall arc sl, slots s !! arc = Some sl -> unlocked sl;
  id_entries : forall w arc, read_conns s !! w = Some arc -> entry_ok s w arc;
  id_files : files_ok s;
}.

Definition same_files (s s' : Shared) : Prop :=
  disk s' = disk s /\ inodes s' = inodes s /\ world_locks s' = world_locks s
  /\ stream_lock s' = stream_lock s.

Definition contents (s : Shared) : gmap string D := omap (fun conn => inodes s !! conn) (disk s).

(** Entries only go, and the slots of those that stay are as they were. *)
Lemma idle_shrink s s' :
  idle s -> files_ok s' ->
  (forall a sl, slots s' !! a = Some sl -> unlocked sl) ->
  (forall w a, read_conns s' !! w = Some a ->
     read_conns s !! w = Some a /\ slots s' !! a = slots s !! a /\ disk s' !! w = disk s !! w) ->
  idle s'.
Proof.
  intros Hi Hf Hu He. split; [done| |done]. intros w a Ha. destruct (He w a Ha) as (Ha0 & Hs & Hd).
  destruct (id_entries _ Hi _ _ Ha0) as (conn & Hc & sl & Hsl & ?). exists conn. rewrite Hd. split; [done|].
  exists sl. by rewrite Hs.
Qed.

(** An entry with an open connection comes in. *)
Lemma idle_enter s s' w arc sl conn :
  idle s -> same_files s s' -> slots s !! arc = None -> slots s' !! arc = Some sl ->
  (forall a, a <> arc -> slots s' !! a = slots s !! a) -> unlocked sl -> slot_world sl = w ->
  inner sl = Ready conn -> disk s !! w = Some conn -> read_conns s' = <[w := arc]> (read_conns s) -> idle s'.
Proof.
  intros Hi (Hd & Hn & _) Hnone Hsl Hother Hu Hw Hr Hc Hrc. split.
  - intros a x Hx. destruct (decide (a = arc)) as [->|Hne]; [by simplify_eq|].
    rewrite Hother in Hx by done. by eapply id_unlocked.
  - intros w' a. rewrite Hrc. intros [[-> ->]|[Hne Ha]]%lookup_insert_Some.
    + exists conn. rewrite Hd. split; [done|]. by exists sl.
    + destruct (id_entries _ Hi _ _ Ha) as (c & Hc' & x & Hx & ?). exists c. rewrite Hd. split; [done|].
      exists x. rewrite Hother by congruence. done.
  - unfold files_ok. rewrite Hd, Hn. apply Hi.
Qed.

Lemma idle_same s s' :
  slots s' = slots s -> read_conns s' = read_conns s -> disk s' = disk s -> inodes s' = inodes s ->
  idle s -> idle s'.
Proof.
  intros Hs Hr Hd Hn []. split; [by rewrite Hs| |unfold files_ok; by rewrite Hd, Hn].
  intros w arc. rewrite Hr. intros Ha. unfold entry_ok, slot_sat. rewrite Hd, Hs. by apply id_entries0.
Qed.

Lemma entry_slot s w arc :
  idle s -> read_conns s !! w = Some arc ->
  exists sl conn, slots s !! arc = Some sl /\ slot_world sl = w /\ inner sl = Ready conn /\ disk s !! w = Some conn
    /\ unlocked sl /\ slot_at s arc = sl.
Proof.
  intros Hi Ha. destruct (id_entries _ Hi _ _ Ha) as (conn & Hc & sl & Hsl & Hw & Hr).
  exists sl, conn. split; [done|]. split; [done|]. split; [done|]. split; [done|].
  split; [by eapply id_unlocked|]. unfold slot_at. by rewrite Hsl.
Qed.

(** Each world has its own slot. *)
Lemma entry_inj s w w' arc : idle s -> read_conns s !! w = Some arc -> read_conns s !! w' = Some arc -> w = w'.
Proof.
  intros Hi H1 H2. destruct (entry_slot _ _ _ Hi H1) as (sl & c & Hsl & <- & _).
  destruct (entry_slot _ _ _ Hi H2) as (sl' & c' & Hsl' & <- & _). congruence.
Qed.

Lemma idle_touch s arc z tick : idle s -> idle (set_clock tick (on_slot arc (set_access z) s)).
Proof.
  intros []. split; [| |done].
  - intros a sl. cbn. destruct (decide (a = arc)) as [->|Hne].
    + rewrite list_lookup_alter_eq. intros (x & Hx & ->)%fmap_Some. by apply (id_unlocked0 arc x).
    + rewrite list_lookup_alter_ne by done. apply id_unlocked0.
  - intros w a Ha. destruct (id_entries0 w a Ha) as (conn & Hc & sl & Hsl & ?). exists conn. split; [done|].
    unfold slot_sat. cbn. destruct (decide (a = arc)) as [->|Hne].
    + rewrite list_lookup_alter_eq, Hsl. by exists (set_access z sl).
    + rewrite list_lookup_alter_ne by done. by exists sl.
Qed.

Lemma contents_lookup s w conn :
  files_ok s -> disk s !! w = Some conn -> exists d, inodes s !! conn = Some d /\ contents s !! w = Some d.
Proof.
  intros [Hf _] Hc. destruct (lookup_lt_is_Some_2 (inodes s) conn) as [d Hd]; [by eapply Hf|].
  exists d. split; [done|]. unfold contents. by rewrite lookup_omap, Hc.
Qed.

Lemma contents_none s w : disk s !! w = None -> contents s !! w = None.
Proof. intros Hn. unfold contents. by rewrite lookup_omap, Hn. Qed.

(** ** Eviction *)

Definition calm (s : Shared) {A} : A -> Shared -> Prop := fun _ s' => idle s' /\ same_files s s'.

Lemma same_files_refl s : same_files s s.
Proof. done. Qed.

Lemma same_files_trans s1 s2 s3 : same_files s1 s2 -> same_files s2 s3 -> same_files s1 s3.
Proof. intros (? & ? & ? & ?) (? & ? & ? & ?). repeat split; congruence. Qed.

Lemma calm_trans {A} s s' (p : prog action A) : same_files s s' -> wp p (calm s') s' -> wp p (calm s) s'.
Proof. intros Hs. apply wp_mono. intros a s2 [Hi H2]. split; [done|by eapply same_files_trans]. Qed.

(** The slot of an entry is drained and the entry removed, under the guard. *)
Definition drained (w : string) (arc : nat) (s : Shared) : Shared :=
  set_conns (base.delete w)
    (on_slot arc (set_writer None) (set_state arc Evicted (on_slot arc (set_writer (Some t)) s))).

Lemma drained_calm w arc s :
  idle s -> read_conns s !! w = Some arc -> idle (drained w arc s) /\ same_files s (drained w arc s).
Proof.
  intros Hi Ha. split; [|done]. eapply idle_shrink; [done|apply (id_files s Hi)| |].
  - intros a sl. cbn. destruct (decide (a = arc)) as [->|Hne].
    + rewrite !list_lookup_alter_eq. intros (x3 & (x2 & (x1 & H1 & ->)%fmap_Some & ->)%fmap_Some & ->)%fmap_Some.
      destruct (id_unlocked _ Hi _ _ H1) as (_ & ? & ?). by split.
    + rewrite !list_lookup_alter_ne by done. apply (id_unlocked _ Hi).
  - intros w' a. cbn. intros [Hne Ha']%lookup_delete_Some. split; [done|]. split; [|done].
    rewrite !list_lookup_alter_ne; [done|intros ->; apply Hne; by eapply entry_inj..].
Qed.

Lemma free_write (s : Shared) arc sl : slots s !! arc = Some sl -> unlocked sl -> free_to_write (slot_at s arc) = true.
Proof.
  intros Hsl (Hw & Hr & _). unfold slot_at. rewrite Hsl. unfold free_to_write.
  by rewrite !bool_decide_true.
Qed.

Lemma slot_at_changed (s : Shared) arc f sl : slots s !! arc = Some sl -> slot_at (on_slot arc f s) arc = f sl.
Proof. intros Hsl. unfold slot_at. cbn. by rewrite list_lookup_alter_eq, Hsl. Qed.

Lemma slot_at_alter_state (s : Shared) arc f : inner (slot_at (on_slot arc (set_writer f) s) arc) = inner (slot_at s arc).
Proof. unfold slot_at. cbn. rewrite list_lookup_alter_eq. by destruct (slots s !! arc). Qed.

Lemma wp_remove_if {A} w arc s (k : bool -> prog action A) Q :
  read_conns s !! w = Some arc -> wp (k true) Q (set_conns (base.delete w) s) ->
  wp (remove_evicted_entry w arc ≫= k) Q s.
Proof. intros Ha Hk. eapply wp_act; [|exact Hk]. intros o _. cbn. by rewrite bool_decide_true. Qed.

Lemma wp_try_evict_ready_slot w arc s :
  idle s -> read_conns s !! w = Some arc ->
  wp (try_evict_ready_slot w arc) (fun b s' => b = true /\ calm s b s') s.
Proof.
  intros Hi Ha. destruct (entry_slot _ _ _ Hi Ha) as (sl & conn & Hsl & Hw & Hr & Hd & Hu & Hat).
  unfold try_evict_ready_slot.
  eapply wp_act; [intros o _; cbn; by rewrite (free_write _ _ _ Hsl Hu)|]. cbn [negb].
  eapply wp_act; [intros o _; cbn [exec]; rewrite slot_at_alter_state, Hat, Hr; reflexivity|]. cbn [is_ready negb].
  eapply wp_act; [done|]. eapply wp_act; [done|].
  apply (wp_remove_if w arc _ Return); [done|]. split; [done|]. by apply drained_calm.
Qed.

Definition entries (s : Shared) (l : list (string * nat * Z)) : Prop :=
  Forall (fun x => read_conns s !! fst (fst x) = Some (snd (fst x))) l.

Lemma wp_evict_first l s : idle s -> entries s l -> wp (evict_first l) (calm s) s.
Proof.
  intros Hi Hl. destruct l as [|[[w arc] tick] l]; [by split|]. apply Forall_cons in Hl as [Ha _].
  cbn [evict_first]. apply wp_bind. eapply wp_mono; [|by apply wp_try_evict_ready_slot].
  intros b s1 [-> [Hi1 Hs1]]. eapply wp_act; [done|]. split; [|done]. by eapply idle_same, Hi1.
Qed.

Lemma entries_subset (s : Shared) l l' : (forall x, x ∈ l' -> x ∈ l) -> entries s l -> entries s l'.
Proof. intros Hsub Hl. apply Forall_forall. intros x Hx. by apply (proj1 (Forall_forall _ _) Hl), Hsub. Qed.

Lemma wp_evict_sorted l s : idle s -> entries s l -> wp (evict_first (sort_by_access l)) (calm s) s.
Proof. intros Hi Hl. apply wp_evict_first; [done|]. eapply entries_subset, Hl. apply sort_by_access_subset. Qed.

Lemma wp_try_evict_oldest_sample w s : idle s -> wp (try_evict_oldest_sample w) (calm s) s.
Proof.
  intros Hi. unfold try_evict_oldest_sample. eapply wp_act; [done|]. destruct (_ =? 0)%nat; [by split|].
  eapply wp_act; [done|]. set (s1 := set_cursor _ _). set (start := Z.to_nat _).
  assert (idle s1) as Hi1 by (by eapply idle_same, Hi).
  apply (calm_trans s s1); [done|]. apply wp_iter. intros l Hl.
  assert (entries s1 (push_candidates w (drop start l) [])) as Hc.
  { eapply entries_subset, Hl. intros x Hx%push_candidates_subset. by eapply subseteq_drop. }
  destruct (_ && _); [|by apply wp_evict_sorted]. apply wp_bind, wp_iter. intros l' Hl'.
  apply wp_evict_sorted; [done|]. eapply (entries_subset _ (_ ++ l')); [|by apply Forall_app_2; [exact Hc|exact Hl']].
  intros x [Hx|Hx]%push_candidates_subset%elem_of_app; apply elem_of_app; [by left|right].
  by eapply subseteq_take.
Qed.

Lemma wp_trim budget w s : idle s -> wp (trim_loop max_entries budget w) (calm s) s.
Proof.
  revert s. induction budget as [|budget IH]; intros s Hi; [by split|]. cbn [trim_loop].
  eapply wp_act; [done|]. destruct (_ <=? _)%nat; [by split|].
  apply wp_bind. eapply wp_mono; [|by apply wp_try_evict_oldest_sample]. intros b s1 [Hi1 Hs1].
  destruct b; cbn [negb]; [|by split]. apply (calm_trans s s1); [done|by apply IH].
Qed.

(** ** Reads *)

Section Reads.
Context {R : Type}.

(** A look into the slot of an entry: the guards are taken and given back. *)
Lemma wp_slot {A} w arc d s (f : D -> result sqlite_error R) (k : result sqlite_error SlotRead -> prog action A) Q :
  idle s -> read_conns s !! w = Some arc -> contents s !! w = Some d ->
  (forall s', idle s' -> same_files s s' -> read_conns s' = read_conns s ->
     wp (k (match f d with Ok v => Ok (Done (Some v)) | Err e => Err e end)) Q s') ->
  wp (_ ← touch_slot arc; r ← invoke_via_slot arc f; k r) Q s.
Proof.
  intros Hi Ha Hd Hk. eapply wp_act; [done|]. set (s1 := set_clock _ _).
  assert (idle s1 /\ same_files s s1 /\ read_conns s1 = read_conns s) as (Hi1 & Hs1 & Hr1)
    by (split; [by apply idle_touch|done]). clearbody s1.
  destruct (entry_slot s1 w arc Hi1) as (sl & conn & Hsl & Hw & Hr & Hc & (Huw & Hur & Hum) & Hat); [congruence|].
  assert (inodes s1 !! conn = Some d) as Hf.
  { destruct Hs1 as (E1 & E2 & _). rewrite E1 in Hc.
    destruct (contents_lookup s w conn (id_files _ Hi) Hc) as (d' & Hf & Hd'). congruence. }
  apply wp_bind. unfold invoke_via_slot.
  eapply wp_act; [intros o _; cbn [exec]; unfold free_to_read; by rewrite Hat, bool_decide_true|].
  eapply wp_act; [intros o _; cbn [exec]; by rewrite (slot_at_changed _ _ _ _ Hsl), (Hr : inner (set_readers _ sl) = _)|].
  eapply wp_act; [intros o _; cbn [exec]; by rewrite (slot_at_changed _ _ _ _ Hsl), (Hum : mutex (set_readers _ sl) = _)|].
  eapply wp_act; [by intros o Ho; cbn; rewrite Ho|].
  eapply wp_act; [intros o _; cbn; by rewrite Hf|].
  eapply wp_act; [done|]. eapply wp_act; [done|].
  match goal with |- wp _ _ ?st => assert (slots st = slots s1) as Hst end.
  { apply list_eq. intros a. cbn. destruct (decide (a = arc)) as [->|Hne].
    - rewrite !list_lookup_alter_eq, Hsl. cbn. f_equal. destruct sl; cbn in *. subst. unfold set_readers; cbn. f_equal. set_solver.
    - by rewrite !list_lookup_alter_ne. }
  apply Hk; [by eapply idle_same, Hi1|done|done].
Qed.

(** A world that is not in the map is opened, if its file is there. *)
Lemma wp_lazy_init w s :
  idle s -> read_conns s !! w = None ->
  wp (@lazy_init D R w)
    (fun '((arc, own), init) s' => calm s tt s'
       /\ match disk s !! w with
          | Some _ => own = true /\ init = Ok tt /\ read_conns s' !! w = Some arc
          | None => init = Err (Ok None)
          end) s.
Proof.
  intros Hi Hn. unfold lazy_init. eapply wp_act; [intros o _; cbn [exec]; rewrite Hn; reflexivity|].
  cbn [fst snd]. set (arc := length (slots s)). set (s1 := set_conns _ _).
  set (sl := {| slot_world := w; opener := Some t; inner := Opening; last_access := next_access_tick s;
                writer := Some t; readers := ∅; mutex := None |}).
  assert (slots s1 !! arc = Some sl /\ slots s !! arc = None
          /\ forall a, a <> arc -> slots s1 !! a = slots s !! a) as (Hsl & Hnone & Hother).
  { split; [by apply list_lookup_middle|]. split; [by apply lookup_ge_None_2|]. intros a Hne. cbn.
    destruct (decide (a < arc)%nat); [by apply lookup_app_l|].
    rewrite !lookup_ge_None_2; [done|lia|]. rewrite length_app. cbn. lia. }
  assert (same_files s s1 /\ read_conns s1 = <[w := arc]> (read_conns s)) as [Hf1 Hr1] by done.
  clearbody s1. apply wp_bind. unfold open_slot.
  eapply wp_act; [intros o _; cbn [exec]; unfold slot_at; rewrite Hsl; reflexivity|]. cbn [inner sl default].
  pose proof Hf1 as (Hd1 & Hn1 & _).
  destruct (disk s !! w) as [conn|] eqn:Hc.
  - eapply wp_act; [intros o Ho; cbn [exec]; rewrite Ho, Hd1, Hc; reflexivity|].
    eapply wp_act; [done|]. eapply wp_act; [done|].
    split; [split; [|done]|].
    + eapply (idle_enter s _ w arc (set_writer None (set_inner (Ready conn) sl)) conn); try done.
      * cbn. by rewrite !list_lookup_alter_eq, Hsl.
      * intros a Hne. cbn. rewrite !list_lookup_alter_ne by done. auto.
    + split; [done|]. split; [done|]. cbn. by rewrite Hr1, lookup_insert_eq.
  - eapply wp_act; [intros o Ho; cbn [exec]; rewrite Ho, Hd1, Hc; reflexivity|].
    eapply wp_act; [done|]. eapply wp_act; [done|].
    eapply (wp_remove_if w arc); [cbn; by rewrite Hr1, lookup_insert_eq|].
    eapply wp_act; [done|]. rewrite bool_decide_true by done.
    eapply wp_act; [intros o Ho; cbn; rewrite Ho, Hd1, Hc; reflexivity|].
    split; [split; [|done]|done]. eapply idle_shrink; [exact Hi| | |].
    + unfold files_ok. cbn. rewrite Hd1, Hn1. apply Hi.
    + intros a x. cbn. destruct (decide (a = arc)) as [->|Hne].
      * rewrite !list_lookup_alter_eq, Hsl. by intros [= <-].
      * rewrite !list_lookup_alter_ne by done. rewrite Hother by done. apply (id_unlocked _ Hi).
    + intros w' a. cbn. rewrite Hr1, delete_insert_id by done. intros Ha. split; [done|]. rewrite Hd1. split; [|done].
      destruct (entry_slot _ _ _ Hi Ha) as (x & _ & Hx & _).
      rewrite !list_lookup_alter_ne by congruence. apply Hother. congruence.
Qed.

(** What a read of the world must return. *)
Definition read_spec (m : gmap string D) (w : string) (f : D -> result sqlite_error R)
  : result sqlite_error (option R) :=
  match m !! w with
  | Some d => match f d with Ok v => Ok (Some v) | Err e => Err e end
  | None => Ok None
  end.

Definition answers (s : Shared) (w : string) (f : D -> result sqlite_error R)
  : result sqlite_error (option R) -> Shared -> Prop :=
  fun r s' => r = read_spec (contents s) w f /\ calm s r s'.

Lemma same_contents s s' : same_files s s' -> contents s' = contents s.
Proof. intros (Hd & Hn & _). unfold contents. by rewrite Hd, Hn. Qed.

Lemma answers_trans s s' w f p : same_files s s' -> wp p (answers s' w f) s' -> wp p (answers s w f) s'.
Proof.
  intros Hs. apply wp_mono. intros a s2 [Hr [Hi H2]]. split; [by rewrite Hr, (same_contents s)|].
  split; [done|by eapply same_files_trans].
Qed.

(** After the look into the slot. *)
Lemma wp_finish w (r : result sqlite_error (option R)) s s1 f :
  idle s1 -> same_files s s1 -> r = read_spec (contents s) w f ->
  wp (_ ← best_effort_trim_over_cap max_entries w; mret r) (answers s w f) s1.
Proof.
  intros Hi Hs ->. apply wp_bind. eapply wp_mono; [|by apply wp_trim]. intros _ s2 [Hi2 Hs2].
  split; [done|]. split; [done|by eapply same_files_trans].
Qed.

Lemma wp_drain_own_slot w arc s :
  idle s -> read_conns s !! w = Some arc -> wp (drain_own_slot w arc) (calm s) s.
Proof.
  intros Hi Ha. destruct (entry_slot _ _ _ Hi Ha) as (sl & conn & Hsl & _ & _ & _ & Hu & _).
  unfold drain_own_slot. eapply wp_act; [intros o _; cbn; by rewrite (free_write _ _ _ Hsl Hu)|].
  eapply wp_act; [done|]. eapply wp_act; [done|].
  apply (wp_remove_if w arc); [done|]. by apply drained_calm.
Qed.

Lemma contents_hit s w arc : idle s -> read_conns s !! w = Some arc -> exists d, contents s !! w = Some d.
Proof.
  intros Hi Ha. destruct (entry_slot _ _ _ Hi Ha) as (sl & conn & _ & _ & _ & Hc & _).
  destruct (contents_lookup s w conn (id_files _ Hi) Hc) as (d & _ & Hd). by exists d.
Qed.

Lemma wp_transient budget w (f : D -> result sqlite_error R) s :
  idle s -> wp (transient_loop max_entries (S budget) w f) (answers s w f) s.
Proof.
  intros Hi. cbn [transient_loop]. eapply wp_act; [done|]. destruct (read_conns s !! w) as [arc|] eqn:Ha.
  - destruct (contents_hit _ _ _ Hi Ha) as [d Hd]. eapply wp_slot; [done|done|done|]. intros s1 Hi1 Hs1 Hr1.
    destruct (f d) as [v|e] eqn:Ef.
    + apply wp_finish; [done|done|]. unfold read_spec. by rewrite Hd, Ef.
    + split; [unfold read_spec; by rewrite Hd, Ef|by split].
  - apply wp_bind. eapply wp_mono; [|by apply wp_lazy_init]. intros [[arc own] init] s1 [[Hi1 Hs1] Hcase].
    destruct (disk s !! w) as [conn|] eqn:Hc.
    + destruct Hcase as (-> & -> & Ha1). destruct (contents_lookup s w conn (id_files _ Hi) Hc) as (d & _ & Hd).
      eapply wp_slot; [done|done|by rewrite (same_contents s)|]. intros s2 Hi2 Hs2 Hr2.
      destruct (f d) as [v|e] eqn:Ef.
      * apply wp_bind. eapply wp_mono; [|apply wp_drain_own_slot; [done|congruence]]. intros _ s3 [Hi3 Hs3].
        apply wp_finish; [done|by do 2 (eapply same_files_trans; [done|])|]. unfold read_spec. by rewrite Hd, Ef.
      * split; [unfold read_spec; by rewrite Hd, Ef|]. split; [done|by eapply same_files_trans].
    + rewrite Hcase. split; [unfold read_spec; by rewrite contents_none|by split].
Qed.

Lemma wp_invoke_transient w (f : D -> result sqlite_error R) s :
  idle s -> wp (invoke_transient max_entries w f) (answers s w f) s.
Proof. apply (wp_transient 15). Qed.

Lemma wp_if {A} (b : bool) (p q : prog action A) Q s : wp p Q s -> wp q Q s -> wp (if b then p else q) Q s.
Proof. by destruct b. Qed.

Lemma wp_bump {A} (b : bool) m s (k : unit -> prog action A) Q :
  idle s -> (forall s', idle s' -> same_files s s' -> read_conns s' = read_conns s -> wp (k tt) Q s') ->
  wp ((if b then mret tt else perform (Bump m)) ≫= k) Q s.
Proof.
  intros Hi Hk. destruct b; [by apply Hk|]. eapply wp_act; [done|]. apply Hk; [|done|done]. by eapply idle_same, Hi.
Qed.

Lemma wp_tracked budget miss capped w (f : D -> result sqlite_error R) s :
  idle s -> wp (tracked_loop max_entries budget miss capped w f) (answers s w f) s.
Proof.
  revert miss capped s. induction budget as [|budget IH]; intros miss capped s Hi; [by apply wp_invoke_transient|].
  cbn [tracked_loop]. eapply wp_act; [done|]. destruct (read_conns s !! w) as [arc|] eqn:Ha.
  - destruct (contents_hit _ _ _ Hi Ha) as [d Hd]. eapply wp_slot; [done|done|done|]. intros s1 Hi1 Hs1 Hr1.
    destruct (f d) as [v|e] eqn:Ef; [|split; [unfold read_spec; by rewrite Hd, Ef|by split]].
    apply wp_bind. eapply wp_mono; [|by apply wp_trim]. intros _ s2 [Hi2 Hs2]. eapply wp_act; [done|].
    split; [unfold read_spec; by rewrite Hd, Ef|]. split; [by eapply idle_same, Hi2|by eapply same_files_trans].
  - apply wp_bump; [done|]. intros s1 Hi1 Hs1 Hr1. eapply wp_act; [done|]. destruct (max_entries <=? _)%nat.
    + apply wp_bump; [done|]. intros s2 Hi2 Hs2 _.
      apply wp_bind. eapply wp_mono; [|by apply wp_try_evict_oldest_sample]. intros evicted s3 [Hi3 Hs3].
      apply answers_trans; [by do 2 (eapply same_files_trans; [done|])|].
      apply wp_if; [by apply IH|by apply wp_invoke_transient].
    + pose proof Hs1 as (Hd1 & _).
      eapply wp_act; [intros o Ho; cbn [exec]; rewrite Ho, Hd1; reflexivity|].
      destruct (disk s !! w) as [conn|] eqn:Hc.
      * rewrite bool_decide_true by (by eexists). apply wp_bind.
        eapply wp_mono; [|apply wp_lazy_init; [done|congruence]].
        intros [[arc own] init] s2 [[Hi2 Hs2] Hcase]. rewrite Hd1, Hc in Hcase. destruct Hcase as (-> & -> & Ha2).
        destruct (contents_lookup s w conn (id_files _ Hi) Hc) as (d & _ & Hd).
        assert (same_files s s2) as Hs02 by (by eapply same_files_trans).
        eapply wp_slot; [done|done|by rewrite (same_contents s)|]. intros s3 Hi3 Hs3 _.
        destruct (f d) as [v|e] eqn:Ef.
        -- apply wp_finish; [done|by eapply same_files_trans|]. unfold read_spec. by rewrite Hd, Ef.
        -- split; [unfold read_spec; by rewrite Hd, Ef|]. split; [done|by eapply same_files_trans].
      * rewrite bool_decide_false by (by intros []).
        split; [unfold read_spec; by rewrite contents_none|by split].
Qed.

Lemma wp_read_client w (f : D -> result sqlite_error R) s :
  idle s -> wp (read_client max_entries w f) (answers s w f) s.
Proof. apply wp_tracked. Qed.

(** ** Writes and deletes *)

Definition between (s : Shared) : Prop := idle s /\ world_locks s = ∅ /\ stream_lock s = None.

(** The locks of a write. *)
Definition locked (w : string) (st : option nat) (s : Shared) : Prop :=
  idle s /\ world_locks s = {[w := t]} /\ stream_lock s = st.

Lemma wp_lock_world {A} w s (k : unit -> prog action A) Q :
  between s -> (forall s', locked w None s' -> contents s' = contents s -> wp (k tt) Q s') ->
  wp (perform (LockWorld w) ≫= k) Q s.
Proof.
  intros (Hi & Hl & Hst) Hk. eapply wp_act; [intros o _; cbn; rewrite Hl; reflexivity|].
  apply Hk; [|done]. split; [by eapply idle_same, Hi|]. split; [|done]. cbn. by rewrite Hl.
Qed.

Lemma wp_unlock_world {A} w (a : A) s m :
  locked w None s -> contents s = m ->
  wp (_ ← perform (UnlockWorld w); mret a) (fun r s' => r = a /\ between s' /\ contents s' = m) s.
Proof.
  intros (Hi & Hl & Hst) Hm. eapply wp_act; [done|]. split; [done|]. split; [|done].
  split; [by eapply idle_same, Hi|]. split; [|done]. cbn. by rewrite Hl, delete_singleton_eq.
Qed.

Lemma wp_unlock_both {A} w (a : A) s m :
  locked w (Some t) s -> contents s = m ->
  wp (_ ← perform UnlockStream; _ ← perform (UnlockWorld w); mret a)
    (fun r s' => r = a /\ between s' /\ contents s' = m) s.
Proof.
  intros (Hi & Hl & Hst) Hm. eapply wp_act; [done|]. apply wp_unlock_world; [|done].
  split; [by eapply idle_same, Hi|done].
Qed.

Lemma write_contents w d s s' :
  files_ok s ->
  (disk s' = disk s /\ inodes s' = match disk s !! w with Some conn => <[conn := d]> (inodes s) | None => [] end
   /\ is_Some (disk s !! w))
  \/ (disk s !! w = None /\ disk s' = <[w := length (inodes s)]> (disk s) /\ inodes s' = inodes s ++ [d]) ->
  files_ok s' /\ contents s' = <[w := d]> (contents s).
Proof.
  intros [Hlt Hinj] [(Hd & Hn & [conn Hc])|(Hc & Hd & Hn)].
  - rewrite Hc in Hn. split; [split; [|by rewrite Hd]|].
    + intros w' c. rewrite Hd, Hn, length_insert. apply Hlt.
    + apply map_eq. intros w'. unfold contents. rewrite lookup_omap, Hd, Hn.
      destruct (decide (w' = w)) as [->|Hne].
      * rewrite Hc, lookup_insert_eq. cbn. apply list_lookup_insert_eq. by eapply Hlt.
      * rewrite lookup_insert_ne, lookup_omap by done. destruct (disk s !! w') as [c|] eqn:E; [|done]. cbn.
        apply list_lookup_insert_ne. intros ->. apply Hne. by eapply Hinj.
  - split; [split|].
    + intros w' c. rewrite Hd, Hn, length_app. intros [[_ <-]|[_ Hw]]%lookup_insert_Some; cbn; [lia|].
      apply Hlt in Hw. lia.
    + intros w1 w2 c. rewrite Hd. intros [[<- <-]|[H1 E1]]%lookup_insert_Some [[<- E]|[H2 E2]]%lookup_insert_Some;
        [done|apply Hlt in E2; lia|apply Hlt in E1; lia|by eapply Hinj].
    + apply map_eq. intros w'. unfold contents. rewrite lookup_omap, Hd, Hn.
      destruct (decide (w' = w)) as [->|Hne].
      * rewrite !lookup_insert_eq. cbn. by apply list_lookup_middle.
      * rewrite !lookup_insert_ne, lookup_omap by done. destruct (disk s !! w') as [c|] eqn:E; [|done]. cbn.
        apply lookup_app_l. by eapply Hlt.
Qed.

Lemma wp_write_client w d s :
  between s ->
  wp (@write_client D R w d) (fun r s' => r = Ok None /\ between s' /\ contents s' = <[w := d]> (contents s)) s.
Proof.
  intros Hb. unfold write_client. apply wp_lock_world; [done|]. intros s1 (Hi1 & Hl1 & Hst1) <-.
  eapply wp_act; [done|]. clear s Hb. rename s1 into s.
  assert (forall s2, slots s2 = slots s -> read_conns s2 = base.delete w (read_conns s) ->
    (forall w', w' <> w -> disk s2 !! w' = disk s !! w') -> files_ok s2 -> idle s2) as Hidle.
  { intros s2 Hs Hr Hd Hf. eapply idle_shrink; [done|done|by rewrite Hs; apply (id_unlocked _ Hi1)|].
    intros w' a. rewrite Hr, Hs. intros [Hne Ha]%lookup_delete_Some. auto. }
  destruct (disk s !! w) as [conn|] eqn:Hc.
  - eapply wp_act; [intros o _; cbn; rewrite Hc; reflexivity|].
    match goal with |- wp _ _ ?s2 => destruct (write_contents w d s s2 (id_files _ Hi1)) as [Hf Hm] end;
      [left; rewrite Hc; split; [done|split; [done|by eexists]]|].
    apply wp_unlock_world; [split; [by apply Hidle|done]|done].
  - eapply wp_act; [intros o _; cbn; rewrite Hc; reflexivity|].
    match goal with |- wp _ _ ?s2 => destruct (write_contents w d s s2 (id_files _ Hi1)) as [Hf Hm] end; [by right|].
    apply wp_unlock_world; [|done]. split; [|done]. apply Hidle; [done|done| |done].
    intros w' Hne. cbn. by rewrite lookup_insert_ne.
Qed.

(** The slots after a delete: those of other worlds as they were, a dead one or
    two more. *)
Lemma idle_removed w s s' :
  idle s -> disk s' = base.delete w (disk s) -> inodes s' = inodes s ->
  read_conns s' = base.delete w (read_conns s) ->
  (forall a, slots s' !! a = slots s !! a \/ read_conns s !! w = Some a \/ slots s !! a = None) ->
  (forall a sl, slots s' !! a = Some sl -> unlocked sl) ->
  idle s' /\ contents s' = base.delete w (contents s).
Proof.
  intros Hi Hd Hn Hr Hs Hu. split.
  - eapply idle_shrink; [done| |done|].
    + destruct (id_files _ Hi) as [Hlt Hinj]. unfold files_ok. rewrite Hd, Hn. split.
      * intros w' c [_ Hw]%lookup_delete_Some. by eapply Hlt.
      * intros w1 w2 c [_ H1]%lookup_delete_Some [_ H2]%lookup_delete_Some. by eapply Hinj.
    + intros w' a. rewrite Hr, Hd. intros [Hne Ha]%lookup_delete_Some. split; [done|].
      rewrite lookup_delete_ne by done. split; [|done]. destruct (Hs a) as [?|[Ha'|Hnone]]; [done| |].
      * destruct Hne. by eapply entry_inj.
      * destruct (entry_slot _ _ _ Hi Ha) as (x & _ & Hx & _). congruence.
  - apply map_eq. intros w'. unfold contents. rewrite lookup_omap, Hd, Hn.
    destruct (decide (w' = w)) as [->|Hne]; [by rewrite !lookup_delete_eq|].
    by rewrite !lookup_delete_ne, lookup_omap.
Qed.

(** The slots once a tombstone is appended. *)
Lemma tombstone_slots w (s : Shared) a :
  slots (snd (new_slot w None Tombstone s)) !! a = slots s !! a
  \/ slots s !! a = None /\ exists sl, slots (snd (new_slot w None Tombstone s)) !! a = Some sl /\ unlocked sl.
Proof.
  cbn. destruct (decide (a < length (slots s))%nat); [left; by apply lookup_app_l|].
  destruct (decide (a = length (slots s))) as [->|Hne].
  - right. split; [by apply lookup_ge_None_2|]. eexists. split; [by apply list_lookup_middle|done].
  - left. rewrite !lookup_ge_None_2; [done|lia|]. rewrite length_app. cbn. lia.
Qed.

Lemma tombstone_unlocked w s a sl :
  idle s -> slots (snd (new_slot w None Tombstone s)) !! a = Some sl -> unlocked sl.
Proof.
  intros Hi Hsl. destruct (tombstone_slots w s a) as [E|[_ (x & Hx & Hu)]]; [|congruence].
  rewrite E in Hsl. by eapply id_unlocked.
Qed.

Lemma wp_remove_world (r : result sqlite_error (option R)) w s :
  locked w (Some t) s -> is_Some (disk s !! w) ->
  wp (_ ← install_tombstone_blocking w; _ ← perform (Unlink w); _ ← clear_tombstone w;
      _ ← perform UnlockStream; _ ← perform (UnlockWorld w); mret r)
    (fun r' s' => r' = r /\ between s' /\ contents s' = base.delete w (contents s)) s.
Proof.
  intros (Hi & Hl & Hlst) Hc. unfold install_tombstone_blocking. apply wp_bind.
  eapply wp_act; [done|]. set (s1 := set_conns _ _).
  assert (forall a, slots s1 !! a = slots s !! a \/ slots s !! a = None) as Hs
    by (intros a; destruct (tombstone_slots w s a) as [E|[? _]]; [left; exact E|by right]).
  assert (forall a sl, slots s1 !! a = Some sl -> unlocked sl) as Hu
    by (intros a sl; by apply (tombstone_unlocked w s)).
  assert (same_files s s1 /\ base.delete w (read_conns s1) = base.delete w (read_conns s)) as [(Hd1 & Hn1 & Hl1 & Hst1) Hr1]
    by (split; [done|]; apply delete_insert_eq). clearbody s1.
  destruct (read_conns s !! w) as [prev|] eqn:Hp.
  - destruct (entry_slot _ _ _ Hi Hp) as (sl & conn & Hsl & _).
    assert (slots s1 !! prev = Some sl) as Hsl1 by (destruct (Hs prev); congruence).
    eapply wp_act; [intros o _; cbn; by rewrite (free_write _ _ _ Hsl1 (Hu _ _ Hsl1))|].
    eapply wp_act; [done|]. eapply wp_act; [done|].
    eapply wp_act; [intros o Ho; cbn; by rewrite Ho|]. eapply wp_act; [done|].
    match goal with |- wp _ _ ?s2 => destruct (idle_removed w s s2 Hi) as [Hi2 Hm2] end.
    + cbn. by rewrite Hd1.
    + done.
    + done.
    + intros a. cbn. destruct (decide (a = prev)) as [->|Hne]; [by right; left|].
      rewrite !list_lookup_alter_ne by done. destruct (Hs a); auto.
    + intros a x. cbn. destruct (decide (a = prev)) as [->|Hne].
      * rewrite !list_lookup_alter_eq, Hsl1. intros [= <-]. destruct (Hu _ _ Hsl1) as (_ & ? & ?). by split.
      * rewrite !list_lookup_alter_ne by done. apply Hu.
    + apply wp_unlock_both; [split; [done|split; cbn; congruence]|done].
  - eapply wp_act; [intros o Ho; cbn; by rewrite Ho|]. eapply wp_act; [done|].
    match goal with |- wp _ _ ?s2 => destruct (idle_removed w s s2 Hi) as [Hi2 Hm2] end.
    + cbn. by rewrite Hd1.
    + done.
    + done.
    + intros a. cbn. destruct (Hs a); auto.
    + done.
    + apply wp_unlock_both; [split; [done|split; cbn; congruence]|done].
Qed.

(** What a delete must return and leave. *)
Definition delete_spec (m : gmap string D) (w : string) (f : D -> result sqlite_error R)
  : result sqlite_error (option R) * gmap string D :=
  (read_spec m w f, match read_spec m w f with Ok (Some _) => base.delete w m | _ => m end).

Lemma read_spec_present m w f v : read_spec m w f = Ok (Some v) -> is_Some (m !! w).
Proof. unfold read_spec. by destruct (m !! w). Qed.

Lemma contents_disk s w : is_Some (contents s !! w) -> is_Some (disk s !! w).
Proof. unfold contents. rewrite lookup_omap. intros [x Hx]. destruct (disk s !! w); [by eexists|done]. Qed.

Lemma wp_delete_client w (f : D -> result sqlite_error R) s :
  between s ->
  wp (delete_client max_entries w f)
    (fun r s' => between s' /\ (r, contents s') = delete_spec (contents s) w f) s.
Proof.
  intros Hb. unfold delete_client. apply wp_lock_world; [done|]. intros s0 (Hi0 & Hl0 & Hst0) <-.
  eapply wp_act; [intros o _; cbn; rewrite Hst0; reflexivity|]. set (s1 := set_stream _ _).
  assert (locked w (Some t) s1 /\ contents s1 = contents s0) as [(Hi1 & Hl1 & Hst1) <-]
    by (split; [split; [by eapply idle_same, Hi0|done]|done]). clearbody s1.
  apply wp_bind. eapply wp_mono; [|by apply wp_tracked]. intros r s2 [Hr [Hi2 Hs2]].
  assert (locked w (Some t) s2) as Hl2 by (destruct Hs2 as (_ & _ & ? & ?); split; [done|split; congruence]).
  unfold delete_spec. rewrite <- Hr, <- (same_contents _ _ Hs2).
  destruct r as [[v|]|e].
  - eapply wp_mono; [|apply wp_remove_world; [done|]].
    + by intros r' s' (-> & ? & ->).
    + apply contents_disk. rewrite (same_contents s1) by done. by eapply read_spec_present.
  - eapply wp_mono; [|by apply wp_unlock_both]. by intros r' s' (-> & ? & ->).
  - eapply wp_mono; [|by apply wp_unlock_both]. by intros r' s' (-> & ? & ->).
Qed.

(** ** Any sequence of clients *)

Inductive cache_op :=
| ReadOp (w : string) (f : D -> result sqlite_error R)
| DeleteOp (w : string) (f : D -> result sqlite_error R)
| WriteOp (w : string) (d : D).

Definition op_client (op : cache_op) : prog action (result sqlite_error (option R)) :=
  match op with
  | ReadOp w f => read_client max_entries w f
  | DeleteOp w f => delete_client max_entries w f
  | WriteOp w d => write_client w d
  end.

(** The same operation on a plain map from worlds to what their files hold. *)
Definition op_spec (op : cache_op) (m : gmap string D) : result sqlite_error (option R) * gmap string D :=
  match op with
  | ReadOp w f => (read_spec m w f, m)
  | DeleteOp w f => delete_spec m w f
  | WriteOp w d => (Ok None, <[w := d]> m)
  end.

Fixpoint run_clients (ops : list cache_op) : prog action (list (result sqlite_error (option R))) :=
  match ops with
  | [] => mret []
  | op :: ops => r ← op_client op; rs ← run_clients ops; mret (r :: rs)
  end.

Fixpoint run_spec (ops : list cache_op) (m : gmap string D)
  : list (result sqlite_error (option R)) * gmap string D :=
  match ops with
  | [] => ([], m)
  | op :: ops => let '(r, m) := op_spec op m in let '(rs, m) := run_spec ops m in (r :: rs, m)
  end.

Lemma wp_op op s :
  between s -> wp (op_client op) (fun r s' => between s' /\ (r, contents s') = op_spec op (contents s)) s.
Proof.
  intros Hb. destruct op as [w f|w f|w d]; cbn [op_client op_spec].
  - eapply wp_mono; [|by apply wp_read_client, Hb]. intros r s' [-> [Hi Hs]].
    split; [split; [done|]|by rewrite (same_contents s s')]. destruct Hs as (_ & _ & -> & ->). apply Hb.
  - by apply wp_delete_client.
  - eapply wp_mono; [|by apply wp_write_client]. by intros r s' (-> & ? & ->).
Qed.

Lemma wp_run_clients ops s :
  between s -> wp (run_clients ops) (fun rs s' => between s' /\ (rs, contents s') = run_spec ops (contents s)) s.
Proof.
  revert s. induction ops as [|op ops IH]; intros s Hb; [done|]. cbn [run_clients run_spec].
  apply wp_bind. eapply wp_mono; [|by apply wp_op]. intros r s1 [Hb1 Hop]. rewrite <- Hop.
  apply wp_bind. eapply wp_mono; [|by apply IH]. intros rs s2 [Hb2 Hrs]. rewrite <- Hrs. done.
Qed.

Lemma between_new : between (ReadCache_new ∅ []).
Proof. split; [|done]. split; cbn; [done|done|]. by split. Qed.
End Reads.
End Sequential.

(** C14: reads, writes and deletes that run one after another on the cache, with
    no error from outside and any iteration order of its map, all return, give
    the results the same operations give on a plain map from worlds to file
    contents, and leave the files that map holds: no eviction, transient read or
    cached connection can be observed. *)
Theorem cache_transparent {D R : Type} (max_entries t : nat) (ops : list (@cache_op D R)) :
  wp t (run_clients max_entries ops)
    (fun rs s => (rs, contents s) = run_spec ops ∅) (ReadCache_new ∅ []).
Proof.
  eapply wp_mono; [|apply wp_run_clients, between_new]. intros rs s [_ ->]. reflexivity.
Qed.
