(* ===== verification/Frames.v ===== *)
(** * Relations every operation of the engine keeps

    An operation keeps a preorder [R] on states when its final state is related
    to its initial one, whatever its result.  The [keep] tactic walks through an
    operation and leaves the steps that change the state in a way of their own.

    A preorder that no field update can break, save those of memory worlds, which
    it bounds to one memory world at a time, is kept by replace, append and
    delete.  Two instances: the file-operation gate is neither opened nor closed,
    and the memory store only ever holds memory worlds. *)

From S2P Require Import Prelude.
From S2P Require Import WorldSchema.
From S2P Require Import Auth.
From S2P Require Import Crypto.
From S2P Require Import Etag.
From S2P Require Import Types.
From S2P Require Import Db.
From S2P Require Import WorldWrite.
From S2P Require Import Store.
From S2P Require Import StorageClass.
From S2P Require Import Quota.
From S2P Require Import Core.
From S2P Require Import WorldOps.
From S2P Require Import DeleteOps.

Create HintDb keeps.

Section Keeps.
Context (R : relation Core) `{!PreOrder R} {E : Type}.

Definition keeps {E A} (m : op E A) : Prop := forall c, R c (snd (m c)).

Lemma keeps_bind {A B} (m : op E A) (f : A -> op E B) :
  keeps m -> (forall a, keeps (f a)) -> keeps (mbind f m).
Proof.
  intros Hm Hf c. unfold mbind, op_bind. specialize (Hm c). destruct (m c) as [[a|e] c1]; cbn in *; [|done].
  etrans; [done|apply Hf].
Qed.

Lemma keeps_ret {A} (a : A) : keeps (mret a : op E A).
Proof. by intros c. Qed.

Lemma keeps_lift {A} (r : result E A) : keeps (lift r).
Proof. by intros c. Qed.

Lemma keeps_fail {A} (e : E) : keeps (fail e : op E A).
Proof. by intros c. Qed.

Lemma keeps_gets {A} (f : Core -> A) : keeps (gets f : op E A).
Proof. by intros c. Qed.

Lemma keeps_modify f : (forall c, R c (f c)) -> keeps (modify f : op E unit).
Proof. intros Hf c. apply Hf. Qed.

Lemma keeps_on_drop {A} f (m : op E A) :
  (forall c, R c (f c)) -> keeps m -> keeps (on_drop f m).
Proof.
  intros Hf Hm c. unfold on_drop. specialize (Hm c). destruct (m c) as [[a|e] c1]; cbn in *; [done|].
  etrans; [done|apply Hf].
Qed.

Lemma keeps_try {E' A} (m : op E A) : keeps m -> keeps (try m : op E' _).
Proof. intros Hm c. unfold try. specialize (Hm c). by destruct (m c). Qed.

Lemma keeps_begin (e : E) : keeps (begin_file_op e).
Proof. intros c. unfold begin_file_op. by case_match. Qed.

Lemma keeps_if {A} (b : bool) (m1 m2 : op E A) : keeps m1 -> keeps m2 -> keeps (if b then m1 else m2).
Proof. by destruct b. Qed.

Lemma keeps_conv {E' A} (g : E' -> E) (m : op E' A) :
  keeps m -> keeps (fun c => let '(r, c) := m c in (map_err g r, c)).
Proof. intros Hm c. specialize (Hm c). by destruct (m c). Qed.

(** An operation that only looks at the state. *)
Lemma keeps_look {A} (f : Core -> result E A) : keeps (fun c => (f c, c)).
Proof. by intros c. Qed.

Lemma keeps_reserve_events (e : E) :
  (forall f c, R c (set_counters f c)) -> keeps (reserve_events e).
Proof. intros Hc c. unfold reserve_events. destruct (reserve_audit_events _); [apply Hc|done]. Qed.

Lemma keeps_reserve_storage cfg a b d :
  (forall f c, R c (set_counters f c)) -> keeps (reserve_storage cfg a b d).
Proof.
  intros Hc c. unfold reserve_storage.
  destruct (reserve_storage_after_prune _ _ _ _ _) as [[]|]; [apply Hc|done].
Qed.

Lemma keeps_preconditions `{Crypto} `{Rusqlite} cfg env w p :
  keeps (check_write_preconditions cfg env w p).
Proof. intros c. unfold check_write_preconditions. by destruct (is_empty p). Qed.

Lemma keeps_append_metadata `{Rusqlite} env w : keeps (append_metadata env w).
Proof. intros c. unfold append_metadata. by destruct (MemoryWorldPath_new w). Qed.
End Keeps.

Ltac keep :=
  repeat first
    [ progress intros | solve [auto with keeps]
    | apply keeps_bind; [typeclasses eauto|..] | apply keeps_ret; typeclasses eauto
    | apply keeps_lift; typeclasses eauto | apply keeps_fail; typeclasses eauto
    | apply keeps_gets; typeclasses eauto | apply keeps_begin; typeclasses eauto
    | apply keeps_if | apply keeps_conv | apply keeps_try
    | apply keeps_look; typeclasses eauto
    | apply keeps_reserve_events; [typeclasses eauto|..]
    | apply keeps_reserve_storage; [typeclasses eauto|..]
    | apply keeps_preconditions; typeclasses eauto
    | apply keeps_append_metadata; typeclasses eauto
    | apply keeps_modify | apply keeps_on_drop; [typeclasses eauto|..]
    | match goal with
      | |- keeps _ (let '(_, _) := ?x in _) => destruct x
      | |- keeps _ (match ?x with _ => _ end) => destruct x
      end
    | done | eassumption ].

(** A memory operation changes the entry of its own world only. *)
Definition one_entry (w : string) (m m' : MemoryStore) : Prop :=
  forall v, v <> w -> ms_map m' !! v = ms_map m !! v.

Class Framed (R : relation Core) : Prop := {
  fr_preorder :: PreOrder R;
  fr_files f c : R c (set_files f c);
  fr_broken f c : R c (set_broken f c);
  fr_lost f c : R c (set_lost f c);
  fr_conns f c : R c (set_conns f c);
  fr_counters f c : R c (set_counters f c);
  fr_verified f c : R c (set_verified f c);
  fr_tombstones f c : R c (set_tombstones f c);
  fr_ledger conn n c : R c (set_ledger conn n c);
  fr_created b c : R c (set_ledger_created b c);
  fr_stream n l s c : R c (set_stream n l s c);
  fr_mem w m c : is_memory_world w = true -> one_entry w (mem c) m -> R c (set_mem m c);
}.

(** ** The memory store *)

Section Memory.
Context `{Crypto}.

Lemma commit_entry_one s w e previous next max s' :
  commit_entry s w e previous next max = Ok s' -> one_entry w s s'.
Proof.
  unfold commit_entry. intros Hc v Hv. inv_ok. destruct (_ <? _)%Z; simplify_eq. cbn. by rewrite lookup_insert_ne.
Qed.

Lemma write_one s w body ct hs max o s' :
  write_with_quota s w body ct hs max = Ok (o, s') -> one_entry w s s'.
Proof.
  unfold write_with_quota. intros Hw. inv_ok. match goal with p : bool * Z |- _ => destruct p end.
  inv_ok. simplify_eq. by eapply commit_entry_one.
Qed.

Lemma append_one s w body max o s' :
  append_with_quota s w body max = Ok (o, s') -> one_entry w s s'.
Proof.
  unfold append_with_quota. intros Ha. destruct (ms_map s !! w); [|by simplify_eq]. inv_ok. simplify_eq. by eapply commit_entry_one.
Qed.

Lemma delete_one s w : one_entry w s (snd (Store.delete s w)).
Proof.
  intros v Hv. unfold Store.delete. repeat case_match; try done. cbn. by rewrite lookup_delete_ne.
Qed.
End Memory.

Lemma memory_path w m : MemoryWorldPath_new w = Some m -> m = w /\ is_memory_world w = true.
Proof. unfold MemoryWorldPath_new. destruct (is_memory_world w); [|done]. by intros [= <-]. Qed.

(** ** The operations *)

Section Ops.
Context `{Crypto} `{Rusqlite} (cfg : Config) (R : relation Core) `{!Framed R}.
Notation keeps := (keeps R).
#[local] Hint Extern 1 (R _ _) =>
  first [ apply fr_files | apply fr_broken | apply fr_lost | apply fr_conns | apply fr_counters | apply fr_verified | apply fr_tombstones
        | apply fr_ledger | apply fr_created | apply fr_stream ] : keeps.

Lemma fr_clear_tombstone w c : R c (clear_tombstone w c).
Proof. unfold clear_tombstone. destruct (is_memory_world w); [done|auto with keeps]. Qed.

Lemma fr_install_tombstone w c : R c (install_tombstone_blocking w c).
Proof. unfold install_tombstone_blocking. destruct (is_memory_world w); [done|auto with keeps]. Qed.

Lemma fr_notify max verb target etag aux c : R c (notify_with_aux max verb target etag aux c).
Proof. apply fr_stream. Qed.

Lemma fr_notify_write verb n fn c : R c (notify_write cfg verb n fn c).
Proof. unfold notify_write. destruct fn; [etrans; apply fr_notify|apply fr_notify]. Qed.

Lemma fr_notify_ledger ev c : R c (notify_ledger_event cfg ev c).
Proof.
  unfold notify_ledger_event. destruct (le_format_event ev); [etrans; apply fr_notify|apply fr_notify].
Qed.

Lemma fr_count_ledger c : R c (count_ledger c).
Proof.
  unfold count_ledger. destruct (delete_ledger_created c); [apply fr_created|].
  etrans; [apply (fr_created true)|apply fr_counters].
Qed.

Lemma fr_open_world f g w : keeps (open_world f g w).
Proof.
  intros c. unfold open_world. destruct (open_file w c) as [[db|]|err]; [done| |done].
  destruct (open_world_paths_with_generation_minter_and_kind _ _ _) as [r [raw|]]; [|done]. cbn.
  destruct (verify_open_shape raw); [apply fr_files|apply fr_broken].
Qed.
#[local] Hint Resolve fr_clear_tombstone fr_install_tombstone fr_notify fr_notify_write fr_notify_ledger
  fr_count_ledger : keeps.

Lemma fr_delete_preconditions env w p : keeps (delete_check_preconditions cfg env w p).
Proof. intros c. unfold delete_check_preconditions. by destruct (is_empty p). Qed.

Lemma fr_cached_write_conn env w : keeps (cached_write_conn env w).
Proof.
  intros c. unfold cached_write_conn. destruct (fault env IoOpen); [done|].
  destruct (write_conns c !! w); [done|]. apply keeps_bind; [typeclasses eauto|apply fr_open_world|].
  intros opened. apply keeps_bind; [typeclasses eauto| |intros []; by apply keeps_ret; typeclasses eauto].
  apply keeps_modify. intros c'. apply fr_conns.
Qed.

Lemma fr_cached_existing env w : keeps (cached_existing_write_conn env w).
Proof. intros c. unfold cached_existing_write_conn. repeat case_match; try done. apply fr_conns. Qed.

(** A committed transaction: the file, the connection's kind and the verified
    prefix change. *)
Ltac updates := repeat first [done | apply fr_files | apply fr_conns | apply fr_verified
                             | etrans; [|apply fr_files] | etrans; [|apply fr_conns]
                             | etrans; [|apply fr_verified] ].

Lemma fr_write_on_conn env w opened req : keeps (write_on_conn cfg env w opened req).
Proof.
  intros c. unfold write_on_conn. destruct (files c !! w), (fault env IoTransaction); try done.
  destruct (write_with_audit_checked_retaining_on_conn _ _ _ _ _ _ _ _ _ _) as [[[]]|]; cbn; updates.
Qed.

Lemma fr_append_on_conn env w body ct hs : keeps (append_on_conn cfg env w body ct hs).
Proof.
  intros c. unfold append_on_conn. destruct (files c !! w), (fault env IoTransaction); try done.
  destruct (append_with_audit_retaining_on_conn _ _ _ _ _ _ _ _ _ _) as [[[[]]]|]; cbn; updates.
Qed.

Lemma fr_replace_memory w req : keeps (replace_memory cfg w req).
Proof.
  intros c. unfold replace_memory. destruct (MemoryWorldPath_new w) eqn:Ew; [|done].
  apply memory_path in Ew as [-> Hw]. destruct (write_with_quota _ _ _ _ _ _) as [[]|] eqn:E; [|done].
  apply (fr_mem w); [done|by eapply write_one].
Qed.

Lemma fr_append_memory w req : keeps (append_memory cfg w req).
Proof.
  intros c. unfold append_memory. destruct (MemoryWorldPath_new w) eqn:Ew; [|done].
  apply memory_path in Ew as [-> Hw]. destruct (append_with_quota _ _ _ _) as [[[]]|] eqn:E; [..|done].
  all: apply (fr_mem w); [done|by eapply append_one].
Qed.

#[local] Hint Resolve fr_delete_preconditions fr_cached_write_conn
  fr_cached_existing fr_write_on_conn fr_append_on_conn fr_replace_memory fr_append_memory : keeps.

Lemma fr_replace_durable env w req : keeps (replace_durable cfg env w req).
Proof. unfold replace_durable. keep. Qed.

Lemma fr_append_durable env w len ct hs n req : keeps (append_durable cfg env w len ct hs n req).
Proof. unfold append_durable. keep. Qed.
#[local] Hint Resolve fr_replace_durable fr_append_durable : keeps.

Lemma fr_replace_write env permit req : keeps (replace_write cfg env permit req).
Proof. unfold replace_write, replace_write_blocking. keep. Qed.

Lemma fr_append_write env permit req : keeps (append_write cfg env permit req).
Proof. unfold append_write, append_write_blocking. keep. Qed.

Lemma fr_open_ledger le : keeps (open_ledger le).
Proof.
  unfold open_ledger. apply keeps_bind; [typeclasses eauto| |intros []; keep].
  intros c. unfold connect_ledger. destruct (ledger_conn c); [done|]. destruct (le_open_fault le); [done|].
  pose proof (fr_open_world (le_creation le) (le_generation le) DELETE_LEDGER_WORLD c) as Hg.
  destruct (open_world _ _ _ c) as [[k|err] c1]; cbn in *; [|exact Hg]. etrans; [exact Hg|apply fr_ledger].
Qed.

Lemma fr_delete_now env w : keeps (delete_world_now env w).
Proof.
  intros c. unfold delete_world_now. destruct (MemoryWorldPath_new w) as [m|] eqn:Ew.
  - apply memory_path in Ew as [-> Hw]. pose proof (delete_one (mem c) w) as Hd.
    destruct (Store.delete (mem c) w). by apply (fr_mem w).
  - pose proof (fun c => transitivity (fr_files (base.delete w) c) (fr_broken (base.delete w) _)) as Hr.
    destruct (open_file w c) as [[db|]|err]; [|done|]; (destruct (removed env); [apply Hr|done|]);
      (etrans; [apply fr_lost|apply Hr]).
Qed.
#[local] Hint Resolve fr_open_ledger fr_delete_now : keeps.

Lemma fr_ledger_append le job : keeps (ledger_append cfg le job).
Proof. unfold ledger_append. keep. Qed.
#[local] Hint Resolve fr_ledger_append : keeps.

Lemma fr_append_ledger le job : keeps (append_ledger_event_and_notify cfg le job).
Proof. unfold append_ledger_event_and_notify. keep. Qed.
#[local] Hint Resolve fr_append_ledger : keeps.

Lemma fr_removal env w usage : keeps (removal env w usage).
Proof. unfold removal. keep. Qed.

Lemma fr_finish env commit failed : keeps (finish_delete cfg env commit failed).
Proof. unfold finish_delete. keep. Qed.
#[local] Hint Resolve fr_removal fr_finish : keeps.

Lemma fr_perform env w sha ct hs usage : keeps (perform_delete cfg env w sha ct hs usage).
Proof. unfold perform_delete. keep. Qed.
#[local] Hint Resolve fr_perform : keeps.

Lemma fr_delete env w req : keeps (delete cfg env w req).
Proof. unfold delete, delete_blocking, delete_prepare. keep. Qed.
End Ops.

(** ** The gate *)

Definition same_gate (c c' : Core) : Prop := closed c' = closed c.

#[global] Instance same_gate_framed : Framed same_gate.
Proof.
  split; try (intros; reflexivity). split; [intros c; reflexivity|].
  intros c1 c2 c3 H1 H2. unfold same_gate in *. congruence.
Qed.

(** ** The names of memory worlds *)

Definition memory_keys (c : Core) : Prop :=
  forall w, is_Some (ms_map (mem c) !! w) -> is_memory_world w = true.

Definition keys_kept (c c' : Core) : Prop := memory_keys c -> memory_keys c'.

#[global] Instance keys_kept_framed : Framed keys_kept.
Proof.
  split; try (intros; intros Hk; exact Hk).
  - split; [intros c Hk; exact Hk|]. intros c1 c2 c3 H1 H2 Hk. by apply H2, H1.
  - intros w m c Hw Hm Hk v Hv. destruct (decide (v = w)) as [->|Hne]; [done|].
    cbn in Hv. rewrite Hm in Hv by done. by apply Hk.
Qed.
