(* ===== verification/Startup.v ===== *)
(** * Configuration and startup

    Models [EngineBuilder] and its [build] ([core/src/engine.rs]), the scans of
    the data directory ([core/src/world/files.rs], [usages] of
    [core/src/world.rs]) and the errors of the writer lock
    ([core/src/data_lock.rs]).  The data directory is the list of its entries in
    the order the file system gives them; what the file system, the lock file,
    SQLite and the random source may report comes in a [StartupEnv]. *)

From S2P Require Import Prelude.
From S2P Require Import RustStr.
From S2P Require Import Path.
From S2P Require Import Auth.
From S2P Require Import Crypto.
From S2P Require Import Types.
From S2P Require Import Db.
From S2P Require Import AuditVerify.
From S2P Require Import AuditGates.
From S2P Require Import Cas.
From S2P Require Import WorldWrite.
From S2P Require Import Store.
From S2P Require Import Quota.
From S2P Require Import StorageClass.
From S2P Require Import Core.

(** ** Defaults and the builder *)

Definition DEFAULT_MAX_WORLD_BYTES : Z := 64 * 1024 * 1024.
Definition DEFAULT_MAX_MEMORY_BYTES : Z := 256 * 1024 * 1024.
Definition DEFAULT_LISTEN_REPLAY_MAX : Z := 1024.
Definition DEFAULT_MAX_LISTEN_CONNECTIONS : Z := 1024.
Definition DEFAULT_READ_CACHE_MAX_ENTRIES : Z := 5000.

Record EngineBuilder := {
  eb_key : option string;
  eb_tokens : Tokens;
  eb_max_world_bytes : Z;
  eb_max_memory_bytes : Z;
  eb_max_storage_bytes : option Z;
  eb_max_listen_connections : Z;
  eb_listen_replay_max : Z;
  eb_read_cache_max_entries : Z;
  eb_retained_body_count : Z;
}.

Definition EngineBuilder_default : EngineBuilder :=
  {| eb_key := None; eb_tokens := {| tok_read := None; tok_write := None; tok_approve := None |};
     eb_max_world_bytes := DEFAULT_MAX_WORLD_BYTES;
     eb_max_memory_bytes := DEFAULT_MAX_MEMORY_BYTES; eb_max_storage_bytes := None;
     eb_max_listen_connections := DEFAULT_MAX_LISTEN_CONNECTIONS;
     eb_listen_replay_max := DEFAULT_LISTEN_REPLAY_MAX;
     eb_read_cache_max_entries := DEFAULT_READ_CACHE_MAX_ENTRIES;
     eb_retained_body_count := DEFAULT_RETAINED_BODY_COUNT |}.

Definition nonzero_or_default (value default : Z) : Z :=
  if (value =? 0)%Z then default else value.

(** One call on the builder; a [usize] argument is a number up to [usize_max]. *)
Inductive setting :=
| SetKey (key : string)
| SetReadToken (token : string)
| SetWriteToken (token : string)
| SetApproveToken (token : string)
| SetMaxWorldBytes (value : Z)
| SetMaxMemoryBytes (value : Z)
| SetMaxStorageBytes (value : option Z)
| SetMaxListenConnections (value : Z)
| SetListenReplayMax (value : Z)
| SetReadCacheMaxEntries (value : Z)
| SetRetainedBodyCount (value : Z).

Definition set_tokens (f : Tokens -> Tokens) (b : EngineBuilder) : EngineBuilder :=
  {| eb_key := eb_key b; eb_tokens := f (eb_tokens b); eb_max_world_bytes := eb_max_world_bytes b;
     eb_max_memory_bytes := eb_max_memory_bytes b; eb_max_storage_bytes := eb_max_storage_bytes b;
     eb_max_listen_connections := eb_max_listen_connections b;
     eb_listen_replay_max := eb_listen_replay_max b;
     eb_read_cache_max_entries := eb_read_cache_max_entries b;
     eb_retained_body_count := eb_retained_body_count b |}.

(** The setters' methods, all in one. *)
Definition apply_setting (s : setting) (b : EngineBuilder) : EngineBuilder :=
  match s with
  | SetReadToken t => set_tokens (fun k => {| tok_read := NonEmptyBytes_new t;
                                              tok_write := tok_write k;
                                              tok_approve := tok_approve k |}) b
  | SetWriteToken t => set_tokens (fun k => {| tok_read := tok_read k;
                                               tok_write := NonEmptyBytes_new t;
                                               tok_approve := tok_approve k |}) b
  | SetApproveToken t => set_tokens (fun k => {| tok_read := tok_read k; tok_write := tok_write k;
                                                 tok_approve := NonEmptyBytes_new t |}) b
  | _ =>
    {| eb_key := match s with SetKey key => Some key | _ => eb_key b end;
       eb_tokens := eb_tokens b;
       eb_max_world_bytes := match s with SetMaxWorldBytes v => v | _ => eb_max_world_bytes b end;
       eb_max_memory_bytes := match s with SetMaxMemoryBytes v => v | _ => eb_max_memory_bytes b end;
       eb_max_storage_bytes :=
         match s with
         | SetMaxStorageBytes (Some v) => if (0 <? v)%Z then Some v else None
         | SetMaxStorageBytes None => None
         | _ => eb_max_storage_bytes b
         end;
       eb_max_listen_connections :=
         match s with
         | SetMaxListenConnections v => nonzero_or_default v DEFAULT_MAX_LISTEN_CONNECTIONS
         | _ => eb_max_listen_connections b
         end;
       eb_listen_replay_max :=
         match s with
         | SetListenReplayMax v => nonzero_or_default v DEFAULT_LISTEN_REPLAY_MAX
         | _ => eb_listen_replay_max b
         end;
       eb_read_cache_max_entries :=
         match s with
         | SetReadCacheMaxEntries v => nonzero_or_default v DEFAULT_READ_CACHE_MAX_ENTRIES
         | _ => eb_read_cache_max_entries b
         end;
       eb_retained_body_count :=
         match s with
         | SetRetainedBodyCount v =>
             default DEFAULT_RETAINED_BODY_COUNT
               (RetainedBodyCount_new (nonzero_or_default v DEFAULT_RETAINED_BODY_COUNT))
         | _ => eb_retained_body_count b
         end |}
  end.

Definition configure (settings : list setting) : EngineBuilder :=
  fold_left (fun b s => apply_setting s b) settings EngineBuilder_default.

Definition config_of (key : string) (b : EngineBuilder) : Config :=
  {| max_world_bytes := eb_max_world_bytes b; max_memory_bytes := eb_max_memory_bytes b;
     max_storage_bytes := eb_max_storage_bytes b; retained_body_count := eb_retained_body_count b;
     hmac_key := key; listen_replay_max := eb_listen_replay_max b |}.

(** ** Errors of startup *)

Inductive DataRootWriterLockError :=
| LockStorage (err : sqlite_error)
| LockHeld (source : sqlite_error) (holder_pid : option string).

Definition lock_sqlite_error (e : DataRootWriterLockError) : sqlite_error :=
  match e with LockStorage err | LockHeld err _ => err end.
Definition lock_holder_pid (e : DataRootWriterLockError) : option string :=
  match e with LockHeld _ pid => pid | LockStorage _ => None end.

Inductive EngineBuildError :=
| DataRootIo (err : string)
| DataRootLockHeld (holder_pid : option string)
| HmacKeyMissing
| ListenEpochEntropy (detail : string)
| AuditChainCorrupted (world detail : string)
| BuildStorage (code : option sqlite_code) (detail : string).

(** What the outside reports while the engine is built. *)
Record StartupEnv := {
  se_create_dir : option string;
  se_lock : option DataRootWriterLockError;
  se_walk : option sqlite_error;             (* reading the directory, to verify *)
  se_verify : string -> option sqlite_error; (* opening and reading a world *)
  se_list : option sqlite_error;             (* reading the directory, to list *)
  se_usage : string -> option sqlite_error;
  se_entropy : option string;
}.

Definition quiet_startup : StartupEnv :=
  {| se_create_dir := None; se_lock := None; se_walk := None; se_verify := fun _ => None;
     se_list := None; se_usage := fun _ => None; se_entropy := None |}.

(** An entry of the data directory; [de_db] is what opening its [universe.db]
    gives, if there is one. *)
Record DirEntry := { de_name : string; de_db : option (result sqlite_error world_db) }.

(** The texts the standard library prints: [{:?}] of a string, and a UTF-8 error. *)
Class ErrorTexts := { debug_str : string -> string; utf8_error_text : string -> string }.

Section Startup.
Context `{Crypto} `{PercentEncoding} `{Rusqlite} `{ErrorTexts}.

(** ** Scans of the data directory *)

Definition corrupt_disk_world_name (name detail : string) : sqlite_error :=
  SqliteFailure DatabaseCorrupt (Some ("invalid world directory " +:+ name +:+ ": " +:+ detail)).

Definition disk_name_failure (name : string) (e : disk_name_error) : sqlite_error :=
  corrupt_disk_world_name (debug_str name)
    (match e with
     | DiskNameUtf8 => "invalid percent UTF-8: " +:+ utf8_error_text name
     | DiskNameInvalid => "decoded world path failed validation"
     | DiskNameNonCanonical world => "non-canonical disk name for " +:+ world
     end).

(** The world an entry with a database names. *)
Definition entry_world (e : DirEntry) : result sqlite_error string :=
  if is_utf8 (de_name e)
  then map_err (disk_name_failure (de_name e)) (decode_disk_world_name (de_name e))
  else Err (corrupt_disk_world_name (debug_str "<non-unicode>") "disk name is not Unicode").

(** [list_matching], before the sort. *)
Fixpoint collect_worlds (keep : string -> bool) (root : list DirEntry)
  : result sqlite_error (list string) :=
  match root with
  | [] => Ok []
  | e :: root =>
      match de_db e with
      | None => collect_worlds keep root
      | Some _ =>
          world ← entry_world e;
          worlds ← collect_worlds keep root;
          Ok (if keep world then world :: worlds else worlds)
      end
  end.

Definition list_matching (keep : string -> bool) (root : list DirEntry)
  : result sqlite_error (list string) :=
  out ← collect_worlds keep root; Ok (sort_worlds out).

Definition list_worlds : list DirEntry -> result sqlite_error (list string) :=
  list_matching (fun _ => true).
Definition list_with_prefix (prefix : string) : list DirEntry -> result sqlite_error (list string) :=
  list_matching (starts_with prefix).

(** [list_matching_bounded]: [None] as soon as one more than [max] matches. *)
Fixpoint collect_bounded (keep : string -> bool) (max : Z) (out : list string)
    (root : list DirEntry) : result sqlite_error (option (list string)) :=
  match root with
  | [] => Ok (Some out)
  | e :: root =>
      match de_db e with
      | None => collect_bounded keep max out root
      | Some _ =>
          world ← entry_world e;
          if keep world then
            if (max <=? Z.of_nat (length out))%Z then Ok None
            else collect_bounded keep max (out ++ [world]) root
          else collect_bounded keep max out root
      end
  end.

Definition list_matching_bounded (keep : string -> bool) (max : Z) (root : list DirEntry)
  : result sqlite_error (option (list string)) :=
  out ← collect_bounded keep max [] root; Ok (option_map sort_worlds out).

(** The file of a world, opened by its path. *)
Definition root_file (root : list DirEntry) (world : string) : result sqlite_error (option world_db) :=
  match head (omap (fun e => if bool_decide (de_name e = disk_name world) then de_db e else None) root) with
  | None => Ok None
  | Some db => Some <$> db
  end.

(** ** [build] *)

Definition AUDIT_CHAIN_BROKEN_PREFIX : string := "audit chain broken at event ".

Definition chain_broken_text (b : VerifyBreak) : string :=
  AUDIT_CHAIN_BROKEN_PREFIX +:+ to_string (break_at b) +:+ ": expected " +:+ expected b
    +:+ ", actual " +:+ actual b.

(** [verify_world_with_file_op]. *)
Definition verify_world_with_file_op (f : option sqlite_error)
    (file : result sqlite_error (option world_db)) (world key : string)
  : result AuditError (option VerifiedAuditPrefix) :=
  match file with
  | Err err => faulty_audit f (Err (Storage err))
  | Ok None => Ok None
  | Ok (Some db) => _ ← faulty_audit f (require_world_intact_tx db world key);
               Ok (Some {| vp_world := world |})
  end.

Definition verify_failure (world : string) (err : AuditError) : EngineBuildError :=
  match err with
  | ChainBroken b => AuditChainCorrupted world (chain_broken_text b)
  | Storage err =>
      match classify_storage_failure err with
      | Transient => DataRootLockHeld None
      | InsufficientStorage | Other =>
          BuildStorage (sqlite_error_code err)
            ("audit verification for " +:+ world +:+ " failed: " +:+ error_to_string err)
      end
  end.

Definition walk_failure (err : sqlite_error) : EngineBuildError :=
  BuildStorage (sqlite_error_code err)
    ("list worlds for audit verification failed: " +:+ error_to_string err).

(** [try_for_each] with the visit of [verify_all_worlds_with_names]. *)
Fixpoint verify_entries (se : StartupEnv) (key : string) (whole root : list DirEntry)
  : result EngineBuildError (list VerifiedAuditPrefix) :=
  match root with
  | [] => Ok []
  | e :: root =>
      match de_db e with
      | None => verify_entries se key whole root
      | Some _ =>
          world ← map_err walk_failure (entry_world e);
          prefix ← map_err (verify_failure world)
                     (verify_world_with_file_op (se_verify se world) (root_file whole world) world key);
          prefixes ← verify_entries se key whole root;
          Ok (match prefix with Some p => p :: prefixes | None => prefixes end)
      end
  end.

Definition verify_all_worlds_with_names (se : StartupEnv) (key : string) (root : list DirEntry)
  : result EngineBuildError (list VerifiedAuditPrefix) :=
  match se_walk se with
  | Some err => Err (walk_failure err)
  | None => verify_entries se key root root
  end.

Fixpoint usages_of (se : StartupEnv) (root : list DirEntry) (worlds : list string)
  : result sqlite_error (list (string * StorageUsageSnapshot)) :=
  match worlds with
  | [] => Ok []
  | world :: worlds =>
      usage ← faulty (se_usage se world) (odb ← root_file root world; storage_usage_inner odb);
      rest ← usages_of se root worlds;
      Ok (match usage with Some u => (world, u) :: rest | None => rest end)
  end.

Definition usages (se : StartupEnv) (root : list DirEntry)
  : result sqlite_error (list (string * StorageUsageSnapshot)) :=
  worlds ← faulty (se_list se) (list_worlds root);
  usages_of se root worlds.

Definition usages_failure (err : sqlite_error) : EngineBuildError :=
  match classify_storage_failure err with
  | Transient => DataRootLockHeld None
  | InsufficientStorage | Other => BuildStorage (sqlite_error_code err) (error_to_string err)
  end.

Definition usage_overflow (component : string) : EngineBuildError :=
  BuildStorage None ("startup " +:+ component +:+ " accounting exceeds this target's range").

Fixpoint checked_startup_usage_sum (component : string) (total : Z) (values : list Z)
  : result EngineBuildError Z :=
  match values with
  | [] => Ok total
  | value :: values =>
      total ← ok_or (usage_overflow component) (checked_add total value);
      checked_startup_usage_sum component total values
  end.

Definition map_writer_lock_error (err : DataRootWriterLockError) : EngineBuildError :=
  let sqlite_err := lock_sqlite_error err in
  match classify_storage_failure sqlite_err with
  | Transient => DataRootLockHeld (lock_holder_pid err)
  | InsufficientStorage | Other =>
      BuildStorage (sqlite_error_code sqlite_err)
        ("writer lock open failed: " +:+ error_to_string sqlite_err)
  end.

Definition refuse {A} (e : option A) (f : A -> EngineBuildError) : result EngineBuildError unit :=
  match e with Some x => Err (f x) | None => Ok tt end.

(** The files under the data directory, by world. *)
Definition root_map (root : list DirEntry) : gmap string (result sqlite_error world_db) :=
  list_to_map (omap (fun e => match entry_world e, de_db e with
                              | Ok world, Some db => Some (world, db)
                              | _, _ => None
                              end) root).

Definition root_files (root : list DirEntry) : gmap string world_db :=
  omap (fun r => match r with Ok db => Some db | Err _ => None end) (root_map root).

Definition root_broken (root : list DirEntry) : gmap string sqlite_error :=
  omap (fun r => match r with Ok _ => None | Err err => Some err end) (root_map root).

Definition build (b : EngineBuilder) (se : StartupEnv) (root : list DirEntry)
  : result EngineBuildError (Config * Core) :=
  _ ← refuse (se_create_dir se) DataRootIo;
  _ ← refuse (se_lock se) map_writer_lock_error;
  hmac_key ← ok_or HmacKeyMissing (eb_key b);
  verified ← verify_all_worlds_with_names se hmac_key root;
  durable_usages ← map_err usages_failure (usages se root);
  current ← checked_startup_usage_sum "current body" 0
              (current_body_bytes ∘ snd <$> durable_usages);
  retained ← checked_startup_usage_sum "retained CAS body" 0
               (retained_cas_body_bytes ∘ snd <$> durable_usages);
  events ← checked_startup_usage_sum "audit event" 0
             (audit_chain_events ∘ snd <$> durable_usages);
  total ← checked_startup_usage_sum "total body" 0 [current; retained];
  _ ← refuse (se_entropy se) ListenEpochEntropy;
  Ok (config_of hmac_key b,
      {| files := root_files root; broken := root_broken root; lost := []; write_conns := ∅; mem := MemoryStore_new;
         counters := {| storage_body_bytes := total; storage_current_body_bytes := current;
                        storage_retained_cas_body_bytes := retained;
                        storage_audit_chain_events := events;
                        durable_world_count := Z.of_nat (length durable_usages) |};
         verified_audit_worlds := list_to_set (vp_world <$> verified); tombstones := ∅;
         ledger_conn := false; ledger_inits := 0;
         delete_ledger_created := existsb (fun u => is_delete_ledger_world (fst u)) durable_usages;
         next_event := 0; event_log := []; events_sent := []; closed := false |}).
End Startup.
