(* ===== verification/StartupTheorems.v ===== *)
(** * A restart loses nothing

    The engine built on a data directory another engine left has the same
    worlds, exact counters and the invariant of [CoreInv.v]; it is refused
    exactly when a file is the empty schema of a failed first write. *)

From S2P Require Import Prelude.
From S2P Require Import RustStr.
From S2P Require Import Path.
From S2P Require Import Auth.
From S2P Require Import Crypto.
From S2P Require Import Types.
From S2P Require Import WorldSchema.
From S2P Require Import Db.
From S2P Require Import AuditVerify.
From S2P Require Import AuditGates.
From S2P Require Import Cas.
From S2P Require Import WorldWrite.
From S2P Require Import Store.
From S2P Require Import Quota.
From S2P Require Import ChainSpec.
From S2P Require Import ChainValid.
From S2P Require Import CasProofs.
From S2P Require Import Usage.
From S2P Require Import StorageClass.
From S2P Require Import Core.
From S2P Require Import CoreInv.
From S2P Require Import DeleteOpsProofs.
From S2P Require Import CoreTheorems.
From S2P Require Import WorldOps.
From S2P Require Import Demo.
From S2P Require Import EngineDemo.
From S2P Require Import Startup.

(** ** Sums *)

Lemma checked_sum_Ok component total values :
  Forall (fun v => (0 <= v)%Z) values -> (total + foldr Z.add 0 values <= usize_max)%Z ->
  checked_startup_usage_sum component total values = Ok (total + foldr Z.add 0 values)%Z.
Proof.
  revert total. induction values as [|v values IH]; intros total Hnn Hle; cbn in *; [f_equal; lia|].
  apply Forall_cons in Hnn as [Hv Hnn].
  assert (0 <= foldr Z.add 0 values)%Z as Hpos.
  { clear -Hnn. induction Hnn; cbn; lia. }
  unfold checked_add. destruct (Z.leb_spec (total + v) usize_max); [|lia]. cbn [ok_or mbind result_bind].
  rewrite IH; [f_equal; lia|done|lia].
Qed.

Lemma map_sum_list {A} (f : A -> Z) (m : gmap string A) :
  map_sum (fun _ x => f x) m = foldr Z.add 0%Z ((fun p => f (snd p)) <$> map_to_list m).
Proof.
  unfold map_sum. rewrite map_fold_foldr. generalize (map_to_list m). intros l.
  induction l as [|[k x] l IH]; [done|]. cbn. by rewrite IH.
Qed.

Lemma sum_perm l l' : l ≡ₚ l' -> foldr Z.add 0%Z l = foldr Z.add 0%Z l'.
Proof. induction 1; cbn; lia. Qed.

(** ** Names *)

Lemma utf8_safe s : sall disk_safe s = true -> is_utf8 s = true.
Proof.
  unfold is_utf8. rewrite bool_decide_eq_true. induction s as [|c s IH]; [by eexists|].
  cbn [sall utf8_chunks]. rewrite andb_true_iff. intros [Hc Hs].
  assert (in_range 0 127 c = true) as -> by (clear -Hc; by destruct c as [[] [] [] [] [] [] [] []]).
  destruct (IH Hs) as [x ->]. by eexists.
Qed.

Section Restart.
Context `{CryptoLaws} `{PercentLaws} `{RusqliteLaws} `{ErrorTexts} (cfg : Config).
Notation key := (hmac_key cfg).

Lemma disk_name_inj w w' : disk_name w = disk_name w' -> w = w'.
Proof. intros Hd. by rewrite <- (decode_disk_name w), Hd, decode_disk_name. Qed.

Lemma entry_world_disk w db :
  valid_world w -> is_utf8 w = true ->
  entry_world {| de_name := disk_name w; de_db := db |} = Ok w.
Proof.
  intros Hv Hu. unfold entry_world, decode_disk_world_name. cbn [de_name].
  rewrite utf8_safe by apply disk_name_safe. rewrite decode_disk_name, Hu. cbn.
  rewrite Hv. cbn. by rewrite bool_decide_true.
Qed.

(** ** The data directory an engine leaves *)

(** What opening each world's file gives. *)
Definition all_files (c : Core) : gmap string (result sqlite_error world_db) :=
  (Err <$> broken c) ∪ (Ok <$> files c).

Lemma all_files_lookup c w :
  all_files c !! w = match broken c !! w with Some err => Some (Err err) | None => Ok <$> files c !! w end.
Proof.
  unfold all_files. rewrite lookup_union, !lookup_fmap.
  destruct (broken c !! w), (files c !! w); done.
Qed.

Lemma all_files_open c w :
  open_file w c = match all_files c !! w with None => Ok None | Some r => Some <$> r end.
Proof. rewrite all_files_lookup. unfold open_file. by destruct (broken c !! w), (files c !! w). Qed.

(** Its databases are the files of the engine under their disk names, in any
    order; other entries have no database. *)
Definition data_root_of (c : Core) (root : list DirEntry) : Prop :=
  omap (fun e => pair (de_name e) <$> de_db e) root
  ≡ₚ prod_map disk_name id <$> map_to_list (all_files c).

(** World names are Rust strings. *)
Definition utf8_worlds (c : Core) : Prop := forall w, is_Some (all_files c !! w) -> is_utf8 w = true.

Section Scan.
Context (c : Core) (Hinv : core_inv cfg c) (Hutf : utf8_worlds c).

Lemma all_files_valid w r : all_files c !! w = Some r -> valid_world w.
Proof using Hinv.
  rewrite all_files_lookup. destruct (broken c !! w) as [err|] eqn:Hb.
  - intros _. by destruct (ca_broken _ _ _ _ Hinv w err Hb) as (_ & ? & _).
  - intros (db & Hdb & _)%fmap_Some. by destruct (ca_files _ _ _ _ Hinv w db Hdb) as (_ & ? & _).
Qed.

Lemma all_files_Some w db : files c !! w = Some db -> all_files c !! w = Some (Ok db).
Proof using Hinv.
  intros Hw. rewrite all_files_lookup. destruct (broken c !! w) as [err|] eqn:Hb; [|by rewrite Hw].
  destruct (ca_broken _ _ _ _ Hinv w err Hb). congruence.
Qed.

Definition entry_of (e : DirEntry) (w : string) (r : result sqlite_error world_db) : Prop :=
  e = {| de_name := disk_name w; de_db := Some r |} /\ all_files c !! w = Some r /\ entry_world e = Ok w.

Lemma file_entry e r :
  (de_name e, r) ∈ prod_map disk_name id <$> map_to_list (all_files c) -> de_db e = Some r ->
  exists w, entry_of e w r.
Proof using All.
  intros ([w r'] & [= Hn ->] & Hin)%list_elem_of_fmap Hdb. exists w. apply elem_of_map_to_list in Hin.
  pose proof (all_files_valid _ _ Hin) as Hv. destruct e as [n odb]. cbn in *. subst.
  split; [done|]. split; [done|]. apply entry_world_disk; [done|]. apply Hutf. by eexists.
Qed.

Lemma root_entry root e r :
  data_root_of c root -> e ∈ root -> de_db e = Some r -> exists w, entry_of e w r.
Proof using All.
  intros Hroot Hin Hdb. apply file_entry; [|done]. rewrite <- Hroot.
  apply list_elem_of_omap. exists e. by rewrite Hdb.
Qed.

Lemma root_file_spec root w r :
  data_root_of c root -> all_files c !! w = Some r -> root_file root w = Some <$> r.
Proof using All.
  intros Hroot Hw. unfold root_file.
  assert (forall l, l ⊆ root -> forall x, head (omap (fun e => if bool_decide (de_name e = disk_name w)
            then de_db e else None) l) = Some x -> x = r) as Hall.
  { intros l Hl x Hx. apply head_Some_elem_of, list_elem_of_omap in Hx as (e & He & Hx).
    case_bool_decide as E; [|done]. destruct (root_entry root e x Hroot (Hl _ He) Hx) as (w' & -> & Hw' & _).
    cbn in E. apply disk_name_inj in E. congruence. }
  destruct (head _) as [x|] eqn:E; [f_equal; by apply (Hall root)|].
  exfalso. apply head_None in E.
  assert ((disk_name w, r) ∈ omap (fun e => pair (de_name e) <$> de_db e) root) as Hin.
  { rewrite Hroot. apply list_elem_of_fmap. exists (w, r). split; [done|by apply elem_of_map_to_list]. }
  apply list_elem_of_omap in Hin as (e & He & (x & Hx & [= Hn ->])%fmap_Some).
  assert (x ∈ omap (fun e => if bool_decide (de_name e = disk_name w) then de_db e else None) root) as Hin.
  { apply list_elem_of_omap. exists e. by rewrite bool_decide_true. }
  rewrite E in Hin. by apply elem_of_nil in Hin.
Qed.

Lemma root_file_Ok root w db :
  data_root_of c root -> files c !! w = Some db -> root_file root w = Ok (Some db).
Proof using All. intros Hroot Hw. by rewrite (root_file_spec root w (Ok db) Hroot (all_files_Some w db Hw)). Qed.

(** The worlds and files of the scan, in its order. *)
Definition scanned (root : list DirEntry) : list (string * result sqlite_error world_db) :=
  omap (fun e => match entry_world e, de_db e with Ok world, Some db => Some (world, db) | _, _ => None end) root.

Lemma scanned_names root :
  data_root_of c root ->
  prod_map disk_name id <$> scanned root = omap (fun e => pair (de_name e) <$> de_db e) root.
Proof using All.
  intros Hroot. assert (forall l, l ⊆ root -> prod_map disk_name id <$> scanned l
    = omap (fun e => pair (de_name e) <$> de_db e) l) as Hl; [|by apply Hl].
  induction l as [|e l IH]; intros Hsub; [done|]. cbn. destruct (de_db e) as [db|] eqn:Edb.
  - destruct (root_entry root e db Hroot (Hsub e (list_elem_of_here _ _)) Edb) as (w & -> & _ & Hw). cbn in *. rewrite Hw. cbn.
    f_equal. apply IH. set_solver.
  - replace (match entry_world e with Ok _ | _ => None end) with (@None (string * result sqlite_error world_db)) by (by destruct (entry_world e)).
    apply IH. set_solver.
Qed.

Lemma names_back (l : list (string * result sqlite_error world_db)) :
  prod_map percent_decode_str id <$> (prod_map disk_name id <$> l) = l.
Proof.
  induction l as [|[w db] l IH]; [done|]. cbn. by rewrite decode_disk_name, IH.
Qed.

Lemma scanned_perm root : data_root_of c root -> scanned root ≡ₚ map_to_list (all_files c).
Proof using All.
  intros Hroot. rewrite <- (names_back (scanned root)), <- (names_back (map_to_list (all_files c))).
  apply fmap_Permutation. rewrite scanned_names by done. exact Hroot.
Qed.

Lemma root_map_spec root : data_root_of c root -> root_map root = all_files c.
Proof using All.
  intros Hroot. change (root_map root) with (list_to_map (scanned root) : gmap string (result sqlite_error world_db)).
  rewrite <- (list_to_map_to_list (all_files c)). apply list_to_map_proper; [|by apply scanned_perm].
  rewrite (scanned_perm root Hroot). apply NoDup_fst_map_to_list.
Qed.

Lemma root_files_spec root : data_root_of c root -> root_files root = files c.
Proof using All.
  intros Hroot. unfold root_files. rewrite (root_map_spec root Hroot). apply map_eq. intros w.
  rewrite lookup_omap, all_files_lookup. destruct (broken c !! w) as [err|] eqn:Hb.
  - by destruct (ca_broken _ _ _ _ Hinv w err Hb) as [-> _].
  - by destruct (files c !! w).
Qed.

Lemma root_broken_spec root : data_root_of c root -> root_broken root = broken c.
Proof using All.
  intros Hroot. unfold root_broken. rewrite (root_map_spec root Hroot). apply map_eq. intros w.
  rewrite lookup_omap, all_files_lookup. by destruct (broken c !! w), (files c !! w).
Qed.

Lemma collect_worlds_spec root :
  data_root_of c root -> collect_worlds (fun _ => true) root = Ok (scanned root).*1.
Proof using All.
  intros Hroot. assert (forall l, l ⊆ root -> collect_worlds (fun _ => true) l = Ok (scanned l).*1) as Hl;
    [|by apply Hl].
  induction l as [|e l IH]; intros Hsub; [done|]. cbn [collect_worlds scanned omap list_omap].
  destruct (de_db e) as [db|] eqn:Edb.
  - destruct (root_entry root e db Hroot (Hsub e (list_elem_of_here _ _)) Edb) as (w & -> & _ & Hw).
    rewrite Hw. cbn [mbind result_bind]. rewrite IH by set_solver. done.
  - rewrite IH by set_solver. by destruct (entry_world e).
Qed.

(** ** Verification *)

Lemma fresh_rejected w g :
  WorldGeneration_new g = Ok g ->
  require_world_intact_tx (create g) w key = Err (ChainBroken no_events).
Proof.
  intros Hg. unfold require_world_intact_tx, verify_world_tx, generation. cbn [create db_generation].
  by rewrite Hg.
Qed.

Lemma verify_one w db :
  files c !! w = Some db ->
  require_world_intact_tx db w key = Ok tt
  \/ exists g, db = create g /\ require_world_intact_tx db w key = Err (ChainBroken no_events).
Proof using All.
  intros Hw. destruct (ca_files _ _ _ _ Hinv _ _ Hw) as ([Hwf [Hv|(g & Hg & ->)]] & _).
  - left. by apply require_world_intact_spec.
  - right. exists g. split; [done|by apply fresh_rejected].
Qed.

(** How startup reports a file that a failed first write left incomplete. *)
Definition incomplete (w : string) (msg : string) : EngineBuildError :=
  BuildStorage (Some DatabaseCorrupt) ("audit verification for " +:+ w +:+ " failed: " +:+ msg).

Definition refused : result EngineBuildError (list VerifiedAuditPrefix) -> Prop := fun r =>
  (exists w g, files c !! w = Some (create g) /\ r = Err (AuditChainCorrupted w (chain_broken_text no_events)))
  \/ exists w msg, broken c !! w = Some (corrupt_error msg) /\ r = Err (incomplete w msg).

(** A file that passes verification. *)
Definition intact (p : string * result sqlite_error world_db) : Prop :=
  exists db, snd p = Ok db /\ require_world_intact_tx db (fst p) key = Ok tt.

Lemma verify_file w r :
  all_files c !! w = Some r ->
  let v := map_err (verify_failure w) (verify_world_with_file_op None (Some <$> r) w key) in
  v = Ok (Some {| vp_world := w |}) /\ intact (w, r)
  \/ exists e, v = Err e /\ refused (Err e).
Proof using All.
  rewrite all_files_lookup. destruct (broken c !! w) as [err|] eqn:Hb.
  - intros [= <-]. right. destruct (ca_broken _ _ _ _ Hinv w err Hb) as (_ & _ & _ & (msg & -> & Hmsg)%torn_corrupt).
    unfold verify_world_with_file_op, verify_failure. cbn [fmap result_fmap faulty_audit map_err].
    rewrite (classify_corrupt _ Hmsg). eexists. split; [done|]. right. exists w, msg. split; [done|].
    unfold incomplete, corrupt_error. by rewrite failure_text.
  - intros (db & Hw & ->)%fmap_Some. cbn.
    destruct (verify_one w db Hw) as [Hv|(g & -> & Hv)]; rewrite Hv; [left|right].
    + split; [done|]. by exists db.
    + eexists. split; [done|]. left. by exists w, g.
Qed.

Lemma verify_entries_spec root :
  data_root_of c root ->
  let r := verify_entries quiet_startup key root root in
  (exists ps, r = Ok ps /\ vp_world <$> ps = (scanned root).*1 /\ Forall intact (scanned root))
  \/ refused r.
Proof using All.
  intros Hroot r. subst r.
  assert (forall l, l ⊆ root -> let r := verify_entries quiet_startup key root l in
    (exists ps, r = Ok ps /\ vp_world <$> ps = (scanned l).*1 /\ Forall intact (scanned l)) \/ refused r) as Hl;
    [|by apply Hl].
  induction l as [|e l IH]; intros Hsub; [left; by exists []|]. cbn [verify_entries scanned omap list_omap].
  assert (l ⊆ root) as Hl by set_solver. specialize (IH Hl). fold (scanned l).
  destruct (de_db e) as [file|] eqn:Edb.
  2: { replace (match entry_world e with Ok _ | _ => None end) with (@None (string * result sqlite_error world_db))
         by (by destruct (entry_world e)). exact IH. }
  destruct (root_entry root e file Hroot (Hsub e (list_elem_of_here _ _)) Edb) as (w & -> & Hw & He).
  rewrite He. cbn [map_err mbind result_bind]. rewrite (root_file_spec root w file Hroot Hw).
  cbn [se_verify quiet_startup].
  destruct (verify_file w file Hw) as [[-> Hok]|(err & -> & Href)]; cbn [mbind result_bind]; [|by right].
  destruct IH as [(ps & -> & Hvp & Hall)|Href]; [left|right].
  - cbn. eexists. split; [done|]. split; [cbn; by f_equal|by constructor].
  - destruct (verify_entries quiet_startup key root l) as [ps|err]; [exfalso|exact Href].
    by destruct Href as [(? & ? & _ & Hx)|(? & ? & _ & Hx)]; inversion Hx.
Qed.

(** ** Accounting *)

Definition usage_of (db : world_db) : StorageUsageSnapshot :=
  {| current_body_bytes := slen (db_body db); retained_cas_body_bytes := sum_len (db_cas db);
     audit_chain_events := event_count db |}.

Lemma storage_usage_file w db :
  files c !! w = Some db -> storage_usage_inner (Some db) = Ok (Some (usage_of db)).
Proof using All.
  intros Hw. unfold storage_usage_inner.
  rewrite !nonneg_usize_Ok by (apply slen_nonneg || apply sum_len_nonneg || apply event_count_nonneg).
  cbn [mbind result_bind]. unfold checked_add.
  pose proof (files_sum_ge file_bytes c w db file_bytes_nonneg Hw) as Hge.
  pose proof (ca_bytes _ _ _ _ Hinv). pose proof (ca_quota _ _ _ _ Hinv).
  change (slen (db_body db) + sum_len (db_cas db))%Z with (file_bytes db).
  destruct (Z.leb_spec (file_bytes db) usize_max); [done|lia].
Qed.

Lemma usages_of_spec root ws :
  data_root_of c root -> Forall (fun w => is_Some (files c !! w)) ws ->
  usages_of quiet_startup root ws
  = Ok (omap (fun w => (fun db => (w, usage_of db)) <$> files c !! w) ws).
Proof using All.
  intros Hroot. induction 1 as [|w ws [db Hw] _ IH]; [done|]. cbn [usages_of omap list_omap].
  rewrite (root_file_Ok root w db Hroot Hw). cbn [faulty se_usage quiet_startup mbind result_bind].
  rewrite (storage_usage_file w db Hw). cbn [mbind result_bind]. rewrite IH, Hw. done.
Qed.

(** Without incomplete files a scan finds the files. *)
Lemma all_files_complete : broken c = ∅ -> map_to_list (all_files c) ≡ₚ prod_map id Ok <$> map_to_list (files c).
Proof using Type.
  intros Hb. unfold all_files. rewrite Hb, fmap_empty, (left_id_L ∅ (∪)). by rewrite map_to_list_fmap.
Qed.

Lemma usages_spec root :
  data_root_of c root -> broken c = ∅ ->
  exists us, usages quiet_startup root = Ok us /\ us ≡ₚ prod_map id usage_of <$> map_to_list (files c).
Proof using All.
  intros Hroot Hb. unfold usages, list_worlds, list_matching. rewrite (collect_worlds_spec root Hroot).
  cbn [faulty se_list quiet_startup mbind result_bind].
  assert (sort_worlds (scanned root).*1 ≡ₚ (map_to_list (files c)).*1) as Hp.
  { unfold sort_worlds. rewrite merge_sort_Permutation, (scanned_perm root Hroot), (all_files_complete Hb).
    assert ((prod_map id Ok <$> map_to_list (files c)).*1 = (map_to_list (files c)).*1) as ->; [|done].
    rewrite <- list_fmap_compose. apply list_fmap_ext. by intros _ [w db] _. }
  eexists. split; [apply usages_of_spec; [done|]|].
  - rewrite Hp. apply Forall_fmap, Forall_forall. intros [w db] Hin%elem_of_map_to_list. by eexists.
  - rewrite Hp. assert (forall l, l ⊆ map_to_list (files c) ->
      omap (fun w => (fun db => (w, usage_of db)) <$> files c !! w) l.*1 = prod_map id usage_of <$> l) as Hl.
    { induction l as [|[w db] l IH]; intros Hsub; [done|]. cbn.
      assert (files c !! w = Some db) as -> by (apply elem_of_map_to_list; set_solver).
      cbn. f_equal. apply IH. set_solver. }
    by rewrite Hl.
Qed.

(** With one, the usage of the files is its error. *)
Lemma usages_of_torn root ws w0 :
  data_root_of c root -> Forall (fun w => is_Some (all_files c !! w)) ws ->
  w0 ∈ ws -> is_Some (broken c !! w0) ->
  exists msg, usages_of quiet_startup root ws = Err (corrupt_error msg) /\ harmless msg = true.
Proof using All.
  intros Hroot Hws Hin [err0 Hb]. induction Hws as [|w ws [r Hw] _ IH]; [by apply not_elem_of_nil in Hin|].
  cbn [usages_of]. rewrite (root_file_spec root w r Hroot Hw). cbn [faulty se_usage quiet_startup].
  rewrite all_files_lookup in Hw. destruct (broken c !! w) as [err|] eqn:Hbw.
  - injection Hw as <-. destruct (ca_broken _ _ _ _ Hinv w err Hbw) as (_ & _ & _ & (msg & -> & Hmsg)%torn_corrupt).
    by exists msg.
  - apply fmap_Some in Hw as (db & Hw & ->). cbn [fmap result_fmap map_err mbind result_bind].
    rewrite (storage_usage_file w db Hw). cbn [mbind result_bind].
    destruct IH as (msg & -> & Hmsg); [|by exists msg].
    apply elem_of_cons in Hin as [->|Hin]; [congruence|done].
Qed.

Lemma usages_torn root w :
  data_root_of c root -> is_Some (broken c !! w) ->
  exists msg, usages quiet_startup root = Err (corrupt_error msg) /\ harmless msg = true.
Proof using All.
  intros Hroot Hb. unfold usages, list_worlds, list_matching. rewrite (collect_worlds_spec root Hroot).
  cbn [faulty se_list quiet_startup mbind result_bind].
  assert (sort_worlds (scanned root).*1 ≡ₚ (map_to_list (all_files c)).*1) as Hp
    by (unfold sort_worlds; by rewrite merge_sort_Permutation, (scanned_perm root Hroot)).
  apply usages_of_torn with w; [done| | |done].
  - rewrite Hp. apply Forall_fmap, Forall_forall. intros [v r] Hin%elem_of_map_to_list. by eexists.
  - rewrite Hp. destruct Hb as [err Hb]. apply list_elem_of_fmap. exists (w, Err err). split; [done|].
    apply elem_of_map_to_list. by rewrite all_files_lookup, Hb.
Qed.

Lemma sum_files (f : StorageUsageSnapshot -> Z) g us component :
  us ≡ₚ prod_map id usage_of <$> map_to_list (files c) ->
  (forall db, f (usage_of db) = g db) -> (forall db, (0 <= g db)%Z) -> (present_sum g c <= usize_max)%Z ->
  checked_startup_usage_sum component 0 (f ∘ snd <$> us) = Ok (present_sum g c).
Proof.
  intros Hus Hf Hg Hle.
  assert (foldr Z.add 0%Z (f ∘ snd <$> us) = present_sum g c) as Hsum.
  { unfold present_sum. rewrite map_sum_list. rewrite (sum_perm _ ((f ∘ snd) <$> (prod_map id usage_of <$> map_to_list (files c))));
      [|by apply fmap_Permutation]. f_equal. rewrite <- list_fmap_compose. apply list_fmap_ext. intros _ [w db] _. apply Hf. }
  rewrite checked_sum_Ok; rewrite ?Hsum; [done| |lia].
  rewrite Hus. apply Forall_fmap, Forall_fmap, Forall_forall. intros [w db] _. cbn. by rewrite Hf.
Qed.
End Scan.

(** What startup makes of a data directory an engine left. *)
Definition restarted (b : EngineBuilder) (c : Core) (r : result EngineBuildError (Config * Core)) : Prop :=
  match r with
  | Ok (cfg', c') =>
      cfg' = cfg /\ files c' = files c /\ broken c = ∅ /\ broken c' = ∅ /\ lost c' = [] /\ core_inv cfg c'
      /\ (forall w, is_memory_world w = false -> observe cfg w c' = observe cfg w c)
      /\ (forall w db, files c !! w = Some db -> require_world_intact_tx db w key = Ok tt)
      /\ durable_world_count (counters c') = Z.of_nat (size (files c))
  | Err e => (exists w g, files c !! w = Some (create g)
               /\ e = AuditChainCorrupted w (chain_broken_text no_events))
             \/ exists w msg, broken c !! w = Some (corrupt_error msg) /\ e = incomplete w msg
  end.

Lemma restart_run b root c :
  core_inv cfg c -> utf8_worlds c -> data_root_of c root ->
  eb_key b = Some key -> config_of key b = cfg ->
  restarted b c (build b quiet_startup root).
Proof.
  intros Hinv Hutf Hroot Hkey Hcfg. unfold build. cbn [refuse se_create_dir se_lock se_entropy quiet_startup mbind result_bind].
  rewrite Hkey. cbn [ok_or mbind result_bind]. unfold verify_all_worlds_with_names. cbn [se_walk quiet_startup].
  destruct (verify_entries_spec c Hinv Hutf root Hroot) as [(ps & -> & _ & Hall)|[(w & g & Hw & ->)|(w & msg & Hw & ->)]];
    [|left; by exists w, g|right; by exists w, msg].
  rewrite (scanned_perm c Hinv Hutf root Hroot) in Hall.
  assert (forall w r, all_files c !! w = Some r -> intact (w, r)) as Hint.
  { intros w r Hw. apply (proj1 (Forall_forall _ _) Hall). by apply elem_of_map_to_list. }
  assert (broken c = ∅) as Hbr.
  { apply map_empty. intros w. destruct (broken c !! w) as [err|] eqn:Hb; [|done].
    destruct (Hint w (Err err)) as (db & ? & _); [|done]. by rewrite all_files_lookup, Hb. }
  assert (forall w db, files c !! w = Some db -> require_world_intact_tx db w key = Ok tt) as Hok.
  { intros w db Hw. destruct (Hint w (Ok db)) as (db' & [= <-] & Hv); [by apply all_files_Some|done]. }
  destruct (usages_spec c Hinv Hutf root Hroot Hbr) as (us & -> & Hus). cbn [map_err mbind result_bind].
  pose proof Hinv as []. pose proof (files_sum_split c) as Hsplit. unfold files_sum in *.
  pose proof (present_sum_nonneg (fun db => slen (db_body db)) c (fun db => slen_nonneg _)) as Hn1.
  pose proof (present_sum_nonneg (fun db => sum_len (db_cas db)) c (fun db => sum_len_nonneg _)) as Hn2.
  pose proof (present_sum_nonneg event_count c event_count_nonneg) as Hn3.
  pose proof (lost_sum_nonneg (fun db => slen (db_body db)) c (fun db => slen_nonneg _)) as Hl1.
  pose proof (lost_sum_nonneg (fun db => sum_len (db_cas db)) c (fun db => sum_len_nonneg _)) as Hl2.
  pose proof (lost_sum_nonneg event_count c event_count_nonneg) as Hl3.
  rewrite (sum_files c current_body_bytes (fun db => slen (db_body db)) us);
    [|done|done|intros db; apply slen_nonneg|lia]. cbn [mbind result_bind].
  rewrite (sum_files c retained_cas_body_bytes (fun db => sum_len (db_cas db)) us);
    [|done|done|intros db; apply sum_len_nonneg|lia]. cbn [mbind result_bind].
  rewrite (sum_files c audit_chain_events event_count us); [|done|done|apply event_count_nonneg|lia].
  cbn [mbind result_bind].
  rewrite checked_sum_Ok; [|by repeat constructor|cbn; lia]. cbn [mbind result_bind].
  rewrite Hcfg. unfold restarted. cbn [files counters durable_world_count].
  rewrite (root_files_spec c Hinv Hutf root Hroot), (root_broken_spec c Hinv Hutf root Hroot).
  do 5 (split; [done|]). split; [|split; [|split; [done|]]].
  - pose proof (present_file_bytes c) as Hfb.
    split; cbn [files broken write_conns mem counters tombstones ledger_conn storage_body_bytes storage_current_body_bytes
      storage_retained_cas_body_bytes storage_audit_chain_events];
      unfold files_sum, lost_sum, present_sum in *; cbn [files lost foldr] in *; try done; try lia.
    split; [done|]. cbn. destruct ca_mem as [Hwf Hle]. pose proof (previous_cost_le _ "" Hwf). lia.
  - intros w Hm. unfold observe, read_world_with_etag, MemoryWorldPath_new, open_file. rewrite Hm.
    cbn [tombstones files broken]. by rewrite ca_tombstones.
  - f_equal. rewrite (Permutation_length Hus), length_fmap. by rewrite map_size_alt || apply length_map_to_list.
Qed.

(** ** Files at rest *)

(** A file the engine keeps passes the schema check and the check of its bodies. *)
Lemma file_ok_schema w db :
  file_ok key w db -> storable db /\ Forall body_row (rw_cas_bodies (db_file db)).
Proof.
  intros [_ [[Hg Hc _ Hr _ _]|(g & Hg & ->)]]; [|split; [by apply create_storable|by apply Forall_nil_2]].
  split.
  - split; [done|]. intros n Hn. unfold retention_valid in Hr. rewrite Hn in Hr. tauto.
  - apply Forall_fmap, Forall_forall. intros [k b] Hkb%elem_of_map_to_list.
    destruct (Hc k b Hkb) as [<- _]. by exists b.
Qed.

(** ** The claims *)

(** C11: Whatever faults an engine run met, each file it leaves is one of two kinds.
    Either it is complete: it passes the schema check and the check of its stored
    bodies, its generation is read back, and opening it, for reading or writing,
    succeeds and leaves it as it is, or makes the index that an interrupted
    creation did not.  Or it is what an interrupted creation left, and every open,
    for reading or writing, now or later, reports the same error of the schema
    check and leaves it as it is. *)
Theorem engine_files_openable c0 c w mint :
  config_ok cfg -> core_inv cfg c0 -> rtc (core_step cfg) c0 c ->
  (forall db, files c !! w = Some db ->
     WorldSchema.verify (db_file db) = Ok tt
     /\ WorldSchema.generation (db_file db) = Ok (db_generation db)
     /\ open_existing_path no_faults (Some (db_file db)) = Ok (Some (db_file db))
     /\ open_world_paths_with_generation_minter_and_kind no_faults mint (Some (db_file db))
        = (Ok Existing, Some (db_file db))
     /\ open_world_paths_with_generation_minter_and_kind no_faults mint (Some (db_file_with [] db))
        = (Ok Existing, Some (db_file db)))
  /\ (forall err, broken c !! w = Some err ->
     open_file w c = Err err
     /\ exists f g raw,
          snd (open_world_paths_with_generation_minter_and_kind f (Ok g) None) = Some raw
          /\ open_existing_path no_faults (Some raw) = Err err
          /\ open_existing_writer_path no_faults (Some raw) = (Err err, Some raw)
          /\ open_world_paths_with_generation_minter_and_kind no_faults mint (Some raw) = (Err err, Some raw)).
Proof.
  intros Hcfg Hi Hrun. destruct (run_traced cfg Hcfg c0 c Hi Hrun) as [Hc _]. destruct Hc. split.
  - intros db Hdb. destruct (ca_files w db Hdb) as [Hok _]. destruct (file_ok_schema w db Hok) as [Hs Hb].
    pose proof (open_shape_ok [write_index_entry] db Hs) as Hv.
    destruct (reopen mint db Hs) as [Ho1 Ho2]. split_and!; [| | |exact Ho1|exact Ho2].
    + by apply verify_exact; split; [apply db_file_shaped|].
    + apply generation_exact. split; [|split; [done|apply Hs]]. apply (bool_decide_unpack _). vm_compute. exact I.
    + unfold open_existing_path, checked_shape. cbn [of_connect of_query no_faults]. unfold db_file in *. by rewrite Hv.
  - intros err Hb. destruct (ca_broken w err Hb) as (_ & _ & _ & f & g & raw & _ & Hraw & Hv).
    split; [unfold open_file; by rewrite Hb|]. exists f, g, raw. split; [done|].
    unfold open_existing_path, open_existing_writer_path, open_world_paths_with_generation_minter_and_kind, checked_shape.
    cbn [of_connect of_query no_faults]. by rewrite Hv.
Qed.

(** C10: Startup on the data directory an engine left, in whatever order the file
    system lists it and when nothing fails meanwhile, ends in one of two ways.
    Either the new engine has exactly the files of the old one, all complete and
    accepted by the full verifier, exact counters and the whole invariant, and
    every durable world reads as before; or the engine refuses to start because
    of a file that a failed first write left: with a corrupted chain for an empty
    schema, or with the error of the schema check for an incomplete one. *)
Theorem restart_exact b root c :
  core_inv cfg c -> utf8_worlds c -> data_root_of c root ->
  eb_key b = Some key -> config_of key b = cfg ->
  match build b quiet_startup root with
  | Ok (cfg', c') =>
      cfg' = cfg /\ files c' = files c /\ broken c = ∅ /\ broken c' = ∅ /\ lost c' = [] /\ core_inv cfg c'
      /\ (forall w, is_memory_world w = false -> observe cfg w c' = observe cfg w c)
      /\ (forall w db, files c !! w = Some db -> require_world_intact_tx db w key = Ok tt)
      /\ durable_world_count (counters c') = Z.of_nat (size (files c))
  | Err e => (exists w g, files c !! w = Some (create g)
               /\ e = AuditChainCorrupted w (chain_broken_text no_events))
             \/ exists w msg, broken c !! w = Some (corrupt_error msg) /\ e = incomplete w msg
  end.
Proof. apply restart_run. Qed.
End Restart.

(** ** The builder *)

(** A [usize] argument. *)
Definition setting_ok (s : setting) : Prop :=
  match s with
  | SetMaxWorldBytes v | SetMaxMemoryBytes v | SetMaxStorageBytes (Some v) | SetMaxListenConnections v
  | SetListenReplayMax v | SetReadCacheMaxEntries v | SetRetainedBodyCount v => (0 <= v <= usize_max)%Z
  | _ => True
  end.

(** What the engine relies on in its configuration. *)
Record builder_ok (b : EngineBuilder) : Prop := {
  bo_retained : (0 < eb_retained_body_count b <= MAX_RETAINED_BODY_COUNT)%Z;
  bo_listen : (0 < eb_max_listen_connections b)%Z;
  bo_replay : (0 < eb_listen_replay_max b)%Z;
  bo_cache : (0 < eb_read_cache_max_entries b)%Z;
  bo_memory : (0 <= eb_max_memory_bytes b)%Z;
  bo_quota : forall q, eb_max_storage_bytes b = Some q -> (0 < q <= usize_max)%Z;
  bo_tokens : tok_read (eb_tokens b) <> Some "" /\ tok_write (eb_tokens b) <> Some ""
              /\ tok_approve (eb_tokens b) <> Some "";
}.

Lemma nonzero_or_default_pos v d : (0 <= v)%Z -> (0 < d)%Z -> (0 < nonzero_or_default v d)%Z.
Proof. intros Hv Hd. unfold nonzero_or_default. destruct (Z.eqb_spec v 0); lia. Qed.

Lemma retained_in_range v :
  (0 < default DEFAULT_RETAINED_BODY_COUNT (RetainedBodyCount_new v) <= MAX_RETAINED_BODY_COUNT)%Z.
Proof.
  unfold RetainedBodyCount_new. destruct (_ && _) eqn:E; cbn; [|by vm_compute].
  apply andb_true_iff in E as [[E1%Z.ltb_lt E2%Z.leb_le]%andb_true_iff _]. lia.
Qed.

Lemma token_nonempty t : NonEmptyBytes_new t <> Some "".
Proof. unfold NonEmptyBytes_new. destruct (is_valid t) eqn:E; [|done]. by intros [= ->]. Qed.

Lemma apply_setting_ok s b : setting_ok s -> builder_ok b -> builder_ok (apply_setting s b).
Proof.
  intros Hs []. destruct bo_tokens0 as (? & ? & ?).
  destruct s as [| | | | | |[v|]| | | |]; cbn [setting_ok] in Hs; split;
    cbn [apply_setting set_tokens eb_tokens eb_max_memory_bytes eb_max_storage_bytes eb_max_listen_connections
         eb_listen_replay_max eb_read_cache_max_entries eb_retained_body_count tok_read tok_write tok_approve];
    try assumption; try apply retained_in_range;
    try (apply nonzero_or_default_pos; [lia|reflexivity]); try (split_and!; assumption || apply token_nonempty); try lia.
  - intros q. destruct (Z.ltb_spec 0 v); [|done]. intros [= <-]. lia.
  - done.
Qed.

Lemma default_builder_ok : builder_ok EngineBuilder_default.
Proof. split; cbn; try done; try reflexivity. Qed.

(** Whatever the calls on the builder, the configuration it gives is one the
    engine can run with: the retained count is positive and within its maximum,
    the connection, replay and cache limits and a quota are positive, and a
    configured token is never empty; so an engine on an empty directory starts
    in the invariant. *)
Theorem builder_config_valid settings key :
  Forall setting_ok settings ->
  let b := configure settings in
  builder_ok b /\ config_ok (config_of key b) /\ limits_ok (config_of key b).
Proof.
  intros Hs b. assert (builder_ok b) as Hb.
  { unfold b, configure. generalize default_builder_ok. generalize EngineBuilder_default.
    induction Hs as [|s l Hs _ IH]; intros b0 H0; [done|]. apply IH. by apply apply_setting_ok. }
  split; [done|]. destruct Hb. split.
  - unfold config_ok. cbn. unfold MAX_RETAINED_BODY_COUNT, i64_max in *. lia.
  - split; cbn; [done|]. destruct (eb_max_storage_bytes b) as [q|] eqn:Eq; cbn; [|by vm_compute].
    destruct (bo_quota0 q eq_refl). lia.
Qed.

(** ** Demonstrations *)

#[global] Instance plain_texts : ErrorTexts := {| debug_str := id; utf8_error_text := id |}.

Definition demo_builder : EngineBuilder :=
  configure [SetKey demo_key; SetMaxWorldBytes 1000; SetMaxMemoryBytes 1000; SetMaxStorageBytes (Some 10000%Z);
             SetListenReplayMax 10; SetRetainedBodyCount 2].

(** The directory an engine leaves, with the writer lock's file in it. *)
Definition directory_of (c : Core) : list DirEntry :=
  {| de_name := ".auditedb-writer-lock.sqlite3"; de_db := None |}
  :: ((fun p => {| de_name := disk_name (fst p); de_db := Some (snd p) |}) <$> map_to_list (all_files c)).

Lemma directory_of_root c : data_root_of c (directory_of c).
Proof.
  unfold data_root_of, directory_of. cbn [omap list_omap de_db de_name fmap option_fmap option_map].
  induction (map_to_list (all_files c)) as [|[w db] l IH]; [done|]. cbn. by rewrite IH.
Qed.

Lemma builder_config_valid_witness :
  config_ok (config_of demo_key demo_builder) /\ config_of demo_key demo_builder = demo_cfg.
Proof.
  split; [|evaluate].
  apply (builder_config_valid [SetKey demo_key; SetMaxWorldBytes 1000; SetMaxMemoryBytes 1000;
           SetMaxStorageBytes (Some 10000%Z); SetListenReplayMax 10; SetRetainedBodyCount 2] demo_key).
  repeat constructor; by vm_compute.
Defined.

Lemma demo_utf8 : utf8_worlds after_append.
Proof.
  intros w [db Hw]. assert (dom (all_files after_append) = {["home/a"]}) as Hd by (apply (bool_decide_eq_true_1 _); evaluate).
  assert (w ∈ dom (all_files after_append)) as Hin by (by apply elem_of_dom_2 in Hw).
  rewrite Hd in Hin. apply elem_of_singleton in Hin as ->. evaluate.
Qed.

Lemma restart_exact_witness :
  exists c', build demo_builder quiet_startup (directory_of after_append) = Ok (demo_cfg, c')
    /\ files c' = files after_append
    /\ observe demo_cfg "home/a" c' = observe demo_cfg "home/a" after_append.
Proof.
  pose proof (restart_exact demo_cfg demo_builder (directory_of after_append) after_append after_append_ok
                demo_utf8 (directory_of_root _) eq_refl ltac:(evaluate)) as Hrun.
  assert (is_ok (build demo_builder quiet_startup (directory_of after_append)) = true) as Hok by evaluate.
  destruct (build demo_builder quiet_startup (directory_of after_append)) as [[cfg' c']|e]; [|discriminate Hok].
  destruct Hrun as (-> & Hf & _ & _ & _ & _ & Ho & _). exists c'. split; [reflexivity|]. split; [exact Hf|].
  apply Ho. evaluate.
Defined.

(** The file the demo engine leaves, and the same without its floor row. *)
Definition demo_file : raw_world := from_option db_file empty_file (files after_append !! "home/a").

Definition without_floor (raw : raw_world) : raw_world := {|
  rw_schema := rw_schema raw; rw_stage_columns := rw_stage_columns raw;
  rw_stage_meta := rw_stage_meta raw; rw_world_format := rw_world_format raw;
  rw_cas_state := []; rw_cas_bodies := rw_cas_bodies raw |}.

Lemma schema_check_exact_witness : well_shaped demo_file /\ ~ well_shaped (without_floor demo_file).
Proof.
  split; [apply (proj1 (schema_check_exact demo_file)); vm_compute; reflexivity|].
  intros Hw. apply (proj1 (schema_check_exact _)) in Hw. vm_compute in Hw. discriminate.
Defined.

(** After a creation cut short by a full disk, one file opens and one does not. *)
Lemma engine_files_openable_witness :
  (exists db, files after_torn !! "home/a" = Some db /\ WorldSchema.verify (db_file db) = Ok tt)
  /\ open_file "home/b" after_torn = Err (corrupt_error "missing required table: meta_headers").
Proof.
  pose proof (fun w => engine_files_openable demo_cfg after_append after_torn w (Ok "") demo_cfg_ok after_append_ok
                torn_run) as Hall.
  split.
  - destruct (files after_torn !! "home/a") as [db|] eqn:E; [|by vm_compute in E]. exists db.
    split; [reflexivity|]. apply (proj1 (Hall "home/a") db E).
  - apply (proj2 (Hall "home/b")). evaluate.
Defined.

(** The engine does not start on what that creation left. *)
Lemma torn_blocks_restart :
  build demo_builder quiet_startup (directory_of after_torn)
  = Err (incomplete "home/b" "missing required table: meta_headers").
Proof. evaluate. Qed.

(** A first write whose transaction fails once, for a busy database, leaves a
    directory on which the engine no longer starts: every later startup ends
    with a corrupted audit chain, although nothing was ever stored. *)
Theorem failed_create_blocks_restart :
  is_ok (fst failed_create) = false
  /\ build demo_builder quiet_startup (directory_of (snd failed_create))
     = Err (AuditChainCorrupted "home/a" (chain_broken_text no_events)).
Proof. split; evaluate. Qed.
