(* ===== verification/EngineOps.v ===== *)
(** * The engine facade

    Models the public operations of [Engine] ([core/src/engine_ops.rs]), the read
    transitions of [core/src/world_read_ops.rs], and the public error type with
    the conversions into it ([core/src/engine.rs], [core/src/engine_error.rs],
    [core/src/delete_ops.rs]).  Log lines are left out.  The closure an
    operation runs on the blocking pool can fail to return: [Join] is that
    failure, if any. *)

From S2P Require Import Prelude.
From S2P Require Import RustStr.
From S2P Require Import Auth.
From S2P Require Import Crypto.
From S2P Require Import Etag.
From S2P Require Import Types.
From S2P Require Import Db.
From S2P Require Import AuditVerify.
From S2P Require Import AuditGates.
From S2P Require Import Timeline.
From S2P Require Import EventId.
From S2P Require Import StorageClass.
From S2P Require Import Core.
From S2P Require Import WorldOps.
From S2P Require Import DeleteOps.

(** ** [EngineError] *)

Inductive EngineError :=
| EngineAuth (gate : AuthGate)
| InvalidWorldName
| InvalidMetadata (message : string)
| NotFound
| EngineAppendOnly
| EnginePayloadTooLarge (max : Z)
| PreconditionFailed (message : string)
| EngineQuotaExceeded (used quota projected : Z)
| TransientStorage
| EngineInsufficientStorage
| EngineStorage
| SubscriptionLimit
| ShuttingDown
| InternalInvariant (message : string).

Section Errors.
Context `{Rusqlite}.

(** The class of a storage failure, as the caller sees it. *)
Definition storage_failure_to_engine (err : sqlite_error) : EngineError :=
  match classify_storage_failure err with
  | InsufficientStorage => EngineInsufficientStorage
  | Transient => TransientStorage
  | Other => EngineStorage
  end.

Definition audit_error_to_engine (err : AuditError) : EngineError :=
  match err with
  | ChainBroken _ => EngineStorage
  | Storage err => storage_failure_to_engine err
  end.

Definition blocking_join_to_engine (err : BlockingJoinError) : EngineError :=
  if join_is_cancelled err then TransientStorage
  else InternalInvariant "blocking sqlite worker failed".

Definition write_error_to_engine (value : WriteError) : EngineError :=
  match value with
  | WriteAuth gate => EngineAuth gate
  | WriteAppendOnly => EngineAppendOnly
  | PayloadTooLarge max => EnginePayloadTooLarge max
  | WritePreconditionFailed message => PreconditionFailed message
  | WriteNotFound => NotFound
  | QuotaExceeded used quota projected => EngineQuotaExceeded used quota projected
  | WriteTransientStorage _ _ _ => TransientStorage
  | WriteInsufficientStorage _ _ _ => EngineInsufficientStorage
  | WriteStorageRead _ _ | WriteStorageWriteAudit _ _ | WriteStorageInvariant _
  | WriteAuditChainBroken _ _ => EngineStorage
  | WriteShuttingDown => ShuttingDown
  | WriteBlockingWorker err => blocking_join_to_engine err
  | WriteInternal message => InternalInvariant message
  end.

Definition blocking_error_to_engine (err : BlockingSqliteError) : EngineError :=
  match err with
  | LedgerAudit err => audit_error_to_engine err
  | LedgerSqlite err => storage_failure_to_engine err
  | CounterCapacity => InternalInvariant "audit event counter capacity exhausted"
  | LedgerWorker => InternalInvariant "sqlite worker failed"
  end.

Definition delete_error_to_engine (value : DeleteError) : EngineError :=
  match value with
  | DeleteAuth gate => EngineAuth gate
  | AppendOnlyLedger => EngineAppendOnly
  | ReservedMetadataHeader => InvalidMetadata "reserved-delete-subject-header"
  | DeleteInvalidMetadata message => InvalidMetadata message
  | DeletePreconditionFailed message => PreconditionFailed message
  | DeleteNotFound => NotFound
  | SubjectAudit _ err | AuditRead _ _ err => audit_error_to_engine err
  | SubjectMissingHead _ => EngineStorage
  | DeleteTransientStorage _ _ _ => TransientStorage
  | DeleteInsufficientStorage _ _ _ => EngineInsufficientStorage
  | DeleteStorageRead _ _ _ => EngineStorage
  | AuditIntent _ err => blocking_error_to_engine err
  | DeleteInternalInvariant message => InternalInvariant message
  | DeleteBlockingWorker err => blocking_join_to_engine err
  | DeleteShuttingDown => ShuttingDown
  | DeleteFailedAfterIntent | AuditCommitFailed => EngineStorage
  end.
End Errors.

(** ** Read transitions *)

Record ReadPermit := { rp_world : string }.

Inductive ReadOutcome := Found (stage : Stage) (etag : string) | Missing.

Inductive ReadError :=
| ReadAuth (gate : AuthGate)
| ReadTransientStorage (scope : string) (err : sqlite_error)
| ReadInsufficientStorage (scope : string) (err : sqlite_error)
| StorageRead (scope : string) (err : sqlite_error)
| ReadAuditChainBroken (scope : string) (break_report : VerifyBreak)
| PermitWorldMismatch.

Definition read_error_to_engine (value : ReadError) : EngineError :=
  match value with
  | ReadAuth gate => EngineAuth gate
  | ReadTransientStorage _ _ => TransientStorage
  | ReadInsufficientStorage _ _ => EngineInsufficientStorage
  | StorageRead _ _ | ReadAuditChainBroken _ _ => EngineStorage
  | PermitWorldMismatch => InternalInvariant "read permit world mismatch"
  end.

Section Reads.
Context `{Crypto} `{Rusqlite} (cfg : Config) (tokens : Tokens).

Definition classify_read_error (scope : string) (err : sqlite_error) : ReadError :=
  match classify_storage_failure err with
  | InsufficientStorage => ReadInsufficientStorage scope err
  | Transient => ReadTransientStorage scope err
  | Other => StorageRead scope err
  end.

Definition classify_read_audit_error (scope : string) (err : AuditError) : ReadError :=
  match err with
  | ChainBroken break_report => ReadAuditChainBroken scope break_report
  | Storage err => classify_read_error scope err
  end.

Definition read_permit (world : string) (tier : Tier) : result ReadError ReadPermit :=
  if can_read tokens tier then Ok {| rp_world := world |} else Err (ReadAuth GateRead).

Definition read_world_for (f : option sqlite_error) (permit : ReadPermit) (world : string) (c : Core)
  : result ReadError ReadOutcome :=
  if negb (bool_decide (rp_world permit = world)) then Err PermitWorldMismatch
  else
    match read_world_with_etag f (hmac_key cfg) world c with
    | Ok (Some (stage, etag)) => Ok (Found stage etag)
    | Ok None => Ok Missing
    | Err err => Err (classify_read_audit_error "storage read" err)
    end.

(** A read of a durable world's file through the read cache: a tombstone or a
    missing file gives [None]. *)
Definition via_read_cache {A} (f : option sqlite_error) (world : string) (c : Core)
    (k : world_db -> result AuditError A) : result AuditError (option A) :=
  if bool_decide (world ∈ tombstones c) then Ok None
  else match open_file world c with
       | Err err => faulty_audit f (Err (Storage err))
       | Ok None => Ok None
       | Ok (Some db) => r ← faulty_audit f (k db); Ok (Some r)
       end.

(** [Core::read_timeline_body], [Core::replay_chain_events_after]. *)
Definition core_read_timeline_body (f : option sqlite_error) (address : TimelineAddress) (c : Core)
  : result AuditError (option TimelineRead) :=
  via_read_cache f (ta_world address) c
    (fun db => read_timeline_body_via_conn db address (hmac_key cfg)).

Definition replay_chain_events_after (f : option sqlite_error) (event_id : SubscriptionEventId)
    (limit : Z) (c : Core) : result AuditError (option VerifiedReplayAfter) :=
  via_read_cache f (sid_world event_id) c
    (fun db => verified_replay_events_after_via_conn db (sid_world event_id)
                 (sid_generation event_id) (sid_seq event_id) limit (hmac_key cfg)).

(** [cached_dereference_timeline_coordinate]. *)
Definition cached_dereference_timeline_coordinate (f : option sqlite_error) (permit : ReadPermit)
    (coordinate : TimelineCoordinate) (c : Core) : result AuditError (option TimelineDereference) :=
  if negb (bool_decide (rp_world permit = tc_world coordinate)) then Err (Storage InvalidQuery)
  else via_read_cache f (tc_world coordinate) c
         (fun db => dereference_timeline_coordinate_via_conn db coordinate (hmac_key cfg)).

Definition read_timeline_body_for (f : option sqlite_error) (permit : ReadPermit)
    (address : TimelineAddress) (c : Core) : result ReadError TimelineRead :=
  if negb (bool_decide (rp_world permit = ta_world address)) then Err PermitWorldMismatch
  else
    match core_read_timeline_body f address c with
    | Ok (Some read) => Ok read
    | Ok None => Ok (ReadUnproven address)
    | Err err => Err (classify_read_audit_error "timeline read" err)
    end.

Definition dereference_timeline_coordinate_for (f : option sqlite_error) (permit : ReadPermit)
    (coordinate : TimelineCoordinate) (c : Core) : result ReadError TimelineDereference :=
  if negb (bool_decide (rp_world permit = tc_world coordinate)) then Err PermitWorldMismatch
  else
    match cached_dereference_timeline_coordinate f permit coordinate c with
    | Ok (Some read) => Ok read
    | Ok None => Ok (UnprovenCoordinate coordinate)
    | Err err => Err (classify_read_audit_error "timeline dereference" err)
    end.
End Reads.

(** ** The engine *)

(** [shutdown] is the signal subscribers watch; [listen_slots] the free
    subscription slots. *)
Record Engine := { en_core : Core; shutdown : bool; listen_slots : Z }.

Definition with_core (c : Core) (e : Engine) : Engine :=
  {| en_core := c; shutdown := shutdown e; listen_slots := listen_slots e |}.

Record Representation := {
  re_body : string;
  re_content_type : string;
  re_headers : list (string * string);
}.

Record ReadResult := { rd_representation : Representation; rd_etag : string }.

Inductive WriteKind := KindCreated | KindUpdated.
Record WriteResult := { wr_kind : WriteKind; wr_etag : string }.

Definition write_result (o : WriteOutcome) : WriteResult :=
  {| wr_kind := match wo_status_kind o with
                | StatusCreated => KindCreated
                | StatusUpdated => KindUpdated
                end;
     wr_etag := wo_etag o |}.

(** The worker an operation runs on did not return. *)
Definition Join : Type := option BlockingJoinError.

Section Facade.
Context `{Crypto} `{Rusqlite} (cfg : Config) (tokens : Tokens).

Definition join {A} (j : Join) (r : result EngineError A) : result EngineError A :=
  match j with Some err => Err (blocking_join_to_engine err) | None => r end.

Definition ensure_not_shutdown (e : Engine) : result EngineError unit :=
  if shutdown e then Err ShuttingDown else Ok tt.

Definition engine_begin_file_op (e : Engine) : result EngineError unit :=
  if closed (en_core e) then Err ShuttingDown else Ok tt.

Definition auth_to_engine (err : AuthError) : EngineError :=
  match err with Denied gate => EngineAuth gate | AppendOnly => EngineAppendOnly end.

Definition read (j : Join) (f : option sqlite_error) (world : string) (tier : Tier) (e : Engine)
  : result EngineError (option ReadResult) :=
  join j
   (permit ← map_err read_error_to_engine (read_permit tokens world tier);
    _ ← engine_begin_file_op e;
    outcome ← map_err read_error_to_engine (read_world_for cfg f permit world (en_core e));
    Ok (match outcome with
        | Found stage etag =>
            Some {| rd_representation := {| re_body := stage_body stage;
                                            re_content_type := stage_content_type stage;
                                            re_headers := stage_headers stage |};
                    rd_etag := etag |}
        | Missing => None
        end)).

Definition read_timeline_body (j : Join) (f : option sqlite_error) (address : TimelineAddress)
    (tier : Tier) (e : Engine) : result EngineError TimelineRead :=
  join j
   (permit ← map_err read_error_to_engine (read_permit tokens (ta_world address) tier);
    _ ← engine_begin_file_op e;
    map_err read_error_to_engine (read_timeline_body_for cfg f permit address (en_core e))).

Definition dereference_timeline_coordinate (j : Join) (f : option sqlite_error)
    (coordinate : TimelineCoordinate) (tier : Tier) (e : Engine)
  : result EngineError TimelineDereference :=
  join j
   (permit ← map_err read_error_to_engine (read_permit tokens (tc_world coordinate) tier);
    _ ← engine_begin_file_op e;
    map_err read_error_to_engine
      (dereference_timeline_coordinate_for cfg f permit coordinate (en_core e))).

(** An operation that runs on the core when [m] gives it what it needs; its
    outcome is converted to the public types. *)
Definition on_core {A B R E} (m : Engine -> result EngineError A) (conv : E -> EngineError)
    (into : B -> R) (run : A -> op E B) (e : Engine) : result EngineError R * Engine :=
  match m e with
  | Err err => (Err err, e)
  | Ok a =>
      let '(r, c) := run a (en_core e) in
      (o ← map_err conv r; Ok (into o), with_core c e)
  end.

Definition replace (env : Env) (world : string) (r : Representation) (p : Preconditions) (tier : Tier)
  : Engine -> result EngineError WriteResult * Engine :=
  on_core (fun e => permit ← map_err auth_to_engine (authorize_write world tier);
                    _ ← ensure_not_shutdown e;
                    req ← map_err InvalidMetadata
                            (ReplaceRequest_new (re_body r) (re_content_type r) (re_headers r) p);
                    Ok (permit, req))
          write_error_to_engine write_result (fun '(permit, req) => replace_write cfg env permit req).

Definition append (env : Env) (world body : string) (p : Preconditions) (tier : Tier)
  : Engine -> result EngineError WriteResult * Engine :=
  on_core (fun e => permit ← map_err auth_to_engine (authorize_write world tier);
                    _ ← ensure_not_shutdown e;
                    Ok permit)
          write_error_to_engine write_result
          (fun permit => append_write cfg env permit {| aq_body := body; aq_preconditions := p |}).

(** [EngineOps::delete] with the conversion of [Engine::delete]. *)
Definition delete_with (env : Env) (world : string) (req : DeleteRequest) (tier : Tier)
  : Engine -> result EngineError unit * Engine :=
  on_core (fun e => w ← map_err auth_to_engine (authorize_delete world tier);
                    _ ← ensure_not_shutdown e;
                    Ok w)
          delete_error_to_engine (fun u => u) (fun w => DeleteOps.delete cfg env w req).

(** [Engine::delete]: empty audit metadata. *)
Definition engine_delete (env : Env) (world : string) (p : Preconditions) (tier : Tier)
  : Engine -> result EngineError unit * Engine :=
  delete_with env world {| dq_preconditions := p; dq_content_type := ""; dq_headers := [] |} tier.

(** [Engine::shutdown]: the file-operation gate closes and drains, then the
    signal is set.  The read cache and cached writers are closed with it. *)
Definition engine_shutdown (e : Engine) : Engine :=
  {| en_core := let c := en_core e in
                {| files := files c; broken := broken c; lost := lost c; write_conns := ∅; mem := mem c; counters := counters c;
                   verified_audit_worlds := verified_audit_worlds c; tombstones := tombstones c;
                   ledger_conn := false; ledger_inits := ledger_inits c;
                   delete_ledger_created := delete_ledger_created c; next_event := next_event c;
                   event_log := event_log c; events_sent := events_sent c; closed := true |};
     shutdown := true; listen_slots := listen_slots e |}.
End Facade.
