(* ===== verification/Introspection.v ===== *)
(** * Introspection of the engine

    Models [core/src/engine_introspection.rs]: the proc paths, listings, usage
    and counter snapshots, and the audit reads (verify, head, stamp).  The data
    directory a scan walks is the list of its entries ([Scan]), with the faults
    SQLite or the file system may raise; a scan changes nothing. *)

From S2P Require Import Prelude.
From S2P Require Import RustStr.
From S2P Require Import Path.
From S2P Require Import Auth.
From S2P Require Import Crypto.
From S2P Require Import Types.
From S2P Require Import Db.
From S2P Require Import AuditVerify.
From S2P Require Import AuditGates.
From S2P Require Import Cas.
From S2P Require Import Store.
From S2P Require Import StorageClass.
From S2P Require Import Quota.
From S2P Require Import ReadCache.
From S2P Require Import Core.
From S2P Require Import EngineOps.
From S2P Require Import Startup.
From Stdlib Require Import Ascii.

(** ** Strings: [strip_suffix], [rsplit_once], [contains] and [trim_matches] *)

Fixpoint strip_suffix (p s : string) : option string :=
  if bool_decide (s = p) then Some ""
  else match s with
       | "" => None
       | String c s => String c <$> strip_suffix p s
       end.

(** The last occurrence of [p] splits the string. *)
Fixpoint rsplit_once_str (p s : string) : option (string * string) :=
  match s with
  | "" => if bool_decide (p = "") then Some ("", "") else None
  | String c rest =>
      match rsplit_once_str p rest with
      | Some (before, after) => Some (String c before, after)
      | None => pair "" <$> strip_prefix p s
      end
  end.

Fixpoint contains_str (p s : string) : bool :=
  starts_with p s || match s with "" => false | String _ s => contains_str p s end.

Fixpoint trim_end_matches (c : ascii) (s : string) : string :=
  match s with
  | "" => ""
  | String a s =>
      match trim_end_matches c s with
      | "" => if ascii_eqb c a then "" else String a ""
      | t => String a t
      end
  end.

Definition trim_matches (c : ascii) (s : string) : string :=
  trim_end_matches c (trim_start_matches c s).

(** ** Proc paths *)

Inductive ProcEndpoint :=
| PVersion | PWorlds | PDu | PDf | PPool | PAuditVerify | PAuditHead | PAuditStamp.

#[global] Instance ProcEndpoint_eq_dec : EqDecision ProcEndpoint.
Proof. solve_decision. Defined.

Record ValidatedProcPath := {
  endpoint : ProcEndpoint;
  audit_world : option string;
  audit_stamp_seq : option Z;
}.

#[global] Instance ValidatedProcPath_eq_dec : EqDecision ValidatedProcPath.
Proof. solve_decision. Defined.

Inductive InvalidProcPath := invalid_proc_path.

Definition plain_proc_path (e : ProcEndpoint) : ValidatedProcPath :=
  {| endpoint := e; audit_world := None; audit_stamp_seq := None |}.

Definition ValidatedProcPath_audit_verify (world : string) : ValidatedProcPath :=
  {| endpoint := PAuditVerify; audit_world := Some world; audit_stamp_seq := None |}.
Definition ValidatedProcPath_audit_head (world : string) : ValidatedProcPath :=
  {| endpoint := PAuditHead; audit_world := Some world; audit_stamp_seq := None |}.
Definition ValidatedProcPath_audit_stamp (world : string) (seq : Z) : ValidatedProcPath :=
  {| endpoint := PAuditStamp; audit_world := Some world; audit_stamp_seq := Some seq |}.

Definition parse_proc_chain_seq (raw : string) : result InvalidProcPath Z :=
  if bool_decide (raw = "") || starts_with "+" raw || starts_with "-" raw
     || ((1 <? slen raw)%Z && starts_with "0" raw) || negb (sall is_ascii_digit raw)
  then Err invalid_proc_path
  else
    seq ← ok_or invalid_proc_path (parse_i64 raw);
    map_err (fun _ => invalid_proc_path) (ChainSeq_new seq).

(** The world, the endpoint and the ordinal of an audit path. *)
Definition split_audit_path (raw : string)
  : result InvalidProcPath (string * ProcEndpoint * option Z) :=
  match strip_prefix "proc/audit/" raw ≫= strip_suffix "/verify" with
  | Some world => Ok (world, PAuditVerify, None)
  | None =>
      match strip_prefix "proc/audit/" raw ≫= strip_suffix "/head" with
      | Some world => Ok (world, PAuditHead, None)
      | None =>
          match strip_prefix "proc/audit/" raw with
          | Some value =>
              '(world, raw_seq) ← ok_or invalid_proc_path (rsplit_once_str "/stamp/" value);
              stamp_seq ← parse_proc_chain_seq raw_seq;
              Ok (world, PAuditStamp, Some stamp_seq)
          | None => Err invalid_proc_path
          end
      end
  end.

Definition ValidatedProcPath_new (raw : string) : result InvalidProcPath ValidatedProcPath :=
  let raw := trim_matches slash raw in
  if bool_decide (raw = "proc/version") then Ok (plain_proc_path PVersion)
  else if bool_decide (raw = "proc/worlds") then Ok (plain_proc_path PWorlds)
  else if bool_decide (raw = "proc/du") then Ok (plain_proc_path PDu)
  else if bool_decide (raw = "proc/df") then Ok (plain_proc_path PDf)
  else if bool_decide (raw = "proc/pool") then Ok (plain_proc_path PPool)
  else
    '(world, ep, stamp_seq) ← split_audit_path raw;
    _ ← ensure (negb (bool_decide (trim_matches slash world = "") || starts_with "/" world
                      || ends_with_char slash world || contains_str "//" world)) invalid_proc_path;
    world ← map_err (fun _ => invalid_proc_path) (from_canonical world);
    match ep with
    | PAuditVerify => Ok (ValidatedProcPath_audit_verify world)
    | PAuditHead => Ok (ValidatedProcPath_audit_head world)
    | PAuditStamp =>
        stamp_seq ← ok_or invalid_proc_path stamp_seq;
        Ok (ValidatedProcPath_audit_stamp world stamp_seq)
    | _ => Err invalid_proc_path
    end.

(** ** Snapshots *)

Record WorldUsage := {
  wu_world : string;
  wu_bytes : Z;
  wu_current_body_bytes : Z;
  wu_retained_cas_body_bytes : Z;
  wu_audit_chain_events : Z;
}.

Record DfSnapshot := {
  df_storage_used : Z;
  df_storage_current_body_bytes : Z;
  df_storage_retained_cas_body_bytes : Z;
  df_storage_audit_chain_events : Z;
  df_storage_quota : option Z;
  df_memory_used : Z;
  df_memory_quota : Z;
  df_worlds : Z;
}.

Record PoolSnapshot := {
  ps_read_cache_entries : Z;
  ps_read_cache_tombstones : Z;
  ps_read_cache_hits : Z;
  ps_read_cache_misses : Z;
  ps_read_cache_capped : Z;
  ps_read_cache_evictions : Z;
  ps_read_cache_open_fails : Z;
  ps_read_cache_max_entries : Z;
  ps_ledger_writer_inits : Z;
}.

Record AuditValid := { val_events : Z; val_genesis : string; val_latest : string }.
Record AuditBroken := { ab_break_at : Z; ab_expected : string; ab_actual : string }.

Inductive AuditVerify := Valid (report : AuditValid) | Broken (report : AuditBroken) | NotApplicable.

Record HeadStamp := { hs_generation : string; hs_seq : Z; hs_hmac : string }.

Definition AuditValid_from (v : VerifyOk) : AuditValid :=
  {| val_events := ok_events v; val_genesis := ok_genesis v; val_latest := ok_latest v |}.
Definition AuditBroken_from (v : VerifyBreak) : AuditBroken :=
  {| ab_break_at := break_at v; ab_expected := expected v; ab_actual := actual v |}.

(** ** Sorted listings without duplicates *)

(** [Vec::dedup_by]: an element goes when it is the same as the last one kept. *)
Section Dedup.
Context {A : Type} (same : A -> A -> bool).

Fixpoint dedup_after (last : A) (l : list A) : list A :=
  match l with
  | [] => []
  | x :: l => if same x last then dedup_after last l else x :: dedup_after x l
  end.

Definition dedup_by (l : list A) : list A :=
  match l with [] => [] | x :: l => x :: dedup_after x l end.
End Dedup.

Definition sort_dedup_worlds (worlds : list string) : list string :=
  dedup_by (fun a b => bool_decide (a = b)) (sort_worlds worlds).

(** The rows of [du], ordered by world. *)
Definition row_le {A} (a b : string * A) : Prop := str_le (fst a) (fst b).

#[global] Instance row_le_dec {A} (a b : string * A) : Decision (row_le a b).
Proof. unfold row_le. apply _. Defined.

Definition sort_dedup_rows {A} (rows : list (string * A)) : list (string * A) :=
  dedup_by (fun a b => bool_decide (fst a = fst b)) (merge_sort row_le rows).

(** [MemoryStore::sizes]. *)
Definition sizes (s : MemoryStore) : list (string * Z) :=
  merge_sort row_le ((fun '(world, e) => (world, slen (mem_body e))) <$> map_to_list (ms_map s)).

(** [StorageUsageSnapshot::from_current_body_bytes]. *)
Definition from_current_body_bytes (bytes : Z) : StorageUsageSnapshot :=
  {| current_body_bytes := bytes; retained_cas_body_bytes := 0; audit_chain_events := 0 |}.

(** ** The operations *)

(** What a scan of the data directory meets. *)
Record Scan := {
  sc_root : list DirEntry;
  sc_list_fault : option sqlite_error;
  sc_usage_fault : string -> option sqlite_error;
}.

Definition quiet_scan (root : list DirEntry) : Scan :=
  {| sc_root := root; sc_list_fault := None; sc_usage_fault := fun _ => None |}.

Definition scan_env (sc : Scan) : StartupEnv :=
  {| se_create_dir := None; se_lock := None; se_walk := None; se_verify := fun _ => None;
     se_list := sc_list_fault sc; se_usage := sc_usage_fault sc; se_entropy := None |}.

Record IntrospectionPermit := { ip_path : ValidatedProcPath }.

Section Introspection.
Context `{Crypto} `{PercentEncoding} `{Rusqlite} `{ErrorTexts} (cfg : Config) (tokens : Tokens).

Definition storage_error_to_engine (err : sqlite_error) : EngineError :=
  match classify_storage_failure err with
  | InsufficientStorage => EngineInsufficientStorage
  | Transient => TransientStorage
  | Other => EngineStorage
  end.

Definition authorize_introspection (path : ValidatedProcPath) (tier : Tier) (e : Engine)
  : result EngineError IntrospectionPermit :=
  if negb (can_read tokens tier) then Err (EngineAuth GateRead)
  else
    _ ← engine_begin_file_op e;
    Ok {| ip_path := path |}.

Definition ensure_proc_endpoint (permit : IntrospectionPermit) (expected : ProcEndpoint)
  : result EngineError unit :=
  ensure (bool_decide (endpoint (ip_path permit) = expected))
    (InternalInvariant "proc permit endpoint mismatch").

(** *** Listings *)

Definition EngineOps_list_worlds (sc : Scan) (path : ValidatedProcPath) (tier : Tier) (e : Engine)
  : result EngineError (list string) :=
  permit ← authorize_introspection path tier e;
  _ ← ensure_proc_endpoint permit PWorlds;
  names ← map_err storage_error_to_engine (faulty (sc_list_fault sc) (Startup.list_worlds (sc_root sc)));
  Ok (sort_dedup_worlds (names ++ list_all (mem (en_core e)))).

Definition EngineOps_list_worlds_with_prefix (sc : Scan) (prefix : string) (tier : Tier) (e : Engine)
  : result EngineError (list string) :=
  if negb (can_read tokens tier) then Err (EngineAuth GateRead)
  else
    _ ← engine_begin_file_op e;
    names ← map_err storage_error_to_engine
              (faulty (sc_list_fault sc) (Startup.list_with_prefix prefix (sc_root sc)));
    Ok (sort_dedup_worlds (names ++ Store.list_with_prefix (mem (en_core e)) prefix)).

Definition EngineOps_list_worlds_with_prefix_bounded (sc : Scan) (prefix : string) (tier : Tier) (max : Z)
    (e : Engine) : result EngineError (option (list string)) :=
  if negb (can_read tokens tier) then Err (EngineAuth GateRead)
  else
    _ ← engine_begin_file_op e;
    let limit := saturating_add max 1 in
    names ← map_err storage_error_to_engine
              (faulty (sc_list_fault sc) (list_matching_bounded (starts_with prefix) limit (sc_root sc)));
    match names with
    | None => Ok None
    | Some names =>
        match list_with_prefix_bounded (mem (en_core e)) prefix limit with
        | None => Ok None
        | Some mem_names =>
            let names := sort_dedup_worlds (names ++ mem_names) in
            Ok (if (max <? Z.of_nat (length names))%Z then None else Some names)
        end
    end.

(** *** Usage *)

Definition world_usage (row : string * StorageUsageSnapshot) : WorldUsage :=
  let '(world, usage) := row in
  {| wu_world := world; wu_bytes := total_body_bytes usage;
     wu_current_body_bytes := current_body_bytes usage;
     wu_retained_cas_body_bytes := retained_cas_body_bytes usage;
     wu_audit_chain_events := audit_chain_events usage |}.

Definition EngineOps_du (sc : Scan) (path : ValidatedProcPath) (tier : Tier) (e : Engine)
  : result EngineError (list WorldUsage) :=
  permit ← authorize_introspection path tier e;
  _ ← ensure_proc_endpoint permit PDu;
  durable ← map_err storage_error_to_engine (usages (scan_env sc) (sc_root sc));
  let memory := (fun '(world, bytes) => (world, from_current_body_bytes bytes)) <$> sizes (mem (en_core e)) in
  Ok (world_usage <$> sort_dedup_rows (durable ++ memory)).

Definition EngineOps_df (path : ValidatedProcPath) (tier : Tier) (e : Engine)
  : result EngineError DfSnapshot :=
  permit ← authorize_introspection path tier e;
  _ ← ensure_proc_endpoint permit PDf;
  let c := en_core e in
  let memory_worlds := Z.of_nat (length (list_all (mem c))) in
  let durable_worlds :=
    saturating_sub (durable_world_count (counters c)) (Z.b2z (delete_ledger_created c)) in
  Ok {| df_storage_used := storage_body_bytes (counters c);
        df_storage_current_body_bytes := storage_current_body_bytes (counters c);
        df_storage_retained_cas_body_bytes := storage_retained_cas_body_bytes (counters c);
        df_storage_audit_chain_events := storage_audit_chain_events (counters c);
        df_storage_quota := max_storage_bytes cfg;
        df_memory_used := accounted_total_bytes (mem c);
        df_memory_quota := max_memory_bytes cfg;
        df_worlds := ((durable_worlds + memory_worlds) mod (usize_max + 1))%Z |}.

(** The state of the read cache is an argument: [Core] abstracts it. *)
Definition EngineOps_pool {D} (cache : @Shared D) (max_entries : Z) (path : ValidatedProcPath)
    (tier : Tier) (e : Engine) : result EngineError PoolSnapshot :=
  permit ← authorize_introspection path tier e;
  _ ← ensure_proc_endpoint permit PPool;
  let m := metrics cache in
  Ok {| ps_read_cache_entries := Z.of_nat (snapshot_entries cache);
        ps_read_cache_tombstones := Z.of_nat (snapshot_tombstones cache);
        ps_read_cache_hits := read_cache_hits m;
        ps_read_cache_misses := read_cache_misses m;
        ps_read_cache_capped := read_cache_capped m;
        ps_read_cache_evictions := read_cache_evictions m;
        ps_read_cache_open_fails := read_cache_open_fails m;
        ps_read_cache_max_entries := max_entries;
        ps_ledger_writer_inits := ledger_inits (en_core e) |}.

(** *** Audit reads *)

(** [Core::cached_verify_chain], [cached_chain_head], [cached_chain_stamp]. *)
Definition cached_verify_chain (f : option sqlite_error) (world : string) (c : Core)
  : result AuditError (option VerifyReport) :=
  via_read_cache f world c (fun db => storage (verify_chain_via_conn db world (hmac_key cfg))).

Definition cached_chain_head (f : option sqlite_error) (world : string) (c : Core)
  : result AuditError (option (option ChainStamp)) :=
  via_read_cache f world c (fun db => chain_head_via_conn db world (hmac_key cfg)).

Definition cached_chain_stamp (f : option sqlite_error) (world : string) (seq : Z) (c : Core)
  : result AuditError (option ChainStampRead) :=
  via_read_cache f world c (fun db => chain_stamp_via_conn db world seq (hmac_key cfg)).

(** A broken chain is [EngineError::Storage]; the log line is left out. *)
Definition introspection_audit_error (err : AuditError) : EngineError :=
  match err with
  | ChainBroken _ => EngineStorage
  | Storage err => storage_error_to_engine err
  end.

Definition EngineOps_verify_audit (f : option sqlite_error) (path : ValidatedProcPath) (tier : Tier)
    (e : Engine) : result EngineError AuditVerify :=
  permit ← authorize_introspection path tier e;
  _ ← ensure_proc_endpoint permit PAuditVerify;
  world ← ok_or (InternalInvariant "audit verify missing world") (audit_world (ip_path permit));
  match MemoryWorldPath_new world with
  | Some memory_world =>
      if contains (mem (en_core e)) memory_world then Ok NotApplicable else Err NotFound
  | None =>
      match cached_verify_chain f world (en_core e) with
      | Ok (Some (ReportValid report)) => Ok (Valid (AuditValid_from report))
      | Ok (Some (ReportBroken report)) => Ok (Broken (AuditBroken_from report))
      | Ok None => Err NotFound
      | Err err => Err (introspection_audit_error err)
      end
  end.

Definition EngineOps_chain_head (f : option sqlite_error) (path : ValidatedProcPath) (tier : Tier)
    (e : Engine) : result EngineError (option HeadStamp) :=
  permit ← authorize_introspection path tier e;
  _ ← ensure_proc_endpoint permit PAuditHead;
  world ← ok_or (InternalInvariant "audit head missing world") (audit_world (ip_path permit));
  match MemoryWorldPath_new world with
  | Some memory_world =>
      if contains (mem (en_core e)) memory_world then Ok None else Err NotFound
  | None =>
      match cached_chain_head f world (en_core e) with
      | Ok (Some (Some head)) =>
          Ok (Some {| hs_generation := st_generation head; hs_seq := st_seq head;
                      hs_hmac := st_hmac head |})
      | Ok (Some None) => Ok None
      | Ok None => Err NotFound
      | Err err => Err (introspection_audit_error err)
      end
  end.

Definition EngineOps_chain_stamp (f : option sqlite_error) (path : ValidatedProcPath) (tier : Tier)
    (e : Engine) : result EngineError (option ChainStampRead) :=
  permit ← authorize_introspection path tier e;
  _ ← ensure_proc_endpoint permit PAuditStamp;
  world ← ok_or (InternalInvariant "audit stamp missing world") (audit_world (ip_path permit));
  seq ← ok_or (InternalInvariant "audit stamp missing seq") (audit_stamp_seq (ip_path permit));
  match MemoryWorldPath_new world with
  | Some memory_world =>
      if contains (mem (en_core e)) memory_world then Ok None else Err NotFound
  | None =>
      match cached_chain_stamp f world seq (en_core e) with
      | Ok (Some stamp) => Ok (Some stamp)
      | Ok None => Err NotFound
      | Err err => Err (introspection_audit_error err)
      end
  end.

(** ** The public methods of [Engine] *)

Definition Engine_list_worlds (sc : Scan) (tier : Tier) : Engine -> result EngineError (list string) :=
  EngineOps_list_worlds sc (plain_proc_path PWorlds) tier.

Definition Engine_list_worlds_with_prefix (sc : Scan) (prefix : string) (tier : Tier) (e : Engine)
  : result EngineError (list string) :=
  prefix ← map_err (fun _ => InvalidWorldName) (ValidatedWorldPrefix_new prefix);
  EngineOps_list_worlds_with_prefix sc prefix tier e.

Definition Engine_list_worlds_with_prefix_bounded (sc : Scan) (prefix : string) (tier : Tier) (max : Z)
    (e : Engine) : result EngineError (option (list string)) :=
  prefix ← map_err (fun _ => InvalidWorldName) (ValidatedWorldPrefix_new prefix);
  EngineOps_list_worlds_with_prefix_bounded sc prefix tier max e.

Definition Engine_du (sc : Scan) (tier : Tier) : Engine -> result EngineError (list WorldUsage) :=
  EngineOps_du sc (plain_proc_path PDu) tier.

Definition Engine_df (tier : Tier) : Engine -> result EngineError DfSnapshot :=
  EngineOps_df (plain_proc_path PDf) tier.

Definition Engine_pool {D} (cache : @Shared D) (max_entries : Z) (tier : Tier)
  : Engine -> result EngineError PoolSnapshot :=
  EngineOps_pool cache max_entries (plain_proc_path PPool) tier.

Definition Engine_verify_audit (f : option sqlite_error) (world : string) (tier : Tier)
  : Engine -> result EngineError AuditVerify :=
  EngineOps_verify_audit f (ValidatedProcPath_audit_verify world) tier.

Definition Engine_chain_head (f : option sqlite_error) (world : string) (tier : Tier)
  : Engine -> result EngineError (option HeadStamp) :=
  EngineOps_chain_head f (ValidatedProcPath_audit_head world) tier.

Definition Engine_chain_stamp (f : option sqlite_error) (world : string) (seq : Z) (tier : Tier)
  : Engine -> result EngineError (option ChainStampRead) :=
  EngineOps_chain_stamp f (ValidatedProcPath_audit_stamp world seq) tier.
End Introspection.
