(* ===== verification/FacadeSpec.v ===== *)
(** * What the engine promises its callers

    An abstract store: each world is absent, present with a representation and
    its tag, or unreadable; and the store is up or down.  [spec_step] says which
    answers a request may get and what it may change.  [facade_step] is one
    call of the engine of [EngineOps.v], in any environment. *)

From S2P Require Import Prelude.
From S2P Require Import Path.
From S2P Require Import Auth.
From S2P Require Import Crypto.
From S2P Require Import Etag.
From S2P Require Import Types.
From S2P Require Import Db.
From S2P Require Import AuditVerify.
From S2P Require Import AuditGates.
From S2P Require Import WorldWrite.
From S2P Require Import CoreInv.
From S2P Require Import StorageClass.
From S2P Require Import Core.
From S2P Require Import WorldOps.
From S2P Require Import DeleteOps.
From S2P Require Import CoreTheorems.
From S2P Require Import EngineOps.

(** ** Requests, answers, the abstract store *)

Inductive request :=
| ReqRead (world : string) (tier : Tier)
| ReqReplace (world : string) (r : Representation) (p : Preconditions) (tier : Tier)
| ReqAppend (world body : string) (p : Preconditions) (tier : Tier)
| ReqDelete (world : string) (p : Preconditions) (tier : Tier)
| ReqShutdown.

Inductive response :=
| RespRead (r : result EngineError (option ReadResult))
| RespWrite (r : result EngineError WriteResult)
| RespDelete (r : result EngineError unit)
| RespShutdown.

Inductive world_view :=
| Absent
| Present (r : ReadResult)
| Unreadable (err : EngineError).

Record store := { worlds : string -> world_view; down : bool }.

Definition view_tag (v : world_view) : option string :=
  match v with Present r => Some (rd_etag r) | _ => None end.

(** The caller's preconditions hold on a world. *)
Definition accepts (p : Preconditions) (v : world_view) : Prop :=
  is_empty p = true
  \/ (forall err, v <> Unreadable err) /\ check_preconditions p (view_tag v) = Ok tt.

Definition same_but (ws : list string) (a a' : store) : Prop :=
  down a' = down a /\ forall v, v ∉ ws -> worlds a' v = worlds a v.

(** The headers of a durable world are kept sorted by name. *)
Definition stored (w : string) (r : Representation) : Representation :=
  {| re_body := re_body r; re_content_type := re_content_type r;
     re_headers := if is_memory_world w then re_headers r else sort_headers (re_headers r) |}.

Definition extended (r : Representation) (body : string) : Representation :=
  {| re_body := re_body r +:+ body; re_content_type := re_content_type r; re_headers := re_headers r |}.

Section Spec.
Context (cfg : Config) (tokens : Tokens).

(** A write or delete whose checks before the store did not pass. *)
Definition refused_with (a : store) (auth : result AuthError unit) (err : EngineError) : Prop :=
  match auth with
  | Err denied => err = auth_to_engine denied
  | Ok _ => down a = true /\ err = ShuttingDown
  end.

Definition unit_of {E A} (r : result E A) : result E unit := _ ← r; Ok tt.

(** [quiet]: nothing outside the program failed. *)
Inductive spec_step (a : store) : bool -> request -> response -> store -> Prop :=
| spec_read_denied quiet w tier :
    can_read tokens tier = false ->
    spec_step a quiet (ReqRead w tier) (RespRead (Err (EngineAuth GateRead))) a
| spec_read_down quiet w tier :
    can_read tokens tier = true -> down a = true ->
    spec_step a quiet (ReqRead w tier) (RespRead (Err ShuttingDown)) a
| spec_read_absent quiet w tier :
    can_read tokens tier = true -> down a = false -> worlds a w = Absent ->
    spec_step a quiet (ReqRead w tier) (RespRead (Ok None)) a
| spec_read_present quiet w tier r :
    can_read tokens tier = true -> down a = false -> worlds a w = Present r ->
    spec_step a quiet (ReqRead w tier) (RespRead (Ok (Some r))) a
| spec_read_unreadable quiet w tier err :
    can_read tokens tier = true -> down a = false -> worlds a w = Unreadable err ->
    spec_step a quiet (ReqRead w tier) (RespRead (Err err)) a
| spec_read_fault w tier err :
    spec_step a false (ReqRead w tier) (RespRead (Err err)) a
| spec_replace_refused quiet w r p tier err :
    refused_with a (unit_of (authorize_write w tier)) err ->
    spec_step a quiet (ReqReplace w r p tier) (RespWrite (Err err)) a
| spec_replace_invalid quiet w r p tier m :
    is_ok (authorize_write w tier) = true -> down a = false ->
    validate_representation_metadata (re_content_type r) (re_headers r) = Err m ->
    spec_step a quiet (ReqReplace w r p tier) (RespWrite (Err (InvalidMetadata m))) a
| spec_replace_failed quiet w r p tier err a' :
    is_ok (authorize_write w tier) = true -> down a = false -> same_but [w] a a' ->
    worlds a' w = worlds a w
      \/ is_memory_world w = false /\ worlds a w = Absent /\ worlds a' w = Unreadable EngineStorage ->
    spec_step a quiet (ReqReplace w r p tier) (RespWrite (Err err)) a'
| spec_replace_done quiet w r p tier o a' :
    is_ok (authorize_write w tier) = true -> down a = false ->
    validate_representation_metadata (re_content_type r) (re_headers r) = Ok tt ->
    (slen (re_body r) <= max_world_bytes cfg)%Z -> accepts p (worlds a w) ->
    same_but [w] a a' ->
    worlds a' w = Present {| rd_representation := stored w r; rd_etag := wr_etag o |} ->
    spec_step a quiet (ReqReplace w r p tier) (RespWrite (Ok o)) a'
| spec_append_refused quiet w body p tier err :
    refused_with a (unit_of (authorize_write w tier)) err ->
    spec_step a quiet (ReqAppend w body p tier) (RespWrite (Err err)) a
| spec_append_failed quiet w body p tier err a' :
    is_ok (authorize_write w tier) = true -> down a = false -> same_but [] a a' ->
    spec_step a quiet (ReqAppend w body p tier) (RespWrite (Err err)) a'
| spec_append_done quiet w body p tier o old a' :
    is_ok (authorize_write w tier) = true -> down a = false -> accepts p (worlds a w) ->
    (forall r, worlds a w = Present r -> rd_representation r = old) ->
    worlds a w <> Absent ->
    (slen (re_body old) + slen body <= max_world_bytes cfg)%Z ->
    same_but [w] a a' ->
    worlds a' w = Present {| rd_representation := extended old body; rd_etag := wr_etag o |} ->
    spec_step a quiet (ReqAppend w body p tier) (RespWrite (Ok o)) a'
| spec_delete_refused quiet w p tier err :
    refused_with a (unit_of (authorize_delete w tier)) err ->
    spec_step a quiet (ReqDelete w p tier) (RespDelete (Err err)) a
| spec_delete_failed quiet w p tier err a' :
    is_ok (authorize_delete w tier) = true -> down a = false ->
    same_but [w; DELETE_LEDGER_WORLD] a a' ->
    worlds a' w = worlds a w \/ worlds a' w = Absent ->
    spec_step a quiet (ReqDelete w p tier) (RespDelete (Err err)) a'
| spec_delete_done quiet w p tier a' :
    is_ok (authorize_delete w tier) = true -> down a = false -> accepts p (worlds a w) ->
    worlds a w <> Absent ->
    same_but [w; DELETE_LEDGER_WORLD] a a' -> worlds a' w = Absent ->
    spec_step a quiet (ReqDelete w p tier) (RespDelete (Ok tt)) a'
| spec_shutdown quiet a' :
    (forall v, worlds a' v = worlds a v) -> down a' = true ->
    spec_step a quiet ReqShutdown RespShutdown a'.

(** A run is labelled with what each caller asked and got. *)
Inductive spec_run : store -> list (bool * request * response) -> store -> Prop :=
| spec_run_nil a : spec_run a [] a
| spec_run_cons a quiet q p a1 l a2 :
    spec_step a quiet q p a1 -> spec_run a1 l a2 -> spec_run a ((quiet, q, p) :: l) a2.
End Spec.

(** ** Calls of the engine *)

(** What one call meets outside: a worker that dies and a failing read, or the
    environment of a write or delete. *)
Record outside := { o_join : Join; o_read_fault : option sqlite_error; o_env : Env }.

Definition calm (o : outside) : bool :=
  match o_join o, o_read_fault o with None, None => true | _, _ => false end.

Definition request_world (q : request) : option string :=
  match q with
  | ReqRead w _ | ReqReplace w _ _ _ | ReqAppend w _ _ _ | ReqDelete w _ _ => Some w
  | ReqShutdown => None
  end.

Section Calls.
Context `{Crypto} `{Rusqlite} (cfg : Config) (tokens : Tokens).

Definition call (o : outside) (q : request) (e : Engine) : response * Engine :=
  match q with
  | ReqRead w tier => (RespRead (read cfg tokens (o_join o) (o_read_fault o) w tier e), e)
  | ReqReplace w r p tier =>
      let '(res, e) := replace cfg (o_env o) w r p tier e in (RespWrite res, e)
  | ReqAppend w body p tier =>
      let '(res, e) := append cfg (o_env o) w body p tier e in (RespWrite res, e)
  | ReqDelete w p tier =>
      let '(res, e) := engine_delete cfg (o_env o) w p tier e in (RespDelete res, e)
  | ReqShutdown => (RespShutdown, engine_shutdown e)
  end.

(** Calls name validated worlds; the disk holds less than 2^63 bytes. *)
Inductive facade_step (e : Engine) (q : request) : bool -> response -> Engine -> Prop :=
| facade_call o :
    env_ok (o_env o) -> disk_bounded (en_core e) ->
    (forall w, request_world q = Some w -> valid_world w) ->
    facade_step e q (calm o) (fst (call o q e)) (snd (call o q e)).

Inductive facade_run : Engine -> list (bool * request * response) -> Engine -> Prop :=
| facade_run_nil e : facade_run e [] e
| facade_run_cons e quiet q p e1 l e2 :
    facade_step e q quiet p e1 -> facade_run e1 l e2 -> facade_run e ((quiet, q, p) :: l) e2.

(** ** The abstraction *)

Definition result_of (stage : Stage) (etag : string) : ReadResult :=
  {| rd_representation := {| re_body := stage_body stage; re_content_type := stage_content_type stage;
                             re_headers := stage_headers stage |};
     rd_etag := etag |}.

Definition view (r : result AuditError (option (Stage * string))) : world_view :=
  match r with
  | Ok None => Absent
  | Ok (Some (stage, etag)) => Present (result_of stage etag)
  | Err err => Unreadable (read_error_to_engine (classify_read_audit_error "storage read" err))
  end.

Definition abstract (e : Engine) : store :=
  {| worlds := fun w => view (observe cfg w (en_core e)); down := shutdown e |}.

(** The file-operation gate and the shutdown signal agree; the core is sound. *)
Definition engine_inv (e : Engine) : Prop :=
  core_inv cfg (en_core e) /\ closed (en_core e) = shutdown e.
End Calls.
