(* ===== verification/EngineTheorems.v ===== *)
(** * The engine facade implements the abstract store *)

From S2P Require Import Prelude.
From S2P Require Import Path.
From S2P Require Import Auth.
From S2P Require Import Crypto.
From S2P Require Import Etag.
From S2P Require Import Types.
From S2P Require Import Db.
From S2P Require Import AuditVerify.
From S2P Require Import AuditGates.
From S2P Require Import WorldWrite.
From S2P Require Import Store.
From S2P Require Import Quota.
From S2P Require Import ChainSpec.
From S2P Require Import CoreInv.
From S2P Require Import StorageClass.
From S2P Require Import Core.
From S2P Require Import WorldOps.
From S2P Require Import DeleteOps.
From S2P Require Import Frames.
From S2P Require Import DeleteOpsProofs.
From S2P Require Import CoreTheorems.
From S2P Require Import EngineOps.
From S2P Require Import Demo.
From S2P Require Import EngineDemo.
From S2P Require Import FacadeSpec.

(** ** The refinement *)

Section Refine.
Context `{CryptoLaws} `{RusqliteLaws} (cfg : Config) (tokens : Tokens).
Hypothesis Hcfg : config_ok cfg.

Notation observe := (observe cfg).
Notation abstract := (abstract cfg).
Notation engine_inv := (engine_inv cfg).
Notation L := DELETE_LEDGER_WORLD.

Lemma held_accepts w p c : preconditions_held cfg w p c -> accepts p (view (observe w c)).
Proof.
  intros [He|(cur & -> & Hc)]; [by left|]. right. by destruct cur as [[st tag]|].
Qed.

(** A failing SQLite turns a read into an error, never into another answer. *)
Lemma read_faulty f w c :
  read_world_with_etag f (hmac_key cfg) w c = observe w c
  \/ f <> None /\ exists err, read_world_with_etag f (hmac_key cfg) w c = Err err.
Proof.
  unfold CoreTheorems.observe, read_world_with_etag. destruct (MemoryWorldPath_new w); [by left|].
  case_bool_decide; [by left|]. destruct (open_file w c) as [[db|]|err]; [|by left|];
    (destruct f; [right|by left]); (split; [done|]; by eexists).
Qed.

Lemma read_refines o w tier e :
  engine_inv e ->
  spec_step cfg tokens (abstract e) (calm o) (ReqRead w tier)
    (RespRead (read cfg tokens (o_join o) (o_read_fault o) w tier e)) (abstract e).
Proof.
  intros [_ Hgate]. unfold read, calm. destruct (o_join o); [apply spec_read_fault|].
  unfold read_permit, engine_begin_file_op, read_world_for.
  destruct (can_read tokens tier) eqn:Hr; [|by apply spec_read_denied]. cbn [join map_err mbind result_bind].
  rewrite Hgate. destruct (shutdown e) eqn:Hd; [by apply spec_read_down|]. cbn [rp_world mbind result_bind].
  rewrite bool_decide_true by done. cbn [negb].
  destruct (read_faulty (o_read_fault o) w (en_core e)) as [->|[Hf [err ->]]];
    [|destruct (o_read_fault o); [apply spec_read_fault|done]].
  assert (worlds (abstract e) w = view (observe w (en_core e))) as Hv by done.
  destruct (observe w (en_core e)) as [[[st tag]|]|err]; cbn.
  - by apply spec_read_present.
  - by apply spec_read_absent.
  - by apply spec_read_unreadable.
Qed.

(** Another world's view after a framed operation. *)
Lemma same_but_write w e c :
  write_frame cfg w (en_core e) c -> same_but [w] (abstract e) (abstract (with_core c e)).
Proof.
  intros [_ _ _ _ Ho]. split; [done|]. intros v Hv. cbn. rewrite Ho; [done|]. set_solver.
Qed.

Lemma authorized {A} (r : result AuthError A) a : r = Ok a -> is_ok r = true.
Proof. by intros ->. Qed.

Lemma with_core_inv c e :
  engine_inv e -> core_inv cfg c -> closed c = closed (en_core e) -> engine_inv (with_core c e).
Proof. intros [_ Hg] Hi Hc. split; [done|]. cbn. congruence. Qed.

Lemma replace_refines env w r p tier e :
  engine_inv e -> env_ok env -> disk_bounded (en_core e) -> valid_world w ->
  let '(res, e') := replace cfg env w r p tier e in
  engine_inv e'
  /\ forall quiet, spec_step cfg tokens (abstract e) quiet (ReqReplace w r p tier) (RespWrite res) (abstract e').
Proof using All.
  intros Hinv Henv Hdisk Hw. unfold replace, on_core, ensure_not_shutdown, ReplaceRequest_new.
  destruct (authorize_write w tier) as [permit|denied] eqn:Ha; cbn [map_err mbind result_bind].
  2: { split; [done|]. intros quiet. apply spec_replace_refused. by rewrite Ha. }
  destruct (shutdown e) eqn:Hd; cbn [mbind result_bind].
  { split; [done|]. intros quiet. apply spec_replace_refused. rewrite Ha. by split. }
  destruct (validate_representation_metadata _ _) as [[]|m] eqn:Hm; cbn [map_err mbind result_bind].
  2: { split; [done|]. intros quiet. by apply spec_replace_invalid; [rewrite Ha|..]. }
  set (req := {| rr_body := re_body r; rr_content_type := re_content_type r;
                 rr_headers := re_headers r; rr_preconditions := p |}).
  pose proof (replace_write_run cfg Hcfg env w tier permit req (en_core e) Henv (proj1 Hinv) Hdisk Hw Ha) as Hrun.
  pose proof (fr_replace_write cfg same_gate env permit req (en_core e)) as Hg.
  destruct (replace_write cfg env permit req (en_core e)) as [res c]. destruct Hrun as [Hf Hres].
  split; [apply with_core_inv; [done|apply Hf|done]|]. intros quiet.
  pose proof (same_but_write w e c Hf) as Hsame.
  destruct res as [o|err]; cbn [map_err mbind result_bind].
  - destruct Hres as (Hlen & Hheld & Ho).
    eapply spec_replace_done; [by eapply authorized|done|done|done|by apply held_accepts|done|].
    cbn. rewrite Ho. done.
  - eapply spec_replace_failed; [by eapply authorized|done|done|].
    destruct Hres as [Hsm|(Hmem & Hnone & Hor)]; [left; cbn; by rewrite Hsm|right].
    split; [done|]. cbn. split; [by rewrite (observe_absent _ _ _ (proj1 Hinv))|].
    destruct Hor as [(g & Hgen & Hfile)|(msg & Hb & Hmsg)].
    + by rewrite (observe_fresh _ _ _ g (wf_inv _ _ _ _ Hf)).
    + rewrite (observe_broken _ _ _ _ (wf_inv _ _ _ _ Hf) Hb).
      unfold view, classify_read_audit_error, classify_read_error. by rewrite (classify_corrupt _ Hmsg).
Qed.

Lemma append_refines env w body p tier e :
  engine_inv e -> env_ok env -> disk_bounded (en_core e) -> valid_world w ->
  let '(res, e') := append cfg env w body p tier e in
  engine_inv e'
  /\ forall quiet, spec_step cfg tokens (abstract e) quiet (ReqAppend w body p tier) (RespWrite res) (abstract e').
Proof using All.
  intros Hinv Henv Hdisk Hw. unfold append, on_core, ensure_not_shutdown.
  destruct (authorize_write w tier) as [permit|denied] eqn:Ha; cbn [map_err mbind result_bind].
  2: { split; [done|]. intros quiet. apply spec_append_refused. by rewrite Ha. }
  destruct (shutdown e) eqn:Hd; cbn [mbind result_bind].
  { split; [done|]. intros quiet. apply spec_append_refused. rewrite Ha. by split. }
  set (req := {| aq_body := body; aq_preconditions := p |}).
  pose proof (append_write_run cfg Hcfg env w tier permit req (en_core e) Henv (proj1 Hinv) Hdisk Hw Ha) as Hrun.
  pose proof (fr_append_write cfg same_gate env permit req (en_core e)) as Hg.
  destruct (append_write cfg env permit req (en_core e)) as [res c]. destruct Hrun as [Hf Hres].
  split; [apply with_core_inv; [done|apply Hf|done]|]. intros quiet.
  pose proof (same_but_write w e c Hf) as Hsame.
  destruct res as [o|err]; cbn [map_err mbind result_bind].
  - destruct Hres as (Hthere & Hheld & old & ct & hs & Hlen & Hold & Ho).
    apply (spec_append_done cfg tokens _ quiet w body p tier _
             {| re_body := old; re_content_type := ct; re_headers := hs |});
      [by eapply authorized|done|by apply held_accepts| | |done|done|cbn; by rewrite Ho].
    + cbn. intros r Hr. destruct (observe w (en_core e)) as [[[st tag]|]|]; try done.
      injection Hr as <-. by rewrite (Hold st tag eq_refl).
    + cbn. intros Hv. apply Hthere, (observe_gone cfg); [apply Hinv|].
      by destruct (observe w (en_core e)) as [[[st tag]|]|].
  - eapply spec_append_failed; [by eapply authorized|done|]. split; [done|]. intros v _.
    destruct (decide (v = w)) as [->|Hne]; [cbn; by rewrite Hres|]. apply Hsame. set_solver.
Qed.

Lemma same_but_delete w e c :
  core_inv cfg c -> core_inv cfg (en_core e) -> frame_delete w (en_core e) c ->
  same_but [w; L] (abstract e) (abstract (with_core c e)).
Proof.
  intros Hi Hi0 [Hf Hb Hm]. split; [done|]. intros v Hv. cbn. f_equal. apply observe_same.
  - by rewrite (ca_tombstones _ _ _ _ Hi), (ca_tombstones _ _ _ _ Hi0).
  - split; [apply Hf|apply Hb]; set_solver.
  - apply Hm. set_solver.
Qed.

(** A delete on the core, as the store sees it. *)
Lemma delete_view env w req tier e :
  engine_inv e -> env_ok env -> valid_world w -> authorize_delete w tier = Ok w ->
  let '(res, c) := delete cfg env w req (en_core e) in
  let a := abstract e in
  let a' := abstract (with_core c e) in
  engine_inv (with_core c e) /\ same_but [w; L] a a'
  /\ match res with
     | Ok _ => accepts (dq_preconditions req) (worlds a w) /\ worlds a w <> Absent /\ worlds a' w = Absent
     | Err err => worlds a' w = if world_removed env w err then Absent else worlds a w
     end.
Proof using All.
  intros Hinv Henv Hw Ha. cbn zeta.
  pose proof (delete_run cfg env w tier req (en_core e) Henv (proj1 Hinv) Hw Ha) as Hrun.
  pose proof (fr_delete cfg same_gate env w req (en_core e)) as Hg.
  destruct (delete cfg env w req (en_core e)) as [res c]. destruct Hrun as (Hi & Hf & rows & _ & Hres).
  split; [by apply with_core_inv|]. split; [by apply (same_but_delete w e c Hi (proj1 Hinv) Hf)|].
  assert (world_gone w c -> worlds (abstract (with_core c e)) w = Absent) as Hgone.
  { intros Hw'. cbn. by rewrite (proj2 (observe_gone cfg w c Hi) Hw'). }
  destruct res as [[]|err].
  - destruct Hres as (Hthere & Hheld & Hw' & _). split_and!; [by apply held_accepts| |by apply Hgone].
    cbn. intros Hv. apply Hthere, (observe_gone cfg); [apply Hinv|].
    by destruct (observe w (en_core e)) as [[[st tag]|]|].
  - destruct (world_removed env w err); [apply Hgone, Hres|]. destruct Hres as [Hfw Hmw].
    cbn. f_equal. apply observe_same.
    + by rewrite (ca_tombstones _ _ _ _ Hi), (ca_tombstones _ _ _ _ (proj1 Hinv)).
    + done.
    + by rewrite Hmw.
Qed.

Lemma delete_with_refines env w req tier e :
  engine_inv e -> env_ok env -> valid_world w ->
  let '(res, e') := delete_with cfg env w req tier e in
  engine_inv e'
  /\ forall quiet, spec_step cfg tokens (abstract e) quiet (ReqDelete w (dq_preconditions req) tier)
       (RespDelete res) (abstract e').
Proof using All.
  intros Hinv Henv Hw. unfold delete_with, on_core, ensure_not_shutdown.
  destruct (authorize_delete w tier) as [v|denied] eqn:Ha; cbn [map_err mbind result_bind].
  2: { split; [done|]. intros quiet. apply spec_delete_refused. by rewrite Ha. }
  destruct (shutdown e) eqn:Hd; cbn [mbind result_bind].
  { split; [done|]. intros quiet. apply spec_delete_refused. rewrite Ha. by split. }
  destruct (delete_permit_ok _ _ _ Ha) as [-> HwL].
  pose proof (delete_view env w req tier e Hinv Henv Hw Ha) as Hrun.
  destruct (delete cfg env w req (en_core e)) as [res c]. destruct Hrun as (Hi & Hsame & Hres).
  split; [done|]. intros quiet. destruct res as [[]|err]; cbn [map_err mbind result_bind].
  - destruct Hres as (Hacc & Hthere & Hgone). by apply spec_delete_done; [eapply authorized|..].
  - eapply spec_delete_failed; [by eapply authorized|done|done|]. rewrite Hres.
    destruct (world_removed env w err); [by right|by left].
Qed.

Lemma shutdown_refines e :
  engine_inv e ->
  engine_inv (engine_shutdown e)
  /\ forall quiet, spec_step cfg tokens (abstract e) quiet ReqShutdown RespShutdown (abstract (engine_shutdown e)).
Proof using All.
  intros [[] _]. split; [split; [by split|done]|]. intros quiet. by apply spec_shutdown.
Qed.

Lemma step_refines e q quiet p e' :
  engine_inv e -> facade_step cfg tokens e q quiet p e' ->
  engine_inv e' /\ spec_step cfg tokens (abstract e) quiet q p (abstract e').
Proof using All.
  intros Hinv [o Henv Hdisk Hw]. destruct q as [w tier|w r pr tier|w body pr tier|w pr tier|]; cbn [call request_world] in *.
  - split; [done|by apply read_refines].
  - pose proof (replace_refines (o_env o) w r pr tier e Hinv Henv Hdisk (Hw w eq_refl)) as Hrun.
    destruct (replace _ _ _ _ _ _ e). naive_solver.
  - pose proof (append_refines (o_env o) w body pr tier e Hinv Henv Hdisk (Hw w eq_refl)) as Hrun.
    destruct (append _ _ _ _ _ _ e). naive_solver.
  - unfold engine_delete. set (req := {| dq_preconditions := pr; dq_content_type := ""; dq_headers := [] |}).
    pose proof (delete_with_refines (o_env o) w req tier e Hinv Henv (Hw w eq_refl)) as Hrun.
    destruct (delete_with _ _ _ _ _ e). naive_solver.
  - pose proof (shutdown_refines e Hinv). naive_solver.
Qed.

(** C5: The engine refines the abstract store.  In every sequence of reads,
    replaces, appends, deletes and a shutdown, by callers of any tier and with
    any faults, clocks and outcomes underneath, what each caller gets is an
    answer the store of worlds allows: a caller without the tier gets the
    exact refusal and changes nothing; after the shutdown every authorized
    call is refused; a read answers the representation and tag of the last
    write that succeeded; a failed write changes at most its own world, a delete,
    failed or not, its own world and the delete ledger, and only as the store's
    rules say. *)
Theorem facade_refines_store e l e' :
  engine_inv e -> facade_run cfg tokens e l e' -> spec_run cfg tokens (abstract e) l (abstract e').
Proof using All.
  intros Hinv Hrun. induction Hrun as [e|e quiet q p e1 l e2 Hs _ IH]; [apply spec_run_nil|].
  destruct (step_refines e q quiet p e1 Hinv Hs) as [Hinv1 Hspec].
  eapply spec_run_cons; [done|by apply IH].
Qed.
End Refine.

(** ** A run *)

Definition demo_engine : Engine := {| en_core := core_new; shutdown := false; listen_slots := 4 |}.

Definition demo_tokens : Tokens :=
  {| tok_read := Some "r"; tok_write := None; tok_approve := None |}.

Definition demo_outside : outside :=
  {| o_join := None; o_read_fault := None; o_env := demo_env no_fault |}.

Definition demo_representation : Representation :=
  {| re_body := "hello"; re_content_type := "text/plain"; re_headers := demo_headers |}.

Definition demo_requests : list request :=
  [ReqReplace "home/a" demo_representation no_preconditions Write; ReqRead "home/a" Anon;
   ReqRead "home/a" Read; ReqDelete "home/a" no_preconditions Write;
   ReqDelete "home/a" no_preconditions Approve; ReqRead "home/a" Read; ReqShutdown;
   ReqRead "home/a" Read].

Fixpoint demo_calls (qs : list request) (e : Engine) : list (bool * request * response) * Engine :=
  match qs with
  | [] => ([], e)
  | q :: qs =>
      let r := call demo_cfg demo_tokens demo_outside q e in
      let rest := demo_calls qs (snd r) in
      ((true, q, fst r) :: fst rest, snd rest)
  end.

Fixpoint demo_fits (qs : list request) (e : Engine) : Prop :=
  match qs with
  | [] => True
  | q :: qs =>
      disk_bounded (en_core e)
      /\ match request_world q with Some w => valid_world w | None => True end
      /\ demo_fits qs (snd (call demo_cfg demo_tokens demo_outside q e))
  end.

Lemma demo_engine_ok : engine_inv demo_cfg demo_engine.
Proof. split; [apply core_new_ok|done]. Qed.

Lemma demo_calls_run qs e :
  demo_fits qs e ->
  facade_run demo_cfg demo_tokens e (fst (demo_calls qs e)) (snd (demo_calls qs e)).
Proof.
  revert e. induction qs as [|q qs IH]; intros e; [intros _; apply facade_run_nil|].
  intros (Hd & Hw & Hrest). eapply facade_run_cons; [|by apply IH].
  apply (facade_call demo_cfg demo_tokens e q demo_outside); [apply demo_env_ok|done|].
  intros w Hq. by rewrite Hq in Hw.
Qed.

(** What a caller of each request learns. *)
Definition brief (p : response) : string :=
  match p with
  | RespRead (Ok (Some r)) => re_body (rd_representation r)
  | RespRead (Ok None) => "absent"
  | RespRead (Err (EngineAuth _)) | RespDelete (Err (EngineAuth _)) => "denied"
  | RespRead (Err ShuttingDown) => "shutting down"
  | RespRead (Err _) | RespWrite (Err _) | RespDelete (Err _) => "failed"
  | RespWrite (Ok _) | RespDelete (Ok _) | RespShutdown => "done"
  end.

Lemma facade_refines_store_witness :
  let run := demo_calls demo_requests demo_engine in
  map (fun x => brief (snd x)) (fst run)
  = ["done"; "denied"; "hello"; "denied"; "done"; "absent"; "done"; "shutting down"]
  /\ spec_run demo_cfg demo_tokens (abstract demo_cfg demo_engine) (fst run)
       (abstract demo_cfg (snd run)).
Proof.
  split; [evaluate|].
  apply (facade_refines_store demo_cfg demo_tokens demo_cfg_ok); [apply demo_engine_ok|].
  apply demo_calls_run. evaluate.
Defined.
