(* ===== verification/IntrospectionTheorems.v ===== *)
(** * Introspection is exact

    Listings hold exactly the worlds that exist, in order and once; the usage
    rows add up to the counters; verify, head and stamp tell one story. *)

From S2P Require Import Prelude.
From S2P Require Import WorldSchema.
From S2P Require Import RustStr.
From S2P Require Import Path.
From S2P Require Import Auth.
From S2P Require Import Crypto.
From S2P Require Import Types.
From S2P Require Import Db.
From S2P Require Import AuditVerify.
From S2P Require Import AuditGates.
From S2P Require Import Cas.
From S2P Require Import Store.
From S2P Require Import StorageClass.
From S2P Require Import Quota.
From S2P Require Import ChainSpec.
From S2P Require Import ChainValid.
From S2P Require Import GateProofs.
From S2P Require Import ChainTheorems.
From S2P Require Import CasProofs.
From S2P Require Import Usage.
From S2P Require Import Core.
From S2P Require Import CoreInv.
From S2P Require Import DeleteOpsProofs.
From S2P Require Import CoreTheorems.
From S2P Require Import Frames.
From S2P Require Import EngineOps.
From S2P Require Import Startup.
From S2P Require Import StartupTheorems.
From S2P Require Import Introspection.

(** ** Sorted lists without repetition *)

#[global] Instance str_le_anti : AntiSymm (=) str_le.
Proof.
  intros a b Ha Hb. unfold str_le in *. rewrite str_cmp_antisym in Hb. apply str_cmp_eq.
  by destruct (str_cmp a b).
Qed.

Notation same_name := (fun a b : string => bool_decide (a = b)).

Lemma dedup_after_spec x l :
  StronglySorted str_le (x :: l) ->
  StronglySorted str_le (x :: dedup_after same_name x l)
  /\ NoDup (x :: dedup_after same_name x l)
  /\ forall y, y ∈ x :: dedup_after same_name x l <-> y ∈ x :: l.
Proof.
  revert x. induction l as [|z l IH]; intros x Hs; cbn [dedup_after].
  { split_and!; [done|apply NoDup_singleton|done]. }
  apply StronglySorted_inv in Hs as [Hs Hx]. case_bool_decide as E; [subst z|].
  - destruct (IH x Hs) as (Hs' & Hn & Hin). split_and!; [done|done|].
    intros y. rewrite Hin, !elem_of_cons. naive_solver.
  - destruct (IH z Hs) as (Hs' & Hn & Hin).
    assert (forall y, y ∈ z :: dedup_after same_name z l -> str_le x y) as Hle.
    { intros y Hy. rewrite Hin in Hy. rewrite Forall_forall in Hx. by apply Hx. }
    split_and!.
    + constructor; [done|]. by apply Forall_forall.
    + constructor; [|done]. intros Hxin. apply StronglySorted_inv in Hs as [_ Hz].
      rewrite Hin, elem_of_cons in Hxin. destruct Hxin as [->|Hxin]; [done|]. apply E.
      rewrite Forall_forall in Hz. apply (anti_symm str_le); [by apply Hz|].
      rewrite Forall_forall in Hx. apply Hx. left.
    + intros y. rewrite elem_of_cons, Hin, !elem_of_cons. naive_solver.
Qed.

(** [sort_dedup_worlds] is the sorted list of its elements. *)
Definition listing_of (l : list string) (P : string -> Prop) : Prop :=
  NoDup l /\ StronglySorted str_le l /\ forall w, w ∈ l <-> P w.

Lemma sort_dedup_spec l : listing_of (sort_dedup_worlds l) (fun w => w ∈ l).
Proof.
  unfold sort_dedup_worlds, dedup_by, sort_worlds, listing_of.
  pose proof (merge_sort_Permutation str_le l) as Hp.
  pose proof (StronglySorted_merge_sort str_le l) as Hs.
  destruct (merge_sort str_le l) as [|x s].
  - apply Permutation_nil in Hp as ->. split_and!; [constructor..|done].
  - destruct (dedup_after_spec x s Hs) as (Hs' & Hn & Hin). split_and!; [done|done|].
    intros w. by rewrite Hin, Hp.
Qed.

Lemma listing_unique l l' P Q :
  listing_of l P -> listing_of l' Q -> (forall w, P w <-> Q w) -> l = l'.
Proof.
  intros (Hn & Hs & Hin) (Hn' & Hs' & Hin') HPQ.
  apply (StronglySorted_unique str_le); [done|done|]. apply NoDup_Permutation; [done|done|].
  intros w. by rewrite Hin, Hin', HPQ.
Qed.

Lemma filter_names_sorted (P : string -> Prop) `{!forall w, Decision (P w)} l :
  StronglySorted str_le l -> StronglySorted str_le (filter P l).
Proof.
  induction 1 as [|w l Hs IH Hw]; [constructor|]. rewrite filter_cons. case_decide; [|done].
  constructor; [done|]. rewrite Forall_forall in *. intros v [_ Hv]%list_elem_of_filter. by apply Hw.
Qed.

Lemma listing_filter l P (Q : string -> Prop) `{!forall w, Decision (Q w)} :
  listing_of l P -> listing_of (filter Q l) (fun w => P w /\ Q w).
Proof.
  intros (Hn & Hs & Hin). split_and!; [by apply list.NoDup_filter|by apply filter_names_sorted|].
  intros w. rewrite list_elem_of_filter, Hin. tauto.
Qed.

(** ** Rows by world *)

#[global] Instance row_le_total {A} : Total (@row_le A).
Proof. intros a b. apply (total str_le). Qed.
#[global] Instance row_le_trans {A} : Transitive (@row_le A).
Proof. intros a b c. apply (transitivity (R := str_le)). Qed.

Lemma dedup_by_id {A} (same : A -> A -> bool) l :
  (forall x l1 l2, l = l1 ++ x :: l2 -> Forall (fun y => same y x = false) l2) -> dedup_by same l = l.
Proof.
  destruct l as [|x l]; [done|]. intros Hl. cbn [dedup_by]. f_equal.
  revert x Hl. induction l as [|y l IH]; intros x Hl; [done|]. cbn [dedup_after].
  assert (same y x = false) as ->.
  { pose proof (Hl x [] (y :: l) eq_refl) as Hy. by apply Forall_cons in Hy as [Hy _]. }
  f_equal. apply IH. intros z l1 l2 El. apply (Hl z (x :: l1)). by rewrite El.
Qed.

Lemma sort_dedup_rows_perm {A} (rows : list (string * A)) :
  NoDup rows.*1 -> sort_dedup_rows rows ≡ₚ rows
  /\ StronglySorted str_le (sort_dedup_rows rows).*1.
Proof.
  intros Hn. unfold sort_dedup_rows. pose proof (merge_sort_Permutation row_le rows) as Hp.
  pose proof (StronglySorted_merge_sort row_le rows) as Hs.
  rewrite dedup_by_id.
  - split; [done|]. clear -Hs. induction Hs as [|x l Hs IH Hx]; cbn; constructor; [done|by apply Forall_fmap].
  - intros x l1 l2 El. assert (NoDup (merge_sort row_le rows).*1) as Hn' by (by rewrite Hp).
    rewrite El, fmap_app, fmap_cons in Hn'. apply NoDup_app in Hn' as (_ & _ & Hn').
    apply NoDup_cons in Hn' as [Hx _]. apply Forall_forall. intros y Hy. apply bool_decide_eq_false.
    intros Heq. apply Hx. rewrite <- Heq. by apply list_elem_of_fmap_2.
Qed.

Lemma filter_fmap_all {A B} (P : B -> Prop) `{!forall y, Decision (P y)} (f : A -> B) (l : list A) :
  (forall x, x ∈ l -> P (f x)) -> filter P (f <$> l) = f <$> l.
Proof.
  induction l as [|x l IH]; intros Hl; [done|]. rewrite fmap_cons, filter_cons_True by (apply Hl; left).
  f_equal. apply IH. intros y Hy. apply Hl. by right.
Qed.

Lemma filter_fmap_none {A B} (P : B -> Prop) `{!forall y, Decision (P y)} (f : A -> B) (l : list A) :
  (forall x, x ∈ l -> ~ P (f x)) -> filter P (f <$> l) = [].
Proof.
  induction l as [|x l IH]; intros Hl; [done|]. rewrite fmap_cons, filter_cons_False by (apply Hl; left).
  apply IH. intros y Hy. apply Hl. by right.
Qed.

(** ** Scans *)

Section Introspect.
Context `{CryptoLaws} `{PercentLaws} `{RusqliteLaws} `{ErrorTexts} (cfg : Config) (tokens : Tokens).
Notation key := (hmac_key cfg).

(** A scan that keeps some worlds, from one that keeps all. *)
Lemma collect_keep keep root l :
  collect_worlds (fun _ => true) root = Ok l ->
  collect_worlds keep root = Ok (filter (fun w => keep w = true) l).
Proof.
  revert l. induction root as [|e root IH]; intros l; cbn [collect_worlds]; [by intros [= <-]|].
  destruct (de_db e); [|apply IH]. intros Hl. inv_ok. rewrite filter_cons.
  match goal with Hw : entry_world e = Ok _, Hr : collect_worlds _ root = Ok _ |- _ =>
    rewrite Hw; cbn [mbind result_bind]; rewrite (IH _ Hr) end.
  cbn [mbind result_bind]. destruct (keep _) eqn:E; [by rewrite decide_True|by rewrite decide_False].
Qed.

Lemma collect_bounded_keep keep max out root l :
  collect_worlds (fun _ => true) root = Ok l -> (Z.of_nat (length out) <= max)%Z ->
  let all := out ++ filter (fun w => keep w = true) l in
  collect_bounded keep max out root
  = Ok (if (max <? Z.of_nat (length all))%Z then None else Some all).
Proof.
  revert l out. induction root as [|e root IH]; intros l out; cbn [collect_worlds collect_bounded].
  { intros [= <-] Hle. cbn. rewrite app_nil_r. by destruct (Z.ltb_spec max (Z.of_nat (length out))); [lia|]. }
  destruct (de_db e); [|apply IH]. intros Hl Hle. inv_ok. rewrite filter_cons.
  match goal with Hw : entry_world e = Ok _, Hr : collect_worlds _ root = Ok _ |- _ =>
    rewrite Hw; rename Hr into Hroot end.
  cbn [mbind result_bind]. destruct (keep _) eqn:E; [rewrite decide_True by done|by rewrite decide_False, (IH _ _ Hroot)].
  destruct (Z.leb_spec max (Z.of_nat (length out))) as [Hge|Hlt].
  - rewrite length_app. cbn [length]. match goal with |- _ = Ok (if (max <? ?n)%Z then _ else _) => by destruct (Z.ltb_spec max n); [|lia] end.
  - rewrite (IH _ _ Hroot) by (rewrite length_app; cbn; lia). by rewrite <- app_assoc.
Qed.

(** An engine at rest: the invariant, memory worlds in memory only, and the data
    directory that holds its files. *)
Record at_rest (root : list DirEntry) (e : Engine) : Prop := {
  ar_inv : core_inv cfg (en_core e);
  ar_keys : memory_keys (en_core e);
  ar_utf8 : utf8_worlds (en_core e);
  ar_root : data_root_of (en_core e) root;
  ar_open : closed (en_core e) = false;
}.

Lemma introspection_authorized path tier root e :
  at_rest root e -> can_read tokens tier = true ->
  authorize_introspection tokens path tier e = Ok {| ip_path := path |}.
Proof.
  intros Hr Ht. unfold authorize_introspection, engine_begin_file_op. by rewrite Ht, (ar_open _ _ Hr).
Qed.

(** Without the read tier, or once the engine is closed, nothing is told. *)
Lemma refused_without_read path tier e :
  can_read tokens tier = false ->
  authorize_introspection tokens path tier e = Err (EngineAuth GateRead).
Proof. intros Ht. unfold authorize_introspection. by rewrite Ht. Qed.

Section AtRest.
Context (root : list DirEntry) (e : Engine).
Hypothesis Hrest : at_rest root e.
Notation c := (en_core e).
Notation sc := (quiet_scan root).
Notation has_prefix prefix := (fun w => starts_with prefix w = true).

Definition there (w : string) : Prop := ~ world_gone w c.

Lemma all_file_there w : is_Some (all_files c !! w) <-> files c !! w <> None \/ broken c !! w <> None.
Proof. rewrite all_files_lookup, <- not_eq_None_Some. destruct (broken c !! w), (files c !! w); naive_solver. Qed.

Lemma all_file_durable w r : all_files c !! w = Some r -> is_memory_world w = false.
Proof using Hrest.
  rewrite all_files_lookup. destruct (broken c !! w) as [err|] eqn:Hb.
  - intros _. by destruct (ca_broken _ _ _ _ (ar_inv _ _ Hrest) w err Hb) as (_ & _ & ? & _).
  - intros (db & Hdb & _)%fmap_Some. by destruct (ca_files _ _ _ _ (ar_inv _ _ Hrest) w db Hdb) as (_ & _ & ?).
Qed.

Lemma there_iff w : there w <-> is_Some (all_files c !! w) \/ is_Some (ms_map (mem c) !! w).
Proof using All.
  unfold there, world_gone. pose proof (ar_keys _ _ Hrest w) as Hk. pose proof (all_file_durable w) as Hd.
  destruct (is_memory_world w) eqn:Em.
  - rewrite not_eq_None_Some. split; [by right|]. intros [[r Hr]|Hm]; [|done]. by specialize (Hd r Hr).
  - rewrite all_file_there. split.
    + destruct (files c !! w), (broken c !! w); naive_solver.
    + intros [Hor|Hm]; [intros [??]; naive_solver|by apply Hk in Hm].
Qed.

Lemma durable_scan :
  exists ds, collect_worlds (fun _ => true) root = Ok ds /\ ds ≡ₚ (map_to_list (all_files c)).*1.
Proof using All.
  exists (scanned root).*1. split; [by apply (collect_worlds_spec cfg c); apply Hrest|].
  apply fmap_Permutation, (scanned_perm cfg c); apply Hrest.
Qed.

Lemma name_in {A} (m : gmap string A) w : w ∈ (map_to_list m).*1 <-> is_Some (m !! w).
Proof.
  rewrite list_elem_of_fmap. split.
  - intros ([k x] & -> & Hx%elem_of_map_to_list). by eexists.
  - intros [x Hx]. exists (w, x). split; [done|by apply elem_of_map_to_list].
Qed.

Lemma listed_there ds w : ds ≡ₚ (map_to_list (all_files c)).*1 -> w ∈ ds ++ worlds (mem c) <-> there w.
Proof using All. intros Hd. rewrite elem_of_app, Hd. unfold worlds. rewrite !name_in. symmetry. apply there_iff. Qed.

(** *** Listings *)

Lemma list_worlds_run tier :
  can_read tokens tier = true ->
  exists l, Engine_list_worlds tokens sc tier e = Ok l /\ listing_of l there.
Proof using All.
  intros Hread. destruct durable_scan as (ds & Hds & Hd). unfold Engine_list_worlds, EngineOps_list_worlds.
  rewrite (introspection_authorized _ _ root) by done.
  unfold list_worlds, list_matching. cbn [mbind result_bind ensure_proc_endpoint endpoint ip_path plain_proc_path].
  cbn [faulty sc_list_fault sc_root quiet_scan]. rewrite Hds. cbn [mbind result_bind map_err ensure bool_decide].
  eexists. split; [reflexivity|].
  destruct (sort_dedup_spec (sort_worlds ds ++ list_all (mem c))) as (Hn & Hs & Hin). split_and!; [done|done|].
  intros w. rewrite Hin. unfold list_all, sort_worlds. rewrite !merge_sort_Permutation. by apply listed_there.
Qed.

Lemma prefix_listing ds prefix :
  ds ≡ₚ (map_to_list (all_files c)).*1 ->
  listing_of (sort_dedup_worlds (sort_worlds (filter (has_prefix prefix) ds)
                                 ++ Store.list_with_prefix (mem c) prefix))
    (fun w => there w /\ starts_with prefix w = true).
Proof using All.
  intros Hd. destruct (sort_dedup_spec (sort_worlds (filter (has_prefix prefix) ds)
    ++ Store.list_with_prefix (mem c) prefix)) as (Hn & Hs & Hin). split_and!; [done|done|].
  intros w. rewrite Hin. unfold Store.list_with_prefix, sort_worlds. rewrite !merge_sort_Permutation.
  rewrite <- filter_app, list_elem_of_filter, (listed_there ds) by done. tauto.
Qed.

(** The bounded loops of both stores give up only above a bound the merged
    listing exceeds too. *)
Lemma bounded_listing ds prefix max names :
  ds ≡ₚ (map_to_list (all_files c)).*1 -> (0 <= max <= usize_max)%Z ->
  names = sort_dedup_worlds (sort_worlds (filter (has_prefix prefix) ds)
                             ++ Store.list_with_prefix (mem c) prefix) ->
  let limit := saturating_add max 1 in
  match (if (limit <? Z.of_nat (length (filter (has_prefix prefix) ds)))%Z then None
         else Some (sort_worlds (filter (has_prefix prefix) ds))) with
  | None => None
  | Some durable =>
      match list_with_prefix_bounded (mem c) prefix limit with
      | None => None
      | Some mem_names =>
          let names := sort_dedup_worlds (durable ++ mem_names) in
          if (max <? Z.of_nat (length names))%Z then None else Some names
      end
  end = if (max <? Z.of_nat (length names))%Z then None else Some names.
Proof using All.
  intros Hd Hmax En limit. assert (max <= limit)%Z as Hlim by (unfold limit, saturating_add; lia).
  assert (forall l, NoDup l -> (forall w, w ∈ l -> there w /\ starts_with prefix w = true) ->
            (limit < Z.of_nat (length l))%Z -> (max < Z.of_nat (length names))%Z) as Hmore.
  { intros l Hn Hl Hlt. pose proof (prefix_listing ds prefix Hd) as (_ & _ & Hin). rewrite <- En in Hin.
    assert (l ⊆+ names) as Hsub%submseteq_length; [|lia]. apply NoDup_submseteq; [done|].
    intros w Hw. apply Hin, Hl, Hw. }
  pose proof (list_elem_of_filter (has_prefix prefix)) as Hf.
  destruct (Z.ltb_spec limit (Z.of_nat (length (filter (has_prefix prefix) ds)))) as [Hlt|Hle].
  { apply Hmore in Hlt; [by rewrite (proj2 (Z.ltb_lt _ _) Hlt)| |].
    - apply list.NoDup_filter. rewrite Hd. apply NoDup_fst_map_to_list.
    - intros w [Hp Hw]%Hf. split; [|done]. rewrite <- (listed_there ds) by done. apply elem_of_app. by left. }
  unfold list_with_prefix_bounded. rewrite Store.collect_bounded_spec by (cbn; lia).
  cbn [length app Nat.add].
  destruct (Z.ltb_spec limit (Z.of_nat (length (filter (has_prefix prefix) (worlds (mem c)))))) as [Hlt|Hle'].
  { cbn. apply Hmore in Hlt; [by rewrite (proj2 (Z.ltb_lt _ _) Hlt)| |].
    - apply list.NoDup_filter. apply NoDup_fst_map_to_list.
    - intros w [Hp Hw]%Hf. split; [|done]. rewrite <- (listed_there ds) by done. apply elem_of_app. by right. }
  cbn [mbind option_bind]. by rewrite En.
Qed.

(** *** Usage *)

Definition memory_rows : list (string * StorageUsageSnapshot) :=
  (fun '(world, bytes) => (world, from_current_body_bytes bytes)) <$> sizes (mem c).

Lemma memory_rows_perm :
  memory_rows ≡ₚ (fun '(w, x) => (w, from_current_body_bytes (slen (mem_body x)))) <$> map_to_list (ms_map (mem c)).
Proof using Type.
  unfold memory_rows, sizes. rewrite merge_sort_Permutation, <- list_fmap_compose.
  apply Permutation_refl'. apply list_fmap_ext. by intros ? [w x] ?.
Qed.

(** An incomplete file cannot be measured. *)
Lemma du_torn w tier :
  is_Some (broken c !! w) -> can_read tokens tier = true -> Engine_du tokens sc tier e = Err EngineStorage.
Proof using All.
  intros Hb Hread. unfold Engine_du, EngineOps_du. rewrite (introspection_authorized _ _ root) by done.
  cbn [mbind result_bind ensure_proc_endpoint endpoint ip_path plain_proc_path ensure bool_decide sc_root quiet_scan].
  destruct (usages_torn cfg c (ar_inv _ _ Hrest) (ar_utf8 _ _ Hrest) root w (ar_root _ _ Hrest) Hb) as (msg & Hu & Hmsg).
  fold sc. change (usages (scan_env sc) root) with (usages quiet_startup root). rewrite Hu. cbn.
  unfold storage_error_to_engine.
  by rewrite (classify_corrupt _ Hmsg).
Qed.

(** Every file is complete. *)
Hypothesis Hcomplete : broken c = ∅.

Lemma complete_names : (map_to_list (all_files c)).*1 ≡ₚ (map_to_list (files c)).*1.
Proof using Hcomplete.
  rewrite (all_files_complete c Hcomplete), <- list_fmap_compose. apply Permutation_refl', list_fmap_ext.
  by intros ? [w db] ?.
Qed.

(** The rows before [WorldUsage]. *)
Lemma usage_rows :
  exists us, usages (scan_env sc) root = Ok us
    /\ us ≡ₚ prod_map id usage_of <$> map_to_list (files c)
    /\ NoDup (us ++ memory_rows).*1
    /\ (forall w, w ∈ (us ++ memory_rows).*1 <-> there w).
Proof using All.
  destruct (usages_spec cfg c (ar_inv _ _ Hrest) (ar_utf8 _ _ Hrest) root (ar_root _ _ Hrest) Hcomplete) as (us & Hus & Hp).
  exists us. split; [exact Hus|]. split; [done|].
  assert (us.*1 ≡ₚ (map_to_list (files c)).*1) as Hd.
  { rewrite Hp, <- list_fmap_compose. apply Permutation_refl', list_fmap_ext. by intros ? [w db] ?. }
  assert (memory_rows.*1 ≡ₚ worlds (mem c)) as Hm.
  { rewrite memory_rows_perm, <- list_fmap_compose. unfold worlds. apply Permutation_refl', list_fmap_ext.
    by intros ? [w x] ?. }
  rewrite fmap_app. split.
  - rewrite Hd, Hm. apply NoDup_app. split_and!; [apply NoDup_fst_map_to_list| |apply NoDup_fst_map_to_list].
    intros w Hw Hwm. apply name_in in Hw as [db Hdb]. unfold worlds in Hwm. apply name_in in Hwm as Hwm.
    destruct (ca_files _ _ _ _ (ar_inv _ _ Hrest) _ _ Hdb) as (_ & _ & Hn).
    apply (ar_keys _ _ Hrest) in Hwm. congruence.
  - intros w. rewrite elem_of_app, Hm. rewrite <- elem_of_app. apply listed_there. by rewrite complete_names.
Qed.

Lemma du_run tier :
  can_read tokens tier = true ->
  exists us, us ≡ₚ prod_map id usage_of <$> map_to_list (files c)
    /\ Engine_du tokens sc tier e = Ok (world_usage <$> sort_dedup_rows (us ++ memory_rows))
    /\ sort_dedup_rows (us ++ memory_rows) ≡ₚ us ++ memory_rows
    /\ listing_of (wu_world <$> (world_usage <$> sort_dedup_rows (us ++ memory_rows))) there.
Proof using All.
  intros Hread. destruct usage_rows as (us & Hus & Hp & Hn & Hin). exists us. split; [done|].
  destruct (sort_dedup_rows_perm _ Hn) as [Hsp Hss]. split_and!; [|done|].
  - unfold Engine_du, EngineOps_du. rewrite (introspection_authorized _ _ root) by done.
    cbn [mbind result_bind ensure_proc_endpoint endpoint ip_path plain_proc_path ensure bool_decide sc_root quiet_scan].
    fold sc. rewrite Hus. reflexivity.
  - assert (wu_world <$> (world_usage <$> sort_dedup_rows (us ++ memory_rows))
            = (sort_dedup_rows (us ++ memory_rows)).*1) as ->.
    { rewrite <- list_fmap_compose. apply list_fmap_ext. by intros ? [w u] ?. }
    split_and!; [by rewrite Hsp|done|]. intros w. by rewrite Hsp.
Qed.

(** The sum of a figure over rows of [du]. *)
Definition total (f : WorldUsage -> Z) (rows : list WorldUsage) : Z := foldr Z.add 0%Z (f <$> rows).

Notation durable_rows := (filter (fun r => is_memory_world (wu_world r) = false)).
Notation memory_only := (filter (fun r => is_memory_world (wu_world r) = true)).

Lemma durable_key p : p ∈ map_to_list (files c) -> is_memory_world (fst p) = false.
Proof using Hrest.
  destruct p as [w db]. intros Hdb%elem_of_map_to_list.
  by destruct (ca_files _ _ _ _ (ar_inv _ _ Hrest) _ _ Hdb) as (_ & _ & ?).
Qed.

Lemma memory_key p : p ∈ map_to_list (ms_map (mem c)) -> is_memory_world (fst p) = true.
Proof using Hrest. destruct p as [w x]. intros Hx%elem_of_map_to_list. apply (ar_keys _ _ Hrest). by eexists. Qed.

Definition durable_row (p : string * world_db) : WorldUsage := world_usage (prod_map id usage_of p).
Definition memory_row (p : string * MemEntry) : WorldUsage :=
  world_usage (fst p, from_current_body_bytes (slen (mem_body (snd p)))).

Lemma rows_split us rows :
  us ≡ₚ prod_map id usage_of <$> map_to_list (files c) -> rows ≡ₚ world_usage <$> (us ++ memory_rows) ->
  durable_rows rows ≡ₚ durable_row <$> map_to_list (files c)
  /\ memory_only rows ≡ₚ memory_row <$> map_to_list (ms_map (mem c)).
Proof using Hrest.
  intros Hus Hrows.
  assert (rows ≡ₚ (durable_row <$> map_to_list (files c)) ++ (memory_row <$> map_to_list (ms_map (mem c)))) as ->.
  { rewrite Hrows, Hus, memory_rows_perm, fmap_app, <- !list_fmap_compose.
    apply Permutation_app; apply Permutation_refl', list_fmap_ext; by intros ? [] ?. }
  rewrite !filter_app. split.
  - rewrite filter_fmap_all, filter_fmap_none, app_nil_r; [done| |]; intros [w x] Hx; cbn.
    + apply memory_key in Hx. cbn in Hx. by rewrite Hx.
    + apply durable_key in Hx. cbn in Hx. by rewrite Hx.
  - rewrite filter_fmap_none, filter_fmap_all; [done| |]; intros [w x] Hx; cbn.
    + apply memory_key in Hx. cbn in Hx. by rewrite Hx.
    + apply durable_key in Hx. cbn in Hx. by rewrite Hx.
Qed.

Lemma total_durable (f : WorldUsage -> Z) g rows :
  rows ≡ₚ durable_row <$> map_to_list (files c) ->
  (forall w db, files c !! w = Some db -> f (durable_row (w, db)) = g db) ->
  total f rows = present_sum g c.
Proof using Hrest.
  intros Hrows Hf. unfold total, present_sum. rewrite map_sum_list.
  rewrite (sum_perm _ (f <$> (durable_row <$> map_to_list (files c)))) by (by rewrite Hrows).
  f_equal. rewrite <- list_fmap_compose. apply list_fmap_ext. intros i [w db] Hi. cbn.
  apply Hf, elem_of_map_to_list. by eapply list_elem_of_lookup_2.
Qed.

Lemma file_total w db : files c !! w = Some db -> total_body_bytes (usage_of db) = file_bytes db.
Proof using Hrest.
  intros Hw. pose proof (ar_inv _ _ Hrest) as Hinv. unfold total_body_bytes, saturating_add. cbn.
  pose proof (files_sum_ge file_bytes c w db file_bytes_nonneg Hw) as Hge.
  pose proof (ca_bytes _ _ _ _ Hinv). pose proof (ca_quota _ _ _ _ Hinv).
  change (slen (db_body db) + sum_len (db_cas db))%Z with (file_bytes db). lia.
Qed.
End AtRest.

(** ** Audit reads of one file *)

Lemma genesis_kept ret l v :
  (0 < av_events v)%Z -> av_genesis (view_steps ret l v) = av_genesis v.
Proof.
  revert v. induction l as [|row l IH]; intros v Hv; [done|].
  change (view_steps ret (row :: l) v) with (view_steps ret l (view_step ret row v)).
  rewrite IH by (cbn; lia). cbn. by rewrite bool_decide_false by lia.
Qed.

(** The label of the first row's HMAC. *)
Definition genesis_label (db : world_db) : string := hmac_label (from_option ev_hmac "" (head (db_events db))).
Definition latest_label (db : world_db) : string := hmac_label (default "" (latest_hmac db)).

Lemma walk_genesis db w g st :
  db_wf db -> cas_shape db -> floor_ok db ->
  walk key w g (ret_of db) None (audit_select db) = Ok st ->
  va_genesis st = from_option ev_hmac "" (head (db_events db)).
Proof.
  intros Hwf Hsh Hfl Hw. destruct (proj1 (walk_Ok db key w g None Hwf Hsh Hfl) st Hw) as (_ & _ & Hv).
  change (va_genesis st) with (av_genesis (view st)). rewrite Hv.
  destruct (db_events db) as [|row l]; [done|].
  change (view_steps ?r (row :: l) ?v) with (view_steps r l (view_step r row v)).
  by rewrite genesis_kept by (cbn; lia).
Qed.

Lemma verify_chain_intact w db :
  db_wf db -> chain_valid w key db ->
  verify_chain_via_conn db w key
  = Ok (ReportValid {| ok_events := event_count db; ok_genesis := genesis_label db;
                       ok_latest := latest_label db |}).
Proof.
  intros Hwf Hv. destruct (chain_valid_shape _ _ _ Hv) as [Hsh Hfl].
  unfold verify_chain_via_conn, verify_world_tx, verify_statement.
  rewrite (proj2 (generation_Ok db _) (conj eq_refl (cv_gen _ _ _ Hv))), (load_intact _ _ _ Hv).
  cbn [mbind result_bind].
  destruct (verify_statement_capture_spec db key false w (db_generation db) None Hwf Hsh Hfl)
    as (r & -> & [(_ & _ & _ & st & Hw & He & Hp & ->)|[Hn _]]).
  - cbn [mbind result_bind]. rewrite (proj2 (live_body_spec db)) by apply Hv. cbn [mbind result_bind].
    unfold capture_ok. rewrite He, bool_decide_false by (rewrite event_count_zero; apply Hv).
    by rewrite (walk_genesis _ _ _ _ Hwf Hsh Hfl Hw), Hp.
  - destruct Hn. split_and!; [apply Hv|apply Hv|right; apply Hv].
Qed.

(** The empty schema of a failed first write. *)
Lemma fresh_reads w g seq :
  WorldGeneration_new g = Ok g ->
  verify_chain_via_conn (create g) w key = Ok (ReportBroken no_events)
  /\ chain_head_via_conn (create g) w key = Ok None
  /\ chain_stamp_via_conn (create g) w seq key = Ok (StampMissing g seq 0).
Proof.
  intros Hg. unfold verify_chain_via_conn, verify_world_tx, chain_head_via_conn, chain_stamp_via_conn, generation.
  cbn [create db_generation]. by rewrite Hg.
Qed.

(** ** The claims *)

(** C25: The listings of the engine are exact.  Every world that exists, durable
    or in memory, is listed once, in byte order, and nothing else is; the
    listing under a prefix is the part of it below the prefix; and the bounded
    listing is that list, refused exactly when it is longer than the bound. *)
Theorem listings_exact root e tier :
  at_rest root e -> can_read tokens tier = true ->
  exists l, Engine_list_worlds tokens (quiet_scan root) tier e = Ok l
    /\ listing_of l (fun w => ~ world_gone w (en_core e))
    /\ forall prefix, ValidatedWorldPrefix_new prefix = Ok prefix ->
         let below := filter (fun w => starts_with prefix w = true) l in
         Engine_list_worlds_with_prefix tokens (quiet_scan root) prefix tier e = Ok below
         /\ forall max, (0 <= max <= usize_max)%Z ->
              Engine_list_worlds_with_prefix_bounded tokens (quiet_scan root) prefix tier max e
              = Ok (if (max <? Z.of_nat (length below))%Z then None else Some below).
Proof using All.
  intros Hrest Hread. destruct (list_worlds_run root e Hrest tier Hread) as (l & Hl & Hlist).
  exists l. split_and!; [done|exact Hlist|]. intros prefix Hprefix below.
  destruct (durable_scan root e Hrest) as (ds & Hds & Hd).
  assert (sort_dedup_worlds (sort_worlds (filter (fun w => starts_with prefix w = true) ds)
            ++ Store.list_with_prefix (mem (en_core e)) prefix) = below) as Hbelow.
  { eapply listing_unique; [by apply (prefix_listing root)|by apply listing_filter|]. done. }
  split.
  - unfold Engine_list_worlds_with_prefix, EngineOps_list_worlds_with_prefix, engine_begin_file_op,
      Startup.list_with_prefix, list_matching.
    rewrite Hprefix, Hread, (ar_open _ _ Hrest). cbn [map_err mbind result_bind negb faulty sc_list_fault sc_root quiet_scan].
    rewrite (collect_keep _ _ _ Hds). cbn [map_err mbind result_bind]. by rewrite Hbelow.
  - intros max Hmax.
    unfold Engine_list_worlds_with_prefix_bounded, EngineOps_list_worlds_with_prefix_bounded, engine_begin_file_op,
      list_matching_bounded.
    rewrite Hprefix, Hread, (ar_open _ _ Hrest). cbn [map_err mbind result_bind negb faulty sc_list_fault sc_root quiet_scan].
    rewrite (collect_bounded_keep _ _ [] _ _ Hds) by (cbn; unfold saturating_add, usize_max in *; lia).
    cbn [map_err mbind result_bind app].
    rewrite <- (bounded_listing root e Hrest ds prefix max below Hd Hmax (eq_sym Hbelow)).
    destruct (_ <? _)%Z; cbn [option_map]; [done|]. by destruct (list_with_prefix_bounded _ _ _).
Qed.

Notation durable_rows := (filter (fun r => is_memory_world (wu_world r) = false)).
Notation memory_only := (filter (fun r => is_memory_world (wu_world r) = true)).

Lemma total_memory s rows :
  ms_wf s -> rows ≡ₚ memory_row <$> map_to_list (ms_map s) -> (total wu_bytes rows <= ms_accounted s)%Z.
Proof.
  intros Hwf Hrows. rewrite (ms_sum _ Hwf). unfold total.
  rewrite (sum_perm _ (wu_bytes <$> (memory_row <$> map_to_list (ms_map s)))) by (by rewrite Hrows).
  rewrite <- list_fmap_compose.
  assert (forall w x, ms_map s !! w = Some x -> (wu_bytes (memory_row (w, x)) <= entry_cost w x)%Z) as Hle.
  { intros w x Hx. destruct (ms_costs _ Hwf _ _ Hx) as [n Hn]. unfold entry_cost. rewrite Hn. cbn.
    apply accounted_ge in Hn. pose proof (slen_nonneg w).
    unfold total_body_bytes, saturating_add, MEMORY_ENTRY_OVERHEAD_BYTES, MEMORY_BODY_HASH_HEX_BYTES in *. cbn. lia. }
  clear Hrows. unfold map_sum. rewrite map_fold_foldr.
  assert (forall l, l ⊆ map_to_list (ms_map s) ->
    (foldr Z.add 0 (wu_bytes ∘ memory_row <$> l)
     <= foldr (uncurry (fun k x acc => entry_cost k x + acc)) 0 l)%Z) as Hl; [|by apply Hl].
  induction l as [|[w x] l IH]; intros Hsub; [done|]. cbn [fmap list_fmap foldr uncurry compose].
  assert ((w, x) ∈ map_to_list (ms_map s)) as Hx%elem_of_map_to_list by set_solver.
  specialize (Hle w x Hx). assert (l ⊆ map_to_list (ms_map s)) as Hsub' by set_solver. specialize (IH Hsub').
  unfold compose in *. lia.
Qed.


(** The three audit reads of a world, together. *)
Definition audit_reads (e : Engine) (tier : Tier) (w : string) (seq : Z) :=
  (Engine_verify_audit cfg tokens None w tier e, Engine_chain_head cfg tokens None w tier e,
   Engine_chain_stamp cfg tokens None w seq tier e).

Lemma durable_audit_reads e tier w seq db :
  core_inv cfg (en_core e) -> closed (en_core e) = false -> can_read tokens tier = true ->
  files (en_core e) !! w = Some db ->
  audit_reads e tier w seq
  = (match verify_chain_via_conn db w key with
     | Ok (ReportValid report) => Ok (Valid (AuditValid_from report))
     | Ok (ReportBroken report) => Ok (Broken (AuditBroken_from report))
     | Err err => Err (storage_error_to_engine err)
     end,
     match chain_head_via_conn db w key with
     | Ok head => Ok ((fun head => {| hs_generation := st_generation head; hs_seq := st_seq head;
                                      hs_hmac := st_hmac head |}) <$> head)
     | Err err => Err (introspection_audit_error err)
     end,
     match chain_stamp_via_conn db w seq key with
     | Ok stamp => Ok (Some stamp)
     | Err err => Err (introspection_audit_error err)
     end).
Proof.
  intros Hinv Hopen Hread Hdb. destruct (ca_files _ _ _ _ Hinv _ _ Hdb) as (_ & _ & Hm).
  unfold audit_reads, Engine_verify_audit, Engine_chain_head, Engine_chain_stamp, EngineOps_verify_audit,
    EngineOps_chain_head, EngineOps_chain_stamp, authorize_introspection, engine_begin_file_op,
    cached_verify_chain, cached_chain_head, cached_chain_stamp, via_read_cache, MemoryWorldPath_new.
  rewrite Hread, Hopen. cbn [mbind result_bind negb ensure_proc_endpoint ensure bool_decide endpoint ip_path
    audit_world audit_stamp_seq ok_or ValidatedProcPath_audit_verify ValidatedProcPath_audit_head
    ValidatedProcPath_audit_stamp]. rewrite Hm, (open_file_Some _ _ _ _ _ _ Hinv Hdb).
  rewrite bool_decide_false by (rewrite (ca_tombstones _ _ _ _ Hinv); set_solver). cbn [faulty_audit].
  unfold storage. f_equal; [f_equal|].
  - by destruct (verify_chain_via_conn db w key) as [[]|].
  - by destruct (chain_head_via_conn db w key) as [[]|].
  - by destruct (chain_stamp_via_conn db w seq key).
Qed.

Lemma other_audit_reads e tier w seq :
  closed (en_core e) = false -> can_read tokens tier = true -> tombstones (en_core e) = ∅ ->
  open_file w (en_core e) = Ok None \/ is_memory_world w = true ->
  audit_reads e tier w seq
  = if is_memory_world w && contains (mem (en_core e)) w then (Ok NotApplicable, Ok None, Ok None)
    else (Err NotFound, Err NotFound, Err NotFound).
Proof.
  intros Hopen Hread Ht Hw.
  unfold audit_reads, Engine_verify_audit, Engine_chain_head, Engine_chain_stamp, EngineOps_verify_audit,
    EngineOps_chain_head, EngineOps_chain_stamp, authorize_introspection, engine_begin_file_op,
    cached_verify_chain, cached_chain_head, cached_chain_stamp, via_read_cache, MemoryWorldPath_new.
  rewrite Hread, Hopen. cbn [mbind result_bind negb ensure_proc_endpoint ensure bool_decide endpoint ip_path
    audit_world audit_stamp_seq ok_or ValidatedProcPath_audit_verify ValidatedProcPath_audit_head
    ValidatedProcPath_audit_stamp].
  destruct (is_memory_world w); [by destruct (contains _ w)|]. destruct Hw as [Hw|]; [|done].
  by rewrite bool_decide_false, Hw by (rewrite Ht; set_solver).
Qed.

Lemma torn_audit_reads e tier w seq err :
  core_inv cfg (en_core e) -> closed (en_core e) = false -> can_read tokens tier = true ->
  broken (en_core e) !! w = Some err ->
  audit_reads e tier w seq = (Err EngineStorage, Err EngineStorage, Err EngineStorage).
Proof.
  intros Hinv Hopen Hread Hb.
  destruct (ca_broken _ _ _ _ Hinv w err Hb) as (_ & _ & Hm & (msg & -> & Hmsg)%torn_corrupt).
  unfold audit_reads, Engine_verify_audit, Engine_chain_head, Engine_chain_stamp, EngineOps_verify_audit,
    EngineOps_chain_head, EngineOps_chain_stamp, authorize_introspection, engine_begin_file_op,
    cached_verify_chain, cached_chain_head, cached_chain_stamp, via_read_cache, MemoryWorldPath_new, open_file.
  rewrite Hread, Hopen. cbn [mbind result_bind negb ensure_proc_endpoint ensure bool_decide endpoint ip_path
    audit_world audit_stamp_seq ok_or ValidatedProcPath_audit_verify ValidatedProcPath_audit_head
    ValidatedProcPath_audit_stamp]. rewrite Hm, Hb.
  rewrite bool_decide_false by (rewrite (ca_tombstones _ _ _ _ Hinv); set_solver). cbn [faulty_audit].
  unfold introspection_audit_error, storage_error_to_engine. by rewrite (classify_corrupt _ Hmsg).
Qed.

(** The three audit reads of a world tell one story.  A world that does not
    exist is not found by any of them; a memory world has no chain.  A durable
    world with events verifies, its head carries the event count and the HMAC
    the verification reports, and the stamp at every ordinal up to the count is
    the HMAC of that row, the first being the reported genesis and the last the
    head; above the count the stamp is missing, with the count.  The empty
    schema of a failed first write is reported broken, without a head; on an
    incomplete file all three fail. *)
Lemma audit_reads_run e tier w seq :
  core_inv cfg (en_core e) -> closed (en_core e) = false -> can_read tokens tier = true -> (0 < seq)%Z ->
  let reads := audit_reads e tier w seq in
  if is_memory_world w then
    reads = if contains (mem (en_core e)) w then (Ok NotApplicable, Ok None, Ok None)
            else (Err NotFound, Err NotFound, Err NotFound)
  else
    match open_file w (en_core e) with
    | Err _ => reads = (Err EngineStorage, Err EngineStorage, Err EngineStorage)
    | Ok None => reads = (Err NotFound, Err NotFound, Err NotFound)
    | Ok (Some db) =>
        match db_events db with
        | [] => reads = (Ok (Broken (AuditBroken_from no_events)), Ok None,
                         Ok (Some (StampMissing (db_generation db) seq 0)))
        | first :: rest =>
            let n := event_count db in
            let label row := hmac_label (ev_hmac row) in
            reads = (Ok (Valid {| val_events := n; val_genesis := label first;
                                  val_latest := label (default first (last rest)) |}),
                     Ok (Some {| hs_generation := db_generation db; hs_seq := n;
                                 hs_hmac := label (default first (last rest)) |}),
                     Ok (Some (match (first :: rest) !! Z.to_nat (seq - 1) with
                               | Some row => StampFound {| st_generation := db_generation db; st_seq := seq;
                                                           st_hmac := label row |}
                               | None => StampMissing (db_generation db) seq n
                               end)))
        end
    end.
Proof using All.
  intros Hinv Hopen Hread Hseq reads. pose proof (ca_tombstones _ _ _ _ Hinv) as Ht. subst reads.
  destruct (is_memory_world w) eqn:Hm.
  { rewrite other_audit_reads by (done || by right). by rewrite Hm. }
  destruct (open_file w (en_core e)) as [[db|]|err] eqn:Hof.
  2: { rewrite other_audit_reads by (done || by left). by rewrite Hm. }
  2: { unfold open_file in Hof. destruct (broken (en_core e) !! w) eqn:Hb; [|done].
       by eapply torn_audit_reads. }
  destruct (open_file_Ok _ _ _ Hof) as [_ Hdb].
  rewrite (durable_audit_reads e tier w seq db) by done.
  destruct (ca_files _ _ _ _ Hinv _ _ Hdb) as ([Hwf [Hv|(g & Hg & ->)]] & _).
  - destruct (head_and_stamp w key db seq Hwf Hv Hseq) as [Hh Hs].
    rewrite (verify_chain_intact w db Hwf Hv), Hh, Hs.
    unfold genesis_label, latest_label, latest_hmac.
    destruct (db_events db) as [|first rest] eqn:Ee; [by destruct (cv_some _ _ _ Hv)|].
    cbn. rewrite last_cons. by destruct (last rest).
  - destruct (fresh_reads w g seq Hg) as (E1 & E2 & E3). by rewrite E1, E2, E3.
Qed.
End Introspect.
