(* ===== verification/Announce.v ===== *)
(** * Every committed row is announced

    Subscribers learn of a chain's rows from the live stream.  An operation
    commits rows to a file and then sends one change event for each of them:
    over any run, the chain events of a world that were sent are exactly the
    rows its file gained, in order. *)

From S2P Require Import Prelude.
From S2P Require Import WorldSchema.
From S2P Require Import Auth.
From S2P Require Import Crypto.
From S2P Require Import Etag.
From S2P Require Import Types.
From S2P Require Import Db.
From S2P Require Import AuditVerify.
From S2P Require Import AuditGates.
From S2P Require Import AuditAppend.
From S2P Require Import Cas.
From S2P Require Import WorldWrite.
From S2P Require Import Timeline.
From S2P Require Import EventId.
From S2P Require Import Store.
From S2P Require Import Quota.
From S2P Require Import ChainValid.
From S2P Require Import GateProofs.
From S2P Require Import StorageClass.
From S2P Require Import Core.
From S2P Require Import WorldOps.
From S2P Require Import DeleteOps.
From S2P Require Import Frames.
From S2P Require Import CoreInv.
From S2P Require Import DeleteOpsProofs.
From S2P Require Import CoreTheorems.

(** ** Rows and announcements *)

Definition rows_of (v : string) (c : Core) : list EventRow := from_option db_events [] (files c !! v).
Definition gen_of (v : string) (c : Core) : option string := db_generation <$> files c !! v.

Definition chain_id (v g : string) (row : EventRow) : SubscriptionEventId :=
  {| sid_world := v; sid_generation := g; sid_seq := ev_id row |}.

Definition id_in (v : string) (i : ChangeEventIdentity) : option SubscriptionEventId :=
  match i with
  | IdentityChain id => if bool_decide (sid_world id = v) then Some id else None
  | IdentityEphemeral => None
  end.

(** The chain events of the world [v] among events. *)
Definition chain_ids (v : string) (sent : list ChangeEvent) : list SubscriptionEventId :=
  omap (fun e => id_in v (ce_identity e)) sent.

Definition gen_kept (v : string) (c c' : Core) : Prop :=
  forall g, gen_of v c = Some g -> gen_of v c' = Some g.

Definition announced (v : string) (c c' : Core) : Prop :=
  gen_kept v c c'
  /\ exists sent rows, events_sent c' = events_sent c ++ sent /\ rows_of v c' = rows_of v c ++ rows
       /\ chain_ids v sent = map (chain_id v (default "" (gen_of v c'))) rows.

(** Nothing is committed and nothing sent; a file may have been created. *)
Definition still (c c' : Core) : Prop :=
  events_sent c' = events_sent c
  /\ forall v, rows_of v c' = rows_of v c /\ gen_kept v c c'.

(** Rows with these ids were committed to [w], and nothing sent yet. *)
Definition adds (w : string) (ids : list SubscriptionEventId) (c c' : Core) : Prop :=
  events_sent c' = events_sent c
  /\ (forall v, v <> w -> rows_of v c' = rows_of v c)
  /\ (forall v, gen_kept v c c')
  /\ exists g rows, gen_of w c' = Some g /\ rows_of w c' = rows_of w c ++ rows
       /\ ids = map (chain_id w g) rows.

(** What is still to be sent after an operation's body. *)
Definition due (w : string) (idents : list ChangeEventIdentity) (c c' : Core) : Prop :=
  (exists ids, idents = map IdentityChain ids /\ adds w ids c c')
  \/ Forall (fun i => i = IdentityEphemeral) idents /\ still c c'.

#[global] Instance gen_kept_preorder v : PreOrder (gen_kept v).
Proof. split; [by intros c g|]. intros c1 c2 c3 H1 H2 g Hg. auto. Qed.

#[global] Instance still_preorder : PreOrder still.
Proof.
  split; [by intros c|]. intros c1 c2 c3 [E1 H1] [E2 H2]. split; [congruence|]. intros v.
  destruct (H1 v) as [R1 G1], (H2 v) as [R2 G2]. split; [congruence|by etrans].
Qed.

Lemma no_rows v c : gen_of v c = None -> rows_of v c = [].
Proof. unfold gen_of, rows_of. by destruct (files c !! v). Qed.

#[global] Instance announced_preorder v : PreOrder (announced v).
Proof.
  split.
  { intros c. split; [done|]. exists [], []. by rewrite !app_nil_r. }
  intros c1 c2 c3 [G1 (s1 & r1 & E1 & R1 & A1)] [G2 (s2 & r2 & E2 & R2 & A2)].
  split; [by etrans|]. exists (s1 ++ s2), (r1 ++ r2).
  split; [by rewrite E2, E1, app_assoc|]. split; [by rewrite R2, R1, app_assoc|].
  unfold chain_ids in *. rewrite omap_app, A1, A2, map_app. f_equal.
  destruct (gen_of v c2) as [g|] eqn:Eg; [by rewrite (G2 g Eg)|].
  apply no_rows in Eg. rewrite Eg in R1. symmetry in R1. apply app_nil in R1 as [_ ->]. done.
Qed.

Lemma still_announced v c c' : still c c' -> announced v c c'.
Proof.
  intros [E H]. destruct (H v) as [R G]. split; [done|]. exists [], [].
  by rewrite E, R, !app_nil_r.
Qed.

Lemma still_due w idents c1 c2 c3 : still c1 c2 -> due w idents c2 c3 -> due w idents c1 c3.
Proof.
  intros Hst [(ids & -> & E' & R' & G' & g & rows & Hg & Hr & ->)|[Hf Hs]]; pose proof Hst as [E H].
  - left. eexists. split; [done|]. split_and!; [congruence| | |].
    + intros v Hv. rewrite R' by done. apply H.
    + intros v. etrans; [apply H|apply G'].
    + exists g, rows. split_and!; [done| |done]. rewrite Hr. by rewrite (proj1 (H w)).
  - right. split; [done|by etrans].
Qed.

Lemma due_still w idents c1 c2 c3 : due w idents c1 c2 -> still c2 c3 -> due w idents c1 c3.
Proof.
  intros [(ids & -> & E' & R' & G' & g & rows & Hg & Hr & ->)|[Hf Hs]] Hst; pose proof Hst as [E H].
  - left. eexists. split; [done|]. split_and!; [congruence| | |].
    + intros v Hv. rewrite (proj1 (H v)). auto.
    + intros v. etrans; [apply G'|apply H].
    + exists g, rows. split_and!; [by apply H| |done]. by rewrite (proj1 (H w)), Hr.
  - right. split; [done|by etrans].
Qed.

Lemma chain_ids_own w g rows sent :
  map ce_identity sent = map IdentityChain (map (chain_id w g) rows) ->
  chain_ids w sent = map (chain_id w g) rows.
Proof.
  revert rows. induction sent as [|e sent IH]; intros [|r rows]; try done. cbn. intros [= He Hs].
  rewrite He. cbn. rewrite bool_decide_true by done. f_equal. by apply IH.
Qed.

Lemma chain_ids_other v w g rows sent :
  v <> w -> map ce_identity sent = map IdentityChain (map (chain_id w g) rows) -> chain_ids v sent = [].
Proof.
  intros Hne. revert rows. induction sent as [|e sent IH]; intros [|r rows]; try done. cbn. intros [= He Hs].
  rewrite He. cbn. rewrite bool_decide_false by done. by eapply IH.
Qed.

Lemma chain_ids_ephemeral v sent :
  Forall (fun i => i = IdentityEphemeral) (map ce_identity sent) -> chain_ids v sent = [].
Proof.
  induction sent as [|e sent IH]; [done|]. cbn. intros [He Hs]%Forall_cons. rewrite He. cbn. by apply IH.
Qed.

(** Sending what is due settles it. *)
Lemma due_sent v w c c1 c2 sent :
  due w (map ce_identity sent) c c1 -> files c2 = files c1 ->
  events_sent c2 = events_sent c1 ++ sent -> announced v c c2.
Proof.
  intros Hdue Hf He.
  assert (forall u, gen_of u c2 = gen_of u c1 /\ rows_of u c2 = rows_of u c1) as Hsame
    by (intros u; unfold gen_of, rows_of; by rewrite Hf).
  destruct (Hsame v) as [Sg Sr].
  destruct Hdue as [(ids & Hids & E' & R' & G' & g & rows & Hg & Hr & ->)|[Hf' [E' H']]].
  - split; [intros x Hx; rewrite Sg; by apply G'|]. destruct (decide (v = w)) as [->|Hne].
    + exists sent, rows. split_and!; [congruence|congruence|].
      rewrite Sg, Hg. by apply chain_ids_own.
    + exists sent, []. rewrite app_nil_r. split_and!; [congruence|rewrite Sr; auto|].
      by eapply chain_ids_other.
  - destruct (H' v) as [R' G']. split; [intros x Hx; rewrite Sg; by apply G'|].
    exists sent, []. rewrite app_nil_r. split_and!; [congruence|congruence|]. by apply chain_ids_ephemeral.
Qed.

(** ** What a file gains *)

Definition extends (w : string) (ids : list SubscriptionEventId) (db db' : world_db) : Prop :=
  db_generation db' = db_generation db
  /\ exists rows, db_events db' = db_events db ++ rows /\ ids = map (chain_id w (db_generation db)) rows.

Lemma extends_trans w ids1 ids2 db1 db2 db3 :
  extends w ids1 db1 db2 -> extends w ids2 db2 db3 -> extends w (ids1 ++ ids2) db1 db3.
Proof.
  intros [G1 (r1 & R1 & ->)] [G2 (r2 & R2 & ->)]. split; [congruence|]. exists (r1 ++ r2).
  rewrite R2, R1, app_assoc, map_app, G1. done.
Qed.

Lemma extends_same w db db' :
  db_generation db' = db_generation db -> db_events db' = db_events db -> extends w [] db db'.
Proof. intros Hg He. split; [done|]. exists []. by rewrite He, app_nil_r. Qed.

Lemma extends_adds w ids db db' c c' :
  files c !! w = Some db -> extends w ids db db' -> files c' = <[w := db']> (files c) ->
  events_sent c' = events_sent c -> adds w ids c c'.
Proof.
  intros Hdb [Hg (rows & Hr & ->)] Hf He. split; [done|]. unfold gen_kept, rows_of, gen_of. rewrite Hf.
  split; [intros v Hv; by rewrite lookup_insert_ne by done|]. split.
  - intros v g. destruct (decide (v = w)) as [->|Hne]; [|by rewrite lookup_insert_ne].
    rewrite lookup_insert_eq, Hdb. cbn. by rewrite Hg.
  - exists (db_generation db), rows. rewrite lookup_insert_eq, Hdb. cbn. by rewrite Hg, Hr.
Qed.

Section Files.
Context `{Crypto}.

Lemma append_tx_extends atx now k target sha sz ct hs db row db' :
  append_tx_inner atx now k target sha sz ct hs db = Ok (row, db') ->
  atx_generation atx = db_generation db ->
  extends (atx_world atx) [from_appended_audit_row row] db db'
  /\ ar_world row = atx_world atx /\ ar_generation row = atx_generation atx.
Proof.
  unfold append_tx_inner. intros Ha Hg. inv_ok.
  match goal with H : TimelineSeq_new _ = Ok _ |- _ => apply TimelineSeq_new_Ok in H as [-> _] end.
  split; [|done]. split; [done|]. eexists. split; [done|]. cbn. unfold from_appended_audit_row, chain_id.
  cbn. by rewrite Hg.
Qed.

Lemma retain_extends w target body db r db' : retain_body_tx target body db = Ok (r, db') ->
  extends w [] db db' /\ rc_target r = target.
Proof.
  unfold retain_body_tx. intros Hr. inv_ok.
  destruct (db_cas db !! sha256_hex body); inv_ok; (split; [by apply extends_same|done]).
Qed.

Lemma mark_extends w id db db' : mark_retention_started_tx id db = Ok db' -> extends w [] db db'.
Proof. unfold mark_retention_started_tx. intros Hm. destruct (db_floor db); inv_ok; by apply extends_same. Qed.

Lemma prune_extends w n db p db' : prune_to_count_tx n db = Ok (p, db') -> extends w [] db db'.
Proof.
  unfold prune_to_count_tx. intros Hp. apply result_bind_Ok in Hp as ([f|] & _ & Hp); [|by inv_ok; apply extends_same].
  apply result_bind_Ok in Hp as (cur & _ & Hp).
  destruct (match cur with Some floor => _ | None => _ end); inv_ok; by apply extends_same.
Qed.

Lemma full_gate_atx db w key m atx pf :
  verify_appendable_tx_full db w key m = Ok (atx, pf) ->
  atx_world atx = w /\ atx_generation atx = db_generation db.
Proof.
  intros Hg. unfold verify_appendable_tx_full, storage in Hg.
  apply result_bind_Ok in Hg as (gen & Hgen & Hg). apply map_err_Ok, generation_Ok in Hgen as [-> _].
  repeat (apply result_bind_Ok in Hg as (? & _ & Hg)). by injection Hg as <- _.
Qed.

Lemma gate_atx db cache w key opened r :
  verify_appendable_world_tx db cache w key opened = Ok r ->
  atx_world (fst (fst r)) = w /\ atx_generation (fst (fst r)) = db_generation db.
Proof.
  unfold verify_appendable_world_tx. intros Hv. destruct (audit_chain_opening db opened).
  - apply result_bind_Ok in Hv as ([atx pf] & Hg%map_err_Ok & Hv). injection Hv as <-. by apply full_gate_atx in Hg.
  - unfold verified_prefix in Hv. destruct (bool_decide (w ∈ cache)).
    + apply result_bind_Ok in Hv as (atx & Hg%map_err_Ok & Hv). injection Hv as <-.
      unfold verify_appendable_tx_existing_tail_checked, storage in Hg.
      apply result_bind_Ok in Hg as (gen & Hgen & Hg). apply map_err_Ok, generation_Ok in Hgen as [-> _].
      repeat (apply result_bind_Ok in Hg as (? & _ & Hg)). by injection Hg as <-.
    + apply result_bind_Ok in Hv as ([atx pf] & Hg%map_err_Ok & Hv). injection Hv as <-. by apply full_gate_atx in Hg.
Qed.

Definition row_idents (format : option AppendedAuditRow) (body : AppendedBodyAuditRow)
  : list SubscriptionEventId :=
  match format with Some f => [from_appended_audit_row f] | None => [] end
  ++ [from_timeline_address (br_timeline_address body)].

Lemma format_extends is_genesis atx now db fe db' :
  append_format_if is_genesis atx now db = Ok (fe, db') -> atx_generation atx = db_generation db ->
  extends (atx_world atx) match fe with Some f => [from_appended_audit_row f] | None => [] end db db'.
Proof.
  unfold append_format_if. intros Hf Hg. destruct is_genesis; [|injection Hf as <- <-; by apply extends_same].
  apply result_bind_Ok in Hf as ([row db1] & Ha%map_err_Ok & Hf). injection Hf as <- <-.
  by apply append_tx_extends in Ha as [? _].
Qed.

Lemma body_extends atx now k r ct hs db row db' :
  append_retained_body_tx_row atx now k r ct hs db = Ok (row, db') ->
  atx_generation atx = db_generation db ->
  extends (atx_world atx) [from_timeline_address (br_timeline_address row)] db db'.
Proof.
  unfold append_retained_body_tx_row. intros Ha Hg. apply result_bind_Ok in Ha as ([] & Ht & Ha).
  apply ensure_Ok, bool_decide_eq_true in Ht.
  apply result_bind_Ok in Ha as ([ar db1] & Hi & Ha). injection Ha as <- <-.
  apply append_tx_extends in Hi as (He & Hw & Hgen); [|done].
  replace (from_timeline_address _) with (from_appended_audit_row ar); [done|].
  unfold from_appended_audit_row, from_timeline_address. cbn. by rewrite Ht, Hw.
Qed.

(** The steps of both transactions after the gate: format row, retained body,
    new stage, body row, retention mark, pruning. *)
Lemma transaction_extends w ids1 ids2 db db1 db2 body ct meta db3 db4 db5 :
  extends w ids1 db db1 -> extends w [] db1 db2 ->
  extends w ids2 (set_stage body ct meta db2) db3 -> extends w [] db3 db4 -> extends w [] db4 db5 ->
  extends w (ids1 ++ ids2) db db5.
Proof.
  intros H1 H2 H3 H4 H5.
  pose proof (extends_same w db2 (set_stage body ct meta db2) eq_refl eq_refl) as Hs.
  rewrite <- (app_nil_r (_ ++ _)), <- app_assoc.
  exact (extends_trans _ _ _ _ _ _ H1 (extends_trans _ [] _ _ _ _ H2 (extends_trans _ [] _ _ _ _ Hs
           (extends_trans _ _ _ _ _ _ H3 (extends_trans _ [] [] _ _ _ H4 H5))))).
Qed.

Lemma write_extends opened cache w body ct hs key n nowf now db res cache' db' :
  write_with_audit_checked_retaining_on_conn opened cache w body ct hs key n nowf now db
  = Ok (res, cache', db') ->
  extends w (row_idents (wr_format_event res) (wr_body_event res)) db db'.
Proof.
  unfold write_with_audit_checked_retaining_on_conn. intros Hw.
  apply result_bind_Ok in Hw as ([[atx is_genesis] prefix] & Hgate & Hw).
  apply gate_atx in Hgate as [Hworld Hgen]. cbn in Hworld, Hgen.
  apply result_bind_Ok in Hw as ([fe db1] & Hf & Hw). apply format_extends in Hf; [|done].
  apply result_bind_Ok in Hw as ([r db2] & Hr & Hw). apply (retain_extends w) in Hr as [Hr _].
  apply result_bind_Ok in Hw as (meta & _ & Hw).
  apply result_bind_Ok in Hw as ([row db3] & Hb & Hw). apply map_err_Ok, body_extends in Hb;
    [|rewrite Hgen; cbn; destruct Hf as [Hf _], Hr as [Hr _]; congruence].
  apply result_bind_Ok in Hw as (db4 & Hm & Hw). apply (mark_extends w) in Hm.
  apply result_bind_Ok in Hw as ([p db5] & Hp & Hw). apply (prune_extends w) in Hp.
  injection Hw as <- _ <-. cbn [wr_format_event wr_body_event]. rewrite Hworld in *.
  by eapply transaction_extends.
Qed.

Lemma append_extends cache w body ct hs key n nowf now db res h cache' db' :
  append_with_audit_retaining_on_conn cache w body ct hs key n nowf now db = Ok (res, h, cache', db') ->
  extends w (row_idents (ap_format_event res) (ap_body_event res)) db db'.
Proof.
  unfold append_with_audit_retaining_on_conn. intros Hw.
  apply result_bind_Ok in Hw as ([[atx is_genesis] prefix] & Hgate & Hw).
  apply gate_atx in Hgate as [Hworld Hgen]. cbn in Hworld, Hgen.
  apply result_bind_Ok in Hw as ([fe db1] & Hf & Hw). apply format_extends in Hf; [|done].
  apply result_bind_Ok in Hw as ([r db2] & Hr & Hw). apply (retain_extends w) in Hr as [Hr _].
  apply result_bind_Ok in Hw as ([row db3] & Hb & Hw). apply map_err_Ok, body_extends in Hb;
    [|rewrite Hgen; cbn; destruct Hf as [Hf _], Hr as [Hr _]; congruence].
  apply result_bind_Ok in Hw as (db4 & Hm & Hw). apply (mark_extends w) in Hm.
  apply result_bind_Ok in Hw as ([p db5] & Hp & Hw). apply (prune_extends w) in Hp.
  injection Hw as <- _ _ <-. cbn [ap_format_event ap_body_event]. rewrite Hworld in *.
  by eapply transaction_extends.
Qed.
End Files.

(** ** The operations *)

(** An operation's body: on success the identities [f a] are due, on failure
    nothing happened. *)
Definition delivers {E A} (w : string) (f : A -> list ChangeEventIdentity) (m : op E A) : Prop :=
  forall c, match m c with
            | (Ok a, c') => due w (f a) c c'
            | (Err _, c') => still c c'
            end.

Section Delivers.
Context {E : Type} (w : string).

Lemma delivers_bind {A B} (f : B -> _) (m : op E A) (k : A -> op E B) :
  keeps still m -> (forall a, delivers w f (k a)) -> delivers w f (m ≫= k).
Proof.
  intros Hm Hk c. unfold mbind, op_bind. specialize (Hm c). destruct (m c) as [[a|e] c1]; cbn in Hm; [|done].
  specialize (Hk a c1). destruct (k a c1) as [[b|e] c2]; [by eapply still_due|by etrans].
Qed.

Lemma delivers_on_drop {A} (f : A -> _) release (m : op E A) :
  (forall c, still c (release c)) -> delivers w f m -> delivers w f (on_drop release m).
Proof.
  intros Hr Hm c. unfold on_drop. specialize (Hm c). destruct (m c) as [[a|e] c1]; [done|].
  etrans; [done|apply Hr].
Qed.

(** What follows the commit cannot fail. *)
Lemma delivers_then {A B} (f : A -> _) (g : B -> _) (m : op E A) (k : A -> op E B) :
  delivers w f m ->
  (forall a c, exists b c', k a c = (Ok b, c') /\ still c c' /\ g b = f a) -> delivers w g (m ≫= k).
Proof.
  intros Hm Hk c. unfold mbind, op_bind. specialize (Hm c). destruct (m c) as [[a|e] c1]; [|done].
  destruct (Hk a c1) as (b & c2 & -> & Hs & ->). by eapply due_still.
Qed.
End Delivers.

Lemma still_fields c c' : files c' = files c -> events_sent c' = events_sent c -> still c c'.
Proof. intros Hf He. split; [done|]. intros v. unfold gen_kept, rows_of, gen_of. by rewrite Hf. Qed.

Lemma still_counters f c : still c (set_counters f c).
Proof. by apply still_fields. Qed.

Lemma still_tombstone w c : still c (clear_tombstone w c).
Proof. apply still_fields; unfold clear_tombstone; by destruct (is_memory_world w). Qed.

Lemma still_install w c : still c (install_tombstone_blocking w c).
Proof. apply still_fields; unfold install_tombstone_blocking; by destruct (is_memory_world w). Qed.

(** A fresh schema has no rows, and neither has a file that no open accepts. *)
Lemma still_open f g w : keeps still (open_world f g w).
Proof.
  intros c. unfold open_world. destruct (open_file w c) as [[db|]|err] eqn:Eo; [done| |done].
  destruct (open_world_paths_with_generation_minter_and_kind _ _ _) as [r [raw|]]; [|done]. cbn.
  destruct (verify_open_shape raw); [|by apply still_fields].
  apply open_file_Ok in Eo as [_ Ef]. split; [done|]. intros v.
  unfold rows_of, gen_kept, gen_of. cbn. destruct (decide (v = w)) as [->|Hne].
  - by rewrite lookup_insert_eq, Ef.
  - by rewrite lookup_insert_ne.
Qed.

Lemma still_cached_write_conn env w : keeps still (cached_write_conn env w).
Proof.
  intros c. unfold cached_write_conn. destruct (fault env IoOpen); [done|].
  destruct (write_conns c !! w); [done|]. apply keeps_bind; [typeclasses eauto|apply still_open|].
  intros opened. apply keeps_bind; [typeclasses eauto| |intros []; by apply keeps_ret; typeclasses eauto].
  apply keeps_modify. intros c'. by apply still_fields.
Qed.

Lemma still_cached_existing env w : keeps still (cached_existing_write_conn env w).
Proof. intros c. unfold cached_existing_write_conn. repeat case_match; by apply still_fields. Qed.

#[export] Hint Resolve still_counters still_tombstone still_install still_cached_write_conn
  still_cached_existing : keeps.

Section Ops.
Context `{Crypto} `{Rusqlite} (cfg : Config).

Definition rows_idents (format : option AppendedAuditRow) (body : AppendedBodyAuditRow)
  : list ChangeEventIdentity := map IdentityChain (row_idents format body).

Lemma write_on_conn_delivers env w opened req :
  delivers w (fun res => rows_idents (wr_format_event res) (wr_body_event res))
    (write_on_conn cfg env w opened req).
Proof.
  intros c. unfold write_on_conn. destruct (files c !! w) as [db|] eqn:Edb, (fault env IoTransaction); try done.
  destruct (write_with_audit_checked_retaining_on_conn _ _ _ _ _ _ _ _ _ _ _) as [[[res cache] db']|] eqn:Ew;
    [|done].
  left. eexists. split; [done|]. eapply extends_adds; [done|by eapply write_extends|done|done].
Qed.

Lemma append_on_conn_delivers env w body ct hs :
  delivers w (fun '(res, _) => rows_idents (ap_format_event res) (ap_body_event res))
    (append_on_conn cfg env w body ct hs).
Proof.
  intros c. unfold append_on_conn. destruct (files c !! w) as [db|] eqn:Edb, (fault env IoTransaction); try done.
  destruct (append_with_audit_retaining_on_conn _ _ _ _ _ _ _ _ _ _) as [[[[res h] cache] db']|] eqn:Ew; [|done].
  left. eexists. split; [done|]. eapply extends_adds; [done|by eapply append_extends|done|done].
Qed.

Definition notice_idents (fn : option notice) (n : notice) : list ChangeEventIdentity :=
  map (fun x => target_identity (nt_target x)) (option_list fn ++ [n]).

Lemma notice_rows format body h :
  notice_idents (format_change_event <$> format)
    {| nt_etag := h; nt_target := target_from_appended_body_audit_row body |}
  = rows_idents format body.
Proof. by destruct format. Qed.

Lemma replace_durable_delivers env w req :
  delivers w (fun '(_, n, fn) => notice_idents fn n) (replace_durable cfg env w req).
Proof.
  unfold replace_durable.
  repeat first [apply delivers_bind; [solve [keep]|intros ?] | apply delivers_on_drop; [intros; apply still_counters|]].
  eapply delivers_then; [apply write_on_conn_delivers|]. intros res c. do 2 eexists.
  split; [done|]. split; [apply still_counters|]. apply notice_rows.
Qed.

Lemma append_durable_delivers env w len ct hs n req :
  delivers w (fun '(n, fn) => notice_idents fn n) (append_durable cfg env w len ct hs n req).
Proof.
  unfold append_durable.
  repeat first [apply delivers_bind; [solve [keep]|intros ?] | apply delivers_on_drop; [intros; apply still_counters|]].
  eapply delivers_then; [apply append_on_conn_delivers|]. intros [res h] c. do 2 eexists.
  split; [done|]. split; [apply still_counters|]. apply notice_rows.
Qed.

Lemma replace_memory_delivers w req :
  delivers w (fun '(_, n, fn) => notice_idents fn n) (replace_memory cfg w req).
Proof.
  intros c. unfold replace_memory. destruct (MemoryWorldPath_new w); [|done].
  destruct (write_with_quota _ _ _ _ _ _) as [[o m]|]; [|done]. right. split; [by repeat constructor|].
  by apply still_fields.
Qed.

Lemma append_memory_delivers w req :
  delivers w (fun '(n, fn) => notice_idents fn n) (append_memory cfg w req).
Proof.
  intros c. unfold append_memory. destruct (MemoryWorldPath_new w); [|done].
  destruct (append_with_quota _ _ _ _) as [[[r|] m]|]; [|by apply still_fields|done].
  right. split; [by repeat constructor|by apply still_fields].
Qed.

(** The notices a write sends are the identities that were due. *)
Lemma notify_write_sent verb n fn c :
  files (notify_write cfg verb n fn c) = files c
  /\ exists sent, events_sent (notify_write cfg verb n fn c) = events_sent c ++ sent
       /\ map ce_identity sent = notice_idents fn n.
Proof.
  unfold notify_write, notice_idents. destruct fn as [f|]; cbn; (split; [done|]).
  - eexists [_; _]. by rewrite <- app_assoc.
  - by eexists [_].
Qed.

Lemma settled v w verb fn n c c1 :
  due w (notice_idents fn n) c c1 -> announced v c (notify_write cfg verb n fn c1).
Proof.
  intros Hd. destruct (notify_write_sent verb n fn c1) as (Hf & sent & He & Hi).
  eapply (due_sent v w); [by rewrite Hi|done|done].
Qed.

Lemma replace_write_announced v env permit req : keeps (announced v) (replace_write cfg env permit req).
Proof.
  assert (forall E A (m : op E A), keeps still m -> keeps (announced v) m) as Hst.
  { intros E A m Hm c. apply still_announced, Hm. }
  unfold replace_write, replace_write_blocking.
  repeat (apply keeps_bind; [typeclasses eauto|apply Hst; solve [keep]|intros ?]).
  intros c. unfold mbind, op_bind.
  assert (delivers (wp_world permit) (fun '(_, n, fn) => notice_idents fn n)
    (if is_persistent (wp_world permit) then replace_durable cfg env (wp_world permit) req
     else replace_memory cfg (wp_world permit) req)) as Hd
    by (destruct (is_persistent _); [apply replace_durable_delivers|apply replace_memory_delivers]).
  specialize (Hd c).
  match type of Hd with let (_, _) := ?run in _ => destruct run as [[[[ex n] fn]|e] c1] end;
    [by eapply settled|by apply still_announced].
Qed.

Lemma append_write_announced v env permit req : keeps (announced v) (append_write cfg env permit req).
Proof.
  assert (forall E A (m : op E A), keeps still m -> keeps (announced v) m) as Hst.
  { intros E A m Hm c. apply still_announced, Hm. }
  unfold append_write, append_write_blocking.
  repeat first [apply keeps_bind; [typeclasses eauto|apply Hst; solve [keep]|intros ?]
               | match goal with |- keeps _ (let '(_, _) := ?x in _) => destruct x end].
  intros c. unfold mbind, op_bind.
  match goal with |- context [append_durable cfg env ?w ?len ?ct ?hs ?n req] =>
    assert (delivers w (fun '(n, fn) => notice_idents fn n)
      (if is_persistent w then append_durable cfg env w len ct hs n req else append_memory cfg w req)) as Hd
      by (destruct (is_persistent _); [apply append_durable_delivers|apply append_memory_delivers])
  end.
  specialize (Hd c).
  match type of Hd with let (_, _) := ?run in _ => destruct run as [[[n fn]|e] c1] end;
    [by eapply settled|by apply still_announced].
Qed.
End Ops.

(** ** Delete *)

Notation L := DELETE_LEDGER_WORLD.

(** Files and stream untouched. *)
Definition quiet (c c' : Core) : Prop := files c' = files c /\ events_sent c' = events_sent c.

#[global] Instance quiet_preorder : PreOrder quiet.
Proof. split; [done|]. intros c1 c2 c3 [] []. split; congruence. Qed.

(** What a delete of [w] may do to [v]: announce it, or remove [w]. *)
Definition delete_rel (w v : string) (c c' : Core) : Prop :=
  (v = w /\ files c' !! v = None /\ is_Some (files c !! v))
  \/ announced v c c' /\ (v = w -> files c !! v = None -> files c' !! v = None).

#[global] Instance delete_rel_preorder w v : PreOrder (delete_rel w v).
Proof.
  split; [by right|].
  intros c1 c2 c3 [(Hv & Hn1 & Hs1)|[Ha1 Hn1]] [(Hv2 & Hn2 & Hs2)|[Ha2 Hn2]].
  - left. done.
  - left. split_and!; [done|by apply Hn2|done].
  - left. split_and!; [done|done|]. destruct (files c1 !! v) eqn:E; [by eexists|].
    rewrite Hn1 in Hs2 by done. by destruct Hs2.
  - right. split; [by etrans|auto].
Qed.

Lemma quiet_delete_rel w v c c' : quiet c c' -> delete_rel w v c c'.
Proof.
  intros [Hf He]. right. split; [by apply still_announced, still_fields|]. by rewrite Hf.
Qed.

Lemma announced_delete_rel w v c c' :
  announced v c c' -> (v = w -> files c' !! v = files c !! v) -> delete_rel w v c c'.
Proof. intros Ha Hf. right. split; [done|]. intros Hv Hn. by rewrite (Hf Hv). Qed.

Section Delete.
Context `{Crypto} `{Rusqlite} (cfg : Config).

Lemma leave_file_other g w file c v :
  v <> w -> files (leave_file g w file c) !! v = files c !! v.
Proof.
  intros Hv. destruct file as [raw|]; [|done]. cbn. destruct (verify_open_shape raw); [|done].
  cbn. by rewrite lookup_insert_ne.
Qed.

Lemma connect_ledger_still le c :
  still c (snd (connect_ledger le c))
  /\ forall v, v <> L -> files (snd (connect_ledger le c)) !! v = files c !! v.
Proof.
  unfold connect_ledger. destruct (ledger_conn c); [done|]. destruct (le_open_fault le); [done|].
  pose proof (still_open (le_creation le) (le_generation le) L c) as Ho.
  assert (forall v, v <> L ->
    files (snd (open_world (le_creation le) (le_generation le) L c)) !! v = files c !! v) as Hv.
  { intros v Hv. unfold open_world. destruct (open_file L c) as [[db|]|err]; [done| |done].
    destruct (open_world_paths_with_generation_minter_and_kind _ _ _). by apply leave_file_other. }
  destruct (open_world _ _ L c) as [[k|err] c1]; cbn in Ho, Hv |- *; [|by split].
  split; [|done]. etrans; [done|by apply still_fields].
Qed.

Lemma open_ledger_still le c :
  match open_ledger le c with
  | (Ok db, c') => still c c' /\ files c' !! L = Some db
  | (Err _, c') => still c c'
  end
  /\ forall v, v <> L -> files (snd (open_ledger le c)) !! v = files c !! v.
Proof.
  unfold open_ledger, mbind, op_bind. destruct (connect_ledger_still le c) as [Hs Hv].
  destruct (connect_ledger le c) as [[[]|e] c1]; cbn in Hs, Hv |- *; [|by split].
  unfold gets, lift. destruct (files c1 !! L) eqn:Ef; by split.
Qed.

Definition ledger_idents (ev : AppendedLedgerEvent) : list ChangeEventIdentity :=
  map IdentityChain
    (match le_format_event ev with Some f => [from_appended_audit_row f] | None => [] end
     ++ [le_event_id ev]).

Lemma existing_row_extends now k w target sha sz ct hs key db row db' :
  append_with_conn_existing_row now k w target sha sz ct hs key db = Ok (row, db') ->
  extends w [from_appended_audit_row row] db db'.
Proof.
  unfold append_with_conn_existing_row. intros Ha.
  apply result_bind_Ok in Ha as ([atx pf] & [Hw Hg]%full_gate_atx & Ha%map_err_Ok).
  apply append_tx_extends in Ha as [He _]; [|done]. by rewrite Hw in He.
Qed.

Lemma genesis_row_extends nowf now k w target sha sz ct hs key db f row db' :
  append_with_conn_genesis_row nowf now k w target sha sz ct hs key db = Ok (f, row, db') ->
  extends w ([from_appended_audit_row f] ++ [from_appended_audit_row row]) db db'.
Proof.
  unfold append_with_conn_genesis_row. intros Ha.
  apply result_bind_Ok in Ha as ([atx pf] & [Hw Hg]%full_gate_atx & Ha).
  apply result_bind_Ok in Ha as ([f' db1] & Hf%map_err_Ok & Ha).
  apply append_tx_extends in Hf as [He1 _]; [|done].
  apply result_bind_Ok in Ha as ([row' db2] & Hr%map_err_Ok & Ha). injection Ha as <- <- <-.
  apply append_tx_extends in Hr as [He2 _]; [|destruct He1 as [He1 _]; congruence].
  rewrite Hw in *. by eapply extends_trans.
Qed.

Lemma ledger_append_delivers le job :
  delivers L ledger_idents (ledger_append cfg le job).
Proof.
  intros c. unfold ledger_append, mbind, op_bind. pose proof (open_ledger_still le c) as [Ho _].
  destruct (open_ledger le c) as [[db|e] c1]; [|done]. destruct Ho as [Ho Hdb].
  unfold lift, faulty. destruct (le_count_fault le); [done|]. cbn [map_err].
  unfold faulty_audit. destruct (le_fault le); [done|].
  destruct (ledger_is_empty db).
  - destruct (append_with_conn_genesis_row _ _ _ _ _ _ _ _ _ _ _) as [[[f row] db']|] eqn:Ea; [|done].
    cbn. eapply still_due; [done|]. left.
    exists ([from_appended_audit_row f] ++ [from_appended_audit_row row]). split; [done|].
    eapply extends_adds; [done|by eapply genesis_row_extends|done|done].
  - destruct (append_with_conn_existing_row _ _ _ _ _ _ _ _ _ _) as [[row db']|] eqn:Ea; [|done].
    cbn. eapply still_due; [done|]. left. exists [from_appended_audit_row row]. split; [done|].
    eapply extends_adds; [done|by eapply existing_row_extends|done|done].
Qed.

Lemma ledger_append_files le job c v :
  v <> L -> files (snd (ledger_append cfg le job c)) !! v = files c !! v.
Proof.
  intros Hv. unfold ledger_append, mbind, op_bind. pose proof (open_ledger_still le c) as [_ Hf].
  specialize (Hf v Hv). destruct (open_ledger le c) as [[db|e] c1]; [|done]. cbn [snd] in Hf.
  unfold lift, faulty. destruct (le_count_fault le); [done|]. cbn [map_err].
  match goal with |- context [map_err LedgerAudit ?r] => destruct (map_err LedgerAudit r) as [[[f row] db']|] end;
    [|done]. cbn. by rewrite lookup_insert_ne.
Qed.

Lemma notify_ledger_sent ev c :
  files (notify_ledger_event cfg ev c) = files c
  /\ exists sent, events_sent (notify_ledger_event cfg ev c) = events_sent c ++ sent
       /\ map ce_identity sent = ledger_idents ev.
Proof.
  unfold notify_ledger_event, ledger_idents. destruct (le_format_event ev) as [f|]; cbn; (split; [done|]).
  - eexists [_; _]. by rewrite <- app_assoc.
  - by eexists [_].
Qed.

Lemma append_ledger_announced v le job c :
  let c' := snd (append_ledger_event_and_notify cfg le job c) in
  announced v c c' /\ (v <> L -> files c' !! v = files c !! v).
Proof.
  unfold append_ledger_event_and_notify, mbind, op_bind, reserve_events.
  destruct (reserve_audit_events _); [|by split].
  set (c1 := set_counters _ c). assert (still c c1) as H1 by apply still_counters.
  assert (delivers L ledger_idents (on_drop drop_events (ledger_append cfg le job))) as Hd
    by (apply delivers_on_drop; [intros; apply still_counters|apply ledger_append_delivers]).
  specialize (Hd c1). unfold on_drop in *. pose proof (ledger_append_files le job c1 v) as Hfile.
  destruct (ledger_append cfg le job c1) as [[ev|e] c2]; cbn [snd] in Hfile; cbn zeta.
  2: { split; [|exact Hfile]. apply still_announced. by etrans. }
  unfold modify, mret, op_ret. cbn [snd].
  destruct (notify_ledger_sent ev (set_counters (commit_events (is_some (le_format_event ev))) c2))
    as (Hf & sent & He & Hi).
  split; [|by intros Hv; rewrite Hf; apply Hfile].
  eapply (due_sent v L); [|exact Hf|exact He]. rewrite Hi.
  eapply due_still; [by eapply still_due|apply still_counters].
Qed.

Lemma append_ledger_rel w v le job :
  w <> L -> keeps (delete_rel w v) (append_ledger_event_and_notify cfg le job).
Proof.
  intros Hw c. destruct (append_ledger_announced v le job c) as [Ha Hf].
  apply announced_delete_rel; [done|]. intros ->. by apply Hf.
Qed.

(** A world's file goes, whole or in part. *)
Lemma gone_rel w v c c' :
  files c' = base.delete w (files c) -> events_sent c' = events_sent c -> delete_rel w v c c'.
Proof.
  intros Hf He. destruct (decide (v = w)) as [->|Hne].
  - destruct (files c !! w) as [db|] eqn:Ef.
    + left. rewrite Hf, lookup_delete_eq. split_and!; [done|done|by eexists].
    + apply quiet_delete_rel. split; [|done]. by rewrite Hf, delete_id.
  - right. split; [|done]. split.
    + intros g. unfold gen_of. by rewrite Hf, lookup_delete_ne.
    + exists [], []. unfold rows_of. by rewrite Hf, He, lookup_delete_ne, !app_nil_r.
Qed.

Lemma delete_now_rel w v env : keeps (delete_rel w v) (delete_world_now env w).
Proof.
  intros c. unfold delete_world_now. destruct (MemoryWorldPath_new w) as [m|].
  { destruct (Store.delete (mem c) m). apply quiet_delete_rel. done. }
  destruct (open_file w c) as [[db|]|err]; [|done|];
    (destruct (removed env); [by apply gone_rel|done|by apply gone_rel]).
Qed.

Lemma ping_rel w v verb target etag aux c :
  target_identity target = IdentityEphemeral ->
  delete_rel w v c (notify_with_aux (listen_replay_max cfg) verb target etag aux c).
Proof.
  intros Hi. apply announced_delete_rel; [|done].
  eapply (due_sent v w c c _ [_]); [|done|done]. right. split; [|done]. by constructor.
Qed.

Lemma quiet_tombstone w c : quiet c (clear_tombstone w c).
Proof. unfold clear_tombstone. by destruct (is_memory_world w). Qed.

Lemma quiet_install w c : quiet c (install_tombstone_blocking w c).
Proof. unfold install_tombstone_blocking. by destruct (is_memory_world w). Qed.

Lemma quiet_count_ledger c : quiet c (count_ledger c).
Proof. unfold count_ledger. by destruct (delete_ledger_created c). Qed.

Lemma preconditions_rel w v env p : keeps (delete_rel w v) (delete_check_preconditions cfg env w p).
Proof. intros c. unfold delete_check_preconditions. by destruct (is_empty p). Qed.
#[local] Hint Resolve quiet_delete_rel quiet_tombstone quiet_install quiet_count_ledger
  preconditions_rel append_ledger_rel delete_now_rel ping_rel : keeps.

Lemma removal_rel w v env usage : keeps (delete_rel w v) (removal env w usage).
Proof. unfold removal. keep; by apply quiet_delete_rel. Qed.

Lemma finish_rel w v env commit failed :
  w <> L -> keeps (delete_rel w v) (finish_delete cfg env commit failed).
Proof. intros Hw. unfold finish_delete. keep. Qed.
#[local] Hint Resolve removal_rel finish_rel : keeps.

Lemma delete_announced w v env req : w <> L -> keeps (delete_rel w v) (delete cfg env w req).
Proof.
  intros Hw. unfold delete, delete_blocking, delete_prepare, perform_delete. keep.
Qed.

(** ** Runs *)

(** A step of the engine that does not remove the world [v]. *)
Definition step_keeping (v : string) (c c' : Core) : Prop :=
  core_step cfg c c' /\ (is_Some (files c !! v) -> is_Some (files c' !! v)).

Lemma step_announced v c c' : step_keeping v c c' -> announced v c c'.
Proof.
  intros [Hs Hk]. revert Hk. destruct Hs as [env w tier permit req _ _ _ _|env w tier permit req _ _ _ _|env w tier req _ _ Hauth].
  - intros _. apply replace_write_announced.
  - intros _. apply append_write_announced.
  - destruct (delete_permit_ok _ _ _ Hauth) as [_ HwL]. intros Hk.
    destruct (delete_announced w v env req HwL c) as [(-> & Hn & Hs)|[Ha _]]; [|done].
    apply Hk in Hs. rewrite Hn in Hs. by destruct Hs.
Qed.

Lemma run_announced v c c' : rtc (step_keeping v) c c' -> announced v c c'.
Proof. induction 1 as [c|c1 c2 c3 Hs _ IH]; [done|]. etrans; [by apply step_announced|done]. Qed.

(** C9: What subscribers are told is what the chains record.  Over any run of
    replaces, appends and deletes, with any faults, of an engine in which a
    world is not removed, the chain events sent for this world are exactly the
    rows its audit chain gained, one event for each row, in order, under the
    chain's generation.  The world may be the delete ledger's: a delete sends
    its intent and its outcome as they are recorded, a failed removal's
    included, and no event is sent for a row that was not committed. *)
Theorem announcements_match_chain v c c' :
  rtc (step_keeping v) c c' ->
  exists sent rows,
    events_sent c' = events_sent c ++ sent
    /\ rows_of v c' = rows_of v c ++ rows
    /\ chain_ids v sent = map (chain_id v (default "" (gen_of v c'))) rows
    /\ gen_kept v c c'.
Proof.
  intros Hrun. destruct (run_announced v c c' Hrun) as [Hg (sent & rows & He & Hr & Hi)].
  by exists sent, rows.
Qed.
End Delete.
