(* ===== verification/Subscription.v ===== *)
(** * Live subscriptions

    Models [core/src/engine_subscription.rs], the resume types of
    [core/src/subscription_cursor.rs], and the subscription half of
    [core/src/engine_ops.rs]: opening a subscription (its slot, the broadcast
    receiver, the replay and the fence it leaves) and receiving from it.

    The broadcast channel is tokio's: [Broadcast] is what its receiver answers
    at a position of the stream, [BroadcastLaws] what its documentation promises
    of it.  The items of the stream are those [Core] sends ([events_sent]). *)

From S2P Require Import Prelude.
From S2P Require Import RustStr.
From S2P Require Import Auth.
From S2P Require Import Crypto.
From S2P Require Import Etag.
From S2P Require Import Types.
From S2P Require Import Db.
From S2P Require Import AuditVerify.
From S2P Require Import Timeline.
From S2P Require Import EventId.
From S2P Require Import StorageClass.
From S2P Require Import Core.
From S2P Require Import WorldOps.
From S2P Require Import DeleteOps.
From S2P Require Import EngineOps.

(** ** Public events *)

Inductive AuditEventType :=
| TypePut | TypeAppend | TypeDeleteIntent | TypeDeleteCommit | TypeDeleteCommitFailed | TypeFormat.

Definition AuditEventType_as_str (t : AuditEventType) : string :=
  match t with
  | TypePut => "put"
  | TypeAppend => "append"
  | TypeDeleteIntent => "delete_intent"
  | TypeDeleteCommit => "delete_commit"
  | TypeDeleteCommitFailed => "delete_commit_failed"
  | TypeFormat => "format"
  end.

Definition AuditEventType_from (k : AuditEventKind) : AuditEventType :=
  match k with
  | Put => TypePut
  | Append => TypeAppend
  | DeleteIntent => TypeDeleteIntent
  | DeleteCommit => TypeDeleteCommit
  | DeleteCommitFailed => TypeDeleteCommitFailed
  | Format => TypeFormat
  end.

(** [engine_subscription::ChangeEvent]. *)
Record PublicChangeEvent := {
  pe_id : Z;
  pe_identity : ChangeEventIdentity;
  pe_verb : ChangeVerb;
  pe_path : string;
  pe_etag : string;
  pe_timeline_address : option TimelineAddress;
  pe_delete_ledger_event_id : option SubscriptionEventId;
  pe_delete_subject : option DeleteSubjectProof;
  pe_audit_event_type : option AuditEventType;
  pe_audit_event_target : option string;
  pe_body_sha256 : option string;
  pe_body_size : option Z;
  pe_content_type : option string;
}.

Definition target_audit_payload (t : ChangeTarget) : option AuditEventPayload :=
  match t with TargetChain e => Some (me_audit_payload e) | TargetEphemeral _ => None end.

Definition target_timeline_address (t : ChangeTarget) : option TimelineAddress :=
  match t with TargetChain e => me_timeline_address e | TargetEphemeral _ => None end.

(** [From<event::ChangeEvent>]. *)
Definition public_event (value : ChangeEvent) : PublicChangeEvent :=
  let audit_payload := target_audit_payload (ce_target value) in
  {| pe_id := ce_id value;
     pe_identity := ce_identity value;
     pe_verb := ce_verb value;
     pe_path := ce_path value;
     pe_etag := ce_etag value;
     pe_timeline_address := target_timeline_address (ce_target value);
     pe_delete_ledger_event_id := aux_delete_ledger_event_id (ce_aux value);
     pe_delete_subject := match audit_payload ≫= ap_delete_subject with
                          | Some s => Some s
                          | None => aux_delete_subject (ce_aux value)
                          end;
     pe_audit_event_type := AuditEventType_from ∘ ap_kind <$> audit_payload;
     pe_audit_event_target := ap_target <$> audit_payload;
     pe_body_sha256 := ap_body_sha256 <$> audit_payload;
     pe_body_size := ap_size <$> audit_payload;
     pe_content_type := ap_content_type <$> audit_payload |}.

Definition delete_subject_generation (e : PublicChangeEvent) : option string :=
  ta_gen ∘ ds_address <$> pe_delete_subject e.

(** ** Resume, replay and fences *)

Inductive SubscriptionResume := ResumeNone | ResumeDurable (event_id : SubscriptionEventId).

Inductive ReplayPlan := PlanNone | PlanDurable (event_id : SubscriptionEventId).

Definition replay_plan (r : SubscriptionResume) : ReplayPlan :=
  match r with ResumeNone => PlanNone | ResumeDurable event_id => PlanDurable event_id end.

Inductive ReplayFence :=
| FenceNone
| FenceProcessLocal (floor : Z)
| FenceDurable (floor : SubscriptionEventId).

Inductive SubscriptionResetReason := Incarnation | Truncation | RingMiss | Memory.

Inductive SubscriptionRecvError :=
| Closed
| Lagged (skipped : Z)
| Reset (reason : SubscriptionResetReason).

Inductive ReplayInterruption := InterruptReset (reason : SubscriptionResetReason).

Definition interruption_error (i : ReplayInterruption) : SubscriptionRecvError :=
  match i with InterruptReset reason => Reset reason end.

Definition Replay : Type := option ReplayInterruption * list PublicChangeEvent * ReplayFence.

Definition reset (reason : SubscriptionResetReason) : Replay :=
  (Some (InterruptReset reason), [], FenceNone).

Definition replay_event_kind_to_change_verb (k : AuditEventKind) : ChangeVerb :=
  match k with
  | Put => VerbReplace
  | Append => VerbAppend
  | DeleteIntent | DeleteCommit | DeleteCommitFailed => VerbDelete
  | Format => VerbFormat
  end.

(** A sequence is positive, so the conversion to [u64] never saturates. *)
Definition replay_diagnostic_id (seq : Z) : Z := if (seq <? 0)%Z then u64_max else seq.

(** [EventMetadataKind::from_kind]. *)
Definition is_metadata_kind (k : AuditEventKind) : bool :=
  match k with
  | DeleteIntent | DeleteCommit | DeleteCommitFailed | Format => true
  | Put | Append => false
  end.

Definition is_non_body_replay (e : VerifiedReplayEvent) : bool :=
  match e with ReplayNonBody _ _ _ _ _ _ _ _ => true | ReplayBody _ _ _ _ _ _ _ => false end.

(** One turn of the loop over the verified events: the new fence and event. *)
Definition replayed_event (e : VerifiedReplayEvent)
  : result EngineError (SubscriptionEventId * PublicChangeEvent) :=
  let fence := from_verified_replay_event e in
  _ ← ensure (negb (is_non_body_replay e) || is_metadata_kind (replay_kind e)) EngineStorage;
  Ok (fence,
      public_event {| ce_id := replay_diagnostic_id (sid_seq fence);
                      ce_verb := replay_event_kind_to_change_verb (replay_kind e);
                      ce_target := target_from_verified_replay_event e;
                      ce_etag := hmac_etag (replay_hmac e); ce_aux := aux_default |}).

Fixpoint replay_loop (fence : SubscriptionEventId) (events : list PublicChangeEvent)
    (replay : list VerifiedReplayEvent)
  : result EngineError (SubscriptionEventId * list PublicChangeEvent) :=
  match replay with
  | [] => Ok (fence, events)
  | e :: replay =>
      '(fence, event) ← replayed_event e;
      replay_loop fence (events ++ [event]) replay
  end.

Section Replays.
Context `{Crypto} `{Rusqlite} (cfg : Config).

Definition audit_replay_error_to_engine (err : AuditError) : EngineError :=
  match err with
  | ChainBroken _ => EngineStorage
  | Storage err =>
      match classify_storage_failure err with
      | InsufficientStorage => EngineInsufficientStorage
      | Transient => TransientStorage
      | Other => EngineStorage
      end
  end.

Definition replay_after_durable_chain_event_id (j : Join) (f : option sqlite_error)
    (event_id : SubscriptionEventId) (c : Core) : result EngineError Replay :=
  if closed c then Err ShuttingDown
  else
    replay ← join j (map_err audit_replay_error_to_engine
                       (replay_chain_events_after cfg f event_id (listen_replay_max cfg) c));
    match replay with
    | Some (ReplayEvents replay) =>
        '(fence, events) ← replay_loop event_id [] replay;
        Ok (None, events, FenceDurable fence)
    | Some ReplayGenerationMismatch => Ok (reset Incarnation)
    | Some ReplayMissingMarker => Ok (reset Truncation)
    | Some ReplayLimitExceeded | None => Ok (reset RingMiss)
    end.

Definition is_marker (event_id : SubscriptionEventId) (change : ChangeEvent) : bool :=
  match ce_identity change with
  | IdentityChain id => bool_decide (id = event_id)
  | IdentityEphemeral => false
  end.

(** [log.iter().position(..)] and the events from the marker on. *)
Fixpoint from_marker (event_id : SubscriptionEventId) (log : list ChangeEvent)
  : option (ChangeEvent * list ChangeEvent) :=
  match log with
  | [] => None
  | change :: log => if is_marker event_id change then Some (change, log) else from_marker event_id log
  end.

Definition replay_after_durable_ring_event_id (event_id : SubscriptionEventId) (pattern : string)
    (c : Core) : Replay :=
  match from_marker event_id (event_log c) with
  | None => reset RingMiss
  | Some (marker, rest) =>
      let replay_events := filter (fun change => matches_world pattern (ce_path change)) rest in
      let live_floor := ce_id (default marker (last replay_events)) in
      (None, map public_event replay_events, FenceProcessLocal live_floor)
  end.

Definition replay_after_durable_event_id (j : Join) (f : option sqlite_error)
    (event_id : SubscriptionEventId) (pattern : string) (c : Core) : result EngineError Replay :=
  exact ← map_err (fun _ => InvalidWorldName) (exact_world pattern);
  match exact with
  | Some world =>
      if negb (bool_decide (world = sid_world event_id)) then Ok (reset RingMiss)
      else replay_after_durable_chain_event_id j f event_id c
  | None => Ok (replay_after_durable_ring_event_id event_id pattern c)
  end.

Definition replay_after (j : Join) (f : option sqlite_error) (plan : ReplayPlan) (pattern : string)
    (c : Core) : result EngineError Replay :=
  match plan with
  | PlanNone => Ok (None, [], FenceNone)
  | PlanDurable event_id => replay_after_durable_event_id j f event_id pattern c
  end.
End Replays.

(** ** Live events *)

Inductive LiveChangeAction := Accept | Drop | ActionReset (reason : SubscriptionResetReason).

Definition live_change_action (fence : ReplayFence) (pattern : string) (change : ChangeEvent)
  : LiveChangeAction :=
  if negb (matches_world pattern (ce_path change)) then Drop
  else
    match fence with
    | FenceNone => Accept
    | FenceProcessLocal floor =>
        match ce_identity change with
        | IdentityEphemeral => Accept
        | IdentityChain _ => if (floor <? ce_id change)%Z then Accept else Drop
        end
    | FenceDurable floor =>
        match ce_identity change with
        | IdentityChain id =>
            if negb (bool_decide (sid_world id = sid_world floor)) then Accept
            else if negb (bool_decide (sid_generation id = sid_generation floor))
            then ActionReset Incarnation
            else if same_chain_at_or_before id floor then Drop else Accept
        | IdentityEphemeral => Accept
        end
    end.

(** The broadcast receiver: at position [next] of the stream [sent]. *)
Inductive RxItem := RxEvent (change : ChangeEvent) | RxLagged (skipped : Z) | RxEmpty | RxClosed.

Class Broadcast := { rx_recv : list ChangeEvent -> nat -> RxItem }.

(** The receiver gets each item once, in order, unless more than the capacity
    are waiting; then it learns how many it lost and goes on after them.  While
    the engine lives its sender does, so the channel is not closed. *)
Class BroadcastLaws `{Broadcast} (capacity : nat) := {
  rx_in_order : forall sent next change,
    sent !! next = Some change -> (length sent <= next + capacity)%nat ->
    rx_recv sent next = RxEvent change;
  rx_empty : forall sent next, (length sent <= next)%nat -> rx_recv sent next = RxEmpty;
  rx_lagged : forall sent next,
    (next + capacity < length sent)%nat ->
    exists skipped, rx_recv sent next = RxLagged (Z.of_nat (S skipped))
      /\ (next + S skipped < length sent)%nat;
}.

Record LiveSubscription := { lv_next : nat; lv_pattern : string; lv_fence : ReplayFence }.

Inductive SubscriptionState :=
| Replaying (remaining : list (result SubscriptionRecvError PublicChangeEvent))
    (live : LiveSubscription)
| Live (live : LiveSubscription)
| StateClosed.

(** The subscription holds its slot until it is dropped; [pending_shutdown] is
    the shutdown receiver kept while replaying. *)
Record EngineSubscription := { sub_pending_shutdown : bool; sub_state : SubscriptionState }.

Definition EngineSubscription_new
    (replay : list (result SubscriptionRecvError PublicChangeEvent)) (live : LiveSubscription)
  : EngineSubscription :=
  match replay with
  | [] => {| sub_pending_shutdown := false; sub_state := Live live |}
  | _ => {| sub_pending_shutdown := true; sub_state := Replaying replay live |}
  end.

(** What polling [recv] gives: an item, a panic, or a suspended call that has
    the receiver in its hands. *)
Inductive Poll :=
| Ready (item : result SubscriptionRecvError PublicChangeEvent)
| Panic (message : string)
| Pending (live : LiveSubscription).

Definition set_state (s : SubscriptionState) (sub : EngineSubscription) : EngineSubscription :=
  {| sub_pending_shutdown := sub_pending_shutdown sub; sub_state := s |}.

Section Recv.
Context `{Broadcast}.

(** The loop on the live stream.  Each turn consumes an item of the stream or
    returns, so the stream's length bounds the turns. *)
Fixpoint recv_live (fuel : nat) (shutdown : bool) (sent : list ChangeEvent)
    (live : LiveSubscription) (sub : EngineSubscription) : option (Poll * EngineSubscription) :=
  match fuel with
  | O => None
  | S fuel =>
      if shutdown then Some (Ready (Err Closed), set_state StateClosed sub)
      else
        let advanced by_ := {| lv_next := lv_next live + by_; lv_pattern := lv_pattern live;
                               lv_fence := lv_fence live |} in
        match rx_recv sent (lv_next live) with
        | RxEvent change =>
            let live := advanced 1%nat in
            match live_change_action (lv_fence live) (lv_pattern live) change with
            | Accept => Some (Ready (Ok (public_event change)), set_state (Live live) sub)
            | Drop => recv_live fuel shutdown sent live sub
            | ActionReset reason => Some (Ready (Err (Reset reason)), set_state (Live live) sub)
            end
        | RxLagged skipped =>
            Some (Ready (Err (Lagged skipped)), set_state (Live (advanced (Z.to_nat skipped))) sub)
        | RxClosed => Some (Ready (Err Closed), set_state StateClosed sub)
        | RxEmpty => Some (Pending live, set_state StateClosed sub)
        end
  end.

(** One poll of [recv] at a moment when the stream is [sent].  The state is
    replaced by [Closed] before the call can suspend. *)
Definition recv (shutdown : bool) (sent : list ChangeEvent) (sub : EngineSubscription)
  : option (Poll * EngineSubscription) :=
  let fuel := S (length sent) in
  match sub_state sub with
  | StateClosed => Some (Ready (Err Closed), sub)
  | Replaying (item :: remaining) live =>
      Some (Ready item, set_state (Replaying remaining live) sub)
  | Replaying [] live =>
      if sub_pending_shutdown sub
      then recv_live fuel shutdown sent live {| sub_pending_shutdown := false; sub_state := StateClosed |}
      else Some (Panic "replay state retains pending shutdown receiver", set_state StateClosed sub)
  | Live live => recv_live fuel shutdown sent live sub
  end.

(** A suspended call wakes up at a later moment of the stream. *)
Definition resume (shutdown : bool) (sent : list ChangeEvent) (live : LiveSubscription)
    (sub : EngineSubscription) : option (Poll * EngineSubscription) :=
  recv_live (S (length sent)) shutdown sent live sub.

(** A suspended call is dropped: the receiver goes with it. *)
Definition cancel (live : LiveSubscription) (sub : EngineSubscription) : EngineSubscription := sub.
End Recv.

(** ** Opening a subscription *)

Section Open.
Context `{Crypto} `{Rusqlite} (cfg : Config) (tokens : Tokens).

Definition take_slot (e : Engine) : result EngineError Engine :=
  if (0 <? listen_slots e)%Z
  then Ok {| en_core := en_core e; shutdown := shutdown e; listen_slots := listen_slots e - 1 |}
  else Err SubscriptionLimit.

(** Dropping a subscription or a permit gives the slot back. *)
Definition release_slot (e : Engine) : Engine :=
  {| en_core := en_core e; shutdown := shutdown e; listen_slots := listen_slots e + 1 |}.

Definition authorize_subscribe (tier : Tier) (e : Engine) : result EngineError Engine :=
  if negb (can_read tokens tier) then Err (EngineAuth GateRead)
  else
    _ ← ensure_not_shutdown e;
    take_slot e.

(** [open_subscription] in two moments: the receiver starts at the end of the
    stream, then the replay is prepared, when the core may have moved on. *)
Definition rx_start (c : Core) : nat := length (events_sent c).

Definition open_subscription (j : Join) (f : option sqlite_error) (start : nat) (pattern : string)
    (resume : SubscriptionResume) (c : Core) : result EngineError EngineSubscription :=
  _ ← ensure (negb (closed c)) ShuttingDown;
  '(interruption, replay, fence) ← replay_after cfg j f (replay_plan resume) pattern c;
  let initial := match interruption with
                 | Some i => [Err (interruption_error i)]
                 | None => []
                 end ++ map Ok replay in
  Ok (EngineSubscription_new initial
        {| lv_next := start; lv_pattern := pattern; lv_fence := fence |}).

(** [subscribe] with nothing in between. *)
Definition subscribe (j : Join) (f : option sqlite_error) (raw_pattern : string) (tier : Tier)
    (resume : SubscriptionResume) (e : Engine) : result EngineError EngineSubscription * Engine :=
  match authorize_subscribe tier e with
  | Err err => (Err err, e)
  | Ok e' =>
      match open_subscription j f (rx_start (en_core e')) (pattern raw_pattern) resume (en_core e') with
      | Ok sub => (Ok sub, e')
      | Err err => (Err err, release_slot e')
      end
  end.
End Open.
