(* ===== verification/SubscriptionTheorems.v ===== *)
(** * Subscriptions: what a subscriber receives

    [recv] always returns; a resumed subscription to one world receives every
    row of the chain after its cursor exactly once, although rows are committed
    while the subscription is being opened. *)

From S2P Require Import Prelude.
From S2P Require Import Path.
From S2P Require Import Auth.
From S2P Require Import Crypto.
From S2P Require Import Etag.
From S2P Require Import Types.
From S2P Require Import Db.
From S2P Require Import AuditVerify.
From S2P Require Import AuditGates.
From S2P Require Import AuditAppend.
From S2P Require Import WorldWrite.
From S2P Require Import Timeline.
From S2P Require Import EventId.
From S2P Require Import Usage.
From S2P Require Import ChainSpec.
From S2P Require Import ChainValid.
From S2P Require Import GateProofs.
From S2P Require Import Demo.
From S2P Require Import TimelineProofs.
From S2P Require Import TimelineTheorems.
From S2P Require Import StorageClass.
From S2P Require Import Core.
From S2P Require Import WorldOps.
From S2P Require Import DeleteOps.
From S2P Require Import CoreInv.
From S2P Require Import CoreTheorems.
From S2P Require Import EngineDemo.
From S2P Require Import EngineOps.
From S2P Require Import Announce.
From S2P Require Import Subscription.

Notation item := (result SubscriptionRecvError PublicChangeEvent).

(** ** Receiving *)

Section Receiving.
Context `{BroadcastLaws}.

(** What the fence makes of one live event. *)
Definition live_item (live : LiveSubscription) (change : ChangeEvent) : option item :=
  match live_change_action (lv_fence live) (lv_pattern live) change with
  | Accept => Some (Ok (public_event change))
  | Drop => None
  | ActionReset reason => Some (Err (Reset reason))
  end.

Definition advance (live : LiveSubscription) : LiveSubscription :=
  {| lv_next := lv_next live + 1; lv_pattern := lv_pattern live; lv_fence := lv_fence live |}.

(** Receiving again and again from a stream that has stopped. *)
Fixpoint collect (fuel : nat) (sent : list ChangeEvent) (sub : EngineSubscription) : list item :=
  match fuel with
  | O => []
  | S fuel =>
      match recv false sent sub with
      | Some (Ready item, sub) => item :: collect fuel sent sub
      | _ => []
      end
  end.

Definition queued (sub : EngineSubscription) : nat :=
  match sub_state sub with Replaying remaining _ => length remaining | _ => 0 end.

Definition received (sent : list ChangeEvent) (sub : EngineSubscription) : list item :=
  collect (S (queued sub + length sent)) sent sub.

(** The first item of the rest of the stream. *)
Fixpoint first_item (rest : list ChangeEvent) (live : LiveSubscription) (sub : EngineSubscription)
  : Poll * EngineSubscription :=
  match rest with
  | [] => (Pending live, set_state StateClosed sub)
  | change :: rest =>
      match live_item live change with
      | Some item => (Ready item, set_state (Live (advance live)) sub)
      | None => first_item rest (advance live) sub
      end
  end.

Lemma first_item_state rest live s sub : first_item rest live (set_state s sub) = first_item rest live sub.
Proof.
  revert live. induction rest as [|change rest IH]; intros live; cbn; [done|].
  by destruct (live_item live change).
Qed.

Lemma recv_live_first rest fuel sent live sub :
  (length sent <= lv_next live + capacity)%nat -> drop (lv_next live) sent = rest ->
  (length rest < fuel)%nat -> recv_live fuel false sent live sub = Some (first_item rest live sub).
Proof.
  revert fuel live. induction rest as [|change rest IH]; intros [|fuel] live Hcap Hrest Hfuel;
    cbn [length] in Hfuel; try lia; cbn [recv_live first_item].
  - rewrite rx_empty; [done|]. apply (f_equal length) in Hrest. rewrite length_drop in Hrest. cbn in Hrest. lia.
  - assert (sent !! lv_next live = Some change) as Hat.
    { rewrite <- (Nat.add_0_r (lv_next live)), <- lookup_drop, Hrest. done. }
    rewrite (rx_in_order sent (lv_next live) change Hat Hcap).
    unfold live_item. cbn [lv_fence lv_pattern].
    destruct (live_change_action (lv_fence live) (lv_pattern live) change); [done| |done].
    apply (IH fuel (advance live)); [cbn; lia| |lia].
    cbn. rewrite <- drop_drop, Hrest. done.
Qed.

Lemma collect_live sent live sub fuel :
  (length sent <= lv_next live + capacity)%nat ->
  (length (drop (lv_next live) sent) < fuel)%nat ->
  collect fuel sent (set_state (Live live) sub) = omap (live_item live) (drop (lv_next live) sent).
Proof.
  remember (drop (lv_next live) sent) as rest eqn:Hrest. revert fuel live Hrest.
  induction rest as [|change rest IH]; intros fuel live Hrest Hcap Hfuel.
  - destruct fuel; [done|]. cbn [collect recv set_state sub_state].
    rewrite (recv_live_first []) by (first [done|cbn; lia]). done.
  - assert (rest = drop (lv_next (advance live)) sent) as Hnext
      by (cbn; rewrite <- drop_drop, <- Hrest; done).
    assert (length (change :: rest) < S (length sent))%nat as Hlen
      by (rewrite Hrest, length_drop; lia).
    assert (forall fuel', (length rest < fuel')%nat ->
      collect fuel' sent (set_state (Live (advance live)) sub) = omap (live_item live) rest) as IH'
      by (intros fuel' Hf; rewrite (IH fuel' (advance live) Hnext); [done|cbn; lia|done]).
    destruct fuel as [|fuel]; [cbn in Hfuel; lia|]. cbn [collect recv set_state sub_state].
    rewrite (recv_live_first (change :: rest)) by done. cbn [first_item omap list_omap].
    destruct (live_item live change) as [it|] eqn:Ei.
    + f_equal. apply (IH' fuel). cbn in Hfuel. lia.
    + rewrite <- (IH' (S fuel)) by (cbn in Hfuel; lia). cbn [collect recv set_state sub_state].
      rewrite (recv_live_first rest) by (first [done|cbn; cbn in Hlen; lia]).
      by rewrite !first_item_state.
Qed.

Lemma collect_replay items sent live sub fuel :
  sub_pending_shutdown sub = true ->
  (length sent <= lv_next live + capacity)%nat -> (length items + length sent < fuel)%nat ->
  collect fuel sent (set_state (Replaying items live) sub)
  = items ++ omap (live_item live) (drop (lv_next live) sent).
Proof.
  intros Hp Hcap. revert fuel. induction items as [|it items IH]; intros [|fuel] Hfuel;
    cbn [length] in Hfuel; try lia.
  - cbn [app]. rewrite <- (collect_live sent live {| sub_pending_shutdown := false; sub_state := StateClosed |} (S fuel));
      [|done|rewrite length_drop; lia].
    cbn [collect recv set_state sub_state sub_pending_shutdown]. rewrite Hp.
    rewrite !(recv_live_first (drop (lv_next live) sent)) by (first [done|rewrite length_drop; lia]).
    by rewrite first_item_state.
  - cbn [collect recv set_state sub_state app]. f_equal. apply (IH fuel). lia.
Qed.

(** All items of a fresh subscription whose receiver has not lagged. *)
Lemma received_new items sent live :
  (length sent <= lv_next live + capacity)%nat ->
  received sent (EngineSubscription_new items live)
  = items ++ omap (live_item live) (drop (lv_next live) sent).
Proof.
  intros Hcap. unfold received, queued, EngineSubscription_new. destruct items as [|it items].
  - cbn [sub_state app]. apply (collect_live sent live {| sub_pending_shutdown := false; sub_state := StateClosed |});
      [done|rewrite length_drop; lia].
  - cbn [sub_state].
    apply (collect_replay (it :: items) sent live {| sub_pending_shutdown := true; sub_state := StateClosed |});
      [done|done|lia].
Qed.

(** ** [recv] returns *)

Lemma recv_live_returns fuel shutdown sent live sub :
  (length sent - lv_next live < fuel)%nat ->
  exists p sub', recv_live fuel shutdown sent live sub = Some (p, sub')
    /\ match p with
       | Ready (Err Closed) => sub_state sub' = StateClosed
       | Ready _ => exists live', sub_state sub' = Live live' /\ lv_pattern live' = lv_pattern live
                      /\ lv_fence live' = lv_fence live /\ (lv_next live < lv_next live' <= length sent)%nat
       | Pending live' => sub_state sub' = StateClosed /\ (length sent <= lv_next live')%nat
       | Panic _ => False
       end.
Proof.
  revert live. induction fuel as [|fuel IH]; intros live Hfuel; [lia|]. cbn [recv_live].
  destruct shutdown; [by do 2 eexists|].
  destruct (decide (length sent <= lv_next live)%nat) as [Hle|Hgt].
  { rewrite rx_empty by done. by do 2 eexists. }
  destruct (decide (length sent <= lv_next live + capacity)%nat) as [Hcap|Hlag].
  - destruct (lookup_lt_is_Some_2 sent (lv_next live)) as [change Hat]; [lia|].
    rewrite (rx_in_order _ _ _ Hat Hcap). cbn [lv_fence lv_pattern].
    destruct (live_change_action _ _ change).
    + do 2 eexists. split; [done|]. cbn. eexists. split_and!; try done; cbn; lia.
    + destruct (IH (advance live)) as (p & sub' & Hr & Hp); [cbn; lia|].
      exists p, sub'. split; [exact Hr|]. destruct p as [[e|[| |]]| |]; cbn in *; try done;
        destruct Hp as (live' & ? & ? & ? & ?); exists live'; split_and!; try done; lia.
    + do 2 eexists. split; [done|]. cbn. eexists. split_and!; try done; cbn; lia.
  - destruct (rx_lagged sent (lv_next live)) as (k & -> & Hk); [lia|].
    do 2 eexists. split; [done|]. cbn. eexists. split_and!; try done; cbn; lia.
Qed.

(** A subscription as [recv] leaves it: while replaying it still has the
    shutdown receiver it needs to go live. *)
Definition subscription_ok (sub : EngineSubscription) : Prop :=
  match sub_state sub with Replaying _ _ => sub_pending_shutdown sub = true | _ => True end.

Lemma recv_returns_run shutdown sent sub :
  subscription_ok sub ->
  exists p sub', recv shutdown sent sub = Some (p, sub') /\ subscription_ok sub'
    /\ (forall message, p <> Panic message)
    /\ (sub_state sub = StateClosed -> p = Ready (Err Closed) /\ sub' = sub).
Proof.
  unfold subscription_ok, recv. intros Hok.
  assert (forall live sub, exists p sub', recv_live (S (length sent)) shutdown sent live sub = Some (p, sub')
    /\ match sub_state sub' with Replaying _ _ => sub_pending_shutdown sub' = true | _ => True end
    /\ (forall message, p <> Panic message)) as Hlive.
  { intros live s. destruct (recv_live_returns (S (length sent)) shutdown sent live s) as (p & s' & Hr & Hp); [lia|].
    exists p, s'. split; [done|]. destruct p as [[e|[| |]]| |]; try done;
      (split; [|done]); try (by rewrite Hp); try (by destruct Hp as [-> _]);
      by destruct Hp as (live' & -> & _). }
  destruct (sub_state sub) as [[|it items] live|live|] eqn:Es.
  - rewrite Hok. destruct (Hlive live {| sub_pending_shutdown := false; sub_state := StateClosed |})
      as (p & s' & ? & ? & ?). exists p, s'. naive_solver.
  - do 2 eexists. split; [done|]. cbn. naive_solver.
  - destruct (Hlive live sub) as (p & s' & ? & ? & ?). exists p, s'. naive_solver.
  - do 2 eexists. split; [done|]. rewrite Es. naive_solver.
Qed.

(** C23: Receiving terminates.  At any moment of the stream, however many events
    are waiting and whichever of them the fence drops, a poll of [recv] on a
    subscription that [subscribe] opened returns: an item, an error, or the
    news that nothing is waiting.  It never hits the panic on a missing
    shutdown receiver, leaves a subscription on which this holds again, and
    once closed stays closed. *)
Theorem recv_returns shutdown sent items live sub :
  rtc (fun s s' => exists shutdown sent p, recv shutdown sent s = Some (p, s'))
    (EngineSubscription_new items live) sub ->
  exists p sub', recv shutdown sent sub = Some (p, sub')
    /\ (forall message, p <> Panic message)
    /\ (sub_state sub = StateClosed -> p = Ready (Err Closed) /\ sub' = sub).
Proof.
  intros Hrun.
  assert (subscription_ok (EngineSubscription_new items live)) as Hnew by (by destruct items).
  assert (subscription_ok sub) as Hok.
  { revert Hnew. induction Hrun as [s|s1 s2 s3 (sd & se & p & Hr) _ IH]; [done|]. intros Hnew. apply IH.
    destruct (recv_returns_run sd se s1 Hnew) as (p' & s' & Hr' & Hok' & _).
    rewrite Hr in Hr'. by injection Hr' as <- <-. }
  destruct (recv_returns_run shutdown sent sub Hok) as (p & sub' & Hr & _ & Hp & Hc).
  by exists p, sub'.
Qed.
End Receiving.

(** ** The replay *)

Definition item_id (i : item) : option SubscriptionEventId :=
  match i with
  | Ok e => match pe_identity e with IdentityChain id => Some id | IdentityEphemeral => None end
  | Err _ => None
  end.

(** The durable ids among what a subscriber received. *)
Definition delivered (items : list item) : list SubscriptionEventId := omap item_id items.

Definition is_ok_item (i : item) : Prop := exists e, i = Ok e.

Lemma replayed_event_ok w g row ev :
  replays w g row ev ->
  exists e, replayed_event ev = Ok (chain_id w g row, e) /\ pe_identity e = IdentityChain (chain_id w g row).
Proof.
  intros Hr. unfold replayed_event. destruct ev as [world gen seq k a p h|world gen seq k t p ds h]; cbn in Hr.
  - destruct Hr as (_ & -> & -> & -> & _ & _ & _ & ->). by eexists.
  - destruct Hr as (Hb & -> & -> & -> & Hk & _ & _ & ->).
    assert (is_metadata_kind k = true) as Hm by (unfold is_body in Hb; rewrite <- Hk in Hb; by destruct k).
    cbn [is_non_body_replay replay_kind]. rewrite Hm. by eexists.
Qed.

Lemma replay_loop_ok w g rows es fence acc :
  Forall2 (replays w g) rows es ->
  exists events, replay_loop fence acc es
    = Ok (default fence (chain_id w g <$> last rows), acc ++ events)
  /\ map pe_identity events = map IdentityChain (map (chain_id w g) rows).
Proof.
  intros Hf. revert fence acc. induction Hf as [|row ev rows es Hr Hf IH]; intros fence acc.
  { exists []. by rewrite app_nil_r. }
  destruct (replayed_event_ok w g row ev Hr) as (e & He & Hi). cbn [replay_loop]. rewrite He.
  cbn [mbind result_bind]. destruct (IH (chain_id w g row) (acc ++ [e])) as (events & -> & Hev).
  exists (e :: events). rewrite <- app_assoc. split; [|cbn; by rewrite Hi, Hev].
  by destruct rows as [|r2 rows]; [|cbn [last]; destruct (last (r2 :: rows)) eqn:El; [|by apply last_None in El]].
Qed.

Lemma delivered_replay events ids :
  map pe_identity events = map IdentityChain ids ->
  delivered (map Ok events) = ids /\ Forall is_ok_item (map Ok events).
Proof.
  revert ids. induction events as [|e events IH]; intros [|id ids]; try done. cbn. intros [= He Hs].
  destruct (IH ids Hs) as [Hd Hf]. rewrite He. split; [by f_equal|]. constructor; [by eexists|done].
Qed.

(** ** The live stream behind a durable fence *)

(** What a durable fence for [w] makes of an event. *)
Lemma live_item_durable live w floor e :
  exact_world (lv_pattern live) = Ok (Some w) -> lv_fence live = FenceDurable floor ->
  sid_world floor = w ->
  (forall id, id_in w (ce_identity e) = Some id -> sid_generation id = sid_generation floor) ->
  live_item live e
  = if bool_decide (ce_path e = w) then
      match ce_identity e with
      | IdentityChain id => if (sid_seq id <=? sid_seq floor)%Z then None else Some (Ok (public_event e))
      | IdentityEphemeral => Some (Ok (public_event e))
      end
    else None.
Proof.
  intros Hex Hfl <- Hg. destruct (exact_world_matches _ _ Hex) as [_ Hm]. specialize (Hm (ce_path e)).
  unfold live_item, live_change_action. rewrite Hfl. case_bool_decide as Ep.
  2: { destruct (matches_world _ _); [|done]. by destruct Ep; apply Hm. }
  rewrite (proj2 Hm Ep). cbn [negb].
  unfold ce_identity, ce_path in *. destruct (ce_target e) as [m|world]; [|done]. cbn in *.
  rewrite Ep, bool_decide_true in Hg |- * by done. specialize (Hg _ eq_refl). cbn [negb].
  rewrite Hg, bool_decide_true by done. cbn [negb].
  unfold same_chain_at_or_before. rewrite Ep, Hg, !bool_decide_true by done. cbn [andb].
  by destruct (_ <=? _)%Z.
Qed.

Lemma id_in_path w e id : id_in w (ce_identity e) = Some id -> ce_identity e = IdentityChain id /\ ce_path e = w.
Proof.
  unfold id_in, ce_identity, ce_path. destruct (ce_target e) as [m|world]; [|done]. cbn.
  case_bool_decide; [|done]. by intros [= <-].
Qed.

Lemma id_in_None w e : id_in w (ce_identity e) = None -> ce_identity e = IdentityEphemeral \/ ce_path e <> w.
Proof.
  unfold id_in, ce_identity, ce_path. destruct (ce_target e) as [m|world]; [|by left]. cbn.
  case_bool_decide; [done|by right].
Qed.

Lemma delivered_live live w floor sent :
  exact_world (lv_pattern live) = Ok (Some w) -> lv_fence live = FenceDurable floor ->
  sid_world floor = w -> Forall (fun id => sid_generation id = sid_generation floor) (chain_ids w sent) ->
  delivered (omap (live_item live) sent) = filter (fun id => (sid_seq floor < sid_seq id)%Z) (chain_ids w sent)
  /\ Forall is_ok_item (omap (live_item live) sent).
Proof.
  intros Hex Hfl Hw. induction sent as [|e sent IH]; [done|]. unfold chain_ids in *. cbn [omap list_omap].
  destruct (id_in w (ce_identity e)) as [id|] eqn:Ei; intros Hg.
  - apply Forall_cons in Hg as [Hgen Hg]. destruct (IH Hg) as [Hd Hok].
    rewrite (live_item_durable live w floor e) by (first [done|by rewrite Ei; intros ? [= <-]]).
    apply id_in_path in Ei as [Hid Hp]. rewrite Hid, bool_decide_true by done.
    destruct (Z.leb_spec (sid_seq id) (sid_seq floor)); [by rewrite filter_cons_False by lia|].
    rewrite filter_cons_True by lia. split; [|constructor; [by eexists|done]].
    cbn. rewrite Hid. by f_equal.
  - destruct (IH Hg) as [Hd Hok].
    rewrite (live_item_durable live w floor e) by (first [done|by rewrite Ei]).
    apply id_in_None in Ei. case_bool_decide; [|done].
    destruct Ei as [Hid|]; [|done]. rewrite Hid. split; [|constructor; [by eexists|done]].
    cbn. by rewrite Hid.
Qed.

(** ** The splice *)

Lemma sorted_last_max (l : list EventRow) x y :
  StronglySorted Z.lt (ev_id <$> l) -> x ∈ l -> last l = Some y -> (ev_id x <= ev_id y)%Z.
Proof.
  intros Hs Hx Hy. apply last_Some in Hy as [l' ->]. rewrite fmap_app in Hs.
  apply elem_of_app in Hx as [Hx|Hx%list_elem_of_singleton]; [|by rewrite Hx].
  apply Z.lt_le_incl. eapply StronglySorted_app_1_elem_of; [done| |].
  - by apply list_elem_of_fmap_2.
  - apply list_elem_of_fmap_2. by apply list_elem_of_singleton.
Qed.

Lemma sorted_filter (P : EventRow -> Prop) `{!forall x, Decision (P x)} l :
  StronglySorted Z.lt (ev_id <$> l) -> StronglySorted Z.lt (ev_id <$> filter P l).
Proof.
  induction l as [|e l IH]; [done|]. rewrite filter_cons. intros Hs.
  apply StronglySorted_inv in Hs as [Hs Hall]. destruct (decide (P e)); [|auto]. cbn. constructor; [auto|].
  apply Forall_fmap, Forall_forall. intros x [_ Hx]%list_elem_of_filter. cbn.
  rewrite Forall_forall in Hall. apply Hall. by apply list_elem_of_fmap_2.
Qed.

(** Replayed rows and the live rows above the fence are the rows after the
    cursor. *)
Lemma splice_rows (rows0 n1 n2 : list EventRow) after :
  let rows1 := rows0 ++ n1 in
  let newer := filter (fun r => (after < ev_id r)%Z) in
  let floor := default after (ev_id <$> last (newer rows1)) in
  StronglySorted Z.lt (ev_id <$> (rows1 ++ n2)) -> (exists m, m ∈ rows1 /\ ev_id m = after) ->
  newer rows1 ++ filter (fun r => (floor < ev_id r)%Z) (n1 ++ n2) = newer (rows1 ++ n2).
Proof.
  cbv zeta. set (rows1 := rows0 ++ n1). intros Hs (m & Hm & Hid).
  set (newer := filter (fun r => (after < ev_id r)%Z)). set (floor := default after (ev_id <$> last (newer rows1))).
  assert (StronglySorted Z.lt (ev_id <$> rows1)) as Hs1
    by (rewrite fmap_app in Hs; by apply StronglySorted_app_1_l in Hs).
  assert ((forall r, r ∈ rows1 -> (ev_id r <= floor)%Z) /\ exists r, r ∈ rows1 /\ ev_id r = floor) as [Hmax (f & Hf & Hfid)].
  { subst floor. destruct (last (newer rows1)) as [y|] eqn:El; cbn.
    - pose proof El as Hy%last_Some_elem_of. apply list_elem_of_filter in Hy as [Hya Hy].
      split; [|by exists y]. intros r Hr. destruct (decide (after < ev_id r)%Z); [|lia].
      eapply (sorted_last_max (newer rows1)); [by apply sorted_filter| |done]. by apply list_elem_of_filter.
    - apply last_None in El. split; [|by exists m]. intros r Hr.
      destruct (decide (after < ev_id r)%Z) as [Ha|]; [|lia].
      assert (r ∈ newer rows1) as Hin by (by apply list_elem_of_filter). rewrite El in Hin. set_solver. }
  assert (forall r, r ∈ n2 -> (floor < ev_id r)%Z) as Hn2.
  { intros r Hr. rewrite <- Hfid. rewrite fmap_app in Hs.
    eapply StronglySorted_app_1_elem_of; [done|by apply list_elem_of_fmap_2|by apply list_elem_of_fmap_2]. }
  pose proof (Hmax m Hm). subst newer. cbv beta. rewrite !filter_app. f_equal.
  rewrite (filter_none _ n1), app_nil_l.
  - rewrite (filter_all _ n2) by (by apply Forall_forall). symmetry. apply filter_all, Forall_forall.
    intros r Hr. specialize (Hn2 r Hr). lia.
  - apply Forall_forall. intros r Hr. assert (r ∈ rows1) as Hin by set_solver. specialize (Hmax r Hin). lia.
Qed.

Lemma filter_chain_ids w g floor rows :
  filter (fun id => (floor < sid_seq id)%Z) (map (chain_id w g) rows)
  = map (chain_id w g) (filter (fun r => (floor < ev_id r)%Z) rows).
Proof.
  induction rows as [|r rows IH]; [done|]. cbn [map]. rewrite !filter_cons. cbn [sid_seq chain_id].
  destruct (decide (floor < ev_id r)%Z); cbn; by rewrite IH.
Qed.

Section Resume.
Context `{CryptoLaws} `{Rusqlite} (cfg : Config).
Hypothesis Hcfg : config_ok cfg.

(** Opening a subscription behind a cursor the chain still has. *)
Lemma open_durable c w id pattern start db :
  core_inv cfg c -> closed c = false -> exact_world pattern = Ok (Some w) -> sid_world id = w ->
  files c !! w = Some db -> db_generation db = sid_generation id ->
  (exists m, m ∈ db_events db /\ ev_id m = sid_seq id) -> rows_shaped db ->
  (0 <= listen_replay_max cfg <= usize_max)%Z ->
  let rest := filter (fun r => (sid_seq id < ev_id r)%Z) (db_events db) in
  (Z.of_nat (length rest) <= listen_replay_max cfg)%Z ->
  exists events,
    open_subscription cfg None None start pattern (ResumeDurable id) c
    = Ok (EngineSubscription_new (map Ok events)
            {| lv_next := start; lv_pattern := pattern;
               lv_fence := FenceDurable (default id (chain_id w (sid_generation id) <$> last rest)) |})
    /\ map pe_identity events = map IdentityChain (map (chain_id w (sid_generation id)) rest).
Proof.
  intros Hi Hopen Hex Hw Hdb Hg (m & Hm & Hmid) Hsh Hmax rest Hlim.
  destruct (ca_files _ _ _ _ Hi w db Hdb) as ([Hwf Hv] & Hvw & _).
  destruct Hv as [Hv|(g & _ & ->)]; [|cbn in Hm; set_solver].
  destruct (replay_spec w (hmac_key cfg) db (sid_generation id) (sid_seq id) (listen_replay_max cfg)
              Hwf Hv Hsh Hvw Hmax) as (r & Hr & Hcase).
  rewrite bool_decide_true in Hcase by done. cbn [negb] in Hcase.
  rewrite bool_decide_true in Hcase.
  2: { rewrite <- Hmid. by rewrite (event_by_id_elem db m Hwf Hm). }
  cbn [negb] in Hcase. fold rest in Hcase.
  destruct (Z.ltb_spec (listen_replay_max cfg) (Z.of_nat (length rest))); [lia|].
  destruct Hcase as (es & -> & Hes).
  destruct (replay_loop_ok w (sid_generation id) rest es id [] Hes) as (events & Hloop & Hids).
  exists events. split; [|done].
  unfold open_subscription, replay_after, replay_plan, replay_after_durable_event_id,
    replay_after_durable_chain_event_id, replay_chain_events_after, via_read_cache.
  rewrite Hopen, Hex, Hw. cbn [negb ensure mbind result_bind map_err join].
  rewrite bool_decide_true by done. cbn [negb].
  rewrite bool_decide_false by (rewrite (ca_tombstones _ _ _ _ Hi); set_solver).
  rewrite (open_file_Some _ _ _ _ _ _ Hi Hdb), Hr.
  cbn [faulty_audit mbind result_bind map_err]. rewrite Hloop. done.
Qed.

(** A cursor on world [w] the engine can resume from: the receiver starts at
    [c0], the replay is read at [c1], the stream is read at [c2]; the world stays,
    the cursor's row is in its chain with at most the replay limit of rows after
    it, and the receiver does not lag. *)
Record resumable (capacity : nat) (c0 c1 c2 : Core) (w : string) (id : SubscriptionEventId)
    (pattern : string) : Prop := {
  rs_inv : core_inv cfg c0;
  rs_before : rtc (step_keeping cfg w) c0 c1;
  rs_after : rtc (step_keeping cfg w) c1 c2;
  rs_open : closed c1 = false;
  rs_pattern : exact_world pattern = Ok (Some w);
  rs_world : sid_world id = w;
  rs_generation : gen_of w c1 = Some (sid_generation id);
  rs_marker : exists m, m ∈ rows_of w c1 /\ ev_id m = sid_seq id;
  rs_shaped : Forall row_shaped (rows_of w c1);
  rs_max : (0 <= listen_replay_max cfg <= usize_max)%Z;
  rs_limit : (Z.of_nat (length (filter (fun r => (sid_seq id < ev_id r)%Z) (rows_of w c1)))
              <= listen_replay_max cfg)%Z;
  rs_no_lag : (length (events_sent c2) <= rx_start c0 + capacity)%nat;
}.

Lemma resume_run `{BroadcastLaws} c0 c1 c2 w id pattern :
  resumable capacity c0 c1 c2 w id pattern ->
  exists sub, open_subscription cfg None None (rx_start c0) pattern (ResumeDurable id) c1 = Ok sub
    /\ delivered (received (events_sent c2) sub)
       = map (chain_id w (sid_generation id)) (filter (fun r => (sid_seq id < ev_id r)%Z) (rows_of w c2))
    /\ Forall is_ok_item (received (events_sent c2) sub).
Proof using All.
  intros [Hi0 Hrun1 Hrun2 Hopen Hex Hw Hg Hm Hsh Hmax Hlim Hcap].
  assert (forall a b, rtc (step_keeping cfg w) a b -> rtc (core_step cfg) a b) as Hweak
    by (intros a b Hr; eapply rtc_subrel; [|exact Hr]; by intros x y []).
  destruct (run_traced cfg Hcfg c0 c1 Hi0 (Hweak _ _ Hrun1)) as [Hi1 _].
  destruct (run_traced cfg Hcfg c1 c2 Hi1 (Hweak _ _ Hrun2)) as [Hi2 _].
  destruct (run_announced cfg w c0 c1 Hrun1) as [_ (s1 & n1 & E1 & R1 & A1)].
  destruct (run_announced cfg w c1 c2 Hrun2) as [G2 (s2 & n2 & E2 & R2 & A2)].
  rewrite Hg in A1. rewrite (G2 _ Hg) in A2. cbn [default] in A1, A2.
  assert (exists db1, files c1 !! w = Some db1 /\ db_generation db1 = sid_generation id) as (db1 & Hdb1 & Hg1).
  { unfold gen_of in Hg. destruct (files c1 !! w) as [db|]; [|done]. exists db. by injection Hg. }
  assert (rows_of w c1 = db_events db1) as Hr1 by (unfold rows_of; by rewrite Hdb1).
  assert (StronglySorted Z.lt (ev_id <$> rows_of w c2)) as Hsorted.
  { unfold rows_of. destruct (files c2 !! w) as [db2|] eqn:Edb2; [|constructor].
    destruct (ca_files _ _ _ _ Hi2 w db2 Edb2) as ([Hwf _] & _). apply Hwf. }
  rewrite Hr1 in *.
  destruct (open_durable c1 w id pattern (rx_start c0) db1 Hi1 Hopen Hex Hw Hdb1 Hg1 Hm Hsh Hmax Hlim)
    as (events & -> & Hids). eexists. split; [done|].
  rewrite received_new by done. cbn [lv_next].
  rewrite E2, E1. unfold rx_start. rewrite <- app_assoc, drop_app_length.
  set (rest := filter (fun r => (sid_seq id < ev_id r)%Z) (db_events db1)) in *.
  set (floor := default id (chain_id w (sid_generation id) <$> last rest)).
  assert (sid_world floor = w /\ sid_generation floor = sid_generation id
          /\ sid_seq floor = default (sid_seq id) (ev_id <$> last rest)) as (Fw & Fg & Fs)
    by (subst floor; by destruct (last rest)).
  assert (chain_ids w (s1 ++ s2) = map (chain_id w (sid_generation id)) (n1 ++ n2)) as Hlive
    by (unfold chain_ids in *; by rewrite omap_app, A1, A2, map_app).
  destruct (delivered_replay events _ Hids) as [Hd1 Hok1].
  destruct (delivered_live {| lv_next := length (events_sent c0); lv_pattern := pattern;
              lv_fence := FenceDurable floor |} w floor (s1 ++ s2)) as [Hd2 Hok2]; [done|done|done| |].
  { rewrite Hlive, Fg. apply Forall_fmap, Forall_forall. by intros x _. }
  split; [|by apply Forall_app].
  unfold delivered in *. rewrite omap_app, Hd1, Hd2, Hlive, Fs.
  rewrite filter_chain_ids, <- map_app. f_equal.
  pose proof (splice_rows (rows_of w c0) n1 n2 (sid_seq id)) as Hsplice. cbv zeta in Hsplice.
  rewrite <- R1, <- R2 in Hsplice. exact (Hsplice Hsorted Hm).
Qed.

(** C8: Resuming from a durable id loses nothing and repeats nothing.  A
    subscriber to one world starts its receiver at one moment, its replay is
    read from the chain at a later one, and the engine goes on writing before,
    between and after.  If the world is not removed, the cursor's row is still
    in its chain, at most the replay limit of rows follow it, and the receiver
    does not lag, the durable events the subscriber receives are exactly the
    rows of the chain after the cursor, each once, in order, and it sees no
    error. *)
Theorem resume_exactly_once `{BroadcastLaws} c0 c1 c2 w id pattern :
  core_inv cfg c0 -> rtc (step_keeping cfg w) c0 c1 -> rtc (step_keeping cfg w) c1 c2 ->
  closed c1 = false -> exact_world pattern = Ok (Some w) -> sid_world id = w ->
  gen_of w c1 = Some (sid_generation id) ->
  (exists m, m ∈ rows_of w c1 /\ ev_id m = sid_seq id) -> Forall row_shaped (rows_of w c1) ->
  (0 <= listen_replay_max cfg <= usize_max)%Z ->
  (Z.of_nat (length (filter (fun r => (sid_seq id < ev_id r)%Z) (rows_of w c1))) <= listen_replay_max cfg)%Z ->
  (length (events_sent c2) <= rx_start c0 + capacity)%nat ->
  exists sub, open_subscription cfg None None (rx_start c0) pattern (ResumeDurable id) c1 = Ok sub
    /\ delivered (received (events_sent c2) sub)
       = map (chain_id w (sid_generation id)) (filter (fun r => (sid_seq id < ev_id r)%Z) (rows_of w c2))
    /\ Forall is_ok_item (received (events_sent c2) sub).
Proof using All. intros. by apply resume_run. Qed.
End Resume.
