(* ===== verification/SubscriptionRace.v ===== *)
(** * Subscribing while events are being sent

    [Core::notify_with_aux] ([core/src/state.rs]) is three atomic steps: it takes
    an id, pushes the event to the log under the log's lock, and sends it.
    [open_subscription] with a wildcard pattern is two: the receiver starts, and
    the log is read under its lock.  Threads of these steps, interleaved. *)


From S2P Require Import Prelude.
From S2P Require Import Path.
From S2P Require Import Auth.
From S2P Require Import Crypto.
From S2P Require Import Etag.
From S2P Require Import Types.
From S2P Require Import Db.
From S2P Require Import Timeline.
From S2P Require Import EventId.
From S2P Require Import Demo.
From S2P Require Import TimelineProofs.
From S2P Require Import StorageClass.
From S2P Require Import Core.
From S2P Require Import WorldOps.
From S2P Require Import CoreInv.
From S2P Require Import CoreTheorems.
From S2P Require Import EngineDemo.
From S2P Require Import Conc.
From S2P Require Import EngineOps.
From S2P Require Import Announce.
From S2P Require Import Subscription.
From S2P Require Import SubscriptionTheorems.

Inductive stream_action : Type -> Type :=
| NextEventId : stream_action Z
| PushLog (change : ChangeEvent) : stream_action unit
| SendEvent (change : ChangeEvent) : stream_action unit
| RxStart : stream_action nat
| RingReplay (event_id : SubscriptionEventId) (pattern : string) : stream_action Replay.

Section Steps.
Context (max : Z).

Definition stream_exec (B : Type) (_ : unit) (_ : nat) (act : stream_action B) (c : Core)
  : option (B * Core) :=
  match act in stream_action B return option (B * Core) with
  | NextEventId =>
      let id := next_event_id (next_event c) in
      Some (id, set_stream id (event_log c) (events_sent c) c)
  | PushLog change =>
      Some (tt, set_stream (next_event c) (pop_front_to max (event_log c ++ [change])) (events_sent c) c)
  | SendEvent change =>
      Some (tt, set_stream (next_event c) (event_log c) (events_sent c ++ [change]) c)
  | RxStart => Some (rx_start c, c)
  | RingReplay event_id pattern => Some (replay_after_durable_ring_event_id event_id pattern c, c)
  end.

Definition client : Type := prog stream_action (option EngineSubscription).

Definition notify_steps (verb : ChangeVerb) (target : ChangeTarget) (etag : string)
    (aux : ChangeEventAux) : client :=
  id ← perform NextEventId;
  let change := {| ce_id := id; ce_verb := verb; ce_target := target; ce_etag := etag; ce_aux := aux |} in
  _ ← perform (PushLog change);
  _ ← perform (SendEvent change);
  mret None.

Definition subscribe_steps (pattern : string) (event_id : SubscriptionEventId) : client :=
  start ← perform RxStart;
  '(interruption, replay, fence) ← perform (RingReplay event_id pattern);
  let initial := match interruption with
                 | Some i => [Err (interruption_error i)]
                 | None => []
                 end ++ map Ok replay in
  mret (Some (EngineSubscription_new initial
                {| lv_next := start; lv_pattern := pattern; lv_fence := fence |})).

(** Alone, the steps are the functions of [Core.v] and [Subscription.v]. *)
Lemma notify_steps_alone verb target etag aux c :
  run_schedule stream_exec (repeat (tt, 0) 3) ([notify_steps verb target etag aux], c)
  = Some ([Return None], notify_with_aux max verb target etag aux c).
Proof. done. Qed.

Lemma subscribe_steps_alone `{Crypto.Crypto} `{Rusqlite} cfg pattern event_id c :
  closed c = false -> exact_world pattern = Ok None ->
  exists sub, open_subscription cfg None None (rx_start c) pattern (ResumeDurable event_id) c = Ok sub
    /\ run_schedule stream_exec (repeat (tt, 0) 2) ([subscribe_steps pattern event_id], c)
       = Some ([Return (Some sub)], c).
Proof.
  intros Hc Hp.
  unfold open_subscription, replay_after, replay_plan, replay_after_durable_event_id. rewrite Hc, Hp. cbn.
  destruct (replay_after_durable_ring_event_id event_id pattern c) as [[interruption replay] fence].
  by eexists.
Qed.
End Steps.

(** ** What the interleaving can do *)

(** tokio's ring of 16. *)
#[global] Instance ring16 : Broadcast :=
  {| rx_recv sent next :=
       if decide (length sent <= next)%nat then RxEmpty
       else if decide (next + 16 < length sent)%nat
       then RxLagged (Z.of_nat (length sent - 16 - next))
       else match sent !! next with Some change => RxEvent change | None => RxEmpty end |}.

#[global] Instance ring16_laws : BroadcastLaws 16.
Proof.
  split; cbn.
  - intros sent next change Hat Hlen. apply lookup_lt_Some in Hat as Hlt.
    destruct (decide (length sent <= next)%nat); [lia|]. destruct (decide (next + 16 < length sent)%nat); [lia|].
    by rewrite Hat.
  - intros sent next Hlen. by destruct (decide (length sent <= next)%nat).
  - intros sent next Hlen. destruct (decide (length sent <= next)%nat); [lia|].
    destruct (decide (next + 16 < length sent)%nat); [|lia].
    exists (length sent - 16 - next - 1)%nat. split; [do 2 f_equal; lia|lia].
Qed.

Definition demo_payload (target : string) : AuditEventPayload :=
  {| ap_kind := Put; ap_target := target; ap_body_sha256 := ""; ap_size := 0; ap_content_type := "";
     ap_delete_subject := None |}.

Definition demo_target (world : string) (seq : Z) : ChangeTarget :=
  TargetChain {| me_id := {| sid_world := world; sid_generation := demo_gen; sid_seq := seq |};
                 me_timeline_address := None; me_audit_payload := demo_payload world |}.

Definition marker : SubscriptionEventId :=
  {| sid_world := "home/a"; sid_generation := demo_gen; sid_seq := 2 |}.

Definition announce (target : ChangeTarget) : client := notify_steps VerbReplace target "" aux_default.

(** Thread 2 subscribes; threads 0 and 1 announce. *)
Definition stream_pool (t0 t1 : ChangeTarget) (sched : list nat) : list client * Core :=
  let start := ([announce t0; announce t1; subscribe_steps "/home/*" marker], after_replace) in
  default start (run_schedule (stream_exec 10) (pair tt <$> sched) start).

Definition subscription_of (p : list client * Core) : option EngineSubscription :=
  match fst p !! 2%nat with Some (Return sub) => sub | _ => None end.

Definition received_by (p : list client * Core) : list item :=
  from_option (received (events_sent (snd p))) [] (subscription_of p).

(** What a wildcard subscription receives after a resume can have a hole
    or a repetition.  An event that takes its id before another but reaches
    the log after it is above the cursor and below the fence: it is sent while
    the receiver listens, yet the subscriber gets the other event only, with
    no error.  An event of a memory world sent while the subscription is being
    opened is received twice. *)
Theorem ring_resume_splice_gaps :
  (let p := stream_pool (demo_target "home/a" 3) (demo_target "home/b" 1) [0; 1; 1; 2; 2; 0; 0; 1] in
   Forall finished (fst p)
   /\ map ce_id (drop (rx_start after_replace) (events_sent (snd p))) = [3; 4]%Z
   /\ map (fun e => (item_id e, is_ok e)) (received_by p)
      = [(Some {| sid_world := "home/b"; sid_generation := demo_gen; sid_seq := 1 |}, true)])
  /\ (let p := stream_pool (TargetEphemeral "home/tmp/a") (demo_target "home/b" 1) [2; 0; 0; 0; 2; 1; 1; 1] in
      Forall finished (fst p)
      /\ map ce_id (drop (rx_start after_replace) (events_sent (snd p))) = [3; 4]%Z
      /\ map (fun i => match i with Ok e => pe_id e | Err _ => 0%Z end) (received_by p) = [3; 3; 4]%Z).
Proof. split; (split; [vm_compute; repeat constructor|split; evaluate]). Qed.

(** * Subscriptions to the concrete engine

    A subscriber to [home/a] resumes after its first body row; a chunk is
    appended while it subscribes and another afterwards. *)
Definition after_append2 : Core :=
  snd (append_write demo_cfg (demo_env no_fault) demo_permit demo_chunk after_append).

Lemma append_keeps c :
  disk_bounded c -> is_Some (files (snd (append_write demo_cfg (demo_env no_fault) demo_permit demo_chunk c)) !! "home/a") ->
  step_keeping demo_cfg "home/a" c (snd (append_write demo_cfg (demo_env no_fault) demo_permit demo_chunk c)).
Proof.
  intros Hd Hs. split; [|done].
  apply (step_append_write demo_cfg c (demo_env no_fault) "home/a" Write); [apply demo_env_ok|done|evaluate|evaluate].
Qed.

Lemma keeps_append1 : rtc (step_keeping demo_cfg "home/a") after_replace after_append.
Proof. apply rtc_once, append_keeps; [evaluate|]. eexists. vm_compute. reflexivity. Qed.

Lemma keeps_append2 : rtc (step_keeping demo_cfg "home/a") after_append after_append2.
Proof. apply rtc_once, append_keeps; [evaluate|]. eexists. vm_compute. reflexivity. Qed.

Lemma announcements_match_chain_witness :
  exists sent rows,
    events_sent after_append2 = events_sent after_append ++ sent
    /\ rows_of "home/a" after_append2 = rows_of "home/a" after_append ++ rows
    /\ chain_ids "home/a" sent
       = map (chain_id "home/a" (default "" (gen_of "home/a" after_append2))) rows.
Proof.
  destruct (announcements_match_chain demo_cfg "home/a" after_append after_append2 keeps_append2)
    as (sent & rows & He & Hr & Hi & _).
  exists sent, rows. split; [exact He|]. split; [exact Hr|exact Hi].
Defined.

Lemma resume_exactly_once_witness :
  exists sub,
    open_subscription demo_cfg None None (rx_start after_replace) "/home/a" (ResumeDurable marker)
      after_append = Ok sub
    /\ map sid_seq (delivered (received (events_sent after_append2) sub)) = [3; 4]%Z.
Proof.
  destruct (resume_exactly_once (capacity := 16) demo_cfg demo_cfg_ok after_replace after_append after_append2 "home/a" marker
              "/home/a" after_replace_ok keeps_append1 keeps_append2) as (sub & Hopen & Hd & _).
  - evaluate.
  - evaluate.
  - evaluate.
  - evaluate.
  - assert (sid_seq marker ∈ ev_id <$> rows_of "home/a" after_append) as Hin
      by (apply (bool_decide_eq_true_1 _); evaluate).
    apply list_elem_of_fmap in Hin as (m & Hid & Hm). exists m. split; [exact Hm|symmetry; exact Hid].
  - vm_compute. repeat constructor; first [reflexivity|discriminate].
  - vm_compute. split; discriminate.
  - vm_compute. discriminate.
  - vm_compute. lia.
  - exists sub. split; [exact Hopen|]. rewrite Hd. vm_compute. reflexivity.
Defined.

(** A subscription that has nothing to receive yet. *)
Definition demo_live : LiveSubscription :=
  {| lv_next := length (events_sent after_append); lv_pattern := "/home/a"; lv_fence := FenceNone |}.

Lemma recv_returns_witness :
  recv false (events_sent after_append2) (EngineSubscription_new [] demo_live) <> None.
Proof.
  destruct (recv_returns (capacity := 16) false (events_sent after_append2) [] demo_live
              (EngineSubscription_new [] demo_live) (rtc_refl _ _)) as (p & sub & Hr & _).
  rewrite Hr. discriminate.
Defined.

(** Dropping a suspended [recv] closes the subscription.  While nothing is
    waiting the call is suspended with the receiver in its hands and the
    subscription marked closed; if the caller drops it, as a timeout does, the
    next call answers [Closed] although the engine runs and an event is
    waiting, which the suspended call would have delivered. *)
Theorem cancelled_recv_closes :
  exists live sub,
    recv false (events_sent after_append) (EngineSubscription_new [] demo_live) = Some (Pending live, sub)
    /\ fst <$> recv false (events_sent after_append2) (cancel live sub) = Some (Ready (Err Closed))
    /\ match fst <$> resume false (events_sent after_append2) live sub with
       | Some (Ready (Ok e)) => pe_identity e = IdentityChain {| sid_world := "home/a";
                                  sid_generation := demo_gen; sid_seq := 4 |}
       | _ => False
       end.
Proof. do 2 eexists. split; [vm_compute; reflexivity|]. split; vm_compute; reflexivity. Qed.
