(* ===== verification/HttpQuery.v ===== *)
(** * The timeline query of an HTTP request

    Models [bin/src/server/pipeline/query.rs]: the raw query string is split
    into percent-decoded pairs and classified as a request for the current
    representation or for a timeline coordinate.  [str::parse::<i64>] is
    modelled with its error kinds, which the classification reports. *)

From S2P Require Import Prelude.
From S2P Require Import RustStr.
From S2P Require Import Path.
From S2P Require Import Types.
From Stdlib Require Import Ascii.

Definition MAX_RAW_QUERY_BYTES : Z := 8192.
Definition TIMELINE_NAMESPACE_PAIR_LIMIT : Z := 8.

Inductive TimelineRequestMode :=
| Current
| Timeline (coordinate : TimelineCoordinate).

Inductive TimelineQueryError :=
| RawQueryTooLong
| MalformedPercentEncoding
| MalformedUtf8
| TooManyTimelineFields
| TimelineCoordinateRequiresMode
| InvalidTimelineMode
| DuplicateTimelineMode
| MissingTimelineCoordinateField
| DuplicateTimelineCoordinateField
| UnknownTimelineCoordinateField
| UnsupportedTimelineQueryField
| TimelineWorldComesFromPath
| TimelineSeqNotInteger
| TimelineSeqOutOfRange
| QueryInvalidCoordinate (err : InvalidTimelineCoordinate).

Record TimelineFields := {
  tf_mode : option string;
  tf_generation : option string;
  tf_seq : option string;
  tf_body_sha256 : option string;
  saw_timeline_field : bool;
  saw_unknown_timeline_field : bool;
  saw_timeline_world : bool;
  saw_unsupported_field : bool;
  saw_pre_timeline_ordinary_field : bool;
  timeline_namespace_pairs : Z;
}.

Definition TimelineFields_default : TimelineFields :=
  {| tf_mode := None; tf_generation := None; tf_seq := None; tf_body_sha256 := None;
     saw_timeline_field := false; saw_unknown_timeline_field := false;
     saw_timeline_world := false; saw_unsupported_field := false;
     saw_pre_timeline_ordinary_field := false; timeline_namespace_pairs := 0 |}.

(** ** [str::parse::<i64>] *)

Inductive IntErrorKind := Empty | InvalidDigit | PosOverflow | NegOverflow.

(** The digit loop: a character that is no digit is reported before the overflow
    of its multiplication. *)
Fixpoint i64_digits (negative : bool) (acc : Z) (s : string) : result IntErrorKind Z :=
  match s with
  | "" => Ok acc
  | String c s =>
      if is_ascii_digit c then
        let m := (acc * 10)%Z in
        let x := (if negative then m - (bv c - 48) else m + (bv c - 48))%Z in
        if ((i64_min <=? m) && (m <=? i64_max) && (i64_min <=? x) && (x <=? i64_max))%Z
        then i64_digits negative x s
        else Err (if negative then NegOverflow else PosOverflow)
      else Err InvalidDigit
  end.

Definition i64_from_str (s : string) : result IntErrorKind Z :=
  match s with
  | "" => Err Empty
  | String c "" => if is_ascii_digit c then i64_digits false 0 s else Err InvalidDigit
  | String c r =>
      if ascii_eqb c "-" then i64_digits true 0 r
      else if ascii_eqb c "+" then i64_digits false 0 r
      else i64_digits false 0 s
  end.

Definition parse_timeline_seq (raw : string) : result TimelineQueryError Z :=
  map_err (fun kind => match kind with
                       | PosOverflow | NegOverflow => TimelineSeqOutOfRange
                       | Empty | InvalidDigit => TimelineSeqNotInteger
                       end) (i64_from_str raw).

(** ** Percent decoding *)

Definition hex_value (byte : ascii) : result TimelineQueryError Z :=
  if in_range 48 57 byte then Ok (bv byte - 48)%Z
  else if in_range 97 102 byte then Ok (bv byte - 97 + 10)%Z
  else if in_range 65 70 byte then Ok (bv byte - 65 + 10)%Z
  else Err MalformedPercentEncoding.

(** The loop over the bytes. *)
Fixpoint decode_bytes (raw : string) : result TimelineQueryError string :=
  match raw with
  | "" => Ok ""
  | String c r =>
      if ascii_eqb c "%" then
        match r with
        | String a (String b r) =>
            hi ← hex_value a;
            lo ← hex_value b;
            out ← decode_bytes r;
            Ok (String (ascii_of_N (Z.to_N (Z.lor (Z.shiftl hi 4) lo))) out)
        | _ => Err MalformedPercentEncoding
        end
      else out ← decode_bytes r; Ok (String c out)
  end.

Definition decode_query_component (raw : string) : result TimelineQueryError string :=
  out ← decode_bytes raw;
  if is_utf8 out then Ok out else Err MalformedUtf8.

(** ** Classification *)

Definition set_once (slot : option string) (value : string) (duplicate_error : TimelineQueryError)
  : result TimelineQueryError (option string) :=
  match slot with Some _ => Err duplicate_error | None => Ok (Some value) end.

Definition split_pair (raw_pair : string) : string * string :=
  default (raw_pair, "") (split_once "=" raw_pair).

Definition is_timeline_key (key : string) : bool :=
  bool_decide (key = "timeline") || starts_with "timeline-" key.

(** The bookkeeping of one pair before its value is stored. *)
Definition note_key (fields : TimelineFields) (key : string) : result TimelineQueryError TimelineFields :=
  let timeline_key := is_timeline_key key in
  let in_timeline_namespace := saw_timeline_field fields || timeline_key in
  let pre := saw_pre_timeline_ordinary_field fields
             || (negb (saw_timeline_field fields) && negb timeline_key) in
  let pairs := if in_timeline_namespace then (timeline_namespace_pairs fields + 1)%Z
               else timeline_namespace_pairs fields in
  if in_timeline_namespace && (TIMELINE_NAMESPACE_PAIR_LIMIT <? pairs)%Z
  then Err TooManyTimelineFields
  else Ok {| tf_mode := tf_mode fields; tf_generation := tf_generation fields;
             tf_seq := tf_seq fields; tf_body_sha256 := tf_body_sha256 fields;
             saw_timeline_field := saw_timeline_field fields || timeline_key;
             saw_unknown_timeline_field := saw_unknown_timeline_field fields;
             saw_timeline_world := saw_timeline_world fields;
             saw_unsupported_field :=
               saw_unsupported_field fields || (negb timeline_key && saw_timeline_field fields);
             saw_pre_timeline_ordinary_field := pre;
             timeline_namespace_pairs := pairs |}.

(** The slot or flag a key sets. *)
Definition set_fields (f : TimelineFields) (mode generation seq body_sha256 : option string)
    (unknown world : bool) : TimelineFields :=
  {| tf_mode := mode; tf_generation := generation; tf_seq := seq; tf_body_sha256 := body_sha256;
     saw_timeline_field := saw_timeline_field f; saw_unknown_timeline_field := unknown;
     saw_timeline_world := world; saw_unsupported_field := saw_unsupported_field f;
     saw_pre_timeline_ordinary_field := saw_pre_timeline_ordinary_field f;
     timeline_namespace_pairs := timeline_namespace_pairs f |}.

Definition store_pair (f : TimelineFields) (key value : string)
  : result TimelineQueryError TimelineFields :=
  let unknown := saw_unknown_timeline_field f in
  let world := saw_timeline_world f in
  if bool_decide (key = "timeline") then
    mode ← set_once (tf_mode f) value DuplicateTimelineMode;
    Ok (set_fields f mode (tf_generation f) (tf_seq f) (tf_body_sha256 f) unknown world)
  else if bool_decide (key = "timeline-generation") then
    generation ← set_once (tf_generation f) value DuplicateTimelineCoordinateField;
    Ok (set_fields f (tf_mode f) generation (tf_seq f) (tf_body_sha256 f) unknown world)
  else if bool_decide (key = "timeline-seq") then
    seq ← set_once (tf_seq f) value DuplicateTimelineCoordinateField;
    Ok (set_fields f (tf_mode f) (tf_generation f) seq (tf_body_sha256 f) unknown world)
  else if bool_decide (key = "timeline-body-sha256") then
    body_sha256 ← set_once (tf_body_sha256 f) value DuplicateTimelineCoordinateField;
    Ok (set_fields f (tf_mode f) (tf_generation f) (tf_seq f) body_sha256 unknown world)
  else if bool_decide (key = "timeline-world") then
    Ok (set_fields f (tf_mode f) (tf_generation f) (tf_seq f) (tf_body_sha256 f) unknown true)
  else if starts_with "timeline-" key then
    Ok (set_fields f (tf_mode f) (tf_generation f) (tf_seq f) (tf_body_sha256 f) true world)
  else Ok f.

Definition classify_pair (fields : TimelineFields) (raw_pair : string)
  : result TimelineQueryError TimelineFields :=
  let '(raw_key, raw_value) := split_pair raw_pair in
  key ← decode_query_component raw_key;
  value ← decode_query_component raw_value;
  fields ← note_key fields key;
  store_pair fields key value.

Fixpoint classify_pairs (fields : TimelineFields) (raw_pairs : list string)
  : result TimelineQueryError TimelineFields :=
  match raw_pairs with
  | [] => Ok fields
  | raw_pair :: rest =>
      fields ← classify_pair fields raw_pair;
      classify_pairs fields rest
  end.

Definition finish_classification (fields : TimelineFields) (world : string)
  : result TimelineQueryError TimelineRequestMode :=
  if negb (saw_timeline_field fields) then Ok Current
  else
    mode ← ok_or TimelineCoordinateRequiresMode (tf_mode fields);
    if negb (bool_decide (mode = "1")) then Err InvalidTimelineMode
    else if saw_timeline_world fields then Err TimelineWorldComesFromPath
    else if saw_unknown_timeline_field fields then Err UnknownTimelineCoordinateField
    else if saw_unsupported_field fields || saw_pre_timeline_ordinary_field fields
    then Err UnsupportedTimelineQueryField
    else
      generation ← ok_or MissingTimelineCoordinateField (tf_generation fields);
      seq ← ok_or MissingTimelineCoordinateField (tf_seq fields);
      body_sha256 ← ok_or MissingTimelineCoordinateField (tf_body_sha256 fields);
      seq ← parse_timeline_seq seq;
      coordinate ← map_err QueryInvalidCoordinate (from_wire_parts world generation seq body_sha256);
      Ok (Timeline coordinate).

Definition classify_raw_query (raw : option string) (world : string)
  : result TimelineQueryError TimelineRequestMode :=
  match raw with
  | None => Ok Current
  | Some raw =>
      if (MAX_RAW_QUERY_BYTES <? slen raw)%Z then Err RawQueryTooLong
      else
        fields ← classify_pairs TimelineFields_default (split "&" raw);
        finish_classification fields world
  end.

(** ** Lemmas *)

(** What the loop sees of a query: its decoded pairs, in order. *)
Definition decode_pair (raw_pair : string) : result TimelineQueryError (string * string) :=
  let '(raw_key, raw_value) := split_pair raw_pair in
  key ← decode_query_component raw_key;
  value ← decode_query_component raw_value;
  Ok (key, value).

Fixpoint decode_pairs (raw_pairs : list string) : result TimelineQueryError (list (string * string)) :=
  match raw_pairs with
  | [] => Ok []
  | raw_pair :: rest => p ← decode_pair raw_pair; l ← decode_pairs rest; Ok (p :: l)
  end.

Definition absorb_pair (f : TimelineFields) (p : string * string)
  : result TimelineQueryError TimelineFields :=
  f ← note_key f (fst p); store_pair f (fst p) (snd p).

Fixpoint absorb (f : TimelineFields) (l : list (string * string))
  : result TimelineQueryError TimelineFields :=
  match l with
  | [] => Ok f
  | p :: l => f ← absorb_pair f p; absorb f l
  end.

Lemma classify_pair_ok f raw f' :
  classify_pair f raw = Ok f' <-> exists p, decode_pair raw = Ok p /\ absorb_pair f p = Ok f'.
Proof.
  unfold classify_pair, decode_pair. destruct (split_pair raw) as [k v].
  destruct (decode_query_component k) as [key|]; [|naive_solver].
  destruct (decode_query_component v) as [value|]; [|naive_solver].
  cbn. split; [intros; by exists (key, value)|by intros (p & [= <-] & ?)].
Qed.

Lemma classify_pairs_ok raws f f' :
  classify_pairs f raws = Ok f' <-> exists l, decode_pairs raws = Ok l /\ absorb f l = Ok f'.
Proof.
  revert f. induction raws as [|raw raws IH]; intros f; cbn.
  { split; [intros; by exists []|by intros (l & [= <-] & ?)]. }
  rewrite result_bind_Ok. setoid_rewrite classify_pair_ok. setoid_rewrite IH. split.
  - intros (f1 & (p & Hp & Ha) & l & Hl & Hr). exists (p :: l). rewrite Hp, Hl. cbn. by rewrite Ha.
  - intros (l & Hl & Ha). inv_ok. cbn in Ha. inv_ok. naive_solver.
Qed.

(** Integers: the digit loop accepts what fits. *)
Lemma digits_value_ge acc s n : digits_value acc s = Some n -> (acc <= n)%N.
Proof.
  revert acc. induction s as [|c s IH]; intros acc; cbn; [intros [= <-]; lia|].
  destruct (is_ascii_digit c); [|done]. intros H%IH. lia.
Qed.

Lemma digit_bv c : is_ascii_digit c = true -> (48 <= bv c <= 57)%Z.
Proof. unfold is_ascii_digit, in_range. lia. Qed.

Definition signed (negative : bool) (z : Z) : Z := if negative then (- z)%Z else z.

Definition i64_fits (z : Z) : bool := ((i64_min <=? z) && (z <=? i64_max))%Z.

Lemma i64_digits_ok negative a s v :
  i64_fits (signed negative (Z.of_N a)) = true ->
  i64_digits negative (signed negative (Z.of_N a)) s = Ok v
  <-> exists n, digits_value a s = Some n /\ v = signed negative (Z.of_N n) /\ i64_fits v = true.
Proof.
  revert a. induction s as [|c s IH]; intros a Ha; cbn [i64_digits digits_value].
  { split; [intros [= <-]; eauto|by intros (n & [= <-] & -> & _)]. }
  destruct (is_ascii_digit c) eqn:Hc; [|naive_solver].
  pose proof (digit_bv c Hc) as Hb. set (a' := (a * 10 + (N_of_ascii c - 48))%N).
  assert (signed negative (Z.of_N a')
          = (if negative then signed negative (Z.of_N a) * 10 - (bv c - 48)
             else signed negative (Z.of_N a) * 10 + (bv c - 48)))%Z as Hx.
  { unfold a', signed, bv in *. destruct negative; lia. }
  cbn zeta. rewrite <- Hx. destruct (_ && _ && _ && _) eqn:Hfit.
  - apply IH. unfold i64_fits. lia.
  - split; [by destruct negative|]. intros (n & Hn & -> & Hv). exfalso.
    apply digits_value_ge in Hn. unfold signed, i64_fits, i64_min, i64_max in *.
    destruct negative; lia.
Qed.

Lemma i64_digits_parse negative r v :
  r <> "" ->
  i64_digits negative 0 r = Ok v
  <-> (n ← (fun n => signed negative (Z.of_N n)) <$> parse_digits r;
       if i64_fits n then Some n else None) = Some v.
Proof.
  intros Hr. assert (i64_digits negative 0 r = i64_digits negative (signed negative (Z.of_N 0)) r) as ->.
  { by destruct negative. }
  rewrite i64_digits_ok by (by destruct negative). unfold parse_digits. destruct r as [|c r]; [done|].
  destruct (digits_value 0 (String c r)) as [n|]; cbn; [|naive_solver].
  destruct (i64_fits (signed negative (Z.of_N n))) eqn:E; split.
  - by intros (? & [= <-] & -> & _).
  - intros [= <-]. eauto.
  - intros (? & [= <-] & -> & ?). congruence.
  - done.
Qed.

Lemma i64_from_str_ok s v : i64_from_str s = Ok v <-> parse_i64 s = Some v.
Proof.
  assert (forall r, r <> "" -> i64_digits true 0 r = Ok v
            <-> (n ← Z.opp <$> (Z.of_N <$> parse_digits r); if i64_fits n then Some n else None) = Some v)
    as Hneg.
  { intros r Hr. rewrite i64_digits_parse by done. by destruct (parse_digits r). }
  assert (forall r, r <> "" -> i64_digits false 0 r = Ok v
            <-> (n ← Z.of_N <$> parse_digits r; if i64_fits n then Some n else None) = Some v)
    as Hpos.
  { intros r Hr. rewrite i64_digits_parse by done. by destruct (parse_digits r). }
  unfold parse_i64, parse_signed. destruct s as [|c [|d r]]; [done|..].
  - destruct (is_ascii_digit c) eqn:Hc.
    + transitivity (i64_digits false 0 (String c "") = Ok v); [by cbn [i64_from_str]; rewrite Hc|].
      rewrite Hpos by done. assert (sall is_ascii_digit (String c "") = true) as Hd by (cbn; by rewrite Hc).
      by destruct (digit_not_sign c "" Hd) as [-> ->].
    + cbn [i64_from_str parse_digits]. rewrite Hc. cbn. rewrite Hc.
      by destruct (ascii_eqb c "-"), (ascii_eqb c "+").
  - unfold i64_from_str. destruct (ascii_eqb c "-"); [by apply Hneg|].
    destruct (ascii_eqb c "+"); by apply Hpos.
Qed.

Lemma parse_timeline_seq_ok s v : parse_timeline_seq s = Ok v <-> parse_i64 s = Some v.
Proof. unfold parse_timeline_seq. by rewrite map_err_Ok, i64_from_str_ok. Qed.

(** ** What the fields record of the pairs absorbed so far *)

Definition with_key (k : string) (l : list (string * string)) : list (string * string) :=
  filter (fun p => fst p = k) l.
Arguments with_key : simpl never.

Definition slot (k : string) (o : option string) : list (string * string) :=
  match o with Some v => [(k, v)] | None => [] end.

Definition slot_keys : list string :=
  ["timeline"; "timeline-generation"; "timeline-seq"; "timeline-body-sha256"].

Definition is_unknown_key (k : string) : bool :=
  starts_with "timeline-" k && negb (bool_decide (k = "timeline-world")) && negb (bool_decide (k ∈ slot_keys)).

Record absorbed (f : TimelineFields) (l : list (string * string)) : Prop := {
  ab_mode : with_key "timeline" l = slot "timeline" (tf_mode f);
  ab_generation : with_key "timeline-generation" l = slot "timeline-generation" (tf_generation f);
  ab_seq : with_key "timeline-seq" l = slot "timeline-seq" (tf_seq f);
  ab_body : with_key "timeline-body-sha256" l = slot "timeline-body-sha256" (tf_body_sha256 f);
  ab_saw : saw_timeline_field f = existsb (fun p => is_timeline_key (fst p)) l;
  ab_unknown : saw_unknown_timeline_field f = existsb (fun p => is_unknown_key (fst p)) l;
  ab_world : saw_timeline_world f = existsb (fun p => bool_decide (fst p = "timeline-world")) l;
  ab_other : saw_unsupported_field f || saw_pre_timeline_ordinary_field f
             = existsb (fun p => negb (is_timeline_key (fst p))) l;
  ab_count : (timeline_namespace_pairs f <= Z.of_nat (length l))%Z;
}.

Lemma absorbed_default : absorbed TimelineFields_default [].
Proof. by split. Qed.

Lemma with_key_app k l p : with_key k (l ++ [p]) = with_key k l ++ (if decide (fst p = k) then [p] else []).
Proof. unfold with_key. by rewrite filter_app, filter_cons. Qed.

Lemma existsb_snoc {A} (g : A -> bool) l x : existsb g (l ++ [x]) = existsb g l || g x.
Proof. rewrite existsb_app. cbn. by rewrite orb_false_r. Qed.

Lemma note_key_ok f k f' :
  note_key f k = Ok f' ->
  f' = {| tf_mode := tf_mode f; tf_generation := tf_generation f;
          tf_seq := tf_seq f; tf_body_sha256 := tf_body_sha256 f;
          saw_timeline_field := saw_timeline_field f || is_timeline_key k;
          saw_unknown_timeline_field := saw_unknown_timeline_field f;
          saw_timeline_world := saw_timeline_world f;
          saw_unsupported_field :=
            saw_unsupported_field f || (negb (is_timeline_key k) && saw_timeline_field f);
          saw_pre_timeline_ordinary_field :=
            saw_pre_timeline_ordinary_field f || (negb (saw_timeline_field f) && negb (is_timeline_key k));
          timeline_namespace_pairs :=
            if saw_timeline_field f || is_timeline_key k then (timeline_namespace_pairs f + 1)%Z
            else timeline_namespace_pairs f |}.
Proof. unfold note_key. destruct (_ && _) eqn:E; [done|]. by intros [= <-]. Qed.

(** The cases of [store_pair]. *)
Lemma store_pair_ok f k v f' :
  store_pair f k v = Ok f' ->
  (exists s, s ∈ slot_keys /\ k = s
     /\ f' = set_fields f
              (if bool_decide (s = "timeline") then Some v else tf_mode f)
              (if bool_decide (s = "timeline-generation") then Some v else tf_generation f)
              (if bool_decide (s = "timeline-seq") then Some v else tf_seq f)
              (if bool_decide (s = "timeline-body-sha256") then Some v else tf_body_sha256 f)
              (saw_unknown_timeline_field f) (saw_timeline_world f)
     /\ (s = "timeline" -> tf_mode f = None)
     /\ (s = "timeline-generation" -> tf_generation f = None)
     /\ (s = "timeline-seq" -> tf_seq f = None)
     /\ (s = "timeline-body-sha256" -> tf_body_sha256 f = None))
  \/ k ∉ slot_keys
     /\ f' = set_fields f (tf_mode f) (tf_generation f) (tf_seq f) (tf_body_sha256 f)
               (saw_unknown_timeline_field f || is_unknown_key k)
               (saw_timeline_world f || bool_decide (k = "timeline-world")).
Proof.
  unfold store_pair. intros H.
  case_bool_decide as E1; [left|case_bool_decide as E2; [left|case_bool_decide as E3; [left|
    case_bool_decide as E4; [left|right]]]].
  1-4: subst k; inv_ok; eexists; (split; [|split; [reflexivity|]]);
    [set_solver|unfold set_once in *; case_match; naive_solver].
  assert (k ∉ slot_keys) as Hk by (unfold slot_keys; set_solver). split; [done|].
  unfold is_unknown_key. rewrite (bool_decide_false _ Hk), andb_true_r.
  case_bool_decide as E5.
  - inv_ok. by rewrite andb_false_r, orb_false_r, orb_true_r.
  - rewrite andb_true_r, orb_false_r. destruct (starts_with "timeline-" k); inv_ok.
    + by rewrite orb_true_r.
    + rewrite orb_false_r. by destruct f'.
Qed.

Lemma slot_key_timeline k : k ∈ slot_keys -> is_timeline_key k = true /\ is_unknown_key k = false
  /\ bool_decide (k = "timeline-world") = false.
Proof.
  intros Hk. unfold is_unknown_key. rewrite (bool_decide_true _ Hk), andb_false_r.
  unfold slot_keys in Hk. set_unfold in Hk. naive_solver.
Qed.

Lemma absorb_pair_absorbed f l p f' :
  absorbed f l -> absorb_pair f p = Ok f' -> absorbed f' (l ++ [p]).
Proof.
  destruct p as [k v]. unfold absorb_pair. cbn [fst snd]. intros [] H. inv_ok.
  match goal with Hn : note_key _ _ = Ok ?x, Hs : store_pair _ _ _ = Ok _ |- _ =>
    apply note_key_ok in Hn; apply store_pair_ok in Hs; rename Hs into Hst; subst x end.
  destruct Hst as [(s & Hs & -> & -> & H1 & H2 & H3 & H4)|(Hk & ->)]; cbn in *.
  - destruct (slot_key_timeline s Hs) as (Ht & Hu & Hw).
    split; cbn; rewrite ?existsb_snoc, ?with_key_app, ?length_app; cbn [fst length];
      rewrite ?Ht, ?Hu, ?Hw, ?andb_false_r, ?andb_false_l, ?orb_false_r, ?orb_true_r; try done.
    all: clear Hw.
    1-4: case_bool_decide; subst; cbn; [|rewrite decide_False by done; by rewrite app_nil_r].
    1-4: match goal with Hw : with_key _ _ = slot _ ?o, Hn : _ -> ?o = None |- _ =>
           rewrite Hw, Hn by done end; done.
    lia.
  - assert (forall s, s ∈ slot_keys -> k <> s) as Hne by naive_solver.
    assert (saw_timeline_field f || is_timeline_key k
            = existsb (fun p => is_timeline_key (fst p)) (l ++ [(k, v)])) as Hsaw.
    { by rewrite existsb_snoc, ab_saw0. }
    split; cbn; rewrite ?existsb_snoc, ?with_key_app, ?length_app; cbn [fst length].
    1-4: rewrite decide_False by (apply Hne; unfold slot_keys; set_solver); by rewrite app_nil_r.
    + by rewrite ab_saw0.
    + by rewrite ab_unknown0.
    + by rewrite ab_world0.
    + rewrite <- ab_other0. destruct (saw_unsupported_field f), (saw_pre_timeline_ordinary_field f),
        (is_timeline_key k), (saw_timeline_field f); done.
    + destruct (saw_timeline_field f || is_timeline_key k); lia.
Qed.

Lemma absorb_absorbed f done l f' :
  absorbed f done -> absorb f l = Ok f' -> absorbed f' (done ++ l).
Proof.
  revert f done. induction l as [|p l IH]; intros f done Hf; cbn.
  { intros [= <-]. by rewrite app_nil_r. }
  intros H. inv_ok. rewrite cons_middle, app_assoc. eapply IH; [|done]. by eapply absorb_pair_absorbed.
Qed.

(** Few pairs with distinct keys are absorbed; so are any number of ordinary ones. *)
Lemma absorb_distinct f done l :
  absorbed f done -> NoDup (done ++ l).*1 -> (Z.of_nat (length (done ++ l)) <= TIMELINE_NAMESPACE_PAIR_LIMIT)%Z ->
  exists f', absorb f l = Ok f'.
Proof.
  revert f done. induction l as [|[k v] l IH]; intros f done Hf Hnd Hlen; cbn; [by eexists|].
  enough (exists f1, absorb_pair f (k, v) = Ok f1) as [f1 H1].
  { rewrite H1. cbn. apply (IH f1 (done ++ [(k, v)])).
    - by eapply absorb_pair_absorbed.
    - by rewrite <- app_assoc.
    - by rewrite <- app_assoc. }
  rewrite fmap_app, fmap_cons in Hnd. apply NoDup_app in Hnd as (_ & Hk & _).
  assert (with_key k done = []) as Hnone.
  { destruct (with_key k done) as [|[k' v'] r] eqn:E; [done|exfalso].
    assert ((k', v') ∈ with_key k done) as Hin by (rewrite E; by left).
    apply list_elem_of_filter in Hin as [Hkk Hin]. cbn in Hkk. subst k'. apply (Hk k); [|by left].
    apply list_elem_of_fmap. by exists (k, v'). }
  unfold absorb_pair, note_key. cbn [fst snd]. rewrite length_app in Hlen. cbn in Hlen.
  pose proof (ab_count _ _ Hf). rewrite (proj2 (Z.ltb_ge _ _)) by (destruct (_ || _); lia).
  rewrite andb_false_r. cbn [mbind result_bind]. unfold store_pair. cbn.
  pose proof (ab_mode _ _ Hf). pose proof (ab_generation _ _ Hf). pose proof (ab_seq _ _ Hf).
  pose proof (ab_body _ _ Hf).
  repeat case_bool_decide; subst; try (by eexists);
    try (match goal with Hw : with_key _ _ = slot _ ?o |- context [set_once ?o] =>
           rewrite Hw in Hnone; destruct o; [done|by eexists] end).
  destruct (starts_with "timeline-" k); by eexists.
Qed.

Lemma absorb_ordinary f l :
  saw_timeline_field f = false -> Forall (fun p => is_timeline_key (fst p) = false) l ->
  exists f', absorb f l = Ok f'.
Proof.
  intros Hsaw Hl. revert f Hsaw. induction Hl as [|[k v] l Hk _ IH]; intros f Hsaw; cbn; [by eexists|].
  cbn in Hk. unfold absorb_pair, note_key. cbn [fst snd]. rewrite Hk, Hsaw. cbn.
  unfold is_timeline_key in Hk. apply orb_false_iff in Hk as [Hk Hs].
  unfold store_pair. rewrite Hk, Hs. apply bool_decide_eq_false in Hk.
  repeat (rewrite bool_decide_false by (intros ->; done)). by apply IH.
Qed.

(** ** Classified pairs *)

Definition coordinate_pairs (generation seq body_sha256 : string) : list (string * string) :=
  [("timeline", "1"); ("timeline-generation", generation); ("timeline-seq", seq);
   ("timeline-body-sha256", body_sha256)].

Lemma partition_by_key (ks : list string) (l : list (string * string)) :
  NoDup ks -> Forall (fun p => fst p ∈ ks) l -> l ≡ₚ (ks ≫= fun k => with_key k l).
Proof.
  intros Hnd. revert l. induction Hnd as [|k ks Hk _ IH]; intros l Hl; cbn.
  { destruct Hl as [|p l Hp _]; [done|]. by apply not_elem_of_nil in Hp. }
  set (rest := filter (fun p => fst p <> k) l).
  assert (l ≡ₚ with_key k l ++ rest) as Hsplit.
  { symmetry. apply filter_app_complement. }
  etransitivity; [exact Hsplit|]. apply Permutation_app_head.
  etransitivity; [apply (IH rest)|].
  - apply Forall_forall. intros p [Hp Hin]%list_elem_of_filter.
    rewrite Forall_forall in Hl. specialize (Hl p Hin). set_solver.
  - apply reflexive_eq. clear -Hk. induction ks as [|k' ks IHks]; [done|].
    cbn. rewrite not_elem_of_cons in Hk. destruct Hk as [Hk Hks]. rewrite IHks by done. f_equal.
    unfold rest, with_key. rewrite list_filter_filter. apply list_filter_iff.
    intros p. naive_solver.
Qed.

Lemma key_cases k :
  is_timeline_key k = true -> is_unknown_key k = false -> bool_decide (k = "timeline-world") = false ->
  k ∈ slot_keys.
Proof.
  unfold is_timeline_key, is_unknown_key. intros Ht Hu Hw. rewrite Hw in Hu.
  destruct (decide (k ∈ slot_keys)) as [Hk|Hk]; [done|]. rewrite (bool_decide_false _ Hk) in Hu.
  apply orb_true_iff in Ht as [Ht|Ht]; [|by rewrite Ht in Hu].
  apply bool_decide_eq_true in Ht as ->. by destruct Hk; left.
Qed.

Lemma existsb_false_Forall {A} (g : A -> bool) l :
  existsb g l = false <-> Forall (fun x => g x = false) l.
Proof.
  induction l as [|x l IH]; cbn; [by split|]. by rewrite orb_false_iff, IH, Forall_cons.
Qed.

Lemma existsb_Permutation {A} (g : A -> bool) l l' : l ≡ₚ l' -> existsb g l = existsb g l'.
Proof.
  intros Hp. apply eq_true_iff_eq. rewrite !existsb_exists.
  split; intros (x & Hx & Hg); exists x; (split; [|done]); [by rewrite <- Hp|by rewrite Hp].
Qed.

Lemma with_key_Permutation k l l' : l ≡ₚ l' -> with_key k l ≡ₚ with_key k l'.
Proof. unfold with_key. by intros ->. Qed.

Lemma slot_Permutation k o v : slot k o ≡ₚ [(k, v)] -> o = Some v.
Proof.
  intros Hp. apply Permutation_sym, Permutation_singleton_l in Hp. destruct o; cbn in Hp; congruence.
Qed.

Lemma slot_Some k o v : slot k o = [(k, v)] <-> o = Some v.
Proof. destruct o; cbn; split; congruence. Qed.

Lemma finish_timeline f l w c :
  absorbed f l ->
  finish_classification f w = Ok (Timeline c) ->
  exists gen seq sha n, l ≡ₚ coordinate_pairs gen seq sha /\ parse_i64 seq = Some n
    /\ from_wire_parts w gen n sha = Ok c.
Proof.
  intros [] H. unfold finish_classification in H.
  destruct (saw_timeline_field f); [|done]. cbn [negb] in H.
  destruct (tf_mode f) as [mode|]; [|done]. cbn in H. case_bool_decide; [subst mode|done]. cbn in H.
  destruct (saw_timeline_world f); [done|]. destruct (saw_unknown_timeline_field f); [done|].
  destruct (_ || _); [done|]. destruct (tf_generation f) as [gen|]; [|done].
  destruct (tf_seq f) as [seq|]; [|done]. destruct (tf_body_sha256 f) as [sha|]; [|done].
  cbn in H. inv_ok.
  match goal with Hs : parse_timeline_seq _ = Ok ?n |- _ => exists gen, seq, sha, n end.
  split; [|split; [by apply parse_timeline_seq_ok|done]].
  rewrite (partition_by_key slot_keys l).
  - unfold slot_keys. cbn. by rewrite ab_mode0, ab_generation0, ab_seq0, ab_body0.
  - apply (bool_decide_eq_true_1 _). evaluate.
  - symmetry in ab_unknown0, ab_world0, ab_other0.
    rewrite existsb_false_Forall, Forall_forall in ab_unknown0, ab_world0, ab_other0.
    apply Forall_forall. intros p Hp. apply key_cases; [|by apply ab_unknown0|by apply ab_world0].
    apply negb_false_iff. by apply ab_other0.
Qed.

Lemma finish_coordinate f l w gen seq sha n c :
  absorbed f l -> l ≡ₚ coordinate_pairs gen seq sha -> parse_i64 seq = Some n ->
  from_wire_parts w gen n sha = Ok c -> finish_classification f w = Ok (Timeline c).
Proof.
  intros [] Hp Hn Hc.
  rewrite (existsb_Permutation _ _ _ Hp) in ab_saw0.
  rewrite (existsb_Permutation _ _ _ Hp) in ab_unknown0.
  rewrite (existsb_Permutation _ _ _ Hp) in ab_world0.
  rewrite (existsb_Permutation _ _ _ Hp) in ab_other0.
  cbn in ab_saw0, ab_unknown0, ab_world0, ab_other0.
  pose proof (with_key_Permutation "timeline" _ _ Hp) as H1. rewrite ab_mode0 in H1.
  pose proof (with_key_Permutation "timeline-generation" _ _ Hp) as H2. rewrite ab_generation0 in H2.
  pose proof (with_key_Permutation "timeline-seq" _ _ Hp) as H3. rewrite ab_seq0 in H3.
  pose proof (with_key_Permutation "timeline-body-sha256" _ _ Hp) as H4. rewrite ab_body0 in H4.
  apply slot_Permutation in H1, H2, H3, H4. unfold finish_classification.
  rewrite ab_saw0, H1, H2, H3, H4, ab_world0, ab_unknown0, ab_other0. cbn.
  rewrite (proj2 (parse_timeline_seq_ok seq n) Hn). cbn. by rewrite Hc.
Qed.

Lemma finish_current f w : finish_classification f w = Ok Current -> saw_timeline_field f = false.
Proof.
  unfold finish_classification. destruct (saw_timeline_field f); [|done]. intros H. cbn [negb] in H. inv_ok.
  repeat (case_match; [done|]). inv_ok. discriminate.
Qed.

Lemma classify_run raw w mode :
  classify_raw_query (Some raw) w = Ok mode <->
  (slen raw <= MAX_RAW_QUERY_BYTES)%Z /\ exists l f, decode_pairs (split "&" raw) = Ok l
     /\ absorb TimelineFields_default l = Ok f /\ finish_classification f w = Ok mode.
Proof.
  unfold classify_raw_query. destruct (MAX_RAW_QUERY_BYTES <? slen raw)%Z eqn:E.
  { split; [done|]. intros [Hl _]. lia. }
  rewrite result_bind_Ok. setoid_rewrite classify_pairs_ok. split.
  - intros (f & (l & Hl & Hf) & Hm). split; [lia|]. eauto.
  - intros (_ & l & f & Hl & Hf & Hm). eauto.
Qed.

(** ** Theorems *)

(** C35: A query asks for a timeline coordinate exactly when it has at most 8192
    bytes and its percent-decoded pairs are, in any order, the mode
    [timeline=1] and one generation, sequence number and body digest that form
    a coordinate of the world in the path; it asks for the current
    representation exactly when there is none or none of its decoded keys is
    [timeline] or starts with [timeline-].  Every other query is an error, so no
    escaping, repetition or extra pair turns one kind of read into the other. *)
Theorem classify_raw_query_exact raw w :
  (forall c, classify_raw_query raw w = Ok (Timeline c) <->
     exists q l gen seq sha n,
       raw = Some q /\ (slen q <= MAX_RAW_QUERY_BYTES)%Z /\ decode_pairs (split "&" q) = Ok l
       /\ l ≡ₚ coordinate_pairs gen seq sha /\ parse_i64 seq = Some n
       /\ from_wire_parts w gen n sha = Ok c)
  /\ (classify_raw_query raw w = Ok Current <->
      raw = None \/ exists q l, raw = Some q /\ (slen q <= MAX_RAW_QUERY_BYTES)%Z
        /\ decode_pairs (split "&" q) = Ok l
        /\ Forall (fun p => is_timeline_key (fst p) = false) l).
Proof.
  destruct raw as [q|]; [|split; [intros c; split; [done|naive_solver]|naive_solver]].
  split; [intros c; split|split].
  - intros (Hq & l & f & Hl & Hf & Hm)%classify_run.
    destruct (finish_timeline f l w c (absorb_absorbed _ [] _ _ absorbed_default Hf) Hm)
      as (gen & seq & sha & n & Hp & Hn & Hc). exists q, l, gen, seq, sha, n. done.
  - intros (q' & l & gen & seq & sha & n & [= <-] & Hq & Hl & Hp & Hn & Hc). apply classify_run.
    split; [done|]. destruct (absorb_distinct TimelineFields_default [] l absorbed_default) as [f Hf].
    + cbn. rewrite Hp. apply (bool_decide_eq_true_1 _). reflexivity.
    + cbn. by rewrite Hp.
    + exists l, f. split_and!; [done..|].
      eapply finish_coordinate; [exact (absorb_absorbed _ [] _ _ absorbed_default Hf)|done..].
  - intros (Hq & l & f & Hl & Hf & Hm)%classify_run. right. exists q, l. split_and!; try done.
    pose proof (ab_saw _ _ (absorb_absorbed _ [] _ _ absorbed_default Hf)) as Hs. cbn in Hs.
    apply existsb_false_Forall. rewrite <- Hs. by eapply finish_current.
  - intros [?|(q' & l & [= <-] & Hq & Hl & Hall)]; [done|]. apply classify_run. split; [done|].
    destruct (absorb_ordinary TimelineFields_default l eq_refl Hall) as [f Hf].
    exists l, f. split_and!; try done.
    pose proof (ab_saw _ _ (absorb_absorbed _ [] _ _ absorbed_default Hf)) as Hs. cbn in Hs.
    apply existsb_false_Forall in Hall. unfold finish_classification. by rewrite Hs, Hall.
Qed.

(** A coordinate in an escaped, reordered query, a duplicate of it and an
    ordinary query. *)
Example classify_examples :
  let gen := "0123456789abcdef0123456789abcdef" in
  let sha := gen +:+ gen in
  let q := "timeline-seq=%2b7&timeline%2Dgeneration=" +:+ gen
           +:+ "&timeline-body-sha256=" +:+ sha +:+ "&%74imeline=1" in
  classify_raw_query (Some q) "home/a"
    = Ok (Timeline {| tc_world := "home/a"; tc_gen := gen; tc_seq := 7; tc_body_sha256 := sha |})
  /\ classify_raw_query (Some (q +:+ "&timeline-seq=7")) "home/a" = Err DuplicateTimelineCoordinateField
  /\ classify_raw_query (Some "a=1&timelines=2&") "home/a" = Ok Current
  /\ classify_raw_query (Some "timeline-seq=%f") "home/a" = Err MalformedPercentEncoding.
Proof. evaluate. Qed.
