(* ===== verification/HttpResponse.v ===== *)
(** * HTTP messages and the response constructors

    Models [bin/src/server/response.rs] over the header types of the [http]
    crate, which are a parameter ([HttpCrate]).  A [Response] is the triple of
    status, headers and body the adapter hands to [axum]; what [axum] adds to
    it is not modelled. *)

From S2P Require Import Prelude.
From S2P Require Import RustStr.
From S2P Require Import Path.
From S2P Require Import Crypto.
From Stdlib Require Import Ascii.

(** ** The [http] crate *)

(** The entries of a header map in the order it iterates: lower-case names,
    values as bytes. *)
Definition HeaderMap : Type := list (string * string).

Class HttpCrate := {
  hm_get : HeaderMap -> string -> option string;
  hm_append : HeaderMap -> string -> string -> HeaderMap;
  (** [HeaderValue::to_str], [HeaderValue::from_str], [HeaderName::from_bytes] *)
  value_to_str : string -> option string;
  value_from_str : string -> option string;
  name_from_bytes : string -> option string;
}.

(** Documented: [append] keeps the entries there are; [from_str] keeps the bytes;
    a name is normalised to lower case. *)
Class HttpLaws `{HttpCrate} := {
  hm_append_entries hm name value : hm_append hm name value ≡ₚ hm ++ [(name, value)];
  value_from_str_same s v : value_from_str s = Some v -> v = s;
  name_from_bytes_lower k name : name_from_bytes k = Some name -> name = to_ascii_lowercase k;
}.

(** [HeaderMap::insert]; documented: it replaces every entry of the name, and
    visible ASCII text is a header value. *)
Class HttpInsert := { hm_insert : HeaderMap -> string -> string -> HeaderMap }.

Class HttpInsertLaws `{HttpCrate} `{HttpInsert} := {
  hm_insert_entries hm name value :
    hm_insert hm name value ≡ₚ filter (fun e => fst e <> name) hm ++ [(name, value)];
  value_from_visible s : sall (in_range 32 126) s = true -> value_from_str s = Some s;
}.

Inductive Method := GET | HEAD | PUT | POST | DELETE | OPTIONS | OtherMethod (name : string).

#[global] Instance Method_eq_dec : EqDecision Method.
Proof. solve_decision. Defined.

Record Response := { status : Z; resp_headers : HeaderMap; resp_body : string }.

(** A line feed, and text in double quotes. *)
Definition lf : string := String "010" "".
Definition quoted (s : string) : string := String quote_char (s +:+ String quote_char "").

Definition TEXT_PLAIN : string * string := ("content-type", "text/plain; charset=utf-8").

Section Values.
Context `{HttpCrate}.

Definition to_header_map (pairs : list (string * string)) : HeaderMap :=
  foldl (fun hm e => hm_append hm (fst e) (snd e)) [] pairs.

(** [HeaderValue::from_str(..).unwrap_or_else(|_| from_static(fallback))]. *)
Definition value_or (fallback s : string) : string := default fallback (value_from_str s).

Definition decimal_header_value (value : Z) : string := to_string value.

Definition content_range_value (start end_ len : Z) : string :=
  value_or "bytes */0"
    ("bytes " +:+ to_string start +:+ "-" +:+ to_string end_ +:+ "/" +:+ to_string len).

Definition unsatisfied_range_value (len : Z) : string :=
  value_or "bytes */0" ("bytes */" +:+ to_string len).

Fixpoint escape_audit (value : string) : string :=
  match value with
  | "" => ""
  | String b rest =>
      (if in_range 32 126 b then String b ""
       else String backslash (String "x" (String (hex_lower_digit (Z.shiftr (bv b) 4))
              (String (hex_lower_digit (Z.land (bv b) 15)) ""))))
      +:+ escape_audit rest
  end.

Definition audit_header_value (value : string) : string := value_or "invalid" (escape_audit value).
End Values.

Arguments to_header_map {_} _ : simpl never.

(** ** Error responses *)

Definition text_response (code : Z) (body : string) : Response :=
  {| status := code; resp_headers := [TEXT_PLAIN]; resp_body := body +:+ lf |}.

Definition not_found : Response := text_response 404 "world not found".

Definition unauthorized (msg : string) : Response :=
  {| status := 401;
     resp_headers := [TEXT_PLAIN; ("www-authenticate", "Bearer realm=" +:+ quoted "auditedb")];
     resp_body := "auth required: " +:+ msg +:+ lf |}.

Definition forbidden (msg : string) : Response := text_response 403 ("forbidden: " +:+ msg).
Definition bad_request (msg : string) : Response := text_response 400 ("bad request: " +:+ msg).
Definition uri_too_long (msg : string) : Response := text_response 414 ("uri too long: " +:+ msg).

Definition payload_too_large (max_bytes : Z) : Response :=
  text_response 413 ("payload too large: max bytes " +:+ to_string max_bytes).

Definition precondition_failed (msg : string) : Response :=
  text_response 412 ("precondition failed: " +:+ msg).

Definition server_error (msg : string) : Response := text_response 500 ("internal error: " +:+ msg).
Definition internal_error : Response := text_response 500 "internal error".

Definition method_not_allowed (allow : string) : Response :=
  {| status := 405; resp_headers := [TEXT_PLAIN; ("allow", allow)];
     resp_body := "method not allowed" +:+ lf |}.

Definition options_response (allow : string) : Response :=
  {| status := 204; resp_headers := [("allow", allow); ("content-length", "0")]; resp_body := "" |}.

Definition insufficient_storage : Response := text_response 507 "insufficient storage: disk full".

Definition storage_temporarily_unavailable : Response :=
  {| status := 503; resp_headers := [TEXT_PLAIN; ("retry-after", "1")];
     resp_body := "storage temporarily unavailable: database busy" +:+ lf |}.

Definition storage_quota_exceeded `{HttpCrate} (used quota projected : Z) : Response :=
  let needed := saturating_sub projected quota in
  {| status := 507;
     resp_headers := to_header_map
       [TEXT_PLAIN; ("x-storage-usage", decimal_header_value used);
        ("x-storage-quota", decimal_header_value quota);
        ("x-storage-needed", decimal_header_value needed)];
     resp_body := "storage quota exceeded: current " +:+ to_string used +:+ " bytes, quota "
                  +:+ to_string quota +:+ " bytes, need " +:+ to_string needed +:+ " more bytes" +:+ lf |}.

(** ** Lemmas *)

Section Lemmas.
Context `{HttpLaws}.

Lemma to_header_map_entries pairs : to_header_map pairs ≡ₚ pairs.
Proof.
  unfold to_header_map. rewrite <- (app_nil_l pairs) at 2. generalize (@nil (string * string)) as hm.
  induction pairs as [|[k v] pairs IH]; intros hm; cbn; [by rewrite app_nil_r|].
  rewrite IH, hm_append_entries, <- app_assoc. done.
Qed.

Lemma value_or_cases fallback s : value_or fallback s = s \/ value_or fallback s = fallback.
Proof.
  unfold value_or. destruct (value_from_str s) eqn:E; [left|by right]. by apply value_from_str_same.
Qed.
End Lemmas.

