(* ===== verification/HttpSemantics.v ===== *)
(** * HTTP semantics: byte ranges, conditional headers, header persistence

    Models [bin/src/server/http/range.rs] and [bin/src/server/http/semantics.rs]. *)

From S2P Require Import Prelude.
From S2P Require Import RustStr.
From S2P Require Import Path.
From S2P Require Import Crypto.
From S2P Require Import Etag.
From S2P Require Import HttpResponse.
From Stdlib Require Import Ascii.

(** ** Header persistence policy *)

Record HeaderAllowlist := { al_exact : gset string; al_prefixes : list string }.

Definition HeaderAllowlist_empty : HeaderAllowlist := {| al_exact := ∅; al_prefixes := [] |}.

Definition allow_entry (al : HeaderAllowlist) (raw_entry : string) : HeaderAllowlist :=
  let entry := to_ascii_lowercase (trim raw_entry) in
  if bool_decide (entry = "") then al
  else match strip_suffix_char "*" entry with
       | Some prefix =>
           if bool_decide (prefix = "") then al
           else {| al_exact := al_exact al; al_prefixes := al_prefixes al ++ [prefix] |}
       | None => {| al_exact := {[entry]} ∪ al_exact al; al_prefixes := al_prefixes al |}
       end.

Definition HeaderAllowlist_parse (raw : string) : HeaderAllowlist :=
  foldl allow_entry HeaderAllowlist_empty (split "," raw).

Definition allow_matches (al : HeaderAllowlist) (name_lower : string) : bool :=
  bool_decide (name_lower ∈ al_exact al)
  || existsb (fun p => starts_with p name_lower) (al_prefixes al).

Definition DEFAULT_PERSIST_HEADERS : list string :=
  ["content-disposition"; "content-encoding"; "content-language"; "content-md5";
   "cache-control"; "expires";
   "access-control-allow-origin"; "access-control-allow-methods"; "access-control-allow-headers";
   "access-control-allow-credentials"; "access-control-expose-headers"; "access-control-max-age";
   "content-security-policy"; "content-security-policy-report-only"; "x-frame-options";
   "permissions-policy"; "cross-origin-resource-policy"; "cross-origin-opener-policy";
   "cross-origin-embedder-policy"; "referrer-policy"; "x-robots-tag"].

Definition is_default_persisted_header (name_lower : string) : bool :=
  bool_decide (name_lower ∈ DEFAULT_PERSIST_HEADERS).

Definition never_persisted_prefixes : list string :=
  ["sec-"; "access-control-request-"; "want-"; ":"; "x-b3-"; "x-amzn-"; "cf-"; "x-timeline-"].

Definition never_persisted_names : list string :=
  ["authorization"; "proxy-authorization"; "cookie"; "set-cookie";
   "host"; "connection"; "keep-alive"; "proxy-authenticate"; "proxy-connection"; "te"; "trailer";
   "transfer-encoding"; "upgrade"; "http2-settings";
   "accept"; "accept-charset"; "accept-encoding"; "accept-language"; "expect"; "from";
   "max-forwards"; "origin"; "prefer"; "range"; "referer"; "referrer"; "dnt"; "user-agent";
   "if-match"; "if-none-match"; "if-range"; "if-modified-since"; "if-unmodified-since";
   "device-memory"; "downlink"; "dpr"; "ect"; "rtt"; "save-data"; "width"; "viewport-width";
   "accept-ch"; "alt-used"; "attribution-reporting-eligible"; "available-dictionary";
   "dictionary-id"; "early-data"; "idempotency-key"; "service-worker";
   "service-worker-navigation-preload"; "upgrade-insecure-requests";
   "alt-svc"; "server-timing"; "retry-after"; "x-powered-by"; "preference-applied"; "priority";
   "critical-ch"; "clear-site-data";
   "content-type"; "content-length"; "etag"; "accept-ranges"; "content-range"; "link"; "location";
   "allow"; "date"; "server"; "www-authenticate"; "age"; "vary"; "x-request-id"; "x-elapsed-us";
   "x-elapsed-ms"; "x-content-type-options";
   "forwarded"; "via"; "x-forwarded-for"; "x-forwarded-host"; "x-forwarded-proto"; "x-real-ip";
   "true-client-ip"; "client-ip"; "traceparent"; "tracestate"; "baggage"; "b3"; "http3-settings";
   "pragma"].

Definition is_never_persisted_header (name_lower : string) : bool :=
  existsb (fun p => starts_with p name_lower) never_persisted_prefixes
  || bool_decide (name_lower ∈ never_persisted_names).

Definition should_persist_for_storage (name_lower : string) (user_allow user_deny : HeaderAllowlist)
  : bool :=
  if is_never_persisted_header name_lower then false
  else if allow_matches user_deny name_lower then false
  else if is_default_persisted_header name_lower then true
  else allow_matches user_allow name_lower.

(** [CONTROLS] with the added characters. *)
Definition URL_PATH_ENCODE (c : ascii) : bool :=
  (bv c <=? 31)%Z || (bv c =? 127)%Z
  || bool_decide (c ∈ [" "; quote_char; "#"; "%"; "<"; ">"; "?"; "["; backslash; "]"; "^"; "`";
                       "{"; "|"; "}"]%char).

Definition world_url `{PercentEncoding} (world_name : string) : string :=
  "/" +:+ utf8_percent_encode URL_PATH_ENCODE world_name.

Section Semantics.
Context `{HttpCrate} `{PercentEncoding}.

(** [headers.get(name).and_then(|v| v.to_str().ok())]. *)
Definition header_str (headers : HeaderMap) (name : string) : option string :=
  hm_get headers name ≫= value_to_str.

(** ** [range.rs] *)

Definition if_range_strong_matches (header_value current : string) : bool :=
  bool_decide (trim header_value = quoted current).

(** A range is the positions of its first and last byte. *)
Definition parse_range (req_headers : HeaderMap) (len : Z) : result unit (option (Z * Z)) :=
  match header_str req_headers "range" with
  | None => Ok None
  | Some raw =>
      spec ← ok_or tt (strip_prefix "bytes=" (trim raw));
      if contains_char "," spec then Ok None
      else
        '(left_, right_) ← ok_or tt (split_once "-" spec);
        if (len =? 0)%Z then Err tt
        else if bool_decide (left_ = "") then
          suffix ← ok_or tt (parse_usize right_);
          if (suffix =? 0)%Z then Err tt
          else
            let take := Z.min suffix len in
            Ok (Some (len - take, len - 1)%Z)
        else
          start ← ok_or tt (parse_usize left_);
          if (len <=? start)%Z then Err tt
          else
            end_ ← (if bool_decide (right_ = "") then Ok (len - 1)%Z
                    else ok_or tt (parse_usize right_));
            if (end_ <? start)%Z then Err tt
            else Ok (Some (start, Z.min end_ (len - 1)))
  end.

Definition effective_range (req_headers : HeaderMap) (len : Z) (current_etag : string)
  : result unit (option (Z * Z)) :=
  match header_str req_headers "if-range" with
  | Some if_range =>
      if negb (if_range_strong_matches if_range current_etag) then Ok None
      else parse_range req_headers len
  | None => parse_range req_headers len
  end.

(** ** [semantics.rs] *)

(** The pairs pushed for the stored metadata. *)
Fixpoint apply_meta_headers (headers out : list (string * string)) : list (string * string) :=
  match headers with
  | [] => out
  | (k, v) :: rest =>
      apply_meta_headers rest
        (if is_never_persisted_header (to_ascii_lowercase k) then out
         else match name_from_bytes k, value_from_str v with
              | Some name, Some val => out ++ [(name, val)]
              | _, _ => out
              end)
  end.

Definition apply_world_links (world_name : string) (out : list (string * string))
  : list (string * string) :=
  let monitor := "</listen" +:+ world_url world_name +:+ ">; rel=" +:+ quoted "monitor" in
  let out := match value_from_str monitor with
             | Some v => out ++ [("link", v)]
             | None => out
             end in
  out ++ [("link", "</proc/worlds>; rel=" +:+ quoted "collection")].

Definition etag_header (etag : string) : string := value_or (quoted "invalid") (quoted etag).

Definition request_preconditions (headers : HeaderMap) : Preconditions :=
  {| if_match := default [] (parse_etag_matchers <$> header_str headers "if-match");
     if_none_match := default [] (parse_etag_matchers <$> header_str headers "if-none-match") |}.

Definition etag_list_weak_matches (header_value current : string) : bool :=
  existsb (fun matcher => match matcher with
                          | Any => true
                          | Strong value | Weak value => bool_decide (value = current)
                          | Invalid => false
                          end) (parse_etag_matchers header_value).

Definition read_not_modified (req_headers : HeaderMap) (current : string) : bool :=
  default false ((fun h => etag_list_weak_matches h current) <$> header_str req_headers "if-none-match").

Definition request_content_type (headers : HeaderMap) : string :=
  default "application/octet-stream"
    (v ← trim <$> header_str headers "content-type";
     if bool_decide (v = "") then None else Some v).

Definition insert_meta (user_allow user_deny : HeaderAllowlist) (out : gmap string string)
    (entry : string * string) : gmap string string :=
  let name := to_ascii_lowercase (fst entry) in
  if should_persist_for_storage name user_allow user_deny then
    match value_to_str (snd entry) with Some val => <[name := val]> out | None => out end
  else out.

(** The ordered map's entries, in the order of their names. *)
Definition request_meta_headers (headers : HeaderMap) (user_allow user_deny : HeaderAllowlist)
  : list (string * string) :=
  sort_headers (map_to_list (foldl (insert_meta user_allow user_deny) ∅ headers)).

Definition not_modified (world_name etag content_type : string) (meta_headers : list (string * string))
  : Response :=
  let headers := [("etag", etag_header etag);
                  ("content-type", value_or "application/octet-stream" content_type);
                  ("accept-ranges", "bytes")] in
  let headers := apply_world_links world_name headers in
  let headers := apply_meta_headers meta_headers headers in
  {| status := 304; resp_headers := to_header_map headers; resp_body := "" |}.

Definition range_not_satisfiable (len : Z) : Response :=
  {| status := 416;
     resp_headers := to_header_map [TEXT_PLAIN; ("accept-ranges", "bytes");
                                    ("content-range", unsatisfied_range_value len)];
     resp_body := "range not satisfiable" +:+ lf |}.
End Semantics.

(** ** Lemmas *)

Section Lemmas.
Context `{HttpLaws} `{PercentEncoding}.

Lemma apply_meta_headers_app headers out :
  apply_meta_headers headers out = out ++ apply_meta_headers headers [].
Proof.
  revert out. induction headers as [|[k v] headers IH]; intros out; cbn; [by rewrite app_nil_r|].
  destruct (is_never_persisted_header _); [apply IH|].
  destruct (name_from_bytes k), (value_from_str v); try apply IH.
  rewrite IH. rewrite (IH [_]). by rewrite <- app_assoc.
Qed.

Lemma apply_world_links_app w out : apply_world_links w out = out ++ apply_world_links w [].
Proof.
  unfold apply_world_links. destruct (value_from_str _); rewrite ?app_nil_l; [|done].
  by rewrite <- app_assoc.
Qed.

(** A stored header that is served has a name the hard deny lets through. *)
Lemma apply_meta_headers_allowed headers name value :
  (name, value) ∈ apply_meta_headers headers [] -> is_never_persisted_header name = false.
Proof.
  induction headers as [|[k v] headers IH]; cbn; [by intros ?%not_elem_of_nil|].
  destruct (is_never_persisted_header (to_ascii_lowercase k)) eqn:E; [done|].
  destruct (name_from_bytes k) as [n|] eqn:Hn; [|done]. destruct (value_from_str v); [|done].
  rewrite apply_meta_headers_app. intros [Hin|Hin]%elem_of_app; [|by apply IH].
  apply list_elem_of_singleton in Hin as [= -> ->]. by rewrite (name_from_bytes_lower _ _ Hn).
Qed.

Lemma insert_meta_policy allow deny headers out :
  map_Forall (fun name _ => should_persist_for_storage name allow deny = true) out ->
  map_Forall (fun name _ => should_persist_for_storage name allow deny = true)
    (foldl (insert_meta allow deny) out headers).
Proof.
  revert out. induction headers as [|[k v] headers IH]; intros out Hout; cbn; [done|].
  apply IH. unfold insert_meta. cbn. destruct (should_persist_for_storage _ _ _) eqn:E; [|done].
  destruct (value_to_str v); [|done]. by apply map_Forall_insert_2.
Qed.

Lemma request_meta_policy headers allow deny name value :
  (name, value) ∈ request_meta_headers headers allow deny ->
  should_persist_for_storage name allow deny = true.
Proof.
  unfold request_meta_headers. rewrite sort_headers_perm, elem_of_map_to_list. intros Hin.
  by apply (insert_meta_policy allow deny headers ∅ (map_Forall_empty _) name value).
Qed.

Lemma request_meta_sorted headers allow deny :
  sort_headers (request_meta_headers headers allow deny) = request_meta_headers headers allow deny.
Proof. apply sort_headers_idemp. Qed.

Lemma parse_usize_nonneg s n : parse_usize s = Some n -> (0 <= n)%Z.
Proof.
  unfold parse_usize. destruct s as [|c r]; [done|].
  destruct (ascii_eqb c "+"); [destruct (parse_digits r)|destruct (parse_digits (String c r))];
    cbn; try done; case_match; try done; intros [= <-]; lia.
Qed.

(** A range is inside the body. *)
Lemma parse_range_inside hs len s e :
  (0 <= len)%Z -> parse_range hs len = Ok (Some (s, e)) -> (0 <= s <= e)%Z /\ (e < len)%Z.
Proof.
  unfold parse_range. destruct (header_str hs "range") as [raw|]; [|done]. intros Hlen Hr. inv_ok.
  destruct (contains_char _ _); [done|]. inv_ok. case_match; subst.
  destruct (len =? 0)%Z eqn:Hz in *; [done|]. apply Z.eqb_neq in Hz. case_bool_decide; inv_ok.
  - destruct (_ =? 0)%Z eqn:Hs in *; [done|]. apply Z.eqb_neq in Hs. inv_ok.
    match goal with Hp : parse_usize _ = Some ?n |- _ => pose proof (parse_usize_nonneg _ n Hp) end.
    intros; lia.
  - match goal with Hp : parse_usize _ = Some ?n |- _ => pose proof (parse_usize_nonneg _ n Hp) end.
    destruct (len <=? _)%Z eqn:Hl; [done|]. inv_ok. destruct (_ <? _)%Z eqn:He; [done|]. inv_ok.
    intros; lia.
Qed.

Lemma effective_range_inside hs len etag s e :
  (0 <= len)%Z -> effective_range hs len etag = Ok (Some (s, e)) -> (0 <= s <= e)%Z /\ (e < len)%Z.
Proof.
  unfold effective_range. destruct (header_str hs "if-range"); [|apply parse_range_inside].
  destruct (negb _); [done|apply parse_range_inside].
Qed.
End Lemmas.

(** ** Range requests *)

(** The three forms of a byte range, as a client writes them. *)
Inductive range_form := FromTo (first last : Z) | From (first : Z) | Suffix (count : Z).

Definition print_range (r : range_form) : string :=
  "bytes=" +:+ match r with
               | FromTo s t => to_string s +:+ "-" +:+ to_string t
               | From s => to_string s +:+ "-"
               | Suffix n => "-" +:+ to_string n
               end.

Definition range_usize (r : range_form) : Prop :=
  match r with
  | FromTo s t => usize_ok s /\ usize_ok t
  | From s => usize_ok s
  | Suffix n => usize_ok n
  end.

(** The bytes it names of a body of [len] bytes. *)
Definition wanted (r : range_form) (len : Z) : option (Z * Z) :=
  match r with
  | FromTo s t => if ((s <? len) && (s <=? t))%Z then Some (s, Z.min t (len - 1)) else None
  | From s => if (s <? len)%Z then Some (s, len - 1)%Z else None
  | Suffix n => if ((0 <? n) && (0 <? len))%Z then Some (len - Z.min n len, len - 1)%Z else None
  end.

Lemma split_once_app c a b :
  contains_char c a = false -> split_once c (a +:+ String c b) = Some (a, b).
Proof.
  unfold contains_char. rewrite sany_false.
  induction a as [|x a IH]; [rewrite sapp_nil_l; cbn; by rewrite ascii_eqb_refl|].
  rewrite sapp_cons. cbn. rewrite andb_true_iff, negb_true_iff. intros [Hx Ha].
  assert (ascii_eqb x c = false) as ->.
  { apply not_true_iff_false. rewrite ascii_eqb_spec. intros ->. by rewrite ascii_eqb_refl in Hx. }
  by rewrite IH.
Qed.

Lemma digits_lack c s : is_ascii_digit c = false -> sall is_ascii_digit s = true -> contains_char c s = false.
Proof.
  intros Hc Hs. unfold contains_char. rewrite sany_false. eapply sall_impl; [|exact Hs].
  intros x Hx. apply negb_true_iff, not_true_iff_false. rewrite ascii_eqb_spec. intros ->. congruence.
Qed.

Lemma contains_char_app c a b : contains_char c (a +:+ b) = contains_char c a || contains_char c b.
Proof. unfold contains_char, sany. by rewrite sall_app, negb_andb. Qed.

Lemma parse_usize_to_string n : usize_ok n -> parse_usize (to_string n) = Some n.
Proof.
  intros [H0 Hn]. pose proof (to_string_digits n H0) as Hd.
  assert (Z.of_N <$> parse_digits (to_string n) = Some n) as Hp.
  { destruct n as [|p|p]; [done| |lia]. change (to_string (Z.pos p)) with (pretty (N.pos p) : string).
    by rewrite parse_digits_pretty. }
  unfold parse_usize. destruct (to_string n) as [|c s] eqn:E; [done|].
  destruct (digit_not_sign _ _ Hd) as [_ ->]. rewrite Hp. cbn. by rewrite (proj2 (Z.leb_le _ _) Hn).
Qed.

Lemma to_string_nonempty n : usize_ok n -> to_string n <> "".
Proof. intros Hn E. pose proof (parse_usize_to_string n Hn) as H. by rewrite E in H. Qed.

Lemma parse_range_print `{HttpCrate} hs len r :
  (0 <= len)%Z -> range_usize r -> trim <$> header_str hs "range" = Some (print_range r) ->
  parse_range hs len = match wanted r len with Some p => Ok (Some p) | None => Err tt end.
Proof.
  unfold parse_range. intros Hlen Hu Hr. destruct (header_str hs "range") as [raw|]; [|done].
  cbn in Hr. injection Hr as ->. unfold print_range. rewrite strip_prefix_app. cbn [ok_or mbind result_bind].
  assert (forall n c, usize_ok n -> is_ascii_digit c = false -> contains_char c (to_string n) = false) as Hd.
  { intros n c [H0 _] Hc. by apply digits_lack, to_string_digits. }
  destruct r as [s t|s|n]; cbn [range_usize wanted] in *.
  - destruct Hu as [Hs Ht]. rewrite !contains_char_app, !Hd by done. cbn [orb].
    replace (contains_char "," "-") with false by reflexivity.
    rewrite sapp_cons, sapp_nil_l, (split_once_app "-" (to_string s) (to_string t)) by (by apply Hd).
    cbn [ok_or mbind result_bind]. rewrite (bool_decide_false _ (to_string_nonempty s Hs)).
    rewrite (bool_decide_false _ (to_string_nonempty t Ht)), !parse_usize_to_string by done.
    cbn [ok_or mbind result_bind]. destruct Hs as [Hs _].
    destruct (len =? 0)%Z eqn:E0, (len <=? s)%Z eqn:E1, (s <? len)%Z eqn:E2, (t <? s)%Z eqn:E3,
      (s <=? t)%Z eqn:E4; try done; lia.
  - rewrite contains_char_app, Hd by done. cbn [orb].
    replace (contains_char "," "-") with false by reflexivity.
    rewrite (split_once_app "-" (to_string s) "") by (by apply Hd).
    cbn [ok_or mbind result_bind]. rewrite (bool_decide_false _ (to_string_nonempty s Hu)).
    rewrite (bool_decide_true ("" = "")) by done. rewrite parse_usize_to_string by done.
    cbn [ok_or mbind result_bind]. destruct Hu as [Hs _].
    destruct (len =? 0)%Z eqn:E0, (len <=? s)%Z eqn:E1, (s <? len)%Z eqn:E2, (len - 1 <? s)%Z eqn:E3;
      try done; try lia. by rewrite Z.min_id.
  - rewrite contains_char_app, Hd by done. replace (contains_char "," "-") with false by reflexivity.
    cbn [orb]. rewrite sapp_cons, sapp_nil_l.
    change (split_once "-" (String "-" (to_string n))) with (Some ("", to_string n)).
    cbn [ok_or mbind result_bind]. rewrite (bool_decide_true ("" = "")) by done.
    rewrite parse_usize_to_string by done. cbn [ok_or mbind result_bind]. destruct Hu as [Hn _].
    destruct (len =? 0)%Z eqn:E0, (n =? 0)%Z eqn:E1, (0 <? n)%Z eqn:E2, (0 <? len)%Z eqn:E3; try done; lia.
Qed.
