(* ===== verification/HttpPipeline.v ===== *)
(** * The HTTP request pipeline

    Models the request path of the server: [bin/src/server/state.rs] (the tier
    of a request), [pipeline.rs] and [pipeline/timeline_mode.rs] (the phases and
    their driver), [handler.rs], [handler/post.rs], [handler/delete.rs],
    [handler/timeline.rs] (the verbs) and the world route of [route.rs], over
    the engine of [EngineOps.v].  Trace lines are left out, except that the
    trace hooks of a delete record its last step, which the error response
    depends on ([core/src/engine_trace.rs]). *)

From S2P Require Import Prelude.
From S2P Require Import RustStr.
From S2P Require Import Path.
From S2P Require Import Auth.
From S2P Require Import Crypto.
From S2P Require Import Etag.
From S2P Require Import Types.
From S2P Require Import Db.
From S2P Require Import Cas.
From S2P Require Import AuditGates.
From S2P Require Import Timeline.
From S2P Require Import EventId.
From S2P Require Import StorageClass.
From S2P Require Import Core.
From S2P Require Import WorldOps.
From S2P Require Import DeleteOps.
From S2P Require Import EngineOps.
From S2P Require Import FacadeSpec.
From S2P Require Import HttpResponse.
From S2P Require Import HttpSemantics.
From S2P Require Import HttpQuery.
From Stdlib Require Import Ascii.

(** ** Phases *)

Inductive Verb := VerbGet | VerbHead | VerbPut | VerbPost | VerbDel.
Inductive TimelineVerb := TimelineGet | TimelineHead.

Inductive ErrorReason :=
| ReasonAuth (gate : AuthGate)
| ReasonPathInvalid (reason : string)
| ReasonMethodNotAllowed
| ReasonTimelineMethodNotAllowed
| ReasonTimelineRequestTargetTooLong
| ReasonTimelineQuery (err : TimelineQueryError)
| ReasonNotFound
| ReasonPreconditionFailed
| ReasonRangeNotSatisfiable
| ReasonPayloadTooLarge
| ReasonQuotaExceeded
| ReasonAppendOnly
| ReasonInsufficientStorage
| ReasonStorageRead
| ReasonTimelineStorageRead
| ReasonTimelineGenMismatch
| ReasonTimelineBodyHashMismatch
| ReasonTimelineNonBodyEvent
| ReasonTimelineExpired
| ReasonTimelineMissingRow
| ReasonTimelineUnprovenCoordinate
| ReasonTimelineCorrupt
| ReasonStorageWriteAudit
| ReasonAuditChainBroken.

Inductive Phase :=
| Received (method : Method) (path : string) (raw_query : option string) (headers : HeaderMap)
    (body : string)
| Authenticated (method : Method) (path : string) (raw_query : option string) (headers : HeaderMap)
    (body : string) (tier : Tier)
| PathValidated (method : Method) (raw_query : option string) (headers : HeaderMap) (body : string)
    (tier : Tier) (world : string)
| Dispatched (verb : Verb) (headers : HeaderMap) (body : string) (tier : Tier) (world : string)
| TimelineDispatched (verb : TimelineVerb) (coordinate : TimelineCoordinate) (tier : Tier)
| ExecutedRead (resp : Response)
| CommittedWrite (resp : Response)
| Done (resp : Response)
| PhaseError (resp : Response) (reason : ErrorReason).

Definition WORLD_ALLOW : string := "GET, HEAD, PUT, POST, DELETE, OPTIONS".
Definition TIMELINE_ALLOW : string := "GET, HEAD, OPTIONS".

(** ** Before the verbs: [pipeline.rs], [timeline_mode.rs] *)

Definition authenticate (method : Method) (path : string) (raw_query : option string)
    (headers : HeaderMap) (body : string) (tier : Tier) : Phase :=
  Authenticated method path raw_query headers body tier.

(** [ValidatedWorldPath::new] is [from_canonical]. *)
Definition validate_path (method : Method) (path : string) (raw_query : option string)
    (headers : HeaderMap) (body : string) (tier : Tier) : Phase :=
  let world := canonicalize_path path in
  match validate_world_name world with
  | Err reason => PhaseError (bad_request reason) (ReasonPathInvalid reason)
  | Ok _ =>
      match from_canonical world with
      | Ok world => PathValidated method raw_query headers body tier world
      | Err _ =>
          let reason := "world path missing canonical namespace prefix" in
          PhaseError (bad_request reason) (ReasonPathInvalid reason)
      end
  end.

Definition dispatch (method : Method) (headers : HeaderMap) (body : string) (tier : Tier)
    (world : string) : Phase :=
  match method with
  | GET => Dispatched VerbGet headers body tier world
  | HEAD => Dispatched VerbHead headers body tier world
  | PUT => Dispatched VerbPut headers body tier world
  | POST => Dispatched VerbPost headers body tier world
  | DELETE => Dispatched VerbDel headers body tier world
  | _ => PhaseError (method_not_allowed WORLD_ALLOW) ReasonMethodNotAllowed
  end.

Definition dispatch_timeline (method : Method) (coordinate : TimelineCoordinate) (tier : Tier) : Phase :=
  match method with
  | GET => TimelineDispatched TimelineGet coordinate tier
  | HEAD => TimelineDispatched TimelineHead coordinate tier
  | _ => PhaseError (method_not_allowed TIMELINE_ALLOW) ReasonTimelineMethodNotAllowed
  end.

(** The [Debug] text of the error types. *)
Definition debug_coordinate_error (err : InvalidTimelineCoordinate) : string :=
  match err with
  | CoordWorldPath reason => "WorldPath(" +:+ quoted reason +:+ ")"
  | CoordMemoryWorld => "MemoryWorld"
  | CoordGenerationWrongLength => "GenerationWrongLength"
  | CoordGenerationNotLowerHex => "GenerationNotLowerHex"
  | CoordSeqNonPositive => "SeqNonPositive"
  | CoordBodySha256WrongLength => "BodySha256WrongLength"
  | CoordBodySha256NotLowerHex => "BodySha256NotLowerHex"
  end.

Definition debug_query_error (err : TimelineQueryError) : string :=
  match err with
  | RawQueryTooLong => "RawQueryTooLong"
  | MalformedPercentEncoding => "MalformedPercentEncoding"
  | MalformedUtf8 => "MalformedUtf8"
  | TooManyTimelineFields => "TooManyTimelineFields"
  | TimelineCoordinateRequiresMode => "TimelineCoordinateRequiresMode"
  | InvalidTimelineMode => "InvalidTimelineMode"
  | DuplicateTimelineMode => "DuplicateTimelineMode"
  | MissingTimelineCoordinateField => "MissingTimelineCoordinateField"
  | DuplicateTimelineCoordinateField => "DuplicateTimelineCoordinateField"
  | UnknownTimelineCoordinateField => "UnknownTimelineCoordinateField"
  | UnsupportedTimelineQueryField => "UnsupportedTimelineQueryField"
  | TimelineWorldComesFromPath => "TimelineWorldComesFromPath"
  | TimelineSeqNotInteger => "TimelineSeqNotInteger"
  | TimelineSeqOutOfRange => "TimelineSeqOutOfRange"
  | QueryInvalidCoordinate err =>
      "InvalidTimelineCoordinate(" +:+ debug_coordinate_error err +:+ ")"
  end.

Definition without_body (resp : Response) : Response :=
  {| status := status resp; resp_headers := resp_headers resp; resp_body := "" |}.

Definition empty_body_for_head (method : Method) (resp : Response) : Response :=
  match method with HEAD => without_body resp | _ => resp end.

Definition timeline_query_error (method : Method) (err : TimelineQueryError) : Phase :=
  let '(resp, reason) :=
    match err with
    | RawQueryTooLong =>
        (uri_too_long ("timeline query exceeds " +:+ to_string MAX_RAW_QUERY_BYTES +:+ " bytes"),
         ReasonTimelineRequestTargetTooLong)
    | other =>
        (bad_request ("invalid timeline query: " +:+ debug_query_error other), ReasonTimelineQuery other)
    end in
  PhaseError (empty_body_for_head method resp) reason.

Definition classify_timeline_request (method : Method) (raw_query : option string)
    (headers : HeaderMap) (body : string) (tier : Tier) (world : string) : Phase :=
  match classify_raw_query raw_query world with
  | Ok Current => dispatch method headers body tier world
  | Ok (Timeline coordinate) => dispatch_timeline method coordinate tier
  | Err err => timeline_query_error method err
  end.

(** ** The tier of a request: [state.rs] *)

(** [base64]'s standard decoder. *)
Class Base64 := { b64_decode : string -> option string }.

Definition MAX_AUTHORIZATION_BYTES : Z := 8 * 1024.

(** [str::split_once(char::is_whitespace)] on the characters. *)
Fixpoint split_chunks_ws (l : list (Z * string)) : option (string * string) :=
  match l with
  | [] => None
  | (n, c) :: rest =>
      if char_is_whitespace n then Some ("", concat_chunks rest)
      else '(a, b) ← split_chunks_ws rest; Some (c +:+ a, b)
  end.

Definition split_once_whitespace (s : string) : option (string * string) :=
  split_chunks_ws (default [] (utf8_chunks s)).

Record ServerState := {
  persist_header_allowlist : HeaderAllowlist;
  persist_header_user_deny : HeaderAllowlist;
}.

Section Server.
Context `{Crypto} `{Rusqlite} `{HttpCrate} `{PercentEncoding} `{Base64}.
Context (cfg : Config) (tokens : Tokens) (state : ServerState).

Definition access_tier_from_headers (headers : HeaderMap) : Tier :=
  match header_str headers "authorization" with
  | None => Anon
  | Some value =>
      if (MAX_AUTHORIZATION_BYTES <? slen value)%Z then Anon
      else match split_once_whitespace value with
           | None => Anon
           | Some (scheme, credentials) =>
               let credentials := trim credentials in
               if eq_ignore_ascii_case scheme "Bearer" then check_token_bytes tokens credentials
               else if eq_ignore_ascii_case scheme "Basic" then
                 match b64_decode credentials ≫= split_once ":" with
                 | Some (_, token) => check_token_bytes tokens token
                 | None => Anon
                 end
               else Anon
           end
  end.

(** ** Reads: [handler.rs] *)

Definition read_error_phase (err : EngineError) : Phase :=
  match err with
  | EngineAuth gate => PhaseError (unauthorized "read requires read token") (ReasonAuth gate)
  | TransientStorage => PhaseError storage_temporarily_unavailable ReasonStorageRead
  | EngineInsufficientStorage => PhaseError insufficient_storage ReasonInsufficientStorage
  | EngineStorage | InternalInvariant _ =>
      PhaseError (server_error "storage failure") ReasonStorageRead
  | ShuttingDown => PhaseError storage_temporarily_unavailable ReasonStorageRead
  | SubscriptionLimit =>
      PhaseError (server_error "unexpected read subscription limit") ReasonStorageRead
  | InvalidMetadata message => PhaseError (bad_request message) (ReasonPathInvalid message)
  | InvalidWorldName | NotFound | EngineAppendOnly | EnginePayloadTooLarge _
  | PreconditionFailed _ | EngineQuotaExceeded _ _ _ =>
      PhaseError (server_error "unexpected read error") ReasonStorageRead
  end.

(** [body[start..=end]]. *)
Definition slice (body : string) (start end_ : Z) : string :=
  String.substring (Z.to_nat start) (Z.to_nat (end_ - start + 1)) body.

Definition execute_get (o : outside) (headers : HeaderMap) (tier : Tier) (world : string) (e : Engine)
  : Phase :=
  match read cfg tokens (o_join o) (o_read_fault o) world tier e with
  | Err err => read_error_phase err
  | Ok None => PhaseError not_found ReasonNotFound
  | Ok (Some result) =>
      let stage := rd_representation result in
      let etag := rd_etag result in
      if read_not_modified headers etag then
        ExecutedRead (not_modified world etag (re_content_type stage) (re_headers stage))
      else
        let len := slen (re_body stage) in
        let base := [("content-type", value_or "application/octet-stream" (re_content_type stage));
                     ("accept-ranges", "bytes");
                     ("etag", etag_header etag)] in
        let base := apply_world_links world base in
        let base := apply_meta_headers (re_headers stage) base in
        match effective_range headers len etag with
        | Ok (Some (start, end_)) =>
            let chunk := slice (re_body stage) start end_ in
            let hs := base ++ [("content-length", decimal_header_value (slen chunk));
                               ("content-range", content_range_value start end_ len)] in
            ExecutedRead {| status := 206; resp_headers := to_header_map hs; resp_body := chunk |}
        | Ok None =>
            let hs := base ++ [("content-length", decimal_header_value len)] in
            ExecutedRead {| status := 200; resp_headers := to_header_map hs;
                            resp_body := re_body stage |}
        | Err _ => PhaseError (range_not_satisfiable len) ReasonRangeNotSatisfiable
        end
  end.

Definition execute_head (o : outside) (headers : HeaderMap) (tier : Tier) (world : string) (e : Engine)
  : Phase :=
  match read cfg tokens (o_join o) (o_read_fault o) world tier e with
  | Err err => read_error_phase err
  | Ok None => PhaseError not_found ReasonNotFound
  | Ok (Some result) =>
      let stage := rd_representation result in
      let etag := rd_etag result in
      if read_not_modified headers etag then
        ExecutedRead (not_modified world etag (re_content_type stage) (re_headers stage))
      else
        let len := slen (re_body stage) in
        let base := [("content-type", value_or "application/octet-stream" (re_content_type stage));
                     ("content-length", decimal_header_value len);
                     ("accept-ranges", "bytes");
                     ("etag", etag_header etag)] in
        let base := apply_world_links world base in
        let base := apply_meta_headers (re_headers stage) base in
        match effective_range headers len etag with
        | Ok (Some (start, end_)) =>
            let base := filter (fun p => fst p <> "content-length") base in
            let chunk_len := (end_ - start + 1)%Z in
            let hs := base ++ [("content-length", decimal_header_value chunk_len);
                               ("content-range", content_range_value start end_ len)] in
            ExecutedRead {| status := 206; resp_headers := to_header_map hs; resp_body := "" |}
        | Ok None => ExecutedRead {| status := 200; resp_headers := to_header_map base; resp_body := "" |}
        | Err _ => PhaseError (range_not_satisfiable len) ReasonRangeNotSatisfiable
        end
  end.

(** ** Writes: [handler.rs], [handler/post.rs] *)

Definition write_error_phase (err : EngineError) : Phase :=
  match err with
  | EngineAuth gate =>
      PhaseError (unauthorized "write requires token; system worlds need approve token") (ReasonAuth gate)
  | EnginePayloadTooLarge max => PhaseError (payload_too_large max) ReasonPayloadTooLarge
  | PreconditionFailed message => PhaseError (precondition_failed message) ReasonPreconditionFailed
  | NotFound => PhaseError not_found ReasonNotFound
  | EngineQuotaExceeded used quota projected =>
      PhaseError (storage_quota_exceeded used quota projected) ReasonQuotaExceeded
  | TransientStorage => PhaseError storage_temporarily_unavailable ReasonStorageWriteAudit
  | EngineInsufficientStorage => PhaseError insufficient_storage ReasonInsufficientStorage
  | EngineStorage => PhaseError (server_error "storage failure") ReasonStorageRead
  | InternalInvariant _ => PhaseError internal_error ReasonStorageWriteAudit
  | InvalidMetadata message => PhaseError (bad_request message) (ReasonPathInvalid message)
  | ShuttingDown => PhaseError storage_temporarily_unavailable ReasonStorageWriteAudit
  | SubscriptionLimit =>
      PhaseError (server_error "unexpected write subscription limit") ReasonStorageWriteAudit
  | EngineAppendOnly => PhaseError (forbidden "delete ledger is append-only") ReasonAppendOnly
  | InvalidWorldName =>
      PhaseError (server_error "invalid world reached write adapter") ReasonStorageWriteAudit
  end.

Definition request_representation (headers : HeaderMap) (body : string) : Representation :=
  {| re_body := body; re_content_type := request_content_type headers;
     re_headers := request_meta_headers headers (persist_header_allowlist state)
                     (persist_header_user_deny state) |}.

Definition execute_put (o : outside) (headers : HeaderMap) (body : string) (tier : Tier) (world : string)
    (e : Engine) : Phase * Engine :=
  let '(r, e) := replace cfg (o_env o) world (request_representation headers body)
                   (request_preconditions headers) tier e in
  (match r with
   | Err err => write_error_phase err
   | Ok outcome =>
       let code := match wr_kind outcome with KindCreated => 201 | KindUpdated => 200 end%Z in
       let hs := [("etag", etag_header (wr_etag outcome))] in
       let hs := if (code =? 201)%Z then hs ++ [("location", value_or "/" (world_url world))] else hs in
       CommittedWrite {| status := code; resp_headers := to_header_map hs; resp_body := "" |}
   end, e).

Definition execute_post (o : outside) (headers : HeaderMap) (body : string) (tier : Tier) (world : string)
    (e : Engine) : Phase * Engine :=
  let '(r, e) := append cfg (o_env o) world body (request_preconditions headers) tier e in
  (match r with
   | Err err => write_error_phase err
   | Ok outcome =>
       CommittedWrite {| status := 200; resp_headers := [("etag", etag_header (wr_etag outcome))];
                         resp_body := "" |}
   end, e).

(** ** Deletes: [handler/delete.rs], [engine_trace.rs] *)

Inductive DeleteStep := StepNone | AuditIntentFailed | Intent | PhysicalDeleted | NotifySent.

(** An operation on the core whose hooks store the last step. *)
Definition hooked (E A : Type) : Type := DeleteStep * Core -> result E A * (DeleteStep * Core).

#[global] Instance hooked_ret E : MRet (hooked E) := fun A a sc => (Ok a, sc).
#[global] Instance hooked_bind E : MBind (hooked E) := fun A B f m sc =>
  match m sc with (Ok a, sc) => f a sc | (Err e, sc) => (Err e, sc) end.

Definition unhooked {E A} (m : op E A) : hooked E A := fun '(step, c) =>
  let '(r, c) := m c in (r, (step, c)).

Definition store_step {E} (step : DeleteStep) : hooked E unit := fun '(_, c) => (Ok tt, (step, c)).

(** [perform_delete] with the calls of its hooks. *)
Definition perform_delete_hooked (env : Env) (world body_sha256 content_type : string)
    (headers : AuditHeaders) (usage : option StorageUsageSnapshot) : hooked DeleteError unit :=
  let job k := delete_job k world body_sha256 content_type headers in
  intent ← unhooked (fun c => let '(r, c) := append_ledger_event_and_notify cfg (ledger_intent env)
                                               (job DeleteIntent) c in
                              (map_err (AuditIntent world) r, c));
  _ ← store_step Intent;
  _ ← unhooked (modify count_ledger);
  _ ← unhooked (removal env world usage);
  _ ← store_step PhysicalDeleted;
  intent ← unhooked (lift (ok_or (DeleteInternalInvariant "ledger append returned non-delete-intent event")
                                 (as_delete_intent intent)));
  _ ← unhooked (modify (notify_with_aux (listen_replay_max cfg) VerbDelete (TargetEphemeral world) ""
                          {| aux_delete_ledger_event_id := Some (le_event_id intent);
                             aux_delete_subject := le_delete_subject intent |}));
  _ ← store_step NotifySent;
  unhooked (finish_delete cfg env (job DeleteCommit) (job DeleteCommitFailed)).

Definition delete_hooked (env : Env) (world : string) (req : DeleteRequest) : hooked DeleteError unit :=
  '(body_sha256, headers, usage) ← unhooked (delete_prepare cfg env world req);
  perform_delete_hooked env world body_sha256 (dq_content_type req) headers usage.

(** The hook that records a failed intent runs after the operation. *)
Definition audit_intent_failed (r : result DeleteError unit) (step : DeleteStep) : DeleteStep :=
  match r with Err (AuditIntent _ _) => AuditIntentFailed | _ => step end.

Definition delete_traced (env : Env) (world : string) (req : DeleteRequest) (tier : Tier) (e : Engine)
  : result EngineError unit * DeleteStep * Engine :=
  match (w ← map_err auth_to_engine (authorize_delete world tier);
         _ ← ensure_not_shutdown e;
         Ok w) with
  | Err err => (Err err, StepNone, e)
  | Ok w =>
      let '(r, (step, c)) := delete_hooked env w req (StepNone, en_core e) in
      (map_err delete_error_to_engine r, audit_intent_failed r step, with_core c e)
  end.

Definition after_intent (last_step : DeleteStep) (failed none : Phase) : Phase :=
  match last_step with
  | AuditIntentFailed => failed
  | StepNone => none
  | Intent => PhaseError (server_error "delete failed after audit intent") ReasonStorageWriteAudit
  | PhysicalDeleted | NotifySent =>
      PhaseError (server_error "delete succeeded but audit commit failed") ReasonStorageWriteAudit
  end.

Definition transient_delete_error_phase (last_step : DeleteStep) : Phase :=
  after_intent last_step (PhaseError storage_temporarily_unavailable ReasonStorageWriteAudit)
    (PhaseError storage_temporarily_unavailable ReasonStorageRead).

Definition insufficient_delete_error_phase (last_step : DeleteStep) : Phase :=
  after_intent last_step (PhaseError insufficient_storage ReasonStorageWriteAudit)
    (PhaseError insufficient_storage ReasonInsufficientStorage).

Definition storage_delete_error_phase (last_step : DeleteStep) : Phase :=
  after_intent last_step (PhaseError (server_error "storage failure") ReasonStorageWriteAudit)
    (PhaseError (server_error "storage failure") ReasonStorageRead).

Definition invariant_delete_error_phase (last_step : DeleteStep) : Phase :=
  after_intent last_step (PhaseError internal_error ReasonStorageWriteAudit)
    (PhaseError internal_error ReasonStorageRead).

Definition delete_error_phase (err : EngineError) (last_step : DeleteStep) : Phase :=
  match err with
  | EngineAppendOnly => PhaseError (forbidden "delete ledger is append-only") ReasonAppendOnly
  | EngineAuth gate =>
      PhaseError (unauthorized "delete requires token; system worlds need approve token") (ReasonAuth gate)
  | PreconditionFailed message => PhaseError (precondition_failed message) ReasonPreconditionFailed
  | NotFound => PhaseError not_found ReasonNotFound
  | TransientStorage | ShuttingDown => transient_delete_error_phase last_step
  | EngineInsufficientStorage => insufficient_delete_error_phase last_step
  | EngineStorage => storage_delete_error_phase last_step
  | InternalInvariant _ => invariant_delete_error_phase last_step
  | InvalidMetadata message => PhaseError (bad_request message) (ReasonPathInvalid message)
  | InvalidWorldName | EnginePayloadTooLarge _ | EngineQuotaExceeded _ _ _ | SubscriptionLimit =>
      PhaseError (server_error "unexpected delete error") ReasonStorageWriteAudit
  end.

Definition delete_request (headers : HeaderMap) : DeleteRequest :=
  {| dq_preconditions := request_preconditions headers;
     dq_content_type := default "" (header_str headers "content-type");
     dq_headers := request_meta_headers headers (persist_header_allowlist state)
                     (persist_header_user_deny state) |}.

Definition execute_delete (o : outside) (headers : HeaderMap) (tier : Tier) (world : string) (e : Engine)
  : Phase * Engine :=
  let '(r, last_step, e) := delete_traced (o_env o) world (delete_request headers) tier e in
  (match r with
   | Ok _ => CommittedWrite {| status := 204; resp_headers := []; resp_body := "" |}
   | Err err => delete_error_phase err last_step
   end, e).

(** ** Timeline reads: [handler/timeline.rs] *)

Definition seq_header_value (seq : Z) : string := value_or "invalid" (to_string seq).

Definition timeline_body_response (body : TimelineBody) (head : bool) : Response :=
  let address := tb_address body in
  let representation := tb_representation body in
  let hs := [("content-type", value_or "application/octet-stream" (stage_content_type representation));
             ("content-length", decimal_header_value (slen (stage_body representation)))] in
  let hs := apply_meta_headers (stage_headers representation) hs in
  let hs := hs ++ [("x-timeline-world", audit_header_value (ta_world address));
                   ("x-timeline-generation", audit_header_value (ta_gen address));
                   ("x-timeline-seq", seq_header_value (ta_seq address));
                   ("x-timeline-body-sha256", audit_header_value (ta_body_sha256 address));
                   ("x-timeline-hmac", audit_header_value (tb_hmac body))] in
  {| status := 200; resp_headers := to_header_map hs;
     resp_body := if head then "" else stage_body representation |}.

Definition timeline_expired_response (expired : VerifiedExpiredBody) (head : bool) : Response :=
  let address := ve_requested expired in
  let body := "timeline body expired" +:+ lf in
  {| status := 410;
     resp_headers := to_header_map
       [TEXT_PLAIN; ("content-length", decimal_header_value (slen body));
        ("x-timeline-world", audit_header_value (tc_world address));
        ("x-timeline-generation", audit_header_value (tc_gen address));
        ("x-timeline-seq", seq_header_value (tc_seq address));
        ("x-timeline-body-sha256", audit_header_value (tc_body_sha256 address));
        ("x-timeline-hmac", audit_header_value (ve_hmac expired));
        ("x-timeline-expired-content-type", audit_header_value (ve_content_type expired));
        ("x-timeline-expired-size", decimal_header_value (Z.max (ve_size expired) 0))];
     resp_body := if head then "" else body |}.

Definition timeline_non_body_response (proof : VerifiedNonBodyEvent) (head : bool) : Response :=
  let requested := nb_requested proof in
  let body := "timeline event has no body" +:+ lf in
  let hs := [TEXT_PLAIN; ("content-length", decimal_header_value (slen body));
             ("x-timeline-world", audit_header_value (tc_world requested));
             ("x-timeline-generation", audit_header_value (tc_gen requested));
             ("x-timeline-seq", seq_header_value (tc_seq requested));
             ("x-timeline-hmac", audit_header_value (nb_hmac proof));
             ("x-timeline-event-type", audit_header_value (nb_event_type proof));
             ("x-timeline-event-target", audit_header_value (nb_event_target proof));
             ("x-timeline-event-body-sha256", audit_header_value (nb_body_sha256 proof));
             ("x-timeline-event-size", decimal_header_value (Z.max (nb_size proof) 0));
             ("x-timeline-event-content-type", audit_header_value (nb_content_type proof))] in
  let hs := match nb_delete_subject proof with
            | Some subject =>
                hs ++ [("x-timeline-delete-subject-generation",
                        audit_header_value (ta_gen (ds_address subject)))]
            | None => hs
            end in
  {| status := 404; resp_headers := to_header_map hs; resp_body := if head then "" else body |}.

Definition timeline_head_response (resp : Response) (head : bool) : Response :=
  if head then without_body resp else resp.

Definition timeline_text_response (code : Z) (message : string) (head : bool) : Response :=
  let body := message +:+ lf in
  {| status := code;
     resp_headers := to_header_map [TEXT_PLAIN; ("content-length", decimal_header_value (slen body))];
     resp_body := if head then "" else body |}.

Definition timeline_error (code : Z) (message : string) (head : bool) (reason : ErrorReason) : Phase :=
  PhaseError (timeline_text_response code message head) reason.

Definition timeline_engine_error_phase (err : EngineError) (head : bool) : Phase :=
  let '(resp, reason) :=
    match err with
    | EngineAuth gate => (unauthorized "read requires read token", ReasonAuth gate)
    | TransientStorage | ShuttingDown => (storage_temporarily_unavailable, ReasonTimelineStorageRead)
    | EngineInsufficientStorage => (insufficient_storage, ReasonInsufficientStorage)
    | InvalidMetadata message => (bad_request message, ReasonTimelineStorageRead)
    | EngineStorage | InternalInvariant _ =>
        (server_error "timeline storage failure", ReasonTimelineStorageRead)
    | _ => (server_error "unexpected timeline read error", ReasonTimelineStorageRead)
    end in
  PhaseError (timeline_head_response resp head) reason.

Definition execute_timeline (o : outside) (coordinate : TimelineCoordinate) (tier : Tier) (head : bool)
    (e : Engine) : Phase :=
  match dereference_timeline_coordinate cfg tokens (o_join o) (o_read_fault o) coordinate tier e with
  | Err err => timeline_engine_error_phase err head
  | Ok (DerefBody body) => ExecutedRead (timeline_body_response body head)
  | Ok (DerefGenMismatch _ _) =>
      timeline_error 409 "timeline generation mismatch" head ReasonTimelineGenMismatch
  | Ok (DerefBodyHashMismatch _ _) =>
      timeline_error 409 "timeline body sha256 mismatch" head ReasonTimelineBodyHashMismatch
  | Ok (DerefNonBodyEvent non_body) =>
      PhaseError (timeline_non_body_response non_body head) ReasonTimelineNonBodyEvent
  | Ok (DerefExpired expired) =>
      PhaseError (timeline_expired_response expired head) ReasonTimelineExpired
  | Ok (DerefMissingRow _) =>
      timeline_error 404 "timeline row not found" head ReasonTimelineMissingRow
  | Ok (UnprovenCoordinate _) =>
      timeline_error 404 "timeline coordinate not proven" head ReasonTimelineUnprovenCoordinate
  | Ok (DerefCorrupt _ _) => timeline_error 500 "timeline corruption" head ReasonTimelineCorrupt
  end.

(** ** The driver: [pipeline.rs], [route.rs] *)

Definition execute (o : outside) (verb : Verb) (headers : HeaderMap) (body : string) (tier : Tier)
    (world : string) (e : Engine) : Phase * Engine :=
  match verb with
  | VerbGet => (execute_get o headers tier world e, e)
  | VerbHead => (execute_head o headers tier world e, e)
  | VerbPut => execute_put o headers body tier world e
  | VerbPost => execute_post o headers body tier world e
  | VerbDel => execute_delete o headers tier world e
  end.

(** One turn of the loop: the response it returns, or the next phase. *)
Definition turn (o : outside) (phase : Phase) (e : Engine) : (Response + Phase) * Engine :=
  match phase with
  | Received method path raw_query headers body =>
      (inr (authenticate method path raw_query headers body (access_tier_from_headers headers)), e)
  | Authenticated method path raw_query headers body tier =>
      (inr (validate_path method path raw_query headers body tier), e)
  | PathValidated method raw_query headers body tier world =>
      (inr (classify_timeline_request method raw_query headers body tier world), e)
  | Dispatched verb headers body tier world =>
      let '(phase, e) := execute o verb headers body tier world e in (inr phase, e)
  | TimelineDispatched verb coordinate tier =>
      (inr (execute_timeline o coordinate tier
              (match verb with TimelineHead => true | TimelineGet => false end) e), e)
  | ExecutedRead resp | CommittedWrite resp => (inr (Done resp), e)
  | Done resp => (inl resp, e)
  | PhaseError resp _ => (inl resp, e)
  end.

Fixpoint drive (fuel : nat) (o : outside) (phase : Phase) (e : Engine) : option Response * Engine :=
  match fuel with
  | O => (None, e)
  | S fuel =>
      match turn o phase e with
      | (inl resp, e) => (Some resp, e)
      | (inr phase, e) => drive fuel o phase e
      end
  end.

(** The loop of [run], with fuel. *)
Definition run (fuel : nat) (o : outside) (method : Method) (path : string) (raw_query : option string)
    (headers : HeaderMap) (body : string) (e : Engine) : option Response * Engine :=
  drive fuel o (Received method path raw_query headers body) e.

Definition world_handler (fuel : nat) (o : outside) (method : Method) (path : string)
    (raw_query : option string) (headers : HeaderMap) (body : string) (e : Engine)
  : option Response * Engine :=
  match method with
  | OPTIONS => (Some (options_response WORLD_ALLOW), e)
  | _ => run fuel o method path raw_query headers body e
  end.

(** ** The middleware: [middleware.rs], [state.rs] *)

Context `{HttpInsert}.

(** [fetch_add] on the 64-bit counter: the id, and the counter after it. *)
Definition next_request_id (counter : Z) : Z * Z :=
  let id := ((counter + 1) mod 2 ^ 64)%Z in (id, id).

Definition stamp_core_response_headers (request_id elapsed_us : Z) (headers : HeaderMap) : HeaderMap :=
  let headers := hm_insert headers "x-request-id" (value_or "0" (to_string request_id)) in
  let headers := hm_insert headers "x-elapsed-us" (value_or "0" (to_string elapsed_us)) in
  let headers := hm_insert headers "vary" "Authorization" in
  hm_insert headers "x-content-type-options" "nosniff".

(** [next] is the routed handler with the id in its extensions; the clock gives
    the time it took. *)
Definition add_server_response_headers {S} (next : Z -> S -> option Response * S) (elapsed_us : Z)
    (counter : Z) (s : S) : option Response * Z * S :=
  let '(request_id, counter) := next_request_id counter in
  let '(response, s) := next request_id s in
  ((fun r => {| status := status r;
                resp_headers := stamp_core_response_headers request_id elapsed_us (resp_headers r);
                resp_body := resp_body r |}) <$> response, counter, s).

(** A request to a world's route, through the middleware. *)
Definition serve_world (fuel : nat) (o : outside) (elapsed_us counter : Z) (method : Method)
    (path : string) (raw_query : option string) (headers : HeaderMap) (body : string) (e : Engine)
  : option Response * Z * Engine :=
  add_server_response_headers (fun _ => world_handler fuel o method path raw_query headers body)
    elapsed_us counter e.
End Server.
