(* ===== verification/HttpTheorems.v ===== *)
(** * The HTTP pipeline answers truthfully

    The driver returns, its answers say what happened to the store, HEAD is GET
    without its body, a range is inside the body, and a stored header never
    takes a name the server denies. *)

From S2P Require Import Prelude.
From S2P Require Import RustStr.
From S2P Require Import Path.
From S2P Require Import Auth.
From S2P Require Import Crypto.
From S2P Require Import Etag.
From S2P Require Import Types.
From S2P Require Import Db.
From S2P Require Import Cas.
From S2P Require Import AuditGates.
From S2P Require Import Timeline.
From S2P Require Import EventId.
From S2P Require Import CoreInv.
From S2P Require Import StorageClass.
From S2P Require Import Core.
From S2P Require Import WorldOps.
From S2P Require Import DeleteOps.
From S2P Require Import DeleteOpsProofs.
From S2P Require Import CoreTheorems.
From S2P Require Import EngineOps.
From S2P Require Import FacadeSpec.
From S2P Require Import EngineTheorems.
From S2P Require Import HttpResponse.
From S2P Require Import HttpSemantics.
From S2P Require Import HttpQuery.
From S2P Require Import HttpPipeline.

(** ** The driver in one step *)

(** Turns a phase is away from returning. *)
Definition rank (p : Phase) : nat :=
  match p with
  | Received _ _ _ _ _ => 5
  | Authenticated _ _ _ _ _ _ => 4
  | PathValidated _ _ _ _ _ _ => 3
  | Dispatched _ _ _ _ _ | TimelineDispatched _ _ _ => 2
  | ExecutedRead _ | CommittedWrite _ => 1
  | Done _ | PhaseError _ _ => 0
  end.

Definition final (p : Phase) : option Response :=
  match p with
  | ExecutedRead resp | CommittedWrite resp | Done resp | PhaseError resp _ => Some resp
  | _ => None
  end.

Section Driver.
Context `{Crypto} `{Rusqlite} `{HttpCrate} `{PercentEncoding} `{Base64}.
Context (cfg : Config) (tokens : Tokens) (state : ServerState).
Notation turn := (turn cfg tokens state).
Notation drive := (drive cfg tokens state).
Notation run := (run cfg tokens state).
Notation execute := (execute cfg tokens state).

Lemma read_error_rank err : rank (read_error_phase err) = 0%nat.
Proof. by destruct err. Qed.

Lemma write_error_rank err : rank (write_error_phase err) = 0%nat.
Proof. by destruct err. Qed.

Lemma delete_error_rank err step : rank (delete_error_phase err step) = 0%nat.
Proof. by destruct err, step. Qed.

Lemma execute_rank o verb h b tier w e : (rank (fst (execute o verb h b tier w e)) <= 1)%nat.
Proof.
  destruct verb; cbn.
  - unfold execute_get. repeat (case_match; try (cbn; lia)). rewrite read_error_rank. lia.
  - unfold execute_head. repeat (case_match; try (cbn; lia)). rewrite read_error_rank. lia.
  - unfold execute_put. destruct (replace _ _ _ _ _ _ _) as [[r|err] e1]; cbn; [done|].
    rewrite write_error_rank. lia.
  - unfold execute_post. destruct (append _ _ _ _ _ _ _) as [[r|err] e1]; cbn; [done|].
    rewrite write_error_rank. lia.
  - unfold execute_delete. destruct (HttpPipeline.delete_traced _ _ _ _ _ _) as [[[r|err] step] e1]; cbn; [done|].
    rewrite delete_error_rank. lia.
Qed.

Lemma execute_timeline_rank o c tier head e : (rank (execute_timeline cfg tokens o c tier head e) <= 1)%nat.
Proof.
  unfold execute_timeline. repeat (case_match; try (cbn; lia)).
  unfold timeline_engine_error_phase. case_match; cbn; lia.
Qed.

Lemma turn_rank o p e p' e' : turn o p e = (inr p', e') -> (rank p' < rank p)%nat.
Proof.
  destruct p; cbn; intros [= <- <-] || intros Ht; try done; try (cbn; lia).
  - unfold validate_path. repeat case_match; cbn; lia.
  - unfold classify_timeline_request, timeline_query_error, dispatch, dispatch_timeline.
    repeat case_match; cbn; lia.
  - pose proof (execute_rank o verb headers body tier world e) as Hr.
    destruct (execute _ _ _ _ _ _ e) as [p1 e1]. injection Ht as <- <-. cbn in Hr. lia.
  - pose proof (execute_timeline_rank o coordinate tier
      (match verb with TimelineHead => true | TimelineGet => false end) e). lia.
Qed.

Lemma drive_returns fuel o p e : (rank p < fuel)%nat -> exists resp e', drive fuel o p e = (Some resp, e').
Proof.
  revert p e. induction fuel as [|fuel IH]; intros p e Hf; [lia|]. cbn.
  destruct (turn o p e) as [[resp|p'] e'] eqn:Ht; [by eexists _, _|].
  apply IH. pose proof (turn_rank _ _ _ _ _ Ht). lia.
Qed.

Lemma drive_final fuel o p e :
  (rank p < fuel)%nat -> (rank p <= 1)%nat -> drive fuel o p e = (final p, e).
Proof.
  destruct fuel as [|[|fuel]]; intros Hf Hp; destruct p; cbn in *; try lia; done.
Qed.

(** What becomes of a classified phase. *)
Definition served (o : outside) (p : Phase) (e : Engine) : option Response * Engine :=
  match p with
  | Dispatched verb h b tier w =>
      let '(p, e) := execute o verb h b tier w e in (final p, e)
  | TimelineDispatched verb c tier =>
      (final (execute_timeline cfg tokens o c tier
                (match verb with TimelineHead => true | TimelineGet => false end) e), e)
  | p => (final p, e)
  end.

Lemma drive_served fuel o p e : (2 < fuel)%nat -> (rank p <= 2)%nat -> drive fuel o p e = served o p e.
Proof.
  intros Hf Hp. destruct p; try (cbn in Hp; lia); try (by apply drive_final; cbn; lia).
  - destruct fuel as [|fuel]; [lia|]. cbn. pose proof (execute_rank o verb headers body tier world e) as Hr.
    destruct (execute _ _ _ _ _ _ e) as [p1 e1]. cbn in Hr. apply drive_final; lia.
  - destruct fuel as [|fuel]; [lia|]. cbn. apply drive_final; pose proof (execute_timeline_rank o coordinate tier
      (match verb with TimelineHead => true | TimelineGet => false end) e); lia.
Qed.

Lemma classify_rank m q h b tier w : (rank (classify_timeline_request m q h b tier w) <= 2)%nat.
Proof.
  unfold classify_timeline_request, timeline_query_error, dispatch, dispatch_timeline.
  repeat case_match; cbn; lia.
Qed.

Lemma run_eq fuel o m path q h b e :
  (6 <= fuel)%nat ->
  run fuel o m path q h b e =
  match from_canonical (canonicalize_path path) with
  | Ok w => served o (classify_timeline_request m q h b (access_tier_from_headers tokens h) w) e
  | Err _ => (final (validate_path m path q h b (access_tier_from_headers tokens h)), e)
  end.
Proof.
  intros Hf. do 3 (destruct fuel as [|fuel]; [lia|]). unfold run. cbn [HttpPipeline.drive HttpPipeline.turn].
  unfold authenticate. cbn [HttpPipeline.turn]. unfold validate_path.
  destruct (from_canonical (canonicalize_path path)) as [w|err] eqn:Ew.
  - destruct (from_canonical_valid _ _ Ew) as [-> Hw]. apply valid_world_iff in Hw as [-> _].
    cbn [HttpPipeline.turn]. apply drive_served; [lia|apply classify_rank].
  - by destruct (validate_world_name _).
Qed.
End Driver.

(** ** Reads *)

Section Reads.
Context `{Crypto} `{Rusqlite} `{HttpLaws} `{PercentEncoding} `{Base64}.
Context (cfg : Config) (tokens : Tokens) (state : ServerState).

Lemma links_named w p : p ∈ apply_world_links w [] -> fst p = "link".
Proof.
  unfold apply_world_links. destruct (value_from_str _); cbn [app]; rewrite ?elem_of_cons, elem_of_nil; naive_solver.
Qed.

Lemma filter_keeps_all {A} (P : A -> Prop) `{forall x, Decision (P x)} (l : list A) :
  (forall x, x ∈ l -> P x) -> filter P l = l.
Proof.
  induction l as [|x l IH]; intros Hl; [done|]. rewrite filter_cons_True by (apply Hl; by left).
  f_equal. apply IH. intros y Hy. apply Hl. by right.
Qed.

Lemma drop_content_length w hs a b c d :
  filter (fun p => fst p <> "content-length")
    (apply_meta_headers hs (apply_world_links w [("content-type", a); ("content-length", b);
                                                 ("accept-ranges", c); ("etag", d)]))
  = apply_meta_headers hs (apply_world_links w [("content-type", a); ("accept-ranges", c); ("etag", d)]).
Proof.
  rewrite !(apply_meta_headers_app hs (apply_world_links _ _)), !(apply_world_links_app w [_; _; _; _]),
    (apply_world_links_app w [_; _; _]). rewrite !filter_app, !filter_cons.
  cbn [fst]. rewrite filter_nil.
  rewrite (decide_True _ _ (P := "content-type" <> "content-length")) by done.
  rewrite (decide_False _ _ (P := "content-length" <> "content-length")) by naive_solver.
  rewrite (decide_True _ _ (P := "accept-ranges" <> "content-length")) by done.
  rewrite (decide_True _ _ (P := "etag" <> "content-length")) by done.
  f_equal; [f_equal|]; apply filter_keeps_all.
  - intros p Hp. by rewrite (links_named w p Hp).
  - intros [n v] Hp Hn. cbn in Hn. subst n. by apply apply_meta_headers_allowed in Hp.
Qed.

Lemma content_length_anywhere w hs a b c d :
  apply_meta_headers hs (apply_world_links w [("content-type", a); ("content-length", b);
                                              ("accept-ranges", c); ("etag", d)])
  ≡ₚ apply_meta_headers hs (apply_world_links w [("content-type", a); ("accept-ranges", c); ("etag", d)])
     ++ [("content-length", b)].
Proof.
  rewrite !(apply_meta_headers_app hs (apply_world_links _ _)), (apply_world_links_app w [_; _; _; _]),
    (apply_world_links_app w [_; _; _]). rewrite <- !app_assoc. cbn. apply Permutation_skip.
  solve_Permutation.
Qed.

Lemma substring_split n m s :
  (n + m <= String.length s)%nat ->
  exists pre post, s = pre +:+ String.substring n m s +:+ post
    /\ String.length pre = n /\ String.length (String.substring n m s) = m.
Proof.
  revert n m. induction s as [|c s IH]; intros n m Hl; cbn in Hl.
  { assert (n = 0 /\ m = 0)%nat as [-> ->] by lia. by exists "", "". }
  destruct n as [|n].
  - destruct m as [|m]; [by exists "", (String c s)|].
    destruct (IH 0%nat m) as (pre & post & E & Hp & Hs); [lia|]. destruct pre; [|done].
    exists "", post. split_and!; [|done|cbn; lia]. exact (f_equal (String c) E).
  - destruct (IH n m) as (pre & post & E & Hp & Hs); [lia|].
    exists (String c pre), post. split_and!; [exact (f_equal (String c) E)|cbn; lia|done].
Qed.

Lemma slice_inside body s e :
  (0 <= s <= e)%Z -> (e < slen body)%Z ->
  exists pre post, body = pre +:+ slice body s e +:+ post /\ slen pre = s /\ slen (slice body s e) = (e - s + 1)%Z.
Proof.
  unfold slice, slen. intros Hs He.
  destruct (substring_split (Z.to_nat s) (Z.to_nat (e - s + 1)) body) as (pre & post & E & Hp & Hl); [lia|].
  exists pre, post. split_and!; [done|lia|lia].
Qed.

(** A pair of outcomes of GET and HEAD. *)
Definition same_head (pg ph : Phase) : Prop :=
  exists rg rh, final pg = Some rg /\ final ph = Some rh /\ status rh = status rg
    /\ resp_headers rh ≡ₚ resp_headers rg /\ ((status rg < 400)%Z -> resp_body rh = "").

Lemma same_head_error resp reason : (400 <= status resp)%Z -> same_head (PhaseError resp reason) (PhaseError resp reason).
Proof. intros Hs. exists resp, resp. split_and!; try done. lia. Qed.

Lemma same_head_without resp reason :
  same_head (PhaseError resp reason) (PhaseError (without_body resp) reason).
Proof. by exists resp, (without_body resp). Qed.

Lemma execute_same_head o h tier w e :
  same_head (execute_get cfg tokens o h tier w e) (execute_head cfg tokens o h tier w e).
Proof.
  unfold execute_get, execute_head.
  destruct (read _ _ _ _ _ _ _) as [[r|]|err].
  2: { by apply same_head_error. }
  2: { destruct err; by apply same_head_error. }
  destruct (read_not_modified h (rd_etag r)); [by eexists _, _|].
  set (len := slen (re_body (rd_representation r))).
  destruct (effective_range h len (rd_etag r)) as [[[s e1]|]|[]] eqn:Hr.
  3: { by apply same_head_error. }
  - apply effective_range_inside in Hr as [Hs He]; [|apply slen_nonneg].
    destruct (slice_inside _ _ _ Hs He) as (pre & post & _ & _ & Hl).
    eexists _, _. split_and!; [done..|cbn|done]. rewrite drop_content_length, !to_header_map_entries, Hl. done.
  - eexists _, _. split_and!; [done..|cbn|done]. by rewrite !to_header_map_entries, content_length_anywhere.
Qed.

Lemma timeline_same_head o c tier e :
  same_head (execute_timeline cfg tokens o c tier false e) (execute_timeline cfg tokens o c tier true e).
Proof.
  unfold execute_timeline. destruct (dereference_timeline_coordinate _ _ _ _ _ _ _) as [d|err].
  - destruct d; by eexists _, _.
  - unfold timeline_engine_error_phase. case_match; apply same_head_without.
Qed.
End Reads.

(** ** Where a response's headers come from *)

Section Origin.
Context `{Crypto} `{Rusqlite} `{HttpLaws} `{PercentEncoding} `{Base64}.
Context (cfg : Config) (tokens : Tokens) (state : ServerState).

(** What may be shown of the headers stored with a representation. *)
Definition shown (stored : list (string * string)) : list (string * string) :=
  omap (fun '(k, v) =>
          if is_never_persisted_header (to_ascii_lowercase k) then None
          else name ← name_from_bytes k; value ← value_from_str v; Some (name, value)) stored.

Lemma shown_meta stored : apply_meta_headers stored [] = shown stored.
Proof.
  induction stored as [|[k v] stored IH]; [done|]. cbn. destruct (is_never_persisted_header _); [done|].
  destruct (name_from_bytes k), (value_from_str v); cbn; try done. rewrite apply_meta_headers_app. by rewrite IH.
Qed.

Lemma shown_allowed stored name value : (name, value) ∈ shown stored -> is_never_persisted_header name = false.
Proof. rewrite <- shown_meta. apply apply_meta_headers_allowed. Qed.

(** What the server itself says of a world with this content type, tag and length
    of body, and whether the stored headers are shown beside it. *)
Definition said_of_world (h : HeaderMap) (w content_type tag : string) (len : Z)
  : list (string * string) * bool :=
  let said := [("content-type", value_or "application/octet-stream" content_type);
               ("accept-ranges", "bytes"); ("etag", etag_header tag)] ++ apply_world_links w [] in
  if read_not_modified h tag then (said, true)
  else match effective_range h len tag with
       | Ok (Some (s, t)) => (said ++ [("content-length", decimal_header_value (t - s + 1));
                                       ("content-range", content_range_value s t len)], true)
       | Ok None => (said ++ [("content-length", decimal_header_value len)], true)
       | Err _ => ([TEXT_PLAIN; ("accept-ranges", "bytes"); ("content-range", unsatisfied_range_value len)], false)
       end.

(** Of a body of the timeline: the address and the HMAC of its row. *)
Definition said_of_body (address : TimelineAddress) (hmac content_type : string) (len : Z)
  : list (string * string) :=
  [("content-type", value_or "application/octet-stream" content_type);
   ("content-length", decimal_header_value len);
   ("x-timeline-world", audit_header_value (ta_world address));
   ("x-timeline-generation", audit_header_value (ta_gen address));
   ("x-timeline-seq", seq_header_value (ta_seq address));
   ("x-timeline-body-sha256", audit_header_value (ta_body_sha256 address));
   ("x-timeline-hmac", audit_header_value hmac)].

(** What a read that found something says itself, and the stored headers it may
    show; a row without a body, or whose body has expired, has none. *)
Definition found (o : outside) (m : Method) (path : string) (q : option string) (h : HeaderMap) (e : Engine)
  : option (list (string * string) * list (string * string)) :=
  let tier := access_tier_from_headers tokens h in
  match m, from_canonical (canonicalize_path path) with
  | (GET | HEAD), Ok w =>
      match classify_raw_query q w with
      | Ok Current =>
          match read cfg tokens (o_join o) (o_read_fault o) w tier e with
          | Ok (Some r) =>
              let stage := rd_representation r in
              let '(said, shows) := said_of_world h w (re_content_type stage) (rd_etag r) (slen (re_body stage)) in
              Some (said, if shows then re_headers stage else [])
          | _ => None
          end
      | Ok (Timeline c) =>
          match dereference_timeline_coordinate cfg tokens (o_join o) (o_read_fault o) c tier e with
          | Ok (DerefBody body) =>
              let stage := tb_representation body in
              Some (said_of_body (tb_address body) (tb_hmac body) (stage_content_type stage)
                      (slen (stage_body stage)), stage_headers stage)
          | Ok (DerefNonBodyEvent row) => Some (resp_headers (timeline_non_body_response row false), [])
          | Ok (DerefExpired row) => Some (resp_headers (timeline_expired_response row false), [])
          | _ => None
          end
      | Err _ => None
      end
  | _, _ => None
  end.

(** The tag of the write a request made. *)
Definition write_tag (o : outside) (m : Method) (path : string) (h : HeaderMap) (b : string) (e : Engine)
  : option string :=
  let tier := access_tier_from_headers tokens h in
  let w := canonicalize_path path in
  let tag r := match r with Ok outcome => Some (wr_etag outcome) | Err _ => None end in
  match m with
  | PUT => tag (fst (replace cfg (o_env o) w (request_representation state h b) (request_preconditions h) tier e))
  | POST => tag (fst (append cfg (o_env o) w b (request_preconditions h) tier e))
  | _ => None
  end.

(** The headers of every other response, with their values. *)
Inductive plain (tag : option string) : string * string -> Prop :=
| plain_text : plain tag TEXT_PLAIN
| plain_length n : plain tag ("content-length", decimal_header_value n)
| plain_empty : plain tag ("content-length", "0")
| plain_allow a : a = WORLD_ALLOW \/ a = TIMELINE_ALLOW -> plain tag ("allow", a)
| plain_realm : plain tag ("www-authenticate", "Bearer realm=" +:+ quoted "auditedb")
| plain_retry : plain tag ("retry-after", "1")
| plain_usage n : plain tag ("x-storage-usage", decimal_header_value n)
| plain_quota n : plain tag ("x-storage-quota", decimal_header_value n)
| plain_needed n : plain tag ("x-storage-needed", decimal_header_value n)
| plain_location w : plain tag ("location", value_or "/" (world_url w))
| plain_etag t : tag = Some t -> plain tag ("etag", etag_header t).

(** Headers up to order. *)
Definition plain_phase (tag : option string) (p : Phase) : Prop :=
  forall resp, final p = Some resp -> Forall (plain tag) (resp_headers resp).

Lemma plain_map tag l : Forall (plain tag) l -> Forall (plain tag) (to_header_map l).
Proof. by rewrite to_header_map_entries. Qed.

#[local] Hint Constructors plain : plain.
#[local] Hint Resolve plain_map : plain.

Ltac plain_list :=
  repeat first [apply plain_map | apply Forall_cons; split; [solve [eauto with plain]|] | apply Forall_nil_2].

Ltac plainly :=
  let r := fresh "r" in let E := fresh "E" in intros r E; cbn in E; injection E as <-; cbn; plain_list.

Lemma plain_read_error tag err : plain_phase tag (read_error_phase err).
Proof. destruct err; plainly. Qed.

Lemma plain_write_error tag err : plain_phase tag (write_error_phase err).
Proof. destruct err; plainly. Qed.

Lemma plain_delete_error tag err step : plain_phase tag (delete_error_phase err step).
Proof. destruct err, step; plainly. Qed.

Lemma plain_timeline_error tag err head : plain_phase tag (timeline_engine_error_phase err head).
Proof. destruct err, head; plainly. Qed.

Lemma plain_refusal tag a : a = WORLD_ALLOW \/ a = TIMELINE_ALLOW -> Forall (plain tag) [TEXT_PLAIN; ("allow", a)].
Proof. intros Ha. plain_list. Qed.

(** What a response must look like, given what was found. *)
Definition accounted (tag : option string) (parts : option (list (string * string) * list (string * string)))
    (hm : HeaderMap) : Prop :=
  match parts with
  | Some (said, stored) => hm ≡ₚ said ++ shown stored
  | None => Forall (plain tag) hm
  end.

Lemma nothing_stored tag said : accounted tag (Some (said, [])) said.
Proof. unfold accounted. cbn. by rewrite app_nil_r. Qed.

Lemma world_accounted o h w tier e r tag resp :
  read cfg tokens (o_join o) (o_read_fault o) w tier e = Ok (Some r) ->
  final (execute_get cfg tokens o h tier w e) = Some resp ->
  let stage := rd_representation r in
  let '(said, shows) := said_of_world h w (re_content_type stage) (rd_etag r) (slen (re_body stage)) in
  accounted tag (Some (said, if shows then re_headers stage else [])) (resp_headers resp).
Proof.
  intros Hr. unfold execute_get, said_of_world. rewrite Hr. cbn zeta.
  destruct (read_not_modified h (rd_etag r)).
  { intros [= <-]. cbn. rewrite to_header_map_entries, apply_meta_headers_app, apply_world_links_app, shown_meta.
    solve_Permutation. }
  destruct (effective_range _ _ _) as [[[s t]|]|[]] eqn:Hrange; intros [= <-]; cbn.
  - apply effective_range_inside in Hrange as [Hs Ht]; [|apply slen_nonneg].
    destruct (slice_inside _ _ _ Hs Ht) as (pre & post & _ & _ & Hl).
    rewrite to_header_map_entries, apply_meta_headers_app, apply_world_links_app, shown_meta, Hl. solve_Permutation.
  - rewrite to_header_map_entries, apply_meta_headers_app, apply_world_links_app, shown_meta. solve_Permutation.
  - by rewrite to_header_map_entries.
Qed.

Lemma body_headers_accounted tag body head :
  let stage := tb_representation body in
  accounted tag (Some (said_of_body (tb_address body) (tb_hmac body) (stage_content_type stage)
                         (slen (stage_body stage)), stage_headers stage))
    (resp_headers (timeline_body_response body head)).
Proof.
  unfold accounted, said_of_body. cbn. rewrite to_header_map_entries, apply_meta_headers_app, shown_meta.
  solve_Permutation.
Qed.

Notation accounts o m path q h b e resp :=
  (accounted (write_tag o m path h b e) (found o m path q h e) (resp_headers resp)).

(** Every response of the pipeline. *)
Lemma timeline_accounted o m path w q h b e c head resp :
  from_canonical (canonicalize_path path) = Ok w -> classify_raw_query q w = Ok (Timeline c) ->
  m = GET \/ m = HEAD ->
  final (execute_timeline cfg tokens o c (access_tier_from_headers tokens h) head e) = Some resp ->
  accounts o m path q h b e resp.
Proof.
  intros Hw Hq Hm. unfold execute_timeline, found. rewrite Hw, Hq.
  assert (write_tag o m path h b e = None) as -> by (by destruct Hm as [-> | ->]).
  destruct (dereference_timeline_coordinate _ _ _ _ _ _ _) as [d|err] eqn:Hd.
  - destruct d; intros [= <-]; destruct Hm as [-> | ->]; cbn -[accounted timeline_body_response];
      first [apply body_headers_accounted | apply nothing_stored | plain_list].
  - intros Hf. destruct Hm as [-> | ->]; by eapply plain_timeline_error.
Qed.

Lemma world_served o m path w q h b e resp :
  from_canonical (canonicalize_path path) = Ok w -> classify_raw_query q w = Ok Current ->
  fst (served cfg tokens state o (dispatch m h b (access_tier_from_headers tokens h) w) e) = Some resp ->
  accounts o m path q h b e resp.
Proof.
  intros Hw Hq. pose proof (from_canonical_valid _ _ Hw) as [Ew _]. unfold found. rewrite Hw, Hq.
  assert (forall rg, final (execute_get cfg tokens o h (access_tier_from_headers tokens h) w e) = Some rg ->
    accounted None
      (match read cfg tokens (o_join o) (o_read_fault o) w (access_tier_from_headers tokens h) e with
       | Ok (Some r) =>
           let stage := rd_representation r in
           let '(said, shows) := said_of_world h w (re_content_type stage) (rd_etag r) (slen (re_body stage)) in
           Some (said, if shows then re_headers stage else [])
       | _ => None
       end) (resp_headers rg)) as Hget.
  { intros rg Hg. destruct (read _ _ _ _ _ _ _) as [[r|]|err] eqn:Hr.
    - pose proof (world_accounted o h w _ e r None rg Hr Hg) as Ha. cbn zeta in *. by destruct (said_of_world _ _ _ _ _).
    - unfold execute_get in Hg. rewrite Hr in Hg. revert rg Hg. plainly.
    - unfold execute_get in Hg. rewrite Hr in Hg. by eapply plain_read_error. }
  destruct m; cbn [dispatch served fst].
  - apply Hget.
  - destruct (execute_same_head cfg tokens o h (access_tier_from_headers tokens h) w e)
      as (rg & rh & Hg & Hh & _ & Hp & _). cbn [execute fst snd]. rewrite Hh. intros [= <-].
    specialize (Hget rg Hg). unfold accounted in *. destruct (match read _ _ _ _ _ _ _ with Ok _ => _ | Err _ => _ end)
      as [[]|]; by rewrite Hp.
  - cbn [execute]. unfold execute_put, write_tag. rewrite Ew.
    destruct (replace _ _ _ _ _ _ _) as [[r|err] e1]; cbn [fst snd].
    + intros [= <-]. cbn. apply plain_map. destruct (wr_kind r); cbn; plain_list.
    + apply plain_write_error.
  - cbn [execute]. unfold execute_post, write_tag. rewrite Ew.
    destruct (append _ _ _ _ _ _ _) as [[r|err] e1]; cbn [fst snd].
    + intros [= <-]. cbn. plain_list.
    + apply plain_write_error.
  - cbn [execute]. unfold execute_delete. destruct (HttpPipeline.delete_traced _ _ _ _ _ _) as [[[r|err] step] e1];
      cbn [fst snd]; [|apply plain_delete_error]. intros [= <-]. apply Forall_nil_2.
  - intros [= <-]. cbn. plain_list.
  - intros [= <-]. cbn. plain_list.
Qed.
End Origin.

(** ** The middleware *)

(** The names the middleware stamps. *)
Definition stamped_names : list string :=
  ["x-request-id"; "x-elapsed-us"; "vary"; "x-content-type-options"].

Definition values_of (name : string) (hm : list (string * string)) : list string :=
  snd <$> filter (fun e => fst e = name) hm.

Lemma values_of_perm name hm hm' : hm ≡ₚ hm' -> values_of name hm ≡ₚ values_of name hm'.
Proof. intros Hp. unfold values_of. by rewrite Hp. Qed.

Lemma values_of_app name hm hm' : values_of name (hm ++ hm') = values_of name hm ++ values_of name hm'.
Proof. unfold values_of. by rewrite filter_app, fmap_app. Qed.

Lemma values_of_without name name' hm :
  values_of name' (filter (fun e => fst e <> name) hm) = if decide (name' = name) then [] else values_of name' hm.
Proof.
  unfold values_of. induction hm as [|[n v] hm IH]; [by case_decide|].
  destruct (decide (n = name)) as [->|Hn].
  - rewrite filter_cons_False by (cbn; tauto). rewrite IH. case_decide as Hd; [done|].
    by rewrite filter_cons_False by (cbn; congruence).
  - rewrite filter_cons_True by done. destruct (decide (n = name')) as [->|Hne].
    + rewrite !filter_cons_True by done. rewrite !fmap_cons, IH. by case_decide.
    + by rewrite !filter_cons_False by done.
Qed.

Lemma elem_values name value hm : (name, value) ∈ hm <-> value ∈ values_of name hm.
Proof.
  unfold values_of. rewrite list_elem_of_fmap. split.
  - intros Hin. exists (name, value). split; [done|]. by apply list_elem_of_filter.
  - intros ([n v] & -> & [Hn Hin]%list_elem_of_filter). cbn in *. by subst.
Qed.

Section Stamp.
Context `{HttpLaws} `{!HttpInsert} `{!HttpInsertLaws}.

Lemma insert_own hm name value : values_of name (hm_insert hm name value) = [value].
Proof.
  apply Permutation_singleton_r. rewrite (values_of_perm _ _ _ (hm_insert_entries hm name value)).
  rewrite values_of_app, values_of_without, decide_True by done. unfold values_of. cbn. by rewrite decide_True.
Qed.

Lemma insert_other hm name name' value :
  name' <> name -> values_of name' (hm_insert hm name value) ≡ₚ values_of name' hm.
Proof.
  intros Hne. rewrite (values_of_perm _ _ _ (hm_insert_entries hm name value)).
  rewrite values_of_app, values_of_without, decide_False by done. unfold values_of at 2. cbn.
  by rewrite decide_False, app_nil_r by done.
Qed.

Lemma digits_visible z : (0 <= z)%Z -> value_or "0" (to_string z) = to_string z.
Proof.
  intros Hz. unfold value_or. rewrite value_from_visible; [done|].
  eapply sall_impl; [|by apply to_string_digits]. intros c. unfold is_ascii_digit, in_range.
  rewrite !andb_true_iff, !Z.leb_le. lia.
Qed.

(** What [stamp_core_response_headers] leaves: one value each under its own
    names, the other names as they were. *)
Lemma stamped_values id us hm :
  (0 <= id)%Z -> (0 <= us)%Z ->
  let hm' := stamp_core_response_headers id us hm in
  values_of "x-request-id" hm' = [to_string id] /\ values_of "x-elapsed-us" hm' = [to_string us]
  /\ values_of "vary" hm' = ["Authorization"] /\ values_of "x-content-type-options" hm' = ["nosniff"]
  /\ forall name, name ∉ stamped_names -> values_of name hm' ≡ₚ values_of name hm.
Proof.
  intros Hid Hus. unfold stamp_core_response_headers, stamped_names. rewrite !digits_visible by done.
  split_and!.
  - apply Permutation_singleton_r. by rewrite !insert_other, insert_own by done.
  - apply Permutation_singleton_r. by rewrite !insert_other, insert_own by done.
  - apply Permutation_singleton_r. by rewrite insert_other, insert_own by done.
  - apply insert_own.
  - intros name Hn. rewrite !not_elem_of_cons in Hn. by rewrite !insert_other by tauto.
Qed.
End Stamp.

(** ** Theorems on reads and headers *)

Section ReadTheorems.
Context `{Crypto} `{Rusqlite} `{HttpLaws} `{PercentEncoding} `{Base64}.
Context (cfg : Config) (tokens : Tokens) (state : ServerState).
Notation world_handler := (world_handler cfg tokens state).

Lemma world_handler_returns fuel o m path q h b e :
  (6 <= fuel)%nat -> exists resp e', world_handler fuel o m path q h b e = (Some resp, e').
Proof.
  intros Hf. assert (exists resp e', run cfg tokens state fuel o m path q h b e = (Some resp, e')) as Hr.
  { apply drive_returns. cbn. lia. }
  destruct m; try exact Hr. by eexists _, _.
Qed.

(** C32: A HEAD request is answered like the GET request with the same path,
    query and headers, whatever the engine meets underneath: both return within
    six turns of the pipeline, neither changes the engine, the statuses are
    equal, the response headers are the same up to order, and the body of a
    successful HEAD is empty. *)
Theorem head_matches_get o path q h b e :
  exists rg rh,
    world_handler 6 o GET path q h b e = (Some rg, e) /\ world_handler 6 o HEAD path q h b e = (Some rh, e)
    /\ status rh = status rg /\ resp_headers rh ≡ₚ resp_headers rg
    /\ ((status rg < 400)%Z -> resp_body rh = "").
Proof.
  unfold HttpPipeline.world_handler. rewrite !run_eq by lia. set (tier := access_tier_from_headers tokens h).
  destruct (from_canonical (canonicalize_path path)) as [w|err] eqn:Ew.
  2: { unfold validate_path. destruct (validate_world_name _) as [u|reason]; cbn [final].
       - rewrite Ew. by eexists _, _.
       - by eexists _, _. }
  assert (forall pg ph, same_head pg ph -> exists rg rh, (final pg, e) = (Some rg, e) /\ (final ph, e) = (Some rh, e)
    /\ status rh = status rg /\ resp_headers rh ≡ₚ resp_headers rg
    /\ ((status rg < 400)%Z -> resp_body rh = "")) as Hsame.
  { intros pg ph (rg & rh & -> & -> & Hs). by exists rg, rh. }
  unfold classify_timeline_request. destruct (classify_raw_query q w) as [[|c]|err]; cbn.
  - apply Hsame, execute_same_head.
  - apply Hsame, timeline_same_head.
  - unfold timeline_query_error. destruct err; by eexists _, _.
Qed.

(** C33: A GET with a byte range.  For a readable world and a Range header (up to
    surrounding white space) of one of the forms [bytes=s-t], [bytes=s-] and
    [bytes=-n], with no If-Range and no matching If-None-Match: the answer is 206
    with exactly the bytes the range names of the stored body, which lie inside
    it, and with their positions and count in Content-Range and Content-Length;
    or 416 when the range names no byte. *)
Theorem get_range_exact o path h b e w r form :
  from_canonical (canonicalize_path path) = Ok w ->
  read cfg tokens (o_join o) (o_read_fault o) w (access_tier_from_headers tokens h) e = Ok (Some r) ->
  read_not_modified h (rd_etag r) = false -> header_str h "if-range" = None ->
  trim <$> header_str h "range" = Some (print_range form) -> range_usize form ->
  let body := re_body (rd_representation r) in
  exists resp, world_handler 6 o GET path None h b e = (Some resp, e)
    /\ match wanted form (slen body) with
       | Some (s, t) =>
           status resp = 206%Z /\ (0 <= s <= t)%Z /\ (t < slen body)%Z
           /\ (exists pre post, body = pre +:+ resp_body resp +:+ post /\ slen pre = s)
           /\ slen (resp_body resp) = (t - s + 1)%Z
           /\ ("content-length", to_string (slen (resp_body resp))) ∈ resp_headers resp
           /\ ("content-range", content_range_value s t (slen body)) ∈ resp_headers resp
       | None => status resp = 416%Z
       end.
Proof.
  intros Hw Hread Hmod Hif Hrange Hu body. cbn zeta.
  unfold HttpPipeline.world_handler. rewrite run_eq, Hw by lia.
  unfold classify_timeline_request, classify_raw_query, dispatch. cbn [served execute].
  unfold execute_get. rewrite Hread, Hmod. fold body.
  assert (effective_range h (slen body) (rd_etag r)
          = match wanted form (slen body) with Some p => Ok (Some p) | None => Err tt end) as Hr.
  { unfold effective_range. rewrite Hif. apply parse_range_print; [apply slen_nonneg|done|done]. }
  rewrite Hr. destruct (wanted form (slen body)) as [[s t]|]; [|by eexists].
  destruct (effective_range_inside _ _ _ _ _ (slen_nonneg body) Hr) as [Hs Ht].
  destruct (slice_inside body s t Hs Ht) as (pre & post & E & Hp & Hl).
  eexists. split; [done|]. cbn [status resp_body resp_headers]. do 3 (split; [done|]).
  split; [|split; [done|split]].
  - by exists pre, post.
  - rewrite to_header_map_entries. apply elem_of_app. right. by left.
  - rewrite to_header_map_entries. apply elem_of_app. right. right. by left.
Qed.

Lemma world_response_accounted o m path q h b e :
  exists resp e', world_handler 6 o m path q h b e = (Some resp, e')
    /\ accounted (write_tag cfg tokens state o m path h b e) (found cfg tokens o m path q h e) (resp_headers resp).
Proof.
  destruct (world_handler_returns 6 o m path q h b e) as (resp & e' & Hrun); [lia|].
  exists resp, e'. split; [done|].
  destruct (decide (m = OPTIONS)) as [->|Hm].
  { injection Hrun as <- _. repeat constructor. }
  assert (run cfg tokens state 6 o m path q h b e = (Some resp, e')) as Hgo by (by destruct m).
  clear Hrun. rewrite run_eq in Hgo by lia.
  destruct (from_canonical (canonicalize_path path)) as [w|err] eqn:Ew.
  - unfold classify_timeline_request in Hgo. destruct (classify_raw_query q w) as [[|c]|err] eqn:Eq.
    + eapply world_served; [done..|]. by rewrite Hgo.
    + destruct m; cbn in Hgo; try (by destruct Hm); injection Hgo as Hf _;
        first [eapply timeline_accounted; [done..|auto|done]
              | subst resp; apply plain_refusal; by right].
    + unfold found. rewrite Ew, Eq. unfold timeline_query_error in Hgo.
      destruct m; try (by destruct Hm); destruct err; cbn in Hgo; injection Hgo as <- _; repeat constructor.
  - assert (found cfg tokens o m path q h e = None) as -> by (unfold found; rewrite Ew; by destruct m).
    unfold validate_path in Hgo. rewrite Ew in Hgo.
    destruct (validate_world_name _); cbn in Hgo; injection Hgo as <- _; repeat constructor.
Qed.

(** C34: The header policy, middleware included.  Of the headers of a request,
    the representation written keeps only names that the hard deny and the
    operator's deny list let through and that the defaults or the operator's
    allow list name.  The response to any request carries exactly one request id,
    the one this request was given, one elapsed time, and the fixed [Vary] and
    [X-Content-Type-Options].  The rest of the response to a read that found
    something is what the server computes from the tag, the content type and the
    length of the body, or from the timeline row, and of the stored headers those
    whose name is not hard-denied; so a hard-denied name has exactly the values
    the server computed, and a credential, a cookie or a forged timeline proof in
    a stored row is not replayed.  Any other response has only headers with values
    the server computed, no stored one. *)
Theorem denied_headers_never_cross `{!HttpInsert} `{!HttpInsertLaws} o us n m path q h b e :
  (0 <= n)%Z -> (0 <= us)%Z ->
  (forall name value, (name, value) ∈ re_headers (request_representation state h b) ->
     is_never_persisted_header name = false
     /\ allow_matches (persist_header_user_deny state) name = false
     /\ (name ∈ DEFAULT_PERSIST_HEADERS \/ allow_matches (persist_header_allowlist state) name = true))
  /\ exists resp e', serve_world cfg tokens state 6 o us n m path q h b e
       = (Some resp, fst (next_request_id n), e')
     /\ values_of "x-request-id" (resp_headers resp) = [to_string (fst (next_request_id n))]
     /\ values_of "x-elapsed-us" (resp_headers resp) = [to_string us]
     /\ values_of "vary" (resp_headers resp) = ["Authorization"]
     /\ values_of "x-content-type-options" (resp_headers resp) = ["nosniff"]
     /\ match found cfg tokens o m path q h e with
        | Some (said, stored) =>
            forall name, name ∉ stamped_names ->
              values_of name (resp_headers resp) ≡ₚ values_of name said ++ values_of name (shown stored)
              /\ (is_never_persisted_header name = true -> values_of name (shown stored) = [])
        | None =>
            forall name value, (name, value) ∈ resp_headers resp ->
              name ∈ stamped_names \/ plain (write_tag cfg tokens state o m path h b e) (name, value)
        end.
Proof.
  intros Hn Hus. split.
  - intros name value Hp%request_meta_policy. unfold should_persist_for_storage, is_default_persisted_header in Hp.
    destruct (is_never_persisted_header name); [done|].
    destruct (allow_matches (persist_header_user_deny state) name); [done|].
    split; [done|]. split; [done|]. case_bool_decide; auto.
  - destruct (world_response_accounted o m path q h b e) as (resp & e' & Hrun & Hacc).
    unfold serve_world, add_server_response_headers, next_request_id. rewrite Hrun.
    eexists _, e'. split; [reflexivity|]. cbn [resp_headers fst].
    destruct (stamped_values ((n + 1) mod 2 ^ 64) us (resp_headers resp)) as (Hi & Ht & Hv & Hx & Hrest);
      [apply Z.mod_pos_bound; lia|done|].
    do 4 (split; [done|]). unfold accounted in Hacc.
    destruct (found cfg tokens o m path q h e) as [[said stored]|].
    + intros name Hs. split.
      * rewrite (Hrest name Hs), <- values_of_app. by apply values_of_perm.
      * intros Hden. destruct (values_of name (shown stored)) as [|v vs] eqn:Ev; [done|].
        assert ((name, v) ∈ shown stored) as Hin%shown_allowed by (apply elem_values; rewrite Ev; by left).
        congruence.
    + intros name value Hin. destruct (decide (name ∈ stamped_names)) as [|Hs]; [by left|]. right.
      rewrite Forall_forall in Hacc. apply Hacc, elem_values. rewrite <- (Hrest name Hs). by apply elem_values.
Qed.
End ReadTheorems.
