(* ===== verification/HttpWrites.v ===== *)
(** * HTTP writes and the store

    What the answer to a PUT, POST or DELETE says is what happened to the store
    of [FacadeSpec.v]; a PUT is read back by GET. *)

From S2P Require Import Prelude.
From S2P Require Import RustStr.
From S2P Require Import Path.
From S2P Require Import Auth.
From S2P Require Import Crypto.
From S2P Require Import Etag.
From S2P Require Import Types.
From S2P Require Import Db.
From S2P Require Import Cas.
From S2P Require Import AuditGates.
From S2P Require Import Timeline.
From S2P Require Import EventId.
From S2P Require Import CoreInv.
From S2P Require Import StorageClass.
From S2P Require Import Core.
From S2P Require Import WorldOps.
From S2P Require Import DeleteOps.
From S2P Require Import DeleteOpsProofs.
From S2P Require Import CoreTheorems.
From S2P Require Import EngineOps.
From S2P Require Import FacadeSpec.
From S2P Require Import EngineTheorems.
From S2P Require Import EngineDemo.
From S2P Require Import HttpResponse.
From S2P Require Import HttpSemantics.
From S2P Require Import HttpQuery.
From S2P Require Import HttpPipeline.
From S2P Require Import HttpTheorems.

(** ** The hooks of a delete *)

(** The steps after the removal. *)
Definition removed_step (s : DeleteStep) : bool :=
  match s with PhysicalDeleted | NotifySent => true | _ => false end.

Definition intent_step (s : DeleteStep) : bool := match s with Intent => true | _ => false end.

Definition removal_failed (e : DeleteError) : bool :=
  match e with DeleteFailedAfterIntent => true | _ => false end.

(** The last step tells the errors after the removal, and those of the removal,
    from the others. *)
Definition step_tells (s : DeleteStep) (e : DeleteError) : Prop :=
  removed_step s = after_removal e /\ intent_step s = removal_failed e.

Section Hooks.
Context `{Crypto} `{Rusqlite} (cfg : Config).

Lemma finish_delete_err env a b c err c' :
  finish_delete cfg env a b c = (Err err, c') -> err = AuditCommitFailed.
Proof.
  unfold finish_delete, mbind, op_bind, try, mret, op_ret, fail.
  destruct (append_ledger_event_and_notify cfg (ledger_commit env) a c) as [[] c1]; [done|].
  destruct (append_ledger_event_and_notify cfg (ledger_commit_failed env) b c1). by intros [= <- _].
Qed.

(** The hooks change nothing, and record whether the world was removed. *)
Lemma perform_delete_hooked_run env w sha ct hs usage c :
  let '(r, (step, c')) := perform_delete_hooked cfg env w sha ct hs usage (StepNone, c) in
  perform_delete cfg env w sha ct hs usage c = (r, c')
  /\ match r with Err err => step_tells (audit_intent_failed r step) err | Ok _ => True end.
Proof.
  unfold perform_delete_hooked, perform_delete, mbind, hooked_bind, op_bind, unhooked, store_step, modify, lift.
  destruct (append_ledger_event_and_notify cfg (ledger_intent env) _ c) as [[ev|err] c1]; cbn [map_err]; [|done].
  destruct (removal env w usage (count_ledger c1)) as [[u|err] c2] eqn:Hr.
  2: { by apply removal_err in Hr as ->. }
  destruct (as_delete_intent ev) as [ev'|]; cbn [ok_or]; [|done].
  destruct (finish_delete _ _ _ _ _) as [[u'|err] c3] eqn:Hf; [done|].
  apply finish_delete_err in Hf as ->. done.
Qed.

Lemma delete_hooked_run env w req c :
  (forall err c', delete_prepare cfg env w req c = (Err err, c') -> before_intent err = true) ->
  let '(r, (step, c')) := delete_hooked cfg env w req (StepNone, c) in
  DeleteOps.delete cfg env w req c = (r, c')
  /\ match r with Err err => step_tells (audit_intent_failed r step) err | Ok _ => True end.
Proof.
  intros Hprep. unfold delete_hooked, DeleteOps.delete, delete_blocking.
  unfold mbind, hooked_bind, op_bind, unhooked.
  destruct (delete_prepare cfg env w req c) as [[[[sha hs] usage]|err] c1] eqn:Hp.
  - apply perform_delete_hooked_run.
  - split; [done|]. specialize (Hprep _ _ eq_refl). by destruct err.
Qed.
End Hooks.

(** ** Answers *)

Definition gone_message : string :=
  "internal error: delete succeeded but audit commit failed" +:+ lf.

Definition undecided_message : string := "internal error: delete failed after audit intent" +:+ lf.

(** The response to a failed operation is an error. *)
Lemma write_error_status `{HttpCrate} err :
  exists resp reason, write_error_phase err = PhaseError resp reason /\ (400 <= status resp)%Z.
Proof. destruct err; by eexists _, _. Qed.

(** What the response to a failed delete says. *)
Definition says (resp : Response) (gone undecided : bool) : Prop :=
  (400 <= status resp)%Z /\ bool_decide (resp_body resp = gone_message) = gone
  /\ bool_decide (resp_body resp = undecided_message) = undecided.

Lemma says_neither resp :
  (400 <= status resp)%Z -> resp_body resp <> gone_message -> resp_body resp <> undecided_message ->
  says resp false false.
Proof. intros. split_and!; [done|by apply bool_decide_false..]. Qed.

Lemma delete_error_answer `{Rusqlite} err step :
  step_tells step err ->
  exists resp reason, delete_error_phase (delete_error_to_engine err) step = PhaseError resp reason
    /\ says resp (after_removal err) (removal_failed err).
Proof.
  intros [Hs Hi]. destruct (after_removal err) eqn:Ha; [|destruct (removal_failed err) eqn:Hf].
  - destruct err; try done; destruct step; try done; eexists _, _; (split; [done|split_and!; done]).
  - destruct err; try done; destruct step; try done; eexists _, _; (split; [done|split_and!; done]).
  - destruct (delete_error_to_engine err), step; try done; eexists _, _; (split; [done|]);
      (apply says_neither; [done|discriminate..]).
Qed.

Lemma engine_error_answer err :
  exists resp reason, delete_error_phase err StepNone = PhaseError resp reason /\ says resp false false.
Proof.
  destruct err; eexists _, _; (split; [done|]); (apply says_neither; [done|discriminate..]).
Qed.

Section Answers.
Context `{Crypto} `{Rusqlite} `{HttpCrate} `{PercentEncoding} `{Base64} (state : ServerState).

Definition success (resp : Response) : bool := (status resp <? 300)%Z.

(** The store's world [w] after a DELETE answered with an error, if a removal
    that fails leaves [left]. *)
Definition world_after_error (left : removal_outcome) (w : string) (resp : Response) (a : store)
    : world_view :=
  if bool_decide (resp_body resp = gone_message) then Absent
  else if bool_decide (resp_body resp = undecided_message) then
    match left with FileRemoved => if is_persistent w then Absent else worlds a w | _ => worlds a w end
  else worlds a w.

(** What the answer to a request about world [w] says of the store before and
    after it. *)
Definition answer_true (left : removal_outcome) (m : Method) (w : string) (h : HeaderMap) (b : string) (resp : Response)
    (a a' : store) : Prop :=
  match m with
  | PUT =>
      same_but [w] a a'
      /\ if success resp then
           down a = false
           /\ exists tag, ("etag", etag_header tag) ∈ resp_headers resp
             /\ accepts (request_preconditions h) (worlds a w)
             /\ worlds a' w = Present {| rd_representation := stored w (request_representation state h b);
                                         rd_etag := tag |}
         else worlds a' w = worlds a w
              \/ worlds a w = Absent /\ worlds a' w = Unreadable EngineStorage
  | POST =>
      if success resp then
        same_but [w] a a' /\ down a = false
        /\ exists old tag, ("etag", etag_header tag) ∈ resp_headers resp
             /\ accepts (request_preconditions h) (worlds a w) /\ worlds a w <> Absent
             /\ (forall r, worlds a w = Present r -> rd_representation r = old)
             /\ worlds a' w = Present {| rd_representation := extended old b; rd_etag := tag |}
      else same_but [] a a'
  | DELETE =>
      same_but [w; DELETE_LEDGER_WORLD] a a'
      /\ if success resp then down a = false /\ accepts (request_preconditions h) (worlds a w)
                              /\ worlds a w <> Absent /\ worlds a' w = Absent
         else worlds a' w = world_after_error left w resp a
  | _ => a' = a
  end.

(** A request refused before it reaches the engine. *)
Lemma answer_refused left m w h b resp a : says resp false false -> answer_true left m w h b resp a a.
Proof.
  intros (Hs & Hg & Hu). assert (success resp = false) as Hf by (unfold success; lia).
  destruct m; cbn; unfold world_after_error; rewrite ?Hf, ?Hg, ?Hu; try done. split; [done|by left].
Qed.
End Answers.

Arguments answer_true : simpl never.

(** An error response that left the store alone. *)
Ltac refuse :=
  eexists; split; [reflexivity|]; split; [done|];
  first [reflexivity | apply answer_refused, says_neither; [done|discriminate..]].

Section Truth.
Context `{CryptoLaws} `{RusqliteLaws} `{HttpLaws} `{PercentEncoding} `{Base64}.
Context (cfg : Config) (tokens : Tokens) (state : ServerState).
Hypothesis Hcfg : config_ok cfg.
Notation abstract := (abstract cfg).
Notation engine_inv := (engine_inv cfg).

Lemma put_answer o h b tier w e :
  engine_inv e -> env_ok (o_env o) -> disk_bounded (en_core e) -> valid_world w ->
  let '(p, e') := execute_put cfg state o h b tier w e in
  exists resp, final p = Some resp /\ engine_inv e'
    /\ answer_true state (removed (o_env o)) PUT w h b resp (abstract e) (abstract e').
Proof using All.
  intros Hinv Henv Hd Hw. unfold execute_put.
  pose proof (replace_refines cfg tokens Hcfg (o_env o) w (request_representation state h b)
    (request_preconditions h) tier e Hinv Henv Hd Hw) as Hrun.
  destruct (replace _ _ _ _ _ _ e) as [[r|err] e']; destruct Hrun as [Hinv' Hspec]; specialize (Hspec true).
  - eexists. split; [done|]. split; [done|]. inversion Hspec; subst.
    unfold answer_true, success. cbn [status resp_headers]. split; [done|].
    assert (((match wr_kind r with KindCreated => 201 | KindUpdated => 200 end) <? 300)%Z = true) as ->
      by (by destruct (wr_kind r)).
    split; [done|]. exists (wr_etag r). split_and!; [|done|done]. rewrite to_header_map_entries. by destruct (wr_kind r); left.
  - destruct (write_error_status err) as (resp & reason & -> & Hs). exists resp. split; [done|]. split; [done|].
    unfold answer_true. assert (success resp = false) as -> by (unfold success; lia).
    revert Hspec. generalize (abstract e) (abstract e'). intros a a' Hspec.
    inversion Hspec; subst; try (split; [done|by left]). split; [done|].
    match goal with Hor : _ \/ _ |- _ => destruct Hor as [?|(_ & ? & ?)] end; [by left|by right].
Qed.

Lemma post_answer o h b tier w e :
  engine_inv e -> env_ok (o_env o) -> disk_bounded (en_core e) -> valid_world w ->
  let '(p, e') := execute_post cfg o h b tier w e in
  exists resp, final p = Some resp /\ engine_inv e'
    /\ answer_true state (removed (o_env o)) POST w h b resp (abstract e) (abstract e').
Proof using All.
  intros Hinv Henv Hd Hw. unfold execute_post.
  pose proof (append_refines cfg tokens Hcfg (o_env o) w b (request_preconditions h) tier e Hinv Henv Hd Hw) as Hrun.
  destruct (append _ _ _ _ _ _ e) as [[r|err] e']; destruct Hrun as [Hinv' Hspec]; specialize (Hspec true).
  - eexists. split; [done|]. split; [done|]. inversion Hspec; subst. split; [done|]. split; [done|].
    exists old, (wr_etag r). split_and!; try done. by left.
  - destruct (write_error_status err) as (resp & reason & -> & Hs). exists resp. split; [done|]. split; [done|].
    unfold answer_true. assert (success resp = false) as -> by (unfold success; lia).
    revert Hspec. generalize (abstract e) (abstract e'). intros a a' Hspec.
    by inversion Hspec; subst.
Qed.

Lemma delete_answer o h b tier w e :
  engine_inv e -> env_ok (o_env o) -> valid_world w ->
  let '(p, e') := execute_delete cfg state o h tier w e in
  exists resp, final p = Some resp /\ engine_inv e'
    /\ answer_true state (removed (o_env o)) DELETE w h b resp (abstract e) (abstract e').
Proof using All.
  intros Hinv Henv Hw. unfold execute_delete, HttpPipeline.delete_traced, ensure_not_shutdown.
  assert (forall err, exists resp, final (delete_error_phase err StepNone) = Some resp /\ engine_inv e
    /\ answer_true state (removed (o_env o)) DELETE w h b resp (abstract e) (abstract e)) as Hrefused.
  { intros err. destruct (engine_error_answer err) as (resp & reason & -> & Hs). exists resp.
    split_and!; [done|done|]. by apply answer_refused. }
  destruct (authorize_delete w tier) as [v|denied] eqn:Ha; cbn [map_err mbind result_bind]; [|apply Hrefused].
  destruct (shutdown e) eqn:Hd; cbn [mbind result_bind]; [apply Hrefused|].
  destruct (delete_permit_ok _ _ _ Ha) as [-> HwL]. set (req := delete_request state h).
  pose proof (delete_hooked_run cfg (o_env o) w req (en_core e)) as Hhook.
  pose proof (delete_view cfg tokens Hcfg (o_env o) w req tier e Hinv Henv Hw Ha) as Hview.
  pose proof (delete_prepare_run cfg (o_env o) w req (en_core e) (proj1 Hinv) Hw) as Hprep.
  destruct (delete_hooked cfg (o_env o) w req (StepNone, en_core e)) as [r [step c]].
  destruct Hhook as [Hrun Hstep].
  { intros err c' Hp. rewrite Hp in Hprep. apply Hprep. }
  rewrite Hrun in Hview. destruct Hview as (Hinv' & Hsame & Hres). destruct r as [[]|err]; cbn [map_err].
  - eexists. do 3 (split; [done|]). split; [done|apply Hres].
  - destruct (delete_error_answer err _ Hstep) as (resp & reason & -> & Hs & Hg & Hu). exists resp.
    split; [done|]. split; [done|]. split; [done|]. unfold success.
    assert ((status resp <? 300)%Z = false) as -> by lia. rewrite Hres. unfold world_after_error.
    rewrite Hg, Hu. destruct err; try done. cbn. by destruct (removed (o_env o)), (is_persistent w).
Qed.

Notation world_handler := (world_handler cfg tokens state).
Notation observe := (observe cfg).

Lemma served_answer o m w q h b tier e :
  engine_inv e -> env_ok (o_env o) -> disk_bounded (en_core e) -> valid_world w ->
  let '(r, e') := served cfg tokens state o (classify_timeline_request m q h b tier w) e in
  exists resp, r = Some resp /\ engine_inv e' /\ answer_true state (removed (o_env o)) m w h b resp (abstract e) (abstract e').
Proof using All.
  intros Hinv Henv Hd Hw. unfold classify_timeline_request.
  destruct (classify_raw_query q w) as [[|c]|err].
  - destruct m; cbn; try refuse.
    + destruct (execute_same_head cfg tokens o h tier w e) as (rg & rh & -> & _). by exists rg.
    + destruct (execute_same_head cfg tokens o h tier w e) as (rg & rh & _ & -> & _). by exists rh.
    + pose proof (put_answer o h b tier w e Hinv Henv Hd Hw) as Ha.
      destruct (execute_put _ _ _ _ _ _ _ e) as [p e']. exact Ha.
    + pose proof (post_answer o h b tier w e Hinv Henv Hd Hw) as Ha.
      destruct (execute_post _ _ _ _ _ _ e) as [p e']. exact Ha.
    + pose proof (delete_answer o h b tier w e Hinv Henv Hw) as Ha.
      destruct (execute_delete _ _ _ _ _ _ e) as [p e']. exact Ha.
  - destruct m; cbn; try refuse.
    + destruct (timeline_same_head cfg tokens o c tier e) as (rg & rh & -> & _). by exists rg.
    + destruct (timeline_same_head cfg tokens o c tier e) as (rg & rh & _ & -> & _). by exists rh.
  - unfold timeline_query_error. destruct err, m; cbn; refuse.
Qed.

Lemma handler_answer o m path q h b e :
  engine_inv e -> env_ok (o_env o) -> disk_bounded (en_core e) ->
  exists resp e', world_handler 6 o m path q h b e = (Some resp, e') /\ engine_inv e'
    /\ answer_true state (removed (o_env o)) m (canonicalize_path path) h b resp (abstract e) (abstract e').
Proof using All.
  intros Hinv Henv Hd.
  enough (exists resp e', run cfg tokens state 6 o m path q h b e = (Some resp, e') /\ engine_inv e'
    /\ answer_true state (removed (o_env o)) m (canonicalize_path path) h b resp (abstract e) (abstract e')) as Hgo.
  { destruct m; try exact Hgo. by eexists _, _. }
  rewrite run_eq by lia. set (tier := access_tier_from_headers tokens h).
  destruct (from_canonical (canonicalize_path path)) as [w|err] eqn:Ew.
  - destruct (from_canonical_valid _ _ Ew) as [-> Hw].
    pose proof (served_answer o m (canonicalize_path path) q h b tier e Hinv Henv Hd Hw) as Ha.
    destruct (served _ _ _ _ _ e) as [r e']. destruct Ha as (resp & -> & Ha). by exists resp, e'.
  - unfold validate_path. destruct (validate_world_name _); cbn; rewrite ?Ew; cbn; eexists _, e;
      (split; [done|split; [done|]]); apply answer_refused, says_neither; done.
Qed.

(** C6: Every answer is true.  Whatever the request and the faults underneath,
    the pipeline returns within six turns and keeps the engine's invariant, and
    its answer says what happened to the store: a PUT answered with success left
    exactly the representation it sent, under the ETag it returned, and changed
    nothing else, and one answered with an error left the world as it was or, if
    it did not exist, unreadable; a POST answered with success extended the body
    that was there, and an error means no change; a DELETE answered with success
    removed the world, an error saying that the delete succeeded means the world
    is gone, one saying that it failed after the audit intent means the world is
    as it was unless the removal that failed took its database file, and any
    other error means it is as it was; every other request changes nothing. *)
Theorem http_answers_true o m path q h b e :
  engine_inv e -> env_ok (o_env o) -> disk_bounded (en_core e) ->
  exists resp e', world_handler 6 o m path q h b e = (Some resp, e') /\ engine_inv e'
    /\ answer_true state (removed (o_env o)) m (canonicalize_path path) h b resp (abstract e) (abstract e').
Proof using All.
  apply handler_answer.
Qed.

(** The stored form of what a PUT sends is what it sends. *)
Lemma stored_request w h b : stored w (request_representation state h b) = request_representation state h b.
Proof.
  unfold stored, request_representation. cbn. destruct (is_memory_world w); [done|].
  by rewrite request_meta_sorted.
Qed.

Lemma calm_read o w tier e r :
  engine_inv e -> calm o = true -> can_read tokens tier = true -> shutdown e = false ->
  worlds (abstract e) w = Present r ->
  read cfg tokens (o_join o) (o_read_fault o) w tier e = Ok (Some r).
Proof using All.
  intros Hinv Hcalm Hcan Hup Hp. pose proof (read_refines cfg tokens o w tier e Hinv) as Hs.
  rewrite Hcalm in Hs. remember (abstract e) as a eqn:Ea. assert (down a = false) as Hd by (by subst a).
  inversion Hs; subst; congruence.
Qed.

Lemma put_path o path q h b e resp e' :
  world_handler 6 o PUT path q h b e = (Some resp, e') -> success resp = true ->
  from_canonical (canonicalize_path path) = Ok (canonicalize_path path).
Proof.
  unfold HttpPipeline.world_handler. rewrite run_eq by lia.
  destruct (from_canonical (canonicalize_path path)) as [w|err] eqn:Ew.
  { by destruct (from_canonical_valid _ _ Ew) as [-> _]. }
  unfold validate_path. rewrite Ew. destruct (validate_world_name _); intros [= <- <-]; done.
Qed.

(** C7: What is PUT is what GET returns.  After a PUT answered with success, a
    GET of the same path by a caller who may read, with no range and no matching
    If-None-Match, and with nothing failing underneath, is answered 200 with
    exactly the bytes sent, the content type sent (or the default), the ETag the
    PUT returned, and the request headers that the policy stores. *)
Theorem put_then_get o o' path q h b h' b' e resp e' :
  engine_inv e -> env_ok (o_env o) -> disk_bounded (en_core e) ->
  world_handler 6 o PUT path q h b e = (Some resp, e') -> success resp = true ->
  calm o' = true -> can_read tokens (access_tier_from_headers tokens h') = true ->
  header_str h' "range" = None -> header_str h' "if-none-match" = None ->
  exists tag resp',
    world_handler 6 o' GET path None h' b' e' = (Some resp', e')
    /\ ("etag", etag_header tag) ∈ resp_headers resp
    /\ status resp' = 200%Z /\ resp_body resp' = b
    /\ resp_headers resp' ≡ₚ
         [("content-type", value_or "application/octet-stream" (request_content_type h));
          ("accept-ranges", "bytes"); ("etag", etag_header tag);
          ("content-length", to_string (slen b))]
         ++ apply_world_links (canonicalize_path path) []
         ++ apply_meta_headers (re_headers (request_representation state h b)) [].
Proof using All.
  intros Hinv Henv Hd Hput Hok Hcalm Hread Hrange Hnone.
  destruct (handler_answer o PUT path q h b e Hinv Henv Hd) as (resp0 & e0 & Hrun & Hinv' & Hans).
  rewrite Hput in Hrun. injection Hrun as <- <-. unfold answer_true in Hans. rewrite Hok in Hans.
  destruct Hans as ([Hdown _] & Hup & tag & Htag & _ & Hpresent). rewrite stored_request in Hpresent.
  rewrite Hup in Hdown.
  pose proof (put_path o path q h b e resp e' Hput Hok) as Hw.
  pose proof (calm_read o' (canonicalize_path path) _ e' _ Hinv' Hcalm Hread Hdown Hpresent) as Hr.
  exists tag. unfold HttpPipeline.world_handler. rewrite run_eq, Hw by lia.
  unfold classify_timeline_request, classify_raw_query, dispatch. cbn [served execute].
  unfold execute_get. rewrite Hr. cbn [rd_etag rd_representation].
  unfold read_not_modified. rewrite Hnone. cbn [default fmap option_fmap option_map].
  assert (forall len, effective_range h' len tag = Ok None) as Hrng.
  { intros len. unfold effective_range, parse_range. rewrite Hrange. repeat case_match; done. }
  rewrite Hrng. eexists. do 4 (split; [done|]). cbn [resp_headers request_representation re_headers re_content_type re_body].
  rewrite to_header_map_entries, apply_meta_headers_app, apply_world_links_app. solve_Permutation.
Qed.
End Truth.
