(* ===== verification/HttpDemo.v ===== *)
(** * The HTTP theorems on concrete requests

    A server over the engine of [EngineDemo.v] and a concrete header library. *)

From S2P Require Import Prelude.
From S2P Require Import RustStr.
From S2P Require Import Path.
From S2P Require Import Auth.
From S2P Require Import Crypto.
From S2P Require Import Etag.
From S2P Require Import StorageClass.
From S2P Require Import Core.
From S2P Require Import CoreInv.
From S2P Require Import CoreTheorems.
From S2P Require Import EngineOps.
From S2P Require Import FacadeSpec.
From S2P Require Import EngineTheorems.
From S2P Require Import EngineDemo.
From S2P Require Import HttpResponse.
From S2P Require Import HttpSemantics.
From S2P Require Import HttpQuery.
From S2P Require Import HttpPipeline.
From S2P Require Import HttpTheorems.
From S2P Require Import HttpWrites.

Fixpoint first_value (hm : HeaderMap) (name : string) : option string :=
  match hm with
  | [] => None
  | (k, v) :: rest => if bool_decide (k = name) then Some v else first_value rest name
  end.

Definition visible (s : string) : option string := if sall (in_range 32 126) s then Some s else None.

#[global] Instance demo_http : HttpCrate := {|
  hm_get := first_value;
  hm_append hm k v := hm ++ [(k, v)];
  value_to_str := visible;
  value_from_str := visible;
  name_from_bytes k := Some (to_ascii_lowercase k);
|}.

#[global] Instance demo_http_laws : HttpLaws.
Proof.
  split; cbn.
  - done.
  - intros s v. unfold visible. by destruct (sall _ s); intros [= <-].
  - by intros k name [= <-].
Qed.

#[global] Instance demo_insert : HttpInsert :=
  {| hm_insert hm k v := filter (fun e => fst e <> k) hm ++ [(k, v)] |}.

#[global] Instance demo_insert_laws : HttpInsertLaws.
Proof. split; cbn; [done|]. intros s Hs. unfold visible. by rewrite Hs. Qed.

#[global] Instance demo_base64 : Base64 := {| b64_decode := fun _ => None |}.

Definition demo_server : ServerState :=
  {| persist_header_allowlist := HeaderAllowlist_parse "x-*, Cookie";
     persist_header_user_deny := HeaderAllowlist_parse "cache-control" |}.

Definition web_tokens : Tokens := {| tok_read := None; tok_write := Some "w"; tok_approve := Some "a" |}.

Definition put_headers : HeaderMap :=
  [("authorization", "Bearer w"); ("content-type", "text/plain"); ("cookie", "secret");
   ("x-author", "me"); ("cache-control", "no-store")].

Definition handle := world_handler demo_cfg web_tokens demo_server 6 demo_outside.

Definition after_put : Engine := snd (handle PUT "/a" None put_headers "hello world" demo_engine).

Definition put_response : Response :=
  default not_found (fst (handle PUT "/a" None put_headers "hello world" demo_engine)).

Lemma put_ran : handle PUT "/a" None put_headers "hello world" demo_engine = (Some put_response, after_put).
Proof.
  rewrite (surjective_pairing (handle PUT "/a" None put_headers "hello world" demo_engine)).
  apply (f_equal (fun r => (r, after_put))). evaluate.
Qed.

Lemma demo_disk : disk_bounded (en_core demo_engine).
Proof. evaluate. Qed.

(** The bytes that were PUT come back; the cookie and the denied header do not. *)
Lemma put_then_get_witness :
  success put_response = true
  /\ exists resp', handle GET "/a" None [] "" after_put = (Some resp', after_put)
     /\ status resp' = 200%Z /\ resp_body resp' = "hello world"
     /\ re_headers (request_representation demo_server put_headers "hello world") = [("x-author", "me")].
Proof.
  split; [evaluate|].
  destruct (put_then_get demo_cfg web_tokens demo_server demo_cfg_ok demo_outside demo_outside "/a" None
              put_headers "hello world" [] "" demo_engine put_response after_put)
    as (tag & resp' & Hget & _ & Hs & Hb & _).
  - apply demo_engine_ok.
  - apply demo_env_ok.
  - apply demo_disk.
  - apply put_ran.
  - evaluate.
  - reflexivity.
  - evaluate.
  - reflexivity.
  - reflexivity.
  - exists resp'. split; [exact Hget|]. split; [exact Hs|]. split; [exact Hb|]. evaluate.
Defined.

(** A DELETE without the approve token is refused and leaves the world. *)
Lemma http_answers_true_witness :
  exists resp e', handle DELETE "/a" None put_headers "" demo_engine = (Some resp, e')
    /\ status resp = 401%Z
    /\ answer_true demo_server DirRemoved DELETE "home/a" put_headers "" resp (abstract demo_cfg demo_engine)
         (abstract demo_cfg e').
Proof.
  destruct (http_answers_true demo_cfg web_tokens demo_server demo_cfg_ok demo_outside DELETE "/a" None
              put_headers "" demo_engine) as (resp & e' & Hrun & _ & Hans).
  - apply demo_engine_ok.
  - apply demo_env_ok.
  - apply demo_disk.
  - exists resp, e'. split; [exact Hrun|]. split; [|exact Hans].
    assert (status <$> fst (handle DELETE "/a" None put_headers "" demo_engine) = Some 401%Z) as Hs by evaluate.
    unfold handle in Hs. rewrite Hrun in Hs. cbn in Hs. congruence.
Defined.

Definition range_headers : HeaderMap := [("range", " bytes=6-99 ")].

Lemma get_range_exact_witness :
  exists resp, handle GET "/a" None range_headers "" after_put = (Some resp, after_put)
    /\ status resp = 206%Z /\ slen (resp_body resp) = 5%Z
    /\ ("content-range", "bytes 6-10/11") ∈ resp_headers resp.
Proof.
  destruct (read demo_cfg web_tokens None None "home/a" Anon after_put) as [[r|]|err] eqn:Hread.
  2,3: exfalso; revert Hread;
       assert (match read demo_cfg web_tokens None None "home/a" Anon after_put with Ok (Some _) => true | _ => false end
               = true) as Hok by evaluate; intros Hread; rewrite Hread in Hok; discriminate Hok.
  assert (slen (re_body (rd_representation r)) = 11%Z) as Hlen.
  { assert (match read demo_cfg web_tokens None None "home/a" Anon after_put with
            | Ok (Some r) => slen (re_body (rd_representation r)) | _ => 0%Z end = 11%Z) as Hl by evaluate.
    by rewrite Hread in Hl. }
  destruct (get_range_exact demo_cfg web_tokens demo_server demo_outside "/a" range_headers "" after_put "home/a" r
              (FromTo 6 99)) as (resp & Hrun & Hres).
  - evaluate.
  - exact Hread.
  - reflexivity.
  - reflexivity.
  - evaluate.
  - split; evaluate.
  - rewrite Hlen in Hres. cbn in Hres. destruct Hres as (Hs & _ & _ & _ & Hl & _ & Hr).
    exists resp. split; [exact Hrun|]. split; [exact Hs|]. split; [exact Hl|exact Hr].
Defined.

Lemma head_matches_get_witness :
  exists rh, handle HEAD "/a" None range_headers "" after_put = (Some rh, after_put)
    /\ status rh = 206%Z /\ resp_body rh = "".
Proof.
  destruct (head_matches_get demo_cfg web_tokens demo_server demo_outside "/a" None range_headers "" after_put)
    as (rg & rh & Hg & Hh & Hs & _ & Hb).
  assert (status <$> fst (handle GET "/a" None range_headers "" after_put) = Some 206%Z) as H206 by evaluate.
  unfold handle in H206. rewrite Hg in H206. cbn in H206. injection H206 as H206.
  exists rh. split; [exact Hh|]. split; [congruence|]. apply Hb. rewrite H206. reflexivity.
Defined.

(** A host that embeds the engine stores headers the HTTP policy would refuse. *)
Definition forged : Representation :=
  {| re_body := "hello"; re_content_type := "text/plain";
     re_headers := [("set-cookie", "secret"); ("x-author", "me"); ("x-timeline-hmac", "forged")] |}.

Definition after_forged : Engine :=
  snd (replace demo_cfg (o_env demo_outside) "home/a" forged no_preconditions Write demo_engine).

Lemma forged_found :
  (snd <$> found demo_cfg web_tokens demo_outside GET "/a" None [] after_forged) = Some (re_headers forged).
Proof. evaluate. Qed.

(** They are stored, and only the one the policy lets through is shown. *)
Lemma denied_headers_never_cross_witness :
  ("x-author", "me") ∈ re_headers (request_representation demo_server put_headers "")
  /\ is_never_persisted_header "x-author" = false
  /\ exists resp, fst (fst (serve_world demo_cfg web_tokens demo_server 6 demo_outside 250 41 GET "/a" None [] ""
                             after_forged)) = Some resp
     /\ values_of "x-request-id" (resp_headers resp) = ["42"]
     /\ values_of "x-author" (resp_headers resp) = ["me"]
     /\ values_of "x-timeline-hmac" (resp_headers resp) = [] /\ values_of "set-cookie" (resp_headers resp) = [].
Proof.
  destruct (denied_headers_never_cross demo_cfg web_tokens demo_server demo_outside 250 41 GET "/a" None [] "" after_forged)
    as [_ (resp & e' & Hrun & Hid & _ & _ & _ & Hfound)]; [lia|lia|].
  assert (("x-author", "me") ∈ re_headers (request_representation demo_server put_headers "")) as Hin.
  { apply (bool_decide_eq_true_1 _). evaluate. }
  split; [exact Hin|]. split; [evaluate|]. exists resp. split; [by rewrite Hrun|]. split; [exact Hid|].
  assert (forall name, (fun '(said, stored) => values_of name said ++ values_of name (shown stored))
                         <$> found demo_cfg web_tokens demo_outside GET "/a" None [] after_forged
                       = Some (if bool_decide (name = "x-author") then ["me"] else [])
                       -> name ∉ stamped_names ->
                       values_of name (resp_headers resp) ≡ₚ if bool_decide (name = "x-author") then ["me"] else [])
    as Hval.
  { intros name Hv Hn. destruct (found _ _ _ _ _ _ _ _) as [[said stored]|]; [|discriminate Hv].
    injection Hv as <-. by apply Hfound. }
  split; [|split].
  - apply Permutation_singleton_r, (Hval "x-author"); [evaluate|]. by apply (bool_decide_eq_true_1 _).
  - apply Permutation_nil_r, (Hval "x-timeline-hmac"); [evaluate|]. by apply (bool_decide_eq_true_1 _).
  - apply Permutation_nil_r, (Hval "set-cookie"); [evaluate|]. by apply (bool_decide_eq_true_1 _).
Defined.
