(* ===== verification/HttpProc.v ===== *)
(** * The proc routes

    Models [bin/src/server/proc.rs] and the bodies it renders in
    [bin/src/server/response.rs]: the root hint, the listings and counters under
    [/proc], and the audit reads [/proc/audit/<world>/verify], [/head] and
    [/stamp/<seq>].  [VERSION] is the version of the package that builds the
    server.  Log lines are left out. *)

From S2P Require Import Prelude.
From S2P Require Import RustStr.
From S2P Require Import Path.
From S2P Require Import Auth.
From S2P Require Import Crypto.
From S2P Require Import Types.
From S2P Require Import Db.
From S2P Require Import AuditVerify.
From S2P Require Import StorageClass.
From S2P Require Import ReadCache.
From S2P Require Import Core.
From S2P Require Import EngineOps.
From S2P Require Import Startup.
From S2P Require Import Introspection.
From S2P Require Import HttpResponse.
From S2P Require Import HttpSemantics.
From S2P Require Import HttpQuery.
From S2P Require Import HttpPipeline.
From Stdlib Require Import Ascii.

Definition ROOT_ALLOW : string := "GET, HEAD, OPTIONS".
Definition PROC_ALLOW : string := "GET, HEAD, OPTIONS".
Definition AUDIT_VERIFY_ALLOW : string := "GET, HEAD, OPTIONS".

Definition tab : string := String "009" "".

(** ** Rendered bodies *)

Fixpoint du_body (sizes : list WorldUsage) : string :=
  match sizes with
  | [] => ""
  | u :: sizes =>
      wu_world u +:+ tab +:+ to_string (wu_bytes u) +:+ tab +:+ to_string (wu_current_body_bytes u)
      +:+ tab +:+ to_string (wu_retained_cas_body_bytes u) +:+ tab
      +:+ to_string (wu_audit_chain_events u) +:+ lf +:+ du_body sizes
  end.

Definition df_body (s : DfSnapshot) : string :=
  let '(storage_quota, storage_available) :=
    match df_storage_quota s with
    | Some quota => (to_string quota, to_string (saturating_sub quota (df_storage_used s)))
    | None => ("unlimited", "unlimited")
    end in
  let memory_available := saturating_sub (df_memory_quota s) (df_memory_used s) in
  let unlimited := tab +:+ "unlimited" +:+ tab +:+ "unlimited" +:+ lf in
  "storage" +:+ tab +:+ to_string (df_storage_used s) +:+ tab +:+ storage_quota +:+ tab
    +:+ storage_available +:+ lf
  +:+ "storage_current_body_bytes" +:+ tab +:+ to_string (df_storage_current_body_bytes s) +:+ unlimited
  +:+ "storage_retained_cas_body_bytes" +:+ tab +:+ to_string (df_storage_retained_cas_body_bytes s)
    +:+ unlimited
  +:+ "storage_audit_chain_events" +:+ tab +:+ to_string (df_storage_audit_chain_events s) +:+ unlimited
  +:+ "memory" +:+ tab +:+ to_string (df_memory_used s) +:+ tab +:+ to_string (df_memory_quota s) +:+ tab
    +:+ to_string memory_available +:+ lf
  +:+ "worlds" +:+ tab +:+ to_string (df_worlds s) +:+ unlimited.

(** [join], then a line feed at the end. *)
Fixpoint join_lines (names : list string) : string :=
  match names with
  | [] => ""
  | [name] => name
  | name :: names => name +:+ lf +:+ join_lines names
  end.

Definition world_list_body (names : list string) : string :=
  match names with [] => "" | _ => join_lines names +:+ lf end.

Definition metric (name : string) (value : Z) (label : string) : string :=
  name +:+ " " +:+ to_string value +:+ " " +:+ label +:+ lf.

Definition pool_body (s : PoolSnapshot) : string :=
  metric "read_cache_entries" (ps_read_cache_entries s) "snapshot"
  +:+ metric "read_cache_tombstones" (ps_read_cache_tombstones s) "snapshot"
  +:+ metric "read_cache_hits" (ps_read_cache_hits s) "counter"
  +:+ metric "read_cache_misses" (ps_read_cache_misses s) "counter"
  +:+ metric "read_cache_capped" (ps_read_cache_capped s) "counter"
  +:+ metric "read_cache_evictions" (ps_read_cache_evictions s) "counter"
  +:+ metric "read_cache_open_fails" (ps_read_cache_open_fails s) "counter"
  +:+ metric "read_cache_max_entries" (ps_read_cache_max_entries s) "snapshot"
  +:+ metric "ledger_writer_inits" (ps_ledger_writer_inits s) "counter".

Section Responses.
Context `{HttpCrate}.

Definition proc_text_response (method : Method) (body : string) : Response :=
  {| status := 200;
     resp_headers := to_header_map
       (TEXT_PLAIN :: if bool_decide (method = HEAD)
                      then [("content-length", decimal_header_value (slen body))] else []);
     resp_body := if bool_decide (method = HEAD) then "" else body |}.

(** A response without a body, told by its headers. *)
Definition headers_only (code : Z) (headers : list (string * string)) : Response :=
  {| status := code; resp_headers := to_header_map (headers ++ [("content-length", "0")]); resp_body := "" |}.

Definition audit_valid (report : AuditValid) : Response :=
  headers_only 200 [("x-audit-valid", "true"); ("x-audit-events", decimal_header_value (val_events report));
                    ("x-audit-genesis", audit_header_value (val_genesis report));
                    ("x-audit-latest", audit_header_value (val_latest report))].

Definition audit_broken (report : AuditBroken) : Response :=
  headers_only 409 [("x-audit-valid", "false");
                    ("x-audit-break-at", decimal_header_value (ab_break_at report));
                    ("x-audit-expected", audit_header_value (ab_expected report));
                    ("x-audit-actual", audit_header_value (ab_actual report))].

Definition audit_not_applicable : Response := headers_only 204 [("x-audit-valid", "n/a")].

Definition audit_head (stamp : HeadStamp) : Response :=
  if (hs_seq stamp <=? 0)%Z then internal_error
  else headers_only 200 [("x-audit-head", "true");
                         ("x-audit-generation", audit_header_value (hs_generation stamp));
                         ("x-audit-seq", decimal_header_value (hs_seq stamp));
                         ("x-audit-hmac", audit_header_value (hs_hmac stamp))].

Definition audit_head_not_applicable : Response := headers_only 204 [("x-audit-head", "n/a")].

Definition audit_stamp (stamp : ChainStampRead) : Response :=
  match stamp with
  | StampFound stamp =>
      if (st_seq stamp <? 0)%Z then internal_error
      else headers_only 200 [("x-audit-stamp", "true");
                             ("x-audit-generation", audit_header_value (st_generation stamp));
                             ("x-audit-seq", to_string (st_seq stamp));
                             ("x-audit-hmac", audit_header_value (st_hmac stamp))]
  | StampMissing generation _ observed =>
      headers_only 204 [("x-audit-stamp", "n/a");
                        ("x-audit-generation", audit_header_value generation);
                        ("x-audit-events", decimal_header_value observed)]
  end.

Definition audit_stamp_not_applicable : Response := headers_only 204 [("x-audit-stamp", "n/a")].
End Responses.

(** ** Errors *)

Definition proc_engine_error (scope : string) (err : EngineError) : Response :=
  match err with
  | EngineAuth _ => unauthorized "read requires read token"
  | NotFound => not_found
  | TransientStorage | ShuttingDown => storage_temporarily_unavailable
  | EngineInsufficientStorage => insufficient_storage
  | EngineStorage => server_error (scope +:+ " storage failure")
  | InvalidWorldName => bad_request "invalid world path"
  | InvalidMetadata message => bad_request message
  | InternalInvariant _ => internal_error
  | EnginePayloadTooLarge _ | EngineAppendOnly | PreconditionFailed _ | EngineQuotaExceeded _ _ _
  | SubscriptionLimit => server_error ("unexpected " +:+ scope +:+ " engine error")
  end.

(** ** The audit actions *)

Inductive AuditProcAction := ActionVerify | ActionHead | ActionStamp (seq : Z).

Definition missing_world_message (a : AuditProcAction) : string :=
  match a with
  | ActionVerify => "audit verify requires a world path"
  | ActionHead => "audit head requires a world path"
  | ActionStamp _ => "audit stamp requires a world path"
  end.

Definition invalid_world_message (a : AuditProcAction) : string :=
  match a with
  | ActionVerify => "invalid audit verify world path"
  | ActionHead => "invalid audit head world path"
  | ActionStamp _ => "invalid audit stamp world path"
  end.

Definition parse_audit_stamp_seq (raw : string) : option Z :=
  if bool_decide (raw = "") || starts_with "+" raw || starts_with "-" raw
     || ((1 <? slen raw)%Z && starts_with "0" raw) || negb (sall is_ascii_digit raw)
  then None
  else seq ← parse_i64 raw; result_ok (ChainSeq_new seq).

(** The world and the action a path below [/proc/audit/] asks for, or the
    response that refuses it. *)
Definition audit_request (audit_path : string) : result Response (string * AuditProcAction) :=
  '(raw_world, action) ←
    (match strip_suffix "/verify" audit_path with
     | Some raw_world => Ok (raw_world, ActionVerify)
     | None =>
         match strip_suffix "/head" audit_path with
         | Some raw_world => Ok (raw_world, ActionHead)
         | None =>
             match rsplit_once_str "/stamp/" audit_path with
             | Some (raw_world, raw_seq) =>
                 match parse_audit_stamp_seq raw_seq with
                 | Some seq => Ok (raw_world, ActionStamp seq)
                 | None => Err (bad_request "invalid audit stamp sequence")
                 end
             | None => Err not_found
             end
         end
     end);
  if bool_decide (raw_world = "") then Err (bad_request (missing_world_message action))
  else if starts_with "/" raw_world || ends_with_char slash raw_world || contains_str "//" raw_world
  then Err (bad_request (invalid_world_message action))
  else
    world ← map_err (fun _ => bad_request (invalid_world_message action))
              (from_canonical (canonicalize_path raw_world));
    Ok (world, action).

(** ** The handlers *)

Section Handlers.
Context `{Crypto} `{Rusqlite} `{HttpCrate} `{PercentEncoding} `{Base64} `{ErrorTexts}.
Context (VERSION : string) (cfg : Config) (tokens : Tokens).

Definition run_introspection {T} (j : Join) (scope : string) (r : result EngineError T)
  : result Response T :=
  match j with
  | Some err => Err (if join_is_cancelled err then storage_temporarily_unavailable else internal_error)
  | None => map_err (proc_engine_error scope) r
  end.

(** [match run_introspection(..) { Ok(x) => k(x), Err(resp) => return *resp }]. *)
Definition answer {T} (r : result Response T) (k : T -> Response) : Response :=
  match r with Ok x => k x | Err resp => resp end.

(** A fixed text for [GET] and [HEAD]. *)
Definition fixed_text (allow : string) (method : Method) (body : string) : Response :=
  match method with
  | GET => {| status := 200; resp_headers := [TEXT_PLAIN]; resp_body := body |}
  | HEAD => {| status := 200;
               resp_headers := to_header_map
                 [TEXT_PLAIN; ("content-length", decimal_header_value (slen body))];
               resp_body := "" |}
  | OPTIONS => options_response allow
  | _ => method_not_allowed allow
  end.

Definition root_hint (method : Method) : Response :=
  fixed_text ROOT_ALLOW method
    ("auditedb " +:+ VERSION +:+ " (rust)" +:+ lf +:+ "try: curl /proc/worlds" +:+ lf).

Definition proc_version (method : Method) : Response :=
  fixed_text PROC_ALLOW method ("auditedb " +:+ VERSION +:+ " (rust)" +:+ lf).

Definition proc_reserved (method : Method) : Response :=
  match method with
  | OPTIONS => options_response PROC_ALLOW
  | GET | HEAD => not_found
  | _ => method_not_allowed PROC_ALLOW
  end.

(** The method checks the routes start with. *)
Definition reading (allow : string) (method : Method) (k : Response) : Response :=
  if bool_decide (method = OPTIONS) then options_response allow
  else if negb (bool_decide (method = GET)) && negb (bool_decide (method = HEAD))
  then method_not_allowed allow
  else k.

Definition proc_worlds (j : Join) (sc : Scan) (method : Method) (headers : HeaderMap) (e : Engine)
  : Response :=
  reading PROC_ALLOW method
    (let tier := access_tier_from_headers tokens headers in
     answer (run_introspection j "proc worlds" (Engine_list_worlds tokens sc tier e))
       (fun names => proc_text_response method (world_list_body names))).

Definition proc_du (j : Join) (sc : Scan) (method : Method) (headers : HeaderMap) (e : Engine)
  : Response :=
  reading PROC_ALLOW method
    (let tier := access_tier_from_headers tokens headers in
     answer (run_introspection j "proc du" (Engine_du tokens sc tier e))
       (fun sizes => proc_text_response method (du_body sizes))).

Definition proc_df (j : Join) (method : Method) (headers : HeaderMap) (e : Engine) : Response :=
  reading PROC_ALLOW method
    (let tier := access_tier_from_headers tokens headers in
     answer (run_introspection j "proc df" (Engine_df cfg tokens tier e))
       (fun snapshot => proc_text_response method (df_body snapshot))).

Definition proc_pool {D} (j : Join) (cache : @Shared D) (max_entries : Z) (method : Method)
    (headers : HeaderMap) (e : Engine) : Response :=
  reading PROC_ALLOW method
    (let tier := access_tier_from_headers tokens headers in
     answer (run_introspection j "proc pool" (Engine_pool tokens cache max_entries tier e))
       (fun snapshot => proc_text_response method (pool_body snapshot))).

Definition proc_audit_verify (j : Join) (f : option sqlite_error) (method : Method) (audit_path : string)
    (headers : HeaderMap) (e : Engine) : Response :=
  reading AUDIT_VERIFY_ALLOW method
    (answer (audit_request audit_path) (fun '(world, action) =>
     let tier := access_tier_from_headers tokens headers in
     match action with
     | ActionVerify =>
         answer (run_introspection j "audit verify" (Engine_verify_audit cfg tokens f world tier e))
           (fun result => match result with
                          | Valid report => audit_valid report
                          | Broken report => audit_broken report
                          | NotApplicable => audit_not_applicable
                          end)
     | ActionHead =>
         answer (run_introspection j "audit head" (Engine_chain_head cfg tokens f world tier e))
           (fun head => match head with
                        | Some stamp => audit_head stamp
                        | None => audit_head_not_applicable
                        end)
     | ActionStamp seq =>
         answer (run_introspection j "audit stamp" (Engine_chain_stamp cfg tokens f world seq tier e))
           (fun stamp => match stamp with
                         | Some stamp => audit_stamp stamp
                         | None => audit_stamp_not_applicable
                         end)
     end)).
End Handlers.
