(* ===== verification/ProcPath.v ===== *)
(** * Audit paths are read back

    A valid world and an ordinal, written as an audit path, are recovered both by
    [ValidatedProcPath::new] of the engine and by the audit route of the server;
    no other endpoint's suffix gets in the way. *)

From S2P Require Import Prelude.
From S2P Require Import RustStr.
From S2P Require Import Path.
From S2P Require Import Types.
From S2P Require Import Introspection.
From S2P Require Import HttpResponse.
From S2P Require Import HttpProc.
From Stdlib Require Import Ascii.

(** ** Suffixes *)

Lemma strip_suffix_app p s : strip_suffix p (s +:+ p) = Some s.
Proof.
  induction s as [|c s IH].
  - rewrite sapp_nil_l. destruct p; unfold strip_suffix; by rewrite bool_decide_true.
  - rewrite sapp_cons. cbn [strip_suffix]. rewrite bool_decide_false, IH; [done|]. intros E.
    apply (f_equal String.length) in E. cbn in E. rewrite length_sapp in E. lia.
Qed.

Lemma strip_suffix_Some p s t : strip_suffix p s = Some t -> s = t +:+ p.
Proof.
  revert t. induction s as [|c s IH]; intros t; cbn [strip_suffix].
  - case_bool_decide; [|done]. by intros [= <-].
  - case_bool_decide as E; [by intros [= <-]|]. intros (t' & Ht & ->)%fmap_Some.
    rewrite sapp_cons. f_equal. by apply IH.
Qed.

Lemma sapp_last s t c d : s +:+ String c "" = t +:+ String d "" -> c = d.
Proof.
  intros E. pose proof (f_equal String.length E) as El. rewrite !length_sapp in El. cbn in El.
  apply sapp_inj_len in E as [_ E]; [by injection E|lia].
Qed.

Lemma last_char s : s <> "" -> exists t c, s = t +:+ String c "".
Proof.
  induction s as [|c s IH]; [done|]. intros _. destruct s as [|d s]; [by exists "", c|].
  destruct IH as (t & e & ->); [done|]. by exists (String c t), e.
Qed.

(** Text that ends in a digit has no suffix that ends in a letter. *)
Lemma digits_no_suffix s ds p c :
  ds <> "" -> sall is_ascii_digit ds = true -> is_ascii_digit c = false ->
  strip_suffix (p +:+ String c "") (s +:+ ds) = None.
Proof.
  intros Hne Hd Hc. destruct (strip_suffix _ _) as [t|] eqn:E; [|done]. exfalso.
  apply strip_suffix_Some in E. destruct (last_char ds Hne) as (ds' & d & ->).
  rewrite sall_app in Hd. apply andb_true_iff in Hd as [_ Hd]. cbn in Hd. rewrite andb_true_r in Hd.
  rewrite <- !sapp_assoc in E. apply sapp_last in E. congruence.
Qed.

(** ** The last [/stamp/] *)

Lemma rsplit_no_slash p ds :
  contains_char slash ds = false -> rsplit_once_str (String slash p) ds = None.
Proof.
  induction ds as [|c ds IH]; [done|]. unfold contains_char in *. cbn [rsplit_once_str].
  unfold sany. cbn [sall]. rewrite negb_andb, negb_involutive. intros [Hc Hds]%orb_false_iff.
  rewrite IH by done. cbn [strip_prefix]. by rewrite Hc.
Qed.

Lemma digits_no_slash ds : sall is_ascii_digit ds = true -> contains_char slash ds = false.
Proof.
  induction ds as [|c ds IH]; [done|]. cbn [sall]. rewrite andb_true_iff. intros [Hc Hds].
  unfold contains_char, sany. cbn [sall]. rewrite negb_andb, negb_involutive.
  apply orb_false_iff. split; [|by apply IH]. apply not_true_iff_false. rewrite ascii_eqb_spec. intros <-. done.
Qed.

Lemma rsplit_stamp w ds :
  sall is_ascii_digit ds = true -> rsplit_once_str "/stamp/" (w +:+ "/stamp/" +:+ ds) = Some (w, ds).
Proof.
  intros Hd. pose proof (rsplit_no_slash "stamp/" ds (digits_no_slash ds Hd)) as Hn.
  induction w as [|c w IH].
  - change ("" +:+ "/stamp/" +:+ ds) with
      (String "/" (String "s" (String "t" (String "a" (String "m" (String "p" (String "/" ds))))))).
    change (String slash "stamp/") with "/stamp/" in Hn. cbn [rsplit_once_str]. rewrite Hn.
    assert (strip_prefix "/stamp/" (String "/" ds) = None) as ->; [|reflexivity].
    destruct ds as [|d ds]; [done|]. cbn [strip_prefix]. rewrite ascii_eqb_refl.
    destruct (ascii_eqb "s" d) eqn:E; [|done]. apply ascii_eqb_spec in E as <-. done.
  - rewrite sapp_cons. cbn [rsplit_once_str]. by rewrite IH.
Qed.

(** ** Ordinals in decimal *)

Lemma pretty_go_no_zero x s :
  (0 < x)%N -> exists c t, pretty_N_go x s = String c t /\ ascii_eqb "0" c = false.
Proof.
  revert s. induction (N.lt_wf_0 x) as [x _ IH]; intros s Hx. rewrite pretty_N_go_step by lia.
  destruct (decide (x < 10)%N) as [Hlt|Hge].
  - rewrite N.div_small by done. rewrite pretty_N_go_0. do 2 eexists. split; [done|].
    apply not_true_iff_false. rewrite ascii_eqb_spec. intros E. rewrite N.mod_small in E by done.
    destruct (pretty_N_char_digit x Hlt) as [_ Hv]. rewrite <- E in Hv. cbn in Hv. lia.
  - apply IH; [apply N.div_lt; lia|]. apply N.div_str_pos. lia.
Qed.

Lemma to_string_no_zero z : (0 < z)%Z -> starts_with "0" (to_string z) = false.
Proof.
  intros Hz. destruct z as [|p|p]; try lia.
  change (to_string (Z.pos p)) with (pretty_N_go (N.pos p) ""). destruct (pretty_go_no_zero (N.pos p) "") as (c & t & -> & Hc); [lia|].
  unfold starts_with. cbn [strip_prefix]. rewrite Hc. by apply bool_decide_eq_false, is_Some_None.
Qed.

Lemma digits_no_sign c ds :
  is_ascii_digit c = false -> sall is_ascii_digit ds = true -> starts_with (String c "") ds = false.
Proof.
  intros Hc Hd. apply not_true_iff_false. rewrite starts_with_spec. intros [t ->].
  rewrite sapp_cons in Hd. cbn in Hd. by rewrite Hc in Hd.
Qed.

Lemma ordinal_guard n :
  (0 < n)%Z ->
  bool_decide (to_string n = "") || starts_with "+" (to_string n) || starts_with "-" (to_string n)
  || ((1 <? slen (to_string n))%Z && starts_with "0" (to_string n))
  || negb (sall is_ascii_digit (to_string n)) = false.
Proof.
  intros Hn. pose proof (to_string_digits n ltac:(lia)) as Hd.
  rewrite to_string_no_zero, andb_false_r, !digits_no_sign, Hd by done. rewrite bool_decide_false; [done|].
  intros E. rewrite E in Hd. pose proof (parse_signed_to_string n) as Hp. by rewrite E in Hp.
Qed.

Lemma ordinal_read n :
  (0 < n <= i64_max)%Z ->
  parse_proc_chain_seq (to_string n) = Ok n /\ parse_audit_stamp_seq (to_string n) = Some n.
Proof.
  intros Hn. unfold parse_proc_chain_seq, parse_audit_stamp_seq. rewrite ordinal_guard by lia.
  rewrite parse_i64_to_string by (unfold i64_min; lia). cbn [ok_or mbind result_bind option_bind].
  unfold ChainSeq_new. by rewrite (proj2 (Z.leb_gt n 0)) by lia.
Qed.

(** ** The text of a valid world *)

Lemma segments_nonempty l : validate_segments l = Ok tt -> Forall (fun p => p <> "") l.
Proof.
  induction l as [|p l IH]; [constructor|]. cbn. case_bool_decide; [done|].
  destruct (is_dot_segment p); [done|]. constructor; [done|by apply IH].
Qed.

Lemma slash_eqb c : ascii_eqb slash c = ascii_eqb c slash.
Proof. apply Bool.eq_iff_eq_true. rewrite !ascii_eqb_spec. split; congruence. Qed.

Lemma tail_segments s :
  Forall (fun p => p <> "") (tail (split slash s)) ->
  ends_with_char slash s = false /\ contains_str "//" s = false.
Proof.
  induction s as [|c s IH]; [done|]. cbn [split contains_str]. intros Hs.
  assert (forall p, starts_with (String slash p) (String c s) = ascii_eqb c slash && starts_with p s) as Hsw.
  { intros p. unfold starts_with. cbn [strip_prefix]. rewrite slash_eqb. by destruct (ascii_eqb c slash). }
  change "//" with (String slash "/"). rewrite Hsw.
  unfold ends_with_char in *. cbn [strip_suffix_char].
  destruct (ascii_eqb c slash) eqn:Ec; cbn [andb].
  - cbn [tail] in Hs. destruct s as [|d s]; [by apply Forall_cons in Hs as [? _]|].
    assert (ascii_eqb d slash = false) as Hd.
    { cbn [split] in Hs. destruct (ascii_eqb d slash); [by apply Forall_cons in Hs as [? _]|done]. }
    destruct IH as [IH1 IH2].
    { cbn [split] in Hs |- *. rewrite Hd in *. destruct (split slash s); [constructor|]. by apply Forall_cons in Hs as [_ ?]. }
    split.
    + apply bool_decide_eq_false in IH1. apply bool_decide_eq_false. intros [t Ht]. apply IH1.
      apply fmap_Some in Ht as (t' & Ht & _). by eexists.
    + change "//" with (String slash "/") in IH2. rewrite IH2, orb_false_r.
      unfold starts_with. cbn [strip_prefix]. by rewrite slash_eqb, Hd.
  - destruct IH as [IH1 IH2]; [by destruct (split slash s)|]. split; [|done].
    destruct s as [|d s]; [by apply bool_decide_eq_false, is_Some_None|].
    apply bool_decide_eq_false in IH1. apply bool_decide_eq_false. intros [t Ht]. apply IH1.
    apply fmap_Some in Ht as (t' & Ht & _). by eexists.
Qed.

Lemma starts_slash c s : starts_with "/" (String c s) = ascii_eqb c slash.
Proof.
  unfold starts_with. cbn [strip_prefix]. change "/"%char with slash. rewrite slash_eqb.
  destruct (ascii_eqb c slash); [by apply bool_decide_eq_true|by apply bool_decide_eq_false, is_Some_None].
Qed.

Lemma world_text w :
  valid_world w ->
  w <> "" /\ starts_with "/" w = false /\ ends_with_char slash w = false /\ contains_str "//" w = false.
Proof.
  intros [Hv _]%valid_world_iff. apply validate_world_name_Ok in Hv as (Hne & _ & _ & _ & _ & Hs).
  apply segments_nonempty in Hs. split; [done|]. split.
  - destruct w as [|c w]; [done|]. rewrite starts_slash. cbn [split] in Hs.
    destruct (ascii_eqb c slash); [by apply Forall_cons in Hs as [? _]|done].
  - apply tail_segments. destruct (split slash w); [constructor|by apply Forall_cons in Hs as [_ ?]].
Qed.

(** ** Trimming *)

Lemma trim_start_id s : starts_with "/" s = false -> trim_start_matches slash s = s.
Proof. destruct s as [|c s]; [done|]. rewrite starts_slash. intros E. cbn. by rewrite E. Qed.

Lemma trim_end_cons c s : ascii_eqb slash c = false -> trim_end_matches slash (String c s) <> "".
Proof. intros Hc. cbn [trim_end_matches]. rewrite Hc. by destruct (trim_end_matches slash s). Qed.

Lemma trim_end_id s c : ascii_eqb slash c = false -> trim_end_matches slash (s +:+ String c "") = s +:+ String c "".
Proof.
  intros Hc. induction s as [|d s IH]; [rewrite sapp_nil_l; cbn [trim_end_matches]; by rewrite Hc|]. rewrite sapp_cons. cbn [trim_end_matches].
  rewrite IH. by destruct s.
Qed.

(** Text that starts and ends with something other than a slash. *)
Lemma trim_id a s c :
  ascii_eqb a slash = false -> ascii_eqb slash c = false ->
  trim_matches slash (String a s +:+ String c "") = String a s +:+ String c "".
Proof.
  intros Ha Hc. unfold trim_matches. rewrite trim_start_id by (rewrite sapp_cons, starts_slash; done).
  by apply trim_end_id.
Qed.

Lemma world_trim w : valid_world w -> bool_decide (trim_matches slash w = "") = false.
Proof.
  intros Hv. destruct (world_text w Hv) as (Hne & Hs & _ & _). apply bool_decide_eq_false.
  unfold trim_matches. rewrite trim_start_id by done. destruct w as [|c w]; [done|].
  rewrite starts_slash in Hs. apply trim_end_cons. by rewrite slash_eqb.
Qed.

Lemma canonical_world w : valid_world w -> canonicalize_path w = w.
Proof.
  intros Hv. destruct (world_text w Hv) as (_ & Hs & _). apply valid_world_iff in Hv as [_ Hns].
  unfold canonicalize_path. rewrite trim_start_id by done. unfold has_canonical_namespace in Hns. by rewrite Hns.
Qed.

(** ** The paths *)

(** An audit path below [proc/audit/], by endpoint. *)
Definition audit_suffix (a : AuditProcAction) : string :=
  match a with
  | ActionVerify => "/verify"
  | ActionHead => "/head"
  | ActionStamp n => "/stamp/" +:+ to_string n
  end.

Definition action_ok (a : AuditProcAction) : Prop :=
  match a with ActionStamp n => (0 < n <= i64_max)%Z | _ => True end.

Definition proc_path_of (w : string) (a : AuditProcAction) : ValidatedProcPath :=
  match a with
  | ActionVerify => ValidatedProcPath_audit_verify w
  | ActionHead => ValidatedProcPath_audit_head w
  | ActionStamp n => ValidatedProcPath_audit_stamp w n
  end.

Lemma other_suffix w s c p d :
  d <> c -> strip_suffix (p +:+ String d "") (w +:+ s +:+ String c "") = None.
Proof.
  intros Hne. destruct (strip_suffix _ _) as [t|] eqn:E; [|done].
  apply strip_suffix_Some in E. rewrite <- !sapp_assoc in E. apply sapp_last in E. congruence.
Qed.

Lemma ordinal_text n : (0 < n)%Z -> to_string n <> "" /\ sall is_ascii_digit (to_string n) = true.
Proof.
  intros Hn. split; [|apply to_string_digits; lia]. intros E.
  pose proof (parse_signed_to_string n) as Hp. by rewrite E in Hp.
Qed.

(** Which of the suffixes an audit path has. *)
Lemma suffixes w a :
  action_ok a ->
  strip_suffix "/verify" (w +:+ audit_suffix a) = match a with ActionVerify => Some w | _ => None end
  /\ strip_suffix "/head" (w +:+ audit_suffix a) = match a with ActionHead => Some w | _ => None end
  /\ match a with
     | ActionStamp n => rsplit_once_str "/stamp/" (w +:+ audit_suffix a) = Some (w, to_string n)
     | _ => True
     end.
Proof.
  destruct a as [| |n]; cbn [audit_suffix action_ok]; intros Ha.
  - split_and!; [apply strip_suffix_app|by apply (other_suffix w "/verif" "y" "/hea" "d")|done].
  - split_and!; [by apply (other_suffix w "/hea" "d" "/verif" "y")|apply strip_suffix_app|done].
  - destruct (ordinal_text n) as [Hne Hd]; [lia|]. split_and!; [| |by apply rsplit_stamp].
    all: rewrite <- sapp_assoc.
    + by apply (digits_no_suffix _ _ "/verif" "y").
    + by apply (digits_no_suffix _ _ "/hea" "d").
Qed.

(** The audit route recovers the world and the action. *)
Lemma audit_request_read w a :
  valid_world w -> action_ok a -> audit_request (w +:+ audit_suffix a) = Ok (w, a).
Proof.
  intros Hv Ha. destruct (world_text w Hv) as (Hne & Hs & He & Hc).
  destruct (suffixes w a Ha) as (E1 & E2 & E3). unfold audit_request. rewrite E1, E2.
  destruct a as [| |n]; [| |rewrite E3, (proj2 (ordinal_read n Ha))]; cbn [mbind result_bind].
  all: by rewrite bool_decide_false, Hs, He, Hc, canonical_world, Hv by done.
Qed.

(** So does [ValidatedProcPath::new]. *)
Theorem proc_path_read w a :
  valid_world w -> action_ok a ->
  ValidatedProcPath_new ("proc/audit/" +:+ w +:+ audit_suffix a) = Ok (proc_path_of w a).
Proof.
  intros Hv Ha. destruct (world_text w Hv) as (Hne & Hs & He & Hc).
  destruct (suffixes w a Ha) as (E1 & E2 & E3). unfold ValidatedProcPath_new.
  assert (trim_matches slash ("proc/audit/" +:+ w +:+ audit_suffix a) = "proc/audit/" +:+ w +:+ audit_suffix a) as ->.
  { assert (exists s c, audit_suffix a = s +:+ String c "" /\ ascii_eqb slash c = false) as (s & c & -> & Hsc).
    { destruct a as [| |n]; [by exists "/verif", "y"%char|by exists "/hea", "d"%char|].
      destruct (ordinal_text n) as [Hn Hd]; [apply Ha|]. destruct (last_char _ Hn) as (t & c & E).
      exists ("/stamp/" +:+ t), c. cbn [audit_suffix]. rewrite E, sapp_assoc. split; [done|].
      rewrite E, sall_app in Hd. apply andb_true_iff in Hd as [_ Hd]. cbn in Hd. rewrite andb_true_r in Hd.
      apply not_true_iff_false. rewrite ascii_eqb_spec. by intros <-. }
    rewrite <- !sapp_assoc. apply (trim_id "p" ("roc/audit/" +:+ w +:+ s) c); done. }
  rewrite !bool_decide_false by discriminate. unfold split_audit_path. rewrite strip_prefix_app.
  cbn [mbind option_bind]. rewrite E1, E2.
  destruct a as [| |n]; [| |rewrite E3; cbn [ok_or mbind result_bind]; rewrite (proj1 (ordinal_read n Ha))];
    cbn [mbind result_bind].
  all: by rewrite world_trim, Hs, He, Hc, Hv by done.
Qed.
