(* ===== verification/HttpConfig.v ===== *)
(** * Server configuration from the environment

    Models [bin/src/server/config.rs] and the startup of [bin/src/server/mod.rs]
    ([run_from_env] up to the bind of its socket, the tokens and the settings of
    the engine it builds), and the header lists of
    [bin/src/server/http/semantics.rs].  The environment is what [std::env::var]
    returns for each name. *)

From Stdlib Require Import Ascii.
From S2P Require Import Prelude.
From S2P Require Import RustStr.
From S2P Require Import Path.
From S2P Require Import Auth.
From S2P Require Import Crypto.
From S2P Require Import Cas.
From S2P Require Import StorageClass.
From S2P Require Import Core.
From S2P Require Import CoreTheorems.
From S2P Require Import Startup.
From S2P Require Import StartupTheorems.
From S2P Require Import HttpQuery.
From S2P Require Import HttpSemantics.
From S2P Require Import HttpPipeline.

Inductive EnvVar := NotPresent | NotUnicode | Present (raw : string).

(** ** Numbers *)

(** [parse] of an unsigned type whose largest value is [max]. *)
Fixpoint uint_digits (max acc : Z) (s : string) : result IntErrorKind Z :=
  match s with
  | "" => Ok acc
  | String c s =>
      if is_ascii_digit c then
        let x := (acc * 10 + (bv c - 48))%Z in
        if (x <=? max)%Z then uint_digits max x s else Err PosOverflow
      else Err InvalidDigit
  end.

Definition uint_from_str (max : Z) (s : string) : result IntErrorKind Z :=
  match s with
  | "" => Err Empty
  | String c "" => uint_digits max 0 s
  | String c r => if ascii_eqb c "+" then uint_digits max 0 r else uint_digits max 0 s
  end.

Definition u16_max : Z := 65535.

Section Config.
Context (env : string -> EnvVar).

Definition parse_usize_env_value (name raw expected : string) : result string Z :=
  let value := trim raw in
  if bool_decide (value = "") then Err (name +:+ " must be a " +:+ expected)
  else map_err (fun kind => match kind with
                            | PosOverflow => name +:+ " is too large for usize on this platform"
                            | _ => name +:+ " must be a " +:+ expected
                            end) (uint_from_str usize_max value).

Definition env_usize (name : string) (default : Z) : result string Z :=
  match env name with
  | NotPresent => Ok default
  | NotUnicode => Err (name +:+ " must be valid Unicode")
  | Present raw => parse_usize_env_value name raw "non-negative integer"
  end.

Definition env_optional_usize (name : string) : result string (option Z) :=
  match env name with
  | NotPresent => Ok None
  | NotUnicode => Err (name +:+ " must be valid Unicode")
  | Present raw =>
      let value := trim raw in
      if bool_decide (value = "") then Ok None
      else
        parsed ← parse_usize_env_value name value "non-negative integer byte count";
        Ok (if (0 <? parsed)%Z then Some parsed else None)
  end.

Definition env_nonzero_usize (name : string) (default : Z) : result string Z :=
  value ← env_usize name default;
  Ok (if (value =? 0)%Z then default else value).

(** ** Keys and tokens *)

Definition hmac_key_from_env_value (value : option string) : result InvalidHmacKey (option string) :=
  match value with
  | None => Ok None
  | Some s => key ← AuditHmacKey_new s; Ok (Some key)
  end.

Definition InvalidHmacKey_display (err : InvalidHmacKey) : string :=
  match err with
  | KeyEmpty => "secret key must not be empty or all whitespace"
  | KeyTooShort min actual =>
      "HMAC key must be at least " +:+ to_string min +:+ " bytes; got " +:+ to_string actual
  end.

Definition nonempty_env (name : string) : option string :=
  match env name with
  | Present value => if bool_decide (trim value = "") then None else Some value
  | _ => None
  end.

Definition env_set_but_empty (name : string) : bool :=
  match env name with Present value => bool_decide (trim value = "") | _ => false end.

Record ServerTokens := { st_read : option string; st_write : option string; st_approve : option string }.

Definition ServerTokens_from_env : ServerTokens :=
  {| st_read := nonempty_env "AUDITEDB_READ_TOKEN"; st_write := nonempty_env "AUDITEDB_WRITE_TOKEN";
     st_approve := nonempty_env "AUDITEDB_APPROVE_TOKEN" |}.

Definition server_read_required (t : ServerTokens) : bool := bool_decide (is_Some (st_read t)).

Definition should_warn_public_read (bind_is_loopback read_required : bool) : bool :=
  negb bind_is_loopback && negb read_required.

(** Whether [print_auth_summary] warns about the read token. *)
Definition warns_about_reads (bind_is_loopback : bool) : bool :=
  env_set_but_empty "AUDITEDB_READ_TOKEN"
  || should_warn_public_read bind_is_loopback (server_read_required ServerTokens_from_env).

(** ** Header lists *)

(** [std::env::var(name).unwrap_or_default()]. *)
Definition env_or_empty (name : string) : string :=
  match env name with Present raw => raw | _ => "" end.

Definition header_allowlist_from_env : HeaderAllowlist :=
  HeaderAllowlist_parse (env_or_empty "AUDITEDB_PERSIST_HEADERS").
Definition header_user_deny_from_env : HeaderAllowlist :=
  HeaderAllowlist_parse (env_or_empty "AUDITEDB_DENY_HEADERS").

(** ** The server *)

Record EngineLimits := {
  el_max_world_bytes : Z;
  el_max_memory_bytes : Z;
  el_max_storage_bytes : option Z;
  el_max_listen_connections : Z;
  el_listen_replay_max : Z;
  el_read_cache_max_entries : Z;
}.

(** The calls on the builder, [configure_tokens] last. *)
Definition engine_settings (hmac_key : string) (tokens : ServerTokens) (limits : EngineLimits)
  : list setting :=
  [SetKey hmac_key; SetMaxWorldBytes (el_max_world_bytes limits);
   SetMaxMemoryBytes (el_max_memory_bytes limits); SetMaxStorageBytes (el_max_storage_bytes limits);
   SetMaxListenConnections (el_max_listen_connections limits);
   SetListenReplayMax (el_listen_replay_max limits);
   SetReadCacheMaxEntries (el_read_cache_max_entries limits)]
  ++ from_option (fun t => [SetReadToken t]) [] (st_read tokens)
  ++ from_option (fun t => [SetWriteToken t]) [] (st_write tokens)
  ++ from_option (fun t => [SetApproveToken t]) [] (st_approve tokens).

Record ServerConfig := {
  sv_host : string;
  sv_port : Z;
  sv_data : string;
  sv_builder : EngineBuilder;
  sv_state : ServerState;
}.

Context `{ErrorTexts}.

Definition env_port : result string Z :=
  match env "AUDITEDB_PORT" with
  | Present raw => map_err (fun _ => "AUDITEDB_PORT must be a TCP port number; got " +:+ debug_str raw)
                     (uint_from_str u16_max raw)
  | NotPresent => Ok 3105%Z
  | NotUnicode => Err "AUDITEDB_PORT must be valid Unicode"
  end.

Definition env_hmac_key : result string string :=
  raw_hmac_key ← (match env "AUDITEDB_KEY" with
                  | Present value => Ok (Some value)
                  | NotPresent => Ok None
                  | NotUnicode => Err "AUDITEDB_KEY is invalid: value is not valid Unicode"
                  end);
  match hmac_key_from_env_value raw_hmac_key with
  | Ok (Some key) => Ok key
  | Ok None => Err "AUDITEDB_KEY is required; the audit chain has no meaning without it"
  | Err err => Err ("AUDITEDB_KEY is invalid: " +:+ InvalidHmacKey_display err)
  end.

(** [run_from_env] and [build_engine_from_env], up to [build]. *)
Definition config_from_env : result string ServerConfig :=
  port ← env_port;
  max_world_bytes ← env_usize "AUDITEDB_MAX_WORLD_BYTES" DEFAULT_MAX_WORLD_BYTES;
  max_memory_bytes ← env_usize "AUDITEDB_MAX_MEMORY_BYTES" DEFAULT_MAX_MEMORY_BYTES;
  max_storage_bytes ← env_optional_usize "AUDITEDB_MAX_STORAGE_BYTES";
  max_listen_connections ←
    env_nonzero_usize "AUDITEDB_MAX_LISTEN_CONNECTIONS" DEFAULT_MAX_LISTEN_CONNECTIONS;
  listen_replay_max ← env_nonzero_usize "AUDITEDB_LISTEN_REPLAY_MAX" DEFAULT_LISTEN_REPLAY_MAX;
  read_cache_max_entries ←
    env_nonzero_usize "AUDITEDB_READ_CACHE_MAX_ENTRIES" DEFAULT_READ_CACHE_MAX_ENTRIES;
  hmac_key ← env_hmac_key;
  let limits :=
    {| el_max_world_bytes := max_world_bytes; el_max_memory_bytes := max_memory_bytes;
       el_max_storage_bytes := max_storage_bytes; el_max_listen_connections := max_listen_connections;
       el_listen_replay_max := listen_replay_max; el_read_cache_max_entries := read_cache_max_entries |} in
  Ok {| sv_host := match env "AUDITEDB_HOST" with Present host => host | _ => "127.0.0.1" end;
        sv_port := port;
        sv_data := match env "AUDITEDB_DATA" with Present data => data | _ => "./data" end;
        sv_builder := configure (engine_settings hmac_key ServerTokens_from_env limits);
        sv_state := {| persist_header_allowlist := header_allowlist_from_env;
                       persist_header_user_deny := header_user_deny_from_env |} |}.
End Config.

(** * What an accepted environment means

    A server that starts runs with the numbers, the key and the tokens its
    environment names, within the bounds the engine relies on. *)
(** ** Numbers *)

Lemma uint_digits_ok max a s v :
  (Z.of_N a <= max)%Z ->
  uint_digits max (Z.of_N a) s = Ok v
  <-> exists n, digits_value a s = Some n /\ v = Z.of_N n /\ (v <= max)%Z.
Proof.
  revert a. induction s as [|c s IH]; intros a Ha; cbn [uint_digits digits_value].
  { split; [intros [= <-]; eauto|by intros (n & [= <-] & -> & _)]. }
  destruct (is_ascii_digit c) eqn:Hc; [|naive_solver].
  pose proof (digit_bv c Hc) as Hb. set (a' := (a * 10 + (N_of_ascii c - 48))%N).
  assert (Z.of_N a * 10 + (bv c - 48) = Z.of_N a')%Z as -> by (unfold a', bv in *; lia).
  cbn zeta. destruct (Z.leb_spec (Z.of_N a') max) as [Hle|Hgt]; [by apply IH|].
  split; [done|]. intros (n & Hn & -> & Hv). apply digits_value_ge in Hn. lia.
Qed.

Lemma uint_from_str_ok s v : uint_from_str usize_max s = Ok v <-> parse_usize s = Some v.
Proof.
  assert (forall r, r <> "" -> uint_digits usize_max 0 r = Ok v
            <-> (n ← Z.of_N <$> parse_digits r; if (n <=? usize_max)%Z then Some n else None) = Some v) as Hr.
  { intros r Hne. change 0%Z with (Z.of_N 0). rewrite uint_digits_ok by done. unfold parse_digits.
    destruct r as [|c r]; [done|]. destruct (digits_value 0 (String c r)) as [n|]; cbn; [|naive_solver].
    destruct (Z.leb_spec (Z.of_N n) usize_max); naive_solver lia. }
  unfold uint_from_str, parse_usize. destruct s as [|c [|d r]]; [done| |].
  - rewrite Hr by done. destruct (ascii_eqb c "+") eqn:E; [|done]. apply ascii_eqb_spec in E as ->. done.
  - destruct (ascii_eqb c "+"); by apply Hr.
Qed.

Lemma parse_usize_bounds s v : parse_usize s = Some v -> (0 <= v <= usize_max)%Z.
Proof.
  unfold parse_usize. intros (n & Hn & Hv)%bind_Some. destruct (Z.leb_spec n usize_max); [|done].
  injection Hv as <-. split; [|done]. destruct s as [|c r]; [done|].
  destruct (ascii_eqb c "+"); apply fmap_Some in Hn as (k & _ & ->); lia.
Qed.

(** The number a variable stands for, which may be zero. *)
Definition number_of (var : EnvVar) (default v : Z) : Prop :=
  match var with
  | NotPresent => v = default
  | NotUnicode => False
  | Present raw => parse_usize (trim raw) = Some v
  end.

(** The optional quota a variable stands for: blank and zero mean none. *)
Definition quota_of (var : EnvVar) (q : option Z) : Prop :=
  match var with
  | NotPresent => q = None
  | NotUnicode => False
  | Present raw => trim raw = "" /\ q = None
      \/ exists v, parse_usize (trim (trim raw)) = Some v /\ q = if (0 <? v)%Z then Some v else None
  end.

(** The token a variable stands for: blank means none, and so does a value that
    is not Unicode. *)
Definition token_of (var : EnvVar) (t : option string) : Prop :=
  match var with
  | NotPresent | NotUnicode => t = None
  | Present raw => trim raw = "" /\ t = None \/ trim raw <> "" /\ t = Some raw
  end.

Lemma parse_env_ok name raw expected v :
  parse_usize_env_value name raw expected = Ok v <-> parse_usize (trim raw) = Some v.
Proof.
  unfold parse_usize_env_value. case_bool_decide as E; [by rewrite E|].
  by rewrite map_err_Ok, uint_from_str_ok.
Qed.

Section Env.
Context (env : string -> EnvVar).

Lemma env_usize_ok name default v : env_usize env name default = Ok v <-> number_of (env name) default v.
Proof.
  unfold env_usize, number_of. destruct (env name); [|done|apply parse_env_ok].
  split; [by intros [= <-]|by intros ->].
Qed.

Lemma env_optional_ok name q : env_optional_usize env name = Ok q <-> quota_of (env name) q.
Proof.
  unfold env_optional_usize, quota_of. destruct (env name) as [| |raw]; [|done|].
  { split; [by intros [= <-]|by intros ->]. }
  case_bool_decide as E; [split; [intros [= <-]; by left|intros [[_ ->]|(v & Hv & _)]; [done|by rewrite E in Hv]]|].
  rewrite result_bind_Ok. setoid_rewrite parse_env_ok. split.
  - intros (v & Hv & [= <-]). right. by exists v.
  - intros [[? _]|(v & Hv & ->)]; [done|]. by exists v.
Qed.

(** A limit that may not be zero. *)
Definition positive_of (var : EnvVar) (default v : Z) : Prop :=
  exists n, number_of var default n /\ v = if (n =? 0)%Z then default else n.

Lemma env_nonzero_ok name default v :
  env_nonzero_usize env name default = Ok v <-> positive_of (env name) default v.
Proof.
  unfold env_nonzero_usize, positive_of. rewrite result_bind_Ok. setoid_rewrite env_usize_ok.
  split; intros (n & Hn & Hv); exists n; (split; [done|]); congruence.
Qed.

Lemma number_bounds var default v :
  number_of var default v -> (0 <= default <= usize_max)%Z -> (0 <= v <= usize_max)%Z.
Proof. destruct var; cbn; [intros ->; done|done|]. intros Hv _. by eapply parse_usize_bounds. Qed.

(** ** Tokens *)

Lemma nonempty_env_token name t : nonempty_env env name = t <-> token_of (env name) t.
Proof. unfold nonempty_env, token_of. destruct (env name); [done..|]. case_bool_decide; naive_solver. Qed.

Lemma nonempty_token name t : nonempty_env env name = Some t -> NonEmptyBytes_new t = Some t.
Proof.
  unfold nonempty_env, NonEmptyBytes_new, is_valid. destruct (env name) as [| |raw]; [done|done|].
  case_bool_decide as E; [done|]. intros [= <-]. rewrite bool_decide_false by (intros ->; done). cbn.
  destruct (is_utf8 raw); [|done]. by rewrite bool_decide_false.
Qed.

Lemma configured_tokens key limits :
  eb_tokens (configure (engine_settings key (ServerTokens_from_env env) limits))
  = {| tok_read := nonempty_env env "AUDITEDB_READ_TOKEN"; tok_write := nonempty_env env "AUDITEDB_WRITE_TOKEN";
       tok_approve := nonempty_env env "AUDITEDB_APPROVE_TOKEN" |}.
Proof.
  unfold engine_settings, ServerTokens_from_env, configure. cbn [st_read st_write st_approve].
  pose proof (nonempty_token "AUDITEDB_READ_TOKEN") as Hr.
  pose proof (nonempty_token "AUDITEDB_WRITE_TOKEN") as Hw.
  pose proof (nonempty_token "AUDITEDB_APPROVE_TOKEN") as Ha.
  destruct (nonempty_env env "AUDITEDB_READ_TOKEN") as [r|], (nonempty_env env "AUDITEDB_WRITE_TOKEN") as [w|],
    (nonempty_env env "AUDITEDB_APPROVE_TOKEN") as [a|]; cbn;
    rewrite ?(Hr _ eq_refl), ?(Hw _ eq_refl), ?(Ha _ eq_refl); reflexivity.
Qed.

Lemma configured_limits key limits :
  let b := configure (engine_settings key (ServerTokens_from_env env) limits) in
  eb_key b = Some key /\ eb_max_world_bytes b = el_max_world_bytes limits
  /\ eb_max_memory_bytes b = el_max_memory_bytes limits
  /\ eb_max_storage_bytes b
     = match el_max_storage_bytes limits with Some v => if (0 <? v)%Z then Some v else None | None => None end
  /\ eb_max_listen_connections b
     = nonzero_or_default (el_max_listen_connections limits) DEFAULT_MAX_LISTEN_CONNECTIONS
  /\ eb_listen_replay_max b = nonzero_or_default (el_listen_replay_max limits) DEFAULT_LISTEN_REPLAY_MAX
  /\ eb_read_cache_max_entries b
     = nonzero_or_default (el_read_cache_max_entries limits) DEFAULT_READ_CACHE_MAX_ENTRIES.
Proof.
  unfold engine_settings, ServerTokens_from_env, configure. cbn [st_read st_write st_approve].
  destruct (nonempty_env env "AUDITEDB_READ_TOKEN"), (nonempty_env env "AUDITEDB_WRITE_TOKEN"),
    (nonempty_env env "AUDITEDB_APPROVE_TOKEN"); cbn; destruct (el_max_storage_bytes limits); done.
Qed.

(** ** The server *)

Lemma uint_from_str_bounds max s v : (0 <= max)%Z -> uint_from_str max s = Ok v -> (0 <= v <= max)%Z.
Proof.
  intros Hmax. assert (forall r, uint_digits max 0 r = Ok v -> (0 <= v <= max)%Z) as Hr.
  { intros r. change 0%Z with (Z.of_N 0) at 1. rewrite uint_digits_ok by lia. intros (n & _ & -> & Hn). lia. }
  unfold uint_from_str. destruct s as [|c [|d r]]; [done|apply Hr|]. destruct (ascii_eqb c "+"); apply Hr.
Qed.

Lemma hmac_key_same raw key : AuditHmacKey_new raw = Ok key -> key = raw /\ (MIN_HMAC_KEY_BYTES <= slen raw)%Z.
Proof.
  unfold AuditHmacKey_new, NonEmptyBytes_new. destruct (is_valid raw); [|done]. cbn [ok_or mbind result_bind].
  destruct (Z.ltb_spec (slen raw) MIN_HMAC_KEY_BYTES); [done|]. by intros [= <-].
Qed.

Context `{ErrorTexts}.

Lemma env_key_ok key :
  env_hmac_key env = Ok key -> env "AUDITEDB_KEY" = Present key /\ (MIN_HMAC_KEY_BYTES <= slen key)%Z.
Proof.
  unfold env_hmac_key, hmac_key_from_env_value. destruct (env "AUDITEDB_KEY") as [| |raw]; [done|done|].
  cbn [mbind result_bind]. destruct (AuditHmacKey_new raw) as [k|err] eqn:E; [|done]. cbn. intros [= <-].
  by apply hmac_key_same in E as [-> ?].
Qed.

Lemma nonzero_positive var d v :
  positive_of var d v -> (0 < d <= usize_max)%Z -> (0 < v <= usize_max)%Z /\ nonzero_or_default v d = v.
Proof.
  intros (n & Hn & ->) Hd. apply number_bounds in Hn; [|lia]. unfold nonzero_or_default.
  destruct (Z.eqb_spec n 0); [destruct (Z.eqb_spec d 0)|destruct (Z.eqb_spec n 0)]; lia.
Qed.

Lemma quota_bounds var q : quota_of var q -> forall v, q = Some v -> (0 < v <= usize_max)%Z.
Proof.
  destruct var as [| |raw]; cbn; [by intros ->|done|].
  intros [[_ ->]|(n & Hn & ->)] v; [done|]. apply parse_usize_bounds in Hn.
  destruct (Z.ltb_spec 0 n); [|done]. intros [= <-]. lia.
Qed.

(** What [config_from_env] read. *)
Lemma config_parts sv :
  config_from_env env = Ok sv ->
  exists key limits, env_hmac_key env = Ok key
    /\ sv_builder sv = configure (engine_settings key (ServerTokens_from_env env) limits)
    /\ number_of (env "AUDITEDB_MAX_WORLD_BYTES") DEFAULT_MAX_WORLD_BYTES (el_max_world_bytes limits)
    /\ number_of (env "AUDITEDB_MAX_MEMORY_BYTES") DEFAULT_MAX_MEMORY_BYTES (el_max_memory_bytes limits)
    /\ quota_of (env "AUDITEDB_MAX_STORAGE_BYTES") (el_max_storage_bytes limits)
    /\ positive_of (env "AUDITEDB_MAX_LISTEN_CONNECTIONS") DEFAULT_MAX_LISTEN_CONNECTIONS
         (el_max_listen_connections limits)
    /\ positive_of (env "AUDITEDB_LISTEN_REPLAY_MAX") DEFAULT_LISTEN_REPLAY_MAX (el_listen_replay_max limits)
    /\ positive_of (env "AUDITEDB_READ_CACHE_MAX_ENTRIES") DEFAULT_READ_CACHE_MAX_ENTRIES
         (el_read_cache_max_entries limits)
    /\ env_port env = Ok (sv_port sv).
Proof.
  intros Hsv. unfold config_from_env in Hsv. inv_ok. do 2 eexists. split; [eassumption|]. split; [reflexivity|].
  cbn [el_max_world_bytes el_max_memory_bytes el_max_storage_bytes el_max_listen_connections el_listen_replay_max
       el_read_cache_max_entries sv_port].
  rewrite <- !env_usize_ok, <- env_optional_ok, <- !env_nonzero_ok. by split_and!.
Qed.

Lemma settings_ok key limits :
  (0 <= el_max_world_bytes limits <= usize_max)%Z -> (0 <= el_max_memory_bytes limits <= usize_max)%Z ->
  (forall v, el_max_storage_bytes limits = Some v -> (0 < v <= usize_max)%Z) ->
  (0 < el_max_listen_connections limits <= usize_max)%Z -> (0 < el_listen_replay_max limits <= usize_max)%Z ->
  (0 < el_read_cache_max_entries limits <= usize_max)%Z ->
  Forall setting_ok (engine_settings key (ServerTokens_from_env env) limits).
Proof.
  intros. unfold engine_settings. generalize (ServerTokens_from_env env). intros [[r|] [w|] [a|]];
    cbn [st_read st_write st_approve from_option app];
    repeat constructor; cbn [setting_ok]; try lia.
  all: destruct (el_max_storage_bytes limits) as [v|]; [|done]; assert (0 < v <= usize_max)%Z by auto; lia.
Qed.

(** C28: The environment decides the server.  When the configuration is accepted,
    the engine gets the key named by [AUDITEDB_KEY], at least 32 bytes long.  Its
    tokens are the token variables that are Unicode and not blank; one that is
    set but not Unicode is dropped without an error, like one that is unset, and
    reads are public exactly when the read token is so missing.  Its limits are the decimal
    numbers the variables name: the default where one is unset; zero is kept for
    the world and memory limits, means no quota for the storage limit, and means
    the default for the connection, replay and cache limits.  All of them are
    within the bounds the engine relies on, so it starts in its invariant. *)
Theorem server_config_sound sv :
  config_from_env env = Ok sv ->
  let b := sv_builder sv in
  (exists key, env "AUDITEDB_KEY" = Present key /\ eb_key b = Some key
     /\ (MIN_HMAC_KEY_BYTES <= slen key)%Z
     /\ builder_ok b /\ config_ok (config_of key b) /\ limits_ok (config_of key b))
  /\ token_of (env "AUDITEDB_READ_TOKEN") (tok_read (eb_tokens b))
  /\ token_of (env "AUDITEDB_WRITE_TOKEN") (tok_write (eb_tokens b))
  /\ token_of (env "AUDITEDB_APPROVE_TOKEN") (tok_approve (eb_tokens b))
  /\ (can_read (eb_tokens b) Anon = true
      <-> forall raw, env "AUDITEDB_READ_TOKEN" = Present raw -> trim raw = "")
  /\ number_of (env "AUDITEDB_MAX_WORLD_BYTES") DEFAULT_MAX_WORLD_BYTES (eb_max_world_bytes b)
  /\ number_of (env "AUDITEDB_MAX_MEMORY_BYTES") DEFAULT_MAX_MEMORY_BYTES (eb_max_memory_bytes b)
  /\ quota_of (env "AUDITEDB_MAX_STORAGE_BYTES") (eb_max_storage_bytes b)
  /\ positive_of (env "AUDITEDB_MAX_LISTEN_CONNECTIONS") DEFAULT_MAX_LISTEN_CONNECTIONS
       (eb_max_listen_connections b)
  /\ positive_of (env "AUDITEDB_LISTEN_REPLAY_MAX") DEFAULT_LISTEN_REPLAY_MAX (eb_listen_replay_max b)
  /\ positive_of (env "AUDITEDB_READ_CACHE_MAX_ENTRIES") DEFAULT_READ_CACHE_MAX_ENTRIES
       (eb_read_cache_max_entries b)
  /\ (0 <= sv_port sv <= u16_max)%Z.
Proof.
  intros Hsv b. subst b.
  destruct (config_parts sv Hsv) as (key & limits & Hk & -> & Hw & Hm & Hq & Hl & Hr & Hc & Hp).
  apply env_key_ok in Hk as [Hkey Hlen].
  destruct (configured_limits key limits) as (Ek & Ew & Em & Eq & El & Er & Ec).
  destruct (nonzero_positive _ _ _ Hl ltac:(by vm_compute)) as [Hl' El'].
  destruct (nonzero_positive _ _ _ Hr ltac:(by vm_compute)) as [Hr' Er'].
  destruct (nonzero_positive _ _ _ Hc ltac:(by vm_compute)) as [Hc' Ec'].
  pose proof (number_bounds _ _ _ Hw ltac:(by vm_compute)). pose proof (number_bounds _ _ _ Hm ltac:(by vm_compute)).
  pose proof (quota_bounds _ _ Hq) as Hq'.
  rewrite configured_tokens, Ew, Em, Eq, El, Er, Ec, El', Er', Ec'. split_and!; try done.
  - exists key. split_and!; [done|done|done|..]; apply (builder_config_valid _ key); by apply settings_ok.
  - by apply nonempty_env_token.
  - by apply nonempty_env_token.
  - by apply nonempty_env_token.
  - unfold can_read, read_required, nonempty_env. cbn [tok_read].
    destruct (env "AUDITEDB_READ_TOKEN") as [| |raw]; [done..|].
    destruct (decide (trim raw = "")) as [E|E].
    + rewrite (bool_decide_true _ E). split; [by intros _ ? [= <-]|done].
    + rewrite (bool_decide_false _ E). split; [done|]. intros Hb. destruct E. by apply Hb.
  - destruct (el_max_storage_bytes limits) as [v|]; [|done].
    rewrite (proj2 (Z.ltb_lt 0 v)); [done|]. by apply Hq'.
  - unfold env_port in Hp. destruct (env "AUDITEDB_PORT"); [injection Hp as <-; by vm_compute|done|].
    apply map_err_Ok, uint_from_str_bounds in Hp; [lia|done].
  - unfold env_port in Hp. destruct (env "AUDITEDB_PORT"); [injection Hp as <-; by vm_compute|done|].
    apply map_err_Ok, uint_from_str_bounds in Hp; [lia|done].
Qed.

(** A read token that is not Unicode is dropped where every other variable of
    that kind stops the server: reads are then public, and on a loopback address
    nothing warns of it. *)
Theorem unreadable_read_token_opens_reads sv :
  config_from_env env = Ok sv -> env "AUDITEDB_READ_TOKEN" = NotUnicode ->
  (forall tier, can_read (eb_tokens (sv_builder sv)) tier = true)
  /\ warns_about_reads env true = false.
Proof.
  intros Hsv Hn. destruct (config_parts sv Hsv) as (key & limits & _ & -> & _).
  rewrite configured_tokens. unfold can_read, warns_about_reads, env_set_but_empty, nonempty_env, read_required.
  rewrite Hn. split; [by intros tier|done].
Qed.
End Env.

(** ** A concrete environment *)

Definition sample_env (name : string) : EnvVar :=
  if bool_decide (name = "AUDITEDB_KEY") then Present "0123456789abcdef0123456789abcdef"
  else if bool_decide (name = "AUDITEDB_MAX_WORLD_BYTES") then Present " +4096 "
  else if bool_decide (name = "AUDITEDB_MAX_MEMORY_BYTES") then Present "0"
  else if bool_decide (name = "AUDITEDB_MAX_LISTEN_CONNECTIONS") then Present "0"
  else if bool_decide (name = "AUDITEDB_WRITE_TOKEN") then Present "w"
  else if bool_decide (name = "AUDITEDB_APPROVE_TOKEN") then Present "  "
  else if bool_decide (name = "AUDITEDB_READ_TOKEN") then NotUnicode
  else NotPresent.

Definition sample_config : result string ServerConfig := config_from_env sample_env.

(** Zero is kept as the memory limit and replaced as the connection limit; the
    read token is not Unicode, and reads are public. *)
Lemma server_config_sound_witness :
  exists sv, sample_config = Ok sv
    /\ eb_max_world_bytes (sv_builder sv) = 4096%Z /\ eb_max_memory_bytes (sv_builder sv) = 0%Z
    /\ eb_max_listen_connections (sv_builder sv) = 1024%Z
    /\ tok_write (eb_tokens (sv_builder sv)) = Some "w" /\ can_read (eb_tokens (sv_builder sv)) Anon = true.
Proof.
  assert (is_ok sample_config = true) as Hok by evaluate.
  destruct sample_config as [sv|err] eqn:E; [|discriminate Hok]. exists sv. split; [reflexivity|].
  destruct (server_config_sound sample_env sv E) as (_ & _ & Hw & _ & Hread & Hworld & Hmem & _ & (n & Hn & Hl) & _).
  split; [|split; [|split; [|split]]].
  - assert (parse_usize (trim " +4096 ") = Some 4096%Z) as Hp by evaluate.
    change (parse_usize (trim " +4096 ") = Some (eb_max_world_bytes (sv_builder sv))) in Hworld. congruence.
  - assert (parse_usize (trim "0") = Some 0%Z) as Hp by evaluate.
    change (parse_usize (trim "0") = Some (eb_max_memory_bytes (sv_builder sv))) in Hmem. congruence.
  - assert (parse_usize (trim "0") = Some 0%Z) as Hp by evaluate.
    change (parse_usize (trim "0") = Some n) in Hn. assert (n = 0%Z) as -> by congruence. exact Hl.
  - destruct Hw as [[Hb _]|[_ Hw]]; [vm_compute in Hb; discriminate Hb|exact Hw].
  - apply Hread. intros raw Hraw. vm_compute in Hraw. discriminate Hraw.
Defined.

Lemma unreadable_read_token_opens_reads_witness :
  exists sv, sample_config = Ok sv /\ can_read (eb_tokens (sv_builder sv)) Anon = true.
Proof.
  assert (is_ok sample_config = true) as Hok by evaluate.
  destruct sample_config as [sv|err] eqn:E; [|discriminate Hok]. exists sv. split; [reflexivity|].
  apply (unreadable_read_token_opens_reads sample_env sv E ltac:(evaluate)).
Defined.
