(* ===== verification/HttpListen.v ===== *)
(** * The listen route

    Models [bin/src/server/listen.rs]: the handler of [/listen/<pattern>], the
    [Last-Event-ID] header, and the stream of server-sent events it unfolds from
    a subscription.  An [Event] holds what the code hands to [axum]'s event
    builder: the event name, the data and the id; keep-alive comments are left
    out.  [hm_get_all] is [HeaderMap::get_all] of the [http] crate. *)

From Stdlib Require Import Ascii.
From S2P Require Import Prelude.
From S2P Require Import RustStr.
From S2P Require Import Path.
From S2P Require Import Auth.
From S2P Require Import Crypto.
From S2P Require Import Types.
From S2P Require Import Db.
From S2P Require Import Timeline.
From S2P Require Import EventId.
From S2P Require Import StorageClass.
From S2P Require Import Core.
From S2P Require Import WorldOps.
From S2P Require Import Usage.
From S2P Require Import CoreInv.
From S2P Require Import CoreTheorems.
From S2P Require Import EngineOps.
From S2P Require Import Announce.
From S2P Require Import Subscription.
From S2P Require Import SubscriptionTheorems.
From S2P Require Import HttpResponse.
From S2P Require Import HttpSemantics.
From S2P Require Import HttpPipeline.

Definition LISTEN_ALLOW : string := "GET, OPTIONS".

Class HttpGetAll := { hm_get_all : HeaderMap -> string -> list string }.

(** ** [Last-Event-ID] *)

(** [Display for InvalidSubscriptionEventId]. *)
Definition event_id_error_to_string (err : InvalidSubscriptionEventId) : string :=
  match err with
  | MissingSeqDelimiter => "subscription event id is missing seq delimiter"
  | MissingGenerationDelimiter => "subscription event id is missing generation delimiter"
  | InvalidWorldUtf8 => "subscription event id world is not valid UTF-8"
  | IdWorldPath reason => reason
  | IdMemoryWorld => "subscription event id world is not durable"
  | IdGenerationWrongLength => "subscription event id generation has wrong length"
  | IdGenerationNotLowerHex => "subscription event id generation is not lower hex"
  | SeqNotInteger => "subscription event id sequence is not an integer"
  | SeqOutOfRange => "subscription event id sequence is out of range"
  | SeqNonPositive => "subscription event id sequence is not positive"
  | NonCanonical => "subscription event id is not canonical"
  end.

Section LastEventId.
Context `{HttpCrate} `{HttpGetAll} `{PercentEncoding}.

Definition parse_last_event_id (headers : HeaderMap) : result string SubscriptionResume :=
  match hm_get_all headers "last-event-id" with
  | [] => Ok ResumeNone
  | [value] =>
      raw ← ok_or "invalid Last-Event-ID: header is not valid text" (value_to_str value);
      _ ← ensure (negb (bool_decide (raw = ""))) "invalid Last-Event-ID: empty value";
      id ← map_err (fun err => "invalid Last-Event-ID: " +:+ event_id_error_to_string err)
             (from_sse_id raw);
      Ok (ResumeDurable id)
  | _ => Err "invalid Last-Event-ID: duplicate header"
  end.
End LastEventId.

(** ** Events *)

Record Event := { ev_event : string; ev_data : string; ev_sse_id : option string }.

Definition reset_reason_wire (reason : SubscriptionResetReason) : string :=
  match reason with
  | Incarnation => "incarnation"
  | Truncation => "truncation"
  | RingMiss => "ring-miss"
  | Memory => "memory"
  end.

Definition sse_reset_event (reason : SubscriptionResetReason) : Event :=
  {| ev_event := "reset"; ev_data := "reason: " +:+ reset_reason_wire reason; ev_sse_id := None |}.

Definition sse_lag_event (skipped : Z) : Event :=
  {| ev_event := "lag"; ev_data := "missed: " +:+ to_string skipped; ev_sse_id := None |}.

Definition change_method (verb : ChangeVerb) : string :=
  match verb with
  | VerbReplace => "PUT"
  | VerbAppend => "POST"
  | VerbDelete => "DELETE"
  | VerbFormat => "FORMAT"
  end.

Definition durable_sse_id (change : PublicChangeEvent) : option string :=
  match pe_identity change with
  | IdentityEphemeral => None
  | IdentityChain id =>
      if bool_decide (sid_world id = pe_path change) then Some (SubscriptionEventId_to_string id)
      else None
  end.

(** [data.push_str(..)] of a label and a value. *)
Definition push (label value : string) (data : string) : string := data +:+ label +:+ value.

(** The same under [if let Some(value)]. *)
Definition push_some {A} (label : string) (show : A -> string) (value : option A) (data : string)
  : string :=
  match value with Some v => push label (show v) data | None => data end.

(** A timeline address is sent only with an event of its own world. *)
Definition push_address (change : PublicChangeEvent) (data : string) : string :=
  match pe_timeline_address change with
  | Some address =>
      if bool_decide (ta_world address = pe_path change) then
        let data := push (lf +:+ "timeline-world: ") (ta_world address) data in
        let data := push (lf +:+ "timeline-generation: ") (ta_gen address) data in
        let data := push (lf +:+ "timeline-seq: ") (to_string (ta_seq address)) data in
        push (lf +:+ "timeline-body-sha256: ") (ta_body_sha256 address) data
      else data
  | None => data
  end.

Definition sse_change_data (change : PublicChangeEvent) : string :=
  let data := "path: /" +:+ pe_path change +:+ lf +:+ "method: " +:+ change_method (pe_verb change) in
  let data := if bool_decide (pe_etag change = "") then data
              else push (lf +:+ "etag: ") (pe_etag change) data in
  let data := push_address change data in
  let data := match pe_delete_ledger_event_id change with
              | Some id =>
                  let data := push (lf +:+ "ledger-cursor: ") (SubscriptionEventId_to_string id) data in
                  push (lf +:+ "ledger-seq: ") (to_string (sid_seq id)) data
              | None => data
              end in
  let data := push_some (lf +:+ "target-generation: ") (fun g => g) (delete_subject_generation change) data in
  let data := push_some (lf +:+ "event-type: ") AuditEventType_as_str (pe_audit_event_type change) data in
  let data := push_some (lf +:+ "target: /") (fun t => t) (pe_audit_event_target change) data in
  let data := push_some (lf +:+ "body-sha256: ") (fun h => h) (pe_body_sha256 change) data in
  let data := push_some (lf +:+ "size: ") to_string (pe_body_size change) data in
  push_some (lf +:+ "content-type: ") (fun ct => ct) (pe_content_type change) data.

Definition sse_change_event (change : PublicChangeEvent) : Event :=
  {| ev_event := to_ascii_lowercase (change_method (pe_verb change));
     ev_data := sse_change_data change;
     ev_sse_id := durable_sse_id change |}.

(** ** The stream *)

(** What the closure of [unfold] makes of a received item; the end of the
    stream is [None]. *)
Definition stream_item (item : result SubscriptionRecvError PublicChangeEvent) : option Event :=
  match item with
  | Ok change => Some (sse_change_event change)
  | Err (Lagged skipped) => Some (sse_lag_event skipped)
  | Err (Reset reason) => Some (sse_reset_event reason)
  | Err Closed => None
  end.

Inductive StreamPoll := Item (e : Event) | End | Waiting (live : LiveSubscription) | Panics (message : string).

Section Stream.
Context `{Broadcast}.

(** One poll of the stream. *)
Definition stream_next (shutdown : bool) (sent : list ChangeEvent) (sub : EngineSubscription)
  : option (StreamPoll * EngineSubscription) :=
  match recv shutdown sent sub with
  | Some (Ready item, sub) =>
      Some (match stream_item item with Some e => Item e | None => End end, sub)
  | Some (Pending live, sub) => Some (Waiting live, sub)
  | Some (Panic message, sub) => Some (Panics message, sub)
  | None => None
  end.

(** The events of the first [fuel] polls, up to one that gives none. *)
Fixpoint stream_events (fuel : nat) (sent : list ChangeEvent) (sub : EngineSubscription) : list Event :=
  match fuel with
  | O => []
  | S fuel =>
      match stream_next false sent sub with
      | Some (Item e, sub) => e :: stream_events fuel sent sub
      | _ => []
      end
  end.
End Stream.

(** ** The handler *)

Definition listen_unavailable (body : string) : Response :=
  {| status := 503; resp_headers := [TEXT_PLAIN; ("retry-after", "1")]; resp_body := body +:+ lf |}.

Definition subscribe_error_response (err : EngineError) : Response :=
  match err with
  | EngineAuth _ => unauthorized "listen requires read token"
  | SubscriptionLimit => listen_unavailable "too many listen connections"
  | ShuttingDown | TransientStorage => listen_unavailable "listen temporarily unavailable"
  | InvalidWorldName => bad_request "invalid listen pattern"
  | _ => server_error "listen failed"
  end.

Inductive ListenAnswer := Answer (resp : Response) | Stream (sub : EngineSubscription).

Section Handler.
Context `{Crypto} `{Rusqlite} `{HttpCrate} `{HttpGetAll} `{PercentEncoding} `{Base64}.
Context (cfg : Config) (tokens : Tokens).

Definition listen_handler (j : Join) (f : option sqlite_error) (method : Method) (headers : HeaderMap)
    (raw_pattern : string) (e : Engine) : ListenAnswer * Engine :=
  if bool_decide (method = OPTIONS) then (Answer (options_response LISTEN_ALLOW), e)
  else if negb (bool_decide (method = GET)) then (Answer (method_not_allowed LISTEN_ALLOW), e)
  else
    let tier := access_tier_from_headers tokens headers in
    match parse_last_event_id headers with
    | Err reason => (Answer (bad_request reason), e)
    | Ok resume =>
        match subscribe cfg tokens j f raw_pattern tier resume e with
        | (Ok sub, e) => (Stream sub, e)
        | (Err err, e) => (Answer (subscribe_error_response err), e)
        end
    end.
End Handler.

(** * The listen route: theorems

    The fields of a change event are read back from the lines of its data, and a
    client that reconnects with the last id it saw is sent the events of every
    later row exactly once. *)
(** ** A reader of event data *)

Definition LF : ascii := "010".
Definition CR : ascii := "013".

(** A line [name: value]. *)
Definition read_field (line : string) : option (string * string) :=
  '(name, rest) ← split_once ":" line;
  value ← strip_prefix " " rest;
  Some (name, value).

Definition data_fields (data : string) : list (string * string) := omap read_field (split LF data).

(** All values of a name. *)
Definition values (name : string) (fields : list (string * string)) : list string :=
  snd <$> filter (fun f => fst f = name) fields.

(** ** The fields of an event *)

Definition print_field (f : string * string) : string := fst f +:+ ": " +:+ snd f.

Definition print_fields (data : string) (fields : list (string * string)) : string :=
  foldl (fun data f => data +:+ lf +:+ print_field f) data fields.

Definition opt_field {A} (name : string) (show : A -> string) (value : option A)
  : list (string * string) := option_list ((fun v => (name, show v)) <$> value).

Definition nonempty (s : string) : option string := if bool_decide (s = "") then None else Some s.

(** The address an event may carry: that of its own world. *)
Definition own_address (change : PublicChangeEvent) : option TimelineAddress :=
  a ← pe_timeline_address change;
  if bool_decide (ta_world a = pe_path change) then Some a else None.

Definition change_fields (change : PublicChangeEvent) : list (string * string) :=
  [("method", change_method (pe_verb change))]
  ++ opt_field "etag" (fun t => t) (nonempty (pe_etag change))
  ++ opt_field "timeline-world" ta_world (own_address change)
  ++ opt_field "timeline-generation" ta_gen (own_address change)
  ++ opt_field "timeline-seq" (fun a => to_string (ta_seq a)) (own_address change)
  ++ opt_field "timeline-body-sha256" ta_body_sha256 (own_address change)
  ++ opt_field "ledger-cursor" SubscriptionEventId_to_string (pe_delete_ledger_event_id change)
  ++ opt_field "ledger-seq" (fun id => to_string (sid_seq id)) (pe_delete_ledger_event_id change)
  ++ opt_field "target-generation" (fun g => g) (delete_subject_generation change)
  ++ opt_field "event-type" AuditEventType_as_str (pe_audit_event_type change)
  ++ opt_field "target" (fun t => "/" +:+ t) (pe_audit_event_target change)
  ++ opt_field "body-sha256" (fun h => h) (pe_body_sha256 change)
  ++ opt_field "size" to_string (pe_body_size change)
  ++ opt_field "content-type" (fun ct => ct) (pe_content_type change).

Lemma print_fields_app data fs gs :
  print_fields data (fs ++ gs) = print_fields (print_fields data fs) gs.
Proof. apply foldl_app. Qed.

Lemma print_opt_field {A} name show (v : option A) data :
  print_fields data (opt_field name show v) = push_some (lf +:+ name +:+ ": ") show v data.
Proof.
  destruct v as [v|]; [|done]. unfold print_fields, opt_field, push_some, push, print_field.
  cbn [foldl option_list option_rect fmap option_fmap option_map fst snd]. by rewrite !sapp_assoc.
Qed.

(** The data is the printed fields. *)
Lemma sse_change_data_fields change :
  sse_change_data change
  = print_fields (print_field ("path", "/" +:+ pe_path change)) (change_fields change).
Proof.
  unfold change_fields. rewrite !print_fields_app, !print_opt_field. unfold sse_change_data, push_address.
  assert (forall l, lf +:+ l +:+ ": " = lf +:+ (l +:+ ": ")) as Hl by done.
  unfold own_address, nonempty.
  replace (print_fields (print_field ("path", "/" +:+ pe_path change)) [("method", change_method (pe_verb change))])
    with ("path: /" +:+ pe_path change +:+ lf +:+ "method: " +:+ change_method (pe_verb change)).
  2: { unfold print_fields, print_field. cbn [foldl fst snd].
       rewrite !sapp_assoc. reflexivity. }
  assert (forall d, push_some (lf +:+ "target" +:+ ": ") (fun t => "/" +:+ t) (pe_audit_event_target change) d
                    = push_some (lf +:+ "target: /") (fun t => t) (pe_audit_event_target change) d) as ->.
  { intros d. destruct (pe_audit_event_target change); [|done]. unfold push_some, push.
    by rewrite !sapp_assoc. }
  case_bool_decide; (destruct (pe_timeline_address change) as [a|]; cbn [mbind option_bind];
    [case_bool_decide|]); destruct (pe_delete_ledger_event_id change); reflexivity.
Qed.

(** ** Lines *)

Lemma split_app c a b : split c (a +:+ String c b) = split c a ++ split c b.
Proof.
  induction a as [|x a IH].
  - rewrite sapp_nil_l. cbn [split]. by rewrite ascii_eqb_refl.
  - rewrite sapp_cons. cbn [split]. rewrite IH. destruct (ascii_eqb x c); [done|].
    pose proof (split_ne_nil c a). by destruct (split c a).
Qed.

Lemma split_once_lacks c l r :
  sall (fun d => negb (ascii_eqb d c)) l = true -> split_once c (l +:+ String c r) = Some (l, r).
Proof.
  induction l as [|a l IH].
  - rewrite sapp_nil_l. cbn. by rewrite ascii_eqb_refl.
  - rewrite sapp_cons. cbn [split_once sall]. rewrite andb_true_iff, negb_true_iff.
    intros [-> Hl]. by rewrite (IH Hl).
Qed.

Definition lacks (c : ascii) (s : string) : Prop := sall (fun d => negb (ascii_eqb d c)) s = true.

Lemma lacks_app c s t : lacks c (s +:+ t) <-> lacks c s /\ lacks c t.
Proof. unfold lacks. by rewrite sall_app, andb_true_iff. Qed.

(** A field whose name and value stay on one line. *)
Definition field_ok (f : string * string) : Prop := lacks ":" (fst f) /\ lacks LF (fst f) /\ lacks LF (snd f).

Lemma read_print_field f :
  field_ok f -> omap read_field (split LF (print_field f)) = [f].
Proof.
  destruct f as [name value]. intros (Hc & Hn & Hv). unfold print_field. cbn [fst snd] in *.
  rewrite split_no_sep.
  - cbn [omap list_omap]. unfold read_field. change (": " +:+ value) with (String ":" (" " +:+ value)).
    rewrite split_once_lacks by done. cbn [mbind option_bind]. by rewrite strip_prefix_app.
  - apply lacks_app. split; [done|]. apply lacks_app. done.
Qed.

Lemma data_fields_print fs data :
  Forall field_ok fs -> data_fields (print_fields data fs) = data_fields data ++ fs.
Proof.
  intros Hf. revert data. induction Hf as [|f fs Hok _ IH]; intros data; cbn [print_fields foldl].
  - by rewrite app_nil_r.
  - fold (print_fields (data +:+ lf +:+ print_field f) fs). rewrite IH. unfold data_fields at 1.
    change (lf +:+ print_field f) with (String LF (print_field f)).
    rewrite split_app, omap_app, read_print_field by done. by rewrite <- app_assoc.
Qed.

(** ** Values without line breaks *)

Definition one_line (s : string) : Prop := lacks LF s /\ lacks CR s.

Lemma one_line_app s t : one_line (s +:+ t) <-> one_line s /\ one_line t.
Proof. unfold one_line. rewrite !lacks_app. tauto. Qed.

Lemma one_line_all f s :
  f LF = false -> f CR = false -> sall f s = true -> one_line s.
Proof.
  intros Hl Hr Hs. split; (eapply sall_impl; [|exact Hs]); intros c Hc;
    apply negb_true_iff, not_true_iff_false; rewrite ascii_eqb_spec; intros ->; congruence.
Qed.

Lemma one_line_to_string z : one_line (to_string z).
Proof.
  destruct z as [|p|p]; [by split|apply (one_line_all is_ascii_digit); try done; by apply to_string_digits|].
  change (to_string (Z.neg p)) with ("-" +:+ pretty (N.pos p)). apply one_line_app. split; [by split|].
  apply (one_line_all is_ascii_digit); try done. apply pretty_N_digits.
Qed.

Lemma one_line_percent c : one_line (percent_byte c).
Proof. by destruct c as [[] [] [] [] [] [] [] []]. Qed.

Lemma one_line_world w : one_line (encode_event_id_world w).
Proof.
  induction w as [|c w IH]; [by split|]. cbn [encode_event_id_world]. apply one_line_app. split; [|done].
  destruct (event_id_plain c) eqn:E; [|apply one_line_percent].
  apply (one_line_all event_id_plain); [done|done|]. cbn [sall]. by rewrite E.
Qed.

Lemma one_line_id id : one_line (sid_generation id) -> one_line (SubscriptionEventId_to_string id).
Proof.
  intros Hg. unfold SubscriptionEventId_to_string. rewrite !one_line_app.
  split; [apply one_line_world|]. split; [by split|]. split; [done|]. split; [by split|].
  apply one_line_to_string.
Qed.

Lemma one_line_method v : one_line (change_method v) /\ one_line (to_ascii_lowercase (change_method v)).
Proof. by destruct v. Qed.

(** The strings of an event hold no line break. *)
Record sse_clean (change : PublicChangeEvent) : Prop := {
  cl_path : one_line (pe_path change);
  cl_etag : one_line (pe_etag change);
  cl_address : from_option (fun a => one_line (ta_gen a) /\ one_line (ta_body_sha256 a)) True
                 (own_address change);
  cl_ledger : from_option (fun id => one_line (sid_generation id)) True
                (pe_delete_ledger_event_id change);
  cl_generation : from_option one_line True (delete_subject_generation change);
  cl_target : from_option one_line True (pe_audit_event_target change);
  cl_body : from_option one_line True (pe_body_sha256 change);
  cl_type : from_option one_line True (pe_content_type change);
  cl_identity : match pe_identity change with
                | IdentityChain id => one_line (sid_generation id)
                | IdentityEphemeral => True
                end;
}.

Definition one_line_field (f : string * string) : Prop :=
  lacks ":" (fst f) /\ one_line (fst f) /\ one_line (snd f).

Lemma one_line_opt {A} name show (v : option A) :
  lacks ":" name -> one_line name -> from_option (fun v => one_line (show v)) True v ->
  Forall one_line_field (opt_field name show v).
Proof. destruct v; [|constructor]. intros Hc Hn Hv. apply Forall_singleton. by split. Qed.

Lemma own_address_world change a : own_address change = Some a -> ta_world a = pe_path change.
Proof.
  unfold own_address. intros (b & _ & Hb)%bind_Some. by case_bool_decide; [injection Hb as <-|].
Qed.

Lemma change_fields_ok change : sse_clean change -> Forall one_line_field (change_fields change).
Proof.
  intros []. unfold change_fields.
  repeat (apply Forall_app; split);
    try (apply one_line_opt; [reflexivity|split; reflexivity|]).
  - apply Forall_singleton. split_and!; [done|by split|apply one_line_method].
  - unfold nonempty. by case_bool_decide.
  - destruct (own_address change) as [a|] eqn:E; [|done]. cbn. by rewrite (own_address_world _ _ E).
  - destruct (own_address change); [apply cl_address0|done].
  - destruct (own_address change); [apply one_line_to_string|done].
  - destruct (own_address change); [apply cl_address0|done].
  - destruct (pe_delete_ledger_event_id change); [by apply one_line_id|done].
  - destruct (pe_delete_ledger_event_id change); [apply one_line_to_string|done].
  - done.
  - by destruct (pe_audit_event_type change) as [[]|].
  - destruct (pe_audit_event_target change); [|done]. by apply one_line_app.
  - done.
  - destruct (pe_body_size change); [apply one_line_to_string|done].
  - done.
Qed.

Lemma print_lacks_CR fs data : lacks CR data -> Forall one_line_field fs -> lacks CR (print_fields data fs).
Proof.
  intros Hd Hf. revert data Hd. induction Hf as [|f fs (_ & [_ Hn] & [_ Hv]) _ IH]; intros data Hd; [done|].
  apply IH. unfold print_field. rewrite !lacks_app. by split_and!.
Qed.

Lemma values_app name fs gs : values name (fs ++ gs) = values name fs ++ values name gs.
Proof. unfold values. by rewrite filter_app, fmap_app. Qed.

Lemma values_cons name other v fs :
  values name ((other, v) :: fs) = (if String.eqb other name then [v] else []) ++ values name fs.
Proof. unfold values. rewrite filter_cons. cbn [fst]. destruct (String.eqb_spec other name); by case_decide. Qed.

Lemma values_opt {A} name other show (v : option A) :
  values name (opt_field other show v) = if String.eqb other name then option_list (show <$> v) else [].
Proof.
  destruct v as [v|]; [|by destruct (String.eqb other name)].
  change (opt_field other show (Some v)) with [(other, show v)]. rewrite values_cons.
  by destruct (String.eqb other name).
Qed.

Lemma event_data_fields change :
  sse_clean change ->
  data_fields (sse_change_data change) = ("path", "/" +:+ pe_path change) :: change_fields change.
Proof.
  intros Hc. rewrite sse_change_data_fields, data_fields_print.
  - unfold data_fields. rewrite read_print_field; [done|]. split_and!; [done|done|].
    apply lacks_app. split; [done|]. apply (cl_path _ Hc).
  - eapply Forall_impl; [apply change_fields_ok, Hc|]. by intros f (? & [] & []).
Qed.

(** Evaluates [values] of a name on the list of fields. *)
Ltac field_values :=
  cbn [app]; rewrite ?values_cons, ?values_app, ?values_opt;
  cbn [String.eqb Ascii.eqb Bool.eqb app];
  rewrite ?app_nil_r, ?option_fmap_id; try reflexivity.

(** What a reader gets back from a change event.  Splitting the data into lines
    and a line at its first colon, it finds under each name exactly the value of
    that field of the event, once, or nothing where the event has none; the
    timeline address and the event id are those of the event's own world.
    Neither the event name nor the id holds a line break and the data holds no
    carriage return, so the event builder never refuses them. *)
Definition reads_back (change : PublicChangeEvent) : Prop :=
  let event := sse_change_event change in
  let field name := values name (data_fields (ev_data event)) in
  field "path" = ["/" +:+ pe_path change]
  /\ field "method" = [change_method (pe_verb change)]
  /\ field "etag" = option_list (nonempty (pe_etag change))
  /\ field "timeline-world" = option_list (ta_world <$> own_address change)
  /\ field "timeline-generation" = option_list (ta_gen <$> own_address change)
  /\ field "timeline-seq" = option_list (to_string ∘ ta_seq <$> own_address change)
  /\ field "timeline-body-sha256" = option_list (ta_body_sha256 <$> own_address change)
  /\ field "ledger-cursor"
     = option_list (SubscriptionEventId_to_string <$> pe_delete_ledger_event_id change)
  /\ field "ledger-seq" = option_list (to_string ∘ sid_seq <$> pe_delete_ledger_event_id change)
  /\ field "target-generation" = option_list (delete_subject_generation change)
  /\ field "event-type" = option_list (AuditEventType_as_str <$> pe_audit_event_type change)
  /\ field "target" = option_list ((fun t => "/" +:+ t) <$> pe_audit_event_target change)
  /\ field "body-sha256" = option_list (pe_body_sha256 change)
  /\ field "size" = option_list (to_string <$> pe_body_size change)
  /\ field "content-type" = option_list (pe_content_type change)
  /\ (forall s, ev_sse_id event = Some s <->
        exists id, pe_identity change = IdentityChain id /\ sid_world id = pe_path change
          /\ s = SubscriptionEventId_to_string id)
  /\ one_line (ev_event event) /\ from_option one_line True (ev_sse_id event)
  /\ lacks CR (ev_data event).

Lemma clean_reads_back change : sse_clean change -> reads_back change.
Proof.
  intros Hc. unfold reads_back. cbv zeta. cbn [sse_change_event ev_event ev_data ev_sse_id].
  rewrite !(event_data_fields change Hc). unfold change_fields.
  do 15 (split; [field_values|]).
  split; [|split; [|split]].
  - intros s. unfold durable_sse_id. destruct (pe_identity change) as [id|]; [|naive_solver].
    case_bool_decide; naive_solver.
  - apply one_line_method.
  - pose proof (cl_identity _ Hc). unfold durable_sse_id. destruct (pe_identity change); [|done].
    case_bool_decide; [by apply one_line_id|done].
  - rewrite sse_change_data_fields. apply print_lacks_CR; [|by apply change_fields_ok].
    unfold print_field. rewrite !lacks_app. split_and!; [done..|]. apply (cl_path _ Hc).
Qed.

(** ** The stream *)

(** Every event a subscriber gets comes from one of the engine's. *)
Definition public_item (i : item) : Prop :=
  match i with Ok e => exists change, e = public_event change | Err _ => True end.

Definition sub_public (sub : EngineSubscription) : Prop :=
  match sub_state sub with Replaying items _ => Forall public_item items | _ => True end.

Lemma replay_loop_public es fence acc fence' events :
  replay_loop fence (map public_event acc) es = Ok (fence', events) ->
  exists changes, events = map public_event changes.
Proof.
  revert fence acc. induction es as [|e es IH]; intros fence acc; cbn [replay_loop].
  - intros [= _ <-]. by exists acc.
  - intros ([f ev] & He & Hl)%result_bind_Ok. unfold replayed_event in He. inv_ok.
    match type of Hl with replay_loop ?f (_ ++ [public_event ?x]) _ = _ =>
      apply (IH f (acc ++ [x])); by rewrite map_app end.
Qed.

Section Stream.
Context `{Broadcast}.

Lemma recv_live_public fuel shutdown sent live sub p sub' :
  recv_live fuel shutdown sent live sub = Some (p, sub') ->
  sub_public sub' /\ match p with Ready i => public_item i | _ => True end.
Proof.
  revert live. induction fuel as [|fuel IH]; intros live; cbn [recv_live]; [done|].
  destruct shutdown; [by intros [= <- <-]|].
  destruct (rx_recv sent (lv_next live)) as [change| | |]; try by intros [= <- <-].
  destruct (live_change_action _ _ change); [|apply IH|by intros [= <- <-]].
  intros [= <- <-]. split; [done|by eexists].
Qed.

Lemma recv_public shutdown sent sub p sub' :
  sub_public sub -> recv shutdown sent sub = Some (p, sub') ->
  sub_public sub' /\ match p with Ready i => public_item i | _ => True end.
Proof.
  unfold recv. destruct sub as [pending [[|i items] live|live|]]; cbn [sub_state sub_pending_shutdown]; intros Hs.
  - destruct pending; [apply recv_live_public|by intros [= <- <-]].
  - intros [= <- <-]. by apply Forall_cons in Hs as [].
  - apply recv_live_public.
  - by intros [= <- <-].
Qed.

(** A poll of the stream with an item gives its event, and goes on. *)
Lemma stream_events_collect fuel sent sub :
  sub_public sub -> Forall is_ok_item (collect fuel sent sub) ->
  exists changes, collect fuel sent sub = map (Ok ∘ public_event) changes
    /\ stream_events fuel sent sub = map (sse_change_event ∘ public_event) changes.
Proof.
  revert sub. induction fuel as [|fuel IH]; intros sub Hs; cbn [collect stream_events]; [by exists []|].
  unfold stream_next. destruct (recv false sent sub) as [[[i| |] sub']|] eqn:Er; try by exists [].
  destruct (recv_public _ _ _ _ _ Hs Er) as [Hs' Hi]. intros [[e ->] Hok]%Forall_cons.
  destruct Hi as [change ->]. destruct (IH sub' Hs' Hok) as (changes & -> & Hev).
  exists (change :: changes). cbn [stream_item]. by rewrite Hev.
Qed.

(** The id of an event of the engine is sent exactly when it has one. *)
Lemma event_sse_id change :
  ev_sse_id (sse_change_event (public_event change))
  = SubscriptionEventId_to_string <$> item_id (Ok (public_event change)).
Proof.
  unfold sse_change_event, durable_sse_id. cbn [ev_sse_id item_id public_event pe_identity pe_path].
  unfold ce_identity, ce_path. destruct (ce_target change); [|done]. cbn [target_identity target_world].
  by rewrite bool_decide_true.
Qed.

Lemma stream_ids changes :
  omap ev_sse_id (map (sse_change_event ∘ public_event) changes)
  = map SubscriptionEventId_to_string (delivered (map (Ok ∘ public_event) changes)).
Proof.
  induction changes as [|change changes IH]; [done|]. unfold delivered in *. cbn [map omap list_omap compose].
  rewrite IH, event_sse_id. by destruct (item_id (Ok (public_event change))).
Qed.
End Stream.

Section Open.
Context `{Crypto} `{Rusqlite} (cfg : Config).

Lemma replay_after_public j f plan pattern c i events fence :
  replay_after cfg j f plan pattern c = Ok (i, events, fence) ->
  exists changes, events = map public_event changes.
Proof.
  destruct plan as [|id]; cbn [replay_after]; [intros [= _ <- _]; by exists []|].
  unfold replay_after_durable_event_id. intros (exact & _ & Hr)%result_bind_Ok.
  destruct exact as [w|].
  - destruct (negb _); [injection Hr as _ <- _; by exists []|].
    unfold replay_after_durable_chain_event_id in Hr. destruct (closed c); [done|].
    apply result_bind_Ok in Hr as (replay & _ & Hr).
    destruct replay as [[es| | |]|]; try (injection Hr as _ <- _; by exists []).
    apply result_bind_Ok in Hr as ([f' evs] & Hl & Hr). injection Hr as _ <- _.
    by apply (replay_loop_public es id []) in Hl.
  - injection Hr as Hr. unfold replay_after_durable_ring_event_id in Hr.
    destruct (from_marker id (event_log c)) as [[m rest]|]; injection Hr as _ <- _; [by eexists|by exists []].
Qed.

Lemma open_public j f start pattern resume c sub :
  open_subscription cfg j f start pattern resume c = Ok sub -> sub_public sub.
Proof.
  unfold open_subscription. intros (u & _ & Ho)%result_bind_Ok.
  apply result_bind_Ok in Ho as ([[i events] fence] & Hr & Ho). injection Ho as <-.
  apply replay_after_public in Hr as [changes ->].
  assert (Forall public_item (match i with Some i => [Err (interruption_error i)] | None => [] end
                              ++ map Ok (map public_event changes))) as Hall.
  { apply Forall_app. split; [destruct i; by repeat constructor|].
    rewrite map_map. apply Forall_fmap, Forall_forall. intros x _. by exists x. }
  unfold EngineSubscription_new, sub_public. by destruct (_ ++ _).
Qed.
End Open.

(** All events of the stream while [sent] is what the engine has sent. *)
Definition sse_stream `{Broadcast} (sent : list ChangeEvent) (sub : EngineSubscription) : list Event :=
  stream_events (S (queued sub + length sent)) sent sub.

Section Reconnect.
Context `{CryptoLaws} `{Rusqlite} `{HttpCrate} `{HttpGetAll} `{PercentLaws} `{Base64} `{BroadcastLaws}.
Context (cfg : Config) (tokens : Tokens).
Hypothesis Hcfg : config_ok cfg.

Lemma parse_sent_id headers value id :
  hm_get_all headers "last-event-id" = [value] ->
  value_to_str value = Some (SubscriptionEventId_to_string id) -> event_id_wf id ->
  parse_last_event_id headers = Ok (ResumeDurable id).
Proof.
  intros Hall Hv Hwf. unfold parse_last_event_id. rewrite Hall, Hv. cbn [ok_or mbind result_bind].
  assert (from_sse_id (SubscriptionEventId_to_string id) = Ok id) as Hp
    by (by apply event_id_roundtrip).
  rewrite bool_decide_false by (intros E; rewrite E in Hp; by vm_compute in Hp).
  cbn [negb ensure mbind result_bind]. by rewrite Hp.
Qed.

Lemma resumed_rows_bounded c0 c1 c2 w id pattern :
  resumable cfg capacity c0 c1 c2 w id pattern ->
  forall r, r ∈ rows_of w c2 -> (0 < ev_id r <= i64_max)%Z.
Proof using All.
  intros [Hi0 Hr1 Hr2 _ _ _ _ _ _ _ _ _] r.
  assert (core_inv cfg c2) as Hi2.
  { apply (run_traced cfg Hcfg c0 c2 Hi0). apply (rtc_subrel (step_keeping cfg w)); [by intros x y []|by etrans]. }
  unfold rows_of. destruct (files c2 !! w) as [db|] eqn:Edb; [|cbn; set_solver]. intros Hr.
  destruct (ca_files _ _ _ _ Hi2 w db Edb) as ([Hwf _] & _).
  pose proof (wf_seq _ Hwf). pose proof (wf_ids_pos _ Hwf) as Hp. rewrite Forall_forall in Hp.
  specialize (Hp r Hr). cbn in Hp. lia.
Qed.

(** C22: A client of the listen route that reconnects loses nothing and gets
    nothing twice.  A GET with read access, a free slot and, as its only
    [Last-Event-ID], the printed form of an id the engine can resume from, opens
    a stream; whatever the engine goes on to write, the ids of the events sent
    on the stream are the printed ids of the rows of the world's chain after
    that id, each once and in order, no event is a lag or a reset notice, and
    each sent id is accepted by the next reconnect as the id of its row. *)
Theorem listen_reconnect_exact e c2 headers value raw_pattern w id :
  resumable cfg capacity (en_core e) (en_core e) c2 w id (pattern raw_pattern) ->
  hm_get_all headers "last-event-id" = [value] ->
  value_to_str value = Some (SubscriptionEventId_to_string id) -> event_id_wf id ->
  can_read tokens (access_tier_from_headers tokens headers) = true ->
  shutdown e = false -> (0 < listen_slots e)%Z ->
  exists sub e',
    listen_handler cfg tokens None None GET headers raw_pattern e = (Stream sub, e')
    /\ en_core e' = en_core e /\ listen_slots e' = (listen_slots e - 1)%Z
    /\ let rows := filter (fun r => (sid_seq id < ev_id r)%Z) (rows_of w c2) in
       let stream := sse_stream (events_sent c2) sub in
       omap ev_sse_id stream
       = map (fun r => SubscriptionEventId_to_string (chain_id w (sid_generation id) r)) rows
    /\ Forall (fun ev => ev_event ev <> "lag" /\ ev_event ev <> "reset") stream
    /\ Forall (fun r =>
         from_sse_id (SubscriptionEventId_to_string (chain_id w (sid_generation id) r))
         = Ok (chain_id w (sid_generation id) r)) rows.
Proof using All.
  intros Hres Hall Hv Hwf Hcan Hsd Hslots.
  destruct (resume_run cfg Hcfg _ _ _ _ _ _ Hres) as (sub & Hopen & Hd & Hok).
  destruct (stream_events_collect _ _ _ (open_public _ _ _ _ _ _ _ _ Hopen) Hok) as (changes & Hc & Hev).
  unfold received in Hd. rewrite Hc in Hd. set (rows := filter _ (rows_of w c2)) in *.
  eexists sub, _. split; [|split; [|split]].
  - unfold listen_handler. rewrite bool_decide_false, bool_decide_true by done. cbn [negb].
    rewrite (parse_sent_id headers value id Hall Hv Hwf). unfold subscribe, authorize_subscribe, take_slot.
    rewrite Hcan. cbn [negb]. unfold ensure_not_shutdown. rewrite Hsd. cbn [mbind result_bind].
    rewrite (proj2 (Z.ltb_lt _ _) Hslots). cbn [en_core]. by rewrite Hopen.
  - done.
  - done.
  - cbv zeta. unfold sse_stream. rewrite Hev, stream_ids, Hd, map_map. split; [done|]. split.
    + apply Forall_fmap, Forall_forall. intros x _. cbn. by destruct (ce_verb x).
    + apply Forall_forall. intros r [Hr Hin]%list_elem_of_filter. apply event_id_roundtrip. split; [|done].
      destruct Hwf as (Hvw & Hu & Hm & Hg & Hs). rewrite (rs_world _ _ _ _ _ _ _ _ Hres) in *.
      destruct (resumed_rows_bounded _ _ _ _ _ _ Hres r Hin). by split_and!.
Qed.
End Reconnect.
