(* ===== verification/CleanEvents.v ===== *)
(** * No line break is ever announced

    Every string of a change event comes from a request the engine has checked, a
    digest it computed or a row it wrote: names of worlds have no control
    characters, content types no carriage return, line feed or NUL, and the rest
    is hexadecimal.  The invariant [tidy] says so of the files and of the stream;
    every operation keeps it, and what a subscription delivers then has no line
    break either. *)

From S2P Require Import Prelude.
From S2P Require Import WorldSchema.
From S2P Require Import RustStr.
From S2P Require Import Path.
From S2P Require Import Auth.
From S2P Require Import Crypto.
From S2P Require Import Etag.
From S2P Require Import Types.
From S2P Require Import Db.
From S2P Require Import AuditVerify.
From S2P Require Import AuditGates.
From S2P Require Import AuditAppend.
From S2P Require Import Cas.
From S2P Require Import WorldWrite.
From S2P Require Import Timeline.
From S2P Require Import EventId.
From S2P Require Import Store.
From S2P Require Import Quota.
From S2P Require Import ChainValid.
From S2P Require Import StorageClass.
From S2P Require Import Core.
From S2P Require Import WorldOps.
From S2P Require Import DeleteOps.
From S2P Require Import CoreInv.
From S2P Require Import DeleteOpsProofs.
From S2P Require Import CoreTheorems.
From S2P Require Import Frames.
From S2P Require Import EngineOps.
From S2P Require Import Announce.
From S2P Require Import Subscription.
From S2P Require Import SubscriptionTheorems.
From S2P Require Import HttpListen.
From Stdlib Require Import Ascii.

(** ** Clean strings *)

Lemma lacks_cons c a s : lacks c (String a s) <-> ascii_eqb a c = false /\ lacks c s.
Proof. unfold lacks. cbn [sall]. by rewrite andb_true_iff, negb_true_iff. Qed.

Lemma one_line_cons a s :
  one_line (String a s) <-> (ascii_eqb a LF = false /\ ascii_eqb a CR = false) /\ one_line s.
Proof. unfold one_line. rewrite !lacks_cons. tauto. Qed.

Lemma high_byte lo hi a : (13 < lo)%Z -> in_range lo hi a = true -> ascii_eqb a LF = false /\ ascii_eqb a CR = false.
Proof.
  unfold in_range. intros Hlo [Ha _]%andb_true_iff. apply Z.leb_le in Ha.
  split; apply not_true_iff_false; rewrite ascii_eqb_spec; intros ->; change (bv LF) with 10%Z in *;
    change (bv CR) with 13%Z in *; lia.
Qed.

Ltac high :=
  repeat match goal with H : _ \/ _ |- _ => destruct H | H : _ /\ _ |- _ => destruct H end;
  (eapply high_byte; [|eassumption]; lia).

(** A UTF-8 string without control characters has no line break. *)
Lemma one_line_chars n : forall s l,
  (String.length s <= n)%nat -> utf8_chunks s = Some l -> existsb char_is_control (fst <$> l) = false -> one_line s.
Proof.
  induction n as [|n IH]; intros s l Hn Hu Hc; (destruct s as [|b0 s1]; [by split|]); [cbn in Hn; lia|].
  cbn [utf8_chunks String.length] in *.
  assert (forall s' (f : list (Z * string) -> list (Z * string)) k b, (String.length s' <= n)%nat ->
    (forall l, f l = (k, b) :: l) -> f <$> utf8_chunks s' = Some l -> one_line s') as Hrest.
  { intros s' f k b Hs' Hf. destruct (utf8_chunks s') as [l'|] eqn:E; [|done]. cbn. intros [= <-].
    rewrite Hf in Hc. cbn in Hc. apply orb_false_iff in Hc as [_ Hc]. by apply (IH s' l'). }
  destruct (in_range 0 127 b0) eqn:E0.
  { apply one_line_cons. split; [|eapply (Hrest s1); [lia|reflexivity|exact Hu]].
    destruct (utf8_chunks s1) as [l'|]; [|done]. injection Hu as <-. cbn in Hc. apply orb_false_iff in Hc as [Hc _].
    split; apply not_true_iff_false; rewrite ascii_eqb_spec; intros ->; done. }
  destruct s1 as [|b1 s2]; [done|]. cbn [String.length] in Hn.
  destruct (utf8_2 b0 b1) eqn:E2.
  { apply andb_true_iff in E2 as [H0 H1]. rewrite !one_line_cons.
    split; [high|]. split; [high|]. eapply (Hrest s2); [lia|reflexivity|exact Hu]. }
  destruct s2 as [|b2 s3]; [done|]. cbn [String.length] in Hn.
  destruct (utf8_3 b0 b1 b2) eqn:E3.
  { unfold utf8_3 in E3. rewrite andb_true_iff, !orb_true_iff, !andb_true_iff in E3.
    destruct E3 as [H01 H2]. rewrite !one_line_cons.
    split; [high|].
    split; [high|].
    split; [high|]. eapply (Hrest s3); [lia|reflexivity|exact Hu]. }
  destruct s3 as [|b3 s4]; [done|]. cbn [String.length] in Hn.
  destruct (utf8_4 b0 b1 b2 b3) eqn:E4; [|done].
  unfold utf8_4 in E4. rewrite !andb_true_iff, !orb_true_iff, !andb_true_iff in E4.
  destruct E4 as [[H01 H2] H3]. rewrite !one_line_cons.
  split; [high|].
  split; [high|].
  split; [high|]. split; [high|]. eapply (Hrest s4); [lia|reflexivity|exact Hu].
Qed.

Lemma one_line_valid_world w : valid_world w -> is_utf8 w = true -> one_line w.
Proof.
  intros [Hv _]%valid_world_iff [l Hl]%bool_decide_eq_true. apply validate_world_name_Ok in Hv.
  destruct Hv as (_ & _ & _ & _ & Hc & _). unfold chars in Hc. rewrite Hl in Hc.
  by eapply (one_line_chars (String.length w)).
Qed.

Lemma one_line_hex s : is_lower_hex s = true -> one_line s.
Proof. by apply one_line_all. Qed.

Lemma one_line_generation g : WorldGeneration_new g = Ok g -> one_line g.
Proof. intros (_ & _ & Hg)%WorldGeneration_new_Ok. by apply one_line_hex. Qed.

Lemma one_line_body s : BodySha256_new s = Ok s -> one_line s.
Proof. intros (_ & _ & Hg)%BodySha256_new_Ok. by apply one_line_hex. Qed.

Lemma one_line_metadata ct hs : validate_representation_metadata ct hs = Ok tt -> one_line ct.
Proof.
  unfold validate_representation_metadata. destruct (contains_metadata_control_char ct) eqn:Hc; [done|]. intros _.
  apply sany_false in Hc. split; (eapply sall_impl; [|exact Hc]); intros c; cbn;
    rewrite !negb_true_iff; intros Hb%bool_decide_eq_false; apply not_true_iff_false; rewrite ascii_eqb_spec;
    intros ->; apply Hb; set_solver.
Qed.

(** ** Clean events *)

Definition clean_subject (s : DeleteSubjectProof) : Prop := one_line (ta_gen (ds_address s)).

Definition clean_address (a : TimelineAddress) : Prop :=
  one_line (ta_gen a) /\ one_line (ta_body_sha256 a).

Definition clean_id (id : SubscriptionEventId) : Prop :=
  one_line (sid_world id) /\ one_line (sid_generation id).

Record clean_payload (p : AuditEventPayload) : Prop := {
  cp_target : one_line (ap_target p);
  cp_body : one_line (ap_body_sha256 p);
  cp_type : one_line (ap_content_type p);
  cp_subject : from_option clean_subject True (ap_delete_subject p);
}.

Definition clean_target (t : ChangeTarget) : Prop :=
  match t with
  | TargetEphemeral w => one_line w
  | TargetChain e =>
      clean_id (me_id e) /\ from_option clean_address True (me_timeline_address e)
      /\ clean_payload (me_audit_payload e)
  end.

Definition clean_aux (a : ChangeEventAux) : Prop :=
  from_option clean_id True (aux_delete_ledger_event_id a)
  /\ from_option clean_subject True (aux_delete_subject a).

Definition clean_event (e : ChangeEvent) : Prop :=
  clean_target (ce_target e) /\ one_line (ce_etag e) /\ clean_aux (ce_aux e).

Lemma clean_public e : clean_event e -> sse_clean (public_event e).
Proof.
  destruct e as [id verb target etag [led subj]]. intros (Ht & He & Hl & Hs). cbn [ce_target ce_etag ce_aux] in *.
  cbn [aux_delete_ledger_event_id aux_delete_subject] in *.
  assert (from_option (fun id => one_line (sid_generation id)) True led) as Hl'
    by (destruct led; [apply Hl|done]).
  split; unfold delete_subject_generation, public_event, own_address, ce_path, ce_identity;
    cbn [pe_path pe_etag pe_timeline_address pe_delete_ledger_event_id pe_delete_subject pe_audit_event_target
         pe_body_sha256 pe_content_type pe_identity ce_target ce_etag ce_aux];
    destruct target as [m|w]; cbn in Ht |- *; try done; try (by destruct subj);
    destruct Ht as ([Hw Hg] & Ha & [Hp1 Hp2 Hp3 Hp4]); try done.
  - destruct (me_timeline_address m) as [a|]; cbn; [|done]. case_bool_decide; cbn; done.
  - destruct (ap_delete_subject (me_audit_payload m)) as [s|]; [done|by destruct subj].
Qed.

(** ** Clean files *)

Record tidy_row (row : EventRow) : Prop := {
  tr_target : one_line (ev_target row);
  tr_type : one_line (ev_content_type row);
  tr_hmac : one_line (ev_hmac row);
}.

Record tidy_db (db : world_db) : Prop := {
  td_gen : one_line (db_generation db);
  td_type : one_line (db_content_type db);
  td_rows : Forall tidy_row (db_events db);
}.

(** The parts of a file that reach an event. *)
Definition same_text (db db' : world_db) : Prop :=
  db_generation db' = db_generation db /\ db_content_type db' = db_content_type db
  /\ db_events db' = db_events db.

Lemma same_text_tidy db db' : same_text db db' -> tidy_db db -> tidy_db db'.
Proof. intros (Hg & Hc & He) [? ? ?]. split; congruence. Qed.

Definition clean_row (r : AppendedAuditRow) : Prop :=
  clean_id (from_appended_audit_row r) /\ clean_payload (payload_of_row r None) /\ one_line (ar_hmac r).

Definition clean_notice (n : notice) : Prop := one_line (nt_etag n) /\ clean_target (nt_target n).

Section Files.
Context `{CryptoLaws}.

Lemma one_line_sha s : one_line (sha256_hex s).
Proof. apply one_line_hex, Sha256_shape. Qed.

Lemma one_line_hmac_etag h : one_line h -> one_line (hmac_etag h).
Proof. intros Hh. apply one_line_app. by split. Qed.

Lemma append_tx_clean atx now k target sha sz ct hs db row db' :
  append_tx_inner atx now k target sha sz ct hs db = Ok (row, db') ->
  atx_generation atx = db_generation db -> one_line (atx_world atx) -> one_line target -> one_line sha ->
  one_line ct -> tidy_db db ->
  clean_row row /\ tidy_db db' /\ db_generation db' = db_generation db.
Proof.
  unfold append_tx_inner. intros Ha Hg Hw Ht Hs Hc [Dg Dc Dr]. inv_ok.
  assert (forall i, one_line (event_hmac (atx_key atx) i)) as Hh
    by (intros i; unfold event_hmac; apply one_line_hex, Hmac_shape).
  split; [|split; [|done]].
  - split; [split; cbn; congruence|]. split; [by split|]. cbn. apply Hh.
  - split; cbn; try done. apply Forall_app. split; [done|]. apply Forall_singleton. split; cbn; auto.
Qed.

Lemma retain_text target body db r db' : retain_body_tx target body db = Ok (r, db') ->
  same_text db db' /\ rc_target r = target /\ one_line (rc_body_sha256 r).
Proof.
  unfold retain_body_tx. intros Hr. inv_ok.
  destruct (db_cas db !! sha256_hex body); inv_ok; cbn; (split; [done|split; [done|apply one_line_sha]]).
Qed.

Lemma mark_text id db db' : mark_retention_started_tx id db = Ok db' -> same_text db db'.
Proof. unfold mark_retention_started_tx. intros Hm. destruct (db_floor db); by inv_ok. Qed.

Lemma prune_text n db p db' : prune_to_count_tx n db = Ok (p, db') -> same_text db db'.
Proof.
  unfold prune_to_count_tx. intros Hp. apply result_bind_Ok in Hp as ([f|] & _ & Hp); [|by inv_ok].
  apply result_bind_Ok in Hp as (cur & _ & Hp). by destruct (match cur with Some floor => _ | None => _ end); inv_ok.
Qed.

Lemma format_clean is_genesis atx now db fe db' :
  append_format_if is_genesis atx now db = Ok (fe, db') -> atx_generation atx = db_generation db ->
  one_line (atx_world atx) -> tidy_db db ->
  from_option clean_row True fe /\ tidy_db db' /\ db_generation db' = db_generation db.
Proof.
  unfold append_format_if. intros Hf Hg Hw Hd. destruct is_genesis; [|by injection Hf as <- <-].
  apply result_bind_Ok in Hf as ([row db1] & Ha%map_err_Ok & Hf). injection Hf as <- <-.
  eapply append_tx_clean in Ha; eauto using one_line_sha. by split.
Qed.

Definition clean_body_row (row : AppendedBodyAuditRow) : Prop :=
  clean_target (target_from_appended_body_audit_row row) /\ one_line (ar_hmac (br_row row)).

Lemma body_clean atx now k r ct hs db row db' :
  append_retained_body_tx_row atx now k r ct hs db = Ok (row, db') ->
  atx_generation atx = db_generation db -> one_line (atx_world atx) -> one_line (rc_body_sha256 r) ->
  one_line ct -> tidy_db db -> clean_body_row row /\ tidy_db db'.
Proof.
  unfold append_retained_body_tx_row. intros Ha Hg Hw Hs Hc Hd. apply result_bind_Ok in Ha as ([] & Ht & Ha).
  apply ensure_Ok, bool_decide_eq_true in Ht.
  apply result_bind_Ok in Ha as ([ar db1] & Hi & Ha). injection Ha as <- <-.
  eapply append_tx_clean in Hi; eauto; [|congruence]. destruct Hi as (([_ Hgen] & Hp & Hh) & Hdb & _).
  split; [|done]. cbn in Hgen. split; [|done]. cbn. rewrite Ht. by split_and!.
Qed.

(** Both transactions after the gate, the new content type [ct'] included. *)
Lemma transaction_clean is_genesis atx nowf now w body ct ct' meta k hs n db fe db1 r db2 row db3 db4 p db5 :
  atx_world atx = w -> atx_generation atx = db_generation db -> one_line w -> one_line ct -> one_line ct' ->
  tidy_db db ->
  append_format_if is_genesis atx nowf db = Ok (fe, db1) -> retain_body_tx w body db1 = Ok (r, db2) ->
  append_retained_body_tx_row atx now k r ct hs (set_stage body ct' meta db2) = Ok (row, db3) ->
  mark_retention_started_tx (ar_id (br_row row)) db3 = Ok db4 -> prune_to_count_tx n db4 = Ok (p, db5) ->
  from_option clean_row True fe /\ clean_body_row row /\ tidy_db db5.
Proof.
  intros Hw Hg Hl Hc Hc' Hd Hf Hr Hb Hm Hp. eapply format_clean in Hf as (Hfe & Hd1 & Hg1); eauto; [|congruence].
  apply retain_text in Hr as (Ht & _ & Hs). pose proof (same_text_tidy _ _ Ht Hd1) as [Dg Dc Dr].
  eapply body_clean in Hb as [Hrow Hd3]; eauto.
  - split; [done|]. split; [done|]. eapply same_text_tidy; [by eapply prune_text|].
    by eapply same_text_tidy; [eapply mark_text|].
  - cbn. destruct Ht as (Hg2 & _). congruence.
  - congruence.
  - by split.
Qed.

Lemma write_clean opened cache w body ct hs key n nowf now db res cache' db' :
  write_with_audit_checked_retaining_on_conn opened cache w body ct hs key n nowf now db
  = Ok (res, cache', db') -> one_line w -> one_line ct -> tidy_db db ->
  from_option clean_row True (wr_format_event res) /\ clean_body_row (wr_body_event res)
  /\ one_line (wr_hmac res) /\ tidy_db db'.
Proof.
  unfold write_with_audit_checked_retaining_on_conn. intros Hw Hl Hc Hd.
  apply result_bind_Ok in Hw as ([[atx is_genesis] prefix] & [Hworld Hgen]%gate_atx & Hw). cbn in Hworld, Hgen.
  apply result_bind_Ok in Hw as ([fe db1] & Hf & Hw). apply result_bind_Ok in Hw as ([r db2] & Hr & Hw).
  apply result_bind_Ok in Hw as (meta & _ & Hw).
  apply result_bind_Ok in Hw as ([row db3] & Hb%map_err_Ok & Hw).
  apply result_bind_Ok in Hw as (db4 & Hm & Hw). apply result_bind_Ok in Hw as ([p db5] & Hp & Hw).
  injection Hw as <- _ <-. cbn [wr_format_event wr_body_event wr_hmac].
  destruct (transaction_clean _ _ _ _ _ _ _ ct _ _ _ _ _ _ _ _ _ _ _ _ _ _ Hworld Hgen Hl Hc Hc Hd Hf Hr Hb Hm Hp)
    as (Hfe & Hrow & Hd5).
  split; [done|]. split; [done|]. split; [apply Hrow|done].
Qed.

Lemma append_clean cache w body ct hs key n nowf now db res h cache' db' :
  append_with_audit_retaining_on_conn cache w body ct hs key n nowf now db = Ok (res, h, cache', db') ->
  one_line w -> one_line ct -> tidy_db db ->
  from_option clean_row True (ap_format_event res) /\ clean_body_row (ap_body_event res) /\ one_line h /\ tidy_db db'.
Proof.
  unfold append_with_audit_retaining_on_conn. intros Hw Hl Hc Hd.
  apply result_bind_Ok in Hw as ([[atx is_genesis] prefix] & [Hworld Hgen]%gate_atx & Hw). cbn in Hworld, Hgen.
  apply result_bind_Ok in Hw as ([fe db1] & Hf & Hw). apply result_bind_Ok in Hw as ([r db2] & Hr & Hw).
  apply result_bind_Ok in Hw as ([row db3] & Hb%map_err_Ok & Hw).
  apply result_bind_Ok in Hw as (db4 & Hm & Hw). apply result_bind_Ok in Hw as ([p db5] & Hp & Hw).
  injection Hw as <- <- _ <-. cbn [ap_format_event ap_body_event].
  assert (one_line (db_content_type db2)) as Hc2.
  { pose proof Hf as Hf'. eapply format_clean in Hf' as (_ & Hd1 & _); eauto; [|congruence].
    apply retain_text in Hr as (Ht & _). apply (same_text_tidy _ _ Ht Hd1). }
  destruct (transaction_clean _ _ _ _ _ _ _ _ _ _ _ _ _ _ _ _ _ _ _ _ _ _ Hworld Hgen Hl Hc Hc2 Hd Hf Hr Hb Hm Hp)
    as (Hfe & Hrow & Hd5).
  split; [done|]. split; [done|]. split; [apply Hrow|done].
Qed.
End Files.

(** ** The invariant *)

Record tidy (c : Core) : Prop := {
  ty_files : map_Forall (fun w db => one_line w /\ tidy_db db) (files c);
  ty_log : Forall clean_event (event_log c);
  ty_sent : Forall clean_event (events_sent c);
}.

Definition tidier (c c' : Core) : Prop := tidy c -> tidy c'.

#[global] Instance tidier_preorder : PreOrder tidier.
Proof. split; [intros c Hc; exact Hc|]. intros c1 c2 c3 H1 H2 Hc. by apply H2, H1. Qed.

Lemma tidier_fields c c' :
  files c' = files c -> event_log c' = event_log c -> events_sent c' = events_sent c -> tidier c c'.
Proof. intros Hf Hl He [? ? ?]. split; [by rewrite Hf|by rewrite Hl|by rewrite He]. Qed.

Lemma tidier_file w db c : one_line w -> tidy_db db -> tidier c (set_files (<[w := db]>) c).
Proof. intros Hw Hd [Hf ? ?]. split; [|done|done]. cbn. by apply map_Forall_insert_2. Qed.

Lemma pop_front_clean max log : Forall clean_event log -> Forall clean_event (pop_front_to max log).
Proof.
  induction log as [|e log IH]; [done|]. cbn [pop_front_to]. destruct (max <? _)%Z; [|done].
  intros [_ Hl]%Forall_cons. by apply IH.
Qed.

Lemma tidier_notify max verb target etag aux c :
  clean_target target -> one_line etag -> clean_aux aux -> tidier c (notify_with_aux max verb target etag aux c).
Proof.
  intros Ht He Ha [Hf Hl Hs]. split; cbn; [done| |].
  - apply pop_front_clean, Forall_app. split; [done|]. apply Forall_singleton. by split_and!.
  - apply Forall_app. split; [done|]. apply Forall_singleton. by split_and!.
Qed.

Lemma tidier_open f g w : one_line g -> one_line w -> keeps tidier (open_world f g w).
Proof.
  intros Hg Hw c. unfold open_world. destruct (open_file w c) as [[db|]|err]; [done| |done].
  destruct (open_world_paths_with_generation_minter_and_kind _ _ _) as [r [raw|]]; [|done]. cbn.
  destruct (verify_open_shape raw); [|by apply tidier_fields]. apply tidier_file; [done|].
  split; [done|by split|by apply Forall_nil_2].
Qed.

Lemma tidier_counters f c : tidier c (set_counters f c).
Proof. by apply tidier_fields. Qed.

Lemma tidier_tombstone w c : tidier c (clear_tombstone w c).
Proof. unfold clear_tombstone. destruct (is_memory_world w); [done|by apply tidier_fields]. Qed.

Lemma tidier_install w c : tidier c (install_tombstone_blocking w c).
Proof. unfold install_tombstone_blocking. destruct (is_memory_world w); [done|by apply tidier_fields]. Qed.

Lemma tidier_cached_existing env w : keeps tidier (cached_existing_write_conn env w).
Proof. intros c. unfold cached_existing_write_conn. repeat case_match; by apply tidier_fields. Qed.

Lemma tidier_cached_write_conn env w :
  env_ok env -> one_line w -> keeps tidier (cached_write_conn env w).
Proof.
  intros [Hg _] Hw c. unfold cached_write_conn. destruct (fault env IoOpen); [done|].
  destruct (write_conns c !! w); [done|].
  apply keeps_bind; [typeclasses eauto|by apply tidier_open, Hw; apply one_line_generation|].
  intros opened. apply keeps_bind; [typeclasses eauto| |intros []; by apply keeps_ret; typeclasses eauto].
  apply keeps_modify. intros c'. by apply tidier_fields.
Qed.

#[export] Hint Resolve tidier_counters tidier_tombstone tidier_install tidier_cached_existing
  tidier_cached_write_conn : keeps.

(** What an operation's result satisfies, started in a tidy state. *)
Definition yields {E A} (Q : A -> Prop) (m : op E A) : Prop :=
  forall c, tidy c -> tidy (snd (m c)) /\ forall a, fst (m c) = Ok a -> Q a.

Section Yields.
Context {E : Type}.

Lemma yields_bind {A B} (P : A -> Prop) (Q : B -> Prop) (m : op E A) (k : A -> op E B) :
  yields P m -> (forall a, P a -> yields Q (k a)) -> yields Q (m ≫= k).
Proof.
  intros Hm Hk c Hc. unfold mbind, op_bind. destruct (Hm c Hc) as [Hc1 Ha]. destruct (m c) as [[a|e] c1]; [|done].
  apply (Hk a); [by apply Ha|done].
Qed.

Lemma yields_keeps {A} (m : op E A) : keeps tidier m -> yields (fun _ => True) m.
Proof. intros Hm c Hc. split; [by apply Hm|done]. Qed.

Lemma yields_keep_bind {A B} (Q : B -> Prop) (m : op E A) (k : A -> op E B) :
  keeps tidier m -> (forall a, yields Q (k a)) -> yields Q (m ≫= k).
Proof. intros Hm Hk. eapply yields_bind; [by apply yields_keeps|auto]. Qed.

Lemma yields_ret {A} (Q : A -> Prop) (a : A) : Q a -> yields Q (mret a : op E A).
Proof. intros Ha c Hc. split; [done|]. by intros ? [= <-]. Qed.

Lemma yields_lift {A} (Q : A -> Prop) (r : result E A) : (forall a, r = Ok a -> Q a) -> yields Q (lift r).
Proof. intros Hr c Hc. by split. Qed.

Lemma yields_on_drop {A} (Q : A -> Prop) f (m : op E A) :
  (forall c, tidier c (f c)) -> yields Q m -> yields Q (on_drop f m).
Proof.
  intros Hf Hm c Hc. unfold on_drop. destruct (Hm c Hc) as [Hc1 Ha]. destruct (m c) as [[a|e] c1]; [done|].
  split; [by apply Hf|done].
Qed.

Lemma keeps_yields {A} (Q : A -> Prop) (m : op E A) : yields Q m -> keeps tidier m.
Proof. intros Hm c Hc. by apply Hm. Qed.

Lemma keeps_yields_bind {A B} (Q : A -> Prop) (m : op E A) (k : A -> op E B) :
  yields Q m -> (forall a, Q a -> keeps tidier (k a)) -> keeps tidier (m ≫= k).
Proof.
  intros Hm Hk c Hc. unfold mbind, op_bind. destruct (Hm c Hc) as [Hc1 Ha]. destruct (m c) as [[a|e] c1]; [|done].
  by apply Hk; [apply Ha|].
Qed.
End Yields.

(** ** Writes *)

Section Writes.
Context `{CryptoLaws} `{Rusqlite} (cfg : Config).

Definition clean_rows (format : option AppendedAuditRow) (row : AppendedBodyAuditRow) (h : string) : Prop :=
  from_option clean_row True format /\ clean_body_row row /\ one_line h.

Lemma tidy_file c w db : tidy c -> files c !! w = Some db -> tidy_db db.
Proof. intros [Hf _ _] Hdb. by apply (Hf w db Hdb). Qed.

Lemma write_on_conn_yields env w opened req :
  one_line w -> one_line (rr_content_type req) ->
  yields (fun res => clean_rows (wr_format_event res) (wr_body_event res) (wr_hmac res))
    (write_on_conn cfg env w opened req).
Proof.
  intros Hw Hct c Hc. unfold write_on_conn.
  destruct (files c !! w) as [db|] eqn:Edb, (fault env IoTransaction); try done.
  destruct (write_with_audit_checked_retaining_on_conn _ _ _ _ _ _ _ _ _ _ _) as [[[res cache] db']|] eqn:Ew;
    [|done].
  apply write_clean in Ew as (Hf & Hb & Hh & Hd); [|done|done|by eapply tidy_file]. cbn [fst snd]. split.
  - apply (tidier_fields (set_files (<[w := db']>) c)); [done..|]. by apply tidier_file.
  - by intros a [= <-].
Qed.

Lemma append_on_conn_yields env w body ct hs :
  one_line w -> one_line ct ->
  yields (fun '(res, h) => clean_rows (ap_format_event res) (ap_body_event res) h)
    (append_on_conn cfg env w body ct hs).
Proof.
  intros Hw Hct c Hc. unfold append_on_conn.
  destruct (files c !! w) as [db|] eqn:Edb, (fault env IoTransaction); try done.
  destruct (append_with_audit_retaining_on_conn _ _ _ _ _ _ _ _ _ _) as [[[[res h] cache] db']|] eqn:Ew; [|done].
  apply append_clean in Ew as (Hf & Hb & Hh & Hd); [|done|done|by eapply tidy_file]. cbn [fst snd]. split.
  - apply (tidier_fields (set_files (<[w := db']>) c)); [done..|]. by apply tidier_file.
  - by intros a [= <-].
Qed.

Definition clean_notices (n : notice) (fn : option notice) : Prop :=
  clean_notice n /\ from_option clean_notice True fn.

Lemma rows_notices format row h :
  clean_rows format row h ->
  clean_notices {| nt_etag := hmac_etag h; nt_target := target_from_appended_body_audit_row row |}
    (format_change_event <$> format).
Proof.
  intros (Hf & [Ht _] & Hh). split; [by split; [apply one_line_hmac_etag|]|].
  destruct format as [f|]; [|done]. destruct Hf as (Hi & Hp & Hh'). by split; [apply one_line_hmac_etag|].
Qed.

Lemma replace_durable_yields env w req :
  env_ok env -> one_line w -> one_line (rr_content_type req) ->
  yields (fun '(_, n, fn) => clean_notices n fn) (replace_durable cfg env w req).
Proof.
  intros Henv Hw Hct. unfold replace_durable.
  repeat first [apply yields_keep_bind; [solve [keep]|intros ?] | apply yields_on_drop; [intros; apply tidier_counters|]].
  eapply yields_bind; [by apply write_on_conn_yields|]. intros res Hres.
  apply yields_keep_bind; [solve [keep]|intros _]. by apply yields_ret, rows_notices.
Qed.

Lemma append_durable_yields env w len ct hs n req :
  one_line w -> one_line ct ->
  yields (fun '(n, fn) => clean_notices n fn) (append_durable cfg env w len ct hs n req).
Proof.
  intros Hw Hct. unfold append_durable.
  repeat first [apply yields_keep_bind; [solve [keep]|intros ?] | apply yields_on_drop; [intros; apply tidier_counters|]].
  eapply yields_bind; [by apply append_on_conn_yields|]. intros [res h] Hres.
  apply yields_keep_bind; [solve [keep]|intros _]. by apply yields_ret, rows_notices.
Qed.

Lemma replace_memory_yields w req :
  one_line w -> yields (fun '(_, n, fn) => clean_notices n fn) (replace_memory cfg w req).
Proof.
  intros Hw c Hc. unfold replace_memory. destruct (MemoryWorldPath_new w); [|done].
  destruct (write_with_quota _ _ _ _ _ _) as [[o m]|]; [|done]. cbn [fst snd].
  split; [by apply (tidier_fields c)|]. intros a [= <-]. split; [|done]. split; [|done].
  apply one_line_app. split; [by split|apply one_line_sha].
Qed.

Lemma append_memory_yields w req :
  one_line w -> yields (fun '(n, fn) => clean_notices n fn) (append_memory cfg w req).
Proof.
  intros Hw c Hc. unfold append_memory. destruct (MemoryWorldPath_new w) as [m|]; [|done].
  destruct (append_with_quota _ _ _ _) as [[[r|] s]|] eqn:E; cbn [fst snd]; [|by split; [apply (tidier_fields c)|]|done].
  split; [by apply (tidier_fields c)|]. intros a [= <-]. split; [|done]. split; [|done].
  apply one_line_app. split; [by split|].
  unfold append_with_quota in E. destruct (ms_map (mem c) !! m); [|done]. inv_ok. simplify_eq. apply one_line_sha.
Qed.

Lemma tidier_notify_write verb n fn c : clean_notices n fn -> tidier c (notify_write cfg verb n fn c).
Proof.
  intros [[He Ht] Hf]. unfold notify_write. destruct fn as [f|]; [destruct Hf; etrans|]; by apply tidier_notify.
Qed.

Lemma replace_write_tidy env permit req :
  env_ok env -> one_line (wp_world permit) -> one_line (rr_content_type req) ->
  keeps tidier (replace_write cfg env permit req).
Proof.
  intros Henv Hw Hct. unfold replace_write, replace_write_blocking.
  do 6 (apply keeps_bind; [typeclasses eauto|solve [keep]|intros ?]).
  apply (keeps_yields_bind (fun '(_, n, fn) => clean_notices n fn)).
  - destruct (is_persistent _); [by apply replace_durable_yields|by apply replace_memory_yields].
  - intros [[ex n] fn] Hn. apply keeps_bind; [typeclasses eauto| |intros ?; solve [keep]].
    apply keeps_modify. intros c. by apply tidier_notify_write.
Qed.

Lemma append_metadata_yields env w :
  yields (fun m => is_persistent w = true -> from_option (fun m => one_line (snd (fst m))) True m)
    (append_metadata env w : op WriteError _).
Proof.
  intros c Hc. unfold append_metadata. destruct (MemoryWorldPath_new w) as [m|] eqn:Em; cbn [fst snd].
  - split; [done|]. intros a _ Hp. apply memory_path in Em as [-> Hm]. unfold is_persistent in Hp.
    by rewrite Hm in Hp.
  - split; [done|]. intros a Ha _. unfold faulty in Ha. destruct (fault env IoMetadata); [done|].
    cbn [faulty] in Ha. apply map_err_Ok in Ha. unfold open_file in Ha. destruct (broken c !! w); [done|].
    injection Ha as <-. destruct (files c !! w) as [db|] eqn:Edb; [|done]. cbn. by apply (tidy_file c w).
Qed.

Lemma append_write_tidy env permit req :
  one_line (wp_world permit) -> keeps tidier (append_write cfg env permit req).
Proof.
  intros Hw. unfold append_write, append_write_blocking.
  do 4 (apply keeps_bind; [typeclasses eauto|solve [keep]|intros ?]).
  eapply keeps_yields_bind; [apply append_metadata_yields|]. intros m Hm.
  eapply (keeps_yields_bind (fun '(_, ct, _) => is_persistent (wp_world permit) = true -> one_line ct)).
  { apply yields_lift. intros [[len ct] hs] ->%ok_or_Ok. exact Hm. }
  intros [[len ct] hs] Hct. do 2 (apply keeps_bind; [typeclasses eauto|solve [keep]|intros ?]).
  apply (keeps_yields_bind (fun '(n, fn) => clean_notices n fn)).
  - destruct (is_persistent _); [apply append_durable_yields; auto|by apply append_memory_yields].
  - intros [n fn] Hn. apply keeps_bind; [typeclasses eauto| |intros ?; solve [keep]].
    apply keeps_modify. intros c. by apply tidier_notify_write.
Qed.
End Writes.

(** ** Delete *)

Section Delete.
Context `{CryptoLaws} `{Rusqlite} (cfg : Config).

Record clean_job (job : AuditAppendJob) : Prop := {
  cj_target : one_line (aj_target job);
  cj_body : one_line (aj_body_sha256 job);
  cj_type : one_line (aj_content_type job);
  cj_subject : from_option clean_subject True (ah_delete_subject (aj_headers job));
}.

Definition clean_ledger_event (e : AppendedLedgerEvent) : Prop :=
  clean_target (target_from_appended_ledger_event e) /\ one_line (le_hmac e)
  /\ from_option clean_row True (le_format_event e).

Lemma ledger_world_one_line : one_line DELETE_LEDGER_WORLD.
Proof. by split. Qed.
#[local] Hint Resolve ledger_world_one_line : core.

Lemma open_ledger_yields le : ledger_env_ok le -> yields tidy_db (open_ledger le).
Proof.
  intros Hg. unfold open_ledger. apply yields_keep_bind; [|intros [] c Hc].
  - intros c. unfold connect_ledger. destruct (ledger_conn c); [done|]. destruct (le_open_fault le); [done|].
    pose proof (tidier_open (le_creation le) (le_generation le) DELETE_LEDGER_WORLD
                  (one_line_generation _ Hg) ledger_world_one_line c) as Ho.
    destruct (open_world _ _ _ c) as [[k|err] c1]; cbn in Ho |- *; [|done].
    etrans; [done|by apply tidier_fields].
  - unfold gets, lift, mbind, op_bind. destruct (files c !! _) as [db|] eqn:Edb; cbn; (split; [done|]); [|done].
    intros a [= <-]. by eapply tidy_file.
Qed.

Lemma existing_row_clean now k target sha sz ct hs key db row db' :
  append_with_conn_existing_row now k DELETE_LEDGER_WORLD target sha sz ct hs key db = Ok (row, db') ->
  one_line target -> one_line sha -> one_line ct -> tidy_db db -> clean_row row /\ tidy_db db'.
Proof.
  unfold append_with_conn_existing_row. intros Ha Ht Hs Hc Hd.
  apply result_bind_Ok in Ha as ([atx pf] & [Hw Hg]%full_gate_atx & Ha%map_err_Ok).
  eapply append_tx_clean in Ha as (Hr & Hd' & _); eauto. by rewrite Hw.
Qed.

Lemma genesis_row_clean nowf now k target sha sz ct hs key db f row db' :
  append_with_conn_genesis_row nowf now k DELETE_LEDGER_WORLD target sha sz ct hs key db = Ok (f, row, db') ->
  one_line target -> one_line sha -> one_line ct -> tidy_db db ->
  clean_row f /\ clean_row row /\ tidy_db db'.
Proof.
  unfold append_with_conn_genesis_row. intros Ha Ht Hs Hc Hd.
  apply result_bind_Ok in Ha as ([atx pf] & [Hw Hg]%full_gate_atx & Ha).
  apply result_bind_Ok in Ha as ([f' db1] & Hf%map_err_Ok & Ha).
  eapply append_tx_clean in Hf as (Hrf & Hd1 & Hg1); [|done|by rewrite Hw..|apply one_line_sha|by split|done].
  apply result_bind_Ok in Ha as ([row' db2] & Hr%map_err_Ok & Ha). injection Ha as <- <- <-.
  eapply append_tx_clean in Hr as (Hrr & Hd2 & _); eauto; [congruence|by rewrite Hw].
Qed.

Lemma ledger_event_clean row subject f :
  clean_row row -> from_option clean_subject True subject -> from_option clean_row True f ->
  clean_ledger_event (ledger_event row subject f).
Proof. intros (Hi & [? ? ? _] & Hh) Hs Hf. by split. Qed.

Lemma ledger_append_yields le job :
  ledger_env_ok le -> clean_job job -> yields clean_ledger_event (ledger_append cfg le job).
Proof.
  intros Hg [Jt Jb Jc Js]. unfold ledger_append.
  eapply yields_bind; [by apply open_ledger_yields|]. intros db Hd.
  apply yields_keep_bind; [solve [keep]|intros is_empty].
  eapply (yields_bind (fun '(f, row, db) => from_option clean_row True f /\ clean_row row /\ tidy_db db)).
  - apply yields_lift. intros [[f row] db'] Ha%map_err_Ok. unfold faulty_audit in Ha.
    destruct (le_fault le); [done|]. destruct is_empty.
    + apply result_bind_Ok in Ha as ([[f' row'] db1] & Ha & [= <- <- <-]). by eapply genesis_row_clean.
    + apply result_bind_Ok in Ha as ([row' db1] & Ha & [= <- <- <-]). split; [done|]. by eapply existing_row_clean.
  - intros [[f row] db'] (Hf & Hr & Hd'). apply yields_keep_bind.
    + apply keeps_modify. intros c. by apply tidier_file.
    + intros _. by apply yields_ret, ledger_event_clean.
Qed.

Lemma tidier_notify_ledger e c : clean_ledger_event e -> tidier c (notify_ledger_event cfg e c).
Proof.
  intros (Ht & Hh & Hf). unfold notify_ledger_event. destruct (le_format_event e) as [f|].
  - destruct Hf as (Hi & Hp & Hfh). etrans; apply tidier_notify; try done; try by apply one_line_hmac_etag.
  - apply tidier_notify; [done|by apply one_line_hmac_etag|done].
Qed.

Lemma append_ledger_yields le job :
  ledger_env_ok le -> clean_job job -> yields clean_ledger_event (append_ledger_event_and_notify cfg le job).
Proof.
  intros Hg Hj. unfold append_ledger_event_and_notify. apply yields_keep_bind; [solve [keep]|intros _].
  eapply yields_bind; [apply yields_on_drop; [intros; apply tidier_counters|by apply ledger_append_yields]|].
  intros e He. apply yields_keep_bind; [solve [keep]|intros _].
  apply yields_keep_bind; [apply keeps_modify; intros c; by apply tidier_notify_ledger|].
  intros _. by apply yields_ret.
Qed.

(** The subject of a delete is the head of an intact file. *)
Lemma head_clean db w key head :
  verified_latest_body_head_via_conn db w key = Ok (Some head) -> clean_address (vh_address head).
Proof.
  unfold verified_latest_body_head_via_conn. intros Hh.
  do 3 (apply result_bind_Ok in Hh as (? & _ & Hh)). apply result_bind_Ok in Hh as ([bh|] & _ & Hh); [|done].
  do 3 (apply result_bind_Ok in Hh as (? & _ & Hh)).
  apply result_bind_Ok in Hh as (sha & Hs & Hh). apply result_bind_Ok in Hh as (gen & Hg & Hh). injection Hh as <-.
  apply map_err_Ok, map_err_Ok in Hs. pose proof (proj1 (BodySha256_new_Ok _ _) Hs) as [E _]. rewrite E in *.
  apply map_err_Ok, generation_Ok in Hg as [-> Hg]. split; [by apply one_line_generation|by apply one_line_body].
Qed.

Lemma capture_yields env w :
  yields (from_option (fun s => clean_address (ds_address s)) True) (capture_delete_subject_proof cfg env w).
Proof.
  intros c Hc. unfold capture_delete_subject_proof. cbn [fst snd]. split; [done|]. intros s Hs.
  destruct (is_memory_world w); [by injection Hs as <-|]. apply result_bind_Ok in Hs as (head & Hh%map_err_Ok & Hs).
  destruct head as [head|]; [|done]. injection Hs as <-. unfold latest_body_head in Hh.
  case_bool_decide; [done|]. unfold faulty_audit in Hh.
  destruct (open_file w c) as [[db|]|err], (fault env IoSubject); try done. by eapply head_clean.
Qed.

Lemma delete_prepare_yields env w req :
  yields (fun '(sha, headers, _) => one_line sha /\ from_option clean_subject True (ah_delete_subject headers)
            /\ one_line (dq_content_type req)) (delete_prepare cfg env w req).
Proof.
  unfold delete_prepare. apply yields_keep_bind; [solve [keep]|intros _].
  apply yields_keep_bind; [intros c; unfold delete_check_preconditions; by destruct (is_empty _)|intros _].
  eapply (yields_bind (fun _ => one_line (dq_content_type req))).
  { apply yields_lift. intros [] Hv%map_err_Ok. by eapply one_line_metadata. }
  intros _ Hct. eapply (yields_bind (fun user => ah_delete_subject user = None)).
  { apply yields_lift. intros user Hu%map_err_Ok. unfold AuditHeaders_from_user in Hu.
    destruct (existsb _ _); [done|]. by injection Hu as <-. }
  intros user Hu. do 3 (apply yields_keep_bind; [solve [keep]|intros ?]).
  eapply yields_bind; [apply capture_yields|]. intros s Hs. apply yields_ret.
  destruct s as [s|]; (split; [|split; [|done]]); [apply Hs|apply Hs|apply one_line_sha|by rewrite Hu].
Qed.

Lemma delete_now_tidy env w : keeps tidier (delete_world_now env w).
Proof.
  intros c. unfold delete_world_now. destruct (MemoryWorldPath_new w).
  - destruct (Store.delete _ _). by apply tidier_fields.
  - assert (forall c', files c' = base.delete w (files c) -> event_log c' = event_log c ->
      events_sent c' = events_sent c -> tidier c c') as Hgone.
    { intros c' Hf Hl He [Hd ? ?]. split; [|by rewrite Hl|by rewrite He].
      rewrite Hf. by apply map_Forall_delete. }
    destruct (open_file w c) as [[db|]|err]; [|done|]; (destruct (removed env); [by apply Hgone|done|by apply Hgone]).
Qed.

Lemma tidier_count_ledger c : tidier c (count_ledger c).
Proof. unfold count_ledger. destruct (delete_ledger_created c); by apply tidier_fields. Qed.

Lemma delete_tidy env w req : env_ok env -> one_line w -> keeps tidier (delete cfg env w req).
Proof.
  intros (_ & Hi & Hc & Hf) Hw. unfold delete, delete_blocking.
  eapply keeps_yields_bind; [apply delete_prepare_yields|]. intros [[sha headers] usage] (Hs & Hh & Hct).
  assert (forall k, clean_job (delete_job k w sha (dq_content_type req) headers)) as Hjob by (by split).
  assert (forall le k, ledger_env_ok le -> keeps tidier
    (append_ledger_event_and_notify cfg le (delete_job k w sha (dq_content_type req) headers))) as Hled
    by (intros le k Hle; eapply keeps_yields, append_ledger_yields; auto).
  unfold perform_delete. eapply (keeps_yields_bind clean_ledger_event).
  { intros c Ht. pose proof (append_ledger_yields _ (delete_job DeleteIntent w sha (dq_content_type req) headers)
      Hi (Hjob _) c Ht) as [Ht' He].
    destruct (append_ledger_event_and_notify _ _ _ c) as [r c']. split; [done|].
    intros e Hr. cbn in Hr. apply map_err_Ok in Hr. by apply He. }
  intros e He. apply keeps_bind; [typeclasses eauto|apply keeps_modify; apply tidier_count_ledger|intros _].
  apply keeps_bind; [typeclasses eauto| |intros _].
  { pose proof (delete_now_tidy env w). unfold removal, clear_cached_write_conn. keep; by apply tidier_fields. }
  eapply (keeps_yields_bind clean_ledger_event).
  { apply yields_lift. intros e' He'%ok_or_Ok. unfold as_delete_intent in He'. by destruct (le_event_type e); simplify_eq. }
  intros e' ([Hid [_ Hp]] & _ & _). apply keeps_bind; [typeclasses eauto| |intros _].
  { apply keeps_modify. intros c. apply tidier_notify; [done|by split|]. split; [done|apply (cp_subject _ Hp)]. }
  pose proof (Hled _ DeleteCommit Hc). pose proof (Hled _ DeleteCommitFailed Hf). unfold finish_delete. keep.
Qed.
End Delete.

(** ** Runs *)

Section Runs.
Context `{CryptoLaws} `{Rusqlite} (cfg : Config).

(** One operation of an authorized caller on a world named by UTF-8 text; a
    replace has passed the constructor of its request. *)
Inductive text_step (c : Core) : Core -> Prop :=
| text_replace env w tier permit body ct hs p req :
    env_ok env -> valid_world w -> is_utf8 w = true -> authorize_write w tier = Ok permit ->
    ReplaceRequest_new body ct hs p = Ok req ->
    text_step c (snd (replace_write cfg env permit req c))
| text_append env w tier permit req :
    env_ok env -> valid_world w -> is_utf8 w = true -> authorize_write w tier = Ok permit ->
    text_step c (snd (append_write cfg env permit req c))
| text_delete env w tier req :
    env_ok env -> valid_world w -> is_utf8 w = true -> authorize_delete w tier = Ok w ->
    text_step c (snd (delete cfg env w req c)).

Lemma text_step_tidy c c' : text_step c c' -> tidier c c'.
Proof.
  intros [env w tier permit body ct hs p req He Hv Hu (Hw & _)%permit_ok Hr
         |env w tier permit req He Hv Hu (Hw & _)%permit_ok|env w tier req He Hv Hu _];
    pose proof (one_line_valid_world w Hv Hu) as Hl.
  - apply replace_write_tidy; [done|by rewrite Hw|]. unfold ReplaceRequest_new in Hr.
    apply result_bind_Ok in Hr as ([] & Hm & [= <-]). by eapply one_line_metadata.
  - apply append_write_tidy. by rewrite Hw.
  - by apply delete_tidy.
Qed.

Lemma run_tidy c : rtc text_step core_new c -> tidy c.
Proof.
  intros Hr. assert (tidy core_new) as Hnew by (split; [apply map_Forall_empty|by apply Forall_nil_2..]).
  revert Hnew. induction Hr as [|c1 c2 c3 Hs _ IH]; [done|]. intros H1c. by apply IH, (text_step_tidy c1).
Qed.

Lemma Forall_filtered {A} (P : A -> Prop) (Q : A -> Prop) `{!forall x, Decision (Q x)} (l : list A) :
  Forall P l -> Forall P (filter Q l).
Proof. rewrite !Forall_forall. intros Hl x [_ Hx]%list_elem_of_filter. by apply Hl. Qed.

(** ** What is replayed *)

Lemma replay_subject_clean db seq k target sha s :
  delete_subject_proof_for_replay_event db seq k target sha = Ok s -> from_option clean_subject True s.
Proof.
  unfold delete_subject_proof_for_replay_event. destruct (negb _); [by intros [= <-]|].
  intros Hs%map_err_Ok. unfold delete_subject_proof_from_headers in Hs.
  destruct (_ && _); [by injection Hs as <-|]. inv_ok.
  match goal with Hg : WorldGeneration_new _ = Ok _ |- _ =>
    pose proof (proj1 (WorldGeneration_new_Ok _ _) Hg) as [E _]; rewrite E in *; by apply one_line_generation end.
Qed.

Lemma replay_event_clean db w gen row e :
  replay_event db w gen row = Ok e -> one_line w -> one_line gen -> tidy_row row ->
  clean_target (target_from_verified_replay_event e) /\ one_line (replay_hmac e).
Proof.
  unfold replay_event. intros He Hw Hg [Rt Rc Rh].
  apply result_bind_Ok in He as (seq & _ & He). apply result_bind_Ok in He as (k & _ & He).
  apply result_bind_Ok in He as ([] & _ & He). apply result_bind_Ok in He as (sha & Hs & He).
  apply map_err_Ok in Hs. pose proof (proj1 (BodySha256_new_Ok _ _) Hs) as [E _]. rewrite E in *.
  apply one_line_body in Hs. destruct (body_bearing (class k)).
  - apply result_bind_Ok in He as ([] & _ & He). injection He as <-. by split_and!.
  - destruct (negb _); [done|]. destruct (from_canonical (ev_target row)) as [t|] eqn:Et; [|done].
    apply from_canonical_valid in Et as [-> _]. apply result_bind_Ok in He as (s & Hsub & He). injection He as <-.
    split; [|done]. split; [done|]. split; [done|]. split; cbn; try done. by eapply replay_subject_clean.
Qed.

Lemma replay_rows_clean db w gen limit rows acc es :
  replay_rows db w gen limit rows acc = Ok (Some es) -> one_line w -> one_line gen -> Forall tidy_row rows ->
  Forall (fun e => clean_target (target_from_verified_replay_event e) /\ one_line (replay_hmac e)) acc ->
  Forall (fun e => clean_target (target_from_verified_replay_event e) /\ one_line (replay_hmac e)) es.
Proof.
  intros Hr Hw Hg. revert acc Hr. induction rows as [|row rows IH]; intros acc; cbn [replay_rows].
  { by intros [= <-]. }
  destruct (limit <=? _)%Z; [done|]. intros (e & He & Hr)%result_bind_Ok [Hrow Hrows]%Forall_cons Hacc.
  apply (IH _ Hr); [done|]. apply Forall_app. split; [done|]. apply Forall_singleton.
  by eapply replay_event_clean.
Qed.

Lemma replay_loop_clean es fence acc fence' events :
  replay_loop fence acc es = Ok (fence', events) ->
  Forall (fun e => clean_target (target_from_verified_replay_event e) /\ one_line (replay_hmac e)) es ->
  Forall sse_clean acc -> Forall sse_clean events.
Proof.
  revert fence acc. induction es as [|e es IH]; intros fence acc; cbn [replay_loop]; [by intros [= _ <-]|].
  intros ([f ev] & He & Hl)%result_bind_Ok [[Ht Hh] Hes]%Forall_cons Hacc. apply (IH _ _ Hl Hes).
  apply Forall_app. split; [done|]. apply Forall_singleton. unfold replayed_event in He. inv_ok.
  apply clean_public. split; [done|]. split; [by apply one_line_hmac_etag|done].
Qed.

Lemma from_marker_clean id log m rest :
  from_marker id log = Some (m, rest) -> Forall clean_event log -> Forall clean_event rest.
Proof.
  induction log as [|e log IH]; [done|]. cbn [from_marker]. destruct (is_marker id e).
  - intros [= _ <-]. by intros [_ ?]%Forall_cons.
  - intros Hm [_ Hl]%Forall_cons. by apply IH.
Qed.

Lemma replay_after_clean j f plan pattern c i events fence :
  tidy c -> replay_after cfg j f plan pattern c = Ok (i, events, fence) -> Forall sse_clean events.
Proof.
  intros Hc. destruct plan as [|id]; cbn [replay_after]; [intros [= _ <- _]; by apply Forall_nil_2|].
  unfold replay_after_durable_event_id. intros (exact & _ & Hr)%result_bind_Ok. destruct exact as [w|].
  - destruct (negb _); [injection Hr as _ <- _; by apply Forall_nil_2|].
    unfold replay_after_durable_chain_event_id in Hr. destruct (closed c); [done|].
    apply result_bind_Ok in Hr as (replay & Hj & Hr).
    destruct replay as [[es| | |]|]; try (injection Hr as _ <- _; by apply Forall_nil_2).
    apply result_bind_Ok in Hr as ([f' evs] & Hl & Hr). injection Hr as _ <- _.
    eapply replay_loop_clean; [done| |by apply Forall_nil_2].
    unfold join in Hj. destruct j; [done|]. apply map_err_Ok in Hj. unfold replay_chain_events_after, via_read_cache in Hj.
    case_bool_decide; [done|].
    destruct (open_file (sid_world id) c) as [[db|]|err] eqn:Eo; [|done|by unfold faulty_audit in Hj; destruct f].
    apply open_file_Ok in Eo as [_ Edb].
    apply result_bind_Ok in Hj as (r & Hv & [= ->]). destruct (ty_files _ Hc _ _ Edb) as [Hw [Dg _ Dr]].
    unfold faulty_audit in Hv. destruct f; [done|]. unfold verified_replay_events_after_via_conn in Hv.
    apply result_bind_Ok in Hv as ([] & _ & Hv). apply result_bind_Ok in Hv as (gen & [-> _]%map_err_Ok%generation_Ok & Hv).
    destruct (negb _); [done|]. destruct (load_event_identity db _); [|done].
    do 2 (apply result_bind_Ok in Hv as (? & _ & Hv)). apply result_bind_Ok in Hv as ([rs|] & Hrs%map_err_Ok & [= <-]).
    eapply replay_rows_clean; [done..| |by apply Forall_nil_2]. unfold rows_after.
    by apply Forall_take, Forall_filtered.
  - injection Hr as Hr. unfold replay_after_durable_ring_event_id in Hr.
    destruct (from_marker id (event_log c)) as [[m rest]|] eqn:Em; injection Hr as _ <- _; [|by apply Forall_nil_2].
    apply Forall_fmap, Forall_filtered. eapply Forall_impl; [by eapply from_marker_clean, Hc|]. apply clean_public.
Qed.
End Runs.

(** ** What is delivered *)

Section Delivered.
Context `{CryptoLaws} `{Rusqlite} `{BroadcastLaws} (cfg : Config).

(** A subscription of an engine that has run from an empty directory, polled,
    suspended and woken at any moments while the engine goes on. *)
Inductive subscribed : Core -> EngineSubscription -> Prop :=
| listen_opens c j f start pattern resume sub :
    rtc (text_step cfg) core_new c -> open_subscription cfg j f start pattern resume c = Ok sub ->
    subscribed c sub
| engine_steps c c' sub : subscribed c sub -> text_step cfg c c' -> subscribed c' sub
| listener_polls c sub shutdown p sub' :
    subscribed c sub -> recv shutdown (events_sent c) sub = Some (p, sub') -> subscribed c sub'
| listener_wakes c sub shutdown live p sub' :
    subscribed c sub -> resume shutdown (events_sent c) live sub = Some (p, sub') -> subscribed c sub'.

Definition clean_item (i : item) : Prop := match i with Ok e => sse_clean e | Err _ => True end.

Definition sub_clean (sub : EngineSubscription) : Prop :=
  match sub_state sub with Replaying items _ => Forall clean_item items | _ => True end.

(** The receiver hands out what was sent. *)
Lemma rx_sent sent next change : rx_recv sent next = RxEvent change -> change ∈ sent.
Proof.
  intros Hr. destruct (decide (length sent <= next)%nat) as [Hle|Hlt]; [by rewrite rx_empty in Hr|].
  destruct (decide (next + capacity < length sent)%nat) as [Hl|Hl].
  { destruct (rx_lagged sent next Hl) as (k & He & _). congruence. }
  destruct (sent !! next) as [x|] eqn:Ex; [|apply lookup_ge_None in Ex; lia].
  rewrite (rx_in_order sent next x Ex) in Hr by lia. injection Hr as <-. by eapply list_elem_of_lookup_2.
Qed.

Lemma recv_live_clean fuel shutdown sent live sub p sub' :
  Forall clean_event sent -> recv_live fuel shutdown sent live sub = Some (p, sub') ->
  sub_clean sub' /\ match p with Ready i => clean_item i | _ => True end.
Proof.
  intros Hs. revert live. induction fuel as [|fuel IH]; intros live; cbn [recv_live]; [done|].
  destruct shutdown; [by intros [= <- <-]|].
  destruct (rx_recv sent (lv_next live)) as [change| | |] eqn:Er; try by intros [= <- <-].
  destruct (live_change_action _ _ change); [|apply IH|by intros [= <- <-]].
  intros [= <- <-]. split; [done|]. apply clean_public. rewrite Forall_forall in Hs. by eapply Hs, rx_sent.
Qed.

Lemma recv_clean shutdown sent sub p sub' :
  Forall clean_event sent -> sub_clean sub -> recv shutdown sent sub = Some (p, sub') ->
  sub_clean sub' /\ match p with Ready i => clean_item i | _ => True end.
Proof.
  intros Hs. unfold recv. destruct sub as [pending [[|i items] live|live|]]; cbn [sub_state sub_pending_shutdown]; intros Hc.
  - destruct pending; [by apply recv_live_clean|by intros [= <- <-]].
  - intros [= <- <-]. by apply Forall_cons in Hc as [].
  - by apply recv_live_clean.
  - by intros [= <- <-].
Qed.

Lemma open_clean j f start pattern resume c sub :
  tidy c -> open_subscription cfg j f start pattern resume c = Ok sub -> sub_clean sub.
Proof.
  intros Hc. unfold open_subscription. intros (u & _ & Ho)%result_bind_Ok.
  apply result_bind_Ok in Ho as ([[i events] fence] & Hr & Ho). injection Ho as <-.
  apply (replay_after_clean cfg) in Hr; [|done].
  assert (Forall clean_item (match i with Some i => [Err (interruption_error i)] | None => [] end ++ map Ok events))
    as Hall.
  { apply Forall_app. split; [destruct i; by repeat constructor|]. by apply Forall_fmap. }
  unfold EngineSubscription_new, sub_clean. by destruct (_ ++ _).
Qed.

Lemma subscribed_clean c sub : subscribed c sub -> tidy c /\ sub_clean sub.
Proof.
  induction 1 as [c j f start pattern resume sub Hr Ho|c c' sub _ [Hc Hs] Hst
                 |c sub shutdown p sub' _ [Hc Hs] Hr|c sub shutdown live p sub' _ [Hc Hs] Hr].
  - pose proof (run_tidy cfg c Hr) as Hc. split; [done|by eapply open_clean].
  - split; [by apply (text_step_tidy cfg c)|done].
  - split; [done|]. by eapply recv_clean in Hr as [? _]; [|apply Hc|done].
  - split; [done|]. by eapply recv_live_clean in Hr as [? _]; [|apply Hc].
Qed.

(** C29: The data of a change event can be read back, and nothing in it can be
    forged.  Whatever worlds, content types and headers callers have used, and
    whatever failed, every change event a subscription to the engine delivers,
    live, from the log or replayed from a chain, is printed such that a reader
    that splits the data into lines and a line at its first colon finds under
    each name exactly the value of that field of the event, once, or nothing
    where the event has none; the timeline address and the event id are those of
    the event's own world; and the event builder never refuses its strings. *)
Theorem sse_event_readable c sub shutdown change sub' :
  subscribed c sub ->
  (recv shutdown (events_sent c) sub = Some (Ready (Ok change), sub')
   \/ exists live, resume shutdown (events_sent c) live sub = Some (Ready (Ok change), sub')) ->
  reads_back change.
Proof.
  intros [Hc Hs]%subscribed_clean Hr. apply clean_reads_back. destruct Hr as [Hr|[live Hr]].
  - by eapply recv_clean in Hr as [_ ?]; [|apply Hc|done].
  - by eapply recv_live_clean in Hr as [_ ?]; [|apply Hc].
Qed.
End Delivered.
