(* ===== verification/HttpProcTheorems.v ===== *)
(** * The proc routes and the whole server: theorems

    [app_handler] is the route table of [build_app]: every handler over one engine.
    Without the read tier it answers the same whatever the engine holds; with it,
    the audit routes answer what the files hold. *)

From S2P Require Import Prelude.
From S2P Require Import RustStr.
From S2P Require Import Path.
From S2P Require Import Auth.
From S2P Require Import Crypto.
From S2P Require Import Types.
From S2P Require Import Db.
From S2P Require Import AuditVerify.
From S2P Require Import Store.
From S2P Require Import StorageClass.
From S2P Require Import ReadCache.
From S2P Require Import Core.
From S2P Require Import CoreInv.
From S2P Require Import CoreTheorems.
From S2P Require Import EngineOps.
From S2P Require Import Subscription.
From S2P Require Import Startup.
From S2P Require Import Introspection.
From S2P Require Import FacadeSpec.
From S2P Require Import IntrospectionTheorems.
From S2P Require Import HttpResponse.
From S2P Require Import HttpSemantics.
From S2P Require Import HttpQuery.
From S2P Require Import HttpPipeline.
From S2P Require Import HttpProc.
From S2P Require Import ProcPath.
From S2P Require Import HttpListen.

(** ** The routes *)

Inductive ProcRoute :=
| RouteWorlds | RouteDu | RouteDf | RoutePool | RouteAudit (audit_path : string).

(** What a route looks at besides the request: the engine, a scan of its data
    directory, the fault of a read and the read cache. *)
Record Behind := {
  bh_engine : Engine;
  bh_scan : Scan;
  bh_fault : option sqlite_error;
  bh_cache : @Shared world_db;
  bh_max_entries : Z;
}.

Section Routes.
Context `{CryptoLaws} `{Rusqlite} `{HttpCrate} `{PercentEncoding} `{Base64} `{ErrorTexts}.
Context (cfg : Config) (tokens : Tokens).

(** The proc part of the route table ([build_app] of [route.rs]). *)
Definition proc_route (j : Join) (route : ProcRoute) (method : Method) (headers : HeaderMap) (b : Behind)
  : Response :=
  let e := bh_engine b in
  match route with
  | RouteWorlds => proc_worlds tokens j (bh_scan b) method headers e
  | RouteDu => proc_du tokens j (bh_scan b) method headers e
  | RouteDf => proc_df cfg tokens j method headers e
  | RoutePool => proc_pool tokens j (bh_cache b) (bh_max_entries b) method headers e
  | RouteAudit path => proc_audit_verify cfg tokens j (bh_fault b) method path headers e
  end.

Notation tier_of headers := (access_tier_from_headers tokens headers).

(** Every operation of the engine starts with the read gate. *)
Lemma introspection_refused tier sc f cache max_entries w seq e :
  can_read tokens tier = false ->
  let no {T} : result EngineError T := Err (EngineAuth GateRead) in
  Engine_list_worlds tokens sc tier e = no /\ Engine_du tokens sc tier e = no
  /\ Engine_df cfg tokens tier e = no /\ Engine_pool (D := world_db) tokens cache max_entries tier e = no
  /\ Engine_verify_audit cfg tokens f w tier e = no /\ Engine_chain_head cfg tokens f w tier e = no
  /\ Engine_chain_stamp cfg tokens f w seq tier e = no.
Proof.
  intros Hr no. unfold Engine_list_worlds, Engine_du, Engine_df, Engine_pool, Engine_verify_audit,
    Engine_chain_head, Engine_chain_stamp, EngineOps_list_worlds, EngineOps_du, EngineOps_df, EngineOps_pool,
    EngineOps_verify_audit, EngineOps_chain_head, EngineOps_chain_stamp.
  by rewrite !refused_without_read.
Qed.

(** The answer to a refused caller: it depends on the request only. *)
Definition refusal (j : Join) (route : ProcRoute) (method : Method) : Response :=
  let denied := match j with
                | Some err => if join_is_cancelled err then storage_temporarily_unavailable else internal_error
                | None => unauthorized "read requires read token"
                end in
  reading PROC_ALLOW method
    (match route with
     | RouteAudit path => match audit_request path with Ok _ => denied | Err resp => resp end
     | _ => denied
     end).

Lemma refused_route j route method headers b :
  can_read tokens (tier_of headers) = false ->
  proc_route j route method headers b = refusal j route method.
Proof.
  intros Hr. pose proof (fun w seq => introspection_refused (tier_of headers) (bh_scan b) (bh_fault b)
    (bh_cache b) (bh_max_entries b) w seq (bh_engine b) Hr) as Hno.
  assert (forall T (k : T -> Response) scope r, r = Err (EngineAuth GateRead) ->
    answer (run_introspection j scope r) k
    = match j with
      | Some err => if join_is_cancelled err then storage_temporarily_unavailable else internal_error
      | None => unauthorized "read requires read token"
      end) as Hans.
  { intros T k scope r ->. by destruct j. }
  unfold proc_route, refusal, proc_worlds, proc_du, proc_df, proc_pool, proc_audit_verify, reading.
  change AUDIT_VERIFY_ALLOW with PROC_ALLOW.
  destruct (bool_decide (method = OPTIONS)), (negb (bool_decide (method = GET)) && negb (bool_decide (method = HEAD)));
    try by destruct route.
  destruct route as [| | | |path]; try (apply Hans; apply (Hno "" 1%Z)).
  destruct (audit_request path) as [[w a]|resp]; [|done]. cbn [answer].
  destruct (Hno w (match a with ActionStamp n => n | _ => 1%Z end)) as (_ & _ & _ & _ & Hv & Hh & Hs).
  by destruct a; apply Hans.
Qed.

(** ** The audit routes *)

Definition render_verify (r : AuditVerify) : Response :=
  match r with
  | Valid report => audit_valid report
  | Broken report => audit_broken report
  | NotApplicable => audit_not_applicable
  end.

Lemma audit_route_run f method headers w a e :
  method = GET \/ method = HEAD -> valid_world w -> action_ok a ->
  let tier := tier_of headers in
  proc_audit_verify cfg tokens None f method (w +:+ audit_suffix a) headers e
  = match a with
    | ActionVerify => answer (map_err (proc_engine_error "audit verify")
                                (Engine_verify_audit cfg tokens f w tier e)) render_verify
    | ActionHead => answer (map_err (proc_engine_error "audit head") (Engine_chain_head cfg tokens f w tier e))
                      (from_option audit_head audit_head_not_applicable)
    | ActionStamp n => answer (map_err (proc_engine_error "audit stamp")
                                 (Engine_chain_stamp cfg tokens f w n tier e))
                         (from_option audit_stamp audit_stamp_not_applicable)
    end.
Proof.
  intros Hm Hv Ha tier. unfold proc_audit_verify, reading. rewrite audit_request_read by done.
  rewrite (bool_decide_false (method = OPTIONS)) by (by destruct Hm as [->| ->]).
  assert (negb (bool_decide (method = GET)) && negb (bool_decide (method = HEAD)) = false) as ->
    by (by destruct Hm as [->| ->]).
  destruct a; cbn [answer run_introspection]; fold tier.
  - by destruct (Engine_verify_audit _ _ _ _ _ _) as [[]|].
  - by destruct (Engine_chain_head _ _ _ _ _ _) as [[]|].
  - by destruct (Engine_chain_stamp _ _ _ _ _ _ _) as [[]|].
Qed.

Section Audit.
Context `{!RusqliteLaws}.

(** C26: The audit routes answer what the world's file holds.  A world that does
    not exist is 404 and a memory world 204 on all three routes.  For a durable
    world with events, [/verify] is 200 with the number of rows and the HMACs of
    the first and the last, [/head] is 200 with the generation, that number and
    the HMAC of the last row, and [/stamp/n] is 200 with the HMAC of row [n], or
    204 with the number of rows when there is no such row.  The empty schema of
    a failed first write is 409 on [/verify]; the incomplete file of one that a
    fault interrupted is a 500 on all three. *)
Theorem audit_routes_exact method headers w n e :
  method = GET \/ method = HEAD -> valid_world w -> (0 < n <= i64_max)%Z ->
  core_inv cfg (en_core e) -> closed (en_core e) = false ->
  can_read tokens (access_tier_from_headers tokens headers) = true ->
  let get a := proc_audit_verify cfg tokens None None method (w +:+ audit_suffix a) headers e in
  let answers v h s := get ActionVerify = v /\ get ActionHead = h /\ get (ActionStamp n) = s in
  if is_memory_world w then
    if contains (mem (en_core e)) w
    then answers audit_not_applicable audit_head_not_applicable audit_stamp_not_applicable
    else answers not_found not_found not_found
  else
    match open_file w (en_core e) with
    | Err _ => answers (server_error "audit verify storage failure") (server_error "audit head storage failure")
                 (server_error "audit stamp storage failure")
    | Ok None => answers not_found not_found not_found
    | Ok (Some db) =>
        let generation := ("x-audit-generation", audit_header_value (db_generation db)) in
        let count := ("x-audit-events", to_string (event_count db)) in
        let hmac name row := (name, audit_header_value (hmac_label (ev_hmac row))) in
        match db_events db with
        | [] => status (get ActionVerify) = 409%Z /\ get ActionHead = audit_head_not_applicable
                /\ status (get (ActionStamp n)) = 204%Z
        | first :: rest =>
            let latest := default first (last rest) in
            answers
              (headers_only 200 [("x-audit-valid", "true"); count; hmac "x-audit-genesis" first;
                                 hmac "x-audit-latest" latest])
              (headers_only 200 [("x-audit-head", "true"); generation;
                                 ("x-audit-seq", to_string (event_count db)); hmac "x-audit-hmac" latest])
              (match (first :: rest) !! Z.to_nat (n - 1) with
               | Some row => headers_only 200 [("x-audit-stamp", "true"); generation;
                                               ("x-audit-seq", to_string n); hmac "x-audit-hmac" row]
               | None => headers_only 204 [("x-audit-stamp", "n/a"); generation; count]
               end)
        end
    end.
Proof using All.
  intros Hm Hv Hn Hinv Hopen Hread get answers. set (tier := tier_of headers) in *.
  pose proof (audit_reads_run cfg tokens e tier w n Hinv Hopen Hread ltac:(lia)) as Hreads.
  unfold audit_reads in Hreads. subst answers get. cbv beta.
  rewrite !audit_route_run by done. fold tier.
  destruct (is_memory_world w).
  { destruct (contains _ w); injection Hreads as -> -> ->; done. }
  destruct (open_file w (en_core e)) as [[db|]|err]; [|by injection Hreads as -> -> ->..].
  destruct (db_events db) as [|first rest] eqn:Ee; injection Hreads as -> -> ->; [done|].
  assert (0 < event_count db)%Z as Hpos by (unfold event_count; rewrite Ee; cbn; lia).
  cbn [answer map_err render_verify from_option]. split_and!; [done| |].
  - unfold audit_head. cbn [hs_seq]. by rewrite (proj2 (Z.leb_gt _ _) Hpos).
  - destruct ((first :: rest) !! Z.to_nat (n - 1)); [|done].
    unfold audit_stamp. cbn [st_seq]. by rewrite (proj2 (Z.ltb_ge _ _)) by lia.
Qed.
End Audit.

(** ** The whole server *)

(** The route axum's router finds for a path. *)
Inductive AppRoute :=
| RouteRoot | RouteVersion | RouteReserved | RouteProc (route : ProcRoute)
| RouteListen (pattern : string) | RouteWorld (path : string).

Record AppRequest := {
  rq_method : Method;
  rq_route : AppRoute;
  rq_query : option string;
  rq_headers : HeaderMap;
  rq_body : string;
}.

Inductive AppAnswer := Answered (resp : option Response) | Streaming (sub : EngineSubscription).

Context `{HttpGetAll} (VERSION : string) (state : ServerState).

(** The handlers of [build_app], below the middleware. *)
Definition app_handler (fuel : nat) (o : outside) (rq : AppRequest) (b : Behind) : AppAnswer * Engine :=
  let e := bh_engine b in
  let plain resp := (Answered (Some resp), e) in
  match rq_route rq with
  | RouteRoot => plain (root_hint VERSION (rq_method rq))
  | RouteVersion => plain (proc_version VERSION (rq_method rq))
  | RouteReserved => plain (proc_reserved (rq_method rq))
  | RouteProc route => plain (proc_route (o_join o) route (rq_method rq) (rq_headers rq) b)
  | RouteListen pattern =>
      match listen_handler cfg tokens (o_join o) (o_read_fault o) (rq_method rq) (rq_headers rq) pattern e with
      | (Answer resp, e) => (Answered (Some resp), e)
      | (Stream sub, e) => (Streaming sub, e)
      end
  | RouteWorld path =>
      let '(resp, e) := world_handler cfg tokens state fuel o (rq_method rq) path (rq_query rq)
                          (rq_headers rq) (rq_body rq) e in
      (Answered resp, e)
  end.

(** A caller without the read tier has no tier at all. *)
Lemma no_read_anon tier : can_read tokens tier = false -> tier = Anon.
Proof. unfold can_read. destruct tier; [done|..]; by rewrite orb_true_r. Qed.

(** A phase of a refused caller: its tier is [Anon]. *)
Definition refused_phase (p : Phase) : Prop :=
  match p with
  | Received _ _ _ headers _ => tier_of headers = Anon
  | Authenticated _ _ _ _ _ tier | PathValidated _ _ _ _ tier _ | Dispatched _ _ _ tier _
  | TimelineDispatched _ _ tier => tier = Anon
  | _ => True
  end.

Lemma classify_refused method q headers body w :
  refused_phase (classify_timeline_request method q headers body Anon w).
Proof.
  unfold classify_timeline_request, timeline_query_error, dispatch, dispatch_timeline. by repeat case_match.
Qed.

(** What the verbs make of a refused caller. *)
Definition refused_verb (j : Join) (verb : Verb) (w : string) : Phase :=
  match verb with
  | VerbGet | VerbHead =>
      read_error_phase match j with Some err => blocking_join_to_engine err | None => EngineAuth GateRead end
  | VerbPut | VerbPost => write_error_phase (EngineAuth (write_gate w))
  | VerbDel => delete_error_phase (EngineAuth GateDelete) StepNone
  end.

Lemma execute_refused o verb headers body w e :
  can_read tokens Anon = false ->
  execute cfg tokens state o verb headers body Anon w e = (refused_verb (o_join o) verb w, e).
Proof.
  intros Hr. destruct verb; cbn [execute]; try done.
  - unfold execute_get, read, read_permit. rewrite Hr. by destruct (o_join o).
  - unfold execute_head, read, read_permit. rewrite Hr. by destruct (o_join o).
Qed.

Lemma turn_refused o o' p e e' :
  can_read tokens Anon = false -> o_join o = o_join o' -> refused_phase p ->
  exists out, turn cfg tokens state o p e = (out, e) /\ turn cfg tokens state o' p e' = (out, e')
    /\ match out with inr p' => refused_phase p' | inl _ => True end.
Proof.
  intros Hr Hj. destruct p; cbn [turn refused_phase]; intros Hp; try (by eexists); rewrite ?Hp.
  - eexists. split; [done|]. split; [done|]. unfold validate_path. by repeat case_match.
  - eexists. split; [done|]. split; [done|]. apply classify_refused.
  - rewrite !execute_refused by done. rewrite Hj. eexists. split; [done|]. split; [done|].
    unfold refused_verb, read_error_phase, write_error_phase, delete_error_phase.
    destruct verb; try done; by repeat case_match.
  - unfold execute_timeline, dereference_timeline_coordinate, read_permit. rewrite Hr, Hj. cbn [mbind result_bind].
    eexists. split; [done|]. split; [done|].
    unfold timeline_engine_error_phase. by repeat case_match.
Qed.

Lemma drive_refused fuel o o' p e e' :
  can_read tokens Anon = false -> o_join o = o_join o' -> refused_phase p ->
  exists resp, drive cfg tokens state fuel o p e = (resp, e) /\ drive cfg tokens state fuel o' p e' = (resp, e').
Proof.
  intros Hr Hj. revert p. induction fuel as [|fuel IH]; intros p Hp; cbn [drive]; [by eexists|].
  destruct (turn_refused o o' p e e' Hr Hj Hp) as (out & -> & -> & Hout).
  destruct out as [resp|p']; [by eexists|by apply IH].
Qed.

Lemma app_refused fuel o o' rq b b' :
  can_read tokens (tier_of (rq_headers rq)) = false -> o_join o = o_join o' ->
  exists resp, app_handler fuel o rq b = (Answered resp, bh_engine b)
    /\ app_handler fuel o' rq b' = (Answered resp, bh_engine b').
Proof.
  intros Hr Hj. unfold app_handler. destruct (rq_route rq) as [| | |route|pattern|path]; try by eexists.
  - rewrite !refused_route, Hj by done. by eexists.
  - unfold listen_handler. destruct (bool_decide _); [by eexists|]. destruct (negb _); [by eexists|].
    destruct (parse_last_event_id (rq_headers rq)); [|by eexists]. unfold subscribe, authorize_subscribe.
    rewrite !Hr. by eexists.
  - pose proof (no_read_anon _ Hr) as Ha. rewrite Ha in Hr. unfold world_handler, run.
    destruct (drive_refused fuel o o' (Received (rq_method rq) path (rq_query rq) (rq_headers rq) (rq_body rq))
                (bh_engine b) (bh_engine b') Hr Hj Ha) as (resp & -> & ->).
    destruct (rq_method rq); by eexists.
Qed.

(** C27: Without the read tier the server tells nothing and changes nothing.  Where
    reads need a token, the answer to a caller without one, whatever the route,
    method, headers, query and body, depends on the request alone (and on whether
    the thread pool works): not on the worlds, the counters, the caches, the
    subscriptions, the data directory, its faults or the state of the engine,
    which stays as it is; no stream is opened, and a listing asked for with [GET]
    is the challenge 401. *)
Theorem http_noninterference fuel o o' rq b b' :
  can_read tokens (tier_of (rq_headers rq)) = false -> o_join o = o_join o' ->
  fst (app_handler fuel o rq b) = fst (app_handler fuel o' rq b')
  /\ snd (app_handler fuel o rq b) = bh_engine b
  /\ (forall sub, fst (app_handler fuel o rq b) <> Streaming sub)
  /\ (o_join o = None -> rq_method rq = GET ->
      match rq_route rq with RouteProc (RouteAudit _) => False | RouteProc _ => True | _ => False end ->
      fst (app_handler fuel o rq b) = Answered (Some (unauthorized "read requires read token"))).
Proof using All.
  intros Hr Hj. destruct (app_refused fuel o o' rq b b' Hr Hj) as (resp & E & E'). rewrite E, E'.
  split; [done|]. split; [done|]. split; [done|]. cbn [fst]. intros Hn Hm Hroute.
  assert (Answered resp = fst (app_handler fuel o rq b)) as -> by (by rewrite E). unfold app_handler.
  destruct (rq_route rq) as [| | |route|pattern|path]; try done. cbn [fst]. rewrite refused_route, Hn, Hm by done.
  by destruct route.
Qed.

End Routes.
