(* ===== verification/FfiTypes.v ===== *)
(** * Types of the foreign-function interface

    Models [ffi/src/types.rs]: the records and enums that cross the boundary and
    their conversions to and from the engine's types.  The [Unknown] variants of
    the enums the engine returns stand for variants of a newer engine; the
    conversions keep them for the arms that match the rest. *)

From S2P Require Import Prelude.
From S2P Require Import RustStr.
From S2P Require Import Path.
From S2P Require Import Auth.
From S2P Require Import Crypto.
From S2P Require Import Etag.
From S2P Require Import Types.
From S2P Require Import Db.
From S2P Require Import AuditVerify.
From S2P Require Import WorldWrite.
From S2P Require Import AuditGates.
From S2P Require Import Timeline.
From S2P Require Import EventId.
From S2P Require Import StorageClass.
From S2P Require Import Core.
From S2P Require Import WorldOps.
From S2P Require Import Startup.
From S2P Require Import EngineOps.
From S2P Require Import Subscription.
From S2P Require Import Introspection.
From S2P Require Import HttpResponse.
From S2P Require Import HttpListen.

(** ** Configuration *)

Record FfiEngineConfig := {
  fc_data_root : string;
  fc_hmac_key : string;
  fc_read_token : option string;
  fc_write_token : option string;
  fc_approve_token : option string;
  fc_max_world_bytes : option Z;
  fc_max_memory_bytes : option Z;
  fc_max_storage_bytes : option Z;
  fc_max_listen_connections : option Z;
  fc_listen_replay_max : option Z;
  fc_read_cache_max_entries : option Z;
}.

Record FfiEngineConfigSummary := {
  sm_data_root : string;
  sm_has_read_token : bool;
  sm_has_write_token : bool;
  sm_has_approve_token : bool;
  sm_max_world_bytes : option Z;
  sm_max_memory_bytes : option Z;
  sm_max_storage_bytes : option Z;
  sm_max_listen_connections : option Z;
  sm_listen_replay_max : option Z;
  sm_read_cache_max_entries : option Z;
}.

Definition token_configured (token : option string) : bool := from_option is_valid false token.

Definition nonzero_override (value : option Z) : option Z :=
  value ≫= fun v => if (0 <? v)%Z then Some v else None.

Definition FfiEngineConfig_summary (c : FfiEngineConfig) : FfiEngineConfigSummary :=
  {| sm_data_root := fc_data_root c;
     sm_has_read_token := token_configured (fc_read_token c);
     sm_has_write_token := token_configured (fc_write_token c);
     sm_has_approve_token := token_configured (fc_approve_token c);
     sm_max_world_bytes := fc_max_world_bytes c;
     sm_max_memory_bytes := fc_max_memory_bytes c;
     sm_max_storage_bytes := nonzero_override (fc_max_storage_bytes c);
     sm_max_listen_connections := nonzero_override (fc_max_listen_connections c);
     sm_listen_replay_max := nonzero_override (fc_listen_replay_max c);
     sm_read_cache_max_entries := nonzero_override (fc_read_cache_max_entries c) |}.

(** ** Errors *)

Inductive FfiAuthGate := FfiGateRead | FfiGateWrite | FfiGateWriteApprove | FfiGateDelete | FfiGateUnknown.

Inductive FfiError :=
| FfiInvalidConfig (message : string)
| FfiInvalidSecret (message : string)
| FfiInvalidWorld (message : string)
| FfiBuildDataRootIo (message : string)
| FfiBuildDataRootLockHeld (path : string) (holder_pid : option string)
| FfiBuildHmacKeyMissing
| FfiBuildAuditChainCorrupted (world detail : string)
| FfiBuildStorage (code : option sqlite_code) (detail : string)
| FfiUnknownBuildError (detail : string)
| FfiRuntimeInitFailed (message : string)
| FfiAuth (gate : FfiAuthGate)
| FfiInvalidWorldName
| FfiInvalidMetadata (message : string)
| FfiNotFound
| FfiAppendOnly
| FfiPayloadTooLarge (max : Z)
| FfiPreconditionFailed (message : string)
| FfiQuotaExceeded (used quota projected : Z)
| FfiTransientStorage
| FfiInsufficientStorage
| FfiStorage
| FfiSubscriptionLimit
| FfiShuttingDown
| FfiInternalInvariant (message : string)
| FfiUnknownEngineError (detail : string).

(** [as u64] of a [usize]. *)
Definition as_u64 (n : Z) : Z := n mod 2 ^ 64.

Definition FfiAuthGate_from (gate : AuthGate) : FfiAuthGate :=
  match gate with
  | GateRead => FfiGateRead
  | GateWrite => FfiGateWrite
  | GateWriteApprove => FfiGateWriteApprove
  | GateDelete => FfiGateDelete
  end.

Definition FfiError_from_engine (err : EngineError) : FfiError :=
  match err with
  | EngineAuth gate => FfiAuth (FfiAuthGate_from gate)
  | InvalidWorldName => FfiInvalidWorldName
  | InvalidMetadata message => FfiInvalidMetadata message
  | NotFound => FfiNotFound
  | EngineAppendOnly => FfiAppendOnly
  | EnginePayloadTooLarge max => FfiPayloadTooLarge (as_u64 max)
  | PreconditionFailed message => FfiPreconditionFailed message
  | EngineQuotaExceeded used quota projected =>
      FfiQuotaExceeded (as_u64 used) (as_u64 quota) (as_u64 projected)
  | TransientStorage => FfiTransientStorage
  | EngineInsufficientStorage => FfiInsufficientStorage
  | EngineStorage => FfiStorage
  | SubscriptionLimit => FfiSubscriptionLimit
  | ShuttingDown => FfiShuttingDown
  | InternalInvariant message => FfiInternalInvariant message
  end.

(** [data_root] is the path in [DataRootLockHeld]; [debug] prints the error of
    the last arm. *)
Definition FfiError_from_build (data_root : string) (debug : EngineBuildError -> string)
    (err : EngineBuildError) : FfiError :=
  match err with
  | DataRootIo message => FfiBuildDataRootIo message
  | DataRootLockHeld holder_pid => FfiBuildDataRootLockHeld data_root holder_pid
  | HmacKeyMissing => FfiBuildHmacKeyMissing
  | AuditChainCorrupted world detail => FfiBuildAuditChainCorrupted world detail
  | BuildStorage code detail => FfiBuildStorage code detail
  | other => FfiUnknownBuildError (debug other)
  end.

(** ** Tiers *)

Inductive FfiAccessTier := FfiAnon | FfiRead | FfiWrite | FfiApprove | FfiTierUnknown.

Definition tier_try_from (t : FfiAccessTier) : result FfiError Tier :=
  match t with
  | FfiAnon => Ok Anon
  | FfiRead => Ok Read
  | FfiWrite => Ok Write
  | FfiApprove => Ok Approve
  | FfiTierUnknown => Err (FfiInvalidConfig "unknown access tier")
  end.

Definition FfiAccessTier_from (t : Tier) : FfiAccessTier :=
  match t with Anon => FfiAnon | Read => FfiRead | Write => FfiWrite | Approve => FfiApprove end.

(** ** Preconditions and representations *)

Record FfiHeader := { fh_name : string; fh_value : string }.

Inductive FfiEtagMatcher := FfiAny | FfiStrong (etag : string) | FfiWeak (etag : string).

Record FfiPreconditions := { fp_if_match : list FfiEtagMatcher; fp_if_none_match : list FfiEtagMatcher }.

Definition EtagMatcher_from (m : FfiEtagMatcher) : EtagMatcher :=
  match m with FfiAny => Any | FfiStrong etag => Strong etag | FfiWeak etag => Weak etag end.

Definition Preconditions_from (p : FfiPreconditions) : Preconditions :=
  {| if_match := map EtagMatcher_from (fp_if_match p);
     if_none_match := map EtagMatcher_from (fp_if_none_match p) |}.

Record FfiRepresentation := { fr_body : string; fr_content_type : string; fr_header_list : list FfiHeader }.

(** One [insert] into the [BTreeMap]; its entries come out sorted by name. *)
Definition insert_header (out : gmap string string) (h : FfiHeader) : gmap string string :=
  <[to_ascii_lowercase (fh_name h) := fh_value h]> out.

Definition representation_headers (headers : list FfiHeader) : list (string * string) :=
  sort_headers (map_to_list (foldl insert_header ∅ headers)).

Definition Representation_from (r : FfiRepresentation) : Representation :=
  {| re_body := fr_body r; re_content_type := fr_content_type r;
     re_headers := representation_headers (fr_header_list r) |}.

Definition FfiHeader_from (h : string * string) : FfiHeader := {| fh_name := fst h; fh_value := snd h |}.

Definition FfiRepresentation_from (r : Representation) : FfiRepresentation :=
  {| fr_body := re_body r; fr_content_type := re_content_type r;
     fr_header_list := map FfiHeader_from (re_headers r) |}.

Record FfiDeleteMetadata := { fd_content_type : string; fd_headers : list FfiHeader }.

(** [DeleteMetadata] with the preconditions, as [Engine::delete_traced] joins them. *)
Definition DeleteRequest_from (m : FfiDeleteMetadata) (p : FfiPreconditions) : DeleteOps.DeleteRequest :=
  {| DeleteOps.dq_preconditions := Preconditions_from p; DeleteOps.dq_content_type := fd_content_type m;
     DeleteOps.dq_headers := map (fun h => (fh_name h, fh_value h)) (fd_headers m) |}.

Record FfiReadResult := { fx_representation : FfiRepresentation; fx_etag : string }.

Definition FfiReadResult_from (r : ReadResult) : FfiReadResult :=
  {| fx_representation := FfiRepresentation_from (rd_representation r); fx_etag := rd_etag r |}.

Inductive FfiWriteKind := FfiCreated | FfiUpdated | FfiWriteUnknown.
Record FfiWriteResult := { fw_kind : FfiWriteKind; fw_etag : string }.

Definition FfiWriteKind_from (k : WriteKind) : FfiWriteKind :=
  match k with KindCreated => FfiCreated | KindUpdated => FfiUpdated end.

Definition FfiWriteResult_from (r : WriteResult) : FfiWriteResult :=
  {| fw_kind := FfiWriteKind_from (wr_kind r); fw_etag := wr_etag r |}.

(** ** Timeline *)

Record FfiTimelineCoordinate := {
  ft_world : string;
  ft_generation : string;
  ft_seq : Z;
  ft_body_sha256 : string;
}.

Definition coordinate_error_to_string (err : InvalidTimelineCoordinate) : string :=
  match err with
  | CoordWorldPath reason => reason
  | CoordMemoryWorld => "timeline coordinate world is not durable"
  | CoordGenerationWrongLength => "timeline coordinate generation has wrong length"
  | CoordGenerationNotLowerHex => "timeline coordinate generation is not lower hex"
  | CoordSeqNonPositive => "timeline coordinate sequence is not positive"
  | CoordBodySha256WrongLength => "timeline coordinate body sha256 has wrong length"
  | CoordBodySha256NotLowerHex => "timeline coordinate body sha256 is not lower hex"
  end.

Definition try_into_core (c : FfiTimelineCoordinate) : result FfiError TimelineCoordinate :=
  map_err (fun err => FfiInvalidConfig ("invalid timeline coordinate: " +:+ coordinate_error_to_string err))
    (from_wire_parts (ft_world c) (ft_generation c) (ft_seq c) (ft_body_sha256 c)).

Definition from_timeline_coordinate (c : TimelineCoordinate) : FfiTimelineCoordinate :=
  {| ft_world := tc_world c; ft_generation := tc_gen c; ft_seq := tc_seq c;
     ft_body_sha256 := tc_body_sha256 c |}.

Definition ffi_from_timeline_address (a : TimelineAddress) : FfiTimelineCoordinate :=
  {| ft_world := ta_world a; ft_generation := ta_gen a; ft_seq := ta_seq a;
     ft_body_sha256 := ta_body_sha256 a |}.

Inductive FfiTimelineDereferenceKind :=
| FfiBody | FfiGenMismatch | FfiBodyHashMismatch | FfiNonBodyEvent | FfiExpired | FfiMissingRow
| FfiUnproven | FfiCorrupt | FfiDerefUnknown.

Inductive FfiTimelineCorruption :=
| FfiMissingBodyForPresentRow | FfiCorruptBodyHash | FfiInvalidEventShape | FfiCorruptionUnknown.

Definition FfiTimelineCorruption_from (c : TimelineCorruption) : FfiTimelineCorruption :=
  match c with
  | MissingBodyForPresentRow => FfiMissingBodyForPresentRow
  | CorruptBodyHashMismatch => FfiCorruptBodyHash
  | InvalidEventShape => FfiInvalidEventShape
  end.

Record FfiTimelineDereference := {
  fz_kind : FfiTimelineDereferenceKind;
  fz_representation : option FfiRepresentation;
  fz_coordinate : option FfiTimelineCoordinate;
  fz_content_type : option string;
  fz_size : option Z;
  fz_hmac : option string;
  fz_event_type : option string;
  fz_event_target : option string;
  fz_event_body_sha256 : option string;
  fz_delete_subject_generation : option string;
  fz_actual_generation : option string;
  fz_actual_body_sha256 : option string;
  fz_corruption : option FfiTimelineCorruption;
}.

(** [body.into_representation()]. *)
Definition stage_representation (s : Stage) : Representation :=
  {| re_body := stage_body s; re_content_type := stage_content_type s; re_headers := stage_headers s |}.

Definition FfiTimelineDereference_from (d : TimelineDereference) : FfiTimelineDereference :=
  match d with
  | DerefBody body =>
      {| fz_kind := FfiBody;
         fz_representation := Some (FfiRepresentation_from (stage_representation (tb_representation body)));
         fz_coordinate := Some (ffi_from_timeline_address (tb_address body));
         fz_content_type := None; fz_size := None; fz_hmac := Some (tb_hmac body);
         fz_event_type := None; fz_event_target := None; fz_event_body_sha256 := None;
         fz_delete_subject_generation := None; fz_actual_generation := None;
         fz_actual_body_sha256 := None; fz_corruption := None |}
  | DerefGenMismatch requested actual =>
      {| fz_kind := FfiGenMismatch; fz_representation := None;
         fz_coordinate := Some (from_timeline_coordinate requested);
         fz_content_type := None; fz_size := None; fz_hmac := None;
         fz_event_type := None; fz_event_target := None; fz_event_body_sha256 := None;
         fz_delete_subject_generation := None; fz_actual_generation := Some actual;
         fz_actual_body_sha256 := None; fz_corruption := None |}
  | DerefBodyHashMismatch requested actual =>
      {| fz_kind := FfiBodyHashMismatch; fz_representation := None;
         fz_coordinate := Some (from_timeline_coordinate requested);
         fz_content_type := None; fz_size := None; fz_hmac := None;
         fz_event_type := None; fz_event_target := None; fz_event_body_sha256 := None;
         fz_delete_subject_generation := None; fz_actual_generation := None;
         fz_actual_body_sha256 := Some actual; fz_corruption := None |}
  | DerefNonBodyEvent proof =>
      {| fz_kind := FfiNonBodyEvent; fz_representation := None;
         fz_coordinate := Some (from_timeline_coordinate (nb_requested proof));
         fz_content_type := Some (nb_content_type proof); fz_size := Some (nb_size proof);
         fz_hmac := Some (nb_hmac proof);
         fz_event_type := Some (nb_event_type proof); fz_event_target := Some (nb_event_target proof);
         fz_event_body_sha256 := Some (nb_body_sha256 proof);
         fz_delete_subject_generation := ta_gen ∘ ds_address <$> nb_delete_subject proof;
         fz_actual_generation := None; fz_actual_body_sha256 := None; fz_corruption := None |}
  | DerefExpired proof =>
      {| fz_kind := FfiExpired; fz_representation := None;
         fz_coordinate := Some (from_timeline_coordinate (ve_requested proof));
         fz_content_type := Some (ve_content_type proof); fz_size := Some (ve_size proof);
         fz_hmac := Some (ve_hmac proof);
         fz_event_type := None; fz_event_target := None; fz_event_body_sha256 := None;
         fz_delete_subject_generation := None; fz_actual_generation := None;
         fz_actual_body_sha256 := None; fz_corruption := None |}
  | DerefMissingRow requested =>
      {| fz_kind := FfiMissingRow; fz_representation := None;
         fz_coordinate := Some (from_timeline_coordinate requested);
         fz_content_type := None; fz_size := None; fz_hmac := None;
         fz_event_type := None; fz_event_target := None; fz_event_body_sha256 := None;
         fz_delete_subject_generation := None; fz_actual_generation := None;
         fz_actual_body_sha256 := None; fz_corruption := None |}
  | UnprovenCoordinate coordinate =>
      {| fz_kind := FfiUnproven; fz_representation := None;
         fz_coordinate := Some (from_timeline_coordinate coordinate);
         fz_content_type := None; fz_size := None; fz_hmac := None;
         fz_event_type := None; fz_event_target := None; fz_event_body_sha256 := None;
         fz_delete_subject_generation := None; fz_actual_generation := None;
         fz_actual_body_sha256 := None; fz_corruption := None |}
  | DerefCorrupt coordinate reason =>
      {| fz_kind := FfiCorrupt; fz_representation := None;
         fz_coordinate := Some (from_timeline_coordinate coordinate);
         fz_content_type := None; fz_size := None; fz_hmac := None;
         fz_event_type := None; fz_event_target := None; fz_event_body_sha256 := None;
         fz_delete_subject_generation := None; fz_actual_generation := None;
         fz_actual_body_sha256 := None; fz_corruption := Some (FfiTimelineCorruption_from reason) |}
  end.

(** ** Subscriptions *)

Inductive FfiChangeVerb := FfiReplace | FfiAppend | FfiDelete | FfiFormat | FfiVerbUnknown.

Definition FfiChangeVerb_from (v : ChangeVerb) : FfiChangeVerb :=
  match v with
  | VerbReplace => FfiReplace
  | VerbAppend => FfiAppend
  | VerbDelete => FfiDelete
  | VerbFormat => FfiFormat
  end.

Record FfiChangeEvent := {
  fe_id : Z;
  fe_cursor : option string;
  fe_verb : FfiChangeVerb;
  fe_path : string;
  fe_etag : string;
  fe_timeline_world : option string;
  fe_timeline_generation : option string;
  fe_timeline_seq : option Z;
  fe_timeline_body_sha256 : option string;
  fe_delete_ledger_cursor : option string;
  fe_delete_ledger_seq : option Z;
  fe_delete_subject_generation : option string;
  fe_audit_event_type : option string;
  fe_audit_event_target : option string;
  fe_body_sha256 : option string;
  fe_body_size : option Z;
  fe_content_type : option string;
}.

Definition FfiChangeEvent_from (value : PublicChangeEvent) : FfiChangeEvent :=
  {| fe_id := pe_id value;
     fe_cursor := match pe_identity value with
                  | IdentityChain id => Some (SubscriptionEventId_to_string id)
                  | IdentityEphemeral => None
                  end;
     fe_verb := FfiChangeVerb_from (pe_verb value);
     fe_path := pe_path value;
     fe_etag := pe_etag value;
     fe_timeline_world := ta_world <$> pe_timeline_address value;
     fe_timeline_generation := ta_gen <$> pe_timeline_address value;
     fe_timeline_seq := ta_seq <$> pe_timeline_address value;
     fe_timeline_body_sha256 := ta_body_sha256 <$> pe_timeline_address value;
     fe_delete_ledger_cursor := SubscriptionEventId_to_string <$> pe_delete_ledger_event_id value;
     fe_delete_ledger_seq := sid_seq <$> pe_delete_ledger_event_id value;
     fe_delete_subject_generation := delete_subject_generation value;
     fe_audit_event_type := AuditEventType_as_str <$> pe_audit_event_type value;
     fe_audit_event_target := pe_audit_event_target value;
     fe_body_sha256 := pe_body_sha256 value;
     fe_body_size := pe_body_size value;
     fe_content_type := pe_content_type value |}.

Inductive FfiSubscriptionResetReason :=
| FfiIncarnation | FfiTruncation | FfiRingMiss | FfiMemory | FfiResetUnknown.

Definition FfiSubscriptionResetReason_from (r : SubscriptionResetReason) : FfiSubscriptionResetReason :=
  match r with
  | Incarnation => FfiIncarnation
  | Truncation => FfiTruncation
  | RingMiss => FfiRingMiss
  | Memory => FfiMemory
  end.

Inductive FfiSubscriptionNextKind :=
| FfiEventKind | FfiTimeout | FfiLagged | FfiReset | FfiClosed | FfiNextUnknown.

Record FfiSubscriptionNext := {
  fn_kind : FfiSubscriptionNextKind;
  fn_event : option FfiChangeEvent;
  fn_skipped : option Z;
  fn_reset_reason : option FfiSubscriptionResetReason;
}.

Definition resume_try_from `{PercentEncoding} (after_cursor : option string)
  : result FfiError SubscriptionResume :=
  match after_cursor with
  | None => Ok ResumeNone
  | Some raw =>
      id ← map_err (fun err => FfiInvalidConfig (event_id_error_to_string err +:+ ": " +:+ raw))
             (from_sse_id raw);
      Ok (ResumeDurable id)
  end.

(** ** Usage, counters and audit *)

Record FfiWorldUsage := {
  fu_world : string;
  fu_bytes : Z;
  fu_current_body_bytes : Z;
  fu_retained_cas_body_bytes : Z;
  fu_audit_chain_events : Z;
}.

Definition FfiWorldUsage_from (u : WorldUsage) : FfiWorldUsage :=
  {| fu_world := wu_world u; fu_bytes := as_u64 (wu_bytes u);
     fu_current_body_bytes := as_u64 (wu_current_body_bytes u);
     fu_retained_cas_body_bytes := as_u64 (wu_retained_cas_body_bytes u);
     fu_audit_chain_events := as_u64 (wu_audit_chain_events u) |}.

Inductive FfiAuditVerify :=
| FfiValid (events : Z) (genesis latest : string)
| FfiBroken (break_at : Z) (expected actual : string)
| FfiNotApplicable
| FfiAuditUnknown.

Definition FfiAuditVerify_from (v : AuditVerify) : FfiAuditVerify :=
  match v with
  | Valid report => FfiValid (as_u64 (val_events report)) (val_genesis report) (val_latest report)
  | Broken report => FfiBroken (as_u64 (ab_break_at report)) (ab_expected report) (ab_actual report)
  | NotApplicable => FfiNotApplicable
  end.

Record FfiDfSnapshot := {
  fdf_storage_used : Z;
  fdf_storage_current_body_bytes : Z;
  fdf_storage_retained_cas_body_bytes : Z;
  fdf_storage_audit_chain_events : Z;
  fdf_storage_quota : option Z;
  fdf_memory_used : Z;
  fdf_memory_quota : Z;
  fdf_worlds : Z;
}.

Definition FfiDfSnapshot_from (s : DfSnapshot) : FfiDfSnapshot :=
  {| fdf_storage_used := as_u64 (df_storage_used s);
     fdf_storage_current_body_bytes := as_u64 (df_storage_current_body_bytes s);
     fdf_storage_retained_cas_body_bytes := as_u64 (df_storage_retained_cas_body_bytes s);
     fdf_storage_audit_chain_events := as_u64 (df_storage_audit_chain_events s);
     fdf_storage_quota := as_u64 <$> df_storage_quota s;
     fdf_memory_used := as_u64 (df_memory_used s);
     fdf_memory_quota := as_u64 (df_memory_quota s);
     fdf_worlds := as_u64 (df_worlds s) |}.

Record FfiPoolSnapshot := {
  fps_read_cache_entries : Z;
  fps_read_cache_tombstones : Z;
  fps_read_cache_hits : Z;
  fps_read_cache_misses : Z;
  fps_read_cache_capped : Z;
  fps_read_cache_evictions : Z;
  fps_read_cache_open_fails : Z;
  fps_read_cache_max_entries : Z;
  fps_ledger_writer_inits : Z;
}.

Definition FfiPoolSnapshot_from (s : PoolSnapshot) : FfiPoolSnapshot :=
  {| fps_read_cache_entries := as_u64 (ps_read_cache_entries s);
     fps_read_cache_tombstones := as_u64 (ps_read_cache_tombstones s);
     fps_read_cache_hits := as_u64 (ps_read_cache_hits s);
     fps_read_cache_misses := as_u64 (ps_read_cache_misses s);
     fps_read_cache_capped := as_u64 (ps_read_cache_capped s);
     fps_read_cache_evictions := as_u64 (ps_read_cache_evictions s);
     fps_read_cache_open_fails := as_u64 (ps_read_cache_open_fails s);
     fps_read_cache_max_entries := as_u64 (ps_read_cache_max_entries s);
     fps_ledger_writer_inits := as_u64 (ps_ledger_writer_inits s) |}.
