(* ===== verification/Ffi.v ===== *)
(** * The foreign-function interface

    Models [ffi/src/lib.rs] without its subscriptions, which are in
    [FfiSubscription.v]: opening an engine and the verbs of [FfiEngine].  A verb
    blocks its caller on the engine's future, so it is one call of the engine;
    its arguments are converted in the order of the code, and the first that is
    refused ends it. *)

From S2P Require Import Prelude.
From S2P Require Import RustStr.
From S2P Require Import Path.
From S2P Require Import Auth.
From S2P Require Import Crypto.
From S2P Require Import Etag.
From S2P Require Import Types.
From S2P Require Import Db.
From S2P Require Import Timeline.
From S2P Require Import StorageClass.
From S2P Require Import ReadCache.
From S2P Require Import Core.
From S2P Require Import WorldOps.
From S2P Require Import Startup.
From S2P Require Import EngineOps.
From S2P Require Import Introspection.
From S2P Require Import FfiTypes.
From S2P Require Import HttpConfig.

(** [usize] has 64 bits. *)
Definition optional_usize (name : string) (value : option Z) : result FfiError (option Z) :=
  match value with
  | None => Ok None
  | Some v =>
      _ ← ensure (v <=? usize_max)%Z
            (FfiInvalidConfig (name +:+ " exceeds this platform's usize range"));
      Ok (Some v)
  end.

Definition validated_world (world : string) : result FfiError string :=
  map_err (fun _ => FfiInvalidWorld ("invalid world path: " +:+ world)) (from_canonical world).

Record FfiEngine := {
  fg_cfg : Config;
  fg_tokens : Tokens;
  fg_engine : Engine;
  fg_config : FfiEngineConfigSummary;
}.

(** The calls on the builder for a value that is there. *)
Definition when_some {A} (f : A -> setting) (v : option A) : list setting := option_list (f <$> v).

(** The calls on the builder, in order. *)
Definition open_settings (config : FfiEngineConfig) : result FfiError (list setting) :=
  key ← map_err (fun err => FfiInvalidSecret (InvalidHmacKey_display err))
          (AuditHmacKey_new (fc_hmac_key config));
  world ← optional_usize "max_world_bytes" (fc_max_world_bytes config);
  memory ← optional_usize "max_memory_bytes" (fc_max_memory_bytes config);
  storage ← optional_usize "max_storage_bytes" (fc_max_storage_bytes config);
  listen ← optional_usize "max_listen_connections" (fc_max_listen_connections config);
  replay ← optional_usize "listen_replay_max" (fc_listen_replay_max config);
  cache ← optional_usize "read_cache_max_entries" (fc_read_cache_max_entries config);
  Ok ([SetKey key]
      ++ when_some SetReadToken (fc_read_token config)
      ++ when_some SetWriteToken (fc_write_token config)
      ++ when_some SetApproveToken (fc_approve_token config)
      ++ when_some SetMaxWorldBytes world
      ++ when_some SetMaxMemoryBytes memory
      ++ [SetMaxStorageBytes storage]
      ++ when_some SetMaxListenConnections listen
      ++ when_some SetListenReplayMax replay
      ++ when_some SetReadCacheMaxEntries cache).

Section Ffi.
Context `{Crypto} `{Rusqlite} `{PercentEncoding} `{ErrorTexts}.

(** [rt] is the error of building the runtime, if it fails. *)
Definition FfiEngine_open (config : FfiEngineConfig) (debug : EngineBuildError -> string)
    (se : StartupEnv) (root : list DirEntry) (rt : option string) : result FfiError FfiEngine :=
  let summary := FfiEngineConfig_summary config in
  settings ← open_settings config;
  let builder := configure settings in
  '(cfg, core) ← map_err (FfiError_from_build (fc_data_root config) debug) (build builder se root);
  match rt with
  | Some message => Err (FfiRuntimeInitFailed message)
  | None =>
      Ok {| fg_cfg := cfg; fg_tokens := eb_tokens builder;
            fg_engine := {| en_core := core; shutdown := false;
                            listen_slots := eb_max_listen_connections builder |};
            fg_config := summary |}
  end.

Definition config_summary (g : FfiEngine) : FfiEngineConfigSummary := fg_config g.

Definition verify_token (token : string) (g : FfiEngine) : FfiAccessTier :=
  FfiAccessTier_from (check_token_bytes (fg_tokens g) token).

Definition with_engine (e : Engine) (g : FfiEngine) : FfiEngine :=
  {| fg_cfg := fg_cfg g; fg_tokens := fg_tokens g; fg_engine := e; fg_config := fg_config g |}.

(** [shutdown], and the drop of the handle. *)
Definition ffi_shutdown (g : FfiEngine) : FfiEngine := with_engine (engine_shutdown (fg_engine g)) g.

Definition from_engine {A B} (into : A -> B) (r : result EngineError A) : result FfiError B :=
  a ← map_err FfiError_from_engine r; Ok (into a).

Definition ffi_read (j : Join) (f : option sqlite_error) (world : string) (tier : FfiAccessTier)
    (g : FfiEngine) : result FfiError (option FfiReadResult) :=
  world ← validated_world world;
  tier ← tier_try_from tier;
  from_engine (fmap FfiReadResult_from) (read (fg_cfg g) (fg_tokens g) j f world tier (fg_engine g)).

Definition ffi_dereference_timeline_coordinate (j : Join) (f : option sqlite_error)
    (coordinate : FfiTimelineCoordinate) (tier : FfiAccessTier) (g : FfiEngine)
  : result FfiError FfiTimelineDereference :=
  coordinate ← try_into_core coordinate;
  tier ← tier_try_from tier;
  from_engine FfiTimelineDereference_from
    (dereference_timeline_coordinate (fg_cfg g) (fg_tokens g) j f coordinate tier (fg_engine g)).

(** A verb that changes the engine, behind its conversions. *)
Definition ffi_verb {A B} (into : A -> B) (run : string -> Tier -> Engine -> result EngineError A * Engine)
    (world : string) (tier : FfiAccessTier) (g : FfiEngine) : result FfiError B * FfiEngine :=
  match (world ← validated_world world; tier ← tier_try_from tier; Ok (world, tier)) with
  | Err err => (Err err, g)
  | Ok (world, tier) =>
      let '(r, e) := run world tier (fg_engine g) in (from_engine into r, with_engine e g)
  end.

Definition ffi_replace (env : Env) (world : string) (r : FfiRepresentation) (p : FfiPreconditions)
    (tier : FfiAccessTier) (g : FfiEngine) : result FfiError FfiWriteResult * FfiEngine :=
  ffi_verb FfiWriteResult_from
    (fun world tier => replace (fg_cfg g) env world (Representation_from r) (Preconditions_from p) tier)
    world tier g.

Definition ffi_append (env : Env) (world body : string) (p : FfiPreconditions) (tier : FfiAccessTier)
    (g : FfiEngine) : result FfiError FfiWriteResult * FfiEngine :=
  ffi_verb FfiWriteResult_from
    (fun world tier => append (fg_cfg g) env world body (Preconditions_from p) tier) world tier g.

Definition ffi_delete (env : Env) (world : string) (p : FfiPreconditions) (tier : FfiAccessTier)
    (g : FfiEngine) : result FfiError unit * FfiEngine :=
  ffi_verb (fun u => u)
    (fun world tier => engine_delete (fg_cfg g) env world (Preconditions_from p) tier) world tier g.

(** [delete_traced] with hooks that do nothing. *)
Definition ffi_delete_with_metadata (env : Env) (world : string) (metadata : FfiDeleteMetadata)
    (p : FfiPreconditions) (tier : FfiAccessTier) (g : FfiEngine) : result FfiError unit * FfiEngine :=
  ffi_verb (fun u => u)
    (fun world tier => delete_with (fg_cfg g) env world (DeleteRequest_from metadata p) tier) world tier g.

Definition ffi_worlds (sc : Scan) (tier : FfiAccessTier) (g : FfiEngine) : result FfiError (list string) :=
  tier ← tier_try_from tier;
  from_engine (fun l => l) (Engine_list_worlds (fg_tokens g) sc tier (fg_engine g)).

Definition ffi_du (sc : Scan) (tier : FfiAccessTier) (g : FfiEngine) : result FfiError (list FfiWorldUsage) :=
  tier ← tier_try_from tier;
  from_engine (map FfiWorldUsage_from) (Engine_du (fg_tokens g) sc tier (fg_engine g)).

Definition ffi_df (tier : FfiAccessTier) (g : FfiEngine) : result FfiError FfiDfSnapshot :=
  tier ← tier_try_from tier;
  from_engine FfiDfSnapshot_from (Engine_df (fg_cfg g) (fg_tokens g) tier (fg_engine g)).

Definition ffi_pool {D} (cache : @Shared D) (max_entries : Z) (tier : FfiAccessTier) (g : FfiEngine)
  : result FfiError FfiPoolSnapshot :=
  tier ← tier_try_from tier;
  from_engine FfiPoolSnapshot_from (Engine_pool (fg_tokens g) cache max_entries tier (fg_engine g)).

Definition ffi_audit_verify (f : option sqlite_error) (world : string) (tier : FfiAccessTier)
    (g : FfiEngine) : result FfiError FfiAuditVerify :=
  world ← validated_world world;
  tier ← tier_try_from tier;
  from_engine FfiAuditVerify_from
    (Engine_verify_audit (fg_cfg g) (fg_tokens g) f world tier (fg_engine g)).
End Ffi.
