(* ===== verification/FfiTheorems.v ===== *)
(** * The foreign-function interface: theorems

    Through the interface the engine is still the abstract store of
    [FacadeSpec.v], and the summary of a handle tells the limits its engine runs
    with. *)

From S2P Require Import Prelude.
From S2P Require Import RustStr.
From S2P Require Import Path.
From S2P Require Import Auth.
From S2P Require Import Crypto.
From S2P Require Import Etag.
From S2P Require Import Types.
From S2P Require Import Db.
From S2P Require Import StorageClass.
From S2P Require Import Core.
From S2P Require Import WorldOps.
From S2P Require Import DeleteOps.
From S2P Require Import CoreInv.
From S2P Require Import CoreTheorems.
From S2P Require Import Startup.
From S2P Require Import StartupTheorems.
From S2P Require Import EngineOps.
From S2P Require Import Introspection.
From S2P Require Import FacadeSpec.
From S2P Require Import EngineTheorems.
From S2P Require Import HttpConfig.
From S2P Require Import FfiTypes.
From S2P Require Import Ffi.

(** ** Calls through the interface *)

Inductive ffi_request :=
| FReqRead (world : string) (tier : FfiAccessTier)
| FReqReplace (world : string) (r : FfiRepresentation) (p : FfiPreconditions) (tier : FfiAccessTier)
| FReqAppend (world body : string) (p : FfiPreconditions) (tier : FfiAccessTier)
| FReqDelete (world : string) (p : FfiPreconditions) (tier : FfiAccessTier)
| FReqDeleteWith (world : string) (m : FfiDeleteMetadata) (p : FfiPreconditions) (tier : FfiAccessTier)
| FReqShutdown.

Inductive ffi_response :=
| FRespRead (r : result FfiError (option FfiReadResult))
| FRespWrite (r : result FfiError FfiWriteResult)
| FRespDelete (r : result FfiError unit)
| FRespShutdown.

Section Calls.
Context `{Crypto} `{Rusqlite}.

Definition ffi_call (o : outside) (q : ffi_request) (g : FfiEngine) : ffi_response * FfiEngine :=
  match q with
  | FReqRead w tier => (FRespRead (ffi_read (o_join o) (o_read_fault o) w tier g), g)
  | FReqReplace w r p tier => let '(res, g) := ffi_replace (o_env o) w r p tier g in (FRespWrite res, g)
  | FReqAppend w body p tier => let '(res, g) := ffi_append (o_env o) w body p tier g in (FRespWrite res, g)
  | FReqDelete w p tier => let '(res, g) := ffi_delete (o_env o) w p tier g in (FRespDelete res, g)
  | FReqDeleteWith w m p tier =>
      let '(res, g) := ffi_delete_with_metadata (o_env o) w m p tier g in (FRespDelete res, g)
  | FReqShutdown => (FRespShutdown, ffi_shutdown g)
  end.

Inductive ffi_run : FfiEngine -> list (bool * ffi_request * ffi_response) -> FfiEngine -> Prop :=
| ffi_run_nil g : ffi_run g [] g
| ffi_run_cons g q o l g2 :
    env_ok (o_env o) -> disk_bounded (en_core (fg_engine g)) ->
    ffi_run (snd (ffi_call o q g)) l g2 -> ffi_run g ((calm o, q, fst (ffi_call o q g)) :: l) g2.
End Calls.

(** ** What the interface promises *)

(** A world is admitted when it is a canonical name, a tier when it is known. *)
Definition checked_call {A} (world : string) (tier : FfiAccessTier) (f : Tier -> A) : result FfiError A :=
  if decide (valid_world world) then
    match tier with
    | FfiAnon => Ok (f Anon)
    | FfiRead => Ok (f Read)
    | FfiWrite => Ok (f Write)
    | FfiApprove => Ok (f Approve)
    | FfiTierUnknown => Err (FfiInvalidConfig "unknown access tier")
    end
  else Err (FfiInvalidWorld ("invalid world path: " +:+ world)).

(** The request of the store an admitted call stands for. *)
Definition translate (q : ffi_request) : result FfiError request :=
  match q with
  | FReqRead w tier => checked_call w tier (ReqRead w)
  | FReqReplace w r p tier =>
      checked_call w tier (ReqReplace w (Representation_from r) (Preconditions_from p))
  | FReqAppend w body p tier => checked_call w tier (ReqAppend w body (Preconditions_from p))
  | FReqDelete w p tier | FReqDeleteWith w _ p tier =>
      checked_call w tier (ReqDelete w (Preconditions_from p))
  | FReqShutdown => Ok ReqShutdown
  end.

Definition refusal (q : ffi_request) (err : FfiError) : ffi_response :=
  match q with
  | FReqRead _ _ => FRespRead (Err err)
  | FReqReplace _ _ _ _ | FReqAppend _ _ _ _ => FRespWrite (Err err)
  | _ => FRespDelete (Err err)
  end.

Definition ffi_answer (p : response) : ffi_response :=
  match p with
  | RespRead r => FRespRead (from_engine (fmap FfiReadResult_from) r)
  | RespWrite r => FRespWrite (from_engine FfiWriteResult_from r)
  | RespDelete r => FRespDelete (from_engine (fun u => u) r)
  | RespShutdown => FRespShutdown
  end.

Inductive ffi_spec_run (cfg : Config) (tokens : Tokens)
  : store -> list (bool * ffi_request * ffi_response) -> store -> Prop :=
| ffi_spec_nil a : ffi_spec_run cfg tokens a [] a
| ffi_spec_refused a quiet q err l a2 :
    translate q = Err err -> ffi_spec_run cfg tokens a l a2 ->
    ffi_spec_run cfg tokens a ((quiet, q, refusal q err) :: l) a2
| ffi_spec_call a quiet q req p a1 l a2 :
    translate q = Ok req -> spec_step cfg tokens a quiet req p a1 -> ffi_spec_run cfg tokens a1 l a2 ->
    ffi_spec_run cfg tokens a ((quiet, q, ffi_answer p) :: l) a2.

(** ** Proofs *)

(** The conversions of the code admit exactly these calls. *)
Lemma checked_call_eq world tier :
  (world ← validated_world world; t ← tier_try_from tier; Ok (world, t))
  = (t ← checked_call world tier (fun t => t); Ok (world, t))
  /\ forall t, checked_call world tier (fun t => t) = Ok t -> valid_world world.
Proof.
  unfold checked_call, validated_world. destruct (from_canonical world) as [w|err] eqn:E.
  - apply from_canonical_valid in E as [-> Hv]. rewrite decide_True by done. split; [|done]. by destruct tier.
  - rewrite decide_False; [by split|]. intros Hv. by rewrite Hv in E.
Qed.

Lemma checked_call_map {A} world tier (f : Tier -> A) :
  checked_call world tier f = (t ← checked_call world tier (fun t => t); Ok (f t)).
Proof. unfold checked_call. case_decide; by destruct tier. Qed.

Section Refine.
Context `{CryptoLaws} `{RusqliteLaws}.

Definition ffi_inv (g : FfiEngine) : Prop :=
  config_ok (fg_cfg g) /\ engine_inv (fg_cfg g) (fg_engine g).

Definition ffi_abstract (g : FfiEngine) : store := abstract (fg_cfg g) (fg_engine g).

(** One call: refused at the boundary, or a step of the store. *)
Definition call_refined (quiet : bool) (q : ffi_request) (p : ffi_response) (g g' : FfiEngine) : Prop :=
  ffi_inv g' /\ fg_cfg g' = fg_cfg g /\ fg_tokens g' = fg_tokens g
  /\ match translate q with
     | Err err => p = refusal q err /\ g' = g
     | Ok req => exists r, p = ffi_answer r
                   /\ spec_step (fg_cfg g) (fg_tokens g) (ffi_abstract g) quiet req r (ffi_abstract g')
     end.

Lemma verb_refined {A B} (into : A -> B) run world tier g quiet q resp
    (req : Tier -> request) (answer : result EngineError A -> response) :
  ffi_inv g -> translate q = checked_call world tier req ->
  (forall err, refusal q err = resp (Err err)) ->
  (forall r, ffi_answer (answer r) = resp (from_engine into r)) ->
  (forall t, valid_world world ->
     let '(p, e) := let '(r, e) := run world t (fg_engine g) in (answer r, e) in
     engine_inv (fg_cfg g) e
     /\ spec_step (fg_cfg g) (fg_tokens g) (ffi_abstract g) quiet (req t) p (abstract (fg_cfg g) e)) ->
  let c := let '(r, g') := ffi_verb into run world tier g in (resp r, g') in
  call_refined quiet q (fst c) g (snd c).
Proof.
  intros Hinv Htr Href Hans Hrun. unfold ffi_verb. destruct (checked_call_eq world tier) as [-> Hv].
  unfold call_refined. rewrite Htr, (checked_call_map world tier req).
  destruct (checked_call world tier (fun t => t)) as [t|err] eqn:Ec; cbn [mbind result_bind].
  - specialize (Hrun t (Hv t eq_refl)). destruct (run world t (fg_engine g)) as [r e]. destruct Hrun as [He Hs].
    cbn beta iota. split; [by split; [apply Hinv|]|]. split; [done|]. split; [done|]. exists (answer r). by rewrite Hans.
  - split; [done|]. split; [done|]. split; [done|]. by rewrite Href.
Qed.

Lemma ffi_read_checked j f world tier g :
  ffi_read j f world tier g
  = (t ← checked_call world tier (fun t => t);
     from_engine (fmap FfiReadResult_from) (read (fg_cfg g) (fg_tokens g) j f world t (fg_engine g))).
Proof.
  unfold ffi_read. destruct (checked_call_eq world tier) as [Hc _]. revert Hc.
  destruct (validated_world world) as [w|]; cbn [mbind result_bind];
    [destruct (tier_try_from tier); cbn [mbind result_bind]|];
    destruct (checked_call world tier (fun t => t)); cbn [mbind result_bind]; congruence.
Qed.

Lemma ffi_call_refined o q g :
  ffi_inv g -> env_ok (o_env o) -> disk_bounded (en_core (fg_engine g)) ->
  call_refined (calm o) q (fst (ffi_call o q g)) g (snd (ffi_call o q g)).
Proof.
  intros Hinv Henv Hdisk. pose proof Hinv as [Hcfg He].
  pose proof (step_refines (fg_cfg g) (fg_tokens g) Hcfg (fg_engine g)) as Hstep.
  assert (forall req, (forall w, request_world req = Some w -> valid_world w) ->
            let '(p, e) := call (fg_cfg g) (fg_tokens g) o req (fg_engine g) in
            engine_inv (fg_cfg g) e
            /\ spec_step (fg_cfg g) (fg_tokens g) (ffi_abstract g) (calm o) req p (abstract (fg_cfg g) e)) as Hcall.
  { intros req Hw. pose proof (facade_call (fg_cfg g) (fg_tokens g) (fg_engine g) req o Henv Hdisk Hw) as Hf.
    destruct (call _ _ o req (fg_engine g)) as [p e]. by apply (Hstep req (calm o) p e). }
  destruct q as [w tier|w r p tier|w body p tier|w p tier|w m p tier|]; cbn [ffi_call].
  - unfold call_refined. cbn [translate fst snd]. rewrite ffi_read_checked, (checked_call_map w tier (ReqRead w)).
    split; [done|]. split; [done|]. split; [done|]. destruct (checked_call_eq w tier) as [_ Hv].
    destruct (checked_call w tier (fun t => t)) as [t|err] eqn:Ec; cbn [mbind result_bind]; [|done].
    specialize (Hcall (ReqRead w t) ltac:(intros ? [= <-]; by eapply Hv)) as [_ Hs]. eexists. by split; [|exact Hs].
  - apply (verb_refined _ _ w tier g _ _ FRespWrite
             (ReqReplace w (Representation_from r) (Preconditions_from p)) RespWrite Hinv); [done..|].
    intros t Hw. apply (Hcall (ReqReplace w (Representation_from r) (Preconditions_from p) t)). by intros ? [= <-].
  - apply (verb_refined _ _ w tier g _ _ FRespWrite (ReqAppend w body (Preconditions_from p)) RespWrite Hinv);
      [done..|].
    intros t Hw. apply (Hcall (ReqAppend w body (Preconditions_from p) t)). by intros ? [= <-].
  - apply (verb_refined _ _ w tier g _ _ FRespDelete (ReqDelete w (Preconditions_from p)) RespDelete Hinv); [done| |done|].
    { by intros []. }
    intros t Hw. apply (Hcall (ReqDelete w (Preconditions_from p) t)). by intros ? [= <-].
  - apply (verb_refined _ _ w tier g _ _ FRespDelete (ReqDelete w (Preconditions_from p)) RespDelete Hinv); [done..|].
    intros t Hw.
    pose proof (delete_with_refines (fg_cfg g) (fg_tokens g) Hcfg (o_env o) w (DeleteRequest_from m p) t
                  (fg_engine g) He Henv Hw) as Hd.
    destruct (delete_with _ _ _ _ _ _) as [res e']. split; [apply Hd|apply Hd].
  - unfold call_refined. cbn. specialize (Hcall ReqShutdown ltac:(done)) as [Hi Hs].
    split; [by split|]. split; [done|]. split; [done|]. by exists RespShutdown.
Qed.

(** C31: Through the foreign-function interface the engine is the abstract store.
    In every sequence of reads, replaces, appends, deletes and a shutdown through
    a handle, with any names and tiers and any faults underneath, a call whose
    world is not a canonical name or whose tier is unknown is refused with that
    error and changes nothing, and every other call gets the converted answer to
    a step the store allows for the request it stands for, which has the body,
    content type, preconditions and tier of the call and its headers by lower-case
    name, the last of equal names ([representation_headers_spec]). *)
Theorem ffi_refines_store g l g' :
  ffi_inv g -> ffi_run g l g' ->
  ffi_spec_run (fg_cfg g) (fg_tokens g) (ffi_abstract g) l (ffi_abstract g').
Proof.
  intros Hinv Hrun. induction Hrun as [g|g q o l g2 Henv Hdisk _ IH]; [constructor|].
  destruct (ffi_call_refined o q g Hinv Henv Hdisk) as (Hinv' & Ec & Et & Hres).
  specialize (IH Hinv'). rewrite Ec, Et in IH. destruct (translate q) as [req|err] eqn:Eq.
  - destruct Hres as (r & -> & Hs). by eapply ffi_spec_call.
  - destruct Hres as [-> Eg]. rewrite Eg in IH. by apply ffi_spec_refused.
Qed.
End Refine.

(** A header is stored under its lower-case name, and the last one of a name
    wins. *)
Lemma representation_headers_spec hs k v :
  (k, v) ∈ representation_headers hs <->
  exists l1 h l2, hs = l1 ++ h :: l2 /\ to_ascii_lowercase (fh_name h) = k /\ fh_value h = v
    /\ Forall (fun h' => to_ascii_lowercase (fh_name h') <> k) l2.
Proof.
  unfold representation_headers. rewrite sort_headers_perm, elem_of_map_to_list.
  induction hs as [|h hs IH] using rev_ind.
  - cbn. rewrite lookup_empty. split; [done|]. intros (l1 & h & l2 & E & _). by destruct l1.
  - rewrite foldl_app. cbn [foldl]. unfold insert_header at 1.
    destruct (decide (to_ascii_lowercase (fh_name h) = k)) as [Ek|Ek].
    + rewrite Ek, lookup_insert. rewrite decide_True by done. split.
      * intros [= <-]. exists hs, h, []. by split_and!.
      * intros (l1 & h' & l2 & E & Hk & <- & Hl). destruct l2 as [|x l2 _] using rev_ind.
        -- by apply app_inj_tail in E as [_ ->].
        -- rewrite app_comm_cons, app_assoc in E. apply app_inj_tail in E as [_ <-].
           apply Forall_app in Hl as [_ [Hl _]%Forall_cons]. congruence.
    + rewrite lookup_insert_ne by done. rewrite IH. split.
      * intros (l1 & h' & l2 & -> & Hk & Hv & Hl). exists l1, h', (l2 ++ [h]).
        split_and!; [by rewrite <- app_assoc|done|done|]. apply Forall_app. by split; [|constructor].
      * intros (l1 & h' & l2 & E & Hk & Hv & Hl). destruct l2 as [|x l2 _] using rev_ind.
        -- by apply app_inj_tail in E as [_ ->].
        -- rewrite app_comm_cons, app_assoc in E. apply app_inj_tail in E as [-> ->].
           apply Forall_app in Hl as [Hl _]. by exists l1, h', l2.
Qed.

(** ** The summary *)

Definition apply_when {A} (f : A -> setting) (v : option A) (b : EngineBuilder) : EngineBuilder :=
  match v with Some x => apply_setting (f x) b | None => b end.

Lemma fold_when {A} (f : A -> setting) v b :
  fold_left (fun b s => apply_setting s b) (when_some f v) b = apply_when f v b.
Proof. by destruct v. Qed.

(** A call on the builder leaves the other fields. *)
Lemma apply_when_other {A B} (proj : EngineBuilder -> B) (f : A -> setting) v b :
  (forall x, proj (apply_setting (f x) b) = proj b) -> proj (apply_when f v b) = proj b.
Proof. intros Hx. destruct v; [apply Hx|done]. Qed.

(** Skips the calls that do not set the field of the goal. *)
Ltac other_fields :=
  repeat match goal with
  | |- ?p (apply_when ?f ?v ?b) = _ => rewrite (apply_when_other p f v b) by (intros; reflexivity)
  | |- ?p (apply_setting ?s ?b) = _ => change (p (apply_setting s b)) with (p b)
  end.

(** The call that sets it, if there is one. *)
Ltac own_field v := other_fields; destruct v; cbn [apply_when]; other_fields; done.

Lemma optional_usize_same name v r :
  optional_usize name v = Ok r -> r = v.
Proof. unfold optional_usize. destruct v; [|by intros [= <-]]. intros Ho. by inv_ok. Qed.

Definition ffi_tokens (config : FfiEngineConfig) : Tokens :=
  {| tok_read := fc_read_token config ≫= NonEmptyBytes_new;
     tok_write := fc_write_token config ≫= NonEmptyBytes_new;
     tok_approve := fc_approve_token config ≫= NonEmptyBytes_new |}.

Section Open.
Context `{Crypto} `{Rusqlite} `{PercentEncoding} `{ErrorTexts}.

Lemma open_settings_built config settings :
  open_settings config = Ok settings ->
  let b := configure settings in
  eb_key b = Some (fc_hmac_key config) /\ (MIN_HMAC_KEY_BYTES <= slen (fc_hmac_key config))%Z
  /\ eb_tokens b = ffi_tokens config
  /\ eb_max_world_bytes b = default DEFAULT_MAX_WORLD_BYTES (fc_max_world_bytes config)
  /\ eb_max_memory_bytes b = default DEFAULT_MAX_MEMORY_BYTES (fc_max_memory_bytes config)
  /\ eb_max_storage_bytes b = nonzero_override (fc_max_storage_bytes config)
  /\ eb_max_listen_connections b
     = from_option (fun v => nonzero_or_default v DEFAULT_MAX_LISTEN_CONNECTIONS)
         DEFAULT_MAX_LISTEN_CONNECTIONS (fc_max_listen_connections config)
  /\ eb_listen_replay_max b
     = from_option (fun v => nonzero_or_default v DEFAULT_LISTEN_REPLAY_MAX)
         DEFAULT_LISTEN_REPLAY_MAX (fc_listen_replay_max config)
  /\ eb_read_cache_max_entries b
     = from_option (fun v => nonzero_or_default v DEFAULT_READ_CACHE_MAX_ENTRIES)
         DEFAULT_READ_CACHE_MAX_ENTRIES (fc_read_cache_max_entries config).
Proof.
  intros Ho. unfold open_settings in Ho. inv_ok.
  repeat match goal with Hu : optional_usize _ _ = Ok _ |- _ => apply optional_usize_same in Hu as -> end.
  match goal with Hk : AuditHmacKey_new _ = Ok _ |- _ => apply hmac_key_same in Hk as [-> Hlen] end.
  cbv zeta. unfold configure. cbn [app]. repeat first [rewrite fold_left_app | rewrite fold_when | progress (cbn [fold_left app])].
  split; [by other_fields|]. split; [done|]. split.
  { other_fields. unfold ffi_tokens.
    destruct (fc_read_token config), (fc_write_token config), (fc_approve_token config); done. }
  split; [own_field (fc_max_world_bytes config)|].
  split; [own_field (fc_max_memory_bytes config)|].
  split; [own_field (fc_max_storage_bytes config)|].
  split; [own_field (fc_max_listen_connections config)|].
  split; [own_field (fc_listen_replay_max config)|].
  own_field (fc_read_cache_max_entries config).
Qed.

Lemma nonzero_summary d v :
  (0 <= default 0 v)%Z ->
  from_option (fun v => nonzero_or_default v d) d v = default d (nonzero_override v).
Proof.
  destruct v as [v|]; [|done]. cbn. intros Hv. unfold nonzero_or_default.
  destruct (Z.eqb_spec v 0), (Z.ltb_spec 0 v); try done; lia.
Qed.

(** The numbers of a configuration are [u64]s. *)
Definition ffi_numbers (config : FfiEngineConfig) : list (option Z) :=
  [fc_max_world_bytes config; fc_max_memory_bytes config; fc_max_storage_bytes config;
   fc_max_listen_connections config; fc_listen_replay_max config; fc_read_cache_max_entries config].

Definition u64_numbers (config : FfiEngineConfig) : Prop :=
  Forall (fun v => (0 <= default 0 v <= u64_max)%Z) (ffi_numbers config).

Lemma open_settings_ok config settings :
  u64_numbers config -> open_settings config = Ok settings -> Forall setting_ok settings.
Proof.
  unfold u64_numbers, ffi_numbers. rewrite !Forall_cons. intros (N1 & N2 & N3 & N4 & N5 & N6 & _) Ho.
  unfold open_settings in Ho. inv_ok.
  repeat match goal with Hu : optional_usize _ _ = Ok _ |- _ => apply optional_usize_same in Hu as -> end.
  assert (forall v, (0 <= v <= u64_max)%Z -> (0 <= v <= usize_max)%Z) as Hu by done.
  assert (forall (f : Z -> setting) v, (0 <= default 0 v <= u64_max)%Z ->
            (forall x, (0 <= x <= usize_max)%Z -> setting_ok (f x)) -> Forall setting_ok (when_some f v)) as Hz.
  { intros f [v|] Hv Hf; constructor; [|constructor]. by apply Hf. }
  assert (forall (f : string -> setting) v, (forall x, setting_ok (f x)) -> Forall setting_ok (when_some f v)) as Ht.
  { intros f [v|] Hf; constructor; [|constructor]. apply Hf. }
  repeat first [apply Forall_app; split | apply Forall_cons; split | by apply Ht | by apply Hz].
  - done.
  - by destruct (fc_max_storage_bytes config).
Qed.

Lemma built_config b se root cfg core :
  build b se root = Ok (cfg, core) -> exists key, eb_key b = Some key /\ cfg = config_of key b.
Proof.
  unfold build. intros Hb. inv_ok. eauto.
Qed.

Lemma token_there token : token_configured token = true <-> is_Some (token ≫= NonEmptyBytes_new).
Proof.
  destruct token as [t|]; cbn; [|by split; [|intros []]]. unfold NonEmptyBytes_new.
  destruct (is_valid t); split; try done; by intros [].
Qed.

(** What a handle tells of its configuration is what its engine runs with.
    If [open] returns a handle, the engine signs with the given key, which is
    long enough; the summary names the limits the engine enforces, where [None]
    stands for the default (no quota for storage); it names a token exactly when
    the engine has one, and the engine accepts exactly the given non-empty
    tokens; and the engine starts within the bounds its invariants rely on. *)
Theorem ffi_summary_true config debug se root g :
  u64_numbers config -> FfiEngine_open config debug se root None = Ok g ->
  let s := config_summary g in
  hmac_key (fg_cfg g) = fc_hmac_key config /\ (MIN_HMAC_KEY_BYTES <= slen (fc_hmac_key config))%Z
  /\ max_world_bytes (fg_cfg g) = default DEFAULT_MAX_WORLD_BYTES (sm_max_world_bytes s)
  /\ max_memory_bytes (fg_cfg g) = default DEFAULT_MAX_MEMORY_BYTES (sm_max_memory_bytes s)
  /\ max_storage_bytes (fg_cfg g) = sm_max_storage_bytes s
  /\ listen_replay_max (fg_cfg g) = default DEFAULT_LISTEN_REPLAY_MAX (sm_listen_replay_max s)
  /\ listen_slots (fg_engine g) = default DEFAULT_MAX_LISTEN_CONNECTIONS (sm_max_listen_connections s)
  /\ fg_tokens g = ffi_tokens config
  /\ (sm_has_read_token s = true <-> is_Some (tok_read (fg_tokens g)))
  /\ (sm_has_write_token s = true <-> is_Some (tok_write (fg_tokens g)))
  /\ (sm_has_approve_token s = true <-> is_Some (tok_approve (fg_tokens g)))
  /\ config_ok (fg_cfg g) /\ limits_ok (fg_cfg g).
Proof.
  intros Hnum Hopen s. unfold FfiEngine_open in Hopen.
  apply result_bind_Ok in Hopen as (settings & Hset & Hopen).
  apply result_bind_Ok in Hopen as ([cfg core] & Hbuild & Hopen). injection Hopen as <-.
  apply map_err_Ok, built_config in Hbuild as (key & Hkey & ->).
  destruct (open_settings_built _ _ Hset) as (Ek & Hlen & Et & Ew & Em & Es & El & Er & _).
  destruct (builder_config_valid settings key (open_settings_ok _ _ Hnum Hset)) as (_ & Hc & Hl).
  rewrite Ek in Hkey. injection Hkey as <-.
  unfold s, config_summary. cbn [fg_cfg fg_config fg_tokens fg_engine config_of hmac_key max_world_bytes
    max_memory_bytes max_storage_bytes listen_replay_max listen_slots FfiEngineConfig_summary sm_max_world_bytes
    sm_max_memory_bytes sm_max_storage_bytes sm_listen_replay_max sm_max_listen_connections
    sm_has_read_token sm_has_write_token sm_has_approve_token].
  unfold u64_numbers, ffi_numbers in Hnum. rewrite !Forall_cons in Hnum.
  destruct Hnum as (_ & _ & _ & Nl & Nr & _).
  rewrite El, Er, !nonzero_summary, Et by lia. split_and!; try done; apply token_there.
Qed.
End Open.
