(* ===== verification/FfiSubscription.v ===== *)
(** * Subscriptions of the foreign-function interface

    Models the subscriptions of [ffi/src/lib.rs]: [FfiEngine::subscribe] spawns a
    pump that moves items from the engine's subscription into a bounded channel;
    [next] takes them out under a timeout, [close] cancels the pump, waits for it
    and drains the channel, and dropping the handle aborts the pump.  The pump,
    the callers and the engine interleave as steps between the points where the
    code awaits.

    The channel is tokio's [mpsc]: [Mpsc] has the operations the code calls and
    what can be observed of a channel, [MpscLaws] what its documentation says of
    them. *)


From S2P Require Import Prelude.
From S2P Require Import RustStr.
From S2P Require Import Path.
From S2P Require Import Auth.
From S2P Require Import Crypto.
From S2P Require Import Db.
From S2P Require Import EventId.
From S2P Require Import StorageClass.
From S2P Require Import Core.
From S2P Require Import WorldOps.
From S2P Require Import Usage.
From S2P Require Import CoreInv.
From S2P Require Import CoreTheorems.
From S2P Require Import EngineOps.
From S2P Require Import Announce.
From S2P Require Import Subscription.
From S2P Require Import SubscriptionTheorems.
From S2P Require Import FfiTypes.
From S2P Require Import Ffi.

(** ** The channel *)

Class Mpsc (T : Type) := {
  Chan : Type;
  mpsc_channel : nat -> Chan;
  (** [send]: [None] while it waits for room, [Err] when the receiver is closed *)
  mpsc_send : T -> Chan -> option (result unit Chan);
  (** [recv]: [None] while it waits, [Some None] at the end of the channel *)
  mpsc_recv : Chan -> option (option T * Chan);
  (** [Receiver::close], and the drop of the sender *)
  mpsc_close : Chan -> Chan;
  mpsc_drop_sender : Chan -> Chan;
  ch_queue : Chan -> list T;
  ch_capacity : Chan -> nat;
  ch_open : Chan -> bool;
  ch_sender : Chan -> bool;
}.

Definition same_ends `{Mpsc T} (ch ch' : Chan) : Prop :=
  ch_capacity ch' = ch_capacity ch /\ ch_open ch' = ch_open ch /\ ch_sender ch' = ch_sender ch.

(** A send waits exactly while the buffer is full, and fails exactly when the
    receiver is closed; items come out in the order they went in; a receive
    waits while the buffer is empty and more may come. *)
Class MpscLaws (T : Type) `{Mpsc T} := {
  mpsc_channel_new n :
    ch_queue (mpsc_channel n) = [] /\ ch_capacity (mpsc_channel n) = n
    /\ ch_open (mpsc_channel n) = true /\ ch_sender (mpsc_channel n) = true;
  mpsc_send_closed x ch : ch_open ch = false -> mpsc_send x ch = Some (Err tt);
  mpsc_send_full x ch :
    ch_open ch = true -> (ch_capacity ch <= length (ch_queue ch))%nat -> mpsc_send x ch = None;
  mpsc_send_room x ch :
    ch_open ch = true -> (length (ch_queue ch) < ch_capacity ch)%nat ->
    exists ch', mpsc_send x ch = Some (Ok ch') /\ ch_queue ch' = ch_queue ch ++ [x] /\ same_ends ch ch';
  mpsc_recv_item ch x q :
    ch_queue ch = x :: q ->
    exists ch', mpsc_recv ch = Some (Some x, ch') /\ ch_queue ch' = q /\ same_ends ch ch';
  mpsc_recv_empty ch :
    ch_queue ch = [] -> mpsc_recv ch = if ch_open ch && ch_sender ch then None else Some (None, ch);
  mpsc_close_queue ch :
    ch_queue (mpsc_close ch) = ch_queue ch /\ ch_capacity (mpsc_close ch) = ch_capacity ch
    /\ ch_open (mpsc_close ch) = false /\ ch_sender (mpsc_close ch) = ch_sender ch;
  mpsc_drop_queue ch :
    ch_queue (mpsc_drop_sender ch) = ch_queue ch /\ ch_capacity (mpsc_drop_sender ch) = ch_capacity ch
    /\ ch_open (mpsc_drop_sender ch) = ch_open ch /\ ch_sender (mpsc_drop_sender ch) = false;
}.

(** ** Items *)

Definition FFI_SUBSCRIPTION_BUFFER : nat := 1024.

Definition plain_next (kind : FfiSubscriptionNextKind) : FfiSubscriptionNext :=
  {| fn_kind := kind; fn_event := None; fn_skipped := None; fn_reset_reason := None |}.

(** The item and whether it is the last. *)
Definition subscription_next_from_recv (r : result SubscriptionRecvError PublicChangeEvent)
  : FfiSubscriptionNext * bool :=
  match r with
  | Ok event =>
      ({| fn_kind := FfiEventKind; fn_event := Some (FfiChangeEvent_from event); fn_skipped := None;
          fn_reset_reason := None |}, false)
  | Err (Lagged skipped) =>
      ({| fn_kind := FfiLagged; fn_event := None; fn_skipped := Some skipped; fn_reset_reason := None |}, false)
  | Err (Reset reason) =>
      ({| fn_kind := FfiReset; fn_event := None; fn_skipped := None;
          fn_reset_reason := Some (FfiSubscriptionResetReason_from reason) |}, false)
  | Err Closed => (plain_next FfiClosed, true)
  end.

(** ** Opening *)

Section Subscribe.
Context `{Crypto} `{Rusqlite} `{PercentEncoding}.

Definition ffi_subscribe (j : Join) (f : option sqlite_error) (raw_pattern : string)
    (tier : FfiAccessTier) (after_cursor : option string) (g : FfiEngine)
  : result FfiError EngineSubscription * FfiEngine :=
  match (resume ← resume_try_from after_cursor; tier ← tier_try_from tier; Ok (resume, tier)) with
  | Err err => (Err err, g)
  | Ok (resume, tier) =>
      let '(r, e) := subscribe (fg_cfg g) (fg_tokens g) j f raw_pattern tier resume (fg_engine g) in
      (from_engine (fun sub => sub) r, with_engine e g)
  end.
End Subscribe.

(** ** The pump, the handle and the engine *)

(** Where the pump awaits: [recv] not yet polled, [recv] suspended with the
    receiver in its hands, the send of an item, or nothing any more. *)
Inductive Pump :=
| PumpRecv (sub : EngineSubscription)
| PumpSuspended (live : LiveSubscription) (sub : EngineSubscription)
| PumpSend (next : FfiSubscriptionNext) (terminal : bool) (sub : EngineSubscription)
| PumpDone.

Section System.
Context `{Broadcast} `{Mpsc FfiSubscriptionNext}.

(** [sys_sent] and [sys_shutdown] are the engine's; [sys_cancel] is the watch
    channel; [sys_handle] is whether the foreign caller still has the object. *)
Record System := {
  sys_sent : list ChangeEvent;
  sys_shutdown : bool;
  sys_pump : Pump;
  sys_chan : Chan;
  sys_cancel : bool;
  sys_handle : bool;
}.

Definition set_pump (p : Pump) (s : System) : System :=
  {| sys_sent := sys_sent s; sys_shutdown := sys_shutdown s; sys_pump := p; sys_chan := sys_chan s;
     sys_cancel := sys_cancel s; sys_handle := sys_handle s |}.

Definition set_chan (ch : Chan) (s : System) : System :=
  {| sys_sent := sys_sent s; sys_shutdown := sys_shutdown s; sys_pump := sys_pump s; sys_chan := ch;
     sys_cancel := sys_cancel s; sys_handle := sys_handle s |}.

(** The pump leaves its loop; its sender and its subscription are dropped. *)
Definition pump_ends (s : System) : System := set_chan (mpsc_drop_sender (sys_chan s)) (set_pump PumpDone s).

Definition sys_new (sent : list ChangeEvent) (shutdown : bool) (sub : EngineSubscription) : System :=
  {| sys_sent := sent; sys_shutdown := shutdown; sys_pump := PumpRecv sub;
     sys_chan := mpsc_channel FFI_SUBSCRIPTION_BUFFER; sys_cancel := false; sys_handle := true |}.

(** What a poll of [recv] makes of the pump. *)
Definition polled (p : option (Poll * EngineSubscription)) (s : System) : option System :=
  match p with
  | Some (Ready item, sub) =>
      let '(next, terminal) := subscription_next_from_recv item in
      Some (set_pump (PumpSend next terminal sub) s)
  | Some (Pending live, sub) => Some (set_pump (PumpSuspended live sub) s)
  | _ => None
  end.

(** One step of the pump's own. *)
Definition pump_step (s : System) : option System :=
  match sys_pump s with
  | PumpRecv sub => polled (recv (sys_shutdown s) (sys_sent s) sub) s
  | PumpSuspended live sub => polled (resume (sys_shutdown s) (sys_sent s) live sub) s
  | PumpSend next terminal sub =>
      match mpsc_send next (sys_chan s) with
      | None => None
      | Some (Err _) => Some (pump_ends s)
      | Some (Ok ch) =>
          let s := set_chan ch s in
          Some (if terminal then pump_ends s else set_pump (PumpRecv sub) s)
      end
  | PumpDone => None
  end.

(** [while events.try_recv().is_ok() {}]: an item less in each turn. *)
Fixpoint drain (fuel : nat) (ch : Chan) : Chan :=
  match fuel with
  | O => ch
  | S fuel => match mpsc_recv ch with Some (Some _, ch) => drain fuel ch | _ => ch end
  end.

(** The part of [close] after the pump has ended. *)
Definition close_finish (s : System) : System :=
  let ch := mpsc_close (sys_chan s) in set_chan (drain (length (ch_queue ch)) ch) s.

Definition cancel_pump (s : System) : System :=
  {| sys_sent := sys_sent s; sys_shutdown := sys_shutdown s; sys_pump := sys_pump s;
     sys_chan := sys_chan s; sys_cancel := true; sys_handle := sys_handle s |}.

(** What a step shows: an answer of [next], a [close] that returns, or nothing. *)
Inductive label := Next (n : FfiSubscriptionNext) | CloseReturns | Internal.

Inductive sys_step : System -> label -> System -> Prop :=
| engine_sends s more :
    sys_step s Internal
      {| sys_sent := sys_sent s ++ more; sys_shutdown := sys_shutdown s; sys_pump := sys_pump s;
         sys_chan := sys_chan s; sys_cancel := sys_cancel s; sys_handle := sys_handle s |}
| engine_stops s :
    sys_step s Internal
      {| sys_sent := sys_sent s; sys_shutdown := true; sys_pump := sys_pump s;
         sys_chan := sys_chan s; sys_cancel := sys_cancel s; sys_handle := sys_handle s |}
| pump_moves s s' : pump_step s = Some s' -> sys_step s Internal s'
| pump_cancelled s :
    sys_cancel s = true -> sys_pump s <> PumpDone -> sys_step s Internal (pump_ends s)
| next_item s n ch :
    sys_handle s = true -> mpsc_recv (sys_chan s) = Some (Some n, ch) ->
    sys_step s (Next n) (set_chan ch s)
| next_end s ch :
    sys_handle s = true -> mpsc_recv (sys_chan s) = Some (None, ch) ->
    sys_step s (Next (plain_next FfiClosed)) (set_chan ch s)
| next_times_out s :
    sys_handle s = true -> mpsc_recv (sys_chan s) = None ->
    sys_step s (Next (plain_next FfiTimeout)) s
| close_starts s : sys_handle s = true -> sys_step s Internal (cancel_pump s)
| close_returns s :
    sys_handle s = true -> sys_cancel s = true -> sys_pump s = PumpDone ->
    sys_step s CloseReturns (close_finish s)
| handle_dropped s :
    sys_handle s = true ->
    sys_step s Internal
      (set_chan (mpsc_close (sys_chan (pump_ends s)))
        {| sys_sent := sys_sent s; sys_shutdown := sys_shutdown s; sys_pump := PumpDone;
           sys_chan := sys_chan s; sys_cancel := true; sys_handle := false |}).

Inductive sys_run (s0 : System) : list label -> System -> Prop :=
| sys_run_nil : sys_run s0 [] s0
| sys_run_snoc ls s l s' : sys_run s0 ls s -> sys_step s l s' -> sys_run s0 (ls ++ [l]) s'.
End System.

(** * The subscriptions of the foreign-function interface deliver in order

    Whatever the interleaving of the engine, the pump and the callers, [next]
    hands out the items of the engine's subscription in order and without gaps,
    and after [close] nothing more. *)
(** ** What is shown to the caller *)

Notation nx i := (fst (subscription_next_from_recv i)).

(** An item of the subscription, not a timeout or the end. *)
Definition is_item (n : FfiSubscriptionNext) : bool :=
  match fn_kind n with FfiEventKind | FfiLagged | FfiReset => true | _ => false end.

Definition items_of (l : list FfiSubscriptionNext) : list FfiSubscriptionNext := filter is_item l.

Arguments items_of _ : simpl never.

Definition label_next (l : label) : option FfiSubscriptionNext :=
  match l with Next n => Some n | _ => None end.

(** The items [next] has returned. *)
Definition shown (ls : list label) : list FfiSubscriptionNext := items_of (omap label_next ls).

Lemma items_of_app l k : items_of (l ++ k) = items_of l ++ items_of k.
Proof. apply filter_app. Qed.

Lemma shown_snoc ls l : shown (ls ++ [l]) = shown ls ++ items_of (option_list (label_next l)).
Proof. unfold shown. rewrite omap_app, items_of_app. by destruct l. Qed.

Definition not_closed (i : item) : Prop := i <> Err Closed.

Lemma nx_item i : not_closed i -> items_of [nx i] = [nx i] /\ snd (subscription_next_from_recv i) = false.
Proof. by destruct i as [|[]]. Qed.

Section Order.
Context `{BroadcastLaws} `{MpscLaws FfiSubscriptionNext}.
Context (items0 : list item) (live0 : LiveSubscription).
Hypothesis Hitems : Forall not_closed items0.

Notation start := (lv_next live0).

(** ** What is left to receive *)

Definition left_live (sent : list ChangeEvent) (live : LiveSubscription) : list item :=
  omap (live_item live) (drop (lv_next live) sent).

Definition left_sub (sent : list ChangeEvent) (sub : EngineSubscription) : list item :=
  match sub_state sub with
  | Replaying items live => items ++ left_live sent live
  | Live live => left_live sent live
  | StateClosed => []
  end.

Definition everything (sent : list ChangeEvent) : list item := items0 ++ left_live sent live0.

Definition live_ok (sent : list ChangeEvent) (live : LiveSubscription) : Prop :=
  (start <= lv_next live <= length sent)%nat /\ lv_pattern live = lv_pattern live0
  /\ lv_fence live = lv_fence live0.

Definition sub_ok (sent : list ChangeEvent) (sub : EngineSubscription) : Prop :=
  match sub_state sub with
  | Replaying items live =>
      sub_pending_shutdown sub = true /\ Forall not_closed items /\ live_ok sent live
  | Live live => live_ok sent live
  | StateClosed => False
  end.

Lemma live_item_not_closed live change i : live_item live change = Some i -> not_closed i.
Proof. unfold live_item. destruct (live_change_action _ _ _); by intros [= <-]. Qed.

Lemma left_live_grows sent more live :
  live_ok sent live -> left_live (sent ++ more) live = left_live sent live ++ omap (live_item live0) more.
Proof.
  intros (Hn & Hp & Hf). unfold left_live. rewrite drop_app_le, omap_app by lia. f_equal.
  induction more as [|change more IH]; [done|]. cbn [omap list_omap].
  unfold live_item at 1 3. by rewrite Hp, Hf, IH.
Qed.

Lemma live_ok_grows sent more live : live_ok sent live -> live_ok (sent ++ more) live.
Proof. intros (Hn & Hp & Hf). split; [rewrite length_app; lia|done]. Qed.

Lemma sub_ok_grows sent more sub : sub_ok sent sub -> sub_ok (sent ++ more) sub.
Proof.
  unfold sub_ok. destruct (sub_state sub); [|apply live_ok_grows|done].
  intros (? & ? & ?). by split_and!; [| |apply live_ok_grows].
Qed.

Lemma left_sub_grows sent more sub :
  sub_ok sent sub -> left_sub (sent ++ more) sub = left_sub sent sub ++ omap (live_item live0) more.
Proof.
  unfold sub_ok, left_sub. destruct (sub_state sub) as [items live|live|]; [| |done].
  - intros (_ & _ & Hl). by rewrite left_live_grows, app_assoc.
  - apply left_live_grows.
Qed.

(** ** A poll takes the first of what is left *)

Definition taken_first (sent : list ChangeEvent) (before : list item) (p : Poll) (sub : EngineSubscription)
  : Prop :=
  match p with
  | Ready i => before = i :: left_sub sent sub /\ sub_ok sent sub /\ not_closed i
  | Pending live => before = [] /\ live_ok sent live /\ left_live sent live = []
  | Panic _ => False
  end.

Lemma first_item_taken sent rest live sub :
  live_ok sent live -> drop (lv_next live) sent = rest ->
  let '(p, sub') := first_item rest live sub in taken_first sent (left_live sent live) p sub'.
Proof.
  revert live. induction rest as [|change rest IH]; intros live Hok Hd; cbn [first_item].
  - unfold taken_first, left_live. by rewrite Hd.
  - assert (live_ok sent (advance live)) as Hok'.
    { destruct Hok as (Hn & Hp & Hf). split_and!; [cbn; lia| |done|done].
      cbn. apply (f_equal length) in Hd. rewrite length_drop in Hd. cbn in Hd. lia. }
    assert (drop (lv_next (advance live)) sent = rest) as Hd' by (cbn; by rewrite <- drop_drop, Hd).
    assert (left_live sent live
            = option_list (live_item live change) ++ left_live sent (advance live)) as Hleft.
    { unfold left_live. rewrite Hd, Hd'. cbn [omap list_omap]. by destruct (live_item live change). }
    rewrite Hleft. destruct (live_item live change) as [i|] eqn:Ei.
    + unfold taken_first. by split_and!; [| |eapply live_item_not_closed].
    + apply (IH (advance live) Hok' Hd').
Qed.

(** The receiver has not lagged. *)
Definition in_reach (sent : list ChangeEvent) : Prop := (length sent <= start + capacity)%nat.

Lemma resume_taken sent live sub :
  in_reach sent -> live_ok sent live ->
  exists p sub', resume false sent live sub = Some (p, sub') /\ taken_first sent (left_live sent live) p sub'.
Proof.
  intros Hr Hok. pose proof Hok as ([? ?] & _). unfold resume, in_reach in *.
  rewrite (recv_live_first (drop (lv_next live) sent)) by (first [done|lia|rewrite length_drop; lia]).
  pose proof (first_item_taken sent _ live sub Hok eq_refl) as Ht.
  destruct (first_item _ live sub) as [p sub']. by exists p, sub'.
Qed.

Lemma recv_taken sent sub :
  in_reach sent -> sub_ok sent sub ->
  exists p sub', recv false sent sub = Some (p, sub') /\ taken_first sent (left_sub sent sub) p sub'.
Proof.
  intros Hr Hok. unfold recv, sub_ok, left_sub in *. destruct (sub_state sub) as [[|i items] live|live|]; [| | |done].
  - destruct Hok as (-> & _ & Hl). by apply resume_taken.
  - destruct Hok as (Hp & [Hi Hf]%Forall_cons & Hl). do 2 eexists. split; [done|].
    unfold taken_first, left_sub, sub_ok. cbn. by split_and!.
  - by apply resume_taken.
Qed.

(** While the engine shuts down the replay is still handed out; then the end. *)
Lemma recv_shutdown sent sub :
  sub_ok sent sub ->
  exists i sub', recv true sent sub = Some (Ready i, sub')
    /\ (i = Err Closed \/ taken_first sent (left_sub sent sub) (Ready i) sub').
Proof.
  intros Hok. unfold recv, sub_ok, left_sub in *. destruct (sub_state sub) as [[|i items] live|live|]; [| | |done].
  - destruct Hok as (-> & _ & _). do 2 eexists. by split; [|left].
  - destruct Hok as (Hp & [Hi Hf]%Forall_cons & Hl). do 2 eexists. split; [done|]. right.
    unfold taken_first, left_sub, sub_ok. cbn. by split_and!.
  - do 2 eexists. by split; [|left].
Qed.

(** ** The invariant *)

Notation queue s := (items_of (ch_queue (sys_chan s))).

(** [got] are the items the pump has received; they were shown, wait in the
    channel, or are being sent. *)
Definition pump_inv (s : System) (sh : list FfiSubscriptionNext) (got : list item) : Prop :=
  let sent := sys_sent s in
  match sys_pump s with
  | PumpRecv sub => sub_ok sent sub /\ got ++ left_sub sent sub = everything sent /\ sh ++ queue s = map (fun i => nx i) got
  | PumpSuspended live _ =>
      live_ok sent live /\ got ++ left_live sent live = everything sent /\ sh ++ queue s = map (fun i => nx i) got
  | PumpSend n false sub =>
      sub_ok sent sub /\ got ++ left_sub sent sub = everything sent
      /\ sh ++ queue s ++ items_of [n] = map (fun i => nx i) got
  | PumpSend n true _ =>
      sys_shutdown s = true /\ n = plain_next FfiClosed /\ got `prefix_of` everything sent
      /\ sh ++ queue s = map (fun i => nx i) got
  | PumpDone => got `prefix_of` everything sent /\ sh ++ queue s `prefix_of` map (fun i => nx i) got
  end.

Record sys_inv (s : System) (sh : list FfiSubscriptionNext) : Prop := {
  si_pump : exists got, pump_inv s sh got;
  si_start : (start <= length (sys_sent s))%nat;
  si_capacity : ch_capacity (sys_chan s) = FFI_SUBSCRIPTION_BUFFER;
  si_room : (length (ch_queue (sys_chan s)) <= FFI_SUBSCRIPTION_BUFFER)%nat;
  si_open : sys_pump s <> PumpDone -> ch_open (sys_chan s) = true;
}.

Lemma live0_ok sent : (start <= length sent)%nat -> live_ok sent live0.
Proof. by intros; split_and!. Qed.

Lemma everything_grows sent more :
  (start <= length sent)%nat ->
  everything (sent ++ more) = everything sent ++ omap (live_item live0) more.
Proof. intros Hs. unfold everything. by rewrite left_live_grows, app_assoc by (by apply live0_ok). Qed.

Lemma prefix_of_grown got sent more :
  (start <= length sent)%nat -> got `prefix_of` everything sent -> got `prefix_of` everything (sent ++ more).
Proof. intros Hs Hp. rewrite everything_grows by done. by apply prefix_app_r. Qed.

Lemma got_prefix (got left all : list item) : got ++ left = all -> got `prefix_of` all.
Proof. intros <-. by eexists. Qed.

(** ** The channel *)

Lemma recv_some ch n ch' :
  mpsc_recv ch = Some (Some n, ch') -> ch_queue ch = n :: ch_queue ch' /\ same_ends ch ch'.
Proof.
  intros Hr. destruct (ch_queue ch) as [|x q] eqn:Eq.
  - rewrite (mpsc_recv_empty ch Eq) in Hr. by destruct (_ && _).
  - destruct (mpsc_recv_item ch x q Eq) as (ch2 & E & Hq & He). rewrite E in Hr.
    injection Hr as -> ->. by rewrite Hq.
Qed.

Lemma recv_none ch ch' : mpsc_recv ch = Some (None, ch') -> ch' = ch /\ ch_queue ch = [].
Proof.
  intros Hr. destruct (ch_queue ch) as [|x q] eqn:Eq.
  - rewrite (mpsc_recv_empty ch Eq) in Hr. destruct (_ && _); [done|]. by injection Hr as ->.
  - destruct (mpsc_recv_item ch x q Eq) as (ch2 & E & _). by rewrite E in Hr.
Qed.

Lemma send_some n ch ch' :
  mpsc_send n ch = Some (Ok ch') ->
  ch_queue ch' = ch_queue ch ++ [n] /\ same_ends ch ch' /\ (length (ch_queue ch) < ch_capacity ch)%nat.
Proof.
  intros Hs. destruct (ch_open ch) eqn:Eo; [|by rewrite mpsc_send_closed in Hs].
  destruct (decide (length (ch_queue ch) < ch_capacity ch)%nat) as [Hl|Hl].
  - destruct (mpsc_send_room n ch Eo Hl) as (ch2 & E & Hq & He). rewrite E in Hs. by injection Hs as <-.
  - by rewrite mpsc_send_full in Hs by (done || lia).
Qed.

Lemma drain_empties fuel ch :
  (length (ch_queue ch) <= fuel)%nat -> ch_queue (drain fuel ch) = [] /\ same_ends ch (drain fuel ch).
Proof.
  revert ch. induction fuel as [|fuel IH]; intros ch Hl; cbn [drain].
  - by destruct (ch_queue ch); [|cbn in Hl; lia].
  - destruct (mpsc_recv ch) as [[[x|] ch']|] eqn:Er.
    + apply recv_some in Er as [Eq (Hc & Ho & Hs)]. rewrite Eq in Hl. cbn in Hl.
      destruct (IH ch') as [He (Hc' & Ho' & Hs')]; [lia|]. split; [done|]. split_and!; congruence.
    + apply recv_none in Er as [-> Eq]. done.
    + destruct (ch_queue ch) as [|x q] eqn:Eq; [done|].
      destruct (mpsc_recv_item ch x q Eq) as (ch2 & E & _). by rewrite E in Er.
Qed.

(** ** Every step keeps the invariant *)

Lemma pump_inv_done s sh got :
  pump_inv s sh got ->
  got `prefix_of` everything (sys_sent s) /\ sh ++ queue s `prefix_of` map (fun i => nx i) got.
Proof.
  unfold pump_inv. destruct (sys_pump s) as [sub|live sub|n [] sub|].
  - intros (_ & Hg & ->). split; [by eapply got_prefix|done].
  - intros (_ & Hg & ->). split; [by eapply got_prefix|done].
  - by intros (_ & _ & Hg & ->).
  - intros (_ & Hg & Hm). split; [by eapply got_prefix|]. rewrite <- Hm, app_assoc. by apply prefix_app_r.
  - done.
Qed.

(** The channel may hand over items, as long as the order stays. *)
Lemma pump_inv_shift s s' sh sh' got :
  sys_sent s' = sys_sent s -> sys_shutdown s' = sys_shutdown s -> sys_pump s' = sys_pump s ->
  sh' ++ queue s' = sh ++ queue s -> pump_inv s sh got -> pump_inv s' sh' got.
Proof.
  intros Es Ed Ep Eq. unfold pump_inv. rewrite Es, Ed, Ep.
  destruct (sys_pump s) as [sub|live sub|n [] sub|]; rewrite ?(app_assoc _ _ (items_of [n])), Eq; done.
Qed.

Lemma pump_ends_inv s sh : sys_inv s sh -> sys_inv (pump_ends s) sh.
Proof.
  intros [[got Hp] Hs Hc Hr Ho]. destruct (mpsc_drop_queue (sys_chan s)) as (Dq & Dc & _ & _).
  split; cbn [pump_ends set_chan set_pump sys_sent sys_chan sys_pump]; [|done| | |done].
  - exists got. apply pump_inv_done in Hp. unfold pump_inv. cbn. by rewrite Dq.
  - by rewrite Dc.
  - by rewrite Dq.
Qed.

Lemma grow_inv s sh more :
  sys_inv s sh ->
  sys_inv {| sys_sent := sys_sent s ++ more; sys_shutdown := sys_shutdown s; sys_pump := sys_pump s;
             sys_chan := sys_chan s; sys_cancel := sys_cancel s; sys_handle := sys_handle s |} sh.
Proof.
  intros [[got Hp] Hs Hc Hr Ho]. split; cbn; [|rewrite length_app; lia|done..].
  unfold pump_inv in *. cbn. destruct (sys_pump s) as [sub|live sub|n [] sub|].
  - destruct Hp as (Hk & Hg & Hm). exists got. split; [by apply sub_ok_grows|].
    by rewrite left_sub_grows, everything_grows, app_assoc, Hg.
  - destruct Hp as (Hk & Hg & Hm). exists got. split; [by apply live_ok_grows|].
    by rewrite left_live_grows, everything_grows, app_assoc, Hg.
  - destruct Hp as (Hk & Hn & Hg & Hm). exists got. split_and!; [done|done|by apply prefix_of_grown|done].
  - destruct Hp as (Hk & Hg & Hm). exists got. split; [by apply sub_ok_grows|].
    by rewrite left_sub_grows, everything_grows, app_assoc, Hg.
  - destruct Hp as [Hg Hm]. exists got. split; [by apply prefix_of_grown|done].
Qed.

(** A received item is on its way. *)
Lemma ready_inv s sh got before i sub :
  got ++ before = everything (sys_sent s) -> sh ++ queue s = map (fun i => nx i) got ->
  taken_first (sys_sent s) before (Ready i) sub ->
  pump_inv (set_pump (PumpSend (nx i) (snd (subscription_next_from_recv i)) sub) s) sh (got ++ [i]).
Proof.
  intros Hg Hm (-> & Hok & Hi). destruct (nx_item i Hi) as [Hn ->]. unfold pump_inv.
  cbn [set_pump sys_pump sys_sent sys_chan]. split; [done|]. split; [by rewrite <- app_assoc|].
  by rewrite Hn, map_app, app_assoc, Hm.
Qed.

Lemma polled_inv s sh got before p s' :
  sys_inv s sh -> sys_pump s <> PumpDone ->
  got ++ before = everything (sys_sent s) -> sh ++ queue s = map (fun i => nx i) got ->
  (exists q sub, p = Some (q, sub) /\ taken_first (sys_sent s) before q sub)
  \/ (sys_shutdown s = true /\ exists sub, p = Some (Ready (Err Closed), sub)) ->
  polled p s = Some s' -> sys_inv s' sh.
Proof.
  intros [_ Hs Hc Hr Ho] Hnd Hg Hm Hcase Hp.
  assert (exists got', pump_inv s' sh got') as Hpump.
  { destruct Hcase as [(q & sub & -> & Ht)|(Hd & sub & ->)]; cbn [polled] in Hp.
    - destruct q as [i|m|live]; [|done|].
      + pose proof (ready_inv s sh got before i sub Hg Hm Ht) as Hinv.
        destruct (subscription_next_from_recv i) as [n t] eqn:En. injection Hp as <-. eauto.
      + injection Hp as <-. destruct Ht as (-> & Hl & He). exists got. unfold pump_inv. cbn. by rewrite He.
    - cbn in Hp. injection Hp as <-. exists got. unfold pump_inv. cbn. split_and!; [done|done| |done].
      by eapply got_prefix. }
  assert (sys_sent s' = sys_sent s /\ sys_chan s' = sys_chan s) as [Es Ec].
  { unfold polled in Hp. destruct p as [[[i| |live] sub]|]; try done.
    - destruct (subscription_next_from_recv i). by injection Hp as <-.
    - by injection Hp as <-. }
  split; [done|by rewrite Es|by rewrite Ec|by rewrite Ec|]. intros _. rewrite Ec. by apply Ho.
Qed.

Lemma pump_step_inv s sh s' :
  in_reach (sys_sent s) -> sys_inv s sh -> pump_step s = Some s' -> sys_inv s' sh.
Proof.
  intros Hreach Hinv Hp. pose proof Hinv as [[got Hpump] Hs Hc Hr Ho].
  unfold pump_step in Hp. unfold pump_inv in Hpump. destruct (sys_pump s) as [sub|live sub|n t sub|] eqn:Ep.
  - destruct Hpump as (Hok & Hg & Hm). eapply (polled_inv s sh got); [done|by rewrite Ep|done|done| |done].
    destruct (sys_shutdown s) eqn:Ed.
    + destruct (recv_shutdown _ _ Hok) as (i & sub' & E & [->|Ht]); rewrite E; [right; eauto|left; eauto].
    + left. destruct (recv_taken _ _ Hreach Hok) as (q & sub' & E & Ht). rewrite E. eauto.
  - destruct Hpump as (Hok & Hg & Hm). eapply (polled_inv s sh got); [done|by rewrite Ep|done|done| |done].
    destruct (sys_shutdown s) eqn:Ed.
    + right. split; [done|]. by eexists.
    + left. destruct (resume_taken _ _ sub Hreach Hok) as (q & sub' & E & Ht). rewrite E. eauto.
  - destruct (mpsc_send n (sys_chan s)) as [[ch|[]]|] eqn:Es; [|injection Hp as <-; by apply pump_ends_inv|done].
    apply send_some in Es as (Eq & (Ec & Eo & Esn) & Hroom).
    assert (sh ++ items_of (ch_queue ch) = sh ++ queue s ++ items_of [n]) as Hq by (by rewrite Eq, items_of_app).
    assert (length (ch_queue ch) <= FFI_SUBSCRIPTION_BUFFER)%nat as Hl
      by (rewrite Eq, length_app; cbn; lia).
    destruct t; injection Hp as <-.
    + destruct Hpump as (_ & -> & Hg & Hm). destruct (mpsc_drop_queue ch) as (Dq & Dc & _ & _).
      split; cbn; [|done|congruence|by rewrite Dq|done]. exists got. unfold pump_inv. cbn.
      rewrite Dq, Hq. split; [done|]. change (items_of [plain_next FfiClosed]) with (@nil FfiSubscriptionNext).
      by rewrite app_nil_r, Hm.
    + destruct Hpump as (Hok & Hg & Hm).
      split; cbn; [|done|congruence|done|intros _; rewrite Eo; by apply Ho].
      exists got. unfold pump_inv. cbn. by rewrite Hq.
  - done.
Qed.

Lemma sys_step_inv s sh l s' :
  in_reach (sys_sent s) -> sys_inv s sh -> sys_step s l s' ->
  sys_inv s' (sh ++ items_of (option_list (label_next l))).
Proof.
  intros Hreach Hinv Hstep. pose proof Hinv as [[got Hpump] Hs Hc Hr Ho].
  destruct Hstep as [s more|s|s s' Hp|s Hcan Hnd|s n ch Hh Hrec|s ch Hh Hrec|s Hh Hrec|s Hh|s Hh Hcan Hd|s Hh];
    cbn [label_next option_list option_rect]; rewrite ?app_nil_r.
  - by apply grow_inv.
  - split; cbn; [|done..]. exists got. unfold pump_inv in *. cbn. by destruct (sys_pump s) as [| |n []|]; naive_solver.
  - by eapply pump_step_inv.
  - by apply pump_ends_inv.
  - apply recv_some in Hrec as (Eq & Ec & Eo & Esn). rewrite Eq in Hr. cbn in Hr.
    split; cbn; [|done|congruence|lia|intros Hnd; rewrite Eo; by apply Ho].
    exists got. eapply (pump_inv_shift s); [done|done|done| |done].
    cbn [set_chan sys_chan]. by rewrite Eq, <- app_assoc, <- items_of_app.
  - apply recv_none in Hrec as [-> Eq]. split; cbn; [|done..].
    exists got. by apply (pump_inv_shift s _ sh).
  - done.
  - split; cbn; [|done..]. exists got. by apply (pump_inv_shift s _ sh).
  - destruct (mpsc_close_queue (sys_chan s)) as (Cq & Cc & Co & Cs).
    destruct (drain_empties (length (ch_queue (mpsc_close (sys_chan s)))) (mpsc_close (sys_chan s)))
      as [De (Dc & _ & _)]; [done|].
    split; cbn; [|done|congruence|rewrite De; cbn; lia|by rewrite Hd].
    exists got. destruct (pump_inv_done _ _ _ Hpump) as [Hg Hm]. unfold pump_inv. cbn. rewrite Hd, De.
    split; [done|]. rewrite app_nil_r. etrans; [|exact Hm]. by apply prefix_app_r.
  - destruct (mpsc_drop_queue (sys_chan s)) as (Dq & Dc & _ & _).
    destruct (mpsc_close_queue (mpsc_drop_sender (sys_chan s))) as (Cq & Cc & _ & _).
    split; cbn; [|done|congruence|by rewrite Cq, Dq|done].
    exists got. apply pump_inv_done in Hpump. unfold pump_inv. cbn. by rewrite Cq, Dq.
Qed.

Lemma step_sent s l s' : sys_step s l s' -> sys_sent s `prefix_of` sys_sent s'.
Proof.
  destruct 1 as [s more|s|s s' Hp|s Hcan Hnd|s n ch Hh Hrec|s ch Hh Hrec|s Hh Hrec|s Hh|s Hh Hcan Hd|s Hh];
    cbn; try done; [by apply prefix_app_r|].
  assert (sys_sent s' = sys_sent s) as ->; [|done]. revert Hp. unfold pump_step, polled.
  destruct (sys_pump s) as [sub|live sub|n t sub|]; [| | |done].
  - destruct (recv _ _ _) as [[[i| |] ?]|]; try (by intros [= <-]); try done.
    destruct (subscription_next_from_recv i). by intros [= <-].
  - destruct (resume _ _ _ _) as [[[i| |] ?]|]; try (by intros [= <-]); try done.
    destruct (subscription_next_from_recv i). by intros [= <-].
  - destruct (mpsc_send _ _) as [[ch|]|]; [|by intros [= <-]|done]. destruct t; by intros [= <-].
Qed.

Lemma sys_new_inv sent shutdown :
  (start <= length sent)%nat -> sys_inv (sys_new sent shutdown (EngineSubscription_new items0 live0)) [].
Proof.
  intros Hs. destruct (mpsc_channel_new FFI_SUBSCRIPTION_BUFFER) as (Eq & Ec & Eo & _).
  split; cbn [sys_new sys_sent sys_chan sys_pump]; [|done|done|rewrite Eq; cbn; lia|done].
  exists []. unfold pump_inv. cbn [sys_new sys_sent sys_chan sys_pump]. rewrite Eq.
  pose proof (live0_ok sent Hs). unfold EngineSubscription_new, sub_ok, left_sub, everything.
  by destruct items0; cbn; split_and!.
Qed.

Lemma sys_run_inv sent shutdown ls s :
  (start <= length sent)%nat -> in_reach (sys_sent s) ->
  sys_run (sys_new sent shutdown (EngineSubscription_new items0 live0)) ls s -> sys_inv s (shown ls).
Proof.
  intros Hs Hreach Hrun. induction Hrun as [|ls s l s' Hrun IH Hstep]; [by apply sys_new_inv|].
  assert (in_reach (sys_sent s)) as Hr
    by (pose proof (prefix_length _ _ (step_sent _ _ _ Hstep)); unfold in_reach in *; lia).
  rewrite shown_snoc. by apply (sys_step_inv s); [|apply IH|].
Qed.

(** ** After [close] *)

Definition closed_off (s : System) : Prop :=
  sys_pump s = PumpDone /\ ch_open (sys_chan s) = false /\ ch_queue (sys_chan s) = [].

Definition says_closed (l : label) : Prop :=
  match l with Next n => n = plain_next FfiClosed | _ => True end.

Lemma close_finish_closed s : sys_pump s = PumpDone -> closed_off (close_finish s).
Proof.
  intros Hd. destruct (mpsc_close_queue (sys_chan s)) as (Cq & Cc & Co & Cs).
  destruct (drain_empties (length (ch_queue (mpsc_close (sys_chan s)))) (mpsc_close (sys_chan s)))
    as [De (_ & Do & _)]; [done|]. unfold close_finish. split_and!; cbn; [done|congruence|done].
Qed.

Lemma closed_off_step s l s' : closed_off s -> sys_step s l s' -> closed_off s' /\ says_closed l.
Proof.
  intros (Hd & Ho & Hq) Hstep.
  destruct Hstep as [s more|s|s s' Hp|s Hcan Hnd|s n ch Hh Hrec|s ch Hh Hrec|s Hh Hrec|s Hh|s Hh Hcan _|s Hh];
    cbn; try done.
  - unfold pump_step in Hp. by rewrite Hd in Hp.
  - apply recv_some in Hrec as (Eq & _). by rewrite Hq in Eq.
  - by apply recv_none in Hrec as [-> _].
  - rewrite mpsc_recv_empty, Ho in Hrec by done. done.
  - split; [|done]. by apply close_finish_closed.
  - split; [|done]. unfold closed_off. cbn.
    destruct (mpsc_drop_queue (sys_chan s)) as (Dq & _).
    destruct (mpsc_close_queue (mpsc_drop_sender (sys_chan s))) as (Cq & _ & Co & _). by rewrite Cq, Dq.
Qed.

Lemma run_after_close s0 ls s :
  sys_run s0 ls s -> forall l1 l2, ls = l1 ++ CloseReturns :: l2 -> closed_off s /\ Forall says_closed l2.
Proof.
  induction 1 as [|ls s l s' Hrun IH Hstep]; intros l1 l2 E; [by destruct l1|].
  destruct l2 as [|x l2 _] using rev_ind.
  - apply app_inj_tail in E as [-> ->]. split; [|constructor].
    inversion Hstep; subst. by apply close_finish_closed.
  - rewrite app_comm_cons, app_assoc in E. apply app_inj_tail in E as [-> <-].
    destruct (IH l1 l2 eq_refl) as [Hc Hf]. destruct (closed_off_step _ _ _ Hc Hstep) as [Hc' Hl].
    split; [done|]. apply Forall_app. by split; [|constructor].
Qed.

(** ** The caller can always get the rest *)

Definition work (s : System) : nat :=
  match sys_pump s with
  | PumpRecv sub => 3 * length (left_sub (sys_sent s) sub)
  | PumpSuspended live _ => 3 * length (left_live (sys_sent s) live)
  | PumpSend _ _ sub => 3 * length (left_sub (sys_sent s) sub) + 2
  | PumpDone => 0
  end + length (ch_queue (sys_chan s)).

(** The engine and the handle are up and the pump runs. *)
Definition running (s : System) : Prop :=
  sys_shutdown s = false /\ sys_handle s = true /\ sys_pump s <> PumpDone.

Lemma polled_work s p before :
  sys_pump s <> PumpDone -> before <> [] ->
  (exists q sub, p = Some (q, sub) /\ taken_first (sys_sent s) before q sub) ->
  exists s', polled p s = Some s' /\ sys_sent s' = sys_sent s /\ sys_shutdown s' = sys_shutdown s
    /\ sys_handle s' = sys_handle s /\ sys_pump s' <> PumpDone
    /\ (work s' < 3 * length before + length (ch_queue (sys_chan s)))%nat.
Proof.
  intros Hnd Hb (q & sub & -> & Ht). destruct q as [i| |live]; cbn in Ht; [|done|by destruct Ht].
  destruct Ht as (-> & _). cbn [polled]. destruct (subscription_next_from_recv i) as [n t].
  eexists. split; [done|]. cbn. split_and!; try done. unfold work. cbn. lia.
Qed.

Lemma sys_progress s sh :
  in_reach (sys_sent s) -> sys_inv s sh -> running s ->
  sh = map (fun i => nx i) (everything (sys_sent s))
  \/ exists l s', sys_step s l s' /\ sys_sent s' = sys_sent s /\ running s' /\ (work s' < work s)%nat.
Proof.
  intros Hreach [[got Hp] Hs Hc Hr Ho] (Hd & Hh & Hnd).
  destruct (ch_queue (sys_chan s)) as [|n q] eqn:Eq.
  2: { right. destruct (mpsc_recv_item _ _ _ Eq) as (ch & E & Hq & _). exists (Next n), (set_chan ch s).
       split; [by apply next_item|]. split_and!; try done. unfold work. cbn. rewrite Hq, Eq. cbn. lia. }
  unfold pump_inv in Hp. rewrite Eq in Hp. change (items_of []) with (@nil FfiSubscriptionNext) in Hp.
  assert (forall before p, before <> [] -> pump_step s = polled p s ->
            work s = (3 * length before)%nat ->
            (exists q sub, p = Some (q, sub) /\ taken_first (sys_sent s) before q sub) ->
            exists l s', sys_step s l s' /\ sys_sent s' = sys_sent s /\ running s' /\ (work s' < work s)%nat) as Hpoll.
  { intros before p Hb Es Ew Ht. destruct (polled_work s p before Hnd Hb Ht) as (s' & E & E1 & E2 & E3 & E4 & E5).
    exists Internal, s'. rewrite Eq in E5. cbn in E5. split; [apply pump_moves; congruence|].
    split; [done|]. split; [split_and!; congruence|lia]. }
  destruct (sys_pump s) as [sub|live sub|n [] sub|] eqn:Ep.
  - destruct Hp as (Hok & Hg & Hm). destruct (left_sub (sys_sent s) sub) as [|i rest] eqn:El.
    + left. rewrite <- Hg, app_nil_r, <- Hm. by rewrite app_nil_r.
    + right. eapply (Hpoll (i :: rest)); [done|unfold pump_step; by rewrite Ep, Hd|unfold work; rewrite Ep, El, Eq; cbn; lia|].
      rewrite <- El. destruct (recv_taken _ _ Hreach Hok) as (q & sub' & E & Ht). rewrite E. eauto.
  - destruct Hp as (Hok & Hg & Hm). destruct (left_live (sys_sent s) live) as [|i rest] eqn:El.
    + left. rewrite <- Hg, app_nil_r, <- Hm. by rewrite app_nil_r.
    + right. eapply (Hpoll (i :: rest)); [done|unfold pump_step; by rewrite Ep, Hd|unfold work; rewrite Ep, El, Eq; cbn; lia|].
      rewrite <- El. destruct (resume_taken _ _ sub Hreach Hok) as (q & sub' & E & Ht). rewrite E. eauto.
  - destruct Hp as (Hsd & _). congruence.
  - right. destruct (mpsc_send_room n (sys_chan s)) as (ch & E & Hq & _); [by apply Ho|rewrite Eq, Hc; unfold FFI_SUBSCRIPTION_BUFFER; cbn [length]; lia|].
    exists Internal, (set_pump (PumpRecv sub) (set_chan ch s)).
    split; [apply pump_moves; unfold pump_step; by rewrite Ep, E|]. split_and!; try done.
    unfold work. cbn. rewrite Ep, Hq, Eq. cbn. lia.
  - done.
Qed.

Lemma sys_run_app s0 l1 s l2 s' : sys_run s0 l1 s -> sys_run s l2 s' -> sys_run s0 (l1 ++ l2) s'.
Proof.
  intros H1' H2'. induction H2' as [|ls s1 l s2 _ IH Hstep]; [by rewrite app_nil_r|].
  rewrite app_assoc. by eapply sys_run_snoc.
Qed.

Lemma catch_up s sh :
  in_reach (sys_sent s) -> sys_inv s sh -> running s ->
  exists ls s', sys_run s ls s' /\ sys_sent s' = sys_sent s
    /\ sh ++ shown ls = map (fun i => nx i) (everything (sys_sent s)).
Proof.
  intros Hreach. remember (work s) as k eqn:Ek. revert s sh Hreach Ek.
  induction k as [k IH] using lt_wf_ind. intros s sh Hreach Ek Hinv Hrun.
  destruct (sys_progress s sh Hreach Hinv Hrun) as [->|(l & s1 & Hstep & Es & Hrun1 & Hw)].
  { exists [], s. split_and!; [constructor|done|]. by rewrite app_nil_r. }
  pose proof (sys_step_inv _ _ _ _ Hreach Hinv Hstep) as Hinv1.
  destruct (IH (work s1) ltac:(lia) s1 _ ltac:(by rewrite Es) eq_refl Hinv1 Hrun1) as (ls & s2 & Hr & Es2 & Hsh).
  exists (l :: ls), s2. split_and!.
  - apply (sys_run_app s [l] s1); [|done]. change [l] with ([] ++ [l]). eapply sys_run_snoc; [constructor|done].
  - congruence.
  - rewrite Es in Hsh. rewrite <- Hsh, <- app_assoc. f_equal. unfold shown. cbn [omap list_omap].
    by destruct (label_next l); [rewrite <- items_of_app|].
Qed.
End Order.

(** ** Resuming through the interface *)

Definition next_cursor (n : FfiSubscriptionNext) : option string := fn_event n ≫= fe_cursor.

Lemma nx_cursor i : next_cursor (nx i) = SubscriptionEventId_to_string <$> item_id i.
Proof. destruct i as [e|[]]; try done. cbn. by destruct (pe_identity e). Qed.

Lemma cursors_delivered l :
  omap next_cursor (map (fun i => nx i) l) = map SubscriptionEventId_to_string (delivered l).
Proof.
  induction l as [|i l IH]; [done|]. unfold delivered in *. cbn [map omap list_omap]. rewrite nx_cursor, IH.
  by destruct (item_id i).
Qed.

Lemma shown_prefix `{BroadcastLaws} `{MpscLaws FfiSubscriptionNext} items0 live0 s sh :
  sys_inv items0 live0 s sh -> sh `prefix_of` map (fun i => nx i) (everything items0 live0 (sys_sent s)).
Proof.
  intros [[got Hp] _ _ _ _]. apply pump_inv_done in Hp as [[r ->] [r' E]].
  exists (items_of (ch_queue (sys_chan s)) ++ r' ++ map (fun i => nx i) r).
  by rewrite map_app, E, <- !app_assoc.
Qed.

Lemma open_form `{Crypto} `{Rusqlite} cfg j f start pattern resume c sub :
  open_subscription cfg j f start pattern resume c = Ok sub ->
  exists items live, sub = EngineSubscription_new items live /\ lv_next live = start.
Proof.
  unfold open_subscription. intros (u & _ & Ho)%result_bind_Ok.
  apply result_bind_Ok in Ho as ([[i events] fence] & _ & Ho). injection Ho as <-. by do 2 eexists.
Qed.

Section Resume.
Context `{CryptoLaws} `{Rusqlite} `{PercentLaws} `{BroadcastLaws} `{MpscLaws FfiSubscriptionNext}.

(** C30: A foreign caller that resumes one world gets its rows in order, however
    the engine, the pump and the callers interleave.  Subscribing with the
    printed form of an id the engine can resume from opens a subscription; in
    every run of it, what [next] has returned are change events whose cursors are
    a prefix of the printed ids of the rows after that id, the channel never
    holds more than its buffer, after [close] has returned every [next] answers
    [Closed], and as long as the engine, the handle and the pump are up some
    continuation of the run shows the caller all the rows there are. *)
Theorem ffi_subscription_in_order g c2 raw_pattern w id ffi_tier tier :
  config_ok (fg_cfg g) ->
  resumable (fg_cfg g) capacity (en_core (fg_engine g)) (en_core (fg_engine g)) c2 w id (pattern raw_pattern) ->
  event_id_wf id -> tier_try_from ffi_tier = Ok tier -> can_read (fg_tokens g) tier = true ->
  shutdown (fg_engine g) = false -> (0 < listen_slots (fg_engine g))%Z ->
  exists sub g',
    ffi_subscribe None None raw_pattern ffi_tier (Some (SubscriptionEventId_to_string id)) g = (Ok sub, g')
    /\ forall ls s,
       sys_run (sys_new (events_sent (en_core (fg_engine g))) false sub) ls s ->
       sys_sent s = events_sent c2 ->
       let ids := map (fun r => SubscriptionEventId_to_string (chain_id w (sid_generation id) r))
                    (filter (fun r => (sid_seq id < ev_id r)%Z) (rows_of w c2)) in
       omap next_cursor (shown ls) `prefix_of` ids
       /\ Forall (fun n => fn_kind n = FfiEventKind) (shown ls)
       /\ (length (ch_queue (sys_chan s)) <= FFI_SUBSCRIPTION_BUFFER)%nat
       /\ (forall l1 l2, ls = l1 ++ CloseReturns :: l2 -> Forall says_closed l2)
       /\ (running s -> exists ls' s', sys_run s ls' s' /\ sys_sent s' = sys_sent s
             /\ omap next_cursor (shown (ls ++ ls')) = ids).
Proof.
  intros Hcfg Hres Hwf Htier Hcan Hsd Hslots.
  destruct (resume_run (fg_cfg g) Hcfg _ _ _ _ _ _ Hres) as (sub & Hopen & Hd & Hok).
  destruct (open_form _ _ _ _ _ _ _ _ Hopen) as (items & live & -> & Hstart).
  assert (from_sse_id (SubscriptionEventId_to_string id) = Ok id) as Hp by (by apply event_id_roundtrip).
  eexists _, _. split.
  { unfold ffi_subscribe, resume_try_from. rewrite Hp, Htier. cbn [map_err mbind result_bind].
    unfold subscribe, authorize_subscribe, take_slot, ensure_not_shutdown. rewrite Hcan, Hsd.
    cbn [negb mbind result_bind]. rewrite (proj2 (Z.ltb_lt _ _) Hslots). cbn [en_core]. by rewrite Hopen. }
  intros ls s Hrun Hsent ids.
  assert (in_reach (capacity := capacity) live (events_sent c2)) as Hreach
    by (unfold in_reach; rewrite Hstart; apply (rs_no_lag _ _ _ _ _ _ _ _ Hres)).
  rewrite received_new in Hd, Hok by apply Hreach. change (items ++ _) with (everything items live (events_sent c2)) in Hd, Hok.
  assert (Forall not_closed items) as Hitems.
  { apply Forall_app in Hok as [Hok _]. eapply Forall_impl; [exact Hok|]. by intros i [e ->]. }
  assert (sys_inv items live s (shown ls)) as Hinv
    by (apply (sys_run_inv items live Hitems (events_sent (en_core (fg_engine g))) false);
        [by rewrite Hstart|by rewrite Hsent|done]).
  assert (omap next_cursor (map (fun i => nx i) (everything items live (sys_sent s))) = ids) as Hids
    by (rewrite Hsent, cursors_delivered, Hd; apply map_map).
  pose proof (shown_prefix _ _ _ _ Hinv) as [rest E]. split_and!.
  - rewrite <- Hids, E, omap_app. by apply prefix_app_r.
  - apply (Forall_app _ _ rest). rewrite <- E, Hsent. apply Forall_fmap.
    eapply Forall_impl; [exact Hok|]. by intros i [e ->].
  - apply (si_room _ _ _ _ Hinv).
  - intros l1 l2 El. by apply (run_after_close _ ls s Hrun l1).
  - intros Hrunning. destruct (catch_up items live s (shown ls)) as (ls' & s' & Hr & Es & Hsh);
      [by rewrite Hsent|done|done|]. exists ls', s'. split_and!; [done|done|].
    rewrite <- Hids, <- Hsh. unfold shown. by rewrite omap_app, items_of_app.
Qed.
End Resume.
