(* ===== verification/AdapterDemo.v ===== *)
(** * The adapters on concrete requests

    Introspection, the listen route and the foreign-function interface over the
    engine of [EngineDemo.v]. *)

From S2P Require Import Prelude.
From S2P Require Import RustStr.
From S2P Require Import Path.
From S2P Require Import Auth.
From S2P Require Import Crypto.
From S2P Require Import Etag.
From S2P Require Import Types.
From S2P Require Import Db.
From S2P Require Import AuditVerify.
From S2P Require Import Timeline.
From S2P Require Import EventId.
From S2P Require Import Store.
From S2P Require Import Demo.
From S2P Require Import TimelineProofs.
From S2P Require Import StorageClass.
From S2P Require Import Core.
From S2P Require Import WorldOps.
From S2P Require Import CoreInv.
From S2P Require Import CoreTheorems.
From S2P Require Import EngineDemo.
From S2P Require Import ReadCache.
From S2P Require Import Frames.
From S2P Require Import Startup.
From S2P Require Import StartupTheorems.
From S2P Require Import EngineOps.
From S2P Require Import Introspection.
From S2P Require Import FacadeSpec.
From S2P Require Import EngineTheorems.
From S2P Require Import IntrospectionTheorems.
From S2P Require Import Announce.
From S2P Require Import Subscription.
From S2P Require Import SubscriptionTheorems.
From S2P Require Import SubscriptionRace.
From S2P Require Import HttpResponse.
From S2P Require Import HttpPipeline.
From S2P Require Import HttpDemo.
From S2P Require Import HttpProc.
From S2P Require Import ProcPath.
From S2P Require Import HttpProcTheorems.
From S2P Require Import HttpListen.
From S2P Require Import CleanEvents.
From S2P Require Import FfiTypes.
From S2P Require Import Ffi.
From S2P Require Import FfiTheorems.
From S2P Require Import FfiSubscription.

(** ** Introspection

    A memory world is added and the engine is at rest beside its directory. *)

Definition tmp_permit : WritePermit := {| wp_world := "tmp/x"; wp_gate := GateWrite |}.

Definition rest_core : Core :=
  snd (replace_write demo_cfg (demo_env no_fault) tmp_permit demo_request after_append).

Definition rest_engine : Engine := {| en_core := rest_core; shutdown := false; listen_slots := 4 |}.
Definition rest_root : list DirEntry := directory_of rest_core.

Lemma rest_core_ok : core_inv demo_cfg rest_core.
Proof.
  unfold rest_core.
  pose proof (replace_write_run demo_cfg demo_cfg_ok (demo_env no_fault) "tmp/x" Write tmp_permit demo_request
                after_append (demo_env_ok no_fault) after_append_ok) as Hrun.
  specialize (Hrun ltac:(evaluate) ltac:(evaluate) ltac:(evaluate)).
  destruct (replace_write demo_cfg (demo_env no_fault) tmp_permit demo_request after_append) as [r c'].
  apply Hrun.
Qed.

Lemma rest_core_names : dom (all_files rest_core) = {["home/a"]} /\ dom (ms_map (mem rest_core)) = {["tmp/x"]}.
Proof. split; apply (bool_decide_eq_true_1 _); evaluate. Qed.

Lemma rest_at_rest : at_rest demo_cfg rest_root rest_engine.
Proof.
  split.
  - apply rest_core_ok.
  - apply (fr_replace_write demo_cfg keys_kept). intros w [x Hx]. exfalso. revert x Hx.
    assert (ms_map (mem after_append) = ∅) as -> by (apply (bool_decide_eq_true_1 _); evaluate).
    intros x Hx. discriminate Hx.
  - intros w Hw. cbn in Hw. apply elem_of_dom in Hw. rewrite (proj1 rest_core_names) in Hw.
    apply elem_of_singleton in Hw as ->. evaluate.
  - apply directory_of_root.
  - evaluate.
Qed.

Lemma listings_exact_witness :
  Engine_list_worlds web_tokens (quiet_scan rest_root) Anon rest_engine = Ok ["home/a"; "tmp/x"]
  /\ Engine_list_worlds_with_prefix_bounded web_tokens (quiet_scan rest_root) "tmp/" Anon 1 rest_engine
     = Ok (Some ["tmp/x"]).
Proof.
  destruct (listings_exact demo_cfg web_tokens rest_root rest_engine Anon rest_at_rest ltac:(evaluate))
    as (l & Hl & _ & Hp).
  assert (Engine_list_worlds web_tokens (quiet_scan rest_root) Anon rest_engine = Ok ["home/a"; "tmp/x"]) as El
    by evaluate.
  split; [exact El|]. rewrite El in Hl. injection Hl as <-.
  destruct (Hp "tmp/" ltac:(evaluate)) as [_ Hb]. apply (Hb 1%Z). split; evaluate.
Defined.


(** *** Requests *)

(** A server whose reads need a token, and a request without one. *)
Definition guarded : Tokens := {| tok_read := Some "r"; tok_write := Some "w"; tok_approve := None |}.

Definition behind (e : Engine) (root : list DirEntry) : Behind :=
  {| bh_engine := e; bh_scan := quiet_scan root; bh_fault := None;
     bh_cache := ReadCache_new ∅ []; bh_max_entries := 5000 |}.

Lemma audit_routes_exact_witness :
  let get := fun a => proc_audit_verify demo_cfg web_tokens None None GET ("home/a" +:+ audit_suffix a) [] rest_engine in
  status (get ActionVerify) = 200%Z /\ ("x-audit-events", "3") ∈ resp_headers (get ActionVerify)
  /\ status (get (ActionStamp 4)) = 204%Z.
Proof.
  pose proof (audit_routes_exact demo_cfg web_tokens GET [] "home/a" 4 rest_engine (or_introl eq_refl)
                ltac:(evaluate) ltac:(split; evaluate) rest_core_ok ltac:(evaluate) ltac:(evaluate)) as Hget.
  assert (event_count <$> files rest_core !! "home/a" = Some 3%Z) as Hn by evaluate.
  cbn [is_memory_world en_core rest_engine] in Hget. change (is_memory_world "home/a") with false in Hget.
  assert (open_file "home/a" rest_core = Ok (files rest_core !! "home/a")) as Ho by evaluate.
  rewrite Ho in Hget. destruct (files rest_core !! "home/a") as [db|]; [|discriminate Hn]. injection Hn as Hn.
  unfold event_count in Hn. destruct (db_events db) as [|first rest] eqn:Ee; [discriminate Hn|].
  destruct Hget as (Hv & _ & Hs). unfold event_count in Hv, Hs. rewrite Ee, Hn in Hv, Hs. cbv beta zeta.
  assert ((first :: rest) !! Z.to_nat (4 - 1) = None) as Hnone.
  { apply lookup_ge_None_2. cbn in Hn |- *. lia. }
  rewrite Hnone in Hs. rewrite Hv, Hs. split; [reflexivity|]. split; [|reflexivity].
  apply list_elem_of_In. right. left. reflexivity.
Defined.

(** ** The listen route

    A client of [home/a] reconnects after its second row; a chunk is appended
    after that. *)

#[global] Instance demo_get_all : HttpGetAll :=
  {| hm_get_all hm name := snd <$> filter (fun f => fst f = name) hm |}.

(** The whole server, asked with [GET]. *)
Definition ask (route : AppRoute) (headers : HeaderMap) (b : Behind) : AppAnswer * Engine :=
  app_handler demo_cfg guarded "0.1.0" demo_server 6 demo_outside
    {| rq_method := GET; rq_route := route; rq_query := None; rq_headers := headers; rq_body := "" |} b.

Definition answered_status (a : AppAnswer) : option Z :=
  match a with Answered resp => status <$> resp | Streaming _ => None end.

Lemma http_noninterference_witness :
  let token := [("authorization", "Bearer r")] in
  let world := RouteWorld "home/a" in
  fst (ask world [] (behind rest_engine rest_root)) = fst (ask world [] (behind demo_engine []))
  /\ answered_status (fst (ask world [] (behind rest_engine rest_root))) = Some 401%Z
  /\ answered_status (fst (ask world token (behind rest_engine rest_root))) = Some 200%Z
  /\ answered_status (fst (ask world token (behind demo_engine []))) = Some 404%Z
  /\ answered_status (fst (ask (RouteProc RouteWorlds) [] (behind rest_engine rest_root))) = Some 401%Z.
Proof.
  assert (can_read guarded (access_tier_from_headers guarded []) = false) as Hr by evaluate.
  pose proof (fun route => http_noninterference demo_cfg guarded "0.1.0" demo_server 6 demo_outside demo_outside
                {| rq_method := GET; rq_route := route; rq_query := None; rq_headers := []; rq_body := "" |}
                (behind rest_engine rest_root) (behind demo_engine []) Hr eq_refl) as Hall.
  split; [exact (proj1 (Hall _))|]. split; [evaluate|]. split; [evaluate|]. split; [evaluate|].
  destruct (Hall (RouteProc RouteWorlds)) as (_ & _ & _ & Hlist). unfold ask.
  rewrite (Hlist eq_refl eq_refl I). reflexivity.
Defined.

Definition listening : Engine := {| en_core := after_append; shutdown := false; listen_slots := 4 |}.

Definition reconnect_headers : HeaderMap :=
  [("accept", "text/event-stream"); ("last-event-id", SubscriptionEventId_to_string marker)].

Lemma demo_resumable : resumable demo_cfg 16 after_append after_append after_append2 "home/a" marker
                         (pattern "home/a").
Proof.
  split.
  - apply after_append_ok.
  - apply rtc_refl.
  - apply keeps_append2.
  - evaluate.
  - evaluate.
  - evaluate.
  - evaluate.
  - assert (sid_seq marker ∈ ev_id <$> rows_of "home/a" after_append) as Hin
      by (apply (bool_decide_eq_true_1 _); evaluate).
    apply list_elem_of_fmap in Hin as (m & Hid & Hm). exists m. split; [exact Hm|symmetry; exact Hid].
  - vm_compute. repeat constructor; first [reflexivity|discriminate].
  - vm_compute. split; discriminate.
  - vm_compute. discriminate.
  - vm_compute. lia.
Qed.

Lemma listen_reconnect_exact_witness :
  exists sub e',
    listen_handler demo_cfg web_tokens None None GET reconnect_headers "home/a" listening = (Stream sub, e')
    /\ omap ev_sse_id (sse_stream (events_sent after_append2) sub)
       = ["home/a@" +:+ demo_gen +:+ "=3"; "home/a@" +:+ demo_gen +:+ "=4"].
Proof.
  destruct (listen_reconnect_exact (capacity := 16) demo_cfg web_tokens demo_cfg_ok listening after_append2 reconnect_headers
              (SubscriptionEventId_to_string marker) "home/a" "home/a" marker demo_resumable)
    as (sub & e' & Hh & _ & _ & Hids & _).
  - evaluate.
  - evaluate.
  - split_and!; evaluate.
  - evaluate.
  - evaluate.
  - evaluate.
  - exists sub, e'. split; [exact Hh|]. rewrite Hids. vm_compute. reflexivity.
Defined.

Lemma demo_text_run : rtc (text_step demo_cfg) core_new after_append.
Proof.
  apply (rtc_l _ _ after_replace); [|apply rtc_once].
  - apply (text_replace demo_cfg core_new (demo_env no_fault) "home/a" Write demo_permit
             (rr_body demo_request) (rr_content_type demo_request) (rr_headers demo_request) (rr_preconditions demo_request));
      [apply demo_env_ok|evaluate..].
  - apply (text_append demo_cfg after_replace (demo_env no_fault) "home/a" Write); [apply demo_env_ok|evaluate..].
Qed.

(** A subscriber to [home/a] is given the append, and its data is read back. *)
Definition demo_sub : EngineSubscription :=
  EngineSubscription_new []
    {| lv_next := rx_start after_replace; lv_pattern := "/home/a"; lv_fence := FenceNone |}.

Lemma sse_event_readable_witness :
  exists change sub',
    recv false (events_sent after_append) demo_sub = Some (Ready (Ok change), sub')
    /\ values "timeline-seq" (data_fields (ev_data (sse_change_event change))) = ["3"].
Proof.
  destruct (recv false (events_sent after_append) demo_sub) as [[p sub']|] eqn:Hr; [|by vm_compute in Hr].
  destruct p as [[change|e]|m|l]; try by vm_compute in Hr. exists change, sub'. split; [reflexivity|].
  assert (subscribed demo_cfg after_append demo_sub) as Hl.
  { apply (listen_opens demo_cfg after_append None None (rx_start after_replace) "/home/a" ResumeNone);
      [exact demo_text_run|vm_compute; reflexivity]. }
  destruct (sse_event_readable (capacity := 16) demo_cfg after_append demo_sub false change sub' Hl (or_introl Hr))
    as (_ & _ & _ & _ & _ & Hs & _).
  rewrite Hs. vm_compute in Hr. injection Hr as <- _. vm_compute. reflexivity.
Defined.

(** ** The foreign-function interface *)

(** *** A bounded queue *)

Record Queue (T : Type) := { q_items : list T; q_capacity : nat; q_open : bool; q_sender : bool }.
Arguments q_items {T} _.
Arguments q_capacity {T} _.
Arguments q_open {T} _.
Arguments q_sender {T} _.

Definition q_with {T} (l : list T) (q : Queue T) : Queue T :=
  {| q_items := l; q_capacity := q_capacity q; q_open := q_open q; q_sender := q_sender q |}.

#[global] Instance queue_mpsc T : Mpsc T := {|
  Chan := Queue T;
  mpsc_channel n := {| q_items := []; q_capacity := n; q_open := true; q_sender := true |};
  mpsc_send x q :=
    if negb (q_open q) then Some (Err tt)
    else if decide (length (q_items q) < q_capacity q)%nat then Some (Ok (q_with (q_items q ++ [x]) q))
    else None;
  mpsc_recv q :=
    match q_items q with
    | x :: l => Some (Some x, q_with l q)
    | [] => if q_open q && q_sender q then None else Some (None, q)
    end;
  mpsc_close q := {| q_items := q_items q; q_capacity := q_capacity q; q_open := false; q_sender := q_sender q |};
  mpsc_drop_sender q :=
    {| q_items := q_items q; q_capacity := q_capacity q; q_open := q_open q; q_sender := false |};
  ch_queue := q_items; ch_capacity := q_capacity; ch_open := q_open; ch_sender := q_sender;
|}.

#[global] Instance queue_mpsc_laws T : MpscLaws T.
Proof.
  split; cbn; try done.
  - by intros x ch ->.
  - intros x ch -> Hf. by rewrite decide_False by lia.
  - intros x ch -> Hr. rewrite decide_True by done. by eexists.
  - intros ch x q ->. by eexists.
  - by intros ch ->.
Qed.

(** *** Resuming *)

Definition ffi_listening : FfiEngine :=
  {| fg_cfg := demo_cfg; fg_tokens := web_tokens; fg_engine := listening;
     fg_config := FfiEngineConfig_summary
       {| fc_data_root := "data"; fc_hmac_key := hmac_key demo_cfg; fc_read_token := None;
          fc_write_token := Some "w"; fc_approve_token := Some "a"; fc_max_world_bytes := None;
          fc_max_memory_bytes := None; fc_max_storage_bytes := None; fc_max_listen_connections := Some 4%Z;
          fc_listen_replay_max := None; fc_read_cache_max_entries := None |} |}.

Definition sent_later : list ChangeEvent :=
  drop (length (events_sent after_append)) (events_sent after_append2).

Lemma sent_grows : events_sent after_append ++ sent_later = events_sent after_append2.
Proof. vm_compute. reflexivity. Qed.

Lemma ffi_subscription_in_order_witness :
  exists sub g' ls s,
    ffi_subscribe None None "home/a" FfiAnon (Some (SubscriptionEventId_to_string marker)) ffi_listening
    = (Ok sub, g')
    /\ sys_run (sys_new (events_sent after_append) false sub) ls s
    /\ omap next_cursor (shown ls) = ["home/a@" +:+ demo_gen +:+ "=3"; "home/a@" +:+ demo_gen +:+ "=4"].
Proof.
  destruct (ffi_subscription_in_order (capacity := 16) ffi_listening after_append2 "home/a" "home/a" marker FfiAnon Anon
              demo_cfg_ok demo_resumable) as (sub & g' & Hsub & Hrun).
  - split_and!; evaluate.
  - reflexivity.
  - evaluate.
  - evaluate.
  - evaluate.
  - set (s0 := sys_new (events_sent after_append) false sub).
    pose proof (sys_run_snoc s0 [] s0 Internal _ (sys_run_nil s0) (engine_sends s0 sent_later)) as Hgrown.
    destruct (Hrun _ _ Hgrown sent_grows) as (_ & _ & _ & _ & Hall).
    destruct Hall as (ls' & s' & Hr & _ & Hids); [split_and!; done|].
    exists sub, g', ([Internal] ++ ls'), s'. split; [exact Hsub|].
    split; [exact (sys_run_app _ _ _ _ _ Hgrown Hr)|]. etransitivity; [exact Hids|]. vm_compute. reflexivity.
Defined.

(** *** A run of calls *)

Definition ffi_demo : FfiEngine :=
  {| fg_cfg := demo_cfg; fg_tokens := demo_tokens; fg_engine := demo_engine; fg_config := fg_config ffi_listening |}.

Definition ffi_plain : FfiPreconditions := {| fp_if_match := []; fp_if_none_match := [] |}.

Definition ffi_note : FfiRepresentation :=
  {| fr_body := "hello"; fr_content_type := "text/plain";
     fr_header_list := [{| fh_name := "X-Author"; fh_value := "me" |}; {| fh_name := "x-author"; fh_value := "you" |}] |}.

Definition ffi_requests : list ffi_request :=
  [FReqReplace "home/a" ffi_note ffi_plain FfiWrite; FReqRead "home/a" FfiRead; FReqRead "../a" FfiRead;
   FReqRead "home/a" FfiTierUnknown;
   FReqDeleteWith "home/a" {| fd_content_type := "text/plain"; fd_headers := [] |} ffi_plain FfiApprove;
   FReqRead "home/a" FfiRead; FReqShutdown; FReqAppend "home/a" "!" ffi_plain FfiWrite].

Fixpoint ffi_calls (qs : list ffi_request) (g : FfiEngine)
  : list (bool * ffi_request * ffi_response) * FfiEngine :=
  match qs with
  | [] => ([], g)
  | q :: qs =>
      let r := ffi_call demo_outside q g in
      let rest := ffi_calls qs (snd r) in ((true, q, fst r) :: fst rest, snd rest)
  end.

Fixpoint ffi_fits (qs : list ffi_request) (g : FfiEngine) : Prop :=
  match qs with
  | [] => True
  | q :: qs => disk_bounded (en_core (fg_engine g)) /\ ffi_fits qs (snd (ffi_call demo_outside q g))
  end.

Lemma ffi_calls_run qs g : ffi_fits qs g -> ffi_run g (fst (ffi_calls qs g)) (snd (ffi_calls qs g)).
Proof.
  revert g. induction qs as [|q qs IH]; intros g; [intros _; constructor|]. intros [Hd Hrest].
  exact (ffi_run_cons g q demo_outside _ _ (demo_env_ok no_fault) Hd (IH _ Hrest)).
Qed.

Definition ffi_brief (p : ffi_response) : string :=
  match p with
  | FRespRead (Ok (Some r)) =>
      fr_body (fx_representation r)
      +:+ from_option (fun h => " " +:+ fh_name h +:+ "=" +:+ fh_value h) "" (head (fr_header_list (fx_representation r)))
  | FRespRead (Ok None) => "absent"
  | FRespRead (Err (FfiInvalidWorld m)) | FRespRead (Err (FfiInvalidConfig m)) => m
  | FRespWrite (Err FfiShuttingDown) => "shutting down"
  | FRespRead (Err _) | FRespWrite (Err _) | FRespDelete (Err _) => "failed"
  | _ => "done"
  end.

Lemma ffi_refines_store_witness :
  let run := ffi_calls ffi_requests ffi_demo in
  map (fun x => ffi_brief (snd x)) (fst run)
  = ["done"; "hello x-author=you"; "invalid world path: ../a"; "unknown access tier"; "done"; "absent"; "done";
     "shutting down"]
  /\ ffi_spec_run demo_cfg demo_tokens (ffi_abstract ffi_demo) (fst run) (ffi_abstract (snd run)).
Proof.
  split; [evaluate|].
  apply (ffi_refines_store ffi_demo); [split; [apply demo_cfg_ok|apply demo_engine_ok]|].
  apply ffi_calls_run. evaluate.
Defined.

(** *** Opening *)

Definition ffi_config : FfiEngineConfig :=
  {| fc_data_root := "data"; fc_hmac_key := "0123456789abcdef0123456789abcdef"; fc_read_token := Some "";
     fc_write_token := Some "w"; fc_approve_token := None; fc_max_world_bytes := Some 0%Z;
     fc_max_memory_bytes := None; fc_max_storage_bytes := Some 0%Z; fc_max_listen_connections := Some 7%Z;
     fc_listen_replay_max := Some 0%Z; fc_read_cache_max_entries := None |}.

Lemma ffi_summary_true_witness :
  exists g, FfiEngine_open ffi_config (fun _ => "") quiet_startup [] None = Ok g
    /\ max_world_bytes (fg_cfg g) = 0%Z /\ max_storage_bytes (fg_cfg g) = None
    /\ listen_slots (fg_engine g) = 7%Z /\ tok_read (fg_tokens g) = None.
Proof.
  destruct (FfiEngine_open ffi_config (fun _ => "") quiet_startup [] None) as [g|] eqn:E;
    [|vm_compute in E; discriminate].
  pose proof (ffi_summary_true ffi_config (fun _ => "") quiet_startup [] g) as Ht. cbv zeta in Ht.
  destruct Ht as (_ & _ & Hw & _ & Hs & _ & Hl & Ht & _); [repeat constructor; vm_compute; discriminate|exact E|].
  assert (config_summary g = FfiEngineConfig_summary ffi_config) as Hsum by (vm_compute in E; by injection E as <-).
  exists g. rewrite Hw, Hs, Hl, Ht, Hsum. split; [reflexivity|]. vm_compute. by split_and!.
Defined.
